(* ===== verification/_CoqProject ===== *)
-Q . S2P
Prelude.v
Ordering.v
ReceivedPacketTracker.v
F64.v
F64Round.v
SentPacketTracker.v
TokenBucket.v
FairQueue.v
StreamingBuffer.v
SymmetricMessage.v
CongestionControl.v
Connection.v
HostingCache.v
BoundedMap.v
UpdateRateLimit.v
ContractBanList.v
OutstandingResync.v
MergeBackoff.v
RequestRouter.v
OrphanStreams.v
VersionCmp.v
Backoff.v
PeerConnectionBackoff.v
ConnectionBackoff.v
DeltaIncompat.v
VisitedPeers.v
Location.v
Demand.v
DiskUsage.v
HostingStore.v
HostingManager.v
ContractStore.v
ByteBoundedLru.v
StateStore.v
Reclamation.v
InitTracker.v
Upsert.v
Interest.v
InterestRaces.v
DeltaSync.v
ResyncLimiter.v
