(* ===== verification/Prelude.v ===== *)
(** * A verification library for the Freenet core node

    The program is [src/crates/core], a peer of a decentralised key-value store.
    This library verifies its self-contained algorithmic parts: the reliable
    transport under every connection, the queue in front of the contract
    executor, how contract states are validated, stored, cached and reclaimed, what
    decides which contracts a peer hosts, and the gates and registries that bound
    what peers and clients can ask of it.

    ** Parts and files

    - This file: machine integers ([sat_*] for [saturating_*], [+w64] for the
      wrapping operators of a release build), [Duration] in nanoseconds, sums over
      lists and maps, and the tactics [case_bool], [to_props], [int_lia].
    - [F64], [F64Round]: binary64 by the exact [SpecFloat] operations, the float
      methods of [Duration], and the rounding bounds the proofs need.
    - [Ordering]: [Ordering::then_with], byte-string comparison and the stable
      [sort_by], with the interface [Comparator] the sorting lemmas rely on.
    - [ReceivedPacketTracker] ([transport/received_packet_tracker.rs]): duplicate
      suppression and receipt batching on the receiving side.
    - [SentPacketTracker] ([transport/sent_packet_tracker.rs]): packets in flight,
      retransmission timers, RTT estimation, stream ownership.
    - [TokenBucket] ([transport/token_bucket.rs]): pacing.
    - [StreamingBuffer] ([transport/peer_connection/streaming_buffer.rs], the
      fragmentation loop of [outbound_stream.rs], the consumer of [streaming.rs]):
      a stream cut into fragments and reassembled by concurrent tasks.
    - [SymmetricMessage] ([transport/symmetric_message.rs], the packet plan of
      [peer_connection.rs]): sizes of messages, and what fits in one packet.
    - [CongestionControl] ([transport/congestion_control.rs],
      [transport/fixed_rate/controller.rs]): what a connection expects of a
      controller, as a class, and the default controller as an instance.
    - [Connection] ([transport/peer_connection.rs], [outbound_stream.rs], the handler
      of [connection_handler.rs]): the tasks of a connection, which charge the
      controller, register packets with the tracker, acknowledge, resend and abort,
      and the registration of the handshake packet, in any interleaving.
    - [FairQueue] ([contract/fair_queue.rs], the shedding push of [contract.rs]):
      three priority tiers, round robin over contracts, bounded admission.
    - [HostingCache] ([ring/hosting/cache.rs]): byte budget, subscriber-primary
      eviction, cost-pressure eviction, reload at startup.
    - [BoundedMap]: a concurrent map with a reservation counter, the idiom shared by
      the gates of the ring below, step by step under any schedule.
    - [UpdateRateLimit] ([ring/update_rate_limit.rs]), [ContractBanList]
      ([ring/contract_ban_list.rs]), [OutstandingResync] (the outstanding requests of
      [ring/resync_rate_limit.rs]), [MergeBackoff] ([ring/merge_backoff.rs]): the
      gates an update passes before it is merged, all built on [BoundedMap].
    - [RequestRouter] ([node/request_router.rs]): deduplication of client requests,
      sequentially and interleaved.
    - [OrphanStreams] ([operations/orphan_streams.rs]): pairing a stream with the
      message that announces it, interleaved.
    - [DeltaIncompat] ([ring/delta_incompat.rs]): when to send full state instead of
      deltas.
    - [Backoff] ([util/backoff.rs]), with its clients [PeerConnectionBackoff]
      ([ring/peer_connection_backoff.rs], gateways) and [ConnectionBackoff]
      ([ring/connection_backoff.rs], ring locations).
    - [VisitedPeers] ([operations/visited_peers.rs]): the Bloom filter of a search.
    - [VersionCmp] ([transport/connection_handler/version_cmp.rs]): the versions two
      peers exchange and their compatibility.
    - [Location] ([ring/location.rs]): positions on the ring and their distances.
    - [Demand] ([ring/hosting/demand.rs]), [DiskUsage] ([ring/hosting/disk_usage.rs])
      and [HostingStore] (the hosting metadata of [contract/storages/redb.rs]): what
      the hosting manager consults to rank, bound and persist what it hosts.
    - [HostingManager] ([ring/hosting.rs]): leases, clients, downstream peers and
      phantom repair around the [HostingCache], which it drives together with the
      four files above and [Backoff].
    - [ContractStore] ([wasm_runtime/contract_store.rs]): the code of the contracts on
      disk, shared by the executors.
    - [ByteBoundedLru] ([contract/executor.rs]) and [StateStore]
      ([wasm_runtime/state_store.rs] and the summaries and deltas of
      [contract/executor/runtime/executor_impl.rs]): the cached states and what is
      computed from them.
    - [Reclamation] ([contract/executor/runtime/pool.rs], [contract_ops.rs], the sweep of
      [ring.rs], [operations.rs]): composes [HostingManager], [HostingStore] and
      [ContractStore] into a node whose tasks evict, write and delete concurrently.
    - [InitTracker] ([contract/executor/init_tracker.rs]) and [Upsert]
      ([bridged_upsert_contract_state_inner] of
      [contract/executor/runtime/executor_impl.rs]): how a PUT or an UPDATE becomes a
      stored state, over [StateStore] and [ContractStore].
    - [Interest], [InterestRaces] and [DeltaSync] ([ring/interest.rs]): which peers are
      interested in which contracts, the same calls interleaved access by access, and the
      deltas and resynchronisation requests they lead to.
    - [ResyncLimiter] (the token buckets of [ring/resync_rate_limit.rs]): how many
      resynchronisation requests and responses a node sends, in binary64 tokens.

    Each file has one [Module] with the state as a [Record], one definition per
    function of the source under the function's name, then the invariant and the
    properties.  Clocks, random choices and the outcome of a send are arguments.
    A panic is [None]; an error is a value.  A [HashMap] is a [gmap].  Concurrent
    code is a small-step function on a program counter and the shared state, run
    by an arbitrary schedule.

    ** What is shown

    - Reassembly: whatever the interleaving, losses and duplicates, a complete
      buffer holds the bytes that were sent; the contiguous frontier is maximal
      when no insertion is running; an insertion running alone finishes.
    - Accounting: the controller's flight size is what the tracker and the running
      tasks account for, up to the handshake packet of a connection a gateway
      accepted, and a packet's bytes are released once.  The client theorems are
      proved for any controller with the laws of [FlightAccounting].
    - Retransmission: actions only for packets whose timer passed, bounded
      retransmissions, no RTT sample from a retransmitted packet, no panic.
    - Queue: FIFO per contract and priority, fairness, no starvation of lower
      classes, reserved room for clients.
    - Cache: exact byte accounting, eviction of the shortest prefix of the victim
      order, newcomers always hosted, exact characterisation of the cost sweep.
    - Gates: the entry count never exceeds its cap whatever the interleaving; a
      security ban holds until it expires; admitted updates are spaced; a sender is
      held back only for its own failures or a contract-wide one, and not for ever.
    - Routing: request deduplication refines a table from resources to operations,
      and no request joins an operation whose completion has returned.
    - Streams: a handle reaches at most one claim, one for its own key.
    - Backoff and evidence: a gateway is held back for at most 108 seconds after a
      failure; resynchronisation requests of one peer alone never make a node stop
      sending deltas, the rejected deltas of one peer can.
    - Search and handshake: a visited peer is always recognised; both ends of a
      handshake take the same decision.
    - Hosting: no call of the manager panics or leaves it ill-formed; what is evicted
      is no longer in use; a contract that stays without state is fetched at most three times;
      renewal follows demand, and demand has to be kept up; the disk usage on record
      is never below the true one by more than what the running calls have still to
      add; metadata survives its encoding.
    - Ring: every contract has a location, any two a distance of at most one half; the
      addresses of one subnet share a location.
    - Code: an indexed contract can be fetched by every executor, a removed one by none.
    - States: a read returns what the database holds, a summary or delta is the one the
      contract computes from it unless two of the states or summaries hashed collide,
      and the caches keep to their byte budget.
    - Reclamation: a state on disk is hosted or a reclamation of it is under way; a
      removal decided before a write deletes nothing; a pending one completes, state and
      code, on every schedule that goes on sweeping and handling events.
    - Upserts: a stored state was validated by its contract; the answer says what was
      written; what a refused first PUT leaves behind, error by error.
    - Interests: the nested maps and indexes behave as one table of pairs, also when the
      calls of concurrent tasks interleave, except that a contract can fall out of the hash
      index, in the one way that is described; the delta cache answers what the contract would; resynchronisation requests
      keep their distance.
      While there is room for the keys, forgetting an idle bucket of the resynchronisation
      limiters never changes an answer.

    Theorems about state hold of every state reachable from the initial one by any
    sequence of calls.  [Example]s not listed as properties are concrete runs where
    the code departs from its comments.

    ** Bounds

    Recursion is structural on the data wherever the loop consumes data.  Loops
    with fuel are the frontier loop (one more than the number of slots, which it
    advances at every turn), the resend loop (the length of the queue plus one, each
    turn removes an entry or returns), the fragmentation loop (the number of
    fragments the code computes), the retry of a ban (see [ban_decides]) and the
    eviction of [Backoff] (the number of entries).  Each has a theorem or a lemma
    that the fuel is not exhausted.  Trace theorems that need machine integers not
    to saturate say so in a hypothesis on the trace, with a witness.

    ** Third-party code

    [bincode]'s sizes ([SymmetricMessage]), contract keys, peer addresses,
    transactions, client payloads, the hash of [VisitedPeers], the isotonic regression
    and the exponential of [Demand], the encoding of code blobs ([ContractStore]) and
    the failures of the database and the file system are parameters, as is the
    iteration order of a map where it decides ([ContractBanList], [Backoff],
    [HostingManager]); a law used of them is a named hypothesis with an instance.

    ** Not modelled

    Sockets, encryption, the handshake and the asynchronous runtime; the LEDBAT and
    BBR controllers; the operations, routing and topology, which are asynchronous
    drivers around statistics and randomness; the WASM engine, the
    client API, configuration, telemetry and the command-line tools. *)

From Stdlib Require Export ZArith Lia Sorting.Sorted.
From stdpp Require Export prelude gmap.

(** ** Scope and notations *)

Declare Scope rust_scope.
Delimit Scope rust_scope with rust.
#[global] Open Scope Z_scope.

(** ** Machine integers

    A Rust unsigned integer of width [w] is a [Z] in [[0, 2^w)].  The
    operators below are the ones the sources use: the plain operators of a
    release build wrap around, the [saturating_*] methods clamp. *)

Definition u32_max : Z := 2 ^ 32 - 1.
Definition u64_max : Z := 2 ^ 64 - 1.
(** [usize] and [isize] on the 64-bit targets the node is built for. *)
Definition usize_max : Z := 2 ^ 64 - 1.
Definition isize_max : Z := 2 ^ 63 - 1.
Definition isize_min : Z := - 2 ^ 63.

Definition wrap32 (z : Z) : Z := z mod 2 ^ 32.
Definition wrap64 (z : Z) : Z := z mod 2 ^ 64.
(** Two's complement reading of the low 64 bits: [x as isize], and the wrapping
    signed operators. *)
Definition wrap_i64 (z : Z) : Z := (z + 2 ^ 63) mod 2 ^ 64 - 2 ^ 63.

Notation "a +w64 b" := (wrap64 (a + b)) (at level 50, left associativity) : rust_scope.
Notation "a -w64 b" := (wrap64 (a - b)) (at level 50, left associativity) : rust_scope.
Notation "a +w32 b" := (wrap32 (a + b)) (at level 50, left associativity) : rust_scope.
#[global] Open Scope rust_scope.

Definition sat_sub (a b : Z) : Z := Z.max 0 (a - b).
Definition sat_add64 (a b : Z) : Z := Z.min u64_max (a + b).
Definition sat_add32 (a b : Z) : Z := Z.min u32_max (a + b).
Definition sat_mul32 (a b : Z) : Z := Z.min u32_max (a * b).

(** [is_u32 z] and [is_u64 z]: [z] is a value of that width. *)
Definition is_u32 (z : Z) : Prop := 0 <= z <= u32_max.
Definition is_u64 (z : Z) : Prop := 0 <= z <= u64_max.

(** ** std::time::Duration

    A [Duration] is its total number of nanoseconds; the type holds
    [u64] seconds and a sub-second part below one billion. *)

Definition nanos_per_sec : Z := 1000000000.
Definition duration_max : Z := u64_max * nanos_per_sec + 999999999.

Definition from_secs (s : Z) : Z := s * nanos_per_sec.
Definition from_millis (ms : Z) : Z := ms * 1000000.
Definition from_nanos (ns : Z) : Z := ns.
(** [d.as_nanos() as u64] *)
Definition as_nanos_u64 (d : Z) : Z := wrap64 d.
(** [Duration::saturating_mul], by a [u32]. *)
Definition dur_saturating_mul (d k : Z) : Z := Z.min duration_max (d * k).

(** ** Automation *)

Create HintDb freenet.

Ltac unfold_ints :=
  unfold is_u32, is_u64, sat_sub, sat_add64, sat_add32, sat_mul32 in *;
  unfold u32_max, u64_max, usize_max, isize_max, isize_min in *.

Ltac int_lia := unfold_ints; lia.

(** Case analysis on the boolean tests of a definition, turning each into the
    proposition it decides. *)
Ltac case_bool :=
  match goal with
  | |- context [ if ?b then _ else _ ] =>
      lazymatch type of b with bool => destruct b eqn:? | _ => fail end
  | H : context [ if ?b then _ else _ ] |- _ =>
      lazymatch type of b with bool => destruct b eqn:? | _ => fail end
  end.

Ltac to_props :=
  repeat match goal with
  | H : (_ <? _) = true |- _ => apply Z.ltb_lt in H
  | H : (_ <? _) = false |- _ => apply Z.ltb_ge in H
  | H : (_ <=? _) = true |- _ => apply Z.leb_le in H
  | H : (_ <=? _) = false |- _ => apply Z.leb_gt in H
  | H : (_ =? _) = true |- _ => apply Z.eqb_eq in H
  | H : (_ =? _) = false |- _ => apply Z.eqb_neq in H
  | H : (_ && _) = true |- _ => apply andb_true_iff in H; destruct H
  | H : (_ || _) = false |- _ => apply orb_false_iff in H; destruct H
  | H : negb _ = true |- _ => apply negb_true_iff in H
  | H : negb _ = false |- _ => apply negb_false_iff in H
  | H : bool_decide _ = true |- _ => apply bool_decide_eq_true in H
  | H : bool_decide _ = false |- _ => apply bool_decide_eq_false in H
  end.

(** ** Lemmas on machine integers *)

Lemma wrap64_id (z : Z) : is_u64 z -> wrap64 z = z.
Proof. intros H. unfold wrap64. apply Z.mod_small. int_lia. Qed.

Lemma wrap64_range (z : Z) : is_u64 (wrap64 z).
Proof. unfold wrap64. pose proof (Z.mod_pos_bound z (2 ^ 64) eq_refl). int_lia. Qed.

Lemma wrap32_id (z : Z) : is_u32 z -> wrap32 z = z.
Proof. intros H. unfold wrap32. apply Z.mod_small. int_lia. Qed.

Lemma wrap_i64_id (z : Z) : isize_min <= z <= isize_max -> wrap_i64 z = z.
Proof. intros H. unfold wrap_i64. rewrite Z.mod_small by int_lia. lia. Qed.

Lemma wrap32_add_l (a b : Z) : wrap32 (wrap32 a + b) = wrap32 (a + b).
Proof. unfold wrap32. by rewrite Zplus_mod_idemp_l. Qed.

#[export] Hint Resolve wrap64_range : freenet.

(** ** Lemmas on lists *)

Lemma list_in_filter {A} (P : A -> Prop) `{!forall x, Decision (P x)} (l : list A) x :
  x ∈ filter P l <-> P x /\ x ∈ l.
Proof. apply list_elem_of_filter. Qed.

Lemma filter_ext_in {A} (P Q : A -> Prop) `{!forall x, Decision (P x), !forall x, Decision (Q x)} (l : list A) :
  (forall x, x ∈ l -> P x <-> Q x) -> filter P l = filter Q l.
Proof.
  induction l as [|x l IH]; intros HPQ; [done|]. rewrite !filter_cons.
  rewrite IH by (intros y Hy; apply HPQ; by right). pose proof (HPQ x (list_elem_of_here _ _)) as Hx.
  by repeat case_decide; naive_solver.
Qed.

Lemma filter_none {A} (P : A -> Prop) `{!forall x, Decision (P x)} (l : list A) :
  (forall x, x ∈ l -> ~ P x) -> filter P l = [].
Proof.
  induction l as [|x l IH]; intros Hn; [done|]. rewrite filter_cons_False by (apply Hn; left).
  apply IH. intros y Hy. apply Hn. by right.
Qed.

Lemma snoc_not_nil {A} (l : list A) x : l ++ [x] <> [].
Proof. by destruct l. Qed.

(** The sum of a [Z]-valued measure over a list; and its behaviour under
    the operations the components perform. *)
Definition sumZ {A} (f : A -> Z) (l : list A) : Z := foldr (fun x s => f x + s) 0 l.

Lemma sumZ_app {A} (f : A -> Z) l1 l2 : sumZ f (l1 ++ l2) = sumZ f l1 + sumZ f l2.
Proof. induction l1 as [|x l1 IH]; simpl; [done|]. rewrite IH. lia. Qed.

Lemma sumZ_perm {A} (f : A -> Z) l1 l2 : l1 ≡ₚ l2 -> sumZ f l1 = sumZ f l2.
Proof. induction 1; simpl; lia. Qed.

#[export] Instance sumZ_proper {A} (f : A -> Z) : Proper ((≡ₚ) ==> (=)) (sumZ f).
Proof. intros l1 l2. apply sumZ_perm. Qed.

Lemma sumZ_insert {A} (f : A -> Z) l i x y :
  l !! i = Some x -> sumZ f (<[i := y]> l) = sumZ f l - f x + f y.
Proof.
  revert i. induction l as [|a l IH]; intros [|i] Hi; simplify_eq/=; [lia|]. rewrite (IH i Hi). lia.
Qed.

Lemma sumZ_nonneg {A} (f : A -> Z) l : (forall x, x ∈ l -> 0 <= f x) -> 0 <= sumZ f l.
Proof.
  induction l as [|x l IH]; simpl; intros H; [done|].
  pose proof (H x ltac:(by left)). pose proof (IH ltac:(intros y Hy; apply H; by right)). lia.
Qed.

(** ** Lemmas on sets *)

Section sets.
Context {A : Type} `{Countable A}.
Implicit Types (x : A) (X : gset A).

Lemma elem_of_add x X : x ∈ {[x]} ∪ X.
Proof. set_solver. Qed.

Lemma not_elem_of_remove x X : x ∉ X ∖ {[x]}.
Proof. set_solver. Qed.

End sets.

#[export] Hint Resolve elem_of_add not_elem_of_remove : freenet.

(** ** Sums over finite maps *)

Section map_sum.
Context {K V : Type} `{Countable K}.

Definition map_sum (f : V -> Z) (m : gmap K V) : Z := sumZ (fun e => f e.2) (map_to_list m).

Lemma map_sum_empty f : map_sum f ∅ = 0.
Proof. unfold map_sum. by rewrite map_to_list_empty. Qed.

Lemma map_sum_insert f m k v : m !! k = None -> map_sum f (<[k:=v]> m) = f v + map_sum f m.
Proof. intros Hk. unfold map_sum. by rewrite map_to_list_insert. Qed.

Lemma map_sum_delete f m k v : m !! k = Some v -> map_sum f m = f v + map_sum f (delete k m).
Proof.
  intros Hk. rewrite <- (insert_id m k v) at 1 by done. rewrite <- insert_delete_eq.
  apply map_sum_insert, lookup_delete_eq.
Qed.

Lemma map_sum_update f m k v v' :
  m !! k = Some v -> f v' = f v -> map_sum f (<[k:=v']> m) = map_sum f m.
Proof.
  intros Hk Hf. rewrite (map_sum_delete f m k v Hk), <- Hf.
  rewrite <- insert_delete_eq. apply map_sum_insert, lookup_delete_eq.
Qed.

Lemma map_sum_replace f m k v v' :
  m !! k = Some v -> map_sum f (<[k:=v']> m) = map_sum f m - f v + f v'.
Proof.
  intros Hk. rewrite (map_sum_delete f m k v Hk).
  rewrite <- insert_delete_eq, map_sum_insert by apply lookup_delete_eq. lia.
Qed.

Lemma map_sum_nonneg f m : (forall k v, m !! k = Some v -> 0 <= f v) -> 0 <= map_sum f m.
Proof.
  intros Hf. apply sumZ_nonneg. intros [k v] Hin. by apply (Hf k), elem_of_map_to_list.
Qed.

Lemma map_sum_le f m k v :
  (forall k v, m !! k = Some v -> 0 <= f v) -> m !! k = Some v -> f v <= map_sum f m.
Proof.
  intros Hf Hk. rewrite (map_sum_delete f m k v Hk).
  pose proof (map_sum_nonneg f (delete k m)) as H'. enough (0 <= map_sum f (delete k m)) by lia.
  apply H'. intros k' v' [_ Hk']%lookup_delete_Some. eauto.
Qed.

End map_sum.

Lemma sumZ_lookup_le {A} (f : A -> Z) l i x : (forall a, 0 <= f a) -> l !! i = Some x -> f x <= sumZ f l.
Proof.
  intros Hf. revert i. induction l as [|a l IH]; intros [|i] Hi; simplify_eq/=.
  - assert (0 <= sumZ f l) by (by apply sumZ_nonneg). lia.
  - pose proof (IH i Hi). pose proof (Hf a). lia.
Qed.

Lemma sumZ_pair_le {A} (f : A -> Z) l i j x y :
  (forall a, 0 <= f a) -> i <> j -> l !! i = Some x -> l !! j = Some y -> f x + f y <= sumZ f l.
Proof.
  intros Hf. revert i j. induction l as [|a l IH]; intros [|i] [|j] Hne Hi Hj; simplify_eq/=.
  - pose proof (sumZ_lookup_le f l j y Hf Hj). lia.
  - pose proof (sumZ_lookup_le f l i x Hf Hi). lia.
  - pose proof (IH i j ltac:(congruence) Hi Hj). pose proof (Hf a). lia.
Qed.

Lemma sumZ_le {A} (f g : A -> Z) l : (forall a, f a <= g a) -> sumZ f l <= sumZ g l.
Proof. intros H. induction l as [|a l IH]; simpl; [done|]. specialize (H a). lia. Qed.

Lemma sumZ_cons {A} (f : A -> Z) a l : sumZ f (a :: l) = f a + sumZ f l.
Proof. done. Qed.
Lemma sumZ_nil {A} (f : A -> Z) : sumZ f [] = 0.
Proof. done. Qed.

Lemma sumZ_map {A B} (f : B -> Z) (g : A -> B) l : sumZ f (map g l) = sumZ (fun a => f (g a)) l.
Proof. induction l as [|a l IH]; simpl; [done|]. by rewrite IH. Qed.

Lemma sumZ_ext {A} (f g : A -> Z) l : (forall a, a ∈ l -> f a = g a) -> sumZ f l = sumZ g l.
Proof.
  induction l as [|x l IH]; intros H; simpl; [done|]. rewrite (H x) by left. f_equal. apply IH. intros a Ha. apply H. by right.
Qed.

Lemma sumZ_zero {A} (f : A -> Z) l : (forall a, a ∈ l -> f a = 0) -> sumZ f l = 0.
Proof.
  induction l as [|a l IH]; simpl; intros H; [done|]. rewrite (H a) by (by left). apply IH. intros b Hb. apply H. by right.
Qed.

(** ** Timed traces

    Calls with the clock reading each of them takes; readings do not go back. *)

Section timed.
Context {A : Type}.

Fixpoint clock_monotone (now : Z) (es : list (Z * A)) : bool :=
  match es with
  | [] => true
  | e :: es => (now <=? e.1) && clock_monotone e.1 es
  end.

Fixpoint clock_end (now : Z) (es : list (Z * A)) : Z :=
  match es with [] => now | e :: es => clock_end e.1 es end.

Lemma clock_monotone_app now es es' :
  clock_monotone now (es ++ es') = clock_monotone now es && clock_monotone (clock_end now es) es'.
Proof.
  revert now. induction es as [|e es IH]; intros now; simpl; [done|]. by rewrite IH, andb_assoc.
Qed.

Lemma clock_end_app now es es' : clock_end now (es ++ es') = clock_end (clock_end now es) es'.
Proof. revert now. induction es as [|e es IH]; intros now; simpl; [done|]. apply IH. Qed.

Lemma clock_end_le now es : clock_monotone now es = true -> now <= clock_end now es.
Proof.
  revert now. induction es as [|e es IH]; intros now; simpl; [lia|]. intros [? ?%IH]%andb_true_iff. lia.
Qed.

Lemma clock_monotone_le now now' es : now' <= now -> clock_monotone now es = true -> clock_monotone now' es = true.
Proof. destruct es as [|e es]; simpl; [done|]. intros Hle [? ->]%andb_true_iff. rewrite andb_true_r. lia. Qed.

(** An invariant that may mention the clock, kept by every call. *)
Lemma timed_run_inv {St} (step : St -> Z * A -> St) (inv : Z -> St -> Prop) now st es :
  (forall now st e, now <= e.1 -> inv now st -> inv e.1 (step st e)) ->
  clock_monotone now es = true -> inv now st -> inv (clock_end now es) (foldl step st es).
Proof.
  intros Hstep. revert now st. induction es as [|e es IH]; intros now st Hm Hinv; simpl in *; [done|].
  to_props. apply IH; [done|]. by apply (Hstep now).
Qed.

(** What happened since the last call that resets. *)
Definition since (reset : A -> bool) (es : list (Z * A)) : list (Z * A) :=
  foldl (fun l e => if reset e.2 then [] else l ++ [e]) [] es.

Lemma since_snoc reset es e : since reset (es ++ [e]) = if reset e.2 then [] else since reset es ++ [e].
Proof. unfold since. by rewrite foldl_app. Qed.

Lemma elem_of_since_snoc reset es e x :
  reset e.2 = false -> x ∈ since reset (es ++ [e]) <-> x ∈ since reset es \/ x = e.
Proof. intros Hr. rewrite since_snoc, Hr, elem_of_app, list_elem_of_singleton. done. Qed.

End timed.
