(* ===== verification/Ordering.v ===== *)
(** * [std::cmp::Ordering] and stable sorting

    The comparator combinators the sources use ([cmp], [then_with], byte-string
    comparison) and [sort_by].  [Class Comparator] states that a comparison
    function is a total preorder, which is what [sort_by] requires of it;
    [comparator_on], [comparator_then] and [comparator_rev] build the comparators of
    the sources from those of their components. *)

From S2P Require Import Prelude.

(** [Ordering::then_with] *)
Definition then_with (c1 c2 : comparison) : comparison :=
  match c1 with Eq => c2 | _ => c1 end.

(** A total preorder given by a three-way comparison. *)
Class Comparator {A : Type} (cmp : A -> A -> comparison) : Prop := {
  cmp_flip x y : cmp y x = CompOpp (cmp x y);
  cmp_eq x y z : cmp x y = Eq -> cmp x z = cmp y z;
  cmp_lt_trans x y z : cmp x y = Lt -> cmp y z = Lt -> cmp x z = Lt;
}.

Arguments cmp_flip {A} cmp {_} x y.
Arguments cmp_eq {A} cmp {_} x y z.
Arguments cmp_lt_trans {A} cmp {_} x y z.

Section comparators.
Context {A B : Type}.

#[export] Instance comparator_Z : Comparator Z.compare.
Proof.
  split.
  - intros x y. apply Z.compare_antisym.
  - by intros x y z ->%Z.compare_eq.
  - intros x y z. rewrite !Z.compare_lt_iff. lia.
Qed.

#[export] Instance comparator_nat : Comparator Nat.compare.
Proof.
  split.
  - intros x y. apply Nat.compare_antisym.
  - by intros x y z ->%Nat.compare_eq.
  - intros x y z. rewrite !Nat.compare_lt_iff. lia.
Qed.

(** [a.cmp(b)] on a component. *)
Lemma comparator_on (f : B -> A) (cmp : A -> A -> comparison) :
  Comparator cmp -> Comparator (fun x y => cmp (f x) (f y)).
Proof.
  intros H. split; intros.
  - apply (cmp_flip cmp).
  - by apply (cmp_eq cmp).
  - by eapply (cmp_lt_trans cmp).
Qed.

Lemma comparator_then (cmp1 cmp2 : A -> A -> comparison) :
  Comparator cmp1 -> Comparator cmp2 ->
  Comparator (fun x y => then_with (cmp1 x y) (cmp2 x y)).
Proof.
  intros H1 H2. split.
  - intros x y. rewrite (cmp_flip cmp1 x y), (cmp_flip cmp2 x y). by destruct (cmp1 x y).
  - intros x y z. destruct (cmp1 x y) eqn:E; simpl; intros E2; [|done..].
    by rewrite (cmp_eq cmp1 _ _ z E), (cmp_eq cmp2 _ _ z E2).
  - intros x y z Hxy Hyz.
    destruct (cmp1 x y) eqn:E; simpl in Hxy; [|clear Hxy|done].
    + rewrite (cmp_eq cmp1 _ _ z E). destruct (cmp1 y z) eqn:E'; simpl in *; [by eapply (cmp_lt_trans cmp2)|done..].
    + destruct (cmp1 y z) eqn:E'; simpl in Hyz; [|by rewrite (cmp_lt_trans cmp1 _ _ _ E E')|done].
      assert (Hxz : cmp1 z x = Gt).
      { rewrite <- (cmp_eq cmp1 y z x E'). rewrite (cmp_flip cmp1 x y), E. done. }
      by rewrite (cmp_flip cmp1 z x), Hxz.
Qed.

Lemma comparator_ext (cmp cmp' : A -> A -> comparison) :
  (forall x y, cmp' x y = cmp x y) -> Comparator cmp -> Comparator cmp'.
Proof.
  intros He H. split; intros x y; intros; rewrite !He in *.
  - apply (cmp_flip cmp).
  - by apply (cmp_eq cmp).
  - by eapply (cmp_lt_trans cmp).
Qed.

(** A comparator reversed: [b.cmp(a)]. *)
Lemma comparator_rev (cmp : A -> A -> comparison) :
  Comparator cmp -> Comparator (fun x y => cmp y x).
Proof.
  intros H. split.
  - intros x y. apply (cmp_flip cmp).
  - intros x y z E. assert (E' : cmp x y = Eq) by (rewrite (cmp_flip cmp y x), E; done).
    rewrite (cmp_flip cmp x z), (cmp_flip cmp y z). by rewrite (cmp_eq cmp x y z E').
  - intros x y z H1 H2. by eapply (cmp_lt_trans cmp).
Qed.

End comparators.

(** ** Byte strings: lexicographic order *)

Definition byte_val (b : Byte.byte) : Z := Z.of_N (Byte.to_N b).

Fixpoint bytes_cmp (a b : list Byte.byte) : comparison :=
  match a, b with
  | [], [] => Eq
  | [], _ :: _ => Lt
  | _ :: _, [] => Gt
  | x :: a, y :: b => then_with (Z.compare (byte_val x) (byte_val y)) (bytes_cmp a b)
  end.

Lemma byte_val_inj x y : byte_val x = byte_val y -> x = y.
Proof.
  unfold byte_val. intros H%N2Z.inj. apply (f_equal Byte.of_N) in H.
  rewrite !Byte.of_to_N in H. by injection H.
Qed.

Lemma bytes_cmp_eq a b : bytes_cmp a b = Eq <-> a = b.
Proof.
  revert b. induction a as [|x a IH]; intros [|y b]; simpl; [done..|].
  destruct (byte_val x ?= byte_val y) eqn:E; simpl.
  - apply Z.compare_eq, byte_val_inj in E as ->. rewrite IH. naive_solver.
  - split; [done|]. intros [= -> ->]. by rewrite Z.compare_refl in E.
  - split; [done|]. intros [= -> ->]. by rewrite Z.compare_refl in E.
Qed.

#[export] Instance comparator_bytes : Comparator bytes_cmp.
Proof.
  split.
  - intros a. induction a as [|x a IH]; intros [|y b]; simpl; [done..|].
    rewrite (cmp_flip Z.compare (byte_val x) (byte_val y)), IH.
    by destruct (byte_val x ?= byte_val y).
  - by intros a b c ->%bytes_cmp_eq.
  - intros a. induction a as [|x a IH]; intros [|y b] [|z c]; simpl; try done.
    destruct (Z.compare_spec (byte_val x) (byte_val y)), (Z.compare_spec (byte_val y) (byte_val z)),
      (Z.compare_spec (byte_val x) (byte_val z)); simpl; try done; try lia. by apply IH.
Qed.

(** ** [sort_by]: a stable sort *)

Section sort.
Context {A : Type} (cmp : A -> A -> comparison).

(** [x] does not come after [y]. *)
Definition le_by (x y : A) : Prop := cmp x y <> Gt.

Fixpoint insert_by (x : A) (l : list A) : list A :=
  match l with
  | [] => [x]
  | y :: l' => match cmp x y with Gt => y :: insert_by x l' | _ => x :: l end
  end.

Definition sort_by (l : list A) : list A := foldr insert_by [] l.

Lemma insert_by_perm x l : insert_by x l ≡ₚ x :: l.
Proof.
  induction l as [|y l IH]; simpl; [done|]. destruct (cmp x y); [done..|].
  rewrite IH. apply Permutation_swap.
Qed.

Lemma sort_by_perm l : sort_by l ≡ₚ l.
Proof. induction l as [|x l IH]; simpl; [done|]. by rewrite insert_by_perm, IH. Qed.

Context `{!Comparator cmp}.

Lemma le_by_trans x y z : le_by x y -> le_by y z -> le_by x z.
Proof.
  unfold le_by. intros H1 H2.
  destruct (cmp x y) eqn:E1; [by rewrite (cmp_eq cmp _ _ z E1)| |done].
  destruct (cmp y z) eqn:E2; [|by rewrite (cmp_lt_trans cmp _ _ _ E1 E2)|done].
  assert (E3 : cmp z x = Gt) by (rewrite <- (cmp_eq cmp y z x E2), (cmp_flip cmp x y), E1; done).
  by rewrite (cmp_flip cmp z x), E3.
Qed.

Lemma le_by_total x y : le_by x y \/ le_by y x.
Proof. unfold le_by. rewrite (cmp_flip cmp x y). destruct (cmp x y); naive_solver. Qed.

Lemma insert_by_sorted x l : StronglySorted le_by l -> StronglySorted le_by (insert_by x l).
Proof.
  induction 1 as [|y l Hl IH Hy]; simpl; [by repeat constructor|].
  destruct (cmp x y) eqn:E.
  - constructor; [by constructor|]. constructor; [by unfold le_by; rewrite E|].
    eapply Forall_impl; [exact Hy|]. intros z Hz. eapply le_by_trans; [|exact Hz]. by unfold le_by; rewrite E.
  - constructor; [by constructor|]. constructor; [by unfold le_by; rewrite E|].
    eapply Forall_impl; [exact Hy|]. intros z Hz. eapply le_by_trans; [|exact Hz]. by unfold le_by; rewrite E.
  - constructor; [done|]. rewrite insert_by_perm. constructor; [|done].
    unfold le_by. by rewrite (cmp_flip cmp x y), E.
Qed.

Lemma sort_by_sorted l : StronglySorted le_by (sort_by l).
Proof. induction l as [|x l IH]; simpl; [constructor|by apply insert_by_sorted]. Qed.

(** Two sorted arrangements of the same elements agree when the comparator tells
    distinct elements apart. *)
Lemma sorted_unique l1 l2 :
  (forall x y, x ∈ l1 -> y ∈ l1 -> cmp x y = Eq -> x = y) ->
  StronglySorted le_by l1 -> StronglySorted le_by l2 -> l1 ≡ₚ l2 -> l1 = l2.
Proof.
  intros Heq H1. revert l2. induction H1 as [|x l1 Hl1 IH Hx]; intros l2 H2 Hp.
  { by apply Permutation_nil_l in Hp as ->. }
  destruct H2 as [|y l2 Hl2 Hy]; [by apply Permutation_nil_r in Hp|].
  assert (x = y) as ->.
  { assert (Hyin : y ∈ x :: l1) by (rewrite Hp; left).
    assert (Hxin : x ∈ y :: l2) by (rewrite <- Hp; left).
    apply elem_of_cons in Hyin as [->|Hyin]; [done|]. apply elem_of_cons in Hxin as [->|Hxin]; [done|].
    apply Heq; [left|by right|].
    pose proof (proj1 (Forall_forall _ _) Hx y Hyin) as Hxy.
    pose proof (proj1 (Forall_forall _ _) Hy x Hxin) as Hyx.
    unfold le_by in *. rewrite (cmp_flip cmp x y) in Hyx. by destruct (cmp x y). }
  f_equal. apply IH; [|done|by apply (Permutation_cons_inv (a := y))].
  intros a b Ha Hb. apply Heq; by right.
Qed.

Lemma sort_by_unique l1 l2 :
  (forall x y, x ∈ l1 -> y ∈ l1 -> cmp x y = Eq -> x = y) -> l1 ≡ₚ l2 -> sort_by l1 = sort_by l2.
Proof.
  intros Heq Hp. apply sorted_unique; [|apply sort_by_sorted..|by rewrite !sort_by_perm].
  intros x y. rewrite (sort_by_perm l1). apply Heq.
Qed.

End sort.
