(* ===== verification/ReceivedPacketTracker.v ===== *)
(** * Received packets: duplicate suppression and receipt batching

    Models [src/crates/core/src/transport/received_packet_tracker.rs].

    [Module ReceivedPacketTracker] holds the record of the struct and one
    definition per method; the clock readings of [time_source.now()] are
    arguments ([cleanup] and the body of [report_received_packet] each read the
    clock once).  The theorems show that the queue and the index always agree,
    that a packet id is accepted at most once per retention window and is
    accepted again afterwards, and that every accepted packet is acknowledged
    exactly once, in order. *)

From S2P Require Import Prelude.

Module ReceivedPacketTracker.

Abbreviation PacketId := Z (only parsing).
Abbreviation Instant := Z (only parsing).

Definition RETAIN_TIME : Z := from_secs 60.
Definition MAX_PENDING_RECEIPTS : nat := 20.

Record ReceivedPacketTracker := mkReceived {
  pending_receipts : list PacketId;
  packet_id_time : list (PacketId * Instant);
  time_by_packet_id : gmap PacketId Instant;
}.

Inductive ReportResult := Ok | AlreadyReceived | QueueFull.

#[export] Instance ReportResult_eq_dec : EqDecision ReportResult.
Proof. solve_decision. Defined.

Definition new : ReceivedPacketTracker :=
  {| pending_receipts := []; packet_id_time := []; time_by_packet_id := ∅ |}.

(** The [while] loop of [cleanup]: pop the front of the queue, and its index
    entry, as long as it is older than [remove_before]. *)
Fixpoint cleanup_loop (remove_before : Instant) (q : list (PacketId * Instant))
    (m : gmap PacketId Instant) : list (PacketId * Instant) * gmap PacketId Instant :=
  match q with
  | (packet_id, time) :: q' =>
      if time <? remove_before then cleanup_loop remove_before q' (delete packet_id m)
      else (q, m)
  | [] => (q, m)
  end.

Definition cleanup (now : Instant) (t : ReceivedPacketTracker) : ReceivedPacketTracker :=
  let remove_before := now - RETAIN_TIME in
  let '(q, m) := cleanup_loop remove_before (packet_id_time t) (time_by_packet_id t) in
  {| pending_receipts := pending_receipts t; packet_id_time := q; time_by_packet_id := m |}.

Definition report_received_packet (cleanup_now now : Instant) (packet_id : PacketId)
    (t0 : ReceivedPacketTracker) : ReceivedPacketTracker * ReportResult :=
  let t := cleanup cleanup_now t0 in
  match time_by_packet_id t !! packet_id with
  | Some _ => (t, AlreadyReceived)
  | None =>
      let t' := {| pending_receipts := pending_receipts t ++ [packet_id];
                   packet_id_time := packet_id_time t ++ [(packet_id, now)];
                   time_by_packet_id := <[packet_id := now]> (time_by_packet_id t) |} in
      (t', if (length (pending_receipts t') <? MAX_PENDING_RECEIPTS)%nat then Ok else QueueFull)
  end.

Definition get_receipts (now : Instant) (t0 : ReceivedPacketTracker)
    : ReceivedPacketTracker * list PacketId :=
  let t := cleanup now t0 in
  ({| pending_receipts := []; packet_id_time := packet_id_time t;
      time_by_packet_id := time_by_packet_id t |}, pending_receipts t).

(** ** Runs

    A run of the tracker: operations stamped with the clock.  [Report] carries
    the two clock readings of the call. *)

Inductive op := Report (cleanup_now now : Instant) (p : PacketId) | GetReceipts (now : Instant).

Definition op_start (o : op) : Instant :=
  match o with Report c _ _ => c | GetReceipts n => n end.
Definition op_end (o : op) : Instant :=
  match o with Report _ n _ => n | GetReceipts n => n end.

Inductive outcome := Reported (p : PacketId) (r : ReportResult) | Receipts (l : list PacketId).

Definition step (t : ReceivedPacketTracker) (o : op) : ReceivedPacketTracker * outcome :=
  match o with
  | Report c n p => let '(t', r) := report_received_packet c n p t in (t', Reported p r)
  | GetReceipts n => let '(t', l) := get_receipts n t in (t', Receipts l)
  end.

Fixpoint run (t : ReceivedPacketTracker) (os : list op) : ReceivedPacketTracker * list outcome :=
  match os with
  | [] => (t, [])
  | o :: os' =>
      let '(t1, r) := step t o in
      let '(t2, rs) := run t1 os' in
      (t2, r :: rs)
  end.

Lemma run_cons t o os :
  run t (o :: os) = ((run (step t o).1 os).1, (step t o).2 :: (run (step t o).1 os).2).
Proof. simpl. destruct (step t o) as [t1 r]. simpl. by destruct (run t1 os). Qed.

Lemma step_report t c n p :
  step t (Report c n p) = ((report_received_packet c n p t).1,
    Reported p (report_received_packet c n p t).2).
Proof. simpl. by destruct (report_received_packet c n p t). Qed.

(** The packets a run accepted, and the receipts it handed out. *)
Definition accepted (rs : list outcome) : list PacketId :=
  rs ≫= fun r => match r with
    | Reported p Ok | Reported p QueueFull => [p] | _ => [] end.
Definition handed_out (rs : list outcome) : list PacketId :=
  rs ≫= fun r => match r with Receipts l => l | _ => [] end.

(** The clock readings of a run never go backwards and start at [t0]. *)
Fixpoint monotone (t0 : Instant) (os : list op) : Prop :=
  match os with
  | [] => True
  | o :: os' => t0 <= op_start o <= op_end o /\ monotone (op_end o) os'
  end.

(** ** Invariant *)

(** The queue and the index hold the same entries, each id once, oldest first,
    none from the future of [clock]. *)
Record wf (clock : Instant) (t : ReceivedPacketTracker) : Prop := {
  wf_nodup : NoDup (packet_id_time t).*1;
  wf_index : time_by_packet_id t = list_to_map (packet_id_time t);
  wf_sorted : StronglySorted Z.le (packet_id_time t).*2;
  wf_past : Forall (fun e => e.2 <= clock) (packet_id_time t);
}.

Lemma received_wf_new c : wf c new.
Proof. constructor; simpl; constructor. Qed.

(** What the loop leaves is the suffix of the queue after the expired prefix,
    and the index of that suffix. *)
Lemma cleanup_loop_spec rb q :
  NoDup q.*1 ->
  exists pre q', q = pre ++ q'
    /\ cleanup_loop rb q (list_to_map q) = (q', list_to_map q')
    /\ Forall (fun e => e.2 < rb) pre
    /\ (forall e, head q' = Some e -> rb <= e.2).
Proof.
  induction q as [|[p s] q IH]; simpl; intros Hnd.
  - exists [], []. done.
  - apply NoDup_cons in Hnd as [Hp Hnd]. case_bool; to_props.
    + rewrite delete_insert_id by by apply not_elem_of_list_to_map_1.
      destruct (IH Hnd) as (pre & q' & -> & -> & Hpre & Hhd).
      exists ((p, s) :: pre), q'. repeat split; auto.
    + exists [], ((p, s) :: q). repeat split; auto. intros e [= <-]. done.
Qed.

Lemma sorted_head_le rb (q : list (PacketId * Instant)) :
  StronglySorted Z.le q.*2 -> (forall e, head q = Some e -> rb <= e.2) ->
  Forall (fun e => rb <= e.2) q.
Proof.
  destruct q as [|e q]; simpl; intros Hs Hhd; constructor; [by apply Hhd|].
  inversion_clear Hs as [|? ? _ Hle]. rewrite Forall_fmap in Hle.
  eapply Forall_impl; [exact Hle|]. intros e' He'. simpl in He'.
  pose proof (Hhd e eq_refl). lia.
Qed.

Lemma sorted_app_r (l1 l2 : list Z) : StronglySorted Z.le (l1 ++ l2) -> StronglySorted Z.le l2.
Proof. induction l1; simpl; [done|]. inversion_clear 1. auto. Qed.

Lemma sorted_snoc (l : list Z) x :
  StronglySorted Z.le l -> Forall (fun y => y <= x) l -> StronglySorted Z.le (l ++ [x]).
Proof.
  induction l as [|y l IH]; simpl; intros Hs Hx; [by repeat constructor|].
  inversion_clear Hs as [|? ? Hs' Hy]. inversion_clear Hx. constructor; [auto|].
  apply Forall_app. auto.
Qed.

(** [cleanup] forgets exactly the ids first seen before [now - RETAIN_TIME]. *)
Lemma cleanup_spec c now t :
  wf c t -> c <= now ->
  wf now (cleanup now t)
  /\ pending_receipts (cleanup now t) = pending_receipts t
  /\ forall p s, time_by_packet_id (cleanup now t) !! p = Some s
       <-> time_by_packet_id t !! p = Some s /\ now - RETAIN_TIME <= s.
Proof.
  intros [Hnd Hix Hso Hpa] Hc. unfold cleanup. rewrite Hix.
  destruct (cleanup_loop_spec (now - RETAIN_TIME) _ Hnd) as (pre & q' & Hq & -> & Hpre & Hhd).
  rewrite Hq in *. rewrite fmap_app in Hnd, Hso.
  apply NoDup_app in Hnd as (_ & Hdisj & Hnd'). apply Forall_app in Hpa as [_ Hpa'].
  apply sorted_app_r in Hso. split_and!; simpl; [|done|].
  - constructor; simpl; auto. eapply Forall_impl; [exact Hpa'|]. simpl. lia.
  - intros p s. rewrite list_to_map_app, lookup_union.
    rewrite <- (elem_of_list_to_map q') by done.
    assert (Hall := sorted_head_le _ _ Hso Hhd). split.
    + intros Hin. assert (HP := proj1 (Forall_forall _ _) Hall _ Hin).
      rewrite (not_elem_of_list_to_map_1 pre p).
      2:{ intros Hp. eapply Hdisj; [exact Hp|]. apply list_elem_of_fmap. by exists (p, s). }
      apply (elem_of_list_to_map q') in Hin as ->; [|done]. split; [done|exact HP].
    + intros [Hl Hs]. apply (elem_of_list_to_map q'); [done|].
      destruct (list_to_map pre !! p) as [s'|] eqn:E; rewrite ?E in Hl.
      * rewrite union_Some_l in Hl. simplify_eq. apply elem_of_list_to_map_2 in E.
        assert (Hlt := proj1 (Forall_forall _ _) Hpre _ E). simpl in Hlt. lia.
      * by rewrite (left_id None union) in Hl.
Qed.

(** [report_received_packet] on a well-formed tracker: a duplicate exactly when
    the id was first seen inside the retention window. *)
Lemma report_spec c c' n p t :
  wf c t -> c <= c' <= n ->
  let r := report_received_packet c' n p t in
  wf n r.1
  /\ match time_by_packet_id (cleanup c' t) !! p with
     | Some _ => r = (cleanup c' t, AlreadyReceived)
     | None => r.2 <> AlreadyReceived
         /\ pending_receipts r.1 = pending_receipts t ++ [p]
         /\ time_by_packet_id r.1 = <[p := n]> (time_by_packet_id (cleanup c' t))
     end.
Proof.
  intros Hwf Hc. destruct (cleanup_spec _ c' _ Hwf ltac:(lia)) as ([Hnd Hix Hso Hpa] & Hpe & _).
  unfold report_received_packet. destruct (time_by_packet_id (cleanup c' t) !! p) as [s|] eqn:E; simpl.
  - split; [|done]. constructor; auto. eapply Forall_impl; [exact Hpa|]. simpl. lia.
  - split_and!; [|by case_bool|by rewrite Hpe|done].
    assert (Hfresh : p ∉ (packet_id_time (cleanup c' t)).*1).
    { apply not_elem_of_list_to_map_2. by rewrite <- Hix. }
    constructor; simpl.
    + rewrite fmap_app. apply NoDup_app. split_and!; [done| |by apply NoDup_singleton].
      intros x Hx Hx'. apply list_elem_of_singleton in Hx' as ->. done.
    + rewrite list_to_map_snoc by done. by rewrite <- Hix.
    + rewrite fmap_app. apply sorted_snoc; [done|]. apply Forall_fmap.
      eapply Forall_impl; [exact Hpa|]. simpl. lia.
    + apply Forall_app. split; [|repeat constructor; simpl; lia].
      eapply Forall_impl; [exact Hpa|]. simpl. lia.
Qed.

Lemma received_step_wf c o t : wf c t -> c <= op_start o <= op_end o -> wf (op_end o) (step t o).1.
Proof.
  intros Hwf Ho. destruct o as [c' n p|n].
  - rewrite step_report. by apply (report_spec c c' n p t Hwf).
  - simpl in Ho. destruct (cleanup_spec _ n _ Hwf ltac:(lia)) as ([] & _). by constructor.
Qed.

(** A run that starts at clock [c]: its last clock reading. *)
Fixpoint end_clock (c : Instant) (os : list op) : Instant :=
  match os with [] => c | o :: os' => end_clock (op_end o) os' end.

Lemma end_clock_mono c os : monotone c os -> c <= end_clock c os.
Proof.
  revert c; induction os as [|o os IH]; simpl; intros c H; [lia|].
  destruct H as [? H]. apply IH in H. lia.
Qed.

Lemma received_run_wf c os t : wf c t -> monotone c os -> wf (end_clock c os) (run t os).1.
Proof.
  revert c t; induction os as [|o os IH]; intros c t Hwf Hm; [done|].
  destruct Hm as [Ho Hm]. rewrite run_cons. simpl.
  apply IH; [by apply (received_step_wf c)|done].
Qed.

(** Until the retention window of [p]'s first arrival [s] closes, the index
    keeps it. *)
Lemma step_keeps c o t p s :
  wf c t -> c <= op_start o <= op_end o -> op_start o <= s + RETAIN_TIME ->
  time_by_packet_id t !! p = Some s -> time_by_packet_id (step t o).1 !! p = Some s.
Proof.
  intros Hwf Ho Hs Hp.
  destruct (cleanup_spec _ (op_start o) _ Hwf ltac:(lia)) as (_ & _ & Hcl).
  assert (Hk : time_by_packet_id (cleanup (op_start o) t) !! p = Some s).
  { apply Hcl. split; [done|]. lia. }
  destruct o as [c' n q|n]; [|done]. rewrite step_report. simpl in *.
  destruct (report_spec c c' n q t Hwf ltac:(lia)) as [_ H].
  destruct (time_by_packet_id (cleanup c' t) !! q) eqn:E.
  - by rewrite H.
  - destruct H as (_ & _ & ->). rewrite lookup_insert_ne; [done|]. congruence.
Qed.

Lemma run_keeps c os t p s :
  wf c t -> monotone c os -> end_clock c os <= s + RETAIN_TIME ->
  time_by_packet_id t !! p = Some s -> time_by_packet_id (run t os).1 !! p = Some s.
Proof.
  revert c t; induction os as [|o os IH]; intros c t Hwf Hm He Hp; [done|].
  destruct Hm as [Ho Hm]. simpl in He. pose proof (end_clock_mono _ _ Hm). rewrite run_cons.
  apply (IH (op_end o)); [by apply (received_step_wf c)|done|done|].
  apply (step_keeps c); [done|done|lia|done].
Qed.

Lemma monotone_app c os1 os2 :
  monotone c (os1 ++ os2) <-> monotone c os1 /\ monotone (end_clock c os1) os2.
Proof. revert c; induction os1 as [|o os1 IH]; intros c; simpl; [tauto|]. rewrite IH. tauto. Qed.

Definition not_report (p : PacketId) (o : op) : Prop :=
  match o with Report _ _ q => q <> p | GetReceipts _ => True end.

(** Operations that do not report [p] never give it a newer arrival time. *)
Lemma run_not_refreshed c os t p s0 :
  wf c t -> monotone c os -> Forall (not_report p) os ->
  (forall s, time_by_packet_id t !! p = Some s -> s = s0) ->
  forall s, time_by_packet_id (run t os).1 !! p = Some s -> s = s0.
Proof.
  revert c t; induction os as [|o os IH]; intros c t Hwf Hm Hno Hp; [done|].
  destruct Hm as [Ho Hm]. inversion_clear Hno as [|? ? Hno1 Hno2]. rewrite run_cons.
  apply (IH (op_end o)); [by apply (received_step_wf c)|done|done|]. clear IH. intros s.
  destruct (cleanup_spec _ (op_start o) _ Hwf ltac:(lia)) as (_ & _ & Hcl).
  destruct o as [c' n q|n]; simpl in Hno1, Ho, Hcl.
  - rewrite step_report. simpl.
    destruct (report_spec c c' n q t Hwf ltac:(lia)) as [_ H].
    destruct (time_by_packet_id (cleanup c' t) !! q) eqn:E.
    + rewrite H. simpl. intros [Hs _]%Hcl. by apply Hp.
    + destruct H as (_ & _ & ->). rewrite lookup_insert_ne by done. intros [Hs _]%Hcl. by apply Hp.
  - intros [Hs _]%Hcl. by apply Hp.
Qed.

Lemma cleanup_pending now t : pending_receipts (cleanup now t) = pending_receipts t.
Proof. unfold cleanup. by destruct (cleanup_loop _ _ _). Qed.

Lemma get_receipts_returns now t : (get_receipts now t).2 = pending_receipts t.
Proof. unfold get_receipts. by rewrite cleanup_pending. Qed.

Lemma step_receipts t o :
  match (step t o).2 with Receipts l => l | _ => [] end ++ pending_receipts (step t o).1
  = pending_receipts t ++ match (step t o).2 with
      | Reported p Ok | Reported p QueueFull => [p] | _ => [] end.
Proof.
  destruct o as [c n p|n]; simpl.
  - unfold report_received_packet. destruct (time_by_packet_id (cleanup c t) !! p); simpl.
    + by rewrite cleanup_pending, app_nil_r.
    + rewrite cleanup_pending. by case_bool.
  - by rewrite cleanup_pending.
Qed.

(** ** Properties *)

(** After any run with a clock that never goes backwards, the arrival queue
    and the index describe the same packets, each once and oldest first; no
    operation can make them disagree. *)
Lemma tracker_well_formed (c : Instant) (os : list op) :
  monotone c os -> wf (end_clock c os) (run new os).1.
Proof. apply received_run_wf, received_wf_new. Qed.

Lemma tracker_well_formed_witness :
  monotone 0 [Report 0 1 7; Report 2 2 7; GetReceipts 5]
  /\ wf 5 (run new [Report 0 1 7; Report 2 2 7; GetReceipts 5]).1.
Proof.
  assert (H : monotone 0 [Report 0 1 7; Report 2 2 7; GetReceipts 5]) by (simpl; lia).
  split; [exact H|]. exact (tracker_well_formed 0 _ H).
Defined.

(** C9: duplicate suppression. Once a packet has been accepted at time [n], a
    later arrival of the same id within the retention time of 60 seconds is
    reported [AlreadyReceived], whatever the tracker did in between; and once
    the retention time has passed with no other arrival of that id, the next
    arrival is accepted as a new packet. *)
Theorem duplicate_suppressed_for_retention (c0 c n c' n' : Instant) (p : PacketId)
    (pre mid : list op) :
  monotone c0 (pre ++ Report c n p :: mid ++ [Report c' n' p]) ->
  let t1 := (run new pre).1 in
  (report_received_packet c n p t1).2 <> AlreadyReceived ->
  let t3 := (run (report_received_packet c n p t1).1 mid).1 in
  (c' <= n + RETAIN_TIME -> (report_received_packet c' n' p t3).2 = AlreadyReceived)
  /\ (n + RETAIN_TIME < c' -> Forall (not_report p) mid ->
      (report_received_packet c' n' p t3).2 <> AlreadyReceived).
Proof.
  intros Hm t1 Hacc t3. apply monotone_app in Hm as [Hpre [Hrep Hm]].
  apply monotone_app in Hm as [Hmid [Hlast _]].
  pose proof (received_run_wf c0 pre _ (received_wf_new _) Hpre) as Hwf1. fold t1 in Hwf1. simpl in Hrep, Hlast.
  destruct (report_spec _ c n p _ Hwf1 ltac:(lia)) as [Hwf2 Hr].
  destruct (time_by_packet_id (cleanup c t1) !! p) eqn:E1; [by rewrite Hr in Hacc|].
  destruct Hr as (_ & _ & Hr).
  assert (Hp2 : time_by_packet_id (report_received_packet c n p t1).1 !! p = Some n).
  { rewrite Hr. apply lookup_insert_eq. }
  pose proof (received_run_wf _ mid _ Hwf2 Hmid) as Hwf3. fold t3 in Hwf3.
  destruct (report_spec _ c' n' p _ Hwf3 ltac:(lia)) as [_ Hr'].
  destruct (cleanup_spec _ c' _ Hwf3 ltac:(lia)) as (_ & _ & Hcl). split; intros Hc'.
  - pose proof (run_keeps n mid _ p n Hwf2 Hmid ltac:(simpl in *; lia) Hp2) as Hk.
    assert (Hk' : time_by_packet_id (cleanup c' t3) !! p = Some n) by (apply Hcl; split; [done|lia]).
    rewrite Hk' in Hr'. by rewrite Hr'.
  - intros Hno. destruct (time_by_packet_id (cleanup c' t3) !! p) as [s|] eqn:E3; [|by apply Hr'].
    apply Hcl in E3 as [E3 Hs]. exfalso.
    pose proof (run_not_refreshed n mid _ p n Hwf2 Hmid Hno ltac:(congruence) s E3). lia.
Qed.

Lemma duplicate_suppressed_for_retention_witness :
  let pre := [Report 0 0 3] in
  let mid := [GetReceipts 2; Report 3 3 8] in
  monotone 0 (pre ++ Report 1 1 7 :: mid ++ [Report 60 60 7])
  /\ (report_received_packet 60 60 7
       (run (report_received_packet 1 1 7 (run new pre).1).1 mid).1).2 = AlreadyReceived.
Proof.
  split; [simpl; lia|].
  refine (proj1 (duplicate_suppressed_for_retention 0 1 1 60 60 7 [Report 0 0 3]
    [GetReceipts 2; Report 3 3 8] _ _) _).
  - simpl. lia.
  - vm_compute. discriminate.
  - unfold RETAIN_TIME, from_secs, nanos_per_sec. lia.
Defined.

(** Every accepted packet is acknowledged exactly once and in order of
    arrival. Over any run, the receipts handed out followed by the ones still
    pending are the ones that were pending at the start followed by the packets
    the run accepted; in particular a suppressed duplicate adds no receipt. *)
Theorem receipts_exactly_once (t : ReceivedPacketTracker) (os : list op) :
  handed_out (run t os).2 ++ pending_receipts (run t os).1
  = pending_receipts t ++ accepted (run t os).2.
Proof.
  revert t; induction os as [|o os IH]; intros t; [by rewrite app_nil_r|].
  rewrite run_cons. simpl. specialize (IH (step t o).1).
  rewrite <- app_assoc, IH, !app_assoc. f_equal. apply step_receipts.
Qed.

(** Back-pressure. A packet is answered [QueueFull] exactly when recording it
    leaves at least [MAX_PENDING_RECEIPTS] unsent receipts, and the caller that
    drains the receipts as it then must is left with an empty queue. *)
Lemma queue_full_iff (c n n' : Instant) (p : PacketId) (t : ReceivedPacketTracker) :
  let '(t', r) := report_received_packet c n p t in
  (r = QueueFull <-> r <> AlreadyReceived
     /\ (MAX_PENDING_RECEIPTS <= S (length (pending_receipts t)))%nat)
  /\ pending_receipts (get_receipts n' t').1 = []
  /\ (get_receipts n' t').2 = pending_receipts t ++
       (if bool_decide (r = AlreadyReceived) then [] else [p]).
Proof.
  unfold report_received_packet.
  destruct (time_by_packet_id (cleanup c t) !! p) eqn:E; cbn [pending_receipts].
  - rewrite get_receipts_returns, cleanup_pending, app_nil_r. by split_and!; [split|..]; intros; destruct_and?.
  - rewrite get_receipts_returns, length_app, cleanup_pending. cbn [pending_receipts length].
    destruct (Nat.ltb_spec (length (pending_receipts t) + 1) MAX_PENDING_RECEIPTS);
      (split; [|done]); split; intros; destruct_and?; split_and?; try done; lia.
Qed.

End ReceivedPacketTracker.
