(* ===== verification/F64.v ===== *)
(** * IEEE 754 binary64 arithmetic and the float methods of [Duration]

    Rust's [f64] is binary64 with round-to-nearest-even; it is modelled by the
    executable specification of the standard library ([SpecFloat] at precision
    53 and maximal exponent 1024), so every float computation of the sources is
    evaluated bit for bit.  [Duration]'s float methods are the ones of
    [core::time]. *)

From S2P Require Import Prelude.
From Stdlib Require Import SpecFloat.

Abbreviation f64 := spec_float (only parsing).

Definition f64_prec : Z := 53.
Definition f64_emax : Z := 1024.

Definition f64_add (x y : f64) : f64 := SFadd f64_prec f64_emax x y.
Definition f64_sub (x y : f64) : f64 := SFsub f64_prec f64_emax x y.
Definition f64_mul (x y : f64) : f64 := SFmul f64_prec f64_emax x y.
Definition f64_div (x y : f64) : f64 := SFdiv f64_prec f64_emax x y.

(** An integer [as f64]: rounded to nearest even. *)
Definition f64_of_Z (z : Z) : f64 := binary_normalize f64_prec f64_emax z 0 false.

Definition f64_zero : f64 := S754_zero false.
Definition f64_one : f64 := f64_of_Z 1.

(** [m * 2^e] rounded to an integer: down, and to nearest with ties to even. *)
Definition scale_floor (m e : Z) : Z := if 0 <=? e then m * 2 ^ e else m / 2 ^ (- e).

Definition div_nearest_even (a b : Z) : Z :=
  let q := a / b in
  let r := a mod b in
  match 2 * r ?= b with
  | Lt => q
  | Gt => q + 1
  | Eq => if Z.even q then q else q + 1
  end.

(** [x.floor() as isize]: float to integer casts saturate and send NaN to 0. *)
Definition f64_floor_isize (x : f64) : Z :=
  let clamp z := Z.max isize_min (Z.min isize_max z) in
  match x with
  | S754_zero _ | S754_nan => 0
  | S754_infinity s => if s then isize_min else isize_max
  | S754_finite s m e => clamp (scale_floor (if s then Z.neg m else Z.pos m) e)
  end.

(** [x as u64], of a float: truncated, saturating, NaN to 0. *)
Definition f64_to_u64 (x : f64) : Z :=
  match x with
  | S754_zero _ | S754_nan => 0
  | S754_infinity s => if s then 0 else u64_max
  | S754_finite true _ _ => 0
  | S754_finite false m e => Z.min u64_max (scale_floor (Z.pos m) e)
  end.

(** The comparison operators ([false] when an operand is NaN), [partial_cmp],
    [is_nan], [is_finite], [clamp] and [max]. *)
Definition f64_lt (x y : f64) : bool := SFltb x y.
Definition f64_le (x y : f64) : bool := SFleb x y.
Definition f64_eq (x y : f64) : bool := SFeqb x y.
Definition f64_partial_cmp (x y : f64) : option comparison := SFcompare x y.
Definition f64_is_nan (x : f64) : bool := match x with S754_nan => true | _ => false end.
Definition f64_is_finite (x : f64) : bool :=
  match x with S754_nan | S754_infinity _ => false | _ => true end.
Definition f64_clamp (x lo hi : f64) : f64 :=
  let x := if f64_lt x lo then lo else x in if f64_lt hi x then hi else x.
Definition f64_max (x y : f64) : f64 :=
  if f64_is_nan x then y else if f64_is_nan y then x else if f64_lt x y then y else x.

(** ** Duration *)

(** [Duration::as_secs_f64] *)
Definition as_secs_f64 (d : Z) : f64 :=
  f64_add (f64_of_Z (d / nanos_per_sec))
          (f64_div (f64_of_Z (d mod nanos_per_sec)) (f64_of_Z nanos_per_sec)).

(** [Duration::from_secs_f64]: the exact value of the float in nanoseconds,
    rounded to nearest even.  [None] is the panic on a negative, non-finite or
    too large argument. *)
Definition from_secs_f64 (x : f64) : option Z :=
  match x with
  | S754_zero _ => Some 0
  | S754_nan | S754_infinity _ => None
  | S754_finite true m e => None
  | S754_finite false m e =>
      if 0 <=? e then
        if Z.pos m * 2 ^ e <=? u64_max then Some (Z.pos m * 2 ^ e * nanos_per_sec) else None
      else
        let d := div_nearest_even (Z.pos m * nanos_per_sec) (2 ^ (- e)) in
        if d <=? duration_max then Some d else None
  end.

(** [Duration::mul_f64] *)
Definition dur_mul_f64 (d : Z) (k : f64) : option Z := from_secs_f64 (f64_mul k (as_secs_f64 d)).

(** [Duration + Duration] and [Duration * u32], which panic on overflow. *)
Definition dur_add (a b : Z) : option Z := if a + b <=? duration_max then Some (a + b) else None.
Definition dur_mul (a k : Z) : option Z := if a * k <=? duration_max then Some (a * k) else None.
(** [Duration / u32], rounding down. *)
Definition dur_div (a k : Z) : Z := a / k.
Definition dur_abs_diff (a b : Z) : Z := Z.abs (a - b).

#[global] Arguments f64_add : simpl never.
#[global] Arguments f64_sub : simpl never.
#[global] Arguments f64_mul : simpl never.
#[global] Arguments f64_div : simpl never.
#[global] Arguments f64_of_Z : simpl never.
#[global] Arguments as_secs_f64 : simpl never.
#[global] Arguments from_secs_f64 : simpl never.
#[global] Arguments dur_mul_f64 : simpl never.
