(* ===== verification/F64Round.v ===== *)
(** * Rounding bounds for binary64

    What the sources' float code needs of IEEE arithmetic: on non-negative finite
    values, an operation returns the exact result rounded to one of its two
    neighbours, so a representable bound on the exact result is a bound on the
    computed one.  A finite float is measured by [fz], its value in units of the
    smallest subnormal [2^-1074], which makes the bounds integer inequalities. *)

From S2P Require Import Prelude F64.
From Stdlib Require Import SpecFloat.

Module F64Round.

(** The number of units in 1. *)
Definition U : Z := 2 ^ 1074.

(** The non-negative finite floats, in canonical form. *)
Definition ok (x : f64) : Prop :=
  match x with
  | S754_zero false => True
  | S754_finite false m e =>
      -1074 <= e <= 971 /\ Z.pos m < 2 ^ 53 /\ (e = -1074 \/ 2 ^ 52 <= Z.pos m)
  | _ => False
  end.

Definition fz (x : f64) : Z :=
  match x with
  | S754_finite false m e => Z.pos m * 2 ^ (e + 1074)
  | _ => 0
  end.

(** ** Digits and shifts *)

Lemma digits2_pos_spec p :
  2 ^ (Z.pos (digits2_pos p) - 1) <= Z.pos p < 2 ^ Z.pos (digits2_pos p).
Proof.
  induction p as [p IH|p IH|]; cbn [digits2_pos]; [..|lia];
    rewrite Pos2Z.inj_succ;
    replace (Z.succ (Z.pos (digits2_pos p)) - 1) with (Z.succ (Z.pos (digits2_pos p) - 1)) by lia;
    rewrite !Z.pow_succ_r by lia; lia.
Qed.

Lemma Zdigits2_spec m :
  0 <= m -> 0 <= Zdigits2 m /\ m < 2 ^ Zdigits2 m /\ (0 < m -> 2 ^ (Zdigits2 m - 1) <= m).
Proof.
  destruct m as [|p|p]; intros Hm; simpl; [lia| |lia].
  pose proof (digits2_pos_spec p). lia.
Qed.

Lemma Zdigits2_le m n : 0 < m -> 2 ^ n <= m -> 0 <= n -> n < Zdigits2 m.
Proof.
  intros Hm Hn H0. destruct (Zdigits2_spec m ltac:(lia)) as (Hd & Hlt & _).
  apply (Z.pow_lt_mono_r_iff 2); lia.
Qed.

(** [shr_1] applied [n] times divides by [2^n] and remembers whether any bit was
    lost. *)
Definition exact (a : shr_record) : Prop := shr_r a = false /\ shr_s a = false.

Definition shifted (n : Z) (a b : shr_record) : Prop :=
  shr_m b = shr_m a / 2 ^ n /\ (exact a -> shr_m a mod 2 ^ n = 0 -> exact b)
  /\ (exact b -> exact a /\ shr_m a mod 2 ^ n = 0).

Lemma shr_1_shifted a : 0 <= shr_m a -> shifted 1 a (shr_1 a).
Proof.
  destruct a as [[|[p|p|]|p] r s]; intros Hm; simpl in Hm; try lia; unfold shifted, exact; simpl.
  - split; [done|]. split; [by intros [-> ->]|]. by intros [_ [-> ->]%orb_false_iff].
  - change (Z.pos p~1) with (2 * Z.pos p + 1). split; [apply (Z.div_unique _ _ _ 1); lia|].
    rewrite <- (Z.mod_unique (2 * Z.pos p + 1) _ (Z.pos p) 1) by lia. naive_solver.
  - change (Z.pos p~0) with (2 * Z.pos p). split; [apply (Z.div_unique _ _ _ 0); lia|].
    rewrite <- (Z.mod_unique (2 * Z.pos p) _ (Z.pos p) 0) by lia.
    split; [by intros [-> ->]|]. by intros [_ [-> ->]%orb_false_iff].
  - split; [done|]. change (1 mod 2 ^ 1) with 1. naive_solver.
Qed.

Lemma shifted_trans n k a b c :
  0 <= n -> 0 <= k -> shifted n a b -> shifted k b c -> shifted (n + k) a c.
Proof.
  intros Hn Hk (Hm1 & He1 & He1') (Hm2 & He2 & He2').
  assert (Hp : 2 ^ (n + k) = 2 ^ n * 2 ^ k) by (by apply Z.pow_add_r).
  assert (0 < 2 ^ n) by (apply Z.pow_pos_nonneg; lia).
  assert (0 < 2 ^ k) by (apply Z.pow_pos_nonneg; lia).
  assert (Hmod : shr_m a mod (2 ^ n * 2 ^ k) = shr_m a mod 2 ^ n + 2 ^ n * ((shr_m a / 2 ^ n) mod 2 ^ k)).
  { apply Z.rem_mul_r; lia. }
  unfold shifted. rewrite Hp, Hmod. split_and!.
  - rewrite Hm2, Hm1. apply Z.div_div; lia.
  - intros Ha Hz. pose proof (Z.mod_pos_bound (shr_m a) (2 ^ n) ltac:(lia)).
    pose proof (Z.mod_pos_bound (shr_m a / 2 ^ n) (2 ^ k) ltac:(lia)).
    assert (shr_m a mod 2 ^ n = 0) by nia. assert ((shr_m a / 2 ^ n) mod 2 ^ k = 0) by nia.
    apply He2; [by apply He1|]. by rewrite Hm1.
  - intros Hc. destruct (He2' Hc) as [Hb H2]. destruct (He1' Hb) as [Ha H1]. rewrite Hm1 in H2.
    split; [done|]. rewrite H1, H2. lia.
Qed.

Lemma shifted_nonneg n a b : 0 <= n -> 0 <= shr_m a -> shifted n a b -> 0 <= shr_m b.
Proof. intros Hn Ha (-> & _). apply Z.div_pos; [done|]. apply Z.pow_pos_nonneg; lia. Qed.

Lemma iter_shr_shifted p a : 0 <= shr_m a -> shifted (Z.pos p) a (iter_pos shr_1 p a).
Proof.
  revert a. induction p as [p IH|p IH|]; intros a Ha; cbn [iter_pos].
  - pose proof (shr_1_shifted a Ha) as H1. assert (Ha1 := shifted_nonneg 1 _ _ ltac:(lia) Ha H1).
    pose proof (IH _ Ha1) as H2. assert (Ha2 := shifted_nonneg (Z.pos p) _ _ ltac:(lia) Ha1 H2).
    pose proof (IH _ Ha2) as H3. replace (Z.pos p~1) with (1 + (Z.pos p + Z.pos p)) by lia.
    apply (shifted_trans _ _ _ (shr_1 a)); [lia|lia|done|].
    by eapply shifted_trans; [lia|lia|exact H2|].
  - pose proof (IH _ Ha) as H2. assert (Ha2 := shifted_nonneg (Z.pos p) _ _ ltac:(lia) Ha H2).
    pose proof (IH _ Ha2) as H3. replace (Z.pos p~0) with (Z.pos p + Z.pos p) by lia.
    by eapply shifted_trans; [lia|lia|exact H2|].
  - by apply shr_1_shifted.
Qed.

Lemma shr_shifted a e n : 0 <= n -> 0 <= shr_m a -> shifted n a (shr a e n).1 /\ (shr a e n).2 = e + n.
Proof.
  intros Hn Ha. destruct n as [|p|p]; [|by split; [apply iter_shr_shifted|]|lia].
  simpl. split; [|lia]. unfold shifted. change (2 ^ 0) with 1. rewrite Z.div_1_r, Z.mod_1_r. naive_solver.
Qed.

(** ** Rounding *)

(** The exponent a value with mantissa [m] at exponent [e] is rounded at. *)
Definition target (m e : Z) : Z := fexp f64_prec f64_emax (Zdigits2 m + e).

Lemma target_spec m e : target m e = Z.max (Zdigits2 m + e - 53) (-1074).
Proof. reflexivity. Qed.

(** The float with mantissa [mr <= 2^53] at exponent [F]. *)
Definition norm (s : bool) (mr F : Z) : f64 :=
  if mr =? 0 then S754_zero s
  else
    let '(m, e) := if mr =? 2 ^ 53 then (2 ^ 52, F + 1) else (mr, F) in
    if e <=? 971 then S754_finite s (Z.to_pos m) e else S754_infinity s.

(** What rounding [m * 2^e] (plus a fraction of [2^e] if [l] is inexact) at
    [target m e] yields: one of the two neighbours, and the exact one if there
    is nothing to round. *)
Lemma shr_record_of_loc_m m l : shr_m (shr_record_of_loc m l) = m.
Proof. by destruct l as [|[]]. Qed.

Lemma shr_record_of_loc_exact m l : exact (shr_record_of_loc m l) <-> l = loc_Exact.
Proof. destruct l as [|[]]; unfold exact; simpl; naive_solver. Qed.

Lemma round_nearest_even_spec a :
  let r := round_nearest_even (shr_m a) (loc_of_shr_record a) in
  shr_m a <= r <= shr_m a + 1 /\ (exact a -> r = shr_m a).
Proof.
  destruct a as [m r s]. unfold exact. simpl. destruct r, s; simpl; try (destruct (Z.even m)); naive_solver lia.
Qed.

Lemma shr_fexp_again mr F :
  0 <= mr <= 2 ^ 53 -> -1074 <= F ->
  shr_m (shr_fexp f64_prec f64_emax mr F loc_Exact).1
    = (if mr =? 2 ^ 53 then 2 ^ 52 else mr)
  /\ (shr_fexp f64_prec f64_emax mr F loc_Exact).2 = (if mr =? 2 ^ 53 then F + 1 else F).
Proof.
  intros Hm HF. unfold shr_fexp. fold (target mr F). rewrite target_spec.
  destruct (Z.eqb_spec mr (2 ^ 53)) as [->|Hne].
  - change (Zdigits2 (2 ^ 53)) with 54. replace (_ - F) with 1 by lia. done.
  - assert (Hd : Zdigits2 mr <= 53).
    { destruct (Z.eq_dec mr 0) as [->|]; [done|]. destruct (Zdigits2_spec mr ltac:(lia)) as (Hd & _ & Hlo).
      apply Z.lt_pred_le, (Z.pow_lt_mono_r_iff 2); [lia..|]. unfold Z.pred.
      specialize (Hlo ltac:(lia)). change (Zdigits2 mr + -1) with (Zdigits2 mr - 1). lia. }
    assert (H0 : Z.max (Zdigits2 mr + F - 53) (-1074) - F <= 0) by lia.
    destruct (Z.max _ _ - F) as [|p|p]; [done|lia|done].
Qed.

Lemma round_aux_spec s m e l :
  0 <= m -> e <= target m e ->
  let F := target m e in
  let q := m / 2 ^ (F - e) in
  exists mr, binary_round_aux f64_prec f64_emax s m e l = norm s mr F
    /\ q <= mr <= q + 1 /\ mr <= 2 ^ 53
    /\ (l = loc_Exact -> m mod 2 ^ (F - e) = 0 -> mr = q)
    /\ (F = -1074 \/ 2 ^ 52 <= q).
Proof.
  intros Hm HF F q. unfold binary_round_aux.
  pose proof (target_spec m e : F = _) as Ht. assert (HF1 : -1074 <= F) by lia.
  change (target m e) with F in HF.
  destruct (shr_shifted (shr_record_of_loc m l) e (F - e)) as [(H1 & H2 & _) H3];
    [lia|by rewrite shr_record_of_loc_m|].
  rewrite shr_record_of_loc_m in *. fold q in H1. unfold shr_fexp at 1. fold (target m e). fold F.
  destruct (shr (shr_record_of_loc m l) e (F - e)) as [mrs e1]. simpl in H1, H2, H3.
  replace (e + (F - e)) with F in H3 by lia. subst e1.
  pose proof (round_nearest_even_spec mrs) as [Hr Hre]. rewrite H1 in *.
  set (mr := round_nearest_even q (loc_of_shr_record mrs)) in *. exists mr.
  assert (Hpow : 0 < 2 ^ (F - e)) by (apply Z.pow_pos_nonneg; lia).
  destruct (Zdigits2_spec m Hm) as (Hd & Hlt & Hge).
  assert (Hq0 : 0 <= q) by (apply Z.div_pos; lia).
  assert (Hq : q < 2 ^ 53).
  { apply Z.div_lt_upper_bound; [done|]. rewrite <- Z.pow_add_r by lia.
    eapply Z.lt_le_trans; [exact Hlt|]. apply Z.pow_le_mono_r; [lia|]. lia. }
  destruct (shr_fexp_again mr F) as [S1 S2]; [lia|done|].
  destruct (shr_fexp f64_prec f64_emax mr F loc_Exact) as [mrs2 e2]. simpl in S1, S2. rewrite S1, S2.
  split_and!; [|lia|lia|lia| |].
  - unfold norm. destruct (Z.eqb_spec mr 0) as [->|]; [done|].
    destruct (Z.eqb_spec mr (2 ^ 53)); [done|]. destruct mr; [done|done|lia].
  - intros -> H0. apply Hre, H2; [by apply shr_record_of_loc_exact|done].
  - destruct (Z.eq_dec F (-1074)); [by left|right].
    destruct (Z.eq_dec m 0) as [Hm0|]; [rewrite Hm0 in Ht; simpl in Ht; lia|]. specialize (Hge ltac:(lia)).
    unfold q. apply Z.div_le_lower_bound; [done|]. rewrite Z.mul_comm, <- Z.pow_add_r by lia.
    etransitivity; [|exact Hge]. apply Z.pow_le_mono_r; lia.
Qed.

(** [r] is [N / D] units, rounded: its value [v] respects every representable
    bound on [N / D] from above and from below, is off by at most one part in
    [2^52] (or one unit), and is finite if it is below the overflow threshold. *)
Definition rounds (N D : Z) (r : f64) : Prop :=
  exists v, 0 <= v
    /\ (forall K J, 0 <= K < 2 ^ 53 -> 0 <= J ->
          (N <= K * 2 ^ J * D -> v <= K * 2 ^ J) /\ (K * 2 ^ J * D <= N -> K * 2 ^ J <= v))
    /\ v * D * 2 ^ 52 <= N * (2 ^ 52 + 1) + D * 2 ^ 52
    /\ N * 2 ^ 52 <= v * D * (2 ^ 52 + 1) + D * 2 ^ 52
    /\ (v < 2 ^ 2098 -> ok r /\ fz r = v).

Lemma normal_above q f K J :
  2 ^ 52 <= q -> 0 <= J < f -> 0 <= K < 2 ^ 53 -> K * 2 ^ J < q * 2 ^ f.
Proof.
  intros Hq HJ HK. assert (0 < 2 ^ J) by (apply Z.pow_pos_nonneg; lia).
  assert (Hp : 2 * 2 ^ J <= 2 ^ f).
  { rewrite <- Z.pow_succ_r by lia. apply Z.pow_le_mono_r; lia. }
  apply Z.lt_le_trans with (2 ^ 53 * 2 ^ J); [apply Z.mul_lt_mono_pos_r; lia|].
  change (2 ^ 53) with (2 ^ 52 * 2). rewrite <- Z.mul_assoc. apply Z.mul_le_mono_nonneg; lia.
Qed.

Lemma rounds_bound_le q f mr N D K J :
  0 <= q -> 0 <= f -> 0 < D -> q * 2 ^ f * D <= N -> q <= mr <= q + 1 ->
  (N = q * 2 ^ f * D -> mr = q) -> (f = 0 \/ 2 ^ 52 <= q) ->
  0 <= K < 2 ^ 53 -> 0 <= J -> N <= K * 2 ^ J * D -> mr * 2 ^ f <= K * 2 ^ J.
Proof.
  intros Hq Hf HD Hlo Hmr Hex Hn HK HJ HN.
  assert (0 < 2 ^ f) by (apply Z.pow_pos_nonneg; lia).
  assert (0 < 2 ^ f * D) by (apply Z.mul_pos_pos; lia).
  assert (0 < 2 ^ J) by (apply Z.pow_pos_nonneg; lia).
  destruct (Z.le_gt_cases f J) as [Hle|Hgt].
  - assert (HJf : K * 2 ^ J = K * 2 ^ (J - f) * 2 ^ f).
    { rewrite <- Z.mul_assoc, <- Z.pow_add_r by lia. do 2 f_equal. lia. }
    rewrite HJf in *. set (P := K * 2 ^ (J - f)) in *.
    apply Z.mul_le_mono_nonneg_r; [lia|].
    destruct (Z.eq_dec N (q * 2 ^ f * D)) as [He|He].
    + rewrite (Hex He). rewrite He in HN. apply (Zmult_le_reg_r _ _ (2 ^ f * D)); lia.
    + assert (Hlt : q * (2 ^ f * D) < P * (2 ^ f * D)) by lia.
      apply Zmult_lt_reg_r in Hlt; lia.
  - exfalso. destruct Hn as [?|Hn]; [lia|].
    pose proof (normal_above q f K J Hn ltac:(lia) HK) as Hlt.
    apply (Z.mul_lt_mono_pos_r D) in Hlt; lia.
Qed.

Lemma rounds_bound_ge q f mr N D K J :
  0 <= f -> 0 < D -> N < (q + 1) * 2 ^ f * D -> q <= mr -> (f = 0 \/ 2 ^ 52 <= q) ->
  0 <= K < 2 ^ 53 -> 0 <= J -> K * 2 ^ J * D <= N -> K * 2 ^ J <= mr * 2 ^ f.
Proof.
  intros Hf HD Hhi Hmr Hn HK HJ HN.
  assert (0 < 2 ^ f) by (apply Z.pow_pos_nonneg; lia).
  assert (0 < 2 ^ f * D) by (apply Z.mul_pos_pos; lia).
  assert (0 < 2 ^ J) by (apply Z.pow_pos_nonneg; lia).
  destruct (Z.le_gt_cases f J) as [Hle|Hgt].
  - assert (HJf : K * 2 ^ J = K * 2 ^ (J - f) * 2 ^ f).
    { rewrite <- Z.mul_assoc, <- Z.pow_add_r by lia. do 2 f_equal. lia. }
    rewrite HJf in *. set (P := K * 2 ^ (J - f)) in *.
    apply Z.mul_le_mono_nonneg_r; [lia|].
    assert (HP : P * (2 ^ f * D) < (q + 1) * (2 ^ f * D)) by lia.
    apply Zmult_lt_reg_r in HP; lia.
  - destruct Hn as [?|Hn]; [lia|].
    pose proof (normal_above mr f K J ltac:(lia) ltac:(lia) HK). lia.
Qed.

Lemma norm_ok mr F :
  0 <= mr <= 2 ^ 53 -> -1074 <= F -> (F = -1074 \/ 2 ^ 52 <= mr) ->
  mr * 2 ^ (F + 1074) < 2 ^ 2098 ->
  ok (norm false mr F) /\ fz (norm false mr F) = mr * 2 ^ (F + 1074).
Proof.
  intros Hm HF Hn Hv. unfold norm. destruct (Z.eqb_spec mr 0) as [->|Hne]; [done|].
  assert (Hover : forall a b, mr = a -> 0 <= b <= F + 1074 -> 2 ^ 2098 <= a * 2 ^ b -> 0 <= a -> False).
  { intros a b -> Hb Ha Ha0. apply (Z.lt_irrefl (2 ^ 2098)). eapply Z.le_lt_trans; [|exact Hv].
    etransitivity; [exact Ha|]. apply Z.mul_le_mono_nonneg_l; [done|]. apply Z.pow_le_mono_r; lia. }
  assert (HF' : mr = 2 ^ 53 -> F + 1 <= 971).
  { intros Hm53. destruct (Z.le_gt_cases (F + 1) 971) as [|Hg]; [done|]. exfalso.
    apply (Hover (2 ^ 53) 2045 Hm53); [lia|by vm_compute|lia]. }
  assert (HF2 : F <= 971).
  { destruct (Z.le_gt_cases F 971) as [|Hg]; [done|]. exfalso. destruct Hn as [?|Hn]; [lia|].
    apply (Hover mr 2046 eq_refl); [lia| |lia].
    apply Z.le_trans with (2 ^ 52 * 2 ^ 2046); [by vm_compute|]. by apply Z.mul_le_mono_nonneg_r. }
  destruct (Z.eqb_spec mr (2 ^ 53)) as [->|Hne2].
  - rewrite (proj2 (Z.leb_le _ _)) by auto. split; [|].
    + simpl ok. split_and!; [lia|by apply HF'|done|by right].
    + cbn [fz]. replace (F + 1 + 1074) with (Z.succ (F + 1074)) by lia. rewrite Z.pow_succ_r by lia.
      change (Z.pos (Z.to_pos (2 ^ 52))) with (2 ^ 52). change (2 ^ 53) with (2 * 2 ^ 52). lia.
  - rewrite (proj2 (Z.leb_le _ _)) by done. cbn [ok fz]. rewrite Z2Pos.id by lia.
    split; [|done]. split_and!; try lia.
Qed.

(** [m * 2^e] plus a fraction of [2^e], zero exactly if [l] is [loc_Exact], is
    [N / D] units.  The factor [2^A] clears the denominators of exponents below
    the unit. *)
Definition represents (m e : Z) (l : location) (N D A : Z) : Prop :=
  0 <= A /\ 0 <= e + 1074 + A
  /\ m * 2 ^ (e + 1074 + A) * D <= N * 2 ^ A < (m + 1) * 2 ^ (e + 1074 + A) * D
  /\ (N * 2 ^ A = m * 2 ^ (e + 1074 + A) * D -> l = loc_Exact).

(** The floor of a represented value at the coarser exponent [F]. *)
Lemma represents_floor m e l N D A F :
  0 <= m -> 0 < D -> e <= F -> -1074 <= F -> represents m e l N D A ->
  let q := m / 2 ^ (F - e) in
  let b := 2 ^ (F + 1074) in
  q * b * D <= N < (q + 1) * b * D
  /\ (N = q * b * D -> l = loc_Exact /\ m mod 2 ^ (F - e) = 0).
Proof.
  intros Hm HD He HF (HA & HeA & [Hlo Hhi] & Hex) q b.
  assert (Ha : 0 < 2 ^ (F - e)) by (apply Z.pow_pos_nonneg; lia).
  assert (Hc : 0 < 2 ^ A) by (apply Z.pow_pos_nonneg; lia).
  pose proof (Z.div_mod m (2 ^ (F - e)) ltac:(lia)) as Hdm. fold q in Hdm.
  pose proof (Z.mod_pos_bound m (2 ^ (F - e)) Ha) as Hr. set (r := m mod 2 ^ (F - e)) in *.
  set (P := 2 ^ (e + 1074 + A)) in *.
  assert (HPf : 2 ^ (F - e) * P = b * 2 ^ A).
  { unfold P, b. rewrite <- !Z.pow_add_r by lia. f_equal. lia. }
  assert (HPD : 0 < P * D) by (apply Z.mul_pos_pos; [apply Z.pow_pos_nonneg; lia|done]).
  set (a := 2 ^ (F - e)) in *. set (c := 2 ^ A) in *.
  assert (Hconv : forall k, k * b * D * c = k * a * (P * D)).
  { intros k. transitivity (k * D * (b * c)); [lia|]. rewrite <- HPf. lia. }
  split_and!.
  - apply (Zmult_le_reg_r _ _ c); [lia|]. rewrite Hconv.
    transitivity (m * (P * D)); [apply Z.mul_le_mono_nonneg_r; lia|lia].
  - apply (Zmult_lt_reg_r _ _ c); [lia|]. rewrite Hconv.
    apply Z.lt_le_trans with ((m + 1) * (P * D)); [lia|apply Z.mul_le_mono_nonneg_r; lia].
  - intros HN. assert (Heq : N * c = q * a * (P * D)) by (by rewrite HN, Hconv).
    assert (Hmq : m * (P * D) <= q * a * (P * D)) by lia.
    apply Zmult_le_reg_r in Hmq; [|lia]. assert (Hr0 : r = 0) by lia.
    split; [|done]. apply Hex. rewrite Heq. replace m with (q * a) by lia. lia.
Qed.

(** Rounding to a neighbour is off by less than one unit in the last place. *)
Lemma rounds_error q b mr N D :
  0 <= q -> 0 < b -> 0 < D -> q * b * D <= N < (q + 1) * b * D -> q <= mr <= q + 1 ->
  b = 1 \/ 2 ^ 52 <= q ->
  mr * b * D * 2 ^ 52 <= N * (2 ^ 52 + 1) + D * 2 ^ 52
  /\ N * 2 ^ 52 <= mr * b * D * (2 ^ 52 + 1) + D * 2 ^ 52.
Proof.
  intros Hq Hb HD HN Hmr Hn. assert (HbD : 0 < b * D) by (by apply Z.mul_pos_pos).
  assert (H1 : mr * (b * D) <= N + b * D).
  { transitivity ((q + 1) * (b * D)); [apply Z.mul_le_mono_nonneg_r; lia|lia]. }
  assert (H2 : N <= mr * (b * D) + b * D).
  { transitivity ((q + 1) * (b * D)); [lia|].
    replace (mr * (b * D) + b * D) with ((mr + 1) * (b * D)) by lia. apply Z.mul_le_mono_nonneg_r; lia. }
  assert (H3 : b * D * 2 ^ 52 <= q * b * D + D * 2 ^ 52).
  { destruct Hn as [->|Hn]; [lia|].
    assert (2 ^ 52 * (b * D) <= q * (b * D)) by (apply Z.mul_le_mono_nonneg_r; lia). lia. }
  assert (H4 : q * (b * D) <= mr * (b * D)) by (apply Z.mul_le_mono_nonneg_r; lia).
  split; lia.
Qed.

Lemma round_aux_rounds m e l N D A :
  0 <= m -> 0 < D -> e <= target m e -> represents m e l N D A ->
  rounds N D (binary_round_aux f64_prec f64_emax false m e l).
Proof.
  intros Hm HD He Hrep.
  destruct (round_aux_spec false m e l Hm He) as (mr & -> & Hmr & Hmax & Hexact & Hn).
  pose proof (target_spec m e) as Ht. set (F := target m e) in *.
  destruct (represents_floor m e l N D A F Hm HD He ltac:(lia) Hrep) as [[H1 H2] H3].
  set (q := m / 2 ^ (F - e)) in *. set (f := F + 1074) in *.
  assert (Hq0 : 0 <= q) by (apply Z.div_pos; [lia|apply Z.pow_pos_nonneg; lia]).
  assert (Hn' : f = 0 \/ 2 ^ 52 <= q) by lia.
  assert (Hb : 0 < 2 ^ f) by (apply Z.pow_pos_nonneg; lia).
  destruct (rounds_error q (2 ^ f) mr N D Hq0 Hb HD (conj H1 H2) Hmr) as [E1 E2].
  { destruct Hn' as [->|?]; [by left|by right]. }
  exists (mr * 2 ^ f). split_and!; [apply Z.mul_nonneg_nonneg; lia| |done|done|].
  - intros K J HK HJ. split; intros HKJ.
    + apply (rounds_bound_le q f mr N D); try done; [lia|]. intros HN. by apply Hexact; apply H3.
    + by apply (rounds_bound_ge q f mr N D); try done; lia.
  - intros Hv. apply norm_ok; [lia|lia|lia|exact Hv].
Qed.

(** ** The operations *)

Lemma fz_nonneg x : 0 <= fz x.
Proof.
  by destruct x as [| | |[] m e]; simpl; lia.
Qed.

Lemma ok_cases x :
  ok x -> fz x = 0 /\ x = S754_zero false
  \/ exists m e, x = S754_finite false m e /\ fz x = Z.pos m * 2 ^ (e + 1074) /\ 0 < fz x
     /\ -1074 <= e <= 971 /\ Z.pos m < 2 ^ 53 /\ (e = -1074 \/ 2 ^ 52 <= Z.pos m).
Proof.
  destruct x as [[]| | |[] m e]; simpl; try done; [by left|right].
  exists m, e. split_and!; try done; lia.
Qed.

Lemma ok_not_nan x : ok x -> f64_is_nan x = false.
Proof. intros Hx. by destruct (ok_cases x Hx) as [[_ ->]|(m & e & -> & _)]. Qed.

(** An exact result needs no rounding: the two bounds meet. *)
Lemma rounds_zero D : 0 < D -> rounds 0 D (S754_zero false).
Proof.
  intros HD. exists 0. split_and!; lia || done.
Qed.

Lemma represents_exact m e N A :
  0 <= A -> 0 <= e + 1074 + A -> N * 2 ^ A = m * 2 ^ (e + 1074 + A) ->
  represents m e loc_Exact N 1 A.
Proof.
  intros HA He HN. assert (0 < 2 ^ (e + 1074 + A)) by (apply Z.pow_pos_nonneg; lia).
  split_and!; [done|done|lia|lia|done].
Qed.

Lemma iter_xO m d : Z.pos (Pos.iter xO m d) = Z.pos m * 2 ^ Z.pos d.
Proof.
  induction d as [|d IH] using Pos.peano_ind; [simpl; lia|].
  rewrite Pos.iter_succ, Pos2Z.inj_succ, Z.pow_succ_r by lia. rewrite (Pos2Z.inj_xO (Pos.iter xO m d)), IH. lia.
Qed.

Lemma digits_shift m k : 0 < m -> 0 <= k -> Zdigits2 (m * 2 ^ k) = Zdigits2 m + k.
Proof.
  intros Hm Hk. assert (0 < 2 ^ k) by (apply Z.pow_pos_nonneg; lia).
  destruct (Zdigits2_spec m ltac:(lia)) as (Hd & Hlt & Hge). specialize (Hge Hm).
  destruct (Zdigits2_spec (m * 2 ^ k) ltac:(lia)) as (Hd' & Hlt' & Hge'). specialize (Hge' ltac:(lia)).
  apply Z.le_antisymm.
  - apply Z.lt_pred_le, (Z.pow_lt_mono_r_iff 2); [lia..|]. eapply Z.le_lt_trans.
    + unfold Z.pred. exact Hge'.
    + rewrite Z.pow_add_r by lia. apply Z.mul_lt_mono_pos_r; lia.
  - apply Z.lt_pred_le, (Z.pow_lt_mono_r_iff 2); [lia..|]. eapply Z.le_lt_trans; [|exact Hlt'].
    replace (Z.pred (Zdigits2 m + k)) with (Zdigits2 m - 1 + k) by lia.
    destruct (Z.eq_dec (Zdigits2 m) 0) as [E|E]; [rewrite E in *; lia|].
    rewrite Z.pow_add_r by lia. apply Z.mul_le_mono_nonneg_r; lia.
Qed.

Lemma binary_round_rounds m e N :
  -1074 <= e -> N = Z.pos m * 2 ^ (e + 1074) ->
  rounds N 1 (binary_round f64_prec f64_emax false m e).
Proof.
  intros He HN. unfold binary_round, shl_align. fold (target (Z.pos m) e).
  change (fexp f64_prec f64_emax (Z.pos (digits2_pos m) + e)) with (target (Z.pos m) e).
  pose proof (target_spec (Z.pos m) e) as Ht.
  destruct (target (Z.pos m) e - e) as [|d|d] eqn:Ed.
  - apply (round_aux_rounds _ _ _ _ _ 0); [lia..|]. apply represents_exact; [lia..|].
    rewrite Z.add_0_r, HN. lia.
  - apply (round_aux_rounds _ _ _ _ _ 0); [lia..|]. apply represents_exact; [lia..|].
    rewrite Z.add_0_r, HN. lia.
  - rewrite iter_xO. apply (round_aux_rounds _ _ _ _ _ 0); [lia..| |].
    + rewrite (target_spec (_ * _)), digits_shift by lia. lia.
    + apply represents_exact; [lia..|]. rewrite HN, Z.add_0_r.
      replace (e + 1074) with (Z.pos d + (target (Z.pos m) e + 1074)) by lia. rewrite Z.pow_add_r by lia. lia.
Qed.

Lemma shl_align_fst m e ez :
  ez <= e -> Z.pos (shl_align m e ez).1 = Z.pos m * 2 ^ (e - ez).
Proof.
  intros He. unfold shl_align. destruct (ez - e) as [|d|d] eqn:E; [|lia|]; simpl fst.
  - replace (e - ez) with 0 by lia. lia.
  - rewrite iter_xO. do 2 f_equal. lia.
Qed.

Lemma f64_of_Z_rounds z : 0 <= z -> rounds (z * U) 1 (f64_of_Z z).
Proof.
  intros Hz. unfold f64_of_Z, binary_normalize. destruct z as [|p|p]; [by apply rounds_zero| |lia].
  apply binary_round_rounds; [lia|]. done.
Qed.

(** An operation that returns one of its arguments returns it exactly. *)
Lemma rounds_self x : ok x -> rounds (fz x) 1 x.
Proof.
  intros Hx. exists (fz x). pose proof (fz_nonneg x). split_and!; lia || done.
Qed.

Lemma binary_normalize_rounds z e :
  0 <= z -> -1074 <= e ->
  rounds (z * 2 ^ (e + 1074)) 1 (binary_normalize f64_prec f64_emax z e false).
Proof.
  intros Hz He. destruct z as [|p|p]; [by apply rounds_zero| |lia]. by apply binary_round_rounds.
Qed.

(** Two finite floats brought to the smaller of their exponents. *)
Lemma fz_align m e ez :
  -1074 <= ez <= e -> Z.pos m * 2 ^ (e + 1074) = Z.pos (shl_align m e ez).1 * 2 ^ (ez + 1074).
Proof.
  intros He. rewrite shl_align_fst by lia. rewrite <- Z.mul_assoc, <- Z.pow_add_r by lia. do 2 f_equal. lia.
Qed.

Lemma f64_add_rounds x y : ok x -> ok y -> rounds (fz x + fz y) 1 (f64_add x y).
Proof.
  intros Hx Hy. unfold f64_add. pose proof (rounds_self x Hx) as Rx. pose proof (rounds_self y Hy) as Ry.
  destruct (ok_cases x Hx) as [[Ex ->]|(mx & ex & -> & Ex & _ & Hex & _)];
    destruct (ok_cases y Hy) as [[Ey ->]|(my & ey & -> & Ey & _ & Hey & _)];
    rewrite ?Ex, ?Ey in *; rewrite ?Z.add_0_l, ?Z.add_0_r; try done.
  cbn [SFadd cond_Zopp]. rewrite (fz_align mx ex (Z.min ex ey)), (fz_align my ey (Z.min ex ey)) by lia.
  rewrite <- Z.mul_add_distr_r. apply binary_normalize_rounds; lia.
Qed.

Lemma f64_sub_rounds x y : ok x -> ok y -> fz y <= fz x -> rounds (fz x - fz y) 1 (f64_sub x y).
Proof.
  intros Hx Hy Hle. unfold f64_sub. pose proof (rounds_self x Hx) as Rx.
  destruct (ok_cases x Hx) as [[Ex ->]|(mx & ex & -> & Ex & Px & Hex & _)];
    destruct (ok_cases y Hy) as [[Ey ->]|(my & ey & -> & Ey & Py & Hey & _)];
    rewrite ?Ex, ?Ey in *; rewrite ?Z.sub_0_r; try done; try lia.
  cbn [SFsub cond_Zopp]. revert Hle.
  rewrite (fz_align mx ex (Z.min ex ey)), (fz_align my ey (Z.min ex ey)) by lia. intros Hle.
  rewrite <- Z.mul_sub_distr_r. apply binary_normalize_rounds; [|lia].
  apply Zmult_le_reg_r in Hle; [lia|]. apply Z.lt_gt, Z.pow_pos_nonneg; lia.
Qed.

Lemma f64_mul_rounds x y : ok x -> ok y -> rounds (fz x * fz y) U (f64_mul x y).
Proof.
  intros Hx Hy. unfold f64_mul.
  destruct (ok_cases x Hx) as [[Ex ->]|(mx & ex & -> & Ex & Px & Hex & Hmx & Hnx)];
    destruct (ok_cases y Hy) as [[Ey ->]|(my & ey & -> & Ey & Py & Hey & Hmy & Hny)];
    rewrite ?Ex, ?Ey; rewrite ?Z.mul_0_r; try (by apply rounds_zero).
  cbn [SFmul xorb]. apply (round_aux_rounds _ _ _ _ _ 1074); [lia|done| |].
  - rewrite target_spec. destruct (Zdigits2_spec (Z.pos (mx * my)) ltac:(lia)) as (Hd & _ & _).
    destruct (decide (ex + ey <= -1074)) as [|Hgt]; [lia|].
    assert (52 < Zdigits2 (Z.pos (mx * my))); [|lia]. apply Zdigits2_le; [lia| |lia].
    rewrite Pos2Z.inj_mul. destruct Hnx as [?|?], Hny as [?|?]; nia.
  - assert (HU : 0 < U) by (by apply Z.pow_pos_nonneg).
    assert (HP : 0 < 2 ^ (ex + ey + 1074 + 1074)) by (apply Z.pow_pos_nonneg; lia).
    assert (Heq : Z.pos mx * 2 ^ (ex + 1074) * (Z.pos my * 2 ^ (ey + 1074))
                  = Z.pos (mx * my) * 2 ^ (ex + ey + 1074 + 1074)).
    { rewrite Pos2Z.inj_mul. replace (ex + ey + 1074 + 1074) with (ex + 1074 + (ey + 1074)) by lia.
      rewrite (Z.pow_add_r _ (ex + 1074)) by lia. lia. }
    rewrite Heq. change (2 ^ 1074) with U.
    assert (HPU : 0 < 2 ^ (ex + ey + 1074 + 1074) * U) by (by apply Z.mul_pos_pos).
    unfold represents. change (2 ^ 1074) with U. revert HP HPU.
    generalize U, (2 ^ (ex + ey + 1074 + 1074)). intros u P HP HPu. split_and!; [lia..|done].
Qed.

(** The quotient has at least 53 digits, or reaches below the unit. *)
Lemma div_target m1 e1 m2 e2 :
  0 < m1 -> 0 < m2 ->
  let e' := Z.min (fexp f64_prec f64_emax (Zdigits2 m1 + e1 - (Zdigits2 m2 + e2))) (e1 - e2) in
  e' <= target (m1 * 2 ^ (e1 - e2 - e') / m2) e'.
Proof.
  intros H1 H2 e'. set (q := _ / m2). rewrite target_spec. destruct (decide (e' <= -1074)) as [|Hgt]; [lia|].
  change (fexp _ _ ?d) with (Z.max (d - 53) (-1074)) in e'.
  destruct (Zdigits2_spec m1 ltac:(lia)) as (Hd1 & _ & Hge1). specialize (Hge1 H1).
  destruct (Zdigits2_spec m2 ltac:(lia)) as (Hd2 & Hlt2 & _).
  assert (Hd1' : 0 < Zdigits2 m1).
  { apply Zdigits2_le; simpl; lia. }
  assert (Hq : 2 ^ 52 <= q).
  { apply Z.div_le_lower_bound; [done|]. apply Z.le_trans with (2 ^ Zdigits2 m2 * 2 ^ 52).
    - apply Z.mul_le_mono_nonneg_r; lia.
    - rewrite <- Z.pow_add_r by lia.
      apply Z.le_trans with (2 ^ (Zdigits2 m1 - 1) * 2 ^ (e1 - e2 - e')).
      + rewrite <- Z.pow_add_r by lia. apply Z.pow_le_mono_r; lia.
      + apply Z.mul_le_mono_nonneg_r; [apply Z.pow_nonneg; lia|done]. }
  pose proof (Zdigits2_le q 52 ltac:(lia) Hq ltac:(lia)). lia.
Qed.

Lemma new_location_exact n r : r = 0 -> new_location n r = loc_Exact.
Proof. intros ->. unfold new_location, new_location_even, new_location_odd. by destruct (Z.even n). Qed.

Lemma div_represents m1 e1 m2 e2 e' :
  0 < m1 -> 0 < m2 -> -1074 <= e1 <= 971 -> -1074 <= e2 <= 971 -> -2045 <= e' <= e1 - e2 ->
  let m' := m1 * 2 ^ (e1 - e2 - e') in
  represents (m' / m2) e' (new_location m2 (m' mod m2))
    (m1 * 2 ^ (e1 + 1074) * U) (m2 * 2 ^ (e2 + 1074)) 2148.
Proof.
  intros H1 H2 He1 He2 He' m'. set (T := 2 ^ (e2 + e' + 4296)).
  assert (HT : 0 < T) by (apply Z.pow_pos_nonneg; lia).
  assert (HN : m1 * 2 ^ (e1 + 1074) * U * 2 ^ 2148 = m' * T).
  { unfold m', T, U. rewrite <- !Z.mul_assoc, <- !Z.pow_add_r by lia. do 2 f_equal. lia. }
  assert (HD : forall k, k * 2 ^ (e' + 1074 + 2148) * (m2 * 2 ^ (e2 + 1074)) = k * m2 * T).
  { intros k. unfold T. replace (e2 + e' + 4296) with (e' + 1074 + 2148 + (e2 + 1074)) by lia.
    rewrite (Z.pow_add_r _ (e' + 1074 + 2148)) by lia. lia. }
  unfold represents. rewrite !HD, HN. pose proof (Z.div_mod m' m2 ltac:(lia)) as Hdm.
  pose proof (Z.mod_pos_bound m' m2 H2) as Hr. set (q := m' / m2) in *. set (r := m' mod m2) in *.
  split_and!; [lia|lia| | |].
  - apply Z.mul_le_mono_nonneg_r; lia.
  - apply Z.mul_lt_mono_pos_r; lia.
  - intros Heq. apply new_location_exact. apply Z.mul_reg_r in Heq; lia.
Qed.

Lemma f64_div_rounds x y : ok x -> ok y -> 0 < fz y -> rounds (fz x * U) (fz y) (f64_div x y).
Proof.
  intros Hx Hy Hpos. unfold f64_div.
  destruct (ok_cases y Hy) as [[Ey ->]|(my & ey & -> & Ey & Py & Hey & Hmy & Hny)]; [lia|].
  destruct (ok_cases x Hx) as [[Ex ->]|(mx & ex & -> & Ex & Px & Hex & Hmx & Hnx)];
    rewrite ?Ex; [by apply rounds_zero|]. rewrite Ey in *. cbn [SFdiv xorb]. unfold SFdiv_core_binary.
  set (e' := Z.min _ (ex - ey)).
  assert (He' : -2045 <= e' <= ex - ey).
  { unfold e'. change (fexp _ _ ?d) with (Z.max (d - 53) (-1074)). lia. }
  assert (Hm' : match ex - ey - e' with
    | Z0 => Z.pos mx | Zpos _ => Z.shiftl (Z.pos mx) (ex - ey - e') | Zneg _ => Z0 end
    = Z.pos mx * 2 ^ (ex - ey - e')).
  { destruct (ex - ey - e') as [|p|p] eqn:E; [simpl; lia| |lia]. rewrite <- E. apply Z.shiftl_mul_pow2. lia. }
  rewrite Hm'. pose proof (Z.div_eucl_eq (Z.pos mx * 2 ^ (ex - ey - e')) (Z.pos my)) as _.
  destruct (Z.div_eucl (Z.pos mx * 2 ^ (ex - ey - e')) (Z.pos my)) as [q r] eqn:Eq.
  assert (Hq : q = Z.pos mx * 2 ^ (ex - ey - e') / Z.pos my) by (unfold Z.div; by rewrite Eq).
  assert (Hr : r = (Z.pos mx * 2 ^ (ex - ey - e')) mod Z.pos my) by (unfold Z.modulo; by rewrite Eq).
  assert (0 < 2 ^ (ex - ey - e')) by (apply Z.pow_pos_nonneg; lia).
  rewrite Hq, Hr. apply (round_aux_rounds _ _ _ _ _ 2148).
  - apply Z.div_pos; lia.
  - done.
  - apply div_target; lia.
  - apply div_represents; lia.
Qed.

(** ** Bounds *)

(** The form in which the bounds are used: a representable upper bound on the
    exact result. *)
Lemma rounds_le N D r K J :
  rounds N D r -> 0 <= K < 2 ^ 53 -> 0 <= J <= 2045 -> N <= K * 2 ^ J * D ->
  ok r /\ fz r <= K * 2 ^ J.
Proof.
  intros (v & Hv0 & Hb & _ & _ & Hfin) HK HJ HN.
  destruct (Hb K J HK ltac:(lia)) as [Hup _]. specialize (Hup HN).
  destruct Hfin as [Hok ->]; [|done]. eapply Z.le_lt_trans; [exact Hup|].
  apply Z.lt_le_trans with (2 ^ 53 * 2 ^ J).
  - apply Z.mul_lt_mono_pos_r; [apply Z.pow_pos_nonneg; lia|lia].
  - rewrite <- Z.pow_add_r by lia. apply Z.pow_le_mono_r; lia.
Qed.

Lemma rounds_ge N D r K J K' J' :
  rounds N D r -> 0 <= K' < 2 ^ 53 -> 0 <= J' <= 2045 -> N <= K' * 2 ^ J' * D ->
  0 <= K < 2 ^ 53 -> 0 <= J -> K * 2 ^ J * D <= N -> K * 2 ^ J <= fz r.
Proof.
  intros Hr HK' HJ' HN' HK HJ HN. pose proof (rounds_le _ _ _ _ _ Hr HK' HJ' HN') as [_ Hle].
  destruct Hr as (v & Hv0 & Hb & _ & _ & Hfin).
  destruct (Hb K' J' HK' ltac:(lia)) as [Hup _]. specialize (Hup HN').
  destruct (Hb K J HK HJ) as [_ Hlo]. specialize (Hlo HN).
  destruct Hfin as [_ ->]; [|done]. eapply Z.le_lt_trans; [exact Hup|].
  apply Z.lt_le_trans with (2 ^ 53 * 2 ^ J').
  - apply Z.mul_lt_mono_pos_r; [apply Z.pow_pos_nonneg; lia|lia].
  - rewrite <- Z.pow_add_r by lia. apply Z.pow_le_mono_r; lia.
Qed.

(** The error of one operation: one part in [2^52], or one unit. *)
Lemma rounds_near N D r K J :
  rounds N D r -> 0 <= K < 2 ^ 53 -> 0 <= J <= 2045 -> N <= K * 2 ^ J * D ->
  fz r * D * 2 ^ 52 <= N * (2 ^ 52 + 1) + D * 2 ^ 52
  /\ N * 2 ^ 52 <= fz r * D * (2 ^ 52 + 1) + D * 2 ^ 52.
Proof.
  intros (v & Hv0 & Hb & E1 & E2 & Hfin) HK HJ HN.
  destruct (Hb K J HK ltac:(lia)) as [Hup _]. specialize (Hup HN).
  destruct Hfin as [_ ->]; [|done]. eapply Z.le_lt_trans; [exact Hup|].
  apply Z.lt_le_trans with (2 ^ 53 * 2 ^ J).
  - apply Z.mul_lt_mono_pos_r; [apply Z.pow_pos_nonneg; lia|lia].
  - rewrite <- Z.pow_add_r by lia. apply Z.pow_le_mono_r; lia.
Qed.

Lemma U_pos : 0 < U.
Proof. by apply Z.pow_pos_nonneg. Qed.

(** Integers below [2^53] are exact. *)
Lemma f64_of_Z_exact z : 0 <= z < 2 ^ 53 -> ok (f64_of_Z z) /\ fz (f64_of_Z z) = z * U.
Proof.
  intros Hz. pose proof (f64_of_Z_rounds z ltac:(lia)) as Hr.
  destruct (rounds_le _ _ _ z 1074 Hr) as [Hok Hle]; [lia|lia|change (2 ^ 1074) with U; lia|].
  pose proof (rounds_ge _ _ _ z 1074 z 1074 Hr) as Hge. change (2 ^ 1074) with U in *.
  split; [done|]. apply Z.le_antisymm; [done|]. apply Hge; lia.
Qed.

(** ** Durations

    Bounds in whole seconds carry through the float conversions. *)

Lemma as_secs_f64_le d B :
  0 <= d <= B * nanos_per_sec -> B < 2 ^ 53 -> ok (as_secs_f64 d) /\ fz (as_secs_f64 d) <= B * U.
Proof.
  intros Hd HB. unfold as_secs_f64, nanos_per_sec in *.
  pose proof (Z.div_mod d 1000000000 ltac:(lia)) as Hdm.
  pose proof (Z.mod_pos_bound d 1000000000 ltac:(lia)) as Hm.
  set (s := d / 1000000000) in *. set (n := d mod 1000000000) in *. pose proof U_pos as HU.
  destruct (f64_of_Z_exact s) as [Hs1 Hs2]; [lia|]. destruct (f64_of_Z_exact n) as [Hn1 Hn2]; [lia|].
  destruct (f64_of_Z_exact 1000000000) as [Hg1 Hg2]; [lia|].
  assert (Hdiv := f64_div_rounds _ _ Hn1 Hg1 ltac:(rewrite Hg2; lia)). rewrite Hn2, Hg2 in Hdiv.
  set (c := if n =? 0 then 0 else 1).
  assert (Hc : 0 <= c <= 1 /\ s + c <= B) by (unfold c; destruct (Z.eqb_spec n 0); lia).
  destruct (rounds_le _ _ _ c 1074 Hdiv) as [Hq1 Hq2]; [lia|lia| |].
  { change (2 ^ 1074) with U. unfold c. destruct (Z.eqb_spec n 0) as [->|]; [lia|].
    assert (n * (U * U) <= 1000000000 * (U * U)) by (apply Z.mul_le_mono_nonneg_r; lia). lia. }
  change (2 ^ 1074) with U in Hq2.
  pose proof (f64_add_rounds _ _ Hs1 Hq1) as Hadd. rewrite Hs2 in Hadd.
  apply (rounds_le _ _ _ B 1074 Hadd); [lia|lia|]. change (2 ^ 1074) with U.
  assert ((s + c) * U <= B * U) by (apply Z.mul_le_mono_nonneg_r; lia). lia.
Qed.

Lemma div_nearest_even_bounds a b k :
  0 < b -> 0 <= a -> a <= k * b -> 0 <= div_nearest_even a b <= k.
Proof.
  intros Hb Ha Hk. unfold div_nearest_even.
  pose proof (Z.div_mod a b ltac:(lia)) as Hdm. pose proof (Z.mod_pos_bound a b Hb) as Hr.
  assert (Hq0 : 0 <= a / b) by (by apply Z.div_pos).
  set (q := a / b) in *. set (r := a mod b) in *.
  assert (Hq : q <= k) by (apply (Zmult_le_reg_r _ _ b); lia).
  assert (Hq1 : 0 < r -> q + 1 <= k).
  { intros Hr0. assert (Hlt : q * b < k * b) by lia. apply Zmult_lt_reg_r in Hlt; lia. }
  destruct (Z.compare_spec (2 * r) b); [destruct (Z.even q)|..]; lia.
Qed.

Lemma from_secs_f64_le x B :
  ok x -> fz x <= B * U -> 0 <= B <= u64_max ->
  exists d, from_secs_f64 x = Some d /\ 0 <= d <= B * nanos_per_sec.
Proof.
  intros Hx Hle HB. destruct (ok_cases x Hx) as [[_ ->]|(m & e & -> & Hf & _ & He & _)].
  { exists 0. split; [done|]. unfold nanos_per_sec. lia. }
  rewrite Hf in Hle. unfold from_secs_f64. destruct (Z.leb_spec 0 e) as [He0|He0].
  - assert (Hv : Z.pos m * 2 ^ e <= B).
    { apply (Zmult_le_reg_r _ _ U); [pose proof U_pos; lia|]. rewrite <- Z.mul_assoc. unfold U at 1.
      by rewrite <- Z.pow_add_r by lia. }
    rewrite (proj2 (Z.leb_le _ _)) by int_lia. exists (Z.pos m * 2 ^ e * nanos_per_sec).
    assert (0 < 2 ^ e) by (apply Z.pow_pos_nonneg; lia). unfold nanos_per_sec. split; [done|]. lia.
  - assert (Hp : 0 < 2 ^ (- e)) by (apply Z.pow_pos_nonneg; lia).
    assert (Hv : Z.pos m <= B * 2 ^ (- e)).
    { apply (Zmult_le_reg_r _ _ (2 ^ (e + 1074))); [apply Z.lt_gt, Z.pow_pos_nonneg; lia|].
      rewrite <- Z.mul_assoc, <- Z.pow_add_r by lia. replace (- e + (e + 1074)) with 1074 by lia. done. }
    destruct (div_nearest_even_bounds (Z.pos m * nanos_per_sec) (2 ^ (- e)) (B * nanos_per_sec)) as [H1 H2];
      [done|unfold nanos_per_sec; lia|unfold nanos_per_sec; lia|].
    eexists. rewrite (proj2 (Z.leb_le _ _)); [done|]. unfold duration_max, nanos_per_sec in *. int_lia.
Qed.

Lemma div_nearest_even_near a b :
  0 < b -> a - b <= div_nearest_even a b * b <= a + b.
Proof.
  intros Hb. unfold div_nearest_even.
  pose proof (Z.div_mod a b ltac:(lia)) as Hdm. pose proof (Z.mod_pos_bound a b Hb) as Hr.
  set (q := a / b) in *. set (r := a mod b) in *.
  destruct (2 * r ?= b); [destruct (Z.even q)|..]; lia.
Qed.

(** [Duration::from_secs_f64] is exact to the nanosecond. *)
Lemma from_secs_f64_near x d :
  ok x -> from_secs_f64 x = Some d ->
  fz x * nanos_per_sec - U <= d * U <= fz x * nanos_per_sec + U.
Proof.
  intros Hx Hd. pose proof U_pos as HU. unfold nanos_per_sec.
  destruct (ok_cases x Hx) as [[-> ->]|(m & e & -> & -> & _ & He & _)].
  { injection Hd as <-. lia. }
  unfold from_secs_f64, nanos_per_sec in Hd. destruct (Z.leb_spec 0 e) as [He0|He0].
  - case_match; [|done]. injection Hd as <-. rewrite Z.pow_add_r by lia. change (2 ^ 1074) with U. lia.
  - case_match; [|done]. injection Hd as <-.
    assert (Hp : 0 < 2 ^ (- e)) by (apply Z.pow_pos_nonneg; lia).
    assert (Hp' : 0 < 2 ^ (e + 1074)) by (apply Z.pow_pos_nonneg; lia).
    pose proof (div_nearest_even_near (Z.pos m * 1000000000) (2 ^ (- e)) Hp) as [N1 N2].
    assert (HUe : U = 2 ^ (- e) * 2 ^ (e + 1074)) by (unfold U; rewrite <- Z.pow_add_r by lia; f_equal; lia).
    rewrite HUe. set (w := div_nearest_even _ _) in *. set (b := 2 ^ (- e)) in *.
    set (c := 2 ^ (e + 1074)) in *. apply (Z.mul_le_mono_nonneg_r _ _ c) in N1, N2; lia.
Qed.

(** [d.mul_f64(k)] for [d] at most [B] seconds and [k * B] at most [B']. *)
Lemma dur_mul_f64_le d k B B' :
  0 <= d <= B * nanos_per_sec -> B < 2 ^ 53 -> ok k -> fz k * B <= B' * U -> 0 <= B' < 2 ^ 53 ->
  exists d', dur_mul_f64 d k = Some d' /\ 0 <= d' <= B' * nanos_per_sec.
Proof.
  intros Hd HB Hk HkB HB'. destruct (as_secs_f64_le d B Hd HB) as [Ha1 Ha2].
  assert (Hmul := f64_mul_rounds _ _ Hk Ha1). unfold dur_mul_f64. pose proof U_pos as HU.
  destruct (rounds_le _ _ _ B' 1074 Hmul) as [Hr1 Hr2]; [lia|lia| |].
  2:{ apply from_secs_f64_le; [done|done|int_lia]. }
  change (2 ^ 1074) with U. pose proof (fz_nonneg k).
  assert (fz k * fz (as_secs_f64 d) <= fz k * (B * U)) by (apply Z.mul_le_mono_nonneg_l; lia).
  assert (fz k * B * U <= B' * U * U) by (apply Z.mul_le_mono_nonneg_r; lia). lia.
Qed.

(** A factor drawn from [0.8..=1.2]: a canonical float between the two. *)
Definition jitter_ok (j : f64) : Prop := ok j /\ 4 * U <= 5 * fz j <= 6 * U.

Lemma jittered_le d j B :
  0 <= d <= 5 * B * nanos_per_sec -> 0 <= B < 2 ^ 50 -> jitter_ok j ->
  exists d', dur_mul_f64 d j = Some d' /\ 0 <= d' <= 6 * B * nanos_per_sec.
Proof.
  intros Hd HB [Hok Hj]. pose proof U_pos. apply (dur_mul_f64_le d j (5 * B)); try lia; [done|].
  assert (5 * fz j * B <= 6 * U * B) by (apply Z.mul_le_mono_nonneg_r; lia). lia.
Qed.

(** ** Floors *)

(** [x.floor() as isize] for [x] in range, and its conversion back, which is
    exact. *)
Lemma f64_floor_isize_spec x :
  ok x -> fz x <= 2 ^ 62 * U ->
  f64_floor_isize x = fz x / U
  /\ ok (f64_of_Z (fz x / U)) /\ fz (f64_of_Z (fz x / U)) = fz x / U * U.
Proof.
  intros Hx Hle. pose proof U_pos as HU. assert (Hq0 : 0 <= fz x / U) by (apply Z.div_pos; [apply fz_nonneg|done]).
  assert (Hq : fz x / U <= 2 ^ 62) by (apply Z.div_le_upper_bound; lia).
  destruct (ok_cases x Hx) as [[-> ->]|(m & e & -> & Hf & _ & He & Hm & _)]; [by rewrite Z.div_0_l by lia|].
  assert (Hfl : scale_floor (Z.pos m) e = fz (S754_finite false m e) / U
                /\ (0 <= e -> fz (S754_finite false m e) / U = Z.pos m * 2 ^ e)).
  { rewrite Hf. unfold scale_floor. assert (He1 : 0 <= e -> Z.pos m * 2 ^ (e + 1074) / U = Z.pos m * 2 ^ e).
    { intros He0. rewrite Z.pow_add_r, Z.mul_assoc by lia. apply Z.div_mul. lia. }
    destruct (Z.leb_spec 0 e) as [He0|He0]; [by rewrite He1|]. split; [|lia].
    assert (HUe : U = 2 ^ (- e) * 2 ^ (e + 1074)) by (unfold U; rewrite <- Z.pow_add_r by lia; f_equal; lia).
    rewrite HUe. symmetry. apply Z.div_mul_cancel_r; apply Z.pow_nonzero; lia. }
  destruct Hfl as [Hfl Hint]. split.
  { cbn [f64_floor_isize]. rewrite Hfl. unfold isize_max, isize_min. lia. }
  set (q := fz (S754_finite false m e) / U) in *. destruct (decide (q < 2 ^ 53)); [by apply f64_of_Z_exact|].
  assert (He0 : 0 <= e).
  { destruct (Z.le_gt_cases 0 e); [done|]. exfalso. assert (Hlt : q < 2 ^ 53); [|lia].
    apply Z.div_lt_upper_bound; [done|]. rewrite Hf.
    apply Z.lt_le_trans with (2 ^ 53 * 2 ^ (e + 1074));
      [apply Z.mul_lt_mono_pos_r; [apply Z.pow_pos_nonneg; lia|done]|].
    unfold U. rewrite <- !Z.pow_add_r by lia. apply Z.pow_le_mono_r; lia. }
  assert (HqU : q * U = Z.pos m * 2 ^ (e + 1074)).
  { rewrite Hint by done. rewrite Z.pow_add_r by lia. unfold U. lia. }
  pose proof (f64_of_Z_rounds q Hq0) as Hr. rewrite HqU in *.
  destruct (rounds_le _ _ _ (Z.pos m) (e + 1074) Hr) as [Hok Hup]; [lia|lia|lia|].
  split; [done|]. apply Z.le_antisymm; [done|].
  apply (rounds_ge _ _ _ (Z.pos m) (e + 1074) (Z.pos m) (e + 1074) Hr); lia.
Qed.

(** No jitter. *)
Lemma jitter_ok_one : jitter_ok f64_one.
Proof.
  destruct (f64_of_Z_exact 1) as [Hok Hz]; [lia|]. split; [done|]. unfold f64_one. rewrite Hz. pose proof U_pos. lia.
Qed.

#[global] Opaque U.

(** ** Comparison *)

Lemma canonical_lt m1 e1 m2 e2 :
  -1074 <= e1 -> e1 < e2 -> Z.pos m1 < 2 ^ 53 -> 2 ^ 52 <= Z.pos m2 ->
  Z.pos m1 * 2 ^ (e1 + 1074) < Z.pos m2 * 2 ^ (e2 + 1074).
Proof.
  intros H1 He Hm1 Hm2. assert (H0 : 0 < 2 ^ (e1 + 1074)) by (apply Z.pow_pos_nonneg; lia).
  assert (Hle : 2 ^ (e1 + 1074 + 1) <= 2 ^ (e2 + 1074)) by (apply Z.pow_le_mono_r; lia).
  rewrite (Z.pow_add_r 2 (e1 + 1074) 1) in Hle by lia. nia.
Qed.

(** On the non-negative finite floats the float comparison is that of the values. *)
Lemma f64_partial_cmp_fz x y : ok x -> ok y -> f64_partial_cmp x y = Some (fz x ?= fz y).
Proof.
  intros Hx Hy. unfold f64_partial_cmp.
  destruct (ok_cases x Hx) as [[Ex ->]|(mx & ex & -> & Ex & Px & Hex & Hmx & Hnx)];
    destruct (ok_cases y Hy) as [[Ey ->]|(my & ey & -> & Ey & Py & Hey & Hmy & Hny)]; try rewrite Ex in Px; try rewrite Ey in Py; rewrite ?Ex, ?Ey; clear Ex Ey.
  - done.
  - cbn [SFcompare]. by rewrite (proj2 (Z.compare_lt_iff _ _)).
  - cbn [SFcompare]. by rewrite (proj2 (Z.compare_gt_iff _ _)).
  - cbn [SFcompare]. destruct (Z.compare_spec ex ey) as [->|Hlt|Hgt].
    + f_equal. change (Pos.compare_cont Eq mx my) with (Z.pos mx ?= Z.pos my).
      apply Zmult_compare_compat_r, Z.lt_gt, Z.pow_pos_nonneg; lia.
    + by rewrite (proj2 (Z.compare_lt_iff _ _)) by (apply canonical_lt; lia).
    + by rewrite (proj2 (Z.compare_gt_iff _ _)) by (apply canonical_lt; lia).
Qed.

Lemma f64_le_fz x y : ok x -> ok y -> f64_le x y = (fz x <=? fz y).
Proof.
  intros Hx Hy. pose proof (f64_partial_cmp_fz x y Hx Hy) as H. unfold f64_partial_cmp in H.
  unfold f64_le, SFleb. rewrite H. unfold Z.leb. by destruct (_ ?= _).
Qed.

Lemma f64_lt_fz x y : ok x -> ok y -> f64_lt x y = (fz x <? fz y).
Proof.
  intros Hx Hy. pose proof (f64_partial_cmp_fz x y Hx Hy) as H. unfold f64_partial_cmp in H.
  unfold f64_lt, SFltb. rewrite H. unfold Z.ltb. by destruct (_ ?= _).
Qed.

End F64Round.
