(* ===== verification/SentPacketTracker.v ===== *)
(** * Sent packets: retransmission, RTT estimation and stream ownership

    Models [src/crates/core/src/transport/sent_packet_tracker.rs].

    [Module SentPacketTracker] holds the struct as a record and one definition
    per method.  The clock ([time_source.now_nanos()], a [u64]) is an argument;
    [HashMap]s and [HashSet]s are [gmap]s and [gset]s; the encrypted payloads are
    byte lists; Rust's panics (an overflowing [Duration] operation in
    [update_rtt]) are the [None] of [option].  Logging is left out. *)

From S2P Require Import Prelude F64 F64Round.
From Stdlib Require Import SpecFloat.

Module SentPacketTracker.

Abbreviation PacketId := Z (only parsing).
Abbreviation StreamId := Z (only parsing).
Abbreviation Duration := Z (only parsing).
Abbreviation payload := (list Byte.byte) (only parsing).

(** ** Constants *)

Definition NETWORK_DELAY_ALLOWANCE : Duration := from_millis 500.
Definition MAX_CONFIRMATION_DELAY : Duration := from_millis 100.
Definition MESSAGE_CONFIRMATION_TIMEOUT : Duration :=
  MAX_CONFIRMATION_DELAY + NETWORK_DELAY_ALLOWANCE.
Definition MAX_RTO_BACKOFF : Z := 512.
Definition MAX_PACKET_RETRANSMITS : Z := 12.
Definition MIN_RTO : Duration := from_millis 500.
Definition MIN_TLP_TIMEOUT : Duration := from_millis 10.
Definition PACKET_LOSS_DECAY_FACTOR : f64 := f64_div f64_one (f64_of_Z 1000).

(** ** Data *)

Inductive PacketStream := Stream (id : StreamId) | Control.

#[export] Instance PacketStream_eq_dec : EqDecision PacketStream.
Proof. solve_decision. Defined.

(** [bbr::DeliveryRateToken], carried by the tracker without being inspected. *)
Record DeliveryRateToken := {
  delivered : Z;
  token_sent_time_nanos : Z;
  token_sent : Z;
  is_app_limited : bool;
  first_sent_delivered : Z;
  first_sent_time_nanos : Z;
}.

(** [PendingReceiptEntry]: encrypted payload, send time, delivery token,
    plaintext size. *)
Record PendingReceiptEntry := Entry {
  pr_payload : payload;
  pr_sent_time_nanos : Z;
  pr_token : option DeliveryRateToken;
  pr_packet_size : Z;
}.

Record SentPacketTracker := mkSent {
  pending_receipts : gmap PacketId PendingReceiptEntry;
  resend_queue : list PacketId;
  packet_loss_proportion : f64;
  srtt : option Duration;
  rttvar : Duration;
  min_rtt : Duration;
  rto : Duration;
  retransmitted_packets : gset PacketId;
  total_packets_sent : Z;
  rto_backoff : Z;
  tlp_sent_packets : gset PacketId;
  retransmit_counts : gmap PacketId Z;
  packet_streams : gmap PacketId PacketStream;
}.

Inductive ResendAction :=
  | WaitUntil (deadline_nanos : Z)
  | Resend (packet_id : PacketId) (packet : payload)
  | TlpProbe (packet_id : PacketId) (packet : payload)
  | Abandon (packet_id : PacketId) (payload_len : Z).

Definition new_with_time_source : SentPacketTracker := {|
  pending_receipts := ∅;
  resend_queue := [];
  packet_loss_proportion := f64_zero;
  srtt := None;
  rttvar := from_secs 0;
  min_rtt := from_millis 100;
  rto := from_secs 1;
  retransmitted_packets := ∅;
  total_packets_sent := 0;
  rto_backoff := 1;
  tlp_sent_packets := ∅;
  retransmit_counts := ∅;
  packet_streams := ∅;
|}.

(** ** Field updates *)

Definition set_pending (m : gmap PacketId PendingReceiptEntry) (t : SentPacketTracker) :=
  {| pending_receipts := m; resend_queue := resend_queue t;
     packet_loss_proportion := packet_loss_proportion t; srtt := srtt t; rttvar := rttvar t;
     min_rtt := min_rtt t; rto := rto t; retransmitted_packets := retransmitted_packets t;
     total_packets_sent := total_packets_sent t; rto_backoff := rto_backoff t;
     tlp_sent_packets := tlp_sent_packets t; retransmit_counts := retransmit_counts t;
     packet_streams := packet_streams t |}.

Definition set_queue (q : list PacketId) (t : SentPacketTracker) :=
  {| pending_receipts := pending_receipts t; resend_queue := q;
     packet_loss_proportion := packet_loss_proportion t; srtt := srtt t; rttvar := rttvar t;
     min_rtt := min_rtt t; rto := rto t; retransmitted_packets := retransmitted_packets t;
     total_packets_sent := total_packets_sent t; rto_backoff := rto_backoff t;
     tlp_sent_packets := tlp_sent_packets t; retransmit_counts := retransmit_counts t;
     packet_streams := packet_streams t |}.

Definition set_loss (p : f64) (t : SentPacketTracker) :=
  {| pending_receipts := pending_receipts t; resend_queue := resend_queue t;
     packet_loss_proportion := p; srtt := srtt t; rttvar := rttvar t;
     min_rtt := min_rtt t; rto := rto t; retransmitted_packets := retransmitted_packets t;
     total_packets_sent := total_packets_sent t; rto_backoff := rto_backoff t;
     tlp_sent_packets := tlp_sent_packets t; retransmit_counts := retransmit_counts t;
     packet_streams := packet_streams t |}.

Definition set_rtt (s : option Duration) (v m r : Duration) (t : SentPacketTracker) :=
  {| pending_receipts := pending_receipts t; resend_queue := resend_queue t;
     packet_loss_proportion := packet_loss_proportion t; srtt := s; rttvar := v;
     min_rtt := m; rto := r; retransmitted_packets := retransmitted_packets t;
     total_packets_sent := total_packets_sent t; rto_backoff := rto_backoff t;
     tlp_sent_packets := tlp_sent_packets t; retransmit_counts := retransmit_counts t;
     packet_streams := packet_streams t |}.

Definition set_retransmitted (s : gset PacketId) (t : SentPacketTracker) :=
  {| pending_receipts := pending_receipts t; resend_queue := resend_queue t;
     packet_loss_proportion := packet_loss_proportion t; srtt := srtt t; rttvar := rttvar t;
     min_rtt := min_rtt t; rto := rto t; retransmitted_packets := s;
     total_packets_sent := total_packets_sent t; rto_backoff := rto_backoff t;
     tlp_sent_packets := tlp_sent_packets t; retransmit_counts := retransmit_counts t;
     packet_streams := packet_streams t |}.

Definition set_total (n : Z) (t : SentPacketTracker) :=
  {| pending_receipts := pending_receipts t; resend_queue := resend_queue t;
     packet_loss_proportion := packet_loss_proportion t; srtt := srtt t; rttvar := rttvar t;
     min_rtt := min_rtt t; rto := rto t; retransmitted_packets := retransmitted_packets t;
     total_packets_sent := n; rto_backoff := rto_backoff t;
     tlp_sent_packets := tlp_sent_packets t; retransmit_counts := retransmit_counts t;
     packet_streams := packet_streams t |}.

Definition set_backoff (b : Z) (t : SentPacketTracker) :=
  {| pending_receipts := pending_receipts t; resend_queue := resend_queue t;
     packet_loss_proportion := packet_loss_proportion t; srtt := srtt t; rttvar := rttvar t;
     min_rtt := min_rtt t; rto := rto t; retransmitted_packets := retransmitted_packets t;
     total_packets_sent := total_packets_sent t; rto_backoff := b;
     tlp_sent_packets := tlp_sent_packets t; retransmit_counts := retransmit_counts t;
     packet_streams := packet_streams t |}.

Definition set_tlp (s : gset PacketId) (t : SentPacketTracker) :=
  {| pending_receipts := pending_receipts t; resend_queue := resend_queue t;
     packet_loss_proportion := packet_loss_proportion t; srtt := srtt t; rttvar := rttvar t;
     min_rtt := min_rtt t; rto := rto t; retransmitted_packets := retransmitted_packets t;
     total_packets_sent := total_packets_sent t; rto_backoff := rto_backoff t;
     tlp_sent_packets := s; retransmit_counts := retransmit_counts t;
     packet_streams := packet_streams t |}.

Definition set_counts (m : gmap PacketId Z) (t : SentPacketTracker) :=
  {| pending_receipts := pending_receipts t; resend_queue := resend_queue t;
     packet_loss_proportion := packet_loss_proportion t; srtt := srtt t; rttvar := rttvar t;
     min_rtt := min_rtt t; rto := rto t; retransmitted_packets := retransmitted_packets t;
     total_packets_sent := total_packets_sent t; rto_backoff := rto_backoff t;
     tlp_sent_packets := tlp_sent_packets t; retransmit_counts := m;
     packet_streams := packet_streams t |}.

Definition set_streams (m : gmap PacketId PacketStream) (t : SentPacketTracker) :=
  {| pending_receipts := pending_receipts t; resend_queue := resend_queue t;
     packet_loss_proportion := packet_loss_proportion t; srtt := srtt t; rttvar := rttvar t;
     min_rtt := min_rtt t; rto := rto t; retransmitted_packets := retransmitted_packets t;
     total_packets_sent := total_packets_sent t; rto_backoff := rto_backoff t;
     tlp_sent_packets := tlp_sent_packets t; retransmit_counts := retransmit_counts t;
     packet_streams := m |}.

(** ** Timers *)

Definition probe_timeout (t : SentPacketTracker) : option Duration :=
  (fun s => Z.max (dur_saturating_mul s 2) MIN_TLP_TIMEOUT) <$> srtt t.

Definition effective_rto (t : SentPacketTracker) : Duration :=
  Z.min (dur_saturating_mul (rto t) (rto_backoff t)) (from_secs 60).

Definition on_timeout (t : SentPacketTracker) : SentPacketTracker :=
  set_backoff (Z.min (sat_mul32 (rto_backoff t) 2) MAX_RTO_BACKOFF) t.

Definition mark_retransmitted (packet_id : PacketId) (t : SentPacketTracker) : SentPacketTracker :=
  set_retransmitted ({[packet_id]} ∪ retransmitted_packets t) t.

(** ** RTT estimation (RFC 6298) *)

Definition ALPHA : f64 := f64_div f64_one (f64_of_Z 8).
Definition BETA : f64 := f64_div f64_one (f64_of_Z 4).
Definition K : Z := 4.
Definition G : Duration := from_millis 10.

(** [None]: one of the [Duration] operations overflowed and panicked. *)
Definition update_rtt (sample : Duration) (t : SentPacketTracker) : option SentPacketTracker :=
  '(srtt', rttvar', min_rtt') ←
    match srtt t with
    | None => Some (sample, dur_div sample 2, sample)
    | Some s =>
        let abs_diff := dur_abs_diff sample s in
        v1 ← dur_mul_f64 (rttvar t) (f64_sub f64_one BETA);
        v2 ← dur_mul_f64 abs_diff BETA;
        v ← dur_add v1 v2;
        s1 ← dur_mul_f64 s (f64_sub f64_one ALPHA);
        s2 ← dur_mul_f64 sample ALPHA;
        s' ← dur_add s1 s2;
        Some (s', v, Z.min (min_rtt t) sample)
    end;
  rto_variance ← dur_mul rttvar' K;
  let max_variance := if G <? rto_variance then rto_variance else G in
  rto0 ← dur_add srtt' max_variance;
  let rto' := if rto0 <? MIN_RTO then MIN_RTO
              else if from_secs 60 <? rto0 then from_secs 60 else rto0 in
  Some (set_rtt (Some srtt') rttvar' min_rtt' rto' t).

(** ** Reporting sent packets *)

Definition report_sent_packet_inner (now : Z) (packet_id : PacketId) (p : payload)
    (token : option DeliveryRateToken) (stream : PacketStream) (packet_size : Z)
    (t : SentPacketTracker) : SentPacketTracker :=
  match pending_receipts t !! packet_id with
  | Some slot =>
      set_pending (<[packet_id := Entry p now token (pr_packet_size slot)]> (pending_receipts t)) t
  | None =>
      let t := set_pending (<[packet_id := Entry p now token packet_size]> (pending_receipts t)) t in
      let t := set_streams (<[packet_id := stream]> (packet_streams t)) t in
      let t := set_queue (resend_queue t ++ [packet_id]) t in
      set_total (total_packets_sent t +w64 1) t
  end.

Definition report_sent_packet_with_token_and_size (now : Z) (packet_id : PacketId) (p : payload)
    (token : option DeliveryRateToken) (packet_size : Z) (t : SentPacketTracker)
    : SentPacketTracker :=
  let stream := default Control (packet_streams t !! packet_id) in
  report_sent_packet_inner now packet_id p token stream packet_size t.

Definition report_sent_packet (now : Z) (packet_id : PacketId) (p : payload)
    (t : SentPacketTracker) : SentPacketTracker :=
  report_sent_packet_with_token_and_size now packet_id p None (Z.of_nat (length p)) t.

Definition report_sent_stream_packet_with_size (now : Z) (packet_id : PacketId) (p : payload)
    (token : option DeliveryRateToken) (stream_id : StreamId) (packet_size : Z)
    (t : SentPacketTracker) : SentPacketTracker :=
  report_sent_packet_inner now packet_id p token (Stream stream_id) packet_size t.

Definition refresh_sent_packet (now : Z) (packet_id : PacketId) (p : payload)
    (token : option DeliveryRateToken) (t : SentPacketTracker) : SentPacketTracker * bool :=
  match pending_receipts t !! packet_id with
  | Some slot =>
      (set_pending (<[packet_id := Entry p now token (pr_packet_size slot)]> (pending_receipts t)) t,
       true)
  | None => (t, false)
  end.

Definition contains_packet (packet_id : PacketId) (t : SentPacketTracker) : bool :=
  bool_decide (is_Some (pending_receipts t !! packet_id)).

(** ** Dropping a stream *)

(** The packets tagged with [stream_id].  A [HashMap] is iterated in an
    unspecified order; nothing [drop_stream] computes depends on it. *)
Definition owned_packets (stream_id : StreamId) (t : SentPacketTracker) : list PacketId :=
  (filter (fun e => e.2 = Stream stream_id) (map_to_list (packet_streams t))).*1.

(** One iteration of the removal loop. *)
Definition drop_packet (pid : PacketId) (st : SentPacketTracker * Z) : SentPacketTracker * Z :=
  let '(t, released) := st in
  let released := match pending_receipts t !! pid with
    | Some e => sat_add64 released (pr_packet_size e)
    | None => released end in
  let t := set_pending (delete pid (pending_receipts t)) t in
  let t := set_streams (delete pid (packet_streams t)) t in
  let t := set_counts (delete pid (retransmit_counts t)) t in
  let t := set_retransmitted (retransmitted_packets t ∖ {[pid]}) t in
  (set_tlp (tlp_sent_packets t ∖ {[pid]}) t, released).

Definition drop_stream (stream_id : StreamId) (t : SentPacketTracker) : SentPacketTracker * Z :=
  let owned := owned_packets stream_id t in
  match owned with
  | [] => (t, 0)
  | _ =>
      let '(t, released) := foldl (fun st pid => drop_packet pid st) (t, 0) owned in
      (set_queue (filter (fun id => id ∉ owned) (resend_queue t)) t, released)
  end.

(** ** Processing receipts *)

Definition ack_info_item : Type := option Duration * Z * option DeliveryRateToken.

(** [self.packet_loss_proportion * (1.0 - F) + x] *)
Definition decay_loss (x : f64) (t : SentPacketTracker) : SentPacketTracker :=
  set_loss (f64_add (f64_mul (packet_loss_proportion t) (f64_sub f64_one PACKET_LOSS_DECAY_FACTOR)) x) t.

(** Remove a packet from every structure but the resend queue. *)
Definition forget (packet_id : PacketId) (t : SentPacketTracker) : SentPacketTracker :=
  let t := set_pending (delete packet_id (pending_receipts t)) t in
  let t := set_retransmitted (retransmitted_packets t ∖ {[packet_id]}) t in
  let t := set_tlp (tlp_sent_packets t ∖ {[packet_id]}) t in
  let t := set_counts (delete packet_id (retransmit_counts t)) t in
  set_streams (delete packet_id (packet_streams t)) t.

(** One iteration of the loop over the acknowledged ids. *)
Definition ack_packet (now : Z) (packet_id : PacketId)
    (st : SentPacketTracker * list ack_info_item)
    : option (SentPacketTracker * list ack_info_item) :=
  let '(t, ack_info) := st in
  let t := decay_loss (f64_mul PACKET_LOSS_DECAY_FACTOR f64_zero) t in
  let is_retransmitted := bool_decide (packet_id ∈ retransmitted_packets t) in
  '(t, ack_info) ←
    match pending_receipts t !! packet_id with
    | Some e =>
        if is_retransmitted then
          Some (set_backoff 1 t, ack_info ++ [(None, pr_packet_size e, pr_token e)])
        else
          let rtt_sample := from_nanos (sat_sub now (pr_sent_time_nanos e)) in
          t' ← update_rtt rtt_sample t;
          Some (set_backoff 1 t', ack_info ++ [(Some rtt_sample, pr_packet_size e, pr_token e)])
    | None => Some (t, ack_info)
    end;
  Some (forget packet_id t, ack_info).

Fixpoint ack_packets (now : Z) (packet_ids : list PacketId)
    (st : SentPacketTracker * list ack_info_item)
    : option (SentPacketTracker * list ack_info_item) :=
  match packet_ids with
  | [] => Some st
  | packet_id :: rest => st' ← ack_packet now packet_id st; ack_packets now rest st'
  end.

Definition report_received_receipts (now : Z) (packet_ids : list PacketId) (t : SentPacketTracker)
    : option (SentPacketTracker * (list ack_info_item * option f64)) :=
  '(t, ack_info) ← ack_packets now packet_ids (t, []);
  let loss_rate := if 0 <? total_packets_sent t then Some (packet_loss_proportion t) else None in
  Some (t, (ack_info, loss_rate)).

(** ** Retransmission *)

(** The timer of one queue entry: which deadline has passed, if any. *)
Inductive timer := TlpFires | RtoFires | NotYet (deadline_nanos : Z).

Definition check_timers (now : Z) (pto : option Duration) (effective_rto_nanos : Z)
    (packet_id : PacketId) (sent_time_nanos : Z) (t : SentPacketTracker) : timer :=
  let rto_deadline := sent_time_nanos +w64 effective_rto_nanos in
  let tlp_deadline :=
    match pto with
    | Some pto =>
        if bool_decide (packet_id ∈ tlp_sent_packets t) then None
        else Some (sent_time_nanos +w64 as_nanos_u64 pto)
    | None => None
    end in
  if match tlp_deadline with
     | Some tlp_at => (tlp_at <=? now) && (now <? rto_deadline)
     | None => false
     end
  then TlpFires
  else if rto_deadline <=? now then RtoFires
  else NotYet match tlp_deadline with
              | Some tlp_at => Z.min tlp_at rto_deadline
              | None => rto_deadline
              end.

(** The body of the RTO branch for a tracked packet [e] at the head of the queue
    (already popped: [t]'s queue is the rest). *)
Definition fire_rto (now : Z) (packet_id : PacketId) (e : PendingReceiptEntry)
    (t : SentPacketTracker) : SentPacketTracker * ResendAction :=
  let t := decay_loss PACKET_LOSS_DECAY_FACTOR t in
  let count := default 0 (retransmit_counts t !! packet_id) +w32 1 in
  let t := set_counts (<[packet_id := count]> (retransmit_counts t)) t in
  if MAX_PACKET_RETRANSMITS <? count then
    (forget packet_id t, Abandon packet_id (pr_packet_size e))
  else
    let t := set_pending (<[packet_id := Entry (pr_payload e) now (pr_token e) (pr_packet_size e)]>
                            (pending_receipts t)) t in
    let t := set_queue (resend_queue t ++ [packet_id]) t in
    let t := mark_retransmitted packet_id t in
    let t := on_timeout t in
    let t := set_tlp (tlp_sent_packets t ∖ {[packet_id]}) t in
    (t, Resend packet_id (pr_payload e)).

Fixpoint get_resend_loop (now now_end : Z) (pto : option Duration) (effective_rto_nanos : Z)
    (queue : list PacketId) (t : SentPacketTracker) : SentPacketTracker * ResendAction :=
  match queue with
  | packet_id :: rest =>
      match pending_receipts t !! packet_id with
      | None => get_resend_loop now now_end pto effective_rto_nanos rest t
      | Some e =>
          match check_timers now pto effective_rto_nanos packet_id (pr_sent_time_nanos e) t with
          | TlpFires =>
              let t := set_tlp ({[packet_id]} ∪ tlp_sent_packets t) t in
              let t := set_queue (packet_id :: rest) t in
              (mark_retransmitted packet_id t, TlpProbe packet_id (pr_payload e))
          | RtoFires => fire_rto now packet_id e (set_queue rest t)
          | NotYet next_deadline =>
              (set_queue (packet_id :: rest) t, WaitUntil next_deadline)
          end
      end
  | [] =>
      (set_queue [] t, WaitUntil (now_end +w64 as_nanos_u64 (effective_rto t)))
  end.

(** [now] and [now_end]: the clock readings at the start and, when no packet is
    queued, at the end of the call. *)
Definition get_resend (now now_end : Z) (t : SentPacketTracker) : SentPacketTracker * ResendAction :=
  let pto := probe_timeout t in
  let effective_rto_nanos := as_nanos_u64 (effective_rto t) in
  get_resend_loop now now_end pto effective_rto_nanos (resend_queue t) t.

#[local] Arguments update_rtt : simpl never.
#[local] Arguments ack_packet : simpl never.

(** ** Runs

    The calls the connection makes, in any order.  [panic] ends a run. *)

Inductive op :=
  | OSend (now : Z) (packet_id : PacketId) (p : payload) (token : option DeliveryRateToken)
      (stream : PacketStream) (packet_size : Z)
  | ORefresh (now : Z) (packet_id : PacketId) (p : payload) (token : option DeliveryRateToken)
  | OAck (now : Z) (packet_ids : list PacketId)
  | ODrop (stream_id : StreamId)
  | OResend (now now_end : Z).

Inductive outcome :=
  | RSent (added : Z)
  | RRefreshed (still_tracked : bool)
  | RAcked (info : list ack_info_item)
  | RDropped (released_bytes : Z)
  | RAction (a : ResendAction).

(** [report_sent_tagged] of [peer_connection.rs]: how a first send is registered. *)
Definition report_sent_tagged (now : Z) (packet_id : PacketId) (p : payload) (packet_size : Z)
    (token : option DeliveryRateToken) (stream : PacketStream) (t : SentPacketTracker)
    : SentPacketTracker :=
  match stream with
  | Stream stream_id =>
      report_sent_stream_packet_with_size now packet_id p token stream_id packet_size t
  | Control => report_sent_packet_with_token_and_size now packet_id p token packet_size t
  end.

(** [RSent] records the bytes the call put in flight: none when the packet was
    already tracked. *)
Definition step (t : SentPacketTracker) (o : op) : option (SentPacketTracker * outcome) :=
  match o with
  | OSend now id p token stream size =>
      Some (report_sent_tagged now id p size token stream t,
            RSent (if contains_packet id t then 0 else size))
  | ORefresh now id p token =>
      let '(t', b) := refresh_sent_packet now id p token t in Some (t', RRefreshed b)
  | OAck now ids =>
      '(t', (info, _)) ← report_received_receipts now ids t; Some (t', RAcked info)
  | ODrop id => let '(t', n) := drop_stream id t in Some (t', RDropped n)
  | OResend now now_end => let '(t', a) := get_resend now now_end t in Some (t', RAction a)
  end.

Fixpoint run (t : SentPacketTracker) (os : list op) : option (SentPacketTracker * list outcome) :=
  match os with
  | [] => Some (t, [])
  | o :: os' =>
      '(t1, r) ← step t o;
      '(t2, rs) ← run t1 os';
      Some (t2, r :: rs)
  end.

(** Plaintext bytes in flight according to the tracker, and the bytes an outcome
    adds to or releases from them. *)
Definition pending_bytes (t : SentPacketTracker) : Z := map_sum pr_packet_size (pending_receipts t).

Definition added_bytes (r : outcome) : Z := match r with RSent n => n | _ => 0 end.

Definition released_bytes (r : outcome) : Z :=
  match r with
  | RAcked info => sumZ (fun i => i.1.2) info
  | RDropped n => n
  | RAction (Abandon _ n) => n
  | _ => 0
  end.

(** ** Invariant *)

Record wf (t : SentPacketTracker) : Prop := {
  wf_streams : dom (packet_streams t) = dom (pending_receipts t);
  wf_queue : forall p, p ∈ dom (pending_receipts t) -> p ∈ resend_queue t;
  wf_retransmitted : retransmitted_packets t ⊆ dom (pending_receipts t);
  wf_tlp : tlp_sent_packets t ⊆ retransmitted_packets t;
  wf_counts_dom : dom (retransmit_counts t) ⊆ retransmitted_packets t;
  wf_counts : map_Forall (fun _ c => 1 <= c <= MAX_PACKET_RETRANSMITS) (retransmit_counts t);
  wf_sizes : map_Forall (fun _ e => 0 <= pr_packet_size e) (pending_receipts t);
  wf_backoff : 1 <= rto_backoff t <= MAX_RTO_BACKOFF;
  wf_rto : MIN_RTO <= rto t <= from_secs 60;
}.

(** A well-typed call: sizes and clock readings are unsigned 64-bit values. *)
Definition op_ok (o : op) : Prop :=
  match o with
  | OSend now _ _ _ _ size => is_u64 now /\ is_u64 size
  | ORefresh now _ _ _ => is_u64 now
  | OAck now _ => is_u64 now
  | ODrop _ => True
  | OResend now now_end => is_u64 now /\ is_u64 now_end
  end.

Ltac wf_split H := destruct H; constructor; simpl in *.

Lemma sent_wf_new : wf new_with_time_source.
Proof.
  constructor; simpl; done.
Qed.

Lemma wf_update_entry t id e e' :
  wf t -> pending_receipts t !! id = Some e -> pr_packet_size e' = pr_packet_size e ->
  wf (set_pending (<[id := e']> (pending_receipts t)) t).
Proof.
  intros H Hid He. assert (Hd : dom (<[id:=e']> (pending_receipts t)) = dom (pending_receipts t))
    by (apply dom_insert_lookup_L; eauto).
  wf_split H; rewrite ?Hd; auto.
  apply map_Forall_insert_2; [|done]. rewrite He. by apply (wf_sizes0 id).
Qed.

Lemma report_sent_packet_inner_wf now id p token stream size t :
  wf t -> is_u64 size -> wf (report_sent_packet_inner now id p token stream size t).
Proof.
  intros H Hs. unfold report_sent_packet_inner.
  destruct (pending_receipts t !! id) as [e|] eqn:E; [by eapply wf_update_entry|].
  destruct H as [Hst Hq Hre Htl Hcd Hco Hsz Hbo Hrto].
  constructor; simpl; rewrite ?dom_insert_L; auto.
  - by rewrite Hst.
  - clear -Hq. set_solver.
  - clear -Hre. set_solver.
  - apply map_Forall_insert_2; [|done]. simpl. int_lia.
Qed.

Lemma report_sent_tagged_eq now id p size token stream t :
  exists stream', report_sent_tagged now id p size token stream t
    = report_sent_packet_inner now id p token stream' size t.
Proof.
  destruct stream; simpl; eexists; reflexivity.
Qed.

Lemma refresh_wf now id p token t : wf t -> wf (refresh_sent_packet now id p token t).1.
Proof.
  intros H. unfold refresh_sent_packet.
  destruct (pending_receipts t !! id) as [e|] eqn:E; [|done]. by eapply wf_update_entry.
Qed.

Lemma forget_wf id t : wf t -> wf (forget id t).
Proof.
  intros [Hst Hq Hre Htl Hcd Hco Hsz Hbo Hrto]. constructor; simpl; rewrite ?dom_delete_L; auto.
  - by rewrite Hst.
  - clear -Hq. set_solver.
  - clear -Hre. set_solver.
  - clear -Htl. set_solver.
  - clear -Hcd. set_solver.
  - by apply map_Forall_delete.
  - by apply map_Forall_delete.
Qed.

(** *** Dropping a stream *)

Lemma drop_packet_forget id t r :
  drop_packet id (t, r) = (forget id t,
    match pending_receipts t !! id with
    | Some e => sat_add64 r (pr_packet_size e) | None => r end).
Proof. done. Qed.

Definition forget_all (ids : list PacketId) (t : SentPacketTracker) : SentPacketTracker :=
  foldl (fun t id => forget id t) t ids.

Lemma drop_packets_forget ids t r :
  (foldl (fun st pid => drop_packet pid st) (t, r) ids).1 = forget_all ids t.
Proof.
  revert t r; induction ids as [|id ids IH]; intros t r; [done|].
  cbn [foldl forget_all]. rewrite drop_packet_forget. apply IH.
Qed.

Lemma forget_all_wf ids t : wf t -> wf (forget_all ids t).
Proof. revert t; induction ids as [|id ids IH]; intros t H; [done|]. by apply IH, forget_wf. Qed.

Lemma forget_all_lookup ids t id :
  pending_receipts (forget_all ids t) !! id
  = if bool_decide (id ∈ ids) then None else pending_receipts t !! id.
Proof.
  revert t; induction ids as [|x ids IH]; intros t; [done|].
  cbn [forget_all foldl]. unfold forget_all in IH. rewrite IH. simpl.
  rewrite lookup_delete. repeat case_bool_decide; repeat case_decide; set_solver.
Qed.

Lemma forget_all_queue ids t : resend_queue (forget_all ids t) = resend_queue t.
Proof. revert t; induction ids as [|x ids IH]; intros t; [done|]. apply (IH (forget x t)). Qed.

Lemma drop_stream_tracker id t :
  (drop_stream id t).1
  = match owned_packets id t with
    | [] => t
    | owned => set_queue (filter (fun x => x ∉ owned) (resend_queue t)) (forget_all owned t)
    end.
Proof.
  unfold drop_stream. destruct (owned_packets id t) as [|x owned]; [done|].
  rewrite <- (drop_packets_forget _ _ 0).
  destruct (foldl _ _ _) as [t' r] eqn:E. simpl. f_equal. f_equal.
  change t' with (t', r).1. rewrite <- E, drop_packets_forget. apply forget_all_queue.
Qed.

Lemma drop_stream_wf id t : wf t -> wf (drop_stream id t).1.
Proof.
  intros H. rewrite drop_stream_tracker. destruct (owned_packets id t) as [|x owned]; [done|].
  remember (x :: owned) as ids. clear Heqids x owned.
  pose proof (forget_all_wf ids t H) as H'. pose proof (forget_all_lookup ids t) as Hl.
  destruct H as [_ Hq _ _ _ _ _ _ _]. wf_split H'; auto.
  intros q Hp. apply list_elem_of_filter.
  apply elem_of_dom in Hp as [e He]. rewrite Hl in He. case_bool_decide; [done|].
  split; [done|]. apply Hq. apply elem_of_dom. eauto.
Qed.

(** *** Receipts *)

(** [update_rtt] touches only the estimator, and leaves an RTO within bounds. *)
Lemma update_rtt_frame sample t t' :
  update_rtt sample t = Some t' ->
  exists s v m r, t' = set_rtt (Some s) v m r t /\ MIN_RTO <= r <= from_secs 60.
Proof.
  unfold update_rtt. intros H.
  apply bind_Some in H as ([[s v] m] & _ & H). apply bind_Some in H as (var & _ & H).
  apply bind_Some in H as (r & _ & H). apply (inj Some) in H as <-.
  do 4 eexists. split; [reflexivity|].
  assert (MIN_RTO <= from_secs 60)
    by (unfold MIN_RTO, from_millis, from_secs, nanos_per_sec; lia).
  repeat case_bool; to_props; lia.
Qed.

Lemma set_rtt_wf s v m r t : wf t -> MIN_RTO <= r <= from_secs 60 -> wf (set_rtt s v m r t).
Proof. intros H Hr. by wf_split H. Qed.

Lemma set_backoff_wf b t : wf t -> 1 <= b <= MAX_RTO_BACKOFF -> wf (set_backoff b t).
Proof. intros H Hr. by wf_split H. Qed.

Lemma decay_loss_wf x t : wf t -> wf (decay_loss x t).
Proof. intros H. by wf_split H. Qed.

(** [t1] tracks the same packets as [t]; only the estimators may differ. *)
Definition same_tracking (t1 t : SentPacketTracker) : Prop :=
  pending_receipts t1 = pending_receipts t /\ resend_queue t1 = resend_queue t
  /\ retransmitted_packets t1 = retransmitted_packets t
  /\ tlp_sent_packets t1 = tlp_sent_packets t
  /\ retransmit_counts t1 = retransmit_counts t /\ packet_streams t1 = packet_streams t.

(** What one acknowledgement does: the estimator and the backoff aside, it only
    removes the packet, and reports its size if it was pending. *)
Lemma ack_packet_spec now id t info t' info' :
  ack_packet now id (t, info) = Some (t', info') ->
  exists t1, t' = forget id t1
    /\ (wf t -> wf t1)
    /\ same_tracking t1 t
    /\ match pending_receipts t !! id with
       | None => info' = info
       | Some e => exists rtt, info' = info ++ [(rtt, pr_packet_size e, pr_token e)]
           /\ (rtt = None <-> id ∈ retransmitted_packets t)
           /\ (rtt = None -> srtt t1 = srtt t /\ rttvar t1 = rttvar t
                 /\ min_rtt t1 = min_rtt t /\ rto t1 = rto t)
           /\ rto_backoff t1 = 1
       end.
Proof.
  unfold ack_packet. intros H. apply bind_Some in H as ([t1 info1] & H & [= <- <-]).
  exists t1. split; [done|]. assert (1 <= 1 <= MAX_RTO_BACKOFF) by (unfold MAX_RTO_BACKOFF; lia).
  change (pending_receipts (decay_loss _ t)) with (pending_receipts t) in H.
  change (retransmitted_packets (decay_loss _ t)) with (retransmitted_packets t) in H.
  destruct (pending_receipts t !! id) as [e|] eqn:E.
  - case_bool_decide.
    + simplify_eq. split_and!; try done.
      { intros Hw. apply set_backoff_wf; [by apply decay_loss_wf|done]. }
      by exists None.
    + apply bind_Some in H as (t2 & Hu & [= <- <-]).
      apply update_rtt_frame in Hu as (s & v & m & r & -> & Hr). split_and!; try done.
      { intros Hw. apply set_backoff_wf; [|done]. by apply set_rtt_wf; [apply decay_loss_wf|]. }
      by eexists (Some _).
  - simplify_eq. split_and!; try done. intros Hw. by apply decay_loss_wf.
Qed.

Lemma ack_packets_wf now ids t info t' info' :
  ack_packets now ids (t, info) = Some (t', info') -> wf t -> wf t'.
Proof.
  revert t info; induction ids as [|id ids IH]; intros t info H Hw; simpl in H; [by simplify_eq|].
  apply bind_Some in H as ([t1 info1] & H1 & H).
  apply ack_packet_spec in H1 as (t2 & -> & Hw2 & _). eapply IH; [exact H|].
  apply forget_wf. auto.
Qed.

(** *** Retransmission *)

Lemma set_queue_id t q : set_queue q (set_queue (resend_queue t) t) = set_queue q t.
Proof. done. Qed.

Lemma fire_rto_wf now id e rest t :
  wf (set_queue (id :: rest) t) -> pending_receipts t !! id = Some e ->
  wf (fire_rto now id e (set_queue rest t)).1.
Proof.
  intros H He. unfold fire_rto.
  assert (Hin : id ∈ dom (pending_receipts t)) by (apply elem_of_dom; eauto).
  assert (Hc : 0 <= default 0 (retransmit_counts t !! id) <= MAX_PACKET_RETRANSMITS).
  { destruct (retransmit_counts t !! id) as [c|] eqn:Ec; simpl.
    - pose proof (wf_counts _ H id c Ec) as Hcc. simpl in Hcc. lia.
    - unfold MAX_PACKET_RETRANSMITS. lia. }
  assert (Hcount : default 0 (retransmit_counts t !! id) +w32 1
                   = default 0 (retransmit_counts t !! id) + 1).
  { apply wrap32_id. unfold MAX_PACKET_RETRANSMITS in Hc. int_lia. }
  cbn [retransmit_counts decay_loss set_loss set_queue]. rewrite Hcount. clear Hcount.
  destruct H as [Hst Hq Hre Htl Hcd Hco Hsz Hbo Hrto]. simpl in *.
  destruct (MAX_PACKET_RETRANSMITS <? _) eqn:Hmax; to_props.
  - constructor; simpl; rewrite ?dom_delete_L, ?dom_insert_L.
    + by rewrite Hst.
    + clear -Hq. set_solver.
    + clear -Hre. set_solver.
    + clear -Htl. set_solver.
    + clear -Hcd. set_solver.
    + rewrite delete_insert_eq. by apply map_Forall_delete.
    + by apply map_Forall_delete.
    + done.
    + done.
  - assert (Hd : forall e', dom (<[id:=e']> (pending_receipts t)) = dom (pending_receipts t))
      by (intros e'; apply dom_insert_lookup_L; eauto).
    constructor; simpl; rewrite ?Hd, ?dom_insert_L.
    + done.
    + clear -Hq. set_solver.
    + clear -Hre Hin. set_solver.
    + clear -Htl. set_solver.
    + clear -Hcd. set_solver.
    + apply map_Forall_insert_2; [|done]. lia.
    + apply map_Forall_insert_2; [|done]. exact (Hsz id e He).
    + unfold MAX_RTO_BACKOFF in *. int_lia.
    + done.
Qed.

Lemma get_resend_loop_wf now now_end pto rtn queue t :
  wf (set_queue queue t) -> wf (get_resend_loop now now_end pto rtn queue t).1.
Proof.
  induction queue as [|id rest IH]; simpl; intros H; [done|].
  destruct (pending_receipts t !! id) as [e|] eqn:E.
  - destruct (check_timers _ _ _ _ _ _).
    + assert (Hin : id ∈ dom (pending_receipts t)) by (apply elem_of_dom; eauto).
      destruct H as [Hst Hq Hre Htl Hcd Hco Hsz Hbo Hrto]. constructor; simpl in *; auto.
      * clear -Hre Hin. set_solver.
      * clear -Htl. set_solver.
      * clear -Hcd. set_solver.
    + by apply fire_rto_wf.
    + done.
  - apply IH. apply not_elem_of_dom in E. wf_split H; auto. clear -wf_queue0 E. set_solver.
Qed.

Lemma set_queue_same t : set_queue (resend_queue t) t = t.
Proof. by destruct t. Qed.

Lemma get_resend_wf now now_end t : wf t -> wf (get_resend now now_end t).1.
Proof. intros H. apply get_resend_loop_wf. by rewrite set_queue_same. Qed.

Lemma sent_step_wf o t t' r : op_ok o -> step t o = Some (t', r) -> wf t -> wf t'.
Proof.
  intros Hok H Hw. destruct o as [now id p tk st size|now id p tk|now ids|sid|now now_end]; simpl in H.
  - simplify_eq. destruct (report_sent_tagged_eq now id p size tk st t) as [st' ->].
    apply report_sent_packet_inner_wf; [done|apply Hok].
  - pose proof (refresh_wf now id p tk t Hw). destruct (refresh_sent_packet now id p tk t).
    by simplify_eq.
  - apply bind_Some in H as ([t1 [info l]] & H & [= <- <-]).
    apply bind_Some in H as ([t2 info2] & H & [= <- <- <-]). by eapply ack_packets_wf.
  - pose proof (drop_stream_wf sid t Hw). destruct (drop_stream sid t). by simplify_eq.
  - pose proof (get_resend_wf now now_end t Hw). destruct (get_resend now now_end t). by simplify_eq.
Qed.

Lemma sent_run_wf os t t' rs : Forall op_ok os -> run t os = Some (t', rs) -> wf t -> wf t'.
Proof.
  revert t rs; induction os as [|o os IH]; intros t rs Hok H Hw; simpl in H; [by simplify_eq|].
  inversion_clear Hok as [|? ? Ho Hos]. apply bind_Some in H as ([t1 r] & H1 & H).
  apply bind_Some in H as ([t2 rs'] & H2 & [= <- <-]). eapply IH; [done|exact H2|].
  by eapply sent_step_wf.
Qed.

(** ** Flight-size accounting *)

Lemma sizes_nonneg t : wf t -> 0 <= pending_bytes t.
Proof. intros H. apply map_sum_nonneg. exact (wf_sizes t H). Qed.

Lemma forget_bytes id t :
  pending_bytes (forget id t) + match pending_receipts t !! id with
    | Some e => pr_packet_size e | None => 0 end = pending_bytes t.
Proof.
  unfold pending_bytes. simpl. destruct (pending_receipts t !! id) as [e|] eqn:E.
  - rewrite (map_sum_delete _ _ id e E). lia.
  - rewrite delete_id by done. lia.
Qed.

Lemma drop_packets_bytes ids t r :
  wf t -> 0 <= r -> pending_bytes t + r <= u64_max ->
  let '(t', r') := foldl (fun st pid => drop_packet pid st) (t, r) ids in
  pending_bytes t' + r' = pending_bytes t + r.
Proof.
  revert t r; induction ids as [|id ids IH]; intros t r Hw Hr Hmax; [done|].
  cbn [foldl]. rewrite drop_packet_forget. pose proof (forget_bytes id t) as Hf.
  pose proof (sizes_nonneg _ (forget_wf id t Hw)) as Hnn.
  destruct (pending_receipts t !! id) as [e|] eqn:E.
  - pose proof (wf_sizes t Hw id e E) as He. simpl in He.
    assert (Hsat : sat_add64 r (pr_packet_size e) = r + pr_packet_size e) by int_lia.
    rewrite Hsat. specialize (IH (forget id t) (r + pr_packet_size e)).
    destruct (foldl _ _ _). rewrite IH; [lia|by apply forget_wf|lia|lia].
  - specialize (IH (forget id t) r). destruct (foldl _ _ _).
    rewrite IH; [lia|by apply forget_wf|lia|lia].
Qed.

Lemma drop_stream_bytes id t :
  wf t -> pending_bytes t <= u64_max ->
  pending_bytes (drop_stream id t).1 + (drop_stream id t).2 = pending_bytes t.
Proof.
  intros Hw Hmax. unfold drop_stream. destruct (owned_packets id t) as [|x owned]; [simpl; lia|].
  pose proof (drop_packets_bytes (x :: owned) t 0 Hw ltac:(lia) ltac:(lia)) as H.
  destruct (foldl _ _ _) as [t' r]. simpl in *.
  change (pending_bytes (set_queue _ t')) with (pending_bytes t'). lia.
Qed.

Lemma ack_packets_bytes now ids t info t' info' :
  ack_packets now ids (t, info) = Some (t', info') ->
  pending_bytes t' + sumZ (fun i => i.1.2) info' = pending_bytes t + sumZ (fun i => i.1.2) info.
Proof.
  revert t info; induction ids as [|id ids IH]; intros t info H; simpl in H; [by simplify_eq|].
  apply bind_Some in H as ([t1 info1] & H1 & H). rewrite (IH _ _ H). clear IH H.
  apply ack_packet_spec in H1 as (t2 & -> & _ & (Hp & _) & Hi).
  pose proof (forget_bytes id t2) as Hf. rewrite Hp in Hf.
  assert (Hb : pending_bytes t2 = pending_bytes t) by (unfold pending_bytes; by rewrite Hp).
  destruct (pending_receipts t !! id) as [e|].
  - destruct Hi as (rtt & -> & _). rewrite sumZ_app. simpl. lia.
  - subst. lia.
Qed.

Lemma get_resend_loop_bytes now now_end pto rtn queue t :
  let '(t', a) := get_resend_loop now now_end pto rtn queue t in
  pending_bytes t' + released_bytes (RAction a) = pending_bytes t.
Proof.
  induction queue as [|id rest IH]; simpl; [unfold pending_bytes; simpl; lia|].
  destruct (pending_receipts t !! id) as [e|] eqn:E; [|done].
  destruct (check_timers _ _ _ _ _ _); [unfold pending_bytes; simpl; lia| |unfold pending_bytes; simpl; lia].
  unfold fire_rto. destruct (_ <? _).
  - pose proof (forget_bytes id t) as Hf. rewrite E in Hf.
    unfold pending_bytes in *. simpl in *. lia.
  - unfold pending_bytes. simpl. rewrite (map_sum_update _ _ id e) by done. lia.
Qed.

Lemma step_bytes o t t' r :
  op_ok o -> wf t -> pending_bytes t <= u64_max -> step t o = Some (t', r) ->
  pending_bytes t' + released_bytes r = pending_bytes t + added_bytes r.
Proof.
  intros Hok Hw Hmax H. destruct o as [now id p tk st size|now id p tk|now ids|sid|now now_end]; simpl in H.
  - simplify_eq. destruct (report_sent_tagged_eq now id p size tk st t) as [st' ->].
    unfold report_sent_packet_inner, contains_packet, pending_bytes.
    destruct (pending_receipts t !! id) as [e|] eqn:E; simpl.
    + rewrite (map_sum_update _ _ id e) by done. lia.
    + rewrite map_sum_insert by done. simpl. lia.
  - unfold refresh_sent_packet, pending_bytes in *.
    destruct (pending_receipts t !! id) as [e|] eqn:E; simplify_eq; simpl; [|lia].
    rewrite (map_sum_update _ _ id e) by done. lia.
  - apply bind_Some in H as ([t1 [info l]] & H & [= <- <-]).
    apply bind_Some in H as ([t2 info2] & H & [= <- <- <-]).
    apply ack_packets_bytes in H. simpl in *. lia.
  - pose proof (drop_stream_bytes sid t Hw Hmax) as Hd.
    destruct (drop_stream sid t). simplify_eq. simpl in *. lia.
  - pose proof (get_resend_loop_bytes now now_end (probe_timeout t) (as_nanos_u64 (effective_rto t))
      (resend_queue t) t) as Hd. unfold get_resend in H.
    destruct (get_resend_loop _ _ _ _ _ _). simplify_eq. simpl in *. lia.
Qed.

Lemma ack_packets_info_nonneg now ids t info t' info' :
  ack_packets now ids (t, info) = Some (t', info') -> wf t ->
  Forall (fun i => 0 <= i.1.2) info -> Forall (fun i => 0 <= i.1.2) info'.
Proof.
  revert t info; induction ids as [|id ids IH]; intros t info H Hw Hi; simpl in H; [by simplify_eq|].
  apply bind_Some in H as ([t1 info1] & H1 & H).
  apply ack_packet_spec in H1 as (t2 & -> & Hw2 & (Hp & _) & Hinfo).
  eapply IH; [exact H|by apply forget_wf, Hw2|].
  destruct (pending_receipts t !! id) as [e|] eqn:E; [|by subst].
  destruct Hinfo as (rtt & -> & _). apply Forall_app. split; [done|].
  repeat constructor. exact (wf_sizes t Hw id e E).
Qed.

Lemma drop_packets_released_nonneg ids t r :
  wf t -> 0 <= r -> 0 <= (foldl (fun st pid => drop_packet pid st) (t, r) ids).2.
Proof.
  revert t r; induction ids as [|id ids IH]; intros t r Hw Hr; [done|].
  cbn [foldl]. rewrite drop_packet_forget. apply IH; [by apply forget_wf|].
  destruct (pending_receipts t !! id) as [e|] eqn:E; [|done].
  pose proof (wf_sizes t Hw id e E) as He. simpl in He. int_lia.
Qed.

Lemma get_resend_loop_released_nonneg now now_end pto rtn queue t :
  wf t -> 0 <= released_bytes (RAction (get_resend_loop now now_end pto rtn queue t).2).
Proof.
  intros Hw. induction queue as [|id rest IH]; simpl; [done|].
  destruct (pending_receipts t !! id) as [e|] eqn:E; [|done].
  destruct (check_timers _ _ _ _ _ _); [done| |done].
  unfold fire_rto. destruct (_ <? _); [|done]. exact (wf_sizes t Hw id e E).
Qed.

Lemma released_nonneg o t t' r : wf t -> step t o = Some (t', r) -> 0 <= released_bytes r.
Proof.
  intros Hw H. destruct o; simpl in H.
  - by simplify_eq.
  - destruct (refresh_sent_packet _ _ _ _ _). by simplify_eq.
  - apply bind_Some in H as ([t1 [info l]] & H & [= <- <-]).
    apply bind_Some in H as ([t2 info2] & H & [= <- <- <-]).
    apply sumZ_nonneg. apply Forall_forall.
    by eapply ack_packets_info_nonneg; [exact H|done|constructor].
  - unfold drop_stream in H. destruct (owned_packets stream_id t) as [|x owned]; [by simplify_eq|].
    pose proof (drop_packets_released_nonneg (x :: owned) t 0 Hw ltac:(lia)) as Hd.
    destruct (foldl _ _ _). by simplify_eq.
  - unfold get_resend in H.
    pose proof (get_resend_loop_released_nonneg now now_end (probe_timeout t)
      (as_nanos_u64 (effective_rto t)) (resend_queue t) t Hw) as Hd.
    destruct (get_resend_loop _ _ _ _ _ _). by simplify_eq.
Qed.

Lemma added_nonneg o t t' r : op_ok o -> step t o = Some (t', r) -> 0 <= added_bytes r.
Proof.
  intros Hok H. destruct o; simpl in H.
  - simplify_eq. simpl. destruct (contains_packet packet_id t); destruct Hok; int_lia.
  - destruct (refresh_sent_packet _ _ _ _ _). by simplify_eq.
  - apply bind_Some in H as ([? [? ?]] & _ & [= <- <-]). done.
  - destruct (drop_stream _ _). by simplify_eq.
  - destruct (get_resend _ _ _). by simplify_eq.
Qed.

Lemma run_added_nonneg os t t' rs :
  Forall op_ok os -> run t os = Some (t', rs) -> 0 <= sumZ added_bytes rs.
Proof.
  revert t rs; induction os as [|o os IH]; intros t rs Hok H; simpl in H; [by simplify_eq|].
  inversion_clear Hok as [|? ? Ho Hos]. apply bind_Some in H as ([t1 r] & H1 & H).
  apply bind_Some in H as ([t2 rs'] & H2 & [= <- <-]). simpl.
  pose proof (IH _ _ Hos H2). pose proof (added_nonneg _ _ _ _ Ho H1). lia.
Qed.

Lemma run_bytes os t t' rs :
  Forall op_ok os -> run t os = Some (t', rs) -> wf t ->
  pending_bytes t + sumZ added_bytes rs <= u64_max ->
  pending_bytes t' + sumZ released_bytes rs = pending_bytes t + sumZ added_bytes rs.
Proof.
  revert t rs; induction os as [|o os IH]; intros t rs Hok H Hw Hmax; simpl in H; [by simplify_eq|].
  inversion_clear Hok as [|? ? Ho Hos]. apply bind_Some in H as ([t1 r] & H1 & H).
  apply bind_Some in H as ([t2 rs'] & H2 & [= <- <-]). simpl in *.
  pose proof (run_added_nonneg _ _ _ _ Hos H2). pose proof (added_nonneg _ _ _ _ Ho H1).
  pose proof (step_bytes _ _ _ _ Ho Hw ltac:(lia) H1) as Hs.
  pose proof (sent_step_wf _ _ _ _ Ho H1 Hw) as Hw1.
  pose proof (released_nonneg _ _ _ _ Hw H1).
  specialize (IH _ _ Hos H2 Hw1 ltac:(lia)). lia.
Qed.

(** ** Retransmission budget *)

Definition retransmit_count (id : PacketId) (t : SentPacketTracker) : Z :=
  default 0 (retransmit_counts t !! id).

(** How many times [id] may still be retransmitted. *)
Definition budget (id : PacketId) (t : SentPacketTracker) : Z :=
  if contains_packet id t then MAX_PACKET_RETRANSMITS - retransmit_count id t else 0.

Definition is_resend (id : PacketId) (r : outcome) : bool :=
  match r with RAction (Resend id' _) => bool_decide (id' = id) | _ => false end.

Definition resends (id : PacketId) (rs : list outcome) : Z :=
  sumZ (fun r => if is_resend id r then 1 else 0) rs.

Definition not_send (id : PacketId) (o : op) : Prop :=
  match o with OSend _ id' _ _ _ _ => id' <> id | _ => True end.

Lemma budget_nonneg id t : wf t -> 0 <= budget id t.
Proof.
  intros Hw. unfold budget, retransmit_count. destruct (contains_packet id t); [|done].
  destruct (retransmit_counts t !! id) as [c|] eqn:E; simpl.
  - pose proof (wf_counts t Hw id c E) as Hc. simpl in Hc. lia.
  - unfold MAX_PACKET_RETRANSMITS. lia.
Qed.

(** The budget depends only on whether [id] is tracked and on its count. *)
Lemma budget_ext id t t' :
  is_Some (pending_receipts t' !! id) <-> is_Some (pending_receipts t !! id) ->
  retransmit_counts t' !! id = retransmit_counts t !! id -> budget id t' = budget id t.
Proof.
  intros Hp Hc. unfold budget, retransmit_count, contains_packet. rewrite Hc.
  by rewrite (bool_decide_ext _ _ Hp).
Qed.

Lemma forget_budget id id' t : wf t -> budget id (forget id' t) <= budget id t.
Proof.
  intros Hw. destruct (decide (id' = id)) as [->|Hne].
  - assert (budget id (forget id t) = 0) as ->; [|by apply budget_nonneg].
    unfold budget, contains_packet. rewrite bool_decide_eq_false_2; [done|].
    simpl. rewrite lookup_delete_eq. by intros [? [=]].
  - apply Z.eq_le_incl, budget_ext; simpl; by rewrite lookup_delete_ne.
Qed.

Lemma forget_all_budget id ids t : wf t -> budget id (forget_all ids t) <= budget id t.
Proof.
  revert t; induction ids as [|x ids IH]; intros t Hw; [done|].
  pose proof (forget_budget id x t Hw). pose proof (IH (forget x t) (forget_wf x t Hw)).
  cbn [forget_all foldl] in *. unfold forget_all in *. lia.
Qed.

Lemma ack_packets_budget id now ids t info t' info' :
  ack_packets now ids (t, info) = Some (t', info') -> wf t -> budget id t' <= budget id t.
Proof.
  revert t info; induction ids as [|x ids IH]; intros t info H Hw; simpl in H; [by simplify_eq|].
  apply bind_Some in H as ([t1 info1] & H1 & H). pose proof (ack_packet_spec _ _ _ _ _ _ H1) as Hsp.
  destruct Hsp as (t2 & -> & Hw2 & (Hp & _ & _ & _ & Hc & _) & _). specialize (Hw2 Hw).
  pose proof (IH _ _ H (forget_wf x t2 Hw2)). pose proof (forget_budget id x t2 Hw2).
  assert (budget id t2 = budget id t); [|lia]. apply budget_ext; [by rewrite Hp|by rewrite Hc].
Qed.

Lemma fire_rto_budget id now x e rest t :
  wf (set_queue (x :: rest) t) -> pending_receipts t !! x = Some e ->
  let '(t', a) := fire_rto now x e (set_queue rest t) in
  budget id t' + (if is_resend id (RAction a) then 1 else 0) <= budget id t.
Proof.
  intros Hw He. assert (Hwt : 0 <= budget id t) by (exact (budget_nonneg id _ Hw)).
  assert (Hc : 0 <= retransmit_count x t <= MAX_PACKET_RETRANSMITS).
  { pose proof (budget_nonneg x _ Hw) as Hb. unfold budget in Hb.
    unfold retransmit_count. destruct (retransmit_counts t !! x) as [c|] eqn:Ec; simpl.
    - pose proof (wf_counts _ Hw x c Ec) as Hcc. simpl in Hcc. lia.
    - unfold MAX_PACKET_RETRANSMITS. lia. }
  unfold fire_rto. cbn [retransmit_counts decay_loss set_loss set_queue].
  fold (retransmit_count x t).
  assert (Hcount : retransmit_count x t +w32 1 = retransmit_count x t + 1).
  { apply wrap32_id. unfold MAX_PACKET_RETRANSMITS in Hc. int_lia. }
  rewrite Hcount. destruct (MAX_PACKET_RETRANSMITS <? _) eqn:Hmax; to_props; simpl.
  - destruct (decide (x = id)) as [->|Hne].
    + match goal with |- ?b + 0 <= _ => assert (b = 0) as ->; [|lia] end.
      unfold budget, contains_packet. rewrite bool_decide_eq_false_2; [done|].
      simpl. rewrite lookup_delete_eq. by intros [? [=]].
    + rewrite Z.add_0_r. apply Z.eq_le_incl, budget_ext; simpl; rewrite lookup_delete_ne by done;
        [done|]. by rewrite lookup_insert_ne.
  - case_bool_decide as Hx.
    + subst id. unfold budget, contains_packet. rewrite !bool_decide_eq_true_2; simpl.
      * unfold retransmit_count at 1. simpl. rewrite lookup_insert_eq. simpl. lia.
      * by rewrite He.
      * by rewrite lookup_insert_eq.
    + rewrite Z.add_0_r. apply Z.eq_le_incl, budget_ext; simpl; by rewrite lookup_insert_ne.
Qed.

Lemma get_resend_loop_budget id now now_end pto rtn queue t :
  wf (set_queue queue t) ->
  let '(t', a) := get_resend_loop now now_end pto rtn queue t in
  budget id t' + (if is_resend id (RAction a) then 1 else 0) <= budget id t.
Proof.
  induction queue as [|x rest IH]; simpl; intros Hw.
  { rewrite (budget_ext id t) by done. lia. }
  destruct (pending_receipts t !! x) as [e|] eqn:E.
  - destruct (check_timers _ _ _ _ _ _); [|by apply fire_rto_budget|];
      rewrite (budget_ext id t) by done; simpl; lia.
  - apply IH. apply not_elem_of_dom in E. wf_split Hw; auto. clear -wf_queue0 E. set_solver.
Qed.

Lemma step_budget id o t t' r :
  wf t -> not_send id o -> step t o = Some (t', r) ->
  budget id t' + (if is_resend id r then 1 else 0) <= budget id t.
Proof.
  intros Hw Hn H. destruct o as [now x p tk st size|now x p tk|now ids|sid|now now_end]; simpl in H, Hn.
  - simplify_eq. destruct (report_sent_tagged_eq now x p size tk st t) as [st' ->]. simpl.
    rewrite Z.add_0_r. apply Z.eq_le_incl. unfold report_sent_packet_inner.
    destruct (pending_receipts t !! x) as [e|]; apply budget_ext; simpl; try done;
      by rewrite lookup_insert_ne.
  - unfold refresh_sent_packet in H. destruct (pending_receipts t !! x) as [e|] eqn:E; simplify_eq; simpl.
    + rewrite Z.add_0_r. apply Z.eq_le_incl, budget_ext; simpl; [|done].
      destruct (decide (x = id)) as [->|Hne]; [|by rewrite lookup_insert_ne].
      rewrite lookup_insert_eq, E. split; eauto.
    + lia.
  - apply bind_Some in H as ([t1 [info l]] & H & [= <- <-]).
    apply bind_Some in H as ([t2 info2] & H & [= <- <- <-]).
    pose proof (ack_packets_budget id _ _ _ _ _ _ H Hw). simpl. lia.
  - pose proof (drop_stream_tracker sid t) as Hd. destruct (drop_stream sid t). simplify_eq. simpl in *.
    subst. destruct (owned_packets sid t) as [|y ys] eqn:E; [lia|].
    pose proof (forget_all_budget id (y :: ys) t Hw).
    rewrite (budget_ext id (forget_all (y :: ys) t)) by done. lia.
  - unfold get_resend in H.
    pose proof (get_resend_loop_budget id now now_end (probe_timeout t)
      (as_nanos_u64 (effective_rto t)) (resend_queue t) t) as Hd.
    destruct (get_resend_loop _ _ _ _ _ _). simplify_eq. apply Hd. by rewrite set_queue_same.
Qed.

Lemma run_budget id os t t' rs :
  Forall op_ok os -> Forall (not_send id) os -> run t os = Some (t', rs) -> wf t ->
  budget id t' + resends id rs <= budget id t.
Proof.
  revert t rs; induction os as [|o os IH]; intros t rs Hok Hn H Hw; simpl in H.
  { simplify_eq. unfold resends. simpl. lia. }
  inversion_clear Hok as [|? ? Ho Hos]. inversion_clear Hn as [|? ? Hn1 Hn2].
  apply bind_Some in H as ([t1 r] & H1 & H).
  apply bind_Some in H as ([t2 rs'] & H2 & [= <- <-]). unfold resends in *. cbn [sumZ foldr].
  pose proof (step_budget id _ _ _ _ Hw Hn1 H1).
  pose proof (IH _ _ Hos Hn2 H2 (sent_step_wf _ _ _ _ Ho H1 Hw)) as Hi. unfold sumZ in Hi. lia.
Qed.

Lemma effective_rto_bounds t : wf t -> MIN_RTO <= effective_rto t <= from_secs 60.
Proof.
  intros Hw. pose proof (wf_rto t Hw). pose proof (wf_backoff t Hw).
  unfold effective_rto, dur_saturating_mul, MIN_RTO, MAX_RTO_BACKOFF, duration_max, from_secs,
    from_millis, nanos_per_sec in *. unfold_ints. nia.
Qed.

(** ** Dropped streams *)

Lemma elem_of_owned sid t id :
  id ∈ owned_packets sid t <-> packet_streams t !! id = Some (Stream sid).
Proof.
  unfold owned_packets. rewrite list_elem_of_fmap. split.
  - intros ([k v] & -> & [Hv Hin]%list_elem_of_filter). simpl in Hv. subst.
    by apply elem_of_map_to_list in Hin.
  - intros H. exists (id, Stream sid). split; [done|]. apply list_elem_of_filter.
    split; [done|]. by apply elem_of_map_to_list.
Qed.

Lemma drop_stream_lookup sid t id :
  pending_receipts (drop_stream sid t).1 !! id
  = if bool_decide (packet_streams t !! id = Some (Stream sid)) then None
    else pending_receipts t !! id.
Proof.
  rewrite drop_stream_tracker. pose proof (elem_of_owned sid t id) as Ho.
  rewrite <- (bool_decide_ext _ _ Ho).
  destruct (owned_packets sid t) as [|y ys]; [by rewrite bool_decide_eq_false_2 by set_solver|].
  exact (forget_all_lookup (y :: ys) t id).
Qed.

(** ** Which packets a call may add *)

Definition sends (o : op) : gset PacketId :=
  match o with OSend _ id _ _ _ _ => {[id]} | _ => ∅ end.

Lemma dom_update (m : gmap PacketId PendingReceiptEntry) id e e' :
  m !! id = Some e -> dom (<[id := e']> m) = dom m.
Proof. intros H. by apply dom_insert_lookup_L; eauto. Qed.

Lemma ack_packets_dom now ids t info t' info' :
  ack_packets now ids (t, info) = Some (t', info') ->
  dom (pending_receipts t') ⊆ dom (pending_receipts t).
Proof.
  revert t info; induction ids as [|id ids IH]; intros t info H; simpl in H; [by simplify_eq|].
  apply bind_Some in H as ([t1 info1] & H1 & H). rewrite (IH _ _ H). clear IH H.
  apply ack_packet_spec in H1 as (t2 & -> & _ & (Hp & _) & _). simpl. rewrite Hp, dom_delete_L. set_solver.
Qed.

Lemma get_resend_loop_dom now now_end pto rtn queue t :
  dom (pending_receipts (get_resend_loop now now_end pto rtn queue t).1) ⊆ dom (pending_receipts t).
Proof.
  induction queue as [|id rest IH]; simpl; [done|].
  destruct (pending_receipts t !! id) as [e|] eqn:E; [|done].
  destruct (check_timers _ _ _ _ _ _); [done| |done].
  unfold fire_rto. destruct (_ <? _); simpl; [rewrite dom_delete_L; set_solver|].
  by rewrite (dom_update _ id e).
Qed.

Lemma step_dom o t t' r :
  step t o = Some (t', r) -> dom (pending_receipts t') ⊆ dom (pending_receipts t) ∪ sends o.
Proof.
  intros H. destruct o as [now id p tk st size|now id p tk|now ids|sid|now now_end]; simpl in *.
  - simplify_eq. destruct (report_sent_tagged_eq now id p size tk st t) as [st' ->].
    unfold report_sent_packet_inner.
    destruct (pending_receipts t !! id) as [e|] eqn:E; simpl; [rewrite (dom_update _ id e) by done|rewrite dom_insert_L];
      set_solver.
  - unfold refresh_sent_packet in H. destruct (pending_receipts t !! id) as [e|] eqn:E; simplify_eq; simpl;
      [rewrite (dom_update _ id e) by done|]; set_solver.
  - apply bind_Some in H as ([t1 [info l]] & H & [= <- <-]).
    apply bind_Some in H as ([t2 info2] & H & [= <- <- <-]). apply ack_packets_dom in H. set_solver.
  - destruct (drop_stream sid t) as [t1 n] eqn:E. simplify_eq. intros id Hid.
    apply elem_of_dom in Hid as [e He]. change t' with (t', n).1 in He. rewrite <- E, drop_stream_lookup in He.
    case_bool_decide; [done|]. apply elem_of_union_l, elem_of_dom. eauto.
  - pose proof (get_resend_loop_dom now now_end (probe_timeout t) (as_nanos_u64 (effective_rto t)) (resend_queue t) t) as Hd.
    unfold get_resend in H. destruct (get_resend_loop _ _ _ _ _ _). simplify_eq. simpl in *. set_solver.
Qed.

Lemma forget_all_streams ids t id :
  packet_streams (forget_all ids t) !! id
  = if bool_decide (id ∈ ids) then None else packet_streams t !! id.
Proof.
  revert t; induction ids as [|x ids IH]; intros t; [done|].
  cbn [forget_all foldl]. unfold forget_all in IH. rewrite IH. simpl.
  rewrite lookup_delete. repeat case_bool_decide; repeat case_decide; set_solver.
Qed.

(** Dropping a stream leaves the tags of other packets alone. *)
Lemma drop_stream_streams sid t id :
  packet_streams (drop_stream sid t).1 !! id
  = if bool_decide (packet_streams t !! id = Some (Stream sid)) then None else packet_streams t !! id.
Proof.
  rewrite drop_stream_tracker. pose proof (elem_of_owned sid t id) as Ho.
  rewrite <- (bool_decide_ext _ _ Ho).
  destruct (owned_packets sid t) as [|y ys]; [by rewrite bool_decide_eq_false_2 by set_solver|].
  exact (forget_all_streams (y :: ys) t id).
Qed.

Lemma ack_packets_streams now ids t info t' info' :
  ack_packets now ids (t, info) = Some (t', info') -> packet_streams t' ⊆ packet_streams t.
Proof.
  revert t info; induction ids as [|id ids IH]; intros t info H; simpl in H; [by simplify_eq|].
  apply bind_Some in H as ([t1 info1] & H1 & H). etransitivity; [exact (IH _ _ H)|]. clear IH H.
  apply ack_packet_spec in H1 as (t2 & -> & _ & (_ & _ & _ & _ & _ & Hs) & _). simpl. rewrite Hs. apply delete_subseteq.
Qed.

Lemma get_resend_loop_streams now now_end pto rtn queue t :
  packet_streams (get_resend_loop now now_end pto rtn queue t).1 ⊆ packet_streams t.
Proof.
  induction queue as [|id rest IH]; simpl; [done|].
  destruct (pending_receipts t !! id) as [e|] eqn:E; [|done].
  destruct (check_timers _ _ _ _ _ _); [done| |done].
  unfold fire_rto. destruct (_ <? _); simpl; [apply delete_subseteq|done].
Qed.

(** A tracked packet keeps its tag. *)
Lemma step_streams o t t' r id st :
  wf t -> step t o = Some (t', r) -> id ∈ dom (pending_receipts t) ->
  packet_streams t' !! id = Some st -> packet_streams t !! id = Some st.
Proof.
  intros Hw H Hid Hst. destruct o as [now i p tk tag size|now i p tk|now ids|sid|now now_end]; simpl in *.
  - simplify_eq. destruct (report_sent_tagged_eq now i p size tk tag t) as [tag' E]. rewrite E in Hst.
    unfold report_sent_packet_inner in Hst. destruct (pending_receipts t !! i) as [e|] eqn:Ei; simpl in Hst; [done|].
    rewrite lookup_insert_ne in Hst; [done|]. intros ->. apply not_elem_of_dom in Ei. done.
  - unfold refresh_sent_packet in H. destruct (pending_receipts t !! i) as [e|]; simplify_eq; done.
  - apply bind_Some in H as ([t1 [info l]] & H & [= <- <-]).
    apply bind_Some in H as ([t2 info2] & H & [= <- <- <-]). apply ack_packets_streams in H.
    by eapply lookup_weaken.
  - pose proof (drop_stream_streams sid t id) as Hd. destruct (drop_stream sid t) as [t1 n]. simplify_eq. simpl in Hd.
    rewrite Hd in Hst. by case_bool_decide.
  - pose proof (get_resend_loop_streams now now_end (probe_timeout t) (as_nanos_u64 (effective_rto t)) (resend_queue t) t) as Hd.
    unfold get_resend in H. destruct (get_resend_loop _ _ _ _ _ _). simplify_eq. by eapply lookup_weaken.
Qed.

(** ** The action [get_resend] returns *)

(** What each action says about the tracker before ([t]) and after ([t']). *)
Definition action_ok (now : Z) (t t' : SentPacketTracker) (a : ResendAction) : Prop :=
  match a with
  | Resend id p =>
      exists e, pending_receipts t !! id = Some e /\ p = pr_payload e
        /\ (pr_sent_time_nanos e +w64 as_nanos_u64 (effective_rto t)) <= now
        /\ pending_receipts t' = <[id := Entry p now (pr_token e) (pr_packet_size e)]> (pending_receipts t)
        /\ id ∈ retransmitted_packets t'
        /\ rto_backoff t' = Z.min (2 * rto_backoff t) MAX_RTO_BACKOFF
  | TlpProbe id p =>
      exists e, pending_receipts t !! id = Some e /\ p = pr_payload e
        /\ (id ∉ tlp_sent_packets t) /\ id ∈ tlp_sent_packets t'
        /\ now < (pr_sent_time_nanos e +w64 as_nanos_u64 (effective_rto t))
        /\ pending_receipts t' = pending_receipts t
        /\ id ∈ retransmitted_packets t' /\ rto_backoff t' = rto_backoff t
  | Abandon id n =>
      exists e, pending_receipts t !! id = Some e /\ n = pr_packet_size e
        /\ (pr_sent_time_nanos e +w64 as_nanos_u64 (effective_rto t)) <= now
        /\ retransmit_count id t = MAX_PACKET_RETRANSMITS
        /\ pending_receipts t' = delete id (pending_receipts t)
        /\ packet_streams t' !! id = None /\ id ∉ retransmitted_packets t'
  | WaitUntil d => pending_receipts t' = pending_receipts t
  end.

Lemma fire_rto_action now id e rest t :
  wf (set_queue (id :: rest) t) -> pending_receipts t !! id = Some e ->
  (pr_sent_time_nanos e +w64 as_nanos_u64 (effective_rto t)) <= now ->
  let '(t', a) := fire_rto now id e (set_queue rest t) in action_ok now t t' a.
Proof.
  intros Hw He Hdl. unfold fire_rto. cbn [retransmit_counts decay_loss set_loss set_queue].
  fold (retransmit_count id t).
  assert (Hc : 0 <= retransmit_count id t <= MAX_PACKET_RETRANSMITS).
  { unfold retransmit_count. destruct (retransmit_counts t !! id) as [c|] eqn:Ec; simpl.
    - pose proof (wf_counts _ Hw id c Ec) as Hcc. simpl in Hcc. lia.
    - unfold MAX_PACKET_RETRANSMITS. lia. }
  assert (Hcount : retransmit_count id t +w32 1 = retransmit_count id t + 1).
  { apply wrap32_id. unfold MAX_PACKET_RETRANSMITS in Hc. int_lia. }
  rewrite Hcount. destruct (MAX_PACKET_RETRANSMITS <? _) eqn:Hmax; to_props; exists e; simpl.
  - split_and!; auto with freenet; [lia|by rewrite lookup_delete_eq].
  - split_and!; auto with freenet. pose proof (wf_backoff _ Hw) as Hb. simpl in Hb.
    unfold MAX_RTO_BACKOFF in *. int_lia.
Qed.

Lemma check_timers_spec now pto rtn id sent t :
  match check_timers now pto rtn id sent t with
  | TlpFires => (id ∉ tlp_sent_packets t) /\ now < (sent +w64 rtn)
  | RtoFires => (sent +w64 rtn) <= now
  | NotYet d => now < d <= (sent +w64 rtn)
  end.
Proof.
  unfold check_timers. destruct pto as [pto|].
  - case_bool_decide as Ht.
    + destruct (_ <=? now) eqn:E; to_props; lia.
    + destruct ((_ <=? now) && (now <? _)) eqn:E; [to_props; by split|].
      apply andb_false_iff in E. destruct (sent +w64 rtn <=? now) eqn:E2; to_props; [done|].
      destruct E as [E|E]; to_props; lia.
  - destruct (_ <=? now) eqn:E; to_props; lia.
Qed.

Lemma get_resend_loop_action now now_end pto queue t :
  wf (set_queue queue t) ->
  let '(t', a) := get_resend_loop now now_end pto (as_nanos_u64 (effective_rto t)) queue t in
  action_ok now t t' a.
Proof.
  induction queue as [|x rest IH]; cbn [get_resend_loop]; intros Hw; [done|].
  destruct (pending_receipts t !! x) as [e|] eqn:E.
  - pose proof (check_timers_spec now pto (as_nanos_u64 (effective_rto t)) x (pr_sent_time_nanos e) t) as Hct.
    destruct (check_timers _ _ _ _ _ _); [|by apply fire_rto_action|done].
    exists e. destruct Hct. split_and!; simpl; auto with freenet.
  - apply IH. apply not_elem_of_dom in E. wf_split Hw; auto. clear -wf_queue0 E. set_solver.
Qed.

Lemma get_resend_action now now_end t :
  wf t -> let '(t', a) := get_resend now now_end t in action_ok now t t' a.
Proof. intros Hw. apply get_resend_loop_action. by rewrite set_queue_same. Qed.

(** An acknowledgement of a retransmitted packet never panics and leaves the
    estimator alone. *)
Lemma ack_retransmitted now id t e :
  pending_receipts t !! id = Some e -> id ∈ retransmitted_packets t ->
  exists t' loss, report_received_receipts now [id] t
      = Some (t', ([(None, pr_packet_size e, pr_token e)], loss))
    /\ srtt t' = srtt t /\ rttvar t' = rttvar t /\ min_rtt t' = min_rtt t /\ rto t' = rto t
    /\ rto_backoff t' = 1 /\ pending_receipts t' = delete id (pending_receipts t).
Proof.
  intros He Hre. unfold report_received_receipts, ack_packets, ack_packet.
  change (pending_receipts (decay_loss _ t)) with (pending_receipts t).
  change (retransmitted_packets (decay_loss _ t)) with (retransmitted_packets t).
  rewrite He, bool_decide_eq_true_2 by done. cbn [mbind option_bind]. by do 2 eexists.
Qed.

(** ** The float state

    Clock readings are 64-bit nanosecond counts, so an RTT sample is below [2^35]
    seconds; the estimators are averages and stay below that too. *)

Definition rtt_limit : Z := 2 ^ 35.

Record float_ok (t : SentPacketTracker) : Prop := {
  fo_srtt : forall s, srtt t = Some s -> 0 <= s <= rtt_limit * nanos_per_sec;
  fo_rttvar : 0 <= rttvar t <= rtt_limit * nanos_per_sec;
  fo_loss : F64Round.ok (packet_loss_proportion t);
  fo_loss_le : F64Round.fz (packet_loss_proportion t) <= F64Round.U;
}.

Lemma float_ok_fields t t' :
  srtt t' = srtt t -> rttvar t' = rttvar t ->
  packet_loss_proportion t' = packet_loss_proportion t -> float_ok t -> float_ok t'.
Proof. intros E1 E2 E3 [H1 H2 H3 H4]. constructor; rewrite ?E1, ?E2, ?E3; done. Qed.

Lemma float_ok_new : float_ok new_with_time_source.
Proof. constructor; [by intros s [=]|vm_compute; done|done|vm_compute; done]. Qed.

(** A weight [w8/8] of a duration of at most [rtt_limit] seconds. *)
Lemma weighted_duration d k w8 :
  0 <= d <= rtt_limit * nanos_per_sec -> F64Round.ok k -> 0 <= w8 <= 8 ->
  F64Round.fz k * 8 <= w8 * F64Round.U ->
  exists d', dur_mul_f64 d k = Some d' /\ 0 <= d' <= w8 * 2 ^ 32 * nanos_per_sec.
Proof.
  intros Hd Hk Hw Hfz. apply (F64Round.dur_mul_f64_le d k rtt_limit); try done; unfold rtt_limit; lia.
Qed.

Lemma rtt_weights :
  (F64Round.ok ALPHA /\ F64Round.fz ALPHA * 8 <= 1 * F64Round.U)
  /\ (F64Round.ok BETA /\ F64Round.fz BETA * 8 <= 2 * F64Round.U)
  /\ (F64Round.ok (f64_sub f64_one ALPHA) /\ F64Round.fz (f64_sub f64_one ALPHA) * 8 <= 7 * F64Round.U)
  /\ (F64Round.ok (f64_sub f64_one BETA) /\ F64Round.fz (f64_sub f64_one BETA) * 8 <= 6 * F64Round.U).
Proof. vm_compute. split_and!; try done; by right. Qed.

Lemma dur_add_Some a b : 0 <= a -> 0 <= b -> a + b <= 2 ^ 39 * nanos_per_sec -> dur_add a b = Some (a + b).
Proof.
  intros Ha Hb Hab. unfold dur_add. rewrite (proj2 (Z.leb_le _ _)); [done|].
  unfold duration_max, nanos_per_sec in *. int_lia.
Qed.

Lemma update_rtt_average sample t :
  0 <= sample <= rtt_limit * nanos_per_sec -> float_ok t ->
  exists s v m,
    match srtt t with
    | None => Some (sample, dur_div sample 2, sample)
    | Some s =>
        v1 ← dur_mul_f64 (rttvar t) (f64_sub f64_one BETA);
        v2 ← dur_mul_f64 (dur_abs_diff sample s) BETA;
        v ← dur_add v1 v2;
        s1 ← dur_mul_f64 s (f64_sub f64_one ALPHA);
        s2 ← dur_mul_f64 sample ALPHA;
        s' ← dur_add s1 s2;
        Some (s', v, Z.min (min_rtt t) sample)
    end = Some (s, v, m)
    /\ 0 <= s <= rtt_limit * nanos_per_sec /\ 0 <= v <= rtt_limit * nanos_per_sec.
Proof.
  intros Hs [Hsr Hrv _ _]. destruct rtt_weights as ([A1 A2] & [B1 B2] & [C1 C2] & [D1 D2]).
  destruct (srtt t) as [s|].
  - specialize (Hsr s eq_refl). unfold dur_abs_diff.
    destruct (weighted_duration (rttvar t) _ 6 Hrv D1 ltac:(lia) D2) as (v1 & -> & ?).
    destruct (weighted_duration (Z.abs (sample - s)) _ 2 ltac:(lia) B1 ltac:(lia) B2) as (v2 & -> & ?).
    destruct (weighted_duration s _ 7 Hsr C1 ltac:(lia) C2) as (s1 & -> & ?).
    destruct (weighted_duration sample _ 1 Hs A1 ltac:(lia) A2) as (s2 & -> & ?).
    cbn [mbind option_bind]. unfold rtt_limit, nanos_per_sec in *.
    rewrite !dur_add_Some by (unfold nanos_per_sec; lia). cbn [mbind option_bind].
    eexists _, _, _. split; [done|]. lia.
  - eexists _, _, _. split; [done|]. unfold dur_div. split; [done|].
    pose proof (Z.div_pos sample 2 ltac:(lia) ltac:(lia)).
    pose proof (Z.div_le_upper_bound sample 2 sample ltac:(lia) ltac:(lia)). lia.
Qed.

Lemma update_rtt_total sample t :
  0 <= sample <= rtt_limit * nanos_per_sec -> float_ok t ->
  exists t', update_rtt sample t = Some t' /\ float_ok t'.
Proof.
  intros Hs Hf. unfold update_rtt. cbv zeta.
  destruct (update_rtt_average sample t Hs Hf) as (s & v & m & -> & Hs' & Hv').
  cbn [mbind option_bind]. unfold dur_mul, K.
  assert (Hv4 : v * 4 <= duration_max) by (unfold rtt_limit, duration_max, nanos_per_sec in *; int_lia).
  rewrite (proj2 (Z.leb_le _ _) Hv4). cbn [mbind option_bind].
  assert (Hadd : exists r, dur_add s (if G <? v * 4 then v * 4 else G) = Some r).
  { eexists. apply dur_add_Some; destruct (G <? v * 4); unfold rtt_limit, G, from_millis, nanos_per_sec in *; lia. }
  destruct Hadd as [r ->]. cbn [mbind option_bind]. eexists. split; [done|].
  destruct Hf. constructor; simpl; try done. by intros s' [= <-].
Qed.

(** [1 - F] is a float, and it and [F] do not add up to more than 1. *)
Lemma loss_weight :
  F64Round.fz (f64_sub f64_one PACKET_LOSS_DECAY_FACTOR) = 8998192055486251 * 2 ^ 1021
  /\ 8998192055486251 * 2 ^ 1021 + F64Round.fz PACKET_LOSS_DECAY_FACTOR <= F64Round.U
  /\ F64Round.ok (f64_sub f64_one PACKET_LOSS_DECAY_FACTOR).
Proof.
  split; [vm_compute; reflexivity|]. split; [apply Z.leb_le; vm_compute; reflexivity|].
  repeat split; try (apply Z.leb_le || apply Z.ltb_lt; vm_compute; reflexivity). right.
  apply Z.leb_le. vm_compute. reflexivity.
Qed.

(** The loss estimate is an exponential moving average of 0s and 1s. *)
Lemma decay_loss_float_ok x t :
  F64Round.ok x -> F64Round.fz x <= F64Round.fz PACKET_LOSS_DECAY_FACTOR ->
  float_ok t -> float_ok (decay_loss x t).
Proof.
  intros Hx Hfx [H1 H2 H3 H4]. set (D := PACKET_LOSS_DECAY_FACTOR) in *.
  assert (Hk : 0 <= 8998192055486251 < 2 ^ 53) by lia. assert (Hj : 0 <= 1021 <= 2045) by lia.
  destruct loss_weight as (Ek & Hsum & HD). fold D in Ek, Hsum, HD. pose proof F64Round.U_pos.
  revert Hk Hj Ek Hsum. generalize 8998192055486251, 1021. intros k j Hk Hj Ek Hsum.
  pose proof (F64Round.f64_mul_rounds _ _ H3 HD) as Hmul.
  destruct (F64Round.rounds_le _ _ _ k j Hmul Hk Hj) as [Hm1 Hm2].
  { rewrite Ek, Z.mul_comm. apply Z.mul_le_mono_nonneg_l; [|done]. apply Z.mul_nonneg_nonneg; [lia|].
    apply Z.pow_nonneg; lia. }
  pose proof (F64Round.f64_add_rounds _ _ Hm1 Hx) as Hadd.
  destruct (F64Round.rounds_le _ _ _ 1 1074 Hadd ltac:(lia) ltac:(lia)) as [Ha1 Ha2].
  { change (1 * 2 ^ 1074 * 1) with F64Round.U. lia. }
  constructor; simpl; try done.
Qed.

Lemma report_sent_inner_float_ok now id p token stream size t :
  float_ok t -> float_ok (report_sent_packet_inner now id p token stream size t).
Proof.
  intros Hf. unfold report_sent_packet_inner.
  destruct (pending_receipts t !! id); apply (float_ok_fields t); done.
Qed.

(** The clock readings the tracker has stored. *)
Definition times_ok (t : SentPacketTracker) : Prop :=
  map_Forall (fun _ e => is_u64 (pr_sent_time_nanos e)) (pending_receipts t).

Lemma zero_loss :
  F64Round.ok (f64_mul PACKET_LOSS_DECAY_FACTOR f64_zero)
  /\ F64Round.fz (f64_mul PACKET_LOSS_DECAY_FACTOR f64_zero) <= F64Round.fz PACKET_LOSS_DECAY_FACTOR.
Proof. split; [vm_compute; exact I|]. apply Z.leb_le. vm_compute. reflexivity. Qed.

Lemma one_loss : F64Round.ok PACKET_LOSS_DECAY_FACTOR.
Proof.
  repeat split; try (apply Z.leb_le || apply Z.ltb_lt; vm_compute; reflexivity). right.
  apply Z.leb_le. vm_compute. reflexivity.
Qed.

Lemma ack_packet_total now id t info :
  is_u64 now -> times_ok t -> float_ok t ->
  exists t' info', ack_packet now id (t, info) = Some (t', info') /\ float_ok t' /\ times_ok t'.
Proof.
  intros Hnow Hall Hf.
  assert (Hgo : exists t' info', ack_packet now id (t, info) = Some (t', info') /\ float_ok t').
  { unfold ack_packet. destruct zero_loss as [Z1 Z2].
    assert (Hd := decay_loss_float_ok _ t Z1 Z2 Hf).
    change (pending_receipts (decay_loss _ t)) with (pending_receipts t).
    set (td := decay_loss _ t) in *. destruct (pending_receipts t !! id) as [e|] eqn:E.
    - case_bool_decide.
      + cbn [mbind option_bind]. eexists _, _. split; [done|]. by apply (float_ok_fields td).
      + assert (Hs : 0 <= from_nanos (sat_sub now (pr_sent_time_nanos e)) <= rtt_limit * nanos_per_sec).
        { pose proof (Hall _ _ E) as He. simpl in He. unfold from_nanos, rtt_limit, nanos_per_sec. int_lia. }
        destruct (update_rtt_total _ td Hs Hd) as (t' & -> & Hf'). cbn [mbind option_bind].
        eexists _, _. split; [done|]. by apply (float_ok_fields t').
    - cbn [mbind option_bind]. eexists _, _. split; [done|]. by apply (float_ok_fields td). }
  destruct Hgo as (t' & info' & Heq & Hf'). exists t', info'. split_and!; [done|done|].
  apply ack_packet_spec in Heq as (t1 & -> & _ & (Hp & _) & _). unfold times_ok. simpl. rewrite Hp.
  by apply map_Forall_delete.
Qed.

Lemma ack_packets_total now ids t info :
  is_u64 now -> times_ok t -> float_ok t ->
  exists t' info', ack_packets now ids (t, info) = Some (t', info') /\ float_ok t' /\ times_ok t'.
Proof.
  intros Hnow. revert t info. induction ids as [|id ids IH]; intros t info Ht Hf; simpl; [eauto|].
  destruct (ack_packet_total now id t info Hnow Ht Hf) as (t1 & info1 & -> & Hf1 & Ht1).
  cbn [mbind option_bind]. by apply IH.
Qed.

Lemma fire_rto_ok now id e t :
  is_u64 now -> times_ok t -> float_ok t ->
  float_ok (fire_rto now id e t).1 /\ times_ok (fire_rto now id e t).1.
Proof.
  intros Hnow Ht Hf. pose proof (decay_loss_float_ok _ t one_loss ltac:(lia) Hf) as Hd.
  unfold fire_rto. set (td := decay_loss _ t) in *.
  assert (Hp : pending_receipts td = pending_receipts t) by done. clearbody td.
  case_match; (split; [by apply (float_ok_fields td)|]); unfold times_ok; simpl; rewrite Hp.
  - by apply map_Forall_delete.
  - by apply map_Forall_insert_2.
Qed.

Lemma get_resend_loop_ok now now_end pto rto_ns queue t :
  is_u64 now -> times_ok t -> float_ok t ->
  let t' := (get_resend_loop now now_end pto rto_ns queue t).1 in float_ok t' /\ times_ok t'.
Proof.
  intros Hnow Ht Hf. induction queue as [|id rest IH]; cbn [get_resend_loop].
  - split; [by apply (float_ok_fields t)|done].
  - destruct (pending_receipts t !! id) as [e|]; [|done]. destruct (check_timers _ _ _ _ _ _).
    + split; [by apply (float_ok_fields t)|done].
    + apply fire_rto_ok; [done|done|by apply (float_ok_fields t)].
    + split; [by apply (float_ok_fields t)|done].
Qed.

Lemma drop_packets_ok l t n :
  times_ok t -> float_ok t ->
  let st := foldl (fun st pid => drop_packet pid st) (t, n) l in float_ok st.1 /\ times_ok st.1.
Proof.
  revert t n. induction l as [|id l IH]; intros t n Ht Hf; [done|]. simpl. apply IH.
  - by apply map_Forall_delete.
  - by apply (float_ok_fields t).
Qed.

Lemma drop_stream_ok stream_id t :
  times_ok t -> float_ok t -> float_ok (drop_stream stream_id t).1 /\ times_ok (drop_stream stream_id t).1.
Proof.
  intros Ht Hf. unfold drop_stream.
  pose proof (drop_packets_ok (owned_packets stream_id t) t 0 Ht Hf) as [H1 H2].
  destruct (owned_packets stream_id t) as [|pid owned]; [done|].
  destruct (foldl _ (t, 0) _) as [t' n]. split; [by apply (float_ok_fields t')|done].
Qed.

Lemma step_total t o :
  op_ok o -> times_ok t -> float_ok t ->
  exists t' r, step t o = Some (t', r) /\ float_ok t' /\ times_ok t'.
Proof.
  intros Ho Ht Hf. destruct o as [now id p token stream size|now id p token|now ids|id|now now_end]; simpl in *.
  - eexists _, _. split; [done|].
    assert (Hi : forall st, float_ok (report_sent_packet_inner now id p token st size t)
      /\ times_ok (report_sent_packet_inner now id p token st size t)).
    { intros st. split; [by apply report_sent_inner_float_ok|]. unfold report_sent_packet_inner, times_ok.
      destruct (pending_receipts t !! id); simpl; apply map_Forall_insert_2; try done; apply Ho. }
    destruct stream; apply Hi.
  - unfold refresh_sent_packet. destruct (pending_receipts t !! id); [|eauto].
    eexists _, _. split; [done|]. split; [by apply (float_ok_fields t)|]. by apply map_Forall_insert_2.
  - unfold report_received_receipts.
    destruct (ack_packets_total now ids t [] Ho Ht Hf) as (t' & info & -> & Hf' & Ht').
    cbn [mbind option_bind]. eauto.
  - pose proof (drop_stream_ok id t Ht Hf) as Hd. destruct (drop_stream id t). eauto.
  - pose proof (get_resend_loop_ok now now_end (probe_timeout t) (as_nanos_u64 (effective_rto t))
      (resend_queue t) t (proj1 Ho) Ht Hf) as Hg.
    unfold get_resend. destruct (get_resend_loop _ _ _ _ _ _). eauto.
Qed.

Lemma run_total os t :
  Forall op_ok os -> times_ok t -> float_ok t ->
  exists t' rs, run t os = Some (t', rs) /\ float_ok t'.
Proof.
  intros Hok. revert t. induction Hok as [|o os Ho _ IH]; intros t Ht Hf; simpl; [eauto|].
  destruct (step_total t o Ho Ht Hf) as (t1 & r & -> & Hf1 & Ht1). cbn [mbind option_bind].
  destruct (IH t1 Ht1 Hf1) as (t2 & rs & -> & Hf2). cbn [mbind option_bind]. eauto.
Qed.

(** ** Properties *)

(** C5: exactly-once release of flight size. Over any sequence of sends,
    refreshes, receipts, stream drops and resend checks, the bytes put in flight
    are the bytes of the packets still tracked plus the bytes released, where
    each packet's bytes are released by exactly one of: its acknowledgement, its
    abandonment, or the drop of its stream. No interleaving releases a packet
    twice or loses it. *)
Theorem flight_size_released_once (os : list op) (t : SentPacketTracker) (rs : list outcome) :
  Forall op_ok os -> run new_with_time_source os = Some (t, rs) ->
  sumZ added_bytes rs <= u64_max ->
  sumZ added_bytes rs = pending_bytes t + sumZ released_bytes rs
  /\ 0 <= pending_bytes t.
Proof.
  intros Hok H Hmax. split.
  - pose proof (run_bytes _ _ _ _ Hok H sent_wf_new) as Hb.
    replace (pending_bytes new_with_time_source) with 0 in Hb by done. lia.
  - apply sizes_nonneg. eapply sent_run_wf; [exact Hok|exact H|apply sent_wf_new].
Qed.

(** A first send of packet 1 on stream 9, a control packet 2, a timeout that
    resends packet 1, the drop of stream 9 while that resend is in progress, and
    the late refresh. *)
Definition demo_ops : list op :=
  [OSend 0 1 [Byte.x01] None (Stream 9) 100; OSend 5 2 [Byte.x02] None Control 50;
   OResend 1000000000 1000000000; ODrop 9; ORefresh 1000000010 1 [Byte.x01] None;
   OAck 1000000020 [1; 2]].

Lemma flight_size_released_once_witness :
  exists t rs, run new_with_time_source demo_ops = Some (t, rs)
    /\ sumZ added_bytes rs = 150 /\ pending_bytes t + sumZ released_bytes rs = 150.
Proof.
  destruct (run new_with_time_source demo_ops) as [[t rs]|] eqn:E; [|vm_compute in E; discriminate].
  assert (Ha : sumZ added_bytes rs = 150) by (vm_compute in E; injection E as _ <-; vm_compute; done).
  exists t, rs. split; [done|]. split; [exact Ha|]. rewrite <- Ha. symmetry.
  apply (flight_size_released_once demo_ops t rs); [|exact E|rewrite Ha; unfold u64_max; lia].
  repeat constructor; unfold is_u64, u64_max; lia.
Defined.

(** The tracking structures never drift apart. In every reachable state the
    packets with a stream tag are exactly the packets in flight, every one of
    them is queued for retransmission, the retransmission, probe and count
    records mention only packets in flight, the count of each is at most
    [MAX_PACKET_RETRANSMITS], and the RTO and its backoff stay within bounds. *)
Lemma tracker_invariant (os : list op) (t : SentPacketTracker) (rs : list outcome) :
  Forall op_ok os -> run new_with_time_source os = Some (t, rs) -> wf t.
Proof. intros Hok H. eapply sent_run_wf; [exact Hok|exact H|apply sent_wf_new]. Qed.

Lemma tracker_invariant_witness :
  exists t rs, run new_with_time_source demo_ops = Some (t, rs) /\ wf t.
Proof.
  destruct (run new_with_time_source demo_ops) as [[t rs]|] eqn:E; [|vm_compute in E; discriminate].
  exists t, rs. split; [done|]. apply (tracker_invariant demo_ops t rs); [|exact E].
  repeat constructor; unfold is_u64, u64_max; lia.
Defined.

(** What [get_resend] may do. A resend, probe or abandonment always names a
    packet in flight and carries its own payload or size; a resend or an
    abandonment happens only once the effective RTO has elapsed, keeps or
    removes the packet accordingly and doubles the backoff up to 512 or leaves
    it; a probe happens before the RTO, at most once per transmission, and does
    not touch the backoff; an abandonment happens only after
    [MAX_PACKET_RETRANSMITS] retransmissions. *)
Lemma resend_action_sound (now now_end : Z) (t : SentPacketTracker) :
  wf t -> action_ok now t (get_resend now now_end t).1 (get_resend now now_end t).2.
Proof.
  intros Hw. pose proof (get_resend_action now now_end t Hw) as H. by destruct (get_resend now now_end t).
Qed.

Lemma resend_action_sound_witness :
  let t := report_sent_packet 0 1 [Byte.x01] new_with_time_source in
  wf t /\ (get_resend 1000000000 1000000000 t).2 = Resend 1 [Byte.x01]
  /\ action_ok 1000000000 t (get_resend 1000000000 1000000000 t).1 (Resend 1 [Byte.x01]).
Proof.
  intros t. assert (Hw : wf t).
  { apply report_sent_packet_inner_wf; [apply sent_wf_new|]. unfold is_u64, u64_max. simpl. lia. }
  split; [exact Hw|]. split; [vm_compute; reflexivity|].
  exact (resend_action_sound 1000000000 1000000000 t Hw).
Defined.

(** No busy loop. When [get_resend] tells the connection to wait, the
    deadline is in the future: the recv loop that calls it again only then
    cannot spin. (The empty-queue deadline adds at most 60 seconds to the
    clock, so it needs the clock to be that far below [u64::MAX].) *)
Lemma wait_deadline_in_future (now now_end d : Z) (t : SentPacketTracker) :
  wf t -> 0 <= now <= now_end -> now_end + from_secs 60 <= u64_max ->
  (get_resend now now_end t).2 = WaitUntil d -> now < d.
Proof.
  intros Hw Hn Hmax H. unfold get_resend in H.
  pose proof (effective_rto_bounds t Hw) as [Hlo Hhi].
  assert (Has : as_nanos_u64 (effective_rto t) = effective_rto t).
  { apply wrap64_id. unfold MIN_RTO, from_millis in Hlo. int_lia. }
  rewrite Has in H. clear Has. revert H. generalize (probe_timeout t) as pto.
  generalize (resend_queue t) as q. intros q pto.
  induction q as [|x rest IH]; cbn [get_resend_loop]; intros H.
  - simpl in H. injection H as <-. unfold as_nanos_u64.
    rewrite !wrap64_id; unfold MIN_RTO, from_millis in Hlo;
      rewrite ?wrap64_id by int_lia; int_lia.
  - destruct (pending_receipts t !! x) as [e|]; [|auto].
    pose proof (check_timers_spec now pto (effective_rto t) x (pr_sent_time_nanos e) t) as Hc.
    destruct (check_timers _ _ _ _ _ _); [done| |by simplify_eq/=; lia].
    revert H. unfold fire_rto. by destruct (_ <? _).
Qed.

Lemma wait_deadline_in_future_witness :
  let t := report_sent_packet 0 1 [Byte.x01] new_with_time_source in
  (get_resend 10 10 t).2 = WaitUntil 1000000000 /\ 10 < 1000000000.
Proof.
  intros t. split; [vm_compute; reflexivity|].
  apply (wait_deadline_in_future 10 10 1000000000 t).
  - apply report_sent_packet_inner_wf; [apply sent_wf_new|]. unfold is_u64, u64_max. simpl. lia.
  - lia.
  - unfold from_secs, nanos_per_sec, u64_max. lia.
  - vm_compute; reflexivity.
Defined.

(** A packet is retransmitted a bounded number of times. From any
    well-formed state, in any continuation that does not register the packet
    anew, a tracked packet is retransmitted on timeout at most
    [MAX_PACKET_RETRANSMITS] times minus the number of times it already was, and
    an untracked one never. *)
Lemma retransmissions_bounded (id : PacketId) (os : list op) (t t' : SentPacketTracker)
    (rs : list outcome) :
  wf t -> Forall op_ok os -> Forall (not_send id) os -> run t os = Some (t', rs) ->
  resends id rs <= (if contains_packet id t then MAX_PACKET_RETRANSMITS - retransmit_count id t else 0).
Proof.
  intros Hw Hok Hn H. pose proof (run_budget id _ _ _ _ Hok Hn H Hw) as Hb.
  pose proof (sent_run_wf _ _ _ _ Hok H Hw) as Hw'. pose proof (budget_nonneg id t' Hw').
  unfold budget at 2 in Hb. lia.
Qed.

Lemma retransmissions_bounded_witness :
  let t := report_sent_packet 0 1 [Byte.x01] new_with_time_source in
  let os := [OResend 1000000000 1000000000; OAck 1000000001 []; OResend 3000000000 3000000000] in
  exists t' rs, run t os = Some (t', rs) /\ resends 1 rs = 2 /\ 2 <= 12.
Proof.
  intros t os. destruct (run t os) as [[t' rs]|] eqn:E; [|vm_compute in E; discriminate].
  assert (Hr : resends 1 rs = 2) by (vm_compute in E; injection E as _ <-; vm_compute; done).
  exists t', rs. split; [done|]. split; [exact Hr|]. rewrite <- Hr.
  apply (retransmissions_bounded 1 os t t' rs).
  - apply report_sent_packet_inner_wf; [apply sent_wf_new|]. unfold is_u64, u64_max. simpl. lia.
  - repeat constructor; unfold is_u64, u64_max; lia.
  - repeat constructor.
  - exact E.
Defined.

(** Karn's algorithm. Once a packet has been retransmitted, by timeout or as a
    probe, its acknowledgement releases its bytes and resets the backoff but
    yields no RTT sample and leaves the smoothed RTT, its variance, the minimum
    RTT and the RTO untouched; it never panics. *)
Theorem karn_no_sample_after_retransmit (now now_end now' : Z) (id : PacketId) (p : payload)
    (t t' : SentPacketTracker) (a : ResendAction) :
  wf t -> get_resend now now_end t = (t', a) -> (a = Resend id p \/ a = TlpProbe id p) ->
  exists e t'' loss,
    report_received_receipts now' [id] t'
      = Some (t'', ([(None, pr_packet_size e, pr_token e)], loss))
    /\ pending_receipts t !! id = Some e
    /\ srtt t'' = srtt t' /\ rttvar t'' = rttvar t' /\ min_rtt t'' = min_rtt t' /\ rto t'' = rto t'
    /\ rto_backoff t'' = 1.
Proof.
  intros Hw H Ha. pose proof (get_resend_action now now_end t Hw) as Hact. rewrite H in Hact.
  destruct Ha as [-> | ->]; destruct Hact as (e & He & -> & Hact).
  - destruct Hact as (_ & Hp & Hre & _).
    destruct (ack_retransmitted now' id t' (Entry (pr_payload e) now (pr_token e) (pr_packet_size e)))
      as (t'' & loss & Hack & H1 & H2 & H3 & H4 & H5 & _); [by rewrite Hp, lookup_insert_eq|done|].
    by exists e, t'', loss.
  - destruct Hact as (_ & _ & _ & Hp & Hre & _).
    destruct (ack_retransmitted now' id t' e) as (t'' & loss & Hack & H1 & H2 & H3 & H4 & H5 & _);
      [by rewrite Hp|done|].
    by exists e, t'', loss.
Qed.

Lemma karn_no_sample_after_retransmit_witness :
  let t := report_sent_packet 0 1 [Byte.x01] new_with_time_source in
  exists t' e t'' loss, get_resend 1000000000 1000000000 t = (t', Resend 1 [Byte.x01])
    /\ report_received_receipts 1000000005 [1] t'
      = Some (t'', ([(None, pr_packet_size e, pr_token e)], loss))
    /\ srtt t'' = srtt t'.
Proof.
  intros t. destruct (get_resend 1000000000 1000000000 t) as [t' a] eqn:E.
  assert (Ha : a = Resend 1 [Byte.x01]) by (vm_compute in E; by injection E as _ <-).
  destruct (karn_no_sample_after_retransmit 1000000000 1000000000 1000000005 1 [Byte.x01] t t' a)
    as (e & t'' & loss & Hr & _ & Hs & _).
  - apply report_sent_packet_inner_wf; [apply sent_wf_new|]. unfold is_u64, u64_max. simpl. lia.
  - exact E.
  - by left.
  - exists t', e, t'', loss. by rewrite <- Ha.
Defined.

(** A dropped stream stays dropped. After [drop_stream], however a resend of
    one of its packets that was in progress completes, the packet is not
    tracked again: the refresh reports [false] and changes nothing, a late
    acknowledgement yields no ack entry, so its bytes cannot be released again.
    Packets of other streams and control packets keep their entries. *)
Lemma dropped_stream_not_resurrected (sid : StreamId) (id : PacketId) (now : Z) (p : payload)
    (tok : option DeliveryRateToken) (t : SentPacketTracker) :
  packet_streams t !! id = Some (Stream sid) ->
  let t' := (drop_stream sid t).1 in
  refresh_sent_packet now id p tok t' = (t', false)
  /\ (exists t'' loss, report_received_receipts now [id] t' = Some (t'', ([], loss)))
  /\ (forall id', packet_streams t !! id' <> Some (Stream sid) ->
        pending_receipts t' !! id' = pending_receipts t !! id').
Proof.
  intros Hid t'. pose proof (drop_stream_lookup sid t) as Hl. fold t' in Hl.
  assert (Hnone : pending_receipts t' !! id = None) by (by rewrite Hl, bool_decide_eq_true_2).
  split_and!.
  - unfold refresh_sent_packet. by rewrite Hnone.
  - unfold report_received_receipts, ack_packets, ack_packet.
    change (pending_receipts (decay_loss _ t')) with (pending_receipts t'). rewrite Hnone.
    cbn [mbind option_bind]. by do 2 eexists.
  - intros id' Hid'. by rewrite Hl, bool_decide_eq_false_2.
Qed.

Lemma dropped_stream_not_resurrected_witness :
  let t := report_sent_stream_packet_with_size 0 1 [Byte.x01] None 9 100 new_with_time_source in
  packet_streams t !! 1 = Some (Stream 9)
  /\ refresh_sent_packet 7 1 [Byte.x01] None (drop_stream 9 t).1 = ((drop_stream 9 t).1, false).
Proof.
  intros t. assert (H : packet_streams t !! 1 = Some (Stream 9)) by reflexivity.
  split; [exact H|].
  exact (proj1 (dropped_stream_not_resurrected 9 1 7 [Byte.x01] None t H)).
Defined.

(** The retransmission timer is bounded. In every reachable state the
    effective RTO is at least the base RTO, at least 500 ms and at most 60 s, and
    a timeout never makes it shorter. *)
Lemma effective_rto_within_bounds (os : list op) (t : SentPacketTracker) (rs : list outcome) :
  Forall op_ok os -> run new_with_time_source os = Some (t, rs) ->
  MIN_RTO <= effective_rto t <= from_secs 60
  /\ rto t <= effective_rto t <= effective_rto (on_timeout t).
Proof.
  intros Hok H. assert (Hw : wf t) by (eapply sent_run_wf; [exact Hok|exact H|apply sent_wf_new]).
  pose proof (effective_rto_bounds t Hw). pose proof (wf_rto t Hw). pose proof (wf_backoff t Hw).
  split; [done|]. unfold effective_rto, on_timeout, dur_saturating_mul, set_backoff in *.
  unfold MAX_RTO_BACKOFF, MIN_RTO, duration_max, from_secs, from_millis, nanos_per_sec in *. simpl.
  unfold_ints. nia.
Qed.

Lemma effective_rto_within_bounds_witness :
  exists t rs, run new_with_time_source demo_ops = Some (t, rs)
    /\ MIN_RTO <= effective_rto t <= from_secs 60.
Proof.
  destruct (run new_with_time_source demo_ops) as [[t rs]|] eqn:E; [|vm_compute in E; discriminate].
  exists t, rs. split; [done|]. apply (effective_rto_within_bounds demo_ops t rs); [|exact E].
  repeat constructor; unfold is_u64, u64_max; lia.
Defined.

(** Head-of-line blocking after a probe. Two packets sent at time 0 with a
    100 ms RTT estimate: at 250 ms the first is probed and its send time
    refreshed. At 600 ms the second is past its 500 ms RTO, but [get_resend]
    looks only at the refreshed entry at the head of the queue and asks the
    caller to wait until 750 ms. *)
Example probe_blocks_overdue_packet :
  let ms n := from_millis n in
  let t0 := set_rtt (Some (ms 100)) (ms 10) (ms 100) (ms 500) new_with_time_source in
  let t1 := report_sent_packet 0 2 [Byte.x02] (report_sent_packet 0 1 [Byte.x01] t0) in
  let '(t2, a) := get_resend (ms 250) (ms 250) t1 in
  let t3 := (refresh_sent_packet (ms 250) 1 [Byte.x01] None t2).1 in
  a = TlpProbe 1 [Byte.x01]
  /\ (get_resend (ms 600) (ms 600) t3).2 = WaitUntil (ms 750)
  /\ (pr_sent_time_nanos <$> pending_receipts t3 !! 2) = Some 0
  /\ effective_rto t3 = ms 500.
Proof. vm_compute. done. Qed.

(** C6: the tracker never panics, and its loss estimate is a proportion. Every
    sequence of well-typed calls runs to completion: the [Duration] float
    conversions and additions of the RTT estimator stay in range for all 64-bit
    clock readings. The packet-loss estimate it maintains is at all times a finite
    float between 0 and 1, rounding errors included. *)
Theorem tracker_never_panics (os : list op) :
  Forall op_ok os ->
  exists t rs, run new_with_time_source os = Some (t, rs)
    /\ F64Round.ok (packet_loss_proportion t)
    /\ 0 <= F64Round.fz (packet_loss_proportion t) <= F64Round.U.
Proof.
  intros Hok. destruct (run_total os new_with_time_source Hok) as (t & rs & Hr & [_ _ H1 H2]);
    [done|apply float_ok_new|].
  exists t, rs. split_and!; [done|done|apply F64Round.fz_nonneg|done].
Qed.

Lemma tracker_never_panics_witness :
  Forall op_ok demo_ops /\ exists t rs, run new_with_time_source demo_ops = Some (t, rs)
    /\ F64Round.ok (packet_loss_proportion t)
    /\ 0 <= F64Round.fz (packet_loss_proportion t) <= F64Round.U.
Proof.
  assert (H : Forall op_ok demo_ops) by (repeat constructor; unfold is_u64, u64_max; lia).
  split; [exact H|]. exact (tracker_never_panics demo_ops H).
Defined.

End SentPacketTracker.
