(* ===== verification/TokenBucket.v ===== *)
(** * The token bucket that paces a connection

    Models [src/crates/core/src/transport/token_bucket.rs].

    [TokenBucket]'s mutex makes every method one atomic step on [BucketState], so
    the model is a sequence of calls; the clock reading of each call is an
    argument.  The fractional accumulator is an [f64] and is computed bit for bit
    ([F64.v]); its bounds come from [F64Round.v].  [reserve] panics if the float
    it computes is not a [Duration]: [None]. *)

From S2P Require Import Prelude F64 F64Round.

Module TokenBucket.
Import F64Round.

Record BucketState := mkBucket {
  capacity : Z;
  tokens : Z;
  fractional_tokens : f64;
  rate : Z;
  last_refill_nanos : Z;
}.

Definition new_with_time_source (capacity rate now : Z) : BucketState :=
  mkBucket capacity (wrap_i64 capacity) f64_zero rate now.

Definition refill_state (now_nanos : Z) (s : BucketState) : BucketState :=
  let elapsed_nanos := sat_sub now_nanos (last_refill_nanos s) in
  if elapsed_nanos =? 0 then s
  else
    let elapsed_secs := f64_div (f64_of_Z elapsed_nanos) (f64_of_Z 1000000000) in
    let new_tokens_f64 := f64_mul (f64_of_Z (rate s)) elapsed_secs in
    let fractional := f64_add (fractional_tokens s) new_tokens_f64 in
    let new_tokens_whole := f64_floor_isize fractional in
    if 0 <? new_tokens_whole then
      mkBucket (capacity s)
        (Z.min (wrap_i64 (tokens s + new_tokens_whole)) (wrap_i64 (capacity s)))
        (f64_sub fractional (f64_of_Z new_tokens_whole)) (rate s) now_nanos
    else mkBucket (capacity s) (tokens s) fractional (rate s) (last_refill_nanos s).

Definition reserve (now_nanos bytes : Z) (s : BucketState) : option (BucketState * Z) :=
  let s := refill_state now_nanos s in
  let bytes_isize := wrap_i64 bytes in
  wait_time ←
    (if bytes_isize <=? tokens s then Some 0
     else if rate s =? 0 then Some 0
     else
       let deficit := wrap_i64 (bytes_isize - tokens s) in
       from_secs_f64 (f64_div (f64_of_Z deficit) (f64_of_Z (rate s))));
  Some (mkBucket (capacity s) (wrap_i64 (tokens s - bytes_isize)) (fractional_tokens s) (rate s)
          (last_refill_nanos s), wait_time).

Definition set_rate (new_rate : Z) (s : BucketState) : BucketState :=
  mkBucket (capacity s) (tokens s) (fractional_tokens s) (Z.max new_rate 1024) (last_refill_nanos s).

Definition get_rate (s : BucketState) : Z := rate s.

(** ** Runs *)

Inductive op := Reserve (now_nanos bytes : Z) | SetRate (new_rate : Z).

(** The waits handed out, in order. *)
Fixpoint run (s : BucketState) (os : list op) : option (BucketState * list Z) :=
  match os with
  | [] => Some (s, [])
  | Reserve now bytes :: os' =>
      '(s1, w) ← reserve now bytes s;
      '(s2, ws) ← run s1 os';
      Some (s2, w :: ws)
  | SetRate r :: os' => run (set_rate r s) os'
  end.

Definition reserved (os : list op) : Z :=
  sumZ (fun o => match o with Reserve _ bytes => bytes | SetRate _ => 0 end) os.

(** ** Invariant

    The magnitudes for which no 64-bit operation wraps: rates up to [2^33] bytes
    per second (8 GB/s), clocks up to [2^27] seconds (four years) of uptime, and
    [2^61] bytes reserved. *)

Definition max_rate : Z := 2 ^ 33.
Definition max_clock : Z := 2 ^ 27 * nanos_per_sec.
Definition max_bytes : Z := 2 ^ 61.

Record bucket_ok (debt : Z) (s : BucketState) : Prop := {
  bo_capacity : 0 <= capacity s <= max_bytes;
  bo_tokens : - debt <= tokens s <= capacity s;
  bo_debt : 0 <= debt <= max_bytes;
  bo_frac : ok (fractional_tokens s);
  bo_frac_le : fz (fractional_tokens s) <= U;
  bo_rate : 0 <= rate s <= max_rate;
  bo_last : 0 <= last_refill_nanos s <= max_clock;
}.

Definition op_ok (o : op) : Prop :=
  match o with
  | Reserve now bytes => 0 <= now <= max_clock /\ 0 <= bytes
  | SetRate r => 0 <= r <= max_rate
  end.

(** The tokens a refill is worth, as computed. *)
Lemma refill_amount r elapsed :
  0 <= r <= max_rate -> 0 <= elapsed <= max_clock ->
  let x := f64_mul (f64_of_Z r) (f64_div (f64_of_Z elapsed) (f64_of_Z 1000000000)) in
  ok x /\ fz x <= 2 ^ 61 * U.
Proof.
  intros Hr He x. unfold max_rate, max_clock, nanos_per_sec in Hr, He. pose proof U_pos as HU.
  destruct (f64_of_Z_exact r) as [R1 R2]; [lia|]. destruct (f64_of_Z_exact 1000000000) as [G1 G2]; [lia|].
  destruct (rounds_le _ _ _ (2 ^ 27) (1074 + 30) (f64_of_Z_rounds elapsed ltac:(lia))) as [E1 E2]; [lia|lia| |].
  { rewrite Z.pow_add_r by lia. change (2 ^ 1074) with U. revert HU. generalize U. intros u Hu.
    assert (elapsed * u <= 2 ^ 57 * u) by (apply Z.mul_le_mono_nonneg_r; lia). lia. }
  rewrite Z.pow_add_r in E2 by lia. change (2 ^ 1074) with U in E2.
  assert (HD := f64_div_rounds _ _ E1 G1 ltac:(rewrite G2; lia)). rewrite G2 in HD.
  destruct (rounds_le _ _ _ (2 ^ 28) 1074 HD) as [D1 D2]; [lia|lia| |].
  { change (2 ^ 1074) with U. revert E2 HU. generalize U, (fz (f64_of_Z elapsed)). intros u e E2 Hu.
    assert (e * u <= 2 ^ 57 * u * u) by (apply Z.mul_le_mono_nonneg_r; lia).
    assert (0 < u * u) by (by apply Z.mul_pos_pos). lia. }
  change (2 ^ 1074) with U in D2. pose proof (f64_mul_rounds _ _ R1 D1) as HM. fold x in HM. rewrite R2 in HM.
  destruct (rounds_le _ _ _ 1 (1074 + 61) HM) as [M1 M2]; [lia|lia| |].
  { rewrite Z.pow_add_r by lia. change (2 ^ 1074) with U. revert D2 HU.
    pose proof (fz_nonneg (f64_div (f64_of_Z elapsed) (f64_of_Z 1000000000))) as H0. revert H0.
    generalize U, (fz (f64_div (f64_of_Z elapsed) (f64_of_Z 1000000000))). intros u e H0 D2 Hu.
    assert (r * u * e <= 2 ^ 33 * u * (2 ^ 28 * u)) by (apply Z.mul_le_mono_nonneg; nia). lia. }
  rewrite Z.pow_add_r in M2 by lia. change (2 ^ 1074) with U in M2. split; [done|]. lia.
Qed.

Lemma wrap_i64_small z : - 2 ^ 63 <= z < 2 ^ 63 -> wrap_i64 z = z.
Proof. intros Hz. apply wrap_i64_id. int_lia. Qed.

(** A refill adds tokens up to the capacity and keeps at most one token's worth
    of fraction. *)
Lemma refill_ok now debt s :
  bucket_ok debt s -> 0 <= now <= max_clock ->
  bucket_ok debt (refill_state now s) /\ tokens s <= tokens (refill_state now s)
  /\ rate (refill_state now s) = rate s /\ capacity (refill_state now s) = capacity s.
Proof.
  intros Hs Hnow. pose proof Hs as [Hc Ht Hd Hf Hfl Hr Hl]. unfold refill_state. cbv zeta.
  destruct (Z.eqb_spec (sat_sub now (last_refill_nanos s)) 0) as [|Hne]; [split_and!; done || lia|].
  destruct (refill_amount (rate s) (sat_sub now (last_refill_nanos s)) Hr) as [A1 A2]; [unfold sat_sub; lia|].
  pose proof (f64_add_rounds _ _ Hf A1) as HA. pose proof U_pos as HU.
  set (x := f64_add (fractional_tokens s) _) in *.
  destruct (rounds_le _ _ _ 1 (1074 + 62) HA) as [X1 X2]; [lia|lia| |].
  { rewrite Z.pow_add_r by lia. change (2 ^ 1074) with U. lia. }
  rewrite Z.pow_add_r in X2 by lia. change (2 ^ 1074) with U in X2.
  destruct (f64_floor_isize_spec x X1 ltac:(lia)) as (F1 & F2 & F3). rewrite F1.
  pose proof (Z.div_mod (fz x) U ltac:(lia)) as Hdm. pose proof (Z.mod_pos_bound (fz x) U HU) as Hm.
  assert (Hq : fz x / U <= 2 ^ 62) by (apply Z.div_le_upper_bound; lia).
  assert (Hq0 : 0 <= fz x / U) by (apply Z.div_pos; [apply fz_nonneg|done]).
  set (q := fz x / U) in *. destruct (Z.ltb_spec 0 q) as [Hpos|Hz].
  - pose proof (f64_sub_rounds _ _ X1 F2 ltac:(lia)) as HS.
    destruct (rounds_le _ _ _ 1 1074 HS) as [S1 S2]; [lia|lia|change (2 ^ 1074) with U; lia|].
    change (1 * 2 ^ 1074) with U in S2. unfold max_bytes in *.
    rewrite !wrap_i64_small by lia.
    split_and!; simpl; try done; [constructor; simpl; try done; unfold max_bytes; lia|lia].
  - assert (q = 0) by lia. split_and!; simpl; try done.
    constructor; simpl; try done. rewrite Hdm. lia.
Qed.

Lemma wait_total deficit r :
  0 <= deficit <= 2 ^ 62 -> 0 < r <= max_rate ->
  exists w, from_secs_f64 (f64_div (f64_of_Z deficit) (f64_of_Z r)) = Some w /\ 0 <= w.
Proof.
  intros Hd Hr. unfold max_rate in Hr. pose proof U_pos as HU.
  destruct (f64_of_Z_exact r) as [R1 R2]; [lia|].
  destruct (rounds_le _ _ _ 1 (1074 + 62) (f64_of_Z_rounds deficit ltac:(lia))) as [D1 D2]; [lia|lia| |].
  { rewrite Z.pow_add_r by lia. change (2 ^ 1074) with U. revert HU. generalize U. intros u Hu.
    assert (deficit * u <= 2 ^ 62 * u) by (apply Z.mul_le_mono_nonneg_r; lia). lia. }
  assert (HQ := f64_div_rounds _ _ D1 R1 ltac:(rewrite R2; lia)). rewrite R2 in HQ.
  rewrite Z.pow_add_r in D2 by lia.
  destruct (rounds_le _ _ _ 1 (1074 + 62) HQ) as [Q1 Q2]; [lia|lia| |].
  { rewrite Z.pow_add_r by lia. change (2 ^ 1074) with U in *. revert D2 HU.
    generalize U, (fz (f64_of_Z deficit)). intros u e D2 Hu.
    assert (e * u <= u * 2 ^ 62 * u) by (apply Z.mul_le_mono_nonneg_r; lia).
    assert (0 < u * u) by (by apply Z.mul_pos_pos).
    assert (1 * (u * u) <= r * (u * u)) by (apply Z.mul_le_mono_nonneg_r; lia). lia. }
  rewrite Z.pow_add_r in Q2 by lia. change (2 ^ 1074) with U in Q2.
  destruct (from_secs_f64_le _ (2 ^ 62) Q1) as (w & Hw & Hw0 & _); [lia|int_lia|]. by exists w.
Qed.

Lemma wait_accurate deficit r w :
  0 <= deficit < 2 ^ 53 -> 0 < r <= max_rate ->
  from_secs_f64 (f64_div (f64_of_Z deficit) (f64_of_Z r)) = Some w ->
  deficit * nanos_per_sec * 2 ^ 52 <= r * (w + 1) * (2 ^ 52 + 1)
  /\ r * (w - 1) * 2 ^ 52 <= deficit * nanos_per_sec * (2 ^ 52 + 1).
Proof.
  intros Hd Hr Hw. unfold max_rate, nanos_per_sec in *. pose proof U_pos as HU.
  destruct (f64_of_Z_exact r) as [R1 R2]; [lia|]. destruct (f64_of_Z_exact deficit) as [D1 D2]; [lia|].
  assert (HQ := f64_div_rounds _ _ D1 R1 ltac:(rewrite R2; lia)). rewrite R2, D2 in HQ.
  assert (HB : deficit * U * U <= 1 * 2 ^ (1074 + 53) * (r * U)).
  { rewrite Z.pow_add_r by lia. change (2 ^ 1074) with U.
    revert HU. generalize U. intros u Hu. assert (0 < u * u) by (by apply Z.mul_pos_pos).
    assert (deficit * (u * u) <= 2 ^ 53 * (u * u)) by (apply Z.mul_le_mono_nonneg_r; lia).
    assert (1 * (u * u) <= r * (u * u)) by (apply Z.mul_le_mono_nonneg_r; lia). lia. }
  destruct (rounds_le _ _ _ 1 (1074 + 53) HQ) as [Q1 _]; [lia..|].
  destruct (rounds_near _ _ _ 1 (1074 + 53) HQ) as [E1 E2]; [lia..|].
  pose proof (from_secs_f64_near _ _ Q1 Hw) as [N1 N2].
  assert (HUbig : 2 ^ 200 <= U) by (change U with (2 ^ 1074); apply Z.pow_le_mono_r; lia).
  unfold nanos_per_sec in *. revert E1 E2 N1 N2 HU HUbig.
  generalize U, (fz (f64_div (f64_of_Z deficit) (f64_of_Z r))). intros u v E1 E2 N1 N2 Hu Hbig.
  (* cancel one factor [u] of the division's error bounds *)
  assert (E1' : v * r * 2 ^ 52 <= deficit * u * (2 ^ 52 + 1) + r * 2 ^ 52)
    by (apply (Zmult_le_reg_r _ _ u); lia).
  assert (E2' : deficit * u * 2 ^ 52 <= v * r * (2 ^ 52 + 1) + r * 2 ^ 52)
    by (apply (Zmult_le_reg_r _ _ u); lia).
  assert (M1 : v * 1000000000 * r <= (w * u + u) * r) by (apply Z.mul_le_mono_nonneg_r; lia).
  assert (M2 : (w * u - u) * r <= v * 1000000000 * r) by (apply Z.mul_le_mono_nonneg_r; lia).
  split.
  - apply Z.lt_succ_r, (Zmult_lt_reg_r _ _ u); lia.
  - apply Z.lt_succ_r, (Zmult_lt_reg_r _ _ u); lia.
Qed.

Lemma reserve_ok now bytes debt s :
  bucket_ok debt s -> 0 <= now <= max_clock -> 0 <= bytes -> debt + bytes <= max_bytes ->
  let s1 := refill_state now s in
  exists s' w, reserve now bytes s = Some (s', w) /\ bucket_ok (debt + bytes) s' /\ 0 <= w
    /\ tokens s' = tokens s1 - bytes
    /\ (bytes <= tokens s1 \/ rate s = 0 -> w = 0)
    /\ (tokens s1 < bytes -> 0 < rate s ->
        from_secs_f64 (f64_div (f64_of_Z (bytes - tokens s1)) (f64_of_Z (rate s))) = Some w).
Proof.
  intros Hs Hnow Hb Hd s1. destruct (refill_ok now debt s Hs Hnow) as (Hs' & _ & Hr & _).
  unfold reserve. fold s1 in Hs', Hr |- *. pose proof Hs' as [Bc Bt Bd Bf Bfl Br Bl].
  unfold max_bytes in *. rewrite (wrap_i64_small bytes), (wrap_i64_small (bytes - _)),
    (wrap_i64_small (tokens s1 - _)) by lia. rewrite Hr in *.
  assert (Hok : bucket_ok (debt + bytes) (mkBucket (capacity s1) (tokens s1 - bytes)
    (fractional_tokens s1) (rate s) (last_refill_nanos s1))).
  { constructor; simpl; try done; unfold max_bytes; lia. }
  destruct (Z.leb_spec bytes (tokens s1)); [|destruct (Z.eqb_spec (rate s) 0)];
    cbn [mbind option_bind].
  - eexists _, _. split; [done|]. split_and!; try done; lia.
  - eexists _, _. split; [done|]. split_and!; try done; lia.
  - destruct (wait_total (bytes - tokens s1) (rate s)) as (w & Hw & Hw0); [lia|lia|].
    rewrite Hw. cbn [mbind option_bind]. eexists _, _. split; [done|]. split_and!; try done; lia.
Qed.

Lemma reserved_nonneg os : Forall op_ok os -> 0 <= reserved os.
Proof.
  intros Hok. induction Hok as [|o os Ho _ IH]; unfold reserved in *; simpl; [lia|].
  destruct o; simpl in *; lia.
Qed.

Lemma run_ok os debt s :
  Forall op_ok os -> bucket_ok debt s -> debt + reserved os <= max_bytes ->
  exists s' ws, run s os = Some (s', ws) /\ bucket_ok (debt + reserved os) s' /\ Forall (Z.le 0) ws.
Proof.
  intros Hok. revert debt s. induction Hok as [|o os Ho Hos IH]; intros debt s Hs Hd.
  { exists s, []. change (reserved []) with 0. rewrite Z.add_0_r. split_and!; [done|done|constructor]. }
  change (reserved (o :: os)) with
    ((match o with Reserve _ bytes => bytes | SetRate _ => 0 end) + reserved os) in *.
  pose proof (reserved_nonneg os Hos). destruct o as [now bytes|r]; simpl in Ho; cbn [run].
  - destruct (reserve_ok now bytes debt s Hs) as (s1 & w & -> & Hs1 & Hw & _); [lia|lia|lia|].
    cbn [mbind option_bind]. destruct (IH _ s1 Hs1 ltac:(lia)) as (s2 & ws & -> & Hs2 & Hws).
    cbn [mbind option_bind]. exists s2, (w :: ws). rewrite Z.add_assoc. split_and!; [done|done|by constructor].
  - apply IH; [|lia]. destruct Hs. constructor; simpl; try done. unfold max_rate in *. lia.
Qed.

(** A full bucket: any capacity and rate in range, any start time. *)
Lemma new_ok c r now :
  0 <= c <= max_bytes -> 0 <= r <= max_rate -> 0 <= now <= max_clock ->
  bucket_ok 0 (new_with_time_source c r now).
Proof.
  intros Hc Hr Hn. pose proof U_pos. unfold new_with_time_source, max_bytes in *.
  rewrite wrap_i64_small by lia. constructor; simpl; unfold max_bytes; done || lia.
Qed.

(** ** Properties *)

(** The bucket never panics and never holds more than its capacity. Over any
    sequence of reservations and rate changes (rates up to 8 GB/s, four years of
    uptime, [2^61] bytes in total), every [reserve] returns a wait, the tokens
    never exceed the capacity, and the debt never exceeds the bytes reserved. *)
Lemma bucket_bounded (c r now : Z) (os : list op) :
  0 <= c <= max_bytes -> 0 <= r <= max_rate -> 0 <= now <= max_clock ->
  Forall op_ok os -> reserved os <= max_bytes ->
  exists s ws, run (new_with_time_source c r now) os = Some (s, ws)
    /\ - reserved os <= tokens s <= c /\ Forall (Z.le 0) ws.
Proof.
  intros Hc Hr Hn Hok Hres.
  assert (Hcap : forall os s s' ws, run s os = Some (s', ws) -> capacity s' = capacity s).
  { clear. induction os as [|[now bytes|r] os IH]; intros s s' ws Hrun; simpl in Hrun.
    - by simplify_eq.
    - apply bind_Some in Hrun as ([s1 w] & H1 & Hrun). apply bind_Some in Hrun as ([s2 ws2] & H2 & Hrun).
      simplify_eq. rewrite (IH _ _ _ H2). unfold reserve in H1. apply bind_Some in H1 as (w' & _ & H1).
      simplify_eq. simpl. unfold refill_state. by repeat case_match.
    - by rewrite (IH _ _ _ Hrun). }
  destruct (run_ok os 0 _ Hok (new_ok c r now Hc Hr Hn)) as (s & ws & Hrun & [_ Ht _ _ _ _ _] & Hws); [lia|].
  exists s, ws. rewrite (Hcap _ _ _ _ Hrun) in Ht. done.
Qed.

Lemma bucket_bounded_witness :
  Forall op_ok [Reserve 5 1500; SetRate 0; Reserve 1000000000 40]
  /\ exists s ws, run (new_with_time_source 1000 100000 0) [Reserve 5 1500; SetRate 0; Reserve 1000000000 40]
       = Some (s, ws) /\ - 1540 <= tokens s <= 1000 /\ Forall (Z.le 0) ws.
Proof.
  assert (H : Forall op_ok [Reserve 5 1500; SetRate 0; Reserve 1000000000 40])
    by (repeat constructor; unfold max_clock, max_rate, nanos_per_sec; lia).
  split; [exact H|].
  apply (bucket_bounded 1000 100000 0 [Reserve 5 1500; SetRate 0; Reserve 1000000000 40]);
    [unfold max_bytes; lia|unfold max_rate; lia|unfold max_clock, nanos_per_sec; lia|exact H|].
  vm_compute. discriminate.
Defined.

(** The wait [reserve] asks for. The tokens are deducted at once; there is no
    wait if they suffice (or no rate is set), and otherwise the wait is the time
    the deficit takes to refill at the current rate, correct to one nanosecond and
    one part in [2^52]. *)
Lemma reserve_wait_covers_deficit (now bytes debt : Z) (s : BucketState) :
  bucket_ok debt s -> 0 <= now <= max_clock -> 0 <= bytes -> debt + bytes <= max_bytes ->
  let t := tokens (refill_state now s) in
  exists s' w, reserve now bytes s = Some (s', w)
    /\ tokens s' = t - bytes
    /\ (bytes <= t \/ rate s = 0 -> w = 0)
    /\ (t < bytes -> 0 < rate s -> bytes - t < 2 ^ 53 ->
        (bytes - t) * nanos_per_sec * 2 ^ 52 <= rate s * (w + 1) * (2 ^ 52 + 1)
        /\ rate s * (w - 1) * 2 ^ 52 <= (bytes - t) * nanos_per_sec * (2 ^ 52 + 1)).
Proof.
  intros Hs Hnow Hb Hd t. destruct (reserve_ok now bytes debt s Hs Hnow Hb Hd)
    as (s' & w & Hr & _ & _ & Ht & H0 & Hw). exists s', w. split_and!; try done.
  intros H1 H2 H3. apply wait_accurate; [lia|pose proof (bo_rate _ _ Hs); lia|by apply Hw].
Qed.

Lemma reserve_wait_covers_deficit_witness :
  let s := new_with_time_source 1000 1024 0 in
  bucket_ok 0 s
  /\ exists s' w, reserve 0 2024 s = Some (s', w) /\ tokens s' = -1024
       /\ 1024 * nanos_per_sec * 2 ^ 52 <= 1024 * (w + 1) * (2 ^ 52 + 1).
Proof.
  intros s. assert (Hs : bucket_ok 0 s).
  { apply new_ok; [unfold max_bytes|unfold max_rate|unfold max_clock, nanos_per_sec]; lia. }
  split; [exact Hs|].
  destruct (reserve_wait_covers_deficit 0 2024 0 s Hs) as (s' & w & H1 & H2 & _ & H4);
    [unfold max_clock, nanos_per_sec; lia|lia|unfold max_bytes; lia|].
  exists s', w. split; [exact H1|]. split; [exact H2|]. apply H4; reflexivity.
Defined.

(** Elapsed time is credited more than once. While a refill yields no whole
    token, the fraction is added to the accumulator but the refill time is not
    advanced, so the next refill counts the same interval again. At 1024 bytes per
    second, 14 calls at 10 microsecond intervals credit a whole token after 140
    microseconds, when 0.143 tokens were due. *)
Example refill_counts_time_twice :
  let s0 := new_with_time_source 2000 1024 0 in
  let polls := map (fun k => Reserve (10000 * Z.of_nat k) 0) (seq 1 14) in
  match run s0 (Reserve 0 2000 :: polls) with
  | Some (s, _) => tokens s = 1 /\ rate s * 140000 < 1 * nanos_per_sec
  | None => False
  end.
Proof. vm_compute. done. Qed.

End TokenBucket.
