(* ===== verification/FairQueue.v ===== *)
(** * The priority-tiered fair queue of the contract executor

    Models [src/crates/core/src/contract/fair_queue.rs] and its caller
    [push_with_background_eviction] of [src/crates/core/src/contract.rs].

    The contract event loop is sequential; this queue decides which event it
    executes next and which events are refused.  [Module FairQueue] has the
    [PriorityTier] and [FairEventQueue] records with their methods.  The
    identities of contracts come from [freenet_stdlib] and are parameters of the
    section; [HashMap] is [gmap]; a [usize] count is a [nat] ([saturating_sub] is
    its subtraction); the process-global gauge that [publish] writes and the
    warnings it logs are explicit state ([World]). *)

From S2P Require Import Prelude.

Module FairQueue.

Definition MAX_QUEUED_PER_CONTRACT : nat := 100.
Definition MAX_TOTAL_FAIR_QUEUE : nat := Z.to_nat 5000.
Definition CLIENT_LOCAL_RESERVE : nat := Z.to_nat 256.
Definition MAX_DRAIN_BATCH : nat := Z.to_nat 256.
Definition RELAY_STARVATION_FLOOR : nat := 16.
Definition DEPTH_WARN_BANDS : list nat :=
  [(MAX_TOTAL_FAIR_QUEUE / 2)%nat; (MAX_TOTAL_FAIR_QUEUE * 9 / 10)%nat].

Inductive Priority := Background | NetworkRelay | ClientLocal.

#[export] Instance Priority_eq_dec : EqDecision Priority.
Proof. solve_decision. Defined.

Definition DEFAULT : Priority := NetworkRelay.

(** [priority as usize], which is also the derived order. *)
Definition priority_index (p : Priority) : nat :=
  match p with Background => 0 | NetworkRelay => 1 | ClientLocal => 2 end.

Definition priority_ltb (p p' : Priority) : bool := (priority_index p <? priority_index p')%nat.

Inductive RejectReason := GlobalCapacity | PerContract | Evicted.

#[export] Instance RejectReason_eq_dec : EqDecision RejectReason.
Proof. solve_decision. Defined.

Record FairQueueCounters := {
  high_water : nat;
  rejected_global_capacity : Z;
  rejected_per_contract : Z;
  background_shed : Z;
}.

Record FairQueueStats := {
  s_depth_total : nat;
  s_depth_client_local : nat;
  s_depth_network_relay : nat;
  s_depth_background : nat;
  s_high_water : nat;
  s_rejected_global_capacity : Z;
  s_rejected_per_contract : Z;
  s_background_shed : Z;
}.

(** The process-global gauge and the depth warnings logged so far. *)
Record World := { gauge : FairQueueStats; warned_bands : list nat }.

Section queue.
(** The key types of [freenet_stdlib] and the parts of an event the queue never
    looks at. *)
Context {ContractInstanceId : Type} `{Countable ContractInstanceId}.
Context {ContractKey : Type} (key_id : ContractKey -> ContractInstanceId).
Context {Args : Type}.

Inductive ContractHandlerEvent :=
  | DelegateRequest (a : Args)
  | DelegateResponse (a : Args)
  | ExportUserSecrets (a : Args)
  | ExportUserSecretsResponse (a : Args)
  | ImportSecrets (a : Args)
  | ImportSecretsResponse (a : Args)
  | PutQuery (key : ContractKey) (a : Args)
  | PutResponse (a : Args)
  | GetQuery (instance_id : ContractInstanceId) (a : Args)
  | GetResponse (a : Args)
  | UpdateQuery (key : ContractKey) (a : Args)
  | UpdateResponse (a : Args)
  | UpdateNoChange (key : ContractKey)
  | RegisterSubscriberListener (key : ContractInstanceId) (a : Args)
  | RegisterSubscriberListenerResponse (a : Args)
  | QuerySubscriptions (a : Args)
  | QuerySubscriptionsResponse
  | GetSummaryQuery (key : ContractKey)
  | GetSummaryResponse (key : ContractKey) (a : Args)
  | GetDeltaQuery (key : ContractKey) (a : Args)
  | GetDeltaResponse (key : ContractKey) (a : Args)
  | ClientDisconnect (a : Args)
  | EvictContract (key : ContractKey) (expected_generation : Z).

Definition extract_contract_id (event : ContractHandlerEvent) : option ContractInstanceId :=
  match event with
  | PutQuery key _ | UpdateQuery key _ | GetSummaryQuery key | GetDeltaQuery key _
  | EvictContract key _ => Some (key_id key)
  | GetQuery instance_id _ | RegisterSubscriberListener instance_id _ => Some instance_id
  | _ => None
  end.

Inductive QueueKey := Contract (cid : ContractInstanceId) | Default.

#[export] Instance QueueKey_eq_dec : EqDecision QueueKey.
Proof. solve_decision. Defined.

Definition EventId : Type := Z.
Definition QueuedItem : Type := EventId * ContractHandlerEvent * Priority.

Record RejectedEvent := Rejected {
  re_id : EventId;
  re_event : ContractHandlerEvent;
  re_priority : Priority;
  re_reason : RejectReason;
}.

(** The queue an item belongs to. *)
Definition item_key (i : QueuedItem) : QueueKey :=
  match extract_contract_id i.1.2 with Some cid => Contract cid | None => Default end.

(** ** A priority tier *)

Record PriorityTier := mkTier {
  contract_queues : gmap ContractInstanceId (list QueuedItem);
  default_queue : list QueuedItem;
  round_robin : list QueueKey;
  queued : nat;
}.

Definition empty_tier : PriorityTier := mkTier ∅ [] [] 0.

Definition len_for (event : ContractHandlerEvent) (t : PriorityTier) : nat :=
  match extract_contract_id event with
  | Some cid => match contract_queues t !! cid with Some q => length q | None => 0 end
  | None => length (default_queue t)
  end.

Definition tier_push (item : QueuedItem) (t : PriorityTier) : PriorityTier :=
  match extract_contract_id item.1.2 with
  | Some cid =>
      let queue := default [] (contract_queues t !! cid) in
      let rr := match queue with [] => round_robin t ++ [Contract cid] | _ => round_robin t end in
      mkTier (<[cid := queue ++ [item]]> (contract_queues t)) (default_queue t) rr (S (queued t))
  | None =>
      let rr := match default_queue t with [] => round_robin t ++ [Default] | _ => round_robin t end in
      mkTier (contract_queues t) (default_queue t ++ [item]) rr (S (queued t))
  end.

(** The [loop] of [PriorityTier::pop]; each iteration takes the front key. *)
Fixpoint tier_pop_loop (rr : list QueueKey) (cq : gmap ContractInstanceId (list QueuedItem))
    (dq : list QueuedItem) (n : nat) : PriorityTier * option QueuedItem :=
  match rr with
  | [] => (mkTier cq dq [] n, None)
  | Contract cid :: rest =>
      match cq !! cid with
      | Some (item :: queue) =>
          (match queue with
           | [] => mkTier (delete cid cq) dq rest (n - 1)
           | _ => mkTier (<[cid := queue]> cq) dq (rest ++ [Contract cid]) (n - 1)
           end, Some item)
      | Some [] => tier_pop_loop rest (delete cid cq) dq n
      | None => tier_pop_loop rest cq dq n
      end
  | Default :: rest =>
      match dq with
      | item :: dq' =>
          (mkTier cq dq' (match dq' with [] => rest | _ => rest ++ [Default] end) (n - 1), Some item)
      | [] => tier_pop_loop rest cq dq n
      end
  end.

Definition tier_pop (t : PriorityTier) : PriorityTier * option QueuedItem :=
  tier_pop_loop (round_robin t) (contract_queues t) (default_queue t) (queued t).

(** ** The queue *)

(** [tiers: [PriorityTier; 3]], indexed by priority. *)
Record FairEventQueue := mkQueue {
  tier_background : PriorityTier;
  tier_relay : PriorityTier;
  tier_client : PriorityTier;
  total_queued : nat;
  client_streak : nat;
  counters : FairQueueCounters;
}.

Definition tier (p : Priority) (q : FairEventQueue) : PriorityTier :=
  match p with
  | Background => tier_background q | NetworkRelay => tier_relay q | ClientLocal => tier_client q
  end.

Definition set_tier (p : Priority) (t : PriorityTier) (q : FairEventQueue) : FairEventQueue :=
  match p with
  | Background => mkQueue t (tier_relay q) (tier_client q) (total_queued q) (client_streak q) (counters q)
  | NetworkRelay => mkQueue (tier_background q) t (tier_client q) (total_queued q) (client_streak q) (counters q)
  | ClientLocal => mkQueue (tier_background q) (tier_relay q) t (total_queued q) (client_streak q) (counters q)
  end.

Definition set_total (n : nat) (q : FairEventQueue) : FairEventQueue :=
  mkQueue (tier_background q) (tier_relay q) (tier_client q) n (client_streak q) (counters q).
Definition set_streak (n : nat) (q : FairEventQueue) : FairEventQueue :=
  mkQueue (tier_background q) (tier_relay q) (tier_client q) (total_queued q) n (counters q).
Definition set_counters (c : FairQueueCounters) (q : FairEventQueue) : FairEventQueue :=
  mkQueue (tier_background q) (tier_relay q) (tier_client q) (total_queued q) (client_streak q) c.

Definition new : FairEventQueue :=
  mkQueue empty_tier empty_tier empty_tier 0 0 {| high_water := 0; rejected_global_capacity := 0;
    rejected_per_contract := 0; background_shed := 0 |}.

Definition stats (q : FairEventQueue) : FairQueueStats := {|
  s_depth_total := total_queued q;
  s_depth_client_local := queued (tier ClientLocal q);
  s_depth_network_relay := queued (tier NetworkRelay q);
  s_depth_background := queued (tier Background q);
  s_high_water := high_water (counters q);
  s_rejected_global_capacity := rejected_global_capacity (counters q);
  s_rejected_per_contract := rejected_per_contract (counters q);
  s_background_shed := background_shed (counters q);
|}.

(** [publish]: raise the high-water mark, mirror [stats] into the gauge (whose
    own high-water mark is a [fetch_max]), and log each band crossed. *)
Definition publish (q : FairEventQueue) (w : World) : FairEventQueue * World :=
  let previous_high_water := high_water (counters q) in
  let c := counters q in
  let q := set_counters {| high_water := Nat.max (high_water c) (total_queued q);
    rejected_global_capacity := rejected_global_capacity c;
    rejected_per_contract := rejected_per_contract c; background_shed := background_shed c |} q in
  let s := stats q in
  let g := {| s_depth_total := s_depth_total s;
    s_depth_client_local := s_depth_client_local s;
    s_depth_network_relay := s_depth_network_relay s;
    s_depth_background := s_depth_background s;
    s_high_water := Nat.max (s_high_water (gauge w)) (s_high_water s);
    s_rejected_global_capacity := s_rejected_global_capacity s;
    s_rejected_per_contract := s_rejected_per_contract s;
    s_background_shed := s_background_shed s |} in
  let crossed := filter (fun band => previous_high_water < band <= s_high_water s)%nat DEPTH_WARN_BANDS in
  (q, {| gauge := g; warned_bands := warned_bands w ++ crossed |}).

Definition record_terminal_rejection (reason : RejectReason) (q : FairEventQueue) (w : World)
    : FairEventQueue * World :=
  let c := counters q in
  match reason with
  | GlobalCapacity =>
      publish (set_counters {| high_water := high_water c;
        rejected_global_capacity := sat_add64 (rejected_global_capacity c) 1;
        rejected_per_contract := rejected_per_contract c; background_shed := background_shed c |} q) w
  | PerContract =>
      publish (set_counters {| high_water := high_water c;
        rejected_global_capacity := rejected_global_capacity c;
        rejected_per_contract := sat_add64 (rejected_per_contract c) 1;
        background_shed := background_shed c |} q) w
  | Evicted => (q, w)
  end.

(** [Ok(())] is [None]. *)
Definition try_push (id : EventId) (event : ContractHandlerEvent) (priority : Priority)
    (q : FairEventQueue) (w : World) : (FairEventQueue * World) * option RejectedEvent :=
  if (MAX_TOTAL_FAIR_QUEUE <=? total_queued q)%nat then
    ((q, w), Some (Rejected id event priority GlobalCapacity))
  else
    let soft_cap := (MAX_TOTAL_FAIR_QUEUE - CLIENT_LOCAL_RESERVE)%nat in
    if priority_ltb priority ClientLocal && (soft_cap <=? total_queued q)%nat then
      ((q, w), Some (Rejected id event priority GlobalCapacity))
    else if (MAX_QUEUED_PER_CONTRACT <=? len_for event (tier priority q))%nat then
      ((q, w), Some (Rejected id event priority PerContract))
    else
      let q := set_tier priority (tier_push (id, event, priority) (tier priority q)) q in
      let q := set_total (S (total_queued q)) q in
      (publish q w, None).

Fixpoint evict_loop (max : nat) (q : FairEventQueue) : FairEventQueue * list RejectedEvent :=
  match max with
  | O => (q, [])
  | S max' =>
      let '(t, popped) := tier_pop (tier Background q) in
      match popped with
      | Some (id, event, priority) =>
          let q := set_total (total_queued q - 1)%nat (set_tier Background t q) in
          let '(q, evicted) := evict_loop max' q in
          (q, Rejected id event priority Evicted :: evicted)
      | None => (set_tier Background t q, [])
      end
  end.

Definition evict_background (max : nat) (q : FairEventQueue) (w : World)
    : (FairEventQueue * World) * list RejectedEvent :=
  let '(q, evicted) := evict_loop max q in
  let c := counters q in
  let q := set_counters {| high_water := high_water c;
    rejected_global_capacity := rejected_global_capacity c;
    rejected_per_contract := rejected_per_contract c;
    background_shed := sat_add64 (background_shed c) (Z.of_nat (length evicted)) |} q in
  (publish q w, evicted).

Definition background_queued (q : FairEventQueue) : nat := queued (tier Background q).

(** The [for priority in order] loop of [pop]. *)
Fixpoint pop_loop (lower_nonempty : bool) (order : list Priority) (q : FairEventQueue) (w : World)
    : (FairEventQueue * World) * option (EventId * ContractHandlerEvent) :=
  match order with
  | [] => ((q, w), None)
  | priority :: order' =>
      let '(t, popped) := tier_pop (tier priority q) in
      let q := set_tier priority t q in
      match popped with
      | Some (id, event, _) =>
          let q := set_total (total_queued q - 1)%nat q in
          let q := set_streak (if bool_decide (priority = ClientLocal) && lower_nonempty
                               then S (client_streak q) else 0%nat) q in
          (publish q w, Some (id, event))
      | None => pop_loop lower_nonempty order' q w
      end
  end.

Definition client_nonempty (q : FairEventQueue) : bool := (0 <? queued (tier ClientLocal q))%nat.
Definition lower_nonempty (q : FairEventQueue) : bool :=
  (0 <? queued (tier NetworkRelay q))%nat || (0 <? queued (tier Background q))%nat.
Definition force_lower (q : FairEventQueue) : bool :=
  client_nonempty q && lower_nonempty q && (RELAY_STARVATION_FLOOR <=? client_streak q)%nat.

Definition pop_order (force : bool) : list Priority :=
  if force then [NetworkRelay; Background; ClientLocal] else [ClientLocal; NetworkRelay; Background].

Definition pop (q : FairEventQueue) (w : World)
    : (FairEventQueue * World) * option (EventId * ContractHandlerEvent) :=
  pop_loop (lower_nonempty q) (pop_order (force_lower q)) q w.

(** [push_with_background_eviction] of [contract.rs]: the queue-full responses it
    sends, in order ([send_queue_full_response]; an [EvictContract] among them is
    also recorded for a later retry, which is outside this queue). *)
Definition push_with_background_eviction (id : EventId) (event : ContractHandlerEvent)
    (priority : Priority) (q : FairEventQueue) (w : World)
    : (FairEventQueue * World) * list RejectedEvent :=
  let '((q, w), r) := try_push id event priority q w in
  match r with
  | None => ((q, w), [])
  | Some rejected =>
      if priority_ltb Background priority && bool_decide (re_reason rejected = GlobalCapacity)
         && (0 <? background_queued q)%nat
      then
        let '((q, w), evicted) := evict_background CLIENT_LOCAL_RESERVE q w in
        let '((q, w), r) := try_push (re_id rejected) (re_event rejected) (re_priority rejected) q w in
        match r with
        | None => ((q, w), evicted)
        | Some still_rejected =>
            (record_terminal_rejection (re_reason still_rejected) q w, evicted ++ [still_rejected])
        end
      else (record_terminal_rejection (re_reason rejected) q w, [rejected])
  end.

(** ** Tiers as families of FIFO queues *)

Definition queue_of (t : PriorityTier) (k : QueueKey) : list QueuedItem :=
  match k with
  | Contract cid => default [] (contract_queues t !! cid)
  | Default => default_queue t
  end.

Definition cq_items (m : gmap ContractInstanceId (list QueuedItem)) : list QueuedItem :=
  concat (map_to_list m).*2.

(** Everything a tier holds. *)
Definition tier_items (t : PriorityTier) : list QueuedItem :=
  default_queue t ++ cq_items (contract_queues t).

Record tier_wf (p : Priority) (t : PriorityTier) : Prop := {
  tw_nodup : NoDup (round_robin t);
  tw_rr : forall k, k ∈ round_robin t <-> queue_of t k <> [];
  tw_nonempty : map_Forall (fun _ l => l <> []) (contract_queues t);
  tw_items : forall k i, i ∈ queue_of t k -> item_key i = k /\ i.2 = p;
  tw_queued : queued t = length (tier_items t);
  tw_cap : forall k, (length (queue_of t k) <= MAX_QUEUED_PER_CONTRACT)%nat;
}.

Lemma cq_items_insert m cid l :
  cq_items (<[cid := l]> m) ≡ₚ l ++ cq_items (delete cid m).
Proof.
  unfold cq_items. rewrite <- insert_delete_eq.
  rewrite map_to_list_insert by apply lookup_delete_eq. done.
Qed.

Lemma cq_items_lookup m cid l : m !! cid = Some l -> cq_items m ≡ₚ l ++ cq_items (delete cid m).
Proof.
  intros Hl. rewrite <- cq_items_insert. by rewrite insert_id.
Qed.

Lemma tier_wf_empty p : tier_wf p empty_tier.
Proof.
  assert (Hq : forall k, queue_of empty_tier k = []) by (intros [cid|]; simpl; by rewrite ?lookup_empty).
  constructor; simpl.
  - constructor.
  - intros k. rewrite Hq. split; [intros ?%elem_of_nil|]; done.
  - apply map_Forall_empty.
  - intros k i. rewrite Hq. by intros ?%elem_of_nil.
  - unfold tier_items, cq_items. simpl. by rewrite map_to_list_empty.
  - intros k. rewrite Hq. simpl. lia.
Qed.

(** *** Enqueueing *)

Lemma tier_push_queue_of item t k :
  queue_of (tier_push item t) k
  = if decide (k = item_key item) then queue_of t k ++ [item] else queue_of t k.
Proof.
  unfold tier_push, item_key. destruct (extract_contract_id item.1.2) as [cid|].
  - destruct k as [cid'|]; cbn [queue_of contract_queues default_queue].
    + rewrite lookup_insert. repeat case_decide; simplify_eq; done.
    + by case_decide.
  - destruct k as [cid'|]; cbn [queue_of contract_queues default_queue]; by case_decide.
Qed.

Lemma tier_push_rr item t :
  round_robin (tier_push item t)
  = match queue_of t (item_key item) with
    | [] => round_robin t ++ [item_key item] | _ => round_robin t end.
Proof.
  unfold tier_push, item_key. destruct (extract_contract_id item.1.2) as [cid|]; simpl; done.
Qed.

Lemma tier_push_items item t : tier_items (tier_push item t) ≡ₚ item :: tier_items t.
Proof.
  unfold tier_push, tier_items. destruct (extract_contract_id item.1.2) as [cid|]; simpl.
  - rewrite cq_items_insert, <- app_assoc. destruct (contract_queues t !! cid) as [l|] eqn:E; simpl.
    + rewrite (cq_items_lookup _ _ _ E). solve_Permutation.
    + rewrite delete_id by done. solve_Permutation.
  - rewrite <- app_assoc. solve_Permutation.
Qed.

Lemma tier_push_queued item t : queued (tier_push item t) = S (queued t).
Proof. unfold tier_push. by destruct (extract_contract_id item.1.2). Qed.

Lemma tier_push_wf p item t :
  tier_wf p t -> item.2 = p -> (length (queue_of t (item_key item)) < MAX_QUEUED_PER_CONTRACT)%nat ->
  tier_wf p (tier_push item t).
Proof.
  intros [Hnd Hrr Hne Hit Hqd Hcap] Hp Hlen.
  pose proof (tier_push_queue_of item t) as Hqo. constructor.
  - rewrite tier_push_rr. pose proof (Hrr (item_key item)) as Hk.
    destruct (queue_of t (item_key item)); [|done].
    apply NoDup_app. split_and!; [done| |apply NoDup_singleton].
    intros x Hx ->%list_elem_of_singleton. by apply Hk in Hx.
  - intros k. rewrite tier_push_rr, Hqo. specialize (Hrr k).
    destruct (decide (k = item_key item)) as [->|Hk].
    + split; [intros _; apply snoc_not_nil|intros _].
      destruct (queue_of t (item_key item)); [apply elem_of_app; right; by left|].
      by apply Hrr.
    + destruct (queue_of t (item_key item)); [|done]. rewrite elem_of_app.
      rewrite list_elem_of_singleton. tauto.
  - unfold tier_push. destruct (extract_contract_id item.1.2) as [cid|]; simpl; [|done].
    apply map_Forall_insert_2; [|done]. apply snoc_not_nil.
  - intros k i. rewrite Hqo. case_decide as Hk; [|apply Hit].
    rewrite elem_of_app, list_elem_of_singleton. intros [Hi| ->]; [by apply Hit|done].
  - rewrite tier_push_queued, tier_push_items. simpl. by rewrite Hqd.
  - intros k. rewrite Hqo. case_decide as Hk; [|apply Hcap].
    subst k. rewrite length_app. simpl. lia.
Qed.

Lemma len_for_queue_of id event p t : len_for event t = length (queue_of t (item_key (id, event, p))).
Proof.
  unfold len_for, item_key. simpl. destruct (extract_contract_id event); [|done].
  simpl. by destruct (contract_queues t !! c).
Qed.

(** *** Dequeueing *)

(** [t'] is [t] with the head [item] of the queue at key [k] removed and [k]
    moved to the back of the round-robin order if it has more. *)
Record popped (t t' : PriorityTier) (k : QueueKey) (item : QueuedItem) : Prop := {
  po_queue : queue_of t k = item :: queue_of t' k;
  po_other : forall k', k' <> k -> queue_of t' k' = queue_of t k';
  po_rr : exists rest, round_robin t = k :: rest
    /\ round_robin t' = rest ++ match queue_of t' k with [] => [] | _ => [k] end;
  po_items : tier_items t ≡ₚ item :: tier_items t';
  po_queued : queued t = S (queued t');
}.

Lemma tier_pop_contract p t cid rest :
  tier_wf p t -> round_robin t = Contract cid :: rest ->
  exists t' item, tier_pop t = (t', Some item) /\ popped t t' (Contract cid) item
    /\ map_Forall (fun _ l => l <> []) (contract_queues t').
Proof.
  intros [Hnd Hrr Hne Hit Hqd Hcap] Hr. unfold tier_pop. rewrite Hr. simpl.
  assert (Hk : queue_of t (Contract cid) <> []) by (apply Hrr; rewrite Hr; by left). simpl in Hk.
  destruct (contract_queues t !! cid) as [[|item queue]|] eqn:E; [done| |done].
  assert (Hperm : tier_items t ≡ₚ item :: queue ++ default_queue t ++ cq_items (delete cid (contract_queues t))).
  { unfold tier_items. rewrite (cq_items_lookup _ _ _ E). solve_Permutation. }
  assert (Hq : queued t = S (queued t - 1)) by (rewrite Hqd, Hperm; simpl; lia).
  destruct queue as [|i2 queue]; eexists _, item; (split; [reflexivity|]); (split; [constructor|]); simpl.
  - by rewrite E, lookup_delete_eq.
  - intros [cid'|] Hne'; simpl; [|done]. rewrite lookup_delete_ne; [done|congruence].
  - exists rest. split; [done|]. by rewrite lookup_delete_eq, app_nil_r.
  - exact Hperm.
  - exact Hq.
  - by apply map_Forall_delete.
  - by rewrite E, lookup_insert_eq.
  - intros [cid'|] Hne'; simpl; [|done]. rewrite lookup_insert_ne; [done|congruence].
  - exists rest. split; [done|]. by rewrite lookup_insert_eq.
  - rewrite Hperm. unfold tier_items. simpl. rewrite cq_items_insert. solve_Permutation.
  - exact Hq.
  - by apply map_Forall_insert_2.
Qed.

Lemma tier_pop_default p t rest :
  tier_wf p t -> round_robin t = Default :: rest ->
  exists t' item, tier_pop t = (t', Some item) /\ popped t t' Default item
    /\ map_Forall (fun _ l => l <> []) (contract_queues t').
Proof.
  intros [Hnd Hrr Hne Hit Hqd Hcap] Hr. unfold tier_pop. rewrite Hr. simpl.
  assert (Hk : queue_of t Default <> []) by (apply Hrr; rewrite Hr; by left). simpl in Hk.
  destruct (default_queue t) as [|item dq] eqn:E; [done|].
  assert (Hq : queued t = S (queued t - 1)).
  { rewrite Hqd. unfold tier_items. rewrite E. simpl. lia. }
  eexists _, item. split; [reflexivity|]. split; [|done]. constructor; simpl.
  - done.
  - intros [cid'|] Hne'; simpl; done.
  - exists rest. split; [done|]. destruct dq; [by rewrite app_nil_r|done].
  - unfold tier_items. by rewrite E.
  - exact Hq.
Qed.

Lemma popped_wf p t t' k item :
  tier_wf p t -> popped t t' k item -> map_Forall (fun _ l => l <> []) (contract_queues t') ->
  tier_wf p t'.
Proof.
  intros [Hnd Hrr Hne Hit Hqd Hcap] [Hq Ho (rest & Hr & Hr') Hi Hqu] Hne'.
  rewrite Hr in Hnd. apply NoDup_cons in Hnd as [Hk Hnd].
  constructor; [| |done| | |].
  - rewrite Hr'. apply NoDup_app. split_and!; [done| |].
    + intros x Hx Hx'. destruct (queue_of t' k); [by apply elem_of_nil in Hx'|].
      apply list_elem_of_singleton in Hx' as ->. done.
    + destruct (queue_of t' k); [constructor|apply NoDup_singleton].
  - intros k'. rewrite Hr', elem_of_app. destruct (decide (k' = k)) as [->|Hkk].
    + destruct (queue_of t' k); rewrite ?elem_of_nil, ?list_elem_of_singleton; naive_solver.
    + rewrite (Ho k') by done. rewrite <- Hrr, Hr, elem_of_cons.
      destruct (queue_of t' k); rewrite ?elem_of_nil, ?list_elem_of_singleton; naive_solver.
  - intros k' i Hin. destruct (decide (k' = k)) as [->|Hkk].
    + apply Hit. rewrite Hq. by right.
    + rewrite Ho in Hin by done. by apply Hit.
  - rewrite Hi in Hqd. simpl in Hqd. lia.
  - intros k'. destruct (decide (k' = k)) as [->|Hkk]; [|rewrite Ho by done; apply Hcap].
    pose proof (Hcap k) as Hc. rewrite Hq in Hc. simpl in Hc. lia.
Qed.

(** [tier_pop] serves the front of the round-robin order, and fails only on an
    empty tier. *)
Lemma tier_pop_spec p t :
  tier_wf p t ->
  match round_robin t with
  | [] => tier_pop t = (t, None) /\ queued t = 0%nat
  | k :: _ => exists t' item, tier_pop t = (t', Some item) /\ popped t t' k item /\ tier_wf p t'
  end.
Proof.
  intros Hw. destruct (round_robin t) as [|[cid|] rest] eqn:E.
  - split.
    + unfold tier_pop. rewrite E. simpl. destruct t; simpl in *. by subst.
    + rewrite (tw_queued _ _ Hw). destruct Hw as [_ Hrr Hne _ _ _]. rewrite E in Hrr.
      assert (Hall : forall k, queue_of t k = []).
      { intros k. destruct (queue_of t k) eqn:Eq; [done|]. exfalso.
        assert (k ∈ ([] : list QueueKey)) as []%elem_of_nil. apply Hrr. by rewrite Eq. }
      assert (contract_queues t = ∅) as Hm.
      { apply map_empty. intros cid. destruct (contract_queues t !! cid) as [l|] eqn:El; [|done].
        pose proof (Hall (Contract cid)) as Hc. simpl in Hc. rewrite El in Hc. simpl in Hc. subst.
        by apply Hne in El. }
      unfold tier_items, cq_items. rewrite Hm, map_to_list_empty. pose proof (Hall Default) as Hd.
      simpl in Hd. by rewrite Hd.
  - destruct (tier_pop_contract p t cid rest Hw E) as (t' & item & H1 & H2 & H3).
    exists t', item. split_and!; [done|done|]. by eapply popped_wf.
  - destruct (tier_pop_default p t rest Hw E) as (t' & item & H1 & H2 & H3).
    exists t', item. split_and!; [done|done|]. by eapply popped_wf.
Qed.

(** ** Queue invariant *)

Definition soft_cap : nat := MAX_TOTAL_FAIR_QUEUE - CLIENT_LOCAL_RESERVE.
#[local] Opaque soft_cap MAX_TOTAL_FAIR_QUEUE CLIENT_LOCAL_RESERVE MAX_QUEUED_PER_CONTRACT.

Record wf (q : FairEventQueue) : Prop := {
  wf_tier : forall p, tier_wf p (tier p q);
  wf_total : total_queued q
    = (queued (tier_background q) + queued (tier_relay q) + queued (tier_client q))%nat;
  wf_hard : (total_queued q <= MAX_TOTAL_FAIR_QUEUE)%nat;
  wf_soft : (queued (tier_background q) + queued (tier_relay q) <= soft_cap)%nat;
  wf_streak : (client_streak q <= RELAY_STARVATION_FLOOR)%nat;
}.

Lemma queue_wf_new : wf new.
Proof. constructor; simpl; try lia. intros []; apply tier_wf_empty. Qed.

Lemma tier_empty_iff p t : tier_wf p t -> queued t = 0%nat <-> round_robin t = [].
Proof.
  intros Hw. pose proof (tier_pop_spec p t Hw) as Hs. destruct (round_robin t) eqn:E.
  - split; [done|]. by destruct Hs.
  - destruct Hs as (t' & item & _ & Hp & _). rewrite (po_queued _ _ _ _ Hp). done.
Qed.

(** Everything but the counters, which no decision depends on. *)
Definition same_queues (q q' : FairEventQueue) : Prop :=
  tier_background q = tier_background q' /\ tier_relay q = tier_relay q'
  /\ tier_client q = tier_client q' /\ total_queued q = total_queued q'
  /\ client_streak q = client_streak q'.

#[export] Instance same_queues_equiv : Equivalence same_queues.
Proof.
  split.
  - intros q. by repeat split.
  - intros q q' (?&?&?&?&?). by repeat split.
  - intros q1 q2 q3 (?&?&?&?&?) (?&?&?&?&?). repeat split; congruence.
Qed.

#[export] Instance tier_proper : Proper ((=) ==> same_queues ==> (=)) tier.
Proof. intros p ? <- q q' (?&?&?&?&?). by destruct p. Qed.

#[export] Instance client_streak_proper : Proper (same_queues ==> (=)) client_streak.
Proof. by intros q q' (?&?&?&?&?). Qed.

#[export] Instance total_queued_proper : Proper (same_queues ==> (=)) total_queued.
Proof. by intros q q' (?&?&?&?&?). Qed.

#[export] Instance set_tier_proper : Proper ((=) ==> (=) ==> same_queues ==> same_queues) set_tier.
Proof. intros p ? <- t ? <- q q' (?&?&?&?&?). destruct p; by repeat split. Qed.

#[export] Instance wf_proper : Proper (same_queues ==> iff) wf.
Proof.
  assert (Himpl : forall q q', same_queues q q' -> wf q -> wf q').
  { intros q q' Hs [Ht Hto Hh Hso Hst]. pose proof Hs as (H1 & H2 & H3 & H4 & H5).
    constructor; rewrite <- ?H1, <- ?H2, <- ?H3, <- ?H4, <- ?H5; auto.
    intros p. rewrite <- Hs. apply Ht. }
  intros q q' Hs. split; apply Himpl; [done|by symmetry].
Qed.

Lemma publish_same q w : same_queues (publish q w).1 q.
Proof. by repeat split. Qed.

Lemma set_counters_same c q : same_queues (set_counters c q) q.
Proof. by repeat split. Qed.

Lemma record_terminal_rejection_same r q w :
  same_queues (record_terminal_rejection r q w).1 q.
Proof. destruct r; by repeat split. Qed.

Lemma tier_set_tier_eq p t q : tier p (set_tier p t q) = t.
Proof. by destruct p. Qed.

Lemma tier_set_tier_ne p p' t q : p <> p' -> tier p (set_tier p' t q) = tier p q.
Proof. by destruct p, p'. Qed.

Lemma set_tier_id p q : set_tier p (tier p q) q = q.
Proof. by destruct p, q. Qed.

(** *** Enqueueing *)

(** The outcome of [try_push], case by case. *)
Lemma try_push_cases id event p q w :
  let '((q', w'), r) := try_push id event p q w in
  match r with
  | Some rej => q' = q /\ w' = w /\ re_id rej = id /\ re_event rej = event /\ re_priority rej = p
      /\ ((re_reason rej = GlobalCapacity
           /\ ((MAX_TOTAL_FAIR_QUEUE <= total_queued q)%nat
               \/ (p <> ClientLocal /\ (soft_cap <= total_queued q)%nat)))
          \/ (re_reason rej = PerContract
              /\ (MAX_QUEUED_PER_CONTRACT <= len_for event (tier p q))%nat
              /\ (total_queued q < MAX_TOTAL_FAIR_QUEUE)%nat
              /\ (p <> ClientLocal -> (total_queued q < soft_cap)%nat)))
  | None => (total_queued q < MAX_TOTAL_FAIR_QUEUE)%nat
      /\ (p <> ClientLocal -> (total_queued q < soft_cap)%nat)
      /\ (len_for event (tier p q) < MAX_QUEUED_PER_CONTRACT)%nat
      /\ same_queues q' (set_total (S (total_queued q))
                           (set_tier p (tier_push (id, event, p) (tier p q)) q))
  end.
Proof.
  unfold try_push. change (MAX_TOTAL_FAIR_QUEUE - CLIENT_LOCAL_RESERVE)%nat with soft_cap. cbv zeta.
  destruct (Nat.leb_spec MAX_TOTAL_FAIR_QUEUE (total_queued q)) as [Hm|Hm].
  { split_and!; [done..|]. left. split; [done|by left]. }
  assert (Hp : priority_ltb p ClientLocal = true <-> p <> ClientLocal) by (by destruct p).
  destruct (priority_ltb p ClientLocal && (soft_cap <=? total_queued q)%nat) eqn:E; cbv iota.
  - apply andb_true_iff in E as [E1%Hp E2%Nat.leb_le]. split_and!; [done..|]. left. split; [done|by right].
  - destruct (Nat.leb_spec MAX_QUEUED_PER_CONTRACT (len_for event (tier p q))) as [Hl|Hl].
    { split_and!; [done..|]. right. split_and!; [done..|].
      intros Hc%Hp. rewrite Hc in E. by apply Nat.leb_gt. }
    cbv iota. destruct (publish _ w) as [q' w'] eqn:Ep. split_and!; [done| |done|].
    + intros Hc%Hp. rewrite Hc in E. by apply Nat.leb_gt.
    + apply (f_equal fst) in Ep. simpl in Ep. subst q'. destruct p; by repeat split.
Qed.

Lemma wf_pushed id event p q :
  wf q -> (total_queued q < MAX_TOTAL_FAIR_QUEUE)%nat ->
  (p <> ClientLocal -> (total_queued q < soft_cap)%nat) ->
  (len_for event (tier p q) < MAX_QUEUED_PER_CONTRACT)%nat ->
  wf (set_total (S (total_queued q)) (set_tier p (tier_push (id, event, p) (tier p q)) q)).
Proof.
  intros [Ht Hto Hh Hso Hst] H1 H2 H3.
  assert (Hw : tier_wf p (tier_push (id, event, p) (tier p q))).
  { apply tier_push_wf; [apply Ht|done|]. by rewrite <- len_for_queue_of. }
  constructor.
  - intros p'. specialize (Ht p'). destruct p, p'; simpl in *; done.
  - destruct p; simpl; rewrite tier_push_queued; lia.
  - simpl. lia.
  - destruct p; simpl in *; rewrite ?tier_push_queued; try lia; specialize (H2 ltac:(done)); lia.
  - by destruct p.
Qed.

Lemma try_push_wf id event p q w : wf q -> wf (try_push id event p q w).1.1.
Proof.
  intros Hw. pose proof (try_push_cases id event p q w) as Hc.
  destruct (try_push id event p q w) as [[q' w'] [rej|]]; simpl.
  - by destruct Hc as [-> _].
  - destruct Hc as (H1 & H2 & H3 & ->). by apply wf_pushed.
Qed.

(** *** Dequeueing *)

(** The tier [pop] serves: the first non-empty one in its order. *)
Definition chosen (q : FairEventQueue) : option Priority :=
  list_find (fun p => 0 < queued (tier p q))%nat (pop_order (force_lower q)) ≫= fun e => Some e.2.

Lemma tier_pop_empty p q :
  wf q -> queued (tier p q) = 0%nat -> tier_pop (tier p q) = (tier p q, None).
Proof.
  intros Hw H0. pose proof (tier_pop_spec p _ (wf_tier q Hw p)) as Hs.
  apply (tier_empty_iff p) in H0; [|apply (wf_tier q Hw)]. rewrite H0 in Hs. by destruct Hs.
Qed.

Lemma tier_pop_nonempty p q :
  wf q -> (0 < queued (tier p q))%nat ->
  exists t' k id event, tier_pop (tier p q) = (t', Some (id, event, p))
    /\ popped (tier p q) t' k (id, event, p) /\ tier_wf p t'.
Proof.
  intros Hw H0. pose proof (wf_tier q Hw p) as Ht. pose proof (tier_pop_spec p _ Ht) as Hs.
  destruct (round_robin (tier p q)) as [|k rest] eqn:E.
  - apply (tier_empty_iff p) in E; [lia|done].
  - destruct Hs as (t' & [[id event] p'] & H1 & H2 & H3). exists t', k, id, event.
    assert (Hp : p' = p).
    { pose proof (tw_items _ _ Ht k (id, event, p')) as Hi. rewrite (po_queue _ _ _ _ H2) in Hi.
      by apply Hi; left. }
    by subst.
Qed.

Lemma pop_loop_spec ln order q w :
  wf q ->
  match list_find (fun p => 0 < queued (tier p q))%nat order with
  | None => pop_loop ln order q w = ((q, w), None)
  | Some (_, p) => exists t' k id event,
      popped (tier p q) t' k (id, event, p) /\ tier_wf p t'
      /\ pop_loop ln order q w
         = (publish (set_streak (if bool_decide (p = ClientLocal) && ln
                                 then S (client_streak q) else 0%nat)
                       (set_total (total_queued q - 1)%nat (set_tier p t' q))) w, Some (id, event))
  end.
Proof.
  intros Hw. induction order as [|p order IH]; [done|]. cbn [list_find pop_loop].
  destruct (decide _) as [Hp|Hp].
  - destruct (tier_pop_nonempty p q Hw Hp) as (t' & k & id & event & Heq & Hpo & Hwt).
    exists t', k, id, event. rewrite Heq. split_and!; try done. by destruct p.
  - rewrite (tier_pop_empty p q Hw) by lia. rewrite set_tier_id.
    by destruct (list_find _ order) as [[i p']|].
Qed.

Lemma pop_spec q w :
  wf q ->
  match chosen q with
  | None => pop q w = ((q, w), None) /\ total_queued q = 0%nat
  | Some p => exists t' k id event,
      popped (tier p q) t' k (id, event, p) /\ tier_wf p t'
      /\ pop q w
         = (publish (set_streak (if bool_decide (p = ClientLocal) && lower_nonempty q
                                 then S (client_streak q) else 0%nat)
                       (set_total (total_queued q - 1)%nat (set_tier p t' q))) w, Some (id, event))
  end.
Proof.
  intros Hw. unfold chosen, pop.
  pose proof (pop_loop_spec (lower_nonempty q) (pop_order (force_lower q)) q w Hw) as Hs.
  destruct (list_find _ _) as [[i p]|] eqn:E; simpl; [done|]. split; [done|].
  rewrite (wf_total q Hw). rewrite list_find_None in E. unfold pop_order in E.
  destruct (force_lower q); repeat (apply Forall_cons in E as [? E]); simpl in *; lia.
Qed.

Lemma chosen_Some q p : chosen q = Some p -> (0 < queued (tier p q))%nat.
Proof.
  unfold chosen. intros ([i p'] & Hf & [= <-])%bind_Some. by apply list_find_Some in Hf as (_ & Hf & _).
Qed.

Lemma lower_nonempty_spec q :
  lower_nonempty q = true <-> (0 < queued (tier_background q) + queued (tier_relay q))%nat.
Proof. unfold lower_nonempty, tier. rewrite orb_true_iff, !Nat.ltb_lt. lia. Qed.

(** While lower tiers wait, the client tier is served only below the floor. *)
Lemma chosen_client q :
  chosen q = Some ClientLocal -> lower_nonempty q = true ->
  (client_streak q < RELAY_STARVATION_FLOOR)%nat.
Proof.
  intros Hc Hl. destruct (force_lower q) eqn:E.
  - unfold chosen in Hc. rewrite E in Hc. apply lower_nonempty_spec in Hl. simpl in Hc.
    repeat (case_decide; simpl in *; try done). lia.
  - unfold force_lower in E. rewrite Hl in E. apply chosen_Some in Hc.
    unfold client_nonempty in E. rewrite (proj2 (Nat.ltb_lt _ _) Hc) in E. simpl in E.
    by apply Nat.leb_gt.
Qed.

Lemma wf_popped q p t' k item streak :
  wf q -> popped (tier p q) t' k item -> tier_wf p t' -> (streak <= RELAY_STARVATION_FLOOR)%nat ->
  wf (set_streak streak (set_total (total_queued q - 1)%nat (set_tier p t' q))).
Proof.
  intros [Ht Hto Hh Hso Hst] Hp Hw Hs. pose proof (po_queued _ _ _ _ Hp) as Hq. constructor.
  - intros p'. specialize (Ht p'). destruct p, p'; simpl in *; done.
  - destruct p; simpl in *; lia.
  - simpl. lia.
  - destruct p; simpl in *; lia.
  - done.
Qed.

Lemma pop_wf q w : wf q -> wf (pop q w).1.1.
Proof.
  intros Hw. pose proof (pop_spec q w Hw) as Hs. destruct (chosen q) as [p|] eqn:Ec.
  - destruct Hs as (t' & k & id & event & Hp & Hwt & ->). cbn [fst]. rewrite publish_same.
    apply (wf_popped q p t' k (id, event, p)); [done..|].
    destruct (bool_decide_reflect (p = ClientLocal)) as [->|]; cbn [andb]; [|lia].
    destruct (lower_nonempty q) eqn:El; [|lia]. pose proof (chosen_client q Ec El). lia.
  - by destruct Hs as [-> _].
Qed.

(** *** Eviction *)

Definition rejected_item (r : RejectedEvent) : QueuedItem := (re_id r, re_event r, re_priority r).

(** Evicting is popping the background tier up to [max] times. *)
Lemma evict_loop_spec max q :
  wf q ->
  let '(q', evicted) := evict_loop max q in
  wf q' /\ tier_relay q' = tier_relay q /\ tier_client q' = tier_client q
  /\ length evicted = Nat.min max (queued (tier_background q))
  /\ queued (tier_background q) = (length evicted + queued (tier_background q'))%nat
  /\ total_queued q = (length evicted + total_queued q')%nat
  /\ tier_items (tier_background q) ≡ₚ map rejected_item evicted ++ tier_items (tier_background q')
  /\ Forall (fun r => re_priority r = Background /\ re_reason r = Evicted) evicted
  /\ forall k, queue_of (tier_background q) k
       = filter (fun i => item_key i = k) (map rejected_item evicted) ++ queue_of (tier_background q') k.
Proof.
  revert q. induction max as [|max IH]; intros q Hw; [by split_and!|]. cbn [evict_loop].
  destruct (decide (queued (tier Background q) = 0%nat)) as [H0|H0].
  - rewrite (tier_pop_empty Background q Hw H0). rewrite set_tier_id.
    split_and!; try done. simpl in H0. by rewrite H0, Nat.min_0_r.
  - destruct (tier_pop_nonempty Background q Hw) as (t' & k & id & event & -> & Hp & Hwt); [lia|].
    cbv iota. assert (Hw' := wf_popped q Background t' k _ (client_streak q) Hw Hp Hwt (wf_streak q Hw)).
    specialize (IH _ Hw').
    change (set_streak _ (set_total ?n (set_tier ?p ?t ?q0))) with (set_total n (set_tier p t q0)) in IH.
    destruct (evict_loop max _) as [q' evicted] eqn:E.
    destruct IH as (I1 & I2 & I3 & I4 & I5 & I6 & I7 & I8 & I9). simpl in *.
    pose proof (po_queued _ _ _ _ Hp) as Hq. pose proof (wf_total q Hw) as Htot.
    assert (Hk : item_key (id, event, Background) = k).
    { apply (tw_items _ _ (wf_tier q Hw Background) k). simpl. rewrite (po_queue _ _ _ _ Hp). by left. }
    split_and!; try done; try lia.
    + rewrite Hq. simpl. by rewrite I4.
    + rewrite (po_items _ _ _ _ Hp), I7. done.
    + by constructor.
    + intros k'. rewrite filter_cons.
      change (item_key (id, event, Background))
        with (item_key (rejected_item (Rejected id event Background Evicted))) in Hk. rewrite Hk.
      destruct (decide (k' = k)) as [->|Hne].
      * rewrite decide_True by done. rewrite (po_queue _ _ _ _ Hp). simpl. by rewrite <- I9.
      * rewrite decide_False by congruence. rewrite <- (po_other _ _ _ _ Hp k' Hne). apply I9.
Qed.

Lemma evict_background_spec max q w :
  wf q ->
  exists q1, evict_loop max q = (q1, (evict_background max q w).2)
    /\ same_queues (evict_background max q w).1.1 q1.
Proof.
  intros Hw. unfold evict_background. destruct (evict_loop max q) as [q1 ev]. exists q1.
  split; [done|]. by repeat split.
Qed.

Lemma evict_background_wf max q w : wf q -> wf (evict_background max q w).1.1.
Proof.
  intros Hw. destruct (evict_background_spec max q w Hw) as (q1 & He & ->).
  pose proof (evict_loop_spec max q Hw) as Hs. rewrite He in Hs. by destruct Hs.
Qed.

(** ** Runs *)

Inductive op :=
  | OPush (id : EventId) (event : ContractHandlerEvent) (priority : Priority)
  | OPushEvict (id : EventId) (event : ContractHandlerEvent) (priority : Priority)
  | OEvict (max : nat)
  | OPop.

(** What the callers saw: the items admitted, and the events that came out again,
    served or evicted, in order. *)
Record Log := mkLog { admitted : list QueuedItem; departed : list (EventId * ContractHandlerEvent) }.

Definition log_admit (items : list QueuedItem) (l : Log) : Log := mkLog (admitted l ++ items) (departed l).
Definition log_depart (events : list (EventId * ContractHandlerEvent)) (l : Log) : Log :=
  mkLog (admitted l) (departed l ++ events).

Definition is_evicted (r : RejectedEvent) : bool := bool_decide (re_reason r = Evicted).

(** The log entries of a call that offered [item] and returned [rs]: evicted
    events left the queue, and [item] got in unless it is itself among [rs]. *)
Definition log_push (item : QueuedItem) (rs : list RejectedEvent) (l : Log) : Log :=
  log_admit (if forallb is_evicted rs then [item] else [])
    (log_depart (map (fun r => (re_id r, re_event r)) (List.filter is_evicted rs)) l).

Definition step (o : op) (s : FairEventQueue * World * Log) : FairEventQueue * World * Log :=
  let '((q, w), l) := s in
  match o with
  | OPush id event p =>
      let '(qw, r) := try_push id event p q w in (qw, log_push (id, event, p) (option_list r) l)
  | OPushEvict id event p =>
      let '(qw, rs) := push_with_background_eviction id event p q w in
      (qw, log_push (id, event, p) rs l)
  | OEvict max =>
      let '(qw, rs) := evict_background max q w in
      (qw, log_depart (map (fun r => (re_id r, re_event r)) rs) l)
  | OPop => let '(qw, r) := pop q w in (qw, log_depart (option_list r) l)
  end.

Definition run (os : list op) (s : FairEventQueue * World * Log) : FairEventQueue * World * Log :=
  fold_left (fun s o => step o s) os s.

Definition start (w : World) : FairEventQueue * World * Log := ((new, w), mkLog [] []).

(** ** The FIFO contract

    Per priority class and contract, what was admitted is what departed followed
    by what is still queued. *)
Definition in_class (p : Priority) (k : QueueKey) (i : QueuedItem) : Prop := i.2 = p /\ item_key i = k.

#[export] Instance in_class_dec p k i : Decision (in_class p k i).
Proof. unfold in_class. apply _. Defined.

Definition fifo (l : Log) (q : FairEventQueue) : Prop :=
  exists dep : list QueuedItem, dep.*1 = departed l
    /\ forall p k, filter (in_class p k) (admitted l)
         = filter (in_class p k) dep ++ queue_of (tier p q) k.

#[export] Instance fifo_proper : Proper ((=) ==> same_queues ==> iff) fifo.
Proof.
  intros l ? <- q q' Hs. unfold fifo.
  split; intros (dep & Hd & Hf); exists dep; (split; [done|]); intros p k; rewrite Hf; by rewrite Hs.
Qed.

Lemma fifo_admit id event p l q n :
  fifo l q ->
  fifo (log_admit [(id, event, p)] l)
    (set_total n (set_tier p (tier_push (id, event, p) (tier p q)) q)).
Proof.
  intros (dep & Hd & Hf). exists dep. split; [done|]. intros p' k. cbn [log_admit admitted].
  rewrite filter_app, Hf, <- app_assoc. f_equal.
  change (tier p' (set_total ?n ?q)) with (tier p' q).
  rewrite filter_cons, filter_nil. destruct (decide (p' = p)) as [->|Hp].
  - rewrite tier_set_tier_eq, tier_push_queue_of. unfold in_class. cbn [snd].
    destruct (decide (k = _)) as [->|Hk]; [by rewrite decide_True|].
    rewrite decide_False by naive_solver. by rewrite app_nil_r.
  - rewrite tier_set_tier_ne by done. unfold in_class. cbn [snd].
    rewrite decide_False by naive_solver. by rewrite app_nil_r.
Qed.

Lemma fifo_depart id event p k t' l q n s :
  wf q -> fifo l q -> popped (tier p q) t' k (id, event, p) ->
  fifo (log_depart [(id, event)] l) (set_streak s (set_total n (set_tier p t' q))).
Proof.
  intros Hw (dep & Hd & Hf) Hp. exists (dep ++ [(id, event, p)]). split.
  { cbn [log_depart departed]. by rewrite fmap_app, Hd. }
  assert (Hk : item_key (id, event, p) = k).
  { apply (tw_items _ _ (wf_tier q Hw p) k). rewrite (po_queue _ _ _ _ Hp). by left. }
  intros p' k'. cbn [log_depart admitted]. rewrite filter_app, Hf, <- app_assoc. f_equal.
  change (tier p' (set_streak ?s (set_total ?n ?q))) with (tier p' q).
  rewrite filter_cons, filter_nil.
  assert (Hc : in_class p' k' (id, event, p) <-> p' = p /\ k' = k) by (unfold in_class; naive_solver).
  destruct (decide (p' = p)) as [->|Hpp].
  - rewrite tier_set_tier_eq. destruct (decide (k' = k)) as [->|Hkk].
    + rewrite decide_True by (by apply Hc). by rewrite (po_queue _ _ _ _ Hp).
    + rewrite decide_False by naive_solver. by rewrite (po_other _ _ _ _ Hp k' Hkk).
  - rewrite tier_set_tier_ne by done. rewrite decide_False by naive_solver. done.
Qed.

Lemma fifo_evict max l q w :
  wf q -> fifo l q ->
  fifo (log_depart (map (fun r => (re_id r, re_event r)) (evict_background max q w).2) l)
    (evict_background max q w).1.1.
Proof.
  intros Hw (dep & Hd & Hf). destruct (evict_background_spec max q w Hw) as (q1 & He & ->).
  pose proof (evict_loop_spec max q Hw) as Hs. rewrite He in Hs.
  destruct Hs as (_ & Hr & Hc & _ & _ & _ & _ & Hb & Hq).
  set (ev := (evict_background max q w).2) in *. exists (dep ++ map rejected_item ev). split.
  { cbn [log_depart departed]. rewrite fmap_app, Hd. f_equal.
    generalize ev. intros l'. 
    induction l' as [|r l' IH]; [done|]. exact (f_equal (cons (re_id r, re_event r)) IH). }
  intros p k. cbn [log_depart admitted]. rewrite filter_app, Hf, <- app_assoc. f_equal.
  destruct (decide (p = Background)) as [->|Hp].
  - simpl. rewrite Hq. f_equal. apply filter_ext_in. intros i (r & -> & Hi)%list_elem_of_fmap.
    rewrite Forall_forall in Hb. unfold in_class. pose proof (Hb r Hi). naive_solver.
  - rewrite filter_none; [by destruct p; simpl; congruence|].
    intros i (r & -> & Hi)%list_elem_of_fmap. rewrite Forall_forall in Hb.
    pose proof (Hb r Hi). unfold in_class. simpl. naive_solver.
Qed.

(** [try_push] of a fresh item: admitted and appended, or rejected with the
    queue untouched. *)
Lemma fifo_try_push id event p l q w :
  fifo l q ->
  let r := try_push id event p q w in
  match r.2 with
  | Some rej => r.1 = (q, w) /\ rejected_item rej = (id, event, p) /\ is_evicted rej = false
  | None => fifo (log_admit [(id, event, p)] l) r.1.1
  end.
Proof.
  intros Hf. pose proof (try_push_cases id event p q w) as Hc.
  destruct (try_push id event p q w) as [[q' w'] [rej|]]; simpl.
  - destruct Hc as (-> & -> & <- & <- & <- & Hr). split_and!; [done..|].
    unfold is_evicted. apply bool_decide_eq_false. destruct Hr as [[-> _]|[-> _]]; done.
  - destruct Hc as (_ & _ & _ & ->). by apply fifo_admit.
Qed.

(** *** The drain loop's push *)

(** The three outcomes of [push_with_background_eviction]. *)
Lemma push_with_background_eviction_cases id event p q w :
  wf q ->
  let r1 := try_push id event p q w in
  let r := push_with_background_eviction id event p q w in
  match r1.2 with
  | None => r = (r1.1, [])
  | Some rej =>
      (r.2 = [rej] /\ same_queues r.1.1 q
       /\ (p <> Background -> (0 < background_queued q)%nat -> re_reason rej <> GlobalCapacity))
      \/ (p <> Background /\ re_reason rej = GlobalCapacity
          /\ exists w1, let e := evict_background CLIENT_LOCAL_RESERVE q w in
             let r2 := try_push id event p e.1.1 w1 in
             r.2 = e.2 ++ option_list r2.2 /\ same_queues r.1.1 r2.1.1)
  end.
Proof.
  intros Hw. pose proof (try_push_cases id event p q w) as Hc. unfold push_with_background_eviction.
  destruct (try_push id event p q w) as [[q' w'] [rej|]] eqn:E1; simpl; [|done].
  destruct Hc as (-> & -> & Hi & He & Hp & _).
  destruct (priority_ltb Background p && bool_decide (re_reason rej = GlobalCapacity)
            && (0 <? background_queued q)%nat) eqn:E.
  - right. apply andb_true_iff in E as [[E2 E3]%andb_true_iff _]. apply bool_decide_eq_true in E3.
    split; [by destruct p|]. split; [done|].
    destruct (evict_background _ q w) as [[q1 w1] ev] eqn:Ee. exists w1. simpl. rewrite Hi, He, Hp.
    destruct (try_push id event p q1 w1) as [[q2 w2] [rej2|]]; simpl.
    + split; [done|]. apply record_terminal_rejection_same.
    + by rewrite app_nil_r.
  - left. split; [done|]. split; [apply record_terminal_rejection_same|].
    intros Hb Hq Hr. rewrite (bool_decide_eq_true_2 _ Hr), (proj2 (Nat.ltb_lt _ _) Hq) in E.
    by destruct p.
Qed.

Lemma evicted_all_evicted max q w :
  wf q -> forallb is_evicted (evict_background max q w).2 = true
  /\ List.filter is_evicted (evict_background max q w).2 = (evict_background max q w).2.
Proof.
  intros Hw. destruct (evict_background_spec max q w Hw) as (q1 & He & _).
  pose proof (evict_loop_spec max q Hw) as Hs. rewrite He in Hs.
  destruct Hs as (_ & _ & _ & _ & _ & _ & _ & Hb & _). revert Hb. clear.
  generalize (evict_background max q w).2. intros ev. induction 1 as [|r ev [_ Hr] _ [IH1 IH2]]; [done|].
  simpl. unfold is_evicted at 1 3. rewrite bool_decide_eq_true_2 by done. by rewrite IH1, IH2.
Qed.

Lemma log_push_nil item l : log_push item [] l = log_admit [item] l.
Proof. unfold log_push, log_depart. simpl. by rewrite app_nil_r; destruct l. Qed.

Lemma log_push_rejected item rej l : is_evicted rej = false -> log_push item [rej] l = l.
Proof.
  intros Hr. unfold log_push, log_admit, log_depart. simpl. rewrite Hr. simpl.
  rewrite !app_nil_r. by destruct l.
Qed.

Lemma log_push_app item ev rs l :
  forallb is_evicted ev = true -> List.filter is_evicted ev = ev ->
  log_push item (ev ++ rs) l
  = log_push item rs (log_depart (map (fun r => (re_id r, re_event r)) ev) l).
Proof.
  intros H1 H2. unfold log_push, log_admit, log_depart. simpl.
  by rewrite forallb_app, H1, List.filter_app, H2, map_app, app_assoc.
Qed.

Lemma fifo_push_evict id event p l q w :
  wf q -> fifo l q ->
  let r := push_with_background_eviction id event p q w in
  wf r.1.1 /\ fifo (log_push (id, event, p) r.2 l) r.1.1.
Proof.
  intros Hw Hf. pose proof (push_with_background_eviction_cases id event p q w Hw) as Hc.
  pose proof (fifo_try_push id event p l q w Hf) as H1. pose proof (try_push_wf id event p q w Hw) as W1.
  simpl in *. destruct (try_push id event p q w).2 as [rej|].
  - destruct Hc as [(-> & Hs & _)|(_ & _ & w1 & -> & Hs)]; rewrite Hs.
    + rewrite log_push_rejected by apply H1. done.
    + destruct (evicted_all_evicted CLIENT_LOCAL_RESERVE q w Hw) as [E1 E2].
      split; [by apply try_push_wf, evict_background_wf|]. rewrite log_push_app by done.
      pose proof (fifo_try_push id event p _ _ w1 (fifo_evict CLIENT_LOCAL_RESERVE l q w Hw Hf)) as H2.
      simpl in H2. destruct (try_push id event p _ w1) as [[q2 w2] [rej2|]]; simpl in *.
      * destruct H2 as ([= -> ->] & _ & H2). rewrite log_push_rejected by done. by apply fifo_evict.
      * by rewrite log_push_nil.
  - rewrite Hc. split; [done|]. simpl. by rewrite log_push_nil.
Qed.

Lemma step_inv o s : wf s.1.1 /\ fifo s.2 s.1.1 -> wf (step o s).1.1 /\ fifo (step o s).2 (step o s).1.1.
Proof.
  destruct s as [[q w] l]. intros [Hw Hf]. simpl in *. destruct o as [id event p|id event p|max|].
  - pose proof (fifo_try_push id event p l q w Hf) as H1. pose proof (try_push_wf id event p q w Hw) as W1.
    simpl. destruct (try_push id event p q w) as [[q' w'] [rej|]]; simpl in *; (split; [done|]).
    + destruct H1 as ([= -> ->] & _ & Hr). by rewrite log_push_rejected.
    + by rewrite log_push_nil.
  - pose proof (fifo_push_evict id event p l q w Hw Hf) as Hp. simpl.
    by destruct (push_with_background_eviction id event p q w) as [[q' w'] rs].
  - pose proof (fifo_evict max l q w Hw Hf) as He. pose proof (evict_background_wf max q w Hw) as Hw'.
    simpl. by destruct (evict_background max q w) as [[q' w'] rs].
  - pose proof (pop_wf q w Hw) as Hw'. simpl. pose proof (pop_spec q w Hw) as Hs.
    destruct (pop q w) as [[q' w'] r]. simpl in *. split; [done|]. destruct (chosen q) as [p|].
    + destruct Hs as (t' & k & id & event & Hp & _ & Heq). injection Heq as Hq' _ ->.
      rewrite Hq', set_counters_same. by eapply fifo_depart.
    + destruct Hs as ([= -> -> ->] & _). simpl. unfold log_depart. rewrite app_nil_r. by destruct l.
Qed.

Lemma run_inv os s : wf s.1.1 /\ fifo s.2 s.1.1 -> wf (run os s).1.1 /\ fifo (run os s).2 (run os s).1.1.
Proof.
  revert s. induction os as [|o os IH]; intros s Hs; [done|]. apply IH. by apply step_inv.
Qed.

Lemma start_inv w : wf (start w).1.1 /\ fifo (start w).2 (start w).1.1.
Proof.
  split; [apply queue_wf_new|]. exists []. split; [done|]. intros [] []; simpl; by rewrite ?lookup_empty.
Qed.

Lemma reachable_wf os w : wf (run os (start w)).1.1.
Proof. apply run_inv, start_inv. Qed.

(** ** Fairness *)

(** Operations on one tier, as the queue performs them: an admitted push and a
    pop. *)
Inductive tier_op := TPush (id : EventId) (event : ContractHandlerEvent) | TPop.

(** The tier after a sequence of operations and the items served, in order. *)
Fixpoint tier_run (p : Priority) (os : list tier_op) (t : PriorityTier)
    : PriorityTier * list QueuedItem :=
  match os with
  | [] => (t, [])
  | TPush id event :: os' =>
      tier_run p os' (if (MAX_QUEUED_PER_CONTRACT <=? len_for event t)%nat then t
                      else tier_push (id, event, p) t)
  | TPop :: os' =>
      let '(t', r) := tier_pop t in
      let '(t'', served) := tier_run p os' t' in (t'', option_list r ++ served)
  end.

Lemma tier_run_serves p os t i k :
  tier_wf p t -> round_robin t !! i = Some k -> (i < length (tier_run p os t).2)%nat ->
  exists item, (tier_run p os t).2 !! i = Some item /\ item_key item = k.
Proof.
  revert t i. induction os as [|[id event|] os IH]; intros t i Hw Hi Hl; simpl in Hl; [lia| |].
  - cbn [tier_run]. destruct (Nat.leb_spec MAX_QUEUED_PER_CONTRACT (len_for event t)) as [Hc|Hc]; [by apply IH|].
    apply IH; [..|done].
    + apply tier_push_wf; [done..|]. by rewrite <- len_for_queue_of.
    + rewrite tier_push_rr. destruct (queue_of t _); [|done]. by apply lookup_app_l_Some.
  - cbn [tier_run]. pose proof (tier_pop_spec p t Hw) as Hs.
    destruct (round_robin t) as [|k0 rest] eqn:Er; [done|].
    destruct Hs as (t' & item & Hp & Hpo & Hw'). rewrite Hp in *.
    destruct (tier_run p os t') as [t'' served] eqn:E. simpl in *. destruct i as [|i].
    + simpl in Hi. injection Hi as ->. exists item. split; [done|].
      apply (tw_items _ _ Hw k). rewrite (po_queue _ _ _ _ Hpo). by left.
    + specialize (IH t' i Hw'). rewrite E in IH. simpl in *. apply IH; [|lia].
      destruct (po_rr _ _ _ _ Hpo) as (rest' & Hr & ->). rewrite Hr in Er. injection Er as ->.
      by apply lookup_app_l_Some.
Qed.

Definition lower_count (q : FairEventQueue) : nat :=
  (queued (tier Background q) + queued (tier NetworkRelay q))%nat.

Definition is_pop (o : op) : bool := match o with OPop => true | _ => false end.
Definition is_push (o : op) : bool := match o with OPush _ _ _ => true | _ => false end.

#[export] Instance lower_count_proper : Proper (same_queues ==> (=)) lower_count.
Proof. intros q q' Hs. unfold lower_count. by rewrite Hs. Qed.

Lemma push_keeps_waiting id event p q w :
  let q' := (try_push id event p q w).1.1 in
  (lower_count q <= lower_count q')%nat /\ client_streak q' = client_streak q.
Proof.
  pose proof (try_push_cases id event p q w) as Hc.
  destruct (try_push id event p q w) as [[q' w'] [rej|]]; simpl.
  - by destruct Hc as [-> _].
  - destruct Hc as (_ & _ & _ & ->).
    unfold lower_count. destruct p; simpl; rewrite ?tier_push_queued; lia.
Qed.

Lemma pop_client_or_lower q w :
  wf q -> (0 < lower_count q)%nat ->
  let q' := (pop q w).1.1 in
  (lower_count q' = lower_count q /\ client_streak q' = S (client_streak q))
  \/ lower_count q = S (lower_count q').
Proof.
  intros Hw Hl. pose proof (pop_spec q w Hw) as Hs. destruct (chosen q) as [p|] eqn:Ec.
  - destruct Hs as (t' & k & id & event & Hp & _ & ->). cbn [fst]. cbv zeta. rewrite publish_same.
    pose proof (po_queued _ _ _ _ Hp) as Hq. unfold lower_count in *.
    assert (Hln : lower_nonempty q = true) by (apply lower_nonempty_spec; done).
    destruct p; simpl in *; [right; lia|right; lia|left]. by rewrite Hln.
  - destruct Hs as [_ H0]. rewrite (wf_total q Hw) in H0. unfold lower_count, tier in Hl. lia.
Qed.

Lemma lower_served_eventually os s :
  wf s.1.1 -> (0 < lower_count s.1.1)%nat -> Forall (fun o => is_push o || is_pop o) os ->
  (RELAY_STARVATION_FLOOR < client_streak s.1.1 + length (List.filter is_pop os))%nat ->
  exists os1 os2, os = os1 ++ OPop :: os2
    /\ lower_count (run os1 s).1.1 = S (lower_count (step OPop (run os1 s)).1.1).
Proof.
  revert s. induction os as [|o os IH]; intros s Hw Hl Ho Hs.
  { pose proof (wf_streak _ Hw). simpl in Hs. lia. }
  apply Forall_cons in Ho as [Ho Hos]. destruct s as [[q w] l]. simpl in Hw, Hl, Hs.
  assert (Hgo : wf (step o ((q, w), l)).1.1 -> (0 < lower_count (step o ((q, w), l)).1.1)%nat ->
    (RELAY_STARVATION_FLOOR < client_streak (step o ((q, w), l)).1.1 + length (List.filter is_pop os))%nat ->
    exists os1 os2, o :: os = os1 ++ OPop :: os2
      /\ lower_count (run os1 ((q, w), l)).1.1 = S (lower_count (step OPop (run os1 ((q, w), l))).1.1)).
  { intros H1 H2 H3. destruct (IH _ H1 H2 Hos H3) as (os1 & os2 & -> & Heq). by exists (o :: os1), os2. }
  destruct o as [id event p|id event p|max|]; try done.
  - pose proof (push_keeps_waiting id event p q w) as [Hk1 Hk2].
    pose proof (try_push_wf id event p q w Hw) as Hw'. simpl in Hgo, Hs.
    destruct (try_push id event p q w) as [[q' w'] r]. simpl in *. apply Hgo; [done|lia|lia].
  - pose proof (pop_client_or_lower q w Hw Hl) as Hc. pose proof (pop_wf q w Hw) as Hw'.
    simpl in Hgo, Hs. destruct (pop q w) as [[q' w'] r] eqn:Ep. simpl in *. destruct Hc as [[H1 H2]|H1].
    + apply Hgo; [done|lia|lia].
    + exists [], os. simpl. rewrite Ep. done.
Qed.

(** ** The gauge *)

Definition init_world : World := {| gauge := {| s_depth_total := 0; s_depth_client_local := 0;
  s_depth_network_relay := 0; s_depth_background := 0; s_high_water := 0;
  s_rejected_global_capacity := 0; s_rejected_per_contract := 0; s_background_shed := 0 |};
  warned_bands := [] |}.

Definition bands_upto (n : nat) : list nat := filter (fun b => b <= n)%nat DEPTH_WARN_BANDS.

(** What [publish] needs of the state it is called in: the gauge's high-water mark
    is not ahead of the queue's, and the bands up to it have been logged. *)
Definition publishable (q : FairEventQueue) (w : World) : Prop :=
  (s_high_water (gauge w) <= high_water (counters q))%nat
  /\ warned_bands w = bands_upto (high_water (counters q)).

Definition published (q : FairEventQueue) (w : World) : Prop :=
  gauge w = stats q /\ warned_bands w = bands_upto (high_water (counters q))
  /\ (total_queued q <= high_water (counters q))%nat.

Lemma published_publishable q w : published q w -> publishable q w.
Proof. intros (Hg & Hb & _). split; [|done]. rewrite Hg. done. Qed.

Lemma publishable_high_water q q' w :
  high_water (counters q') = high_water (counters q) -> publishable q w -> publishable q' w.
Proof. unfold publishable. by intros ->. Qed.

Lemma bands_crossed m n :
  (m <= n)%nat ->
  bands_upto m ++ filter (fun b => m < b <= n)%nat DEPTH_WARN_BANDS = bands_upto n.
Proof.
  intros Hmn. unfold bands_upto. assert (Hb : exists a b, DEPTH_WARN_BANDS = [a; b] /\ (a <= b)%nat).
  { exists 2500%nat, 4500%nat. split; [vm_compute; reflexivity|lia]. }
  destruct Hb as (a & b & -> & Hab). rewrite !filter_cons, !filter_nil.
  repeat case_decide; try done; lia.
Qed.

Lemma publish_published q w : publishable q w -> published (publish q w).1 (publish q w).2.
Proof.
  intros [Hg Hb]. unfold published, publish, stats. simpl. split_and!; [|by rewrite Hb, bands_crossed by lia|lia].
  f_equal. lia.
Qed.

Lemma evict_loop_counters max q : counters (evict_loop max q).1 = counters q.
Proof.
  revert q. induction max as [|max IH]; intros q; [done|]. cbn [evict_loop].
  destruct (tier_pop _) as [t [[[id event] p]|]]; [|done].
  specialize (IH (set_total (total_queued q - 1) (set_tier Background t q))).
  destruct (evict_loop max _) as [q' ev]. done.
Qed.

Lemma evict_background_published max q w :
  publishable q w -> published (evict_background max q w).1.1 (evict_background max q w).1.2.
Proof.
  intros Hp. unfold evict_background. pose proof (evict_loop_counters max q) as Hc.
  destruct (evict_loop max q) as [q' ev]. simpl in Hc. apply publish_published.
  apply (publishable_high_water q); [simpl; by rewrite Hc|done].
Qed.

Lemma try_push_published id event p q w :
  published q w -> published (try_push id event p q w).1.1 (try_push id event p q w).1.2.
Proof.
  intros Hp. unfold try_push. cbv zeta. repeat (case_match; [done|]).
  apply publish_published, (publishable_high_water q); [by destruct p|by apply published_publishable].
Qed.

Lemma record_terminal_rejection_published r q w :
  published q w ->
  published (record_terminal_rejection r q w).1 (record_terminal_rejection r q w).2.
Proof.
  intros Hp. destruct r; [..|done];
    apply publish_published, (publishable_high_water q); try done; by apply published_publishable.
Qed.

Lemma push_with_background_eviction_published id event p q w :
  published q w ->
  published (push_with_background_eviction id event p q w).1.1
    (push_with_background_eviction id event p q w).1.2.
Proof.
  intros Hp. unfold push_with_background_eviction. pose proof (try_push_published id event p q w Hp) as H1.
  destruct (try_push id event p q w) as [[q1 w1] [rej|]]; [|done]. simpl in H1. case_match.
  - pose proof (evict_background_published CLIENT_LOCAL_RESERVE q1 w1 (published_publishable _ _ H1)) as H2.
    destruct (evict_background _ q1 w1) as [[q2 w2] ev]. simpl in H2.
    pose proof (try_push_published (re_id rej) (re_event rej) (re_priority rej) q2 w2 H2) as H3.
    destruct (try_push _ _ _ q2 w2) as [[q3 w3] [rej2|]]; [|done]. simpl in *.
    by apply record_terminal_rejection_published.
  - by apply record_terminal_rejection_published.
Qed.

Lemma step_published o s :
  wf s.1.1 -> published s.1.1 s.1.2 -> published (step o s).1.1 (step o s).1.2.
Proof.
  destruct s as [[q w] l]. simpl. intros Hw Hp. destruct o as [id event p|id event p|max|].
  - pose proof (try_push_published id event p q w Hp). by destruct (try_push id event p q w).
  - pose proof (push_with_background_eviction_published id event p q w Hp).
    by destruct (push_with_background_eviction id event p q w).
  - pose proof (evict_background_published max q w (published_publishable _ _ Hp)).
    by destruct (evict_background max q w).
  - pose proof (pop_spec q w Hw) as Hs. destruct (chosen q) as [p|].
    + destruct Hs as (t' & k & id & event & _ & _ & ->). apply publish_published.
      apply (publishable_high_water q); [by destruct p|by apply published_publishable].
    + by destruct Hs as [-> _].
Qed.

(** ** Properties *)

(** After any sequence of pushes, pops and evictions every tier is a set of
    FIFO queues indexed by its round-robin ring, the counters equal what is
    queued, at most 5000 events wait in total and at most 4744 of them below
    [ClientLocal], no contract has more than 100 in a tier, and the client streak
    never exceeds the starvation floor. *)
Lemma queue_invariant (w : World) (os : list op) :
  let q := (run os (start w)).1.1 in
  wf q
  /\ total_queued q = length (tier_items (tier Background q) ++ tier_items (tier NetworkRelay q)
                              ++ tier_items (tier ClientLocal q))
  /\ (total_queued q <= 5000)%nat /\ (lower_count q <= 4744)%nat
  /\ forall p k, (length (queue_of (tier p q) k) <= 100)%nat.
Proof.
  intros q. assert (Hw : wf q) by apply reachable_wf.
  assert (Hm : MAX_TOTAL_FAIR_QUEUE = 5000%nat) by (vm_compute; reflexivity).
  assert (Hs : soft_cap = 4744%nat) by (vm_compute; reflexivity).
  split_and!; [done| | | |].
  - pose proof (fun p => tw_queued p _ (wf_tier q Hw p)) as Hq.
    rewrite (wf_total q Hw), !length_app, <- !Hq. simpl. lia.
  - rewrite <- Hm. apply (wf_hard q Hw).
  - rewrite <- Hs. apply (wf_soft q Hw).
  - intros p k. apply (tw_cap _ _ (wf_tier q Hw p)).
Qed.

(** C4: the queue is a family of FIFO queues, one per priority class and contract.
    Over any run there is an assignment of priority classes to the events that
    came out (served or evicted) such that, for every class and contract, the
    events admitted are the events that came out followed by the ones still
    queued, in that order: nothing is lost, duplicated or reordered within a
    contract. *)
Theorem per_contract_fifo (w : World) (os : list op) :
  let '((q, _), l) := run os (start w) in
  exists dep : list QueuedItem, dep.*1 = departed l
    /\ forall p k, filter (in_class p k) (admitted l)
         = filter (in_class p k) dep ++ queue_of (tier p q) k.
Proof.
  pose proof (run_inv os (start w) (start_inv w)) as [_ Hf].
  by destruct (run os (start w)) as [[q w'] l].
Qed.

(** The class the next [pop] serves, as documented: the highest non-empty class,
    except that a waiting lower class goes first once the streak of client events
    has reached the floor. *)
Definition next_class (q : FairEventQueue) : option Priority :=
  let some_lower := if (0 <? queued (tier NetworkRelay q))%nat then Some NetworkRelay
                    else if (0 <? queued (tier Background q))%nat then Some Background else None in
  match some_lower with
  | None => if (0 <? queued (tier ClientLocal q))%nat then Some ClientLocal else None
  | Some lower => if (0 <? queued (tier ClientLocal q))%nat && (client_streak q <? RELAY_STARVATION_FLOOR)%nat
                  then Some ClientLocal else Some lower
  end.

Lemma chosen_next_class q : chosen q = next_class q.
Proof.
  unfold chosen, next_class, force_lower, client_nonempty, lower_nonempty, pop_order, tier.
  rewrite Nat.leb_antisym.
  destruct (Nat.ltb_spec 0 (queued (tier_client q))), (Nat.ltb_spec 0 (queued (tier_relay q))),
    (Nat.ltb_spec 0 (queued (tier_background q))), (client_streak q <? RELAY_STARVATION_FLOOR)%nat;
    simpl; repeat (case_decide; simpl); done || lia.
Qed.

(** [pop] is work-conserving and obeys the priority rule. On every reachable
    queue it returns nothing exactly when the queue is empty; otherwise it returns
    the oldest event of the contract at the front of the round-robin ring of the
    class [next_class] names, and removes that event only. *)
Lemma pop_serves_next_class (w w' : World) (os : list op) :
  let q := (run os (start w)).1.1 in
  let '((q', _), r) := pop q w' in
  match next_class q with
  | None => total_queued q = 0%nat /\ r = None /\ q' = q
  | Some p => exists k rest id event queue,
      round_robin (tier p q) = k :: rest
      /\ queue_of (tier p q) k = (id, event, p) :: queue
      /\ r = Some (id, event)
      /\ queue_of (tier p q') k = queue
      /\ round_robin (tier p q') = rest ++ (match queue with [] => [] | _ => [k] end)
      /\ total_queued q = S (total_queued q')
      /\ forall p' k', (p', k') <> (p, k) -> queue_of (tier p' q') k' = queue_of (tier p' q) k'
  end.
Proof.
  intros q. assert (Hw : wf q) by apply reachable_wf. rewrite <- chosen_next_class.
  pose proof (pop_spec q w' Hw) as Hs. destruct (chosen q) as [p|] eqn:Ec.
  - destruct Hs as (t' & k & id & event & Hp & _ & ->). destruct (publish _ w') as [q' w''] eqn:Eq.
    pose proof (publish_same (set_streak (if bool_decide (p = ClientLocal) && lower_nonempty q
      then S (client_streak q) else 0%nat) (set_total (total_queued q - 1) (set_tier p t' q))) w') as Hq.
    rewrite Eq in Hq. cbn [fst] in Hq. destruct (po_rr _ _ _ _ Hp) as (rest & Hr & Hr').
    assert (Ht : tier p q' = t') by (rewrite Hq; by destruct p).
    exists k, rest, id, event, (queue_of t' k). split_and!; try done.
    + apply (po_queue _ _ _ _ Hp).
    + by rewrite Ht.
    + by rewrite Ht.
    + rewrite Hq. simpl. pose proof (po_queued _ _ _ _ Hp). pose proof (wf_total q Hw).
      destruct p; simpl in *; lia.
    + intros p' k' Hne. destruct (decide (p' = p)) as [->|Hpp].
      * rewrite Ht. apply (po_other _ _ _ _ Hp). congruence.
      * rewrite Hq. change (tier p' (set_streak ?s (set_total ?n ?q0))) with (tier p' q0).
        by rewrite tier_set_tier_ne.
  - destruct Hs as [-> H0]. done.
Qed.

(** C29: no starvation across classes. From any reachable queue with an event
    waiting below [ClientLocal], any sequence of further pushes and pops with more
    than 16 pops serves a lower-class event at one of them, however much client
    work keeps arriving. *)
Theorem lower_class_not_starved (w : World) (os0 os : list op) :
  let s := run os0 (start w) in
  (0 < lower_count s.1.1)%nat ->
  Forall (fun o => is_push o || is_pop o) os ->
  (RELAY_STARVATION_FLOOR < length (List.filter is_pop os))%nat ->
  exists os1 os2, os = os1 ++ OPop :: os2
    /\ lower_count (run os1 s).1.1 = S (lower_count (step OPop (run os1 s)).1.1).
Proof.
  intros s Hl Ho Hn. apply lower_served_eventually; [apply reachable_wf|done|done|lia].
Qed.

(** No starvation within a class. If a contract is at position [i] of a
    tier's round-robin ring, the event the tier serves after [i] others is that
    contract's, whatever is pushed meanwhile. *)
Theorem round_robin_fair (w : World) (os : list op) (p : Priority) (i : nat) (k : QueueKey)
    (ts : list tier_op) :
  let t := tier p (run os (start w)).1.1 in
  round_robin t !! i = Some k ->
  (i < length (tier_run p ts t).2)%nat ->
  exists item, (tier_run p ts t).2 !! i = Some item /\ item_key item = k.
Proof. intros t. apply tier_run_serves. apply (wf_tier _ (reachable_wf os w)). Qed.

(** The reserve. With fewer than 256 client events queued, a [ClientLocal]
    push is never refused for global capacity, however much relay and background
    work is queued: it is admitted unless its own contract's queue is full. *)
Lemma client_reserve_guaranteed (w w' : World) (os : list op) (id : EventId)
    (event : ContractHandlerEvent) :
  let q := (run os (start w)).1.1 in
  (queued (tier ClientLocal q) < CLIENT_LOCAL_RESERVE)%nat ->
  match (try_push id event ClientLocal q w').2 with
  | None => (len_for event (tier ClientLocal q) < MAX_QUEUED_PER_CONTRACT)%nat
  | Some rej => re_reason rej = PerContract
      /\ len_for event (tier ClientLocal q) = MAX_QUEUED_PER_CONTRACT
  end.
Proof.
  intros q Hc. assert (Hw : wf q) by apply reachable_wf.
  pose proof (try_push_cases id event ClientLocal q w') as Ht.
  destruct (try_push id event ClientLocal q w') as [[q' w''] [rej|]]; simpl.
  - destruct Ht as (_ & _ & _ & _ & _ & [[_ [Hm|[? _]]]|(Hr & Hl & _)]); [|done|].
    + pose proof (wf_soft q Hw). pose proof (wf_total q Hw). simpl in Hc.
      assert (MAX_TOTAL_FAIR_QUEUE = soft_cap + CLIENT_LOCAL_RESERVE)%nat by (vm_compute; reflexivity). lia.
    + split; [done|]. apply Nat.le_antisymm; [|done].
      rewrite (len_for_queue_of id event ClientLocal). apply (tw_cap _ _ (wf_tier q Hw ClientLocal)).
  - apply Ht.
Qed.

Definition refused_for_capacity (rs : list RejectedEvent) : Prop :=
  exists rej, rej ∈ rs /\ re_reason rej = GlobalCapacity.

Lemma try_push_global id event p q w :
  refused_for_capacity (option_list (try_push id event p q w).2)
  <-> (MAX_TOTAL_FAIR_QUEUE <= total_queued q)%nat
      \/ (p <> ClientLocal /\ (soft_cap <= total_queued q)%nat).
Proof.
  pose proof (try_push_cases id event p q w) as Ht. unfold refused_for_capacity.
  destruct (try_push id event p q w) as [[q' w'] [rej|]]; simpl.
  - destruct Ht as (_ & _ & _ & _ & _ & Hr). split.
    + intros (r & ->%list_elem_of_singleton & Hg). destruct Hr as [[_ ?]|[? _]]; [done|congruence].
    + intros Hg. exists rej. split; [by left|]. destruct Hr as [[? _]|(_ & _ & H1 & H2)]; [done|].
      exfalso. destruct Hg as [?|[Hp ?]]; [lia|]. specialize (H2 Hp). lia.
  - destruct Ht as (H1 & H2 & _). split; [by intros (r & []%elem_of_nil & _)|].
    intros [?|[Hp ?]]; [lia|]. specialize (H2 Hp). lia.
Qed.

Lemma evict_background_facts max q w :
  wf q ->
  let e := evict_background max q w in
  length e.2 = Nat.min max (background_queued q)
  /\ total_queued q = (length e.2 + total_queued e.1.1)%nat
  /\ Forall (fun r => re_priority r = Background /\ re_reason r = Evicted) e.2.
Proof.
  intros Hw e. destruct (evict_background_spec max q w Hw) as (q1 & He & Hq).
  pose proof (evict_loop_spec max q Hw) as Hs. rewrite He in Hs.
  destruct Hs as (_ & _ & _ & H1 & _ & H2 & _ & H3 & _). split_and!; [done| |done].
  unfold e. by rewrite Hq.
Qed.

Lemma refused_for_capacity_app rs1 rs2 :
  Forall (fun r => re_priority r = Background /\ re_reason r = Evicted) rs1 ->
  refused_for_capacity (rs1 ++ rs2) <-> refused_for_capacity rs2.
Proof.
  intros Hf. unfold refused_for_capacity. rewrite Forall_forall in Hf. split.
  - intros (r & [Hr|Hr]%elem_of_app & Hg); [|eauto]. destruct (Hf r Hr). congruence.
  - intros (r & Hr & Hg). exists r. split; [|done]. apply elem_of_app. by right.
Qed.

Lemma try_push_not_evicted id event p q w :
  Forall (fun r => is_evicted r = false) (option_list (try_push id event p q w).2).
Proof.
  pose proof (try_push_cases id event p q w) as Ht.
  destruct (try_push id event p q w) as [[q' w'] [rej|]]; simpl; [|constructor].
  constructor; [|constructor]. unfold is_evicted. apply bool_decide_eq_false.
  destruct Ht as (_ & _ & _ & _ & _ & [[-> _]|[-> _]]); done.
Qed.

Lemma filter_not_evicted rs :
  Forall (fun r => is_evicted r = false) rs -> List.filter is_evicted rs = [].
Proof. induction 1 as [|r rs Hr _ IH]; simpl; [done|]. by rewrite Hr. Qed.

(** Shedding makes room. When the drain loop pushes a foreground event while
    background work is queued, it sheds at most 256 events, all of them
    [Background]; a client event is then never refused for capacity, and a relay
    event only if the queue is still at the soft cap after shedding. *)
Lemma eviction_makes_room (w w' : World) (os : list op) (id : EventId)
    (event : ContractHandlerEvent) (p : Priority) :
  let q := (run os (start w)).1.1 in
  p <> Background -> (0 < background_queued q)%nat ->
  let rs := (push_with_background_eviction id event p q w').2 in
  (refused_for_capacity rs
   <-> p = NetworkRelay
       /\ (soft_cap <= total_queued q - Nat.min CLIENT_LOCAL_RESERVE (background_queued q))%nat)
  /\ (length (List.filter is_evicted rs) <= CLIENT_LOCAL_RESERVE)%nat
  /\ Forall (fun r => is_evicted r -> re_priority r = Background) rs.
Proof.
  intros q Hp Hb rs. assert (Hw : wf q) by apply reachable_wf.
  pose proof (push_with_background_eviction_cases id event p q w' Hw) as Hc. simpl in Hc. fold rs in Hc.
  pose proof (try_push_global id event p q w') as Hg. pose proof (try_push_not_evicted id event p q w') as Hn.
  assert (Hpc : p <> ClientLocal <-> p = NetworkRelay) by (by destruct p). rewrite Hpc in Hg.
  destruct (try_push id event p q w').2 as [rej|].
  - destruct Hc as [(Hrs & _ & Hr)|(_ & _ & w1 & Hrs & _)].
    + rewrite Hrs. simpl in Hg, Hn. rewrite (filter_not_evicted [rej] Hn). split_and!; [|simpl; lia|].
      * split; [intros (r & ->%list_elem_of_singleton & Hgc); by destruct (Hr Hp Hb)|].
        intros [H1 H2]. apply Hg. right. split; [done|lia].
      * apply (Forall_impl _ _ _ Hn). intros r Hf Ht. by rewrite Hf in Ht.
    + destruct (evict_background_facts CLIENT_LOCAL_RESERVE q w' Hw) as (F1 & F2 & F3).
      destruct (evicted_all_evicted CLIENT_LOCAL_RESERVE q w' Hw) as [_ E2].
      set (e := evict_background CLIENT_LOCAL_RESERVE q w') in *.
      pose proof (try_push_global id event p e.1.1 w1) as Hg2.
      pose proof (try_push_not_evicted id event p e.1.1 w1) as Hn2.
      rewrite Hrs, refused_for_capacity_app, Hg2, Hpc by done. split_and!.
      * rewrite <- F1. pose proof (wf_hard q Hw). assert (0 < CLIENT_LOCAL_RESERVE)%nat by (vm_compute; lia).
        rewrite F1 in F2 |- *. split; [intros [?|?]; [lia|]|right]; intuition lia.
      * rewrite List.filter_app, E2, (filter_not_evicted _ Hn2), app_nil_r, F1. lia.
      * apply Forall_app. split; [apply (Forall_impl _ _ _ F3); by intros r [? _]|].
        apply (Forall_impl _ _ _ Hn2). intros r Hf Ht. by rewrite Hf in Ht.
  - apply (f_equal snd) in Hc. simpl in Hc. fold rs in Hc. rewrite Hc. split_and!; [|simpl; lia|constructor].
    split; [by intros (r & []%elem_of_nil & _)|]. intros [H1 H2].
    destruct (proj2 Hg) as (r & []%elem_of_nil & _). right. split; [done|lia].
Qed.

(** The gauge mirrors the queue. Starting from a zeroed gauge, after every run
    the process-global gauge equals [stats] of the queue, the high-water mark is at
    least the current depth, and each depth-warning band has been logged once if
    the high-water mark reached it and not at all otherwise. *)
Lemma gauge_mirrors_stats (os : list op) :
  let '((q, w), _) := run os (start init_world) in
  gauge w = stats q
  /\ warned_bands w = filter (fun b => b <= s_high_water (stats q))%nat DEPTH_WARN_BANDS
  /\ (s_depth_total (stats q) <= s_high_water (stats q))%nat.
Proof.
  assert (Hind : forall os s, wf s.1.1 /\ fifo s.2 s.1.1 -> published s.1.1 s.1.2 ->
    published (run os s).1.1 (run os s).1.2).
  { clear os. induction os as [|o os IH]; intros s Hs Hp; [done|].
    apply IH; [by apply step_inv|]. apply step_published; [apply Hs|done]. }
  specialize (Hind os (start init_world) (start_inv _)).
  destruct (run os (start init_world)) as [[q w] l]. apply Hind. done.
Qed.

End queue.

(** ** Witnesses

    Contracts named by integers, with no other event data. *)

Definition get (cid : Z) : @ContractHandlerEvent Z Z unit := GetQuery cid tt.
Definition put (key : Z) : @ContractHandlerEvent Z Z unit := PutQuery key tt.

(** Two relay events and three client events of two contracts. *)
Definition sample : list (@op Z Z unit) :=
  [OPush 1 (get 7) NetworkRelay; OPush 2 (put 8) NetworkRelay; OPush 3 (get 7) ClientLocal;
   OPush 4 (get 8) ClientLocal; OPush 5 (put 8) ClientLocal].

Lemma lower_class_not_starved_witness :
  (0 < lower_count (run id sample (start init_world)).1.1)%nat
  /\ exists os1 os2, repeat OPop 17 = os1 ++ OPop :: os2
     /\ lower_count (run id os1 (run id sample (start init_world))).1.1
        = S (lower_count (step id OPop (run id os1 (run id sample (start init_world)))).1.1).
Proof.
  assert (Hl : (0 < lower_count (run id sample (start init_world)).1.1)%nat) by (vm_compute; lia).
  split; [exact Hl|]. apply (lower_class_not_starved id init_world sample (repeat OPop 17)).
  - exact Hl.
  - by repeat constructor.
  - vm_compute. lia.
Defined.

Lemma round_robin_fair_witness :
  let t := tier ClientLocal (run id sample (start init_world)).1.1 in
  round_robin t !! 1%nat = Some (Contract 8)
  /\ exists item, (tier_run id ClientLocal [TPush 9 (get 7); TPop; TPop] t).2 !! 1%nat = Some item
     /\ item_key id item = Contract 8.
Proof.
  assert (Hr : round_robin (tier ClientLocal (run id sample (start init_world)).1.1) !! 1%nat
               = Some (Contract 8)) by (vm_compute; reflexivity).
  split; [exact Hr|].
  apply (round_robin_fair id init_world sample ClientLocal 1 (Contract 8) [TPush 9 (get 7); TPop; TPop]).
  - exact Hr.
  - vm_compute. lia.
Defined.

Lemma client_reserve_guaranteed_witness :
  let q := (run id sample (start init_world)).1.1 in
  (queued (tier ClientLocal q) < CLIENT_LOCAL_RESERVE)%nat
  /\ match (try_push id 9 (get 7) ClientLocal q init_world).2 with
     | None => (len_for id (get 7) (tier ClientLocal q) < MAX_QUEUED_PER_CONTRACT)%nat
     | Some rej => re_reason rej = PerContract
         /\ len_for id (get 7) (tier ClientLocal q) = MAX_QUEUED_PER_CONTRACT
     end.
Proof.
  assert (Hq : (queued (tier ClientLocal (run id sample (start init_world)).1.1)
                < CLIENT_LOCAL_RESERVE)%nat) by (vm_compute; lia).
  split; [exact Hq|]. exact (client_reserve_guaranteed id init_world init_world sample 9 (get 7) Hq).
Defined.

(** One background event of contract 5 on top of [sample]. *)
Definition sample_bg : list (@op Z Z unit) := sample ++ [OPush 6 (get 5) Background].

Lemma eviction_makes_room_witness :
  let q := (run id sample_bg (start init_world)).1.1 in
  (0 < background_queued q)%nat
  /\ ~ refused_for_capacity (push_with_background_eviction id 9 (get 7) ClientLocal q init_world).2.
Proof.
  assert (Hb : (0 < background_queued (run id sample_bg (start init_world)).1.1)%nat) by (vm_compute; lia).
  split; [exact Hb|]. intros Hr.
  apply (eviction_makes_room id init_world init_world sample_bg 9 (get 7) ClientLocal) in Hr;
    [by destruct Hr|done|exact Hb].
Defined.

(** [evict_background] does not evict the oldest background events. It pops
    the tier in round-robin order: after one pop, a single eviction removes
    contract 8's event 3 although contract 7's event 2 was queued before it. *)
Example eviction_is_not_oldest_first :
  let s := run id [OPush 1 (get 7) Background; OPush 2 (get 7) Background;
                   OPush 3 (get 8) Background; OPop] (start init_world) in
  map re_id (evict_background 1 s.1.1 s.1.2).2 = [3]
  /\ queue_of (tier Background s.1.1) (Contract 7) = [(2, get 7, Background)].
Proof. split; vm_compute; reflexivity. Qed.

End FairQueue.
