(* ===== verification/StreamingBuffer.v ===== *)
(** * Stream fragmentation and the lock-free reassembly buffer

    Models [src/crates/core/src/transport/peer_connection/streaming_buffer.rs],
    the fragmentation loop of [send_stream] in
    [src/crates/core/src/transport/peer_connection/outbound_stream.rs], and the
    consumer side of [streaming.rs] ([StreamHandle], [StreamingInboundStream]).

    [LockFreeStreamBuffer] is shared by threads that insert, take and consume
    fragments without a lock.  Each atomic operation of the source is one step of
    [task_step]; a system of tasks is stepped in any order ([sys_step]), with a
    spurious failure allowed for every [compare_exchange_weak].  The interleaving
    is sequentially consistent.  [insert], [take] and [mark_consumed] are the same
    operations run by a single thread. *)

From S2P Require Import Prelude.

Module StreamingBuffer.

Definition bytes : Type := list Byte.byte.

(** ** Sizes *)

Definition MAX_PACKET_SIZE : Z := 1200.
Definition PACKET_TYPE_SIZE : Z := 1.
Definition NONCE_SIZE : Z := 12.
Definition TAG_SIZE : Z := 16.
Definition PACKET_MAX_DATA_SIZE : Z := MAX_PACKET_SIZE - PACKET_TYPE_SIZE - NONCE_SIZE - TAG_SIZE.

(** [MAX_DATA_SIZE] of [outbound_stream.rs] and [FRAGMENT_PAYLOAD_SIZE] of
    [streaming_buffer.rs]. *)
Definition MAX_DATA_SIZE : Z := PACKET_MAX_DATA_SIZE - 41.
Definition FRAGMENT_PAYLOAD_SIZE : Z := PACKET_MAX_DATA_SIZE - 41.

Definition div_ceil (a b : Z) : Z := if a mod b =? 0 then a / b else a / b + 1.

(** ** The sender: [send_stream] *)

Definition meta_overhead (meta : bytes) : Z := 1 + 8 + Z.of_nat (length meta).

Definition total_packets (metadata : option bytes) (len : Z) : Z :=
  match metadata with
  | Some meta =>
      let first_frag_capacity := sat_sub MAX_DATA_SIZE (meta_overhead meta) in
      if len <=? first_frag_capacity then 1
      else 1 + div_ceil (len - first_frag_capacity) MAX_DATA_SIZE
  | None => div_ceil len MAX_DATA_SIZE
  end.

(** A [StreamFragment] as far as reassembly is concerned. *)
Record Fragment := mkFragment {
  fragment_number : Z;
  payload : bytes;
  metadata_bytes : option bytes;
}.

(** The sending loop; [n] counts down [total_packets - sent_so_far].  Waiting for
    the congestion window and the token bucket, and a failing socket, are in
    other components. *)
Fixpoint send_loop (n : nat) (next_fragment_number : Z) (stream_to_send : bytes)
    (pending_metadata : option bytes) : list Fragment :=
  match n with
  | O => []
  | S n' =>
      let '(meta, pending) :=
        if next_fragment_number =? 1 then (pending_metadata, None) else (None, pending_metadata) in
      let available_payload :=
        match meta with
        | Some m => sat_sub MAX_DATA_SIZE (meta_overhead m)
        | None => MAX_DATA_SIZE
        end in
      let '(fragment, rest) :=
        if available_payload <? Z.of_nat (length stream_to_send)
        then (take (Z.to_nat available_payload) stream_to_send,
              drop (Z.to_nat available_payload) stream_to_send)
        else (stream_to_send, []) in
      mkFragment next_fragment_number fragment meta
      :: send_loop n' (next_fragment_number + 1) rest pending
  end.

Definition send_stream (data : bytes) (metadata : option bytes) : list Fragment :=
  send_loop (Z.to_nat (total_packets metadata (Z.of_nat (length data)))) 1 data metadata.

(** ** The buffer *)

Record LockFreeStreamBuffer := mkBuffer {
  fragments : list (option bytes);
  total_size : Z;
  total_fragments : Z;
  min_complete_fragments : Z;
  contiguous_fragments : Z;
  consumed_frontier : Z;
}.

Definition set_fragments (l : list (option bytes)) (b : LockFreeStreamBuffer) : LockFreeStreamBuffer :=
  mkBuffer l (total_size b) (total_fragments b) (min_complete_fragments b)
    (contiguous_fragments b) (consumed_frontier b).
Definition set_contiguous (n : Z) (b : LockFreeStreamBuffer) : LockFreeStreamBuffer :=
  mkBuffer (fragments b) (total_size b) (total_fragments b) (min_complete_fragments b)
    n (consumed_frontier b).
Definition set_consumed (n : Z) (b : LockFreeStreamBuffer) : LockFreeStreamBuffer :=
  mkBuffer (fragments b) (total_size b) (total_fragments b) (min_complete_fragments b)
    (contiguous_fragments b) n.

Definition base_fragment_count (total_size : Z) : Z :=
  if total_size =? 0 then 0 else div_ceil total_size FRAGMENT_PAYLOAD_SIZE.

Definition calculate_fragment_count (total_size : Z) : Z :=
  let base := base_fragment_count total_size in
  if base =? 0 then 0 else base + 1.

Definition new_with_time_source (total_size : Z) : LockFreeStreamBuffer :=
  let base_fragments := base_fragment_count total_size in
  let num_fragments := calculate_fragment_count total_size in
  mkBuffer (replicate (Z.to_nat num_fragments) None) total_size (wrap32 num_fragments)
    (wrap32 base_fragments) 0 0.

(** The slot of a 1-indexed fragment number; [None] is the null pointer. *)
Definition slot (n : Z) (b : LockFreeStreamBuffer) : option bytes :=
  mjoin (fragments b !! Z.to_nat (n - 1)).
Definition set_slot (n : Z) (v : option bytes) (b : LockFreeStreamBuffer) : LockFreeStreamBuffer :=
  set_fragments (<[Z.to_nat (n - 1) := v]> (fragments b)) b.

Inductive InsertError := InvalidNumber (number max : Z) | AlreadyConsumed (number : Z).

Inductive InsertResult := Inserted (fresh : bool) | InsertErr (e : InsertError).

(** *** Single-threaded operations *)

(** [advance_frontier]; the fuel bounds the iterations, one per fragment. *)
Fixpoint advance_loop (fuel : nat) (b : LockFreeStreamBuffer) : LockFreeStreamBuffer :=
  match fuel with
  | O => b
  | S fuel' =>
      let next := contiguous_fragments b +w32 1 in
      if total_fragments b <? next then b
      else match slot next b with
           | None => b
           | Some _ => advance_loop fuel' (set_contiguous next b)
           end
  end.

Definition advance_frontier (b : LockFreeStreamBuffer) : LockFreeStreamBuffer :=
  advance_loop (S (Z.to_nat (total_fragments b))) b.

Definition insert (n : Z) (data : bytes) (b : LockFreeStreamBuffer)
    : LockFreeStreamBuffer * InsertResult :=
  if (n =? 0) || (total_fragments b <? n) then (b, InsertErr (InvalidNumber n (total_fragments b)))
  else if n <=? consumed_frontier b then (b, InsertErr (AlreadyConsumed n))
  else match slot n b with
       | None => (advance_frontier (set_slot n (Some data) b), Inserted true)
       | Some _ => (b, Inserted false)
       end.

Definition is_complete (b : LockFreeStreamBuffer) : bool :=
  min_complete_fragments b <=? contiguous_fragments b.

Definition inserted_count (b : LockFreeStreamBuffer) : nat := length (filter is_Some (fragments b)).

Definition get (n : Z) (b : LockFreeStreamBuffer) : option bytes :=
  if (n =? 0) || (total_fragments b <? n) then None else slot n b.

Definition take_fragment (n : Z) (b : LockFreeStreamBuffer) : LockFreeStreamBuffer * option bytes :=
  if (n =? 0) || (total_fragments b <? n) then (b, None)
  else (set_slot n None b, slot n b).

(** The sweep of [mark_consumed] over slots [idx .. up_to) (0-indexed). *)
Fixpoint sweep (count : nat) (idx : Z) (b : LockFreeStreamBuffer) (freed : Z)
    : LockFreeStreamBuffer * Z :=
  match count with
  | O => (b, freed)
  | S count' =>
      let freed := match slot (idx + 1) b with Some _ => freed + 1 | None => freed end in
      sweep count' (idx + 1) (set_slot (idx + 1) None b) freed
  end.

(** [None]: the assertion on the index failed. *)
Definition mark_consumed (up_to : Z) (b : LockFreeStreamBuffer) : option (LockFreeStreamBuffer * Z) :=
  if up_to <=? total_fragments b then
    let current := consumed_frontier b in
    let '(b, freed) := sweep (Z.to_nat (up_to - current)) current b 0 in
    Some (set_consumed (Z.max (consumed_frontier b) up_to) b, freed)
  else None.

(** The collecting loop of [assemble]. *)
Fixpoint assemble_loop (slots : list (option bytes)) (target_size : nat) (result : bytes) : bytes :=
  match slots with
  | Some data :: slots' =>
      let result := result ++ data in
      if (target_size <=? length result)%nat then result else assemble_loop slots' target_size result
  | _ => result
  end.

Definition assemble (b : LockFreeStreamBuffer) : option bytes :=
  if negb (is_complete b) then None
  else if 0 <? consumed_frontier b then None
  else
    let target_size := Z.to_nat (total_size b) in
    let result := take target_size (assemble_loop (fragments b) target_size []) in
    if (length result =? target_size)%nat then Some result else None.

Definition iter (b : LockFreeStreamBuffer) : list (option bytes) := fragments b.

Fixpoint present_prefix (slots : list (option bytes)) : list bytes :=
  match slots with Some d :: slots' => d :: present_prefix slots' | _ => [] end.

Definition iter_contiguous (b : LockFreeStreamBuffer) : list bytes := present_prefix (fragments b).

Definition collect_contiguous (b : LockFreeStreamBuffer) : bytes := concat (iter_contiguous b).

(** ** Concurrent tasks

    A task is one call in progress; [pc] says which atomic operation of the
    method body it performs next. *)

Inductive task :=
  | TInsert (n : Z) (data : bytes)
  | TTake (n : Z)
  | TConsume (up_to : Z).

Inductive outcome :=
  | RInsert (r : InsertResult)
  | RTake (r : option bytes)
  | RFreed (n : Z)
  | RPanic.

Inductive pc :=
  | PStart
  | PPublish                    (* compare-and-swap of the slot *)
  | PLoad                       (* load of the frontier *)
  | PCheck (current : Z)        (* load of the next slot *)
  | PCas (current : Z)          (* compare-and-swap (weak) of the frontier *)
  | PSweep (idx freed : Z)      (* swap of a consumed slot, or the final fetch_max *)
  | PDone (r : outcome).

Definition task_step (weak_fails : bool) (t : task) (p : pc) (b : LockFreeStreamBuffer)
    : pc * LockFreeStreamBuffer :=
  match t, p with
  | TInsert n data, PStart =>
      if (n =? 0) || (total_fragments b <? n)
      then (PDone (RInsert (InsertErr (InvalidNumber n (total_fragments b)))), b)
      else if n <=? consumed_frontier b then (PDone (RInsert (InsertErr (AlreadyConsumed n))), b)
      else (PPublish, b)
  | TInsert n data, PPublish =>
      match slot n b with
      | None => (PLoad, set_slot n (Some data) b)
      | Some _ => (PDone (RInsert (Inserted false)), b)
      end
  | TInsert _ _, PLoad => (PCheck (contiguous_fragments b), b)
  | TInsert _ _, PCheck current =>
      let next := current +w32 1 in
      if total_fragments b <? next then (PDone (RInsert (Inserted true)), b)
      else match slot next b with
           | None => (PDone (RInsert (Inserted true)), b)
           | Some _ => (PCas current, b)
           end
  | TInsert _ _, PCas current =>
      if negb weak_fails && (contiguous_fragments b =? current)
      then (PLoad, set_contiguous (current +w32 1) b)
      else (PLoad, b)
  | TTake n, PStart =>
      if (n =? 0) || (total_fragments b <? n) then (PDone (RTake None), b)
      else (PDone (RTake (slot n b)), set_slot n None b)
  | TConsume up_to, PStart =>
      if up_to <=? total_fragments b then (PSweep (consumed_frontier b) 0, b) else (PDone RPanic, b)
  | TConsume up_to, PSweep idx freed =>
      if idx <? up_to then
        (PSweep (idx + 1) (match slot (idx + 1) b with Some _ => freed + 1 | None => freed end),
         set_slot (idx + 1) None b)
      else (PDone (RFreed freed), set_consumed (Z.max (consumed_frontier b) up_to) b)
  | _, _ => (p, b)
  end.

Definition system : Type := list (task * pc) * LockFreeStreamBuffer.

(** One step of the [i]-th task. *)
Definition sys_step (choice : nat * bool) (s : system) : system :=
  let '(ths, b) := s in
  match ths !! choice.1 with
  | None => s
  | Some (t, p) => let '(p', b') := task_step choice.2 t p b in (<[choice.1 := (t, p')]> ths, b')
  end.

(** A schedule: which task moves next, and whether its weak exchange fails. *)
Definition sys_run (schedule : list (nat * bool)) (s : system) : system :=
  fold_left (fun s c => sys_step c s) schedule s.

Definition spawn (ts : list task) : list (task * pc) := map (fun t => (t, PStart)) ts.

Definition is_done (th : task * pc) : Prop := exists r, th.2 = PDone r.

(** ** Consumers: [StreamHandle] and [StreamingInboundStream] *)

Record StreamHandle := mkHandle { buffer : LockFreeStreamBuffer; cancelled : bool }.

Inductive StreamError := Cancelled | InvalidFragment (e : InsertError).

Definition push_fragment (n : Z) (data : bytes) (h : StreamHandle)
    : StreamHandle * (bool + StreamError) :=
  if cancelled h then (h, inr Cancelled)
  else let '(b, r) := insert n data (buffer h) in
       (mkHandle b (cancelled h),
        match r with Inserted fresh => inl fresh | InsertErr e => inr (InvalidFragment e) end).

Definition cancel (h : StreamHandle) : StreamHandle := mkHandle (buffer h) true.

Definition try_assemble (h : StreamHandle) : option bytes := assemble (buffer h).

Record StreamingInboundStream := mkStream {
  next_fragment : Z;
  bytes_read : Z;
  auto_reclaim : bool;
}.

Definition stream (reclaim : bool) : StreamingInboundStream := mkStream 1 0 reclaim.

Inductive Poll := Pending | Ready (r : option (bytes + StreamError)).

Definition try_get_fragment (st : StreamingInboundStream) (idx : Z) (b : LockFreeStreamBuffer)
    : LockFreeStreamBuffer * option bytes :=
  if auto_reclaim st then take_fragment idx b else (b, get idx b).

(** [poll_next] with no other thread active during the poll: the repeated checks
    around the listener see the same buffer, so only the first can succeed. *)
Definition poll_next (st : StreamingInboundStream) (h : StreamHandle)
    : StreamingInboundStream * StreamHandle * Poll :=
  let next_idx := next_fragment st in
  if cancelled h then (st, h, Ready (Some (inr Cancelled)))
  else if total_fragments (buffer h) <? next_idx then (st, h, Ready None)
  else if is_complete (buffer h) && bool_decide (get next_idx (buffer h) = None) then (st, h, Ready None)
  else
    let '(b, r) := try_get_fragment st next_idx (buffer h) in
    match r with
    | Some data =>
        (mkStream (next_idx +w32 1) (bytes_read st +w64 Z.of_nat (length data)) (auto_reclaim st),
         mkHandle b (cancelled h), Ready (Some (inl data)))
    | None => (st, mkHandle b (cancelled h), Pending)
    end.

(** Polling until the stream is pending, ended or failed. *)
Fixpoint poll_all (fuel : nat) (st : StreamingInboundStream) (h : StreamHandle)
    : StreamingInboundStream * StreamHandle * list bytes * Poll :=
  match fuel with
  | O => (st, h, [], Pending)
  | S fuel' =>
      let '(st', h', p) := poll_next st h in
      match p with
      | Ready (Some (inl data)) =>
          let '(st2, h2, ds, p2) := poll_all fuel' st' h' in (st2, h2, data :: ds, p2)
      | _ => (st', h', [], p)
      end
  end.

(** ** Slots *)

Definition shape (b : LockFreeStreamBuffer) : Prop :=
  Z.of_nat (length (fragments b)) = total_fragments b /\ total_fragments b < u32_max.

Lemma slot_set_slot_eq n v b :
  shape b -> 1 <= n <= total_fragments b -> slot n (set_slot n v b) = v.
Proof.
  intros [Hl _] Hn. unfold slot, set_slot. simpl. rewrite list_lookup_insert_eq by lia. by destruct v.
Qed.

Lemma slot_set_slot_ne n m v b : 1 <= n -> 1 <= m -> n <> m -> slot m (set_slot n v b) = slot m b.
Proof. intros Hn Hm Hne. unfold slot, set_slot. simpl. rewrite list_lookup_insert_ne; [done|lia]. Qed.

(** Clearing a slot fills no other. *)
Lemma slot_cleared n m b : slot m (set_slot n None b) <> None -> slot m (set_slot n None b) = slot m b.
Proof.
  unfold slot, set_slot. simpl. intros Hs.
  destruct (decide (Z.to_nat (n - 1) = Z.to_nat (m - 1))) as [He|He].
  - rewrite He in *. destruct (decide (Z.to_nat (m - 1) < length (fragments b))%nat) as [Hl|Hl].
    + by rewrite list_lookup_insert_eq in Hs.
    + by rewrite list_insert_ge by lia.
  - by rewrite list_lookup_insert_ne.
Qed.

Lemma shape_set_slot n v b : shape b -> shape (set_slot n v b).
Proof. intros [H1 H2]. split; simpl; [by rewrite length_insert|done]. Qed.

Lemma slot_range n b : 1 <= n -> shape b -> slot n b <> None -> n <= total_fragments b.
Proof.
  intros Hn [Hl _] Hs. unfold slot in Hs.
  destruct (fragments b !! Z.to_nat (n - 1)) as [v|] eqn:E; [|done].
  apply lookup_lt_Some in E. lia.
Qed.

(** ** No fragment is left behind

    A filled slot right after the frontier always has a task that will see it: one
    that is about to load the frontier, has loaded its current value, or is about
    to exchange it. *)

Definition responsible (frontier : Z) (th : task * pc) : Prop :=
  exists n data, th.1 = TInsert n data
    /\ (th.2 = PLoad \/ th.2 = PCheck frontier \/ exists current, th.2 = PCas current).

Definition task_ok (t : task) : Prop :=
  match t with TInsert n _ | TTake n => is_u32 n | TConsume up_to => is_u32 up_to end.

Definition pc_ok (b : LockFreeStreamBuffer) (t : task) (p : pc) : Prop :=
  match t, p with
  | TInsert n _, PPublish => 1 <= n <= total_fragments b
  | TInsert _ _, PCheck current => 0 <= current <= contiguous_fragments b
  | TInsert _ _, PCas current => 0 <= current <= contiguous_fragments b /\ current < total_fragments b
  | _, _ => True
  end.

Definition thread_ok (b : LockFreeStreamBuffer) (th : task * pc) : Prop :=
  task_ok th.1 /\ pc_ok b th.1 th.2.

Record sys_inv (s : system) : Prop := {
  si_shape : shape s.2;
  si_frontier : 0 <= contiguous_fragments s.2 <= total_fragments s.2;
  si_threads : Forall (thread_ok s.2) s.1;
  si_resp : slot (contiguous_fragments s.2 + 1) s.2 <> None ->
            exists th, th ∈ s.1 /\ responsible (contiguous_fragments s.2) th;
}.

Lemma next_no_wrap c b : shape b -> 0 <= c <= total_fragments b -> c +w32 1 = c + 1.
Proof. intros [_ Hm] Hc. apply wrap32_id. int_lia. Qed.

(** What one task step does to the parts of the buffer the invariant is about. *)
Lemma task_step_frontier w t p b :
  shape b -> 0 <= contiguous_fragments b <= total_fragments b -> thread_ok b (t, p) ->
  let b' := (task_step w t p b).2 in
  shape b' /\ total_fragments b' = total_fragments b
  /\ contiguous_fragments b <= contiguous_fragments b' <= total_fragments b.
Proof.
  intros Hsh Hc [_ Hok].
  assert (Hid : shape b /\ total_fragments b = total_fragments b
    /\ contiguous_fragments b <= contiguous_fragments b <= total_fragments b) by (split_and!; done || lia).
  assert (Hset : forall n v, let b' := set_slot n v b in shape b'
    /\ total_fragments b' = total_fragments b
    /\ contiguous_fragments b <= contiguous_fragments b' <= total_fragments b).
  { intros n v. split; [by apply shape_set_slot|]. simpl. lia. }
  destruct t as [n data|n|up_to], p; try exact Hid; cbn [task_step];
    try (repeat case_match; cbn [snd]; first [exact Hid|exact (Hset _ _)]).
  destruct (negb w && (contiguous_fragments b =? current)) eqn:E; [|exact Hid].
  apply andb_true_iff in E as [_ E%Z.eqb_eq]. simpl in Hok. cbn [snd].
  rewrite (next_no_wrap current b) by (done || lia). destruct Hsh. simpl. split_and!; done || lia.
Qed.

Lemma thread_ok_mono b b' th :
  total_fragments b' = total_fragments b -> contiguous_fragments b <= contiguous_fragments b' ->
  thread_ok b th -> thread_ok b' th.
Proof.
  intros Ht Hc [H1 H2]. split; [done|].
  destruct th as [[n data|n|up_to] []]; simpl in *; rewrite ?Ht; done || lia.
Qed.

Lemma task_step_thread_ok w t p b :
  shape b -> 0 <= contiguous_fragments b <= total_fragments b -> thread_ok b (t, p) ->
  thread_ok (task_step w t p b).2 (t, (task_step w t p b).1).
Proof.
  intros Hsh Hc [Ht Hok]. split; [done|]. simpl in Ht, Hok.
  destruct t as [n data|n|up_to], p; try done; cbn [task_step]; try by repeat case_match.
  - destruct (Z.eqb_spec n 0); [done|]. destruct (Z.ltb_spec (total_fragments b) n); [done|].
    simpl. destruct (n <=? consumed_frontier b); [done|]. simpl in *. int_lia.
  - simpl. lia.
  - simpl in *. rewrite (next_no_wrap current b) by (done || lia).
    destruct (Z.ltb_spec (total_fragments b) (current + 1)); [|destruct (slot (current + 1) b)]; simpl; lia.
Qed.

(** A step of a task that is not responsible, or that stays so, and does not fill
    the slot after the frontier. *)
Lemma task_step_responsible w t p b :
  shape b -> 0 <= contiguous_fragments b <= total_fragments b -> thread_ok b (t, p) ->
  let r := task_step w t p b in
  slot (contiguous_fragments r.2 + 1) r.2 <> None ->
  responsible (contiguous_fragments r.2) (t, r.1)
  \/ (contiguous_fragments r.2 = contiguous_fragments b
      /\ slot (contiguous_fragments b + 1) b <> None
      /\ ~ responsible (contiguous_fragments b) (t, p)).
Proof.
  intros Hsh Hc [Ht Hok] r Hs. subst r. simpl in Ht, Hok.
  assert (Hno : forall f t p, (match t, p with TInsert _ _, (PLoad | PCheck _ | PCas _) => False | _, _ => True end) ->
    ~ responsible f (t, p)).
  { intros f t0 p0 H0 (n0 & d0 & Ht0 & Hp0). simpl in *. subst t0.
    destruct Hp0 as [->|[->|[c ->]]]; done. }
  assert (Hload : forall f n d, responsible f (TInsert n d, PLoad)) by (intros; do 2 eexists; eauto).
  assert (Hclear : forall n, slot (contiguous_fragments b + 1) (set_slot n None b) <> None ->
    slot (contiguous_fragments b + 1) b <> None).
  { intros n Hn. by rewrite (slot_cleared _ _ _ Hn) in Hn. }
  destruct t as [n data|n|up_to], p; cbn [task_step] in *; try (right; split_and!; [done|done|by apply Hno]).
  - right. repeat case_match; (split_and!; [done|done|by apply Hno]).
  - destruct (slot n b); [right; split_and!; [done|done|by apply Hno]|left; apply Hload].
  - left. do 2 eexists. simpl. eauto.
  - cbv zeta in *. simpl in Hok. pose proof (next_no_wrap current b Hsh ltac:(lia)) as Hnext. rewrite Hnext in *.
    destruct (Z.ltb_spec (total_fragments b) (current + 1)) as [Hlt|Hge]; cbn [snd] in *.
    + pose proof (slot_range (contiguous_fragments b + 1) b ltac:(lia) Hsh Hs). lia.
    + destruct (slot (current + 1) b) eqn:E; cbn [fst snd] in *; [left; do 2 eexists; simpl; eauto|].
      right. split_and!; [done|done|]. intros (n0 & d0 & _ & [?|[[= ->]|[? ?]]]); simplify_eq/=.
  - left. destruct (negb w && _); apply Hload.
  - right. case_match; (split_and!; [done|eauto|by apply Hno]).
  - right. case_match; (split_and!; [done|eauto|by apply Hno]).
  - right. case_match; (split_and!; [done|eauto|by apply Hno]).
Qed.

Lemma sys_step_inv c s : sys_inv s -> sys_inv (sys_step c s).
Proof.
  destruct s as [ths b]. intros [Hsh Hc Hth Hr]. simpl in *. unfold sys_step.
  destruct (ths !! c.1) as [[t p]|] eqn:E; [|done].
  assert (Hok : thread_ok b (t, p)) by (eapply Forall_lookup_1; eauto).
  pose proof (task_step_frontier c.2 t p b Hsh Hc Hok) as (F1 & F2 & F3).
  pose proof (task_step_thread_ok c.2 t p b Hsh Hc Hok) as Ho.
  pose proof (task_step_responsible c.2 t p b Hsh Hc Hok) as Hresp. simpl in *.
  destruct (task_step c.2 t p b) as [p' b']. simpl in *. constructor; simpl; [done|lia| |].
  - apply Forall_insert; [|done]. apply (Forall_impl _ _ _ Hth). intros th. apply thread_ok_mono; [done|lia].
  - intros Hs. destruct (Hresp Hs) as [Hnew|(Hce & Hold & Hnot)].
    + exists (t, p'). split; [|done]. apply list_elem_of_lookup. exists c.1.
      apply list_lookup_insert_eq. by apply lookup_lt_Some in E.
    + destruct (Hr Hold) as (th & Hin & Hre). rewrite Hce. exists th. split; [|done].
      apply list_elem_of_lookup in Hin as [i Hi]. apply list_elem_of_lookup. exists i.
      rewrite list_lookup_insert_ne; [done|]. intros <-. rewrite E in Hi. injection Hi as <-. done.
Qed.

Lemma sys_run_inv sch s : sys_inv s -> sys_inv (sys_run sch s).
Proof. revert s. induction sch as [|c sch IH]; intros s Hs; [done|]. by apply IH, sys_step_inv. Qed.

Lemma total_preserved sch s : sys_inv s -> total_fragments (sys_run sch s).2 = total_fragments s.2.
Proof.
  revert s. induction sch as [|c sch IH]; intros s Hs; [done|].
  change (sys_run (c :: sch) s) with (sys_run sch (sys_step c s)).
  rewrite IH by (by apply sys_step_inv). destruct s as [ths b]. destruct Hs as [Hsh Hc Hth _]. simpl in *.
  unfold sys_step. destruct (ths !! c.1) as [[t p]|] eqn:E; [|done].
  assert (Hok : thread_ok b (t, p)) by (eapply Forall_lookup_1; eauto).
  pose proof (task_step_frontier c.2 t p b Hsh Hc Hok) as (_ & F2 & _).
  by destruct (task_step c.2 t p b).
Qed.

(** ** What the slots hold

    A system of insertions of the fragments [fs], each possibly more than once. *)

Definition frag (fs : list bytes) (n : Z) : option bytes := fs !! Z.to_nat (n - 1).

Definition inserts (fs : list bytes) (b : LockFreeStreamBuffer) (th : task * pc) : Prop :=
  exists n data, th.1 = TInsert n data /\ 1 <= n /\ frag fs n = Some data
    /\ match th.2 with
       | PStart | PPublish => True
       | PCas current => slot n b <> None /\ slot (current + 1) b <> None
       | _ => slot n b <> None
       end.

Record fill_inv (fs : list bytes) (s : system) : Prop := {
  fi_room : Z.of_nat (length fs) <= total_fragments s.2;
  fi_consumed : consumed_frontier s.2 = 0;
  fi_threads : Forall (inserts fs s.2) s.1;
  fi_slots : forall n data, 1 <= n -> slot n s.2 = Some data -> frag fs n = Some data;
  fi_prefix : forall n, 1 <= n <= contiguous_fragments s.2 -> slot n s.2 <> None;
}.

Lemma frag_range fs n data : 1 <= n -> frag fs n = Some data -> n <= Z.of_nat (length fs).
Proof. intros Hn Hf. apply lookup_lt_Some in Hf. lia. Qed.

(** Slots that are filled stay as they are. *)
Definition grows (b b' : LockFreeStreamBuffer) : Prop :=
  forall n, 1 <= n -> slot n b <> None -> slot n b' = slot n b.

Lemma inserts_grows fs b b' ths :
  grows b b' -> Forall (thread_ok b) ths -> Forall (inserts fs b) ths -> Forall (inserts fs b') ths.
Proof.
  intros Hg Hok Hi. apply Forall_forall. intros th Hin.
  pose proof (proj1 (Forall_forall _ _) Hi th Hin) as (n & data & Ht & Hn & Hf & Hp).
  pose proof (proj1 (Forall_forall _ _) Hok th Hin) as [_ Hpc]. rewrite Ht in Hpc.
  exists n, data. split_and!; try done.
  destruct th.2; try done; simpl in Hpc; try (by rewrite Hg).
  destruct Hp as [H1 H2]. by rewrite !Hg by (done || lia).
Qed.

Lemma grows_set_slot n data b : 1 <= n -> slot n b = None -> grows b (set_slot n (Some data) b).
Proof. intros Hn Hs m Hm Hne. apply slot_set_slot_ne; [done|done|congruence]. Qed.

Lemma sys_step_fill fs c s : sys_inv s -> fill_inv fs s -> fill_inv fs (sys_step c s).
Proof.
  destruct s as [ths b]. intros [Hsh Hc Hth _] Hfi. pose proof Hfi as [Hroom Hcons Hins Hsl Hpre].
  simpl in *. unfold sys_step. destruct (ths !! c.1) as [[t p]|] eqn:E; [|done].
  pose proof (Forall_lookup_1 _ _ _ _ Hth E) as [_ Hpc].
  pose proof (Forall_lookup_1 _ _ _ _ Hins E) as (n & data & Ht & Hn & Hf & Hp).
  simpl in Ht, Hp, Hpc. subst t. pose proof (frag_range fs n data Hn Hf) as Hle.
  assert (Hgo : forall p' b', total_fragments b' = total_fragments b ->
    consumed_frontier b' = consumed_frontier b -> grows b b' ->
    inserts fs b' (TInsert n data, p') ->
    (forall m d, 1 <= m -> slot m b' = Some d -> frag fs m = Some d) ->
    (forall m, 1 <= m <= contiguous_fragments b' -> slot m b' <> None) ->
    fill_inv fs (<[c.1 := (TInsert n data, p')]> ths, b')).
  { intros p' b' H1 H2 H3 H4 H5 H6. constructor; simpl; rewrite ?H1, ?H2; try done.
    apply Forall_insert; [|done]. by apply (inserts_grows fs b). }
  assert (Hsame : forall p', inserts fs b (TInsert n data, p') ->
    fill_inv fs (<[c.1 := (TInsert n data, p')]> ths, b)) by (intros p' H1; by apply Hgo).
  destruct p; cbn [task_step]; simpl in Hpc, Hp.
  - rewrite (proj2 (Z.eqb_neq n 0)), (proj2 (Z.ltb_ge _ _)), (proj2 (Z.leb_gt _ _)) by lia. simpl.
    apply Hsame. by exists n, data.
  - destruct (slot n b) eqn:Es; [apply Hsame; exists n, data; simpl; by rewrite Es|].
    assert (Heq : slot n (set_slot n (Some data) b) = Some data) by (by apply slot_set_slot_eq).
    apply Hgo; try done; [by apply grows_set_slot| | |].
    + exists n, data. simpl. by rewrite Heq.
    + intros m d Hm. destruct (decide (m = n)) as [->|Hne]; [congruence|].
      rewrite slot_set_slot_ne by done. by apply Hsl.
    + intros m Hm. simpl in Hm. destruct (decide (m = n)) as [->|Hne]; [by rewrite Heq|].
      rewrite slot_set_slot_ne by (done || lia). by apply Hpre.
  - apply Hsame. by exists n, data.
  - pose proof (next_no_wrap current b Hsh ltac:(lia)) as Hnext. rewrite Hnext. cbv zeta.
    destruct (total_fragments b <? current + 1); [apply Hsame; by exists n, data|].
    destruct (slot (current + 1) b) eqn:Es; apply Hsame; exists n, data; simpl; by rewrite ?Es.
  - destruct (negb c.2 && (contiguous_fragments b =? current)) eqn:Eb; [|apply Hsame; by exists n, data; destruct Hp].
    apply andb_true_iff in Eb as [_ Eb%Z.eqb_eq].
    pose proof (next_no_wrap current b Hsh ltac:(lia)) as Hnext. rewrite Hnext. destruct Hp as [Hp1 Hp2].
    apply Hgo; try done; [by exists n, data|]. simpl. intros m Hm.
    destruct (decide (m = current + 1)) as [->|]; [done|]. apply Hpre. lia.
  - apply Hsame. by exists n, data.
  - apply Hsame. by exists n, data.
Qed.

(** ** Fragmentation *)

Lemma div_ceil_spec a b : 0 <= a -> 0 < b -> (div_ceil a b - 1) * b < a <= div_ceil a b * b \/ a = 0 /\ div_ceil a b = 0.
Proof.
  intros Ha Hb. unfold div_ceil. pose proof (Z.div_mod a b ltac:(lia)). pose proof (Z.mod_pos_bound a b Hb).
  destruct (Z.eqb_spec (a mod b) 0) as [E|E]; [|left; lia].
  destruct (Z.eq_dec a 0) as [->|]; [right; split; [done|]; by rewrite Z.div_0_l by lia|]. left. lia.
Qed.

Lemma div_ceil_bounds a b k : 0 <= a -> 0 < b -> a <= k * b -> 0 <= div_ceil a b <= Z.max 0 k /\ a <= div_ceil a b * b.
Proof.
  intros Ha Hb Hk. destruct (div_ceil_spec a b Ha Hb) as [[H1 H2]|[-> ->]]; [|lia].
  assert (0 <= div_ceil a b) by nia. split; [|done]. split; [done|].
  destruct (Z.le_gt_cases (div_ceil a b) k); [lia|]. exfalso. nia.
Qed.

Lemma MAX_DATA_SIZE_value : MAX_DATA_SIZE = 1130.
Proof. reflexivity. Qed.

Lemma send_loop_length n k s pm : length (send_loop n k s pm) = n.
Proof.
  revert k s pm. induction n as [|n IH]; intros k s pm; [done|]. cbn [send_loop].
  destruct (k =? 1); cbv iota; case_match; simpl; by rewrite IH.
Qed.

Lemma send_loop_numbers n k s pm i f :
  send_loop n k s pm !! i = Some f -> fragment_number f = k + Z.of_nat i.
Proof.
  revert k s pm i. induction n as [|n IH]; intros k s pm i Hf; [done|]. cbn [send_loop] in Hf.
  destruct (if k =? 1 then (pm, None) else (None, pm)) as [meta pending].
  destruct (if _ <? _ then _ else _) as [fragment rest]. destruct i as [|i]; simpl in Hf.
  - injection Hf as <-. simpl. lia.
  - rewrite (IH _ _ _ _ Hf). lia.
Qed.

(** The rest of a stream, once the metadata has been sent. *)
Lemma send_loop_payloads n k s :
  Z.of_nat (length s) <= Z.of_nat n * MAX_DATA_SIZE ->
  concat (map payload (send_loop n k s None)) = s.
Proof.
  revert k s. induction n as [|n IH]; intros k s Hs; [destruct s; simpl in *; [done|lia]|].
  cbn [send_loop]. replace (if k =? 1 then (None, None) else (None, None)) with (@None bytes, @None bytes)
    by (by destruct (k =? 1)). cbv iota. rewrite MAX_DATA_SIZE_value in *.
  destruct (Z.ltb_spec 1130 (Z.of_nat (length s))) as [Hlt|Hge]; cbn [map concat payload].
  - rewrite IH; [by rewrite take_drop|]. rewrite length_drop. lia.
  - rewrite IH; [by rewrite app_nil_r|]. simpl. lia.
Qed.

Lemma total_packets_pos m len : 0 <= len -> 0 < total_packets (Some m) len.
Proof.
  intros Hl. unfold total_packets. destruct (_ <=? _) eqn:E; to_props; [lia|].
  destruct (div_ceil_bounds (len - sat_sub MAX_DATA_SIZE (meta_overhead m)) 1130 len) as [[H1 H2] H3];
    rewrite MAX_DATA_SIZE_value in *; unfold sat_sub in *; lia.
Qed.

Lemma total_packets_nonneg metadata len : 0 <= len -> 0 <= total_packets metadata len.
Proof.
  intros Hl. unfold total_packets. rewrite MAX_DATA_SIZE_value. destruct metadata as [meta|].
  - case_bool; to_props; [lia|].
    destruct (div_ceil_bounds (len - sat_sub 1130 (meta_overhead meta)) 1130 len) as [[? _] _]; unfold sat_sub in *; lia.
  - destruct (div_ceil_bounds len 1130 len) as [[? _] _]; lia.
Qed.

(** The sender's fragments carry the whole stream, in order. *)
Lemma send_stream_payloads data metadata : concat (map payload (send_stream data metadata)) = data.
Proof.
  unfold send_stream. set (len := Z.of_nat (length data)). assert (Hlen : 0 <= len) by lia.
  destruct metadata as [meta|]; unfold total_packets; rewrite MAX_DATA_SIZE_value.
  - set (cap := sat_sub 1130 (meta_overhead meta)). assert (Hcap : 0 <= cap) by (unfold cap, sat_sub; lia).
    destruct (Z.leb_spec len cap) as [Hle|Hgt].
    + simpl. rewrite MAX_DATA_SIZE_value. fold cap.
      rewrite (proj2 (Z.ltb_ge cap (Z.of_nat (length data)))) by (fold len; lia). simpl. by rewrite app_nil_r.
    + destruct (div_ceil_bounds (len - cap) 1130 len) as [[H1 H2] H3]; [lia|lia|lia|].
      rewrite Z2Nat.inj_add by lia. change (Z.to_nat 1 + ?n)%nat with (S n). cbn [send_loop].
      change (1 =? 1) with true. cbv iota. rewrite MAX_DATA_SIZE_value. fold cap.
      rewrite (proj2 (Z.ltb_lt cap (Z.of_nat (length data)))) by (fold len; lia). cbn [map concat payload].
      rewrite send_loop_payloads; [apply take_drop|]. rewrite length_drop, MAX_DATA_SIZE_value. lia.
  - destruct (div_ceil_bounds len 1130 len) as [[H1 H2] H3]; [lia|lia|lia|].
    apply send_loop_payloads. rewrite MAX_DATA_SIZE_value. lia.
Qed.

(** The receiver has allocated a slot for every fragment, and expects at least
    one fewer. *)
Lemma total_packets_fit metadata len :
  0 < len -> base_fragment_count len <= total_packets metadata len <= calculate_fragment_count len
  /\ 0 < base_fragment_count len <= len.
Proof.
  intros Hl. unfold calculate_fragment_count, base_fragment_count, total_packets.
  rewrite MAX_DATA_SIZE_value. change FRAGMENT_PAYLOAD_SIZE with 1130.
  rewrite (proj2 (Z.eqb_neq len 0)) by lia.
  destruct (div_ceil_spec len 1130) as [[H1 H2]|[? _]]; [lia|lia| |lia].
  assert (Hpos : 0 < div_ceil len 1130) by lia. rewrite (proj2 (Z.eqb_neq _ 0)) by lia.
  split; [|lia]. destruct metadata as [meta|]; [|lia].
  set (cap := sat_sub 1130 (meta_overhead meta)).
  assert (Hcap : 0 <= cap <= 1130) by (unfold cap, sat_sub, meta_overhead; lia).
  destruct (Z.leb_spec len cap) as [Hle|Hgt]; [lia|].
  destruct (div_ceil_spec (len - cap) 1130) as [[H3 H4]|[? _]]; [lia|lia| |lia]. lia.
Qed.

(** ** Reassembly *)

Lemma assemble_loop_complete fs k target acc :
  length (acc ++ concat fs) = target ->
  assemble_loop (map Some fs ++ replicate k None) target acc = acc ++ concat fs.
Proof.
  revert acc. induction fs as [|d fs IH]; intros acc Hlen; simpl.
  - rewrite app_nil_r. by destruct k.
  - simpl in Hlen. rewrite app_assoc in Hlen. rewrite app_assoc.
    destruct (Nat.leb_spec target (length (acc ++ d))) as [Hle|Hgt]; [|by apply IH].
    rewrite length_app in Hlen. assert (concat fs = []) as -> by (apply length_zero_iff_nil; lia).
    by rewrite app_nil_r.
Qed.

Lemma fragments_of_slots fs b :
  shape b -> Z.of_nat (length fs) <= total_fragments b ->
  (forall n, 1 <= n <= total_fragments b -> slot n b = frag fs n) ->
  fragments b = map Some fs ++ replicate (Z.to_nat (total_fragments b) - length fs) None.
Proof.
  intros [Hl _] Hle Hs. apply list_eq_same_length with (n := Z.to_nat (total_fragments b)).
  - rewrite length_app, length_map, length_replicate. lia.
  - lia.
  - intros i x y Hi Hx Hy. specialize (Hs (Z.of_nat i + 1) ltac:(lia)). unfold slot, frag in Hs.
    replace (Z.to_nat (Z.of_nat i + 1 - 1)) with i in Hs by lia. rewrite Hx in Hs. simpl in Hs.
    destruct (decide (i < length fs)%nat) as [Hlt|Hge].
    + rewrite lookup_app_l in Hy by (by rewrite length_map). change (map Some fs) with (Some <$> fs) in Hy.
      rewrite list_lookup_fmap in Hy. destruct (fs !! i) as [d|] eqn:E; [|done]. simpl in Hy.
      injection Hy as <-. by destruct x.
    + rewrite lookup_app_r in Hy by (rewrite length_map; lia). apply lookup_replicate in Hy as [-> _].
      rewrite lookup_ge_None_2 in Hs by lia. by destruct x.
Qed.

(** A quiescent system that has inserted every fragment holds exactly the
    fragments, and its frontier is after the last. *)
Lemma quiescent_filled fs s :
  sys_inv s -> fill_inv fs s -> Forall is_done s.1 ->
  (forall n, 1 <= n <= Z.of_nat (length fs) -> exists data p, (TInsert n data, p) ∈ s.1) ->
  contiguous_fragments s.2 = Z.of_nat (length fs)
  /\ forall n, 1 <= n <= total_fragments s.2 -> slot n s.2 = frag fs n.
Proof.
  intros [Hsh Hc Hth Hr] [Hroom Hcons Hins Hsl Hpre] Hdone Hcov. destruct s as [ths b]. simpl in *.
  assert (Hfull : forall n, 1 <= n <= Z.of_nat (length fs) -> slot n b <> None).
  { intros n Hn. destruct (Hcov n Hn) as (data & p & Hin).
    destruct (proj1 (Forall_forall _ _) Hins _ Hin) as (m & d & Ht & _ & _ & Hp).
    destruct (proj1 (Forall_forall _ _) Hdone _ Hin) as [r Hr']. simpl in *. subst p. by injection Ht as -> ->. }
  assert (Hslot : forall n, 1 <= n -> slot n b = frag fs n).
  { intros n Hn. destruct (slot n b) as [d|] eqn:E; [by rewrite (Hsl n d Hn E)|].
    destruct (frag fs n) as [d|] eqn:Ef; [|done]. pose proof (frag_range fs n d Hn Ef).
    by destruct (Hfull n ltac:(lia)). }
  split; [|intros n Hn; apply Hslot; lia]. apply Z.le_antisymm.
  - destruct (Z.le_gt_cases (contiguous_fragments b) (Z.of_nat (length fs))) as [|Hgt]; [done|]. exfalso.
    pose proof (Hpre (contiguous_fragments b) ltac:(lia)) as Hne. rewrite Hslot in Hne by lia.
    destruct (frag fs (contiguous_fragments b)) as [d|] eqn:Ef; [|done].
    pose proof (frag_range fs (contiguous_fragments b) d ltac:(lia) Ef). lia.
  - destruct (Z.le_gt_cases (Z.of_nat (length fs)) (contiguous_fragments b)) as [|Hgt]; [done|]. exfalso.
    destruct (Hr (Hfull (contiguous_fragments b + 1) ltac:(lia))) as (th & Hin & n & d & _ & Hp).
    destruct (proj1 (Forall_forall _ _) Hdone _ Hin) as [r Hr']. rewrite Hr' in Hp. naive_solver.
Qed.

(** The insertions a receiver performs for the fragments of a stream: one per
    arriving copy of a fragment. *)
Definition arrivals (fs : list Fragment) (ts : list task) : Prop :=
  Forall (fun t => exists f, f ∈ fs /\ t = TInsert (fragment_number f) (payload f)) ts
  /\ forall f, f ∈ fs -> TInsert (fragment_number f) (payload f) ∈ ts.

Lemma new_shape len :
  0 < len < 2 ^ 32 ->
  let b := new_with_time_source len in
  shape b /\ total_fragments b = calculate_fragment_count len
  /\ min_complete_fragments b = base_fragment_count len.
Proof.
  intros Hl b. destruct (total_packets_fit None len ltac:(lia)) as [H1 [H2 H3]].
  assert (Hb : base_fragment_count len < 2 ^ 31).
  { unfold base_fragment_count. rewrite (proj2 (Z.eqb_neq len 0)) by lia. change FRAGMENT_PAYLOAD_SIZE with 1130.
    destruct (div_ceil_bounds len 1130 (2 ^ 31 - 1)) as [[_ ?] _]; lia. }
  assert (Hn : calculate_fragment_count len = base_fragment_count len + 1).
  { unfold calculate_fragment_count. by rewrite (proj2 (Z.eqb_neq _ 0)) by lia. }
  unfold b, new_with_time_source, shape. simpl. rewrite Hn, !wrap32_id by int_lia.
  rewrite length_replicate. split_and!; try done; int_lia.
Qed.

Lemma slot_new len n : slot n (new_with_time_source len) = None.
Proof.
  unfold slot, new_with_time_source. simpl. destruct (replicate _ None !! _) as [v|] eqn:E; [|done].
  apply lookup_replicate in E as [-> _]. done.
Qed.

Lemma spawn_inv ts len :
  0 < len < 2 ^ 32 -> Forall task_ok ts -> sys_inv (spawn ts, new_with_time_source len).
Proof.
  intros Hl Hts. destruct (new_shape len Hl) as (Hsh & Ht & _).
  destruct (total_packets_fit None len ltac:(lia)) as [? [? _]].
  constructor; simpl in *; [done|lia| |by rewrite slot_new].
  apply Forall_map. apply (Forall_impl _ _ _ Hts). intros t Hok. split; [done|]. by destruct t.
Qed.

(** The sender's fragments as the slots they belong in. *)
Lemma send_stream_frag data metadata f :
  f ∈ send_stream data metadata ->
  1 <= fragment_number f <= total_packets metadata (Z.of_nat (length data))
  /\ frag (map payload (send_stream data metadata)) (fragment_number f) = Some (payload f).
Proof.
  intros [i Hi]%list_elem_of_lookup. pose proof (lookup_lt_Some _ _ _ Hi) as Hlt.
  unfold send_stream in Hlt. rewrite send_loop_length in Hlt.
  pose proof (send_loop_numbers _ _ _ _ _ _ Hi) as Hn. split; [lia|]. unfold frag. rewrite Hn.
  replace (Z.to_nat (1 + Z.of_nat i - 1)) with i by lia. change (map payload ?l) with (payload <$> l).
  by rewrite list_lookup_fmap, Hi.
Qed.

Lemma spawn_fill data metadata ts :
  0 < Z.of_nat (length data) < 2 ^ 32 -> arrivals (send_stream data metadata) ts ->
  fill_inv (map payload (send_stream data metadata)) (spawn ts, new_with_time_source (Z.of_nat (length data))).
Proof.
  intros Hl [Harr _]. destruct (new_shape _ Hl) as (_ & Ht & _).
  destruct (total_packets_fit metadata (Z.of_nat (length data)) ltac:(lia)) as [? _].
  pose proof (total_packets_nonneg metadata (Z.of_nat (length data)) ltac:(lia)).
  constructor; cbn [fst snd].
  - rewrite length_map. unfold send_stream. rewrite send_loop_length, Ht. lia.
  - done.
  - apply Forall_map. apply (Forall_impl _ _ _ Harr). intros t (f & Hin & ->).
    destruct (send_stream_frag _ _ _ Hin) as [H1 H2]. exists (fragment_number f), (payload f).
    split_and!; try done; lia.
  - intros n d _. by rewrite slot_new.
  - intros n Hn. simpl in Hn. lia.
Qed.

Lemma sys_run_fill fs sch s : sys_inv s -> fill_inv fs s -> fill_inv fs (sys_run sch s).
Proof.
  revert s. induction sch as [|c sch IH]; intros s Hi Hf; [done|].
  apply IH; [by apply sys_step_inv|by apply sys_step_fill].
Qed.

Lemma tasks_preserved sch s : (sys_run sch s).1.*1 = s.1.*1.
Proof.
  revert s. induction sch as [|c sch IH]; intros s; [done|].
  change (sys_run (c :: sch) s) with (sys_run sch (sys_step c s)). rewrite IH.
  destruct s as [ths b]. unfold sys_step. destruct (ths !! c.1) as [[t p]|] eqn:E; [|done].
  destruct (task_step c.2 t p b) as [p' b']. simpl. rewrite list_fmap_insert. simpl.
  apply list_insert_id. by rewrite list_lookup_fmap, E.
Qed.

(** A buffer that holds exactly the fragments of a stream assembles to it. *)
Lemma assemble_filled data metadata b :
  0 < Z.of_nat (length data) < 2 ^ 32 -> shape b ->
  total_fragments b = calculate_fragment_count (Z.of_nat (length data)) ->
  min_complete_fragments b = base_fragment_count (Z.of_nat (length data)) ->
  total_size b = Z.of_nat (length data) -> consumed_frontier b = 0 ->
  contiguous_fragments b = total_packets metadata (Z.of_nat (length data)) ->
  (forall n, 1 <= n <= total_fragments b -> slot n b = frag (map payload (send_stream data metadata)) n) ->
  is_complete b = true /\ assemble b = Some data.
Proof.
  intros Hl Hsh Ht Hm Hts Hcons Hc Hsl.
  destruct (total_packets_fit metadata (Z.of_nat (length data)) ltac:(lia)) as [Hfit _].
  assert (Hcomp : is_complete b = true) by (unfold is_complete; apply Z.leb_le; lia).
  split; [done|]. unfold assemble. rewrite Hcomp, Hcons, Hts. simpl. rewrite Nat2Z.id.
  pose proof (total_packets_nonneg metadata (Z.of_nat (length data)) ltac:(lia)).
  rewrite (fragments_of_slots (map payload (send_stream data metadata)) b); [|done| |done].
  - rewrite assemble_loop_complete; simpl; rewrite send_stream_payloads; [|done].
    rewrite firstn_all2 by lia. by rewrite Nat.eqb_refl.
  - rewrite length_map. unfold send_stream. rewrite send_loop_length. lia.
Qed.

Lemma task_step_static w t p b :
  let b' := (task_step w t p b).2 in
  total_size b' = total_size b /\ min_complete_fragments b' = min_complete_fragments b.
Proof. destruct t, p; cbn [task_step]; repeat case_match; done. Qed.

Lemma sys_run_static sch s :
  total_size (sys_run sch s).2 = total_size s.2
  /\ min_complete_fragments (sys_run sch s).2 = min_complete_fragments s.2.
Proof.
  revert s. induction sch as [|c sch IH]; intros s; [done|].
  change (sys_run (c :: sch) s) with (sys_run sch (sys_step c s)).
  destruct (IH (sys_step c s)) as [-> ->]. destruct s as [ths b]. unfold sys_step.
  destruct (ths !! c.1) as [[t p]|]; [|done]. pose proof (task_step_static c.2 t p b) as [H1 H2].
  by destruct (task_step c.2 t p b).
Qed.

(** ** Progress *)

(** The steps an insertion has left if it runs alone, [a] fragments short of the
    end. *)
Definition steps_left (p : pc) (b : LockFreeStreamBuffer) : Z :=
  let a := total_fragments b - contiguous_fragments b in
  match p with
  | PStart => 3 * a + 4
  | PPublish => 3 * a + 3
  | PLoad => 3 * a + 2
  | PCheck current => if current =? contiguous_fragments b then 3 * a + 1 else 3 * a + 4
  | PCas current => if current =? contiguous_fragments b then 3 * a else 3 * a + 3
  | PSweep _ _ | PDone _ => 0
  end.

Lemma steps_left_decreases n data p b :
  shape b -> 0 <= contiguous_fragments b <= total_fragments b -> thread_ok b (TInsert n data, p) ->
  (forall r, p <> PDone r) -> (forall i f, p <> PSweep i f) ->
  let r := task_step false (TInsert n data) p b in
  (exists o, r.1 = PDone o) \/ (0 <= steps_left r.1 r.2 < steps_left p b).
Proof.
  intros Hsh Hc [_ Hok] Hnd Hns r. simpl in Hok. subst r.
  destruct p as [| | |current|current|idx freed|o]; cbn [task_step];
    [..|by destruct (Hns idx freed)|by destruct (Hnd o)].
  - repeat case_match; simpl; [by left; eexists..|]. right. lia.
  - destruct (slot n b); simpl; [by left; eexists|]. right. lia.
  - right. simpl. rewrite Z.eqb_refl. lia.
  - simpl in Hok. rewrite (next_no_wrap current b) by (done || lia). cbv zeta.
    destruct (Z.ltb_spec (total_fragments b) (current + 1)); simpl; [by left; eexists|].
    destruct (slot (current + 1) b); simpl; [|by left; eexists]. right.
    destruct (Z.eqb_spec current (contiguous_fragments b)); lia.
  - simpl in Hok. right. rewrite Z.eqb_sym. simpl.
    destruct (Z.eqb_spec current (contiguous_fragments b)) as [He|He]; simpl; [|lia].
    rewrite (next_no_wrap current b) by (done || lia). lia.
Qed.

(** [k] solo steps of task [i]. *)
Definition solo (i k : nat) : list (nat * bool) := replicate k (i, false).

Lemma done_stays i t o k s :
  s.1 !! i = Some (t, PDone o) -> (sys_run (solo i k) s).1 !! i = Some (t, PDone o).
Proof.
  revert s. induction k as [|k IH]; intros s Hp; [done|].
  change (sys_run (solo i (S k)) s) with (sys_run (solo i k) (sys_step (i, false) s)). apply IH.
  destruct s as [ths b]. unfold sys_step. simpl in *. rewrite Hp.
  destruct t; simpl; apply list_lookup_insert_eq; by apply lookup_lt_Some in Hp.
Qed.

Lemma solo_finishes i n data p s k :
  sys_inv s -> s.1 !! i = Some (TInsert n data, p) -> (forall j f, p <> PSweep j f) ->
  steps_left p s.2 < Z.of_nat k ->
  exists o, (sys_run (solo i k) s).1 !! i = Some (TInsert n data, PDone o).
Proof.
  revert p s. induction k as [|k IH]; intros p s Hi Hp Hns Hk.
  { exfalso. assert (0 <= steps_left p s.2); [|lia]. destruct Hi as [_ Hc _ _].
    unfold steps_left. destruct p; try lia; case_match; lia. }
  assert (Hd : (exists o, p = PDone o) \/ forall o, p <> PDone o) by (destruct p; eauto).
  destruct Hd as [[o ->]|Hnd]; [exists o; by apply done_stays|].
  change (sys_run (solo i (S k)) s) with (sys_run (solo i k) (sys_step (i, false) s)).
  assert (Hi' := sys_step_inv (i, false) s Hi). pose proof Hi as [Hsh Hc Hth _].
  pose proof (Forall_lookup_1 _ _ _ _ Hth Hp) as Hok.
  pose proof (steps_left_decreases n data p s.2 Hsh Hc Hok Hnd Hns) as Hdec.
  assert (Hlen : (i < length s.1)%nat) by (by apply lookup_lt_Some in Hp).
  assert (Hstep : (sys_step (i, false) s).1 !! i = Some (TInsert n data, (task_step false (TInsert n data) p s.2).1)
    /\ (sys_step (i, false) s).2 = (task_step false (TInsert n data) p s.2).2).
  { destruct s as [ths b]. unfold sys_step. cbn [fst snd] in *. rewrite Hp.
    destruct (task_step false (TInsert n data) p b). cbn [fst snd]. by rewrite list_lookup_insert_eq. }
  destruct Hstep as [Hs1 Hs2]. destruct Hdec as [[o Ho]|Hdec].
  - exists o. apply done_stays. by rewrite Hs1, Ho.
  - apply (IH _ _ Hi' Hs1); [|rewrite Hs2; lia].
    intros j f. destruct p; cbn [task_step]; repeat case_match; try done; apply Hns.
Qed.

(** Insertions do not sweep. *)
Lemma no_sweep_in_insert sch s i n data j f :
  (forall i n data j f, s.1 !! i <> Some (TInsert n data, PSweep j f)) ->
  (sys_run sch s).1 !! i <> Some (TInsert n data, PSweep j f).
Proof.
  revert s i n data j f. induction sch as [|c sch IH]; intros s i n data j f Hs; [done|].
  change (sys_run (c :: sch) s) with (sys_run sch (sys_step c s)). apply IH. clear i n data j f.
  intros i n data j f. destruct s as [ths b]. unfold sys_step. cbn [fst] in *.
  destruct (ths !! c.1) as [[t p]|] eqn:E; [|by apply Hs].
  destruct (task_step c.2 t p b) as [p' b'] eqn:Et. cbn [fst]. destruct (decide (c.1 = i)) as [<-|Hne].
  - rewrite list_lookup_insert_eq by (by apply lookup_lt_Some in E). intros [= -> ->].
    destruct p; cbn [task_step] in Et; repeat case_match; simplify_eq. by apply Hs in E.
  - rewrite list_lookup_insert_ne by done. apply Hs.
Qed.

(** The single-threaded [insert] is the insertion task run alone. *)
Lemma solo_run_cons k s : sys_run (solo 0 (S k)) s = sys_run (solo 0 k) (sys_step (0%nat, false) s).
Proof. done. Qed.

Lemma solo_advance n data fuel b :
  shape b -> 0 <= contiguous_fragments b <= total_fragments b ->
  total_fragments b - contiguous_fragments b < Z.of_nat fuel ->
  exists k, sys_run (solo 0 k) ([(TInsert n data, PLoad)], b)
    = ([(TInsert n data, PDone (RInsert (Inserted true)))], advance_loop fuel b).
Proof.
  revert b. induction fuel as [|fuel IH]; intros b Hsh Hc Hf; [lia|]. cbn [advance_loop].
  pose proof (next_no_wrap (contiguous_fragments b) b Hsh Hc) as Hnext. cbv zeta. rewrite Hnext.
  destruct (Z.ltb_spec (total_fragments b) (contiguous_fragments b + 1)) as [Hlt|Hge].
  { exists 2%nat. rewrite !solo_run_cons. simpl. rewrite Hnext, (proj2 (Z.ltb_lt _ _)) by lia. done. }
  destruct (slot (contiguous_fragments b + 1) b) as [d|] eqn:Es.
  - destruct (IH (set_contiguous (contiguous_fragments b + 1) b)) as [k Hk]; [done|simpl; lia|simpl; lia|].
    exists (S (S (S k))). rewrite !solo_run_cons. simpl. rewrite Hnext, (proj2 (Z.ltb_ge _ _)), Es by lia.
    simpl. rewrite Z.eqb_refl, Hnext. exact Hk.
  - exists 2%nat. rewrite !solo_run_cons. simpl. by rewrite Hnext, (proj2 (Z.ltb_ge _ _)), Es by lia.
Qed.

(** ** Reading a complete stream *)

(** A consumer at fragment [i + 1] of a complete buffer. *)
Definition readable (fs : list bytes) (i : nat) (h : StreamHandle) : Prop :=
  let b := buffer h in
  cancelled h = false /\ shape b /\ is_complete b = true /\ Z.of_nat (length fs) <= total_fragments b
  /\ forall j, (i <= j)%nat -> Z.of_nat j < total_fragments b -> slot (Z.of_nat j + 1) b = fs !! j.

Lemma readable_after_take fs i h d :
  readable fs i h -> fs !! i = Some d ->
  let b' := set_slot (Z.of_nat i + 1) None (buffer h) in readable fs (S i) (mkHandle b' (cancelled h)).
Proof.
  intros (H1 & H2 & H3 & H4 & H5) Hd b'. split_and!; try done; [by apply shape_set_slot|].
  intros j Hj Hjt. cbn [buffer]. unfold b'. rewrite slot_set_slot_ne by lia. apply H5; [lia|done].
Qed.

Lemma poll_next_item fs i h d reclaim n :
  readable fs i h -> fs !! i = Some d ->
  exists n' h', poll_next (mkStream (Z.of_nat i + 1) n reclaim) h
    = (mkStream (Z.of_nat (S i) + 1) n' reclaim, h', Ready (Some (inl d))) /\ readable fs (S i) h'.
Proof.
  intros Hr Hd. pose proof Hr as (H1 & H2 & H3 & H4 & H5).
  pose proof (lookup_lt_Some _ _ _ Hd) as Hlt. pose proof H2 as [_ Hmax].
  assert (Hslot : slot (Z.of_nat i + 1) (buffer h) = Some d) by (rewrite H5, Hd by lia; done).
  assert (Hb : (Z.of_nat i + 1 =? 0) || (total_fragments (buffer h) <? Z.of_nat i + 1) = false).
  { apply orb_false_iff. split; [apply Z.eqb_neq; lia|apply Z.ltb_ge; lia]. }
  assert (Hget : get (Z.of_nat i + 1) (buffer h) = Some d) by (unfold get; by rewrite Hb).
  unfold poll_next. cbn [next_fragment auto_reclaim bytes_read]. cbv zeta.
  rewrite H1, Hget, (proj2 (Z.ltb_ge _ _)) by lia. rewrite bool_decide_eq_false_2, andb_false_r by done.
  replace (Z.of_nat i + 1 +w32 1) with (Z.of_nat (S i) + 1) by (rewrite wrap32_id; int_lia).
  unfold try_get_fragment. cbn [auto_reclaim]. destruct reclaim.
  - unfold take_fragment. rewrite Hb, Hslot. eexists _, _. split; [done|].
    rewrite <- H1. by eapply readable_after_take.
  - rewrite Hget. eexists _, _. split; [done|]. split_and!; try done. intros j Hj. apply H5. lia.
Qed.

Lemma poll_next_end fs h reclaim n :
  readable fs (length fs) h ->
  (poll_next (mkStream (Z.of_nat (length fs) + 1) n reclaim) h).2 = Ready None.
Proof.
  intros (H1 & H2 & H3 & H4 & H5). unfold poll_next. cbn [next_fragment]. rewrite H1.
  destruct (Z.ltb_spec (total_fragments (buffer h)) (Z.of_nat (length fs) + 1)); [done|].
  assert (Hget : get (Z.of_nat (length fs) + 1) (buffer h) = None).
  { unfold get. case_match; [done|]. rewrite H5 by lia. apply lookup_ge_None_2. lia. }
  by rewrite H3, Hget.
Qed.

Lemma poll_all_reads fs i h reclaim n fuel :
  readable fs i h -> (i <= length fs)%nat -> (length fs - i < fuel)%nat ->
  exists st h', poll_all fuel (mkStream (Z.of_nat i + 1) n reclaim) h = (st, h', drop i fs, Ready None).
Proof.
  revert i h n. induction fuel as [|fuel IH]; intros i h n Hr Hi Hf; [lia|]. cbn [poll_all].
  destruct (decide (i = length fs)) as [->|Hne].
  - pose proof (poll_next_end fs h reclaim n Hr) as He.
    destruct (poll_next _ h) as [[st' h'] p]. simpl in He. subst p. rewrite drop_all. eauto.
  - destruct (lookup_lt_is_Some_2 fs i ltac:(lia)) as [d Hd].
    destruct (poll_next_item fs i h d reclaim n Hr Hd) as (n' & h' & -> & Hr').
    destruct (IH (S i) h' n' Hr' ltac:(lia) ltac:(lia)) as (st2 & h2 & ->).
    rewrite (drop_S fs d i Hd). eauto.
Qed.

(** ** Properties *)

(** C1: concurrent reassembly. Cut a stream of up to 4 GiB into fragments the way
    the sender does, with or without metadata in the first fragment, and let the
    fragments arrive any number of times (at least once) and be inserted by
    concurrent calls under any interleaving of their atomic steps, spurious
    failures of the weak exchange included. Once no insertion is in progress the
    buffer is complete and assembles to exactly the bytes sent. *)
Theorem concurrent_reassembly (data : bytes) (metadata : option bytes) (ts : list task)
    (schedule : list (nat * bool)) :
  0 < Z.of_nat (length data) < 2 ^ 32 ->
  arrivals (send_stream data metadata) ts ->
  let s := sys_run schedule (spawn ts, new_with_time_source (Z.of_nat (length data))) in
  Forall is_done s.1 ->
  is_complete s.2 = true /\ assemble s.2 = Some data.
Proof.
  intros Hl Harr s Hdone. set (s0 := (spawn ts, new_with_time_source (Z.of_nat (length data)))) in *.
  assert (Hpk : total_packets metadata (Z.of_nat (length data)) < 2 ^ 32).
  { destruct (total_packets_fit metadata (Z.of_nat (length data)) ltac:(lia)) as [? _].
    destruct (new_shape _ Hl) as ([_ Hm] & Ht & _). simpl in Hm, Ht. rewrite Ht in Hm. int_lia. }
  assert (Hts : Forall task_ok ts).
  { apply (Forall_impl _ _ _ (proj1 Harr)). intros t (f & Hin & ->).
    destruct (send_stream_frag _ _ _ Hin) as [? _]. simpl. int_lia. }
  assert (Hi0 := spawn_inv ts _ Hl Hts). assert (Hf0 := spawn_fill data metadata ts Hl Harr).
  assert (Hi := sys_run_inv schedule s0 Hi0). assert (Hf := sys_run_fill _ schedule s0 Hi0 Hf0).
  fold s in Hi, Hf. destruct (new_shape _ Hl) as (_ & Ht & Hm).
  destruct (sys_run_static schedule s0) as [Hst1 Hst2]. fold s in Hst1, Hst2.
  assert (Htot : total_fragments s.2 = calculate_fragment_count (Z.of_nat (length data))).
  { unfold s. by rewrite total_preserved. }
  destruct (quiescent_filled _ s Hi Hf Hdone) as [Hc Hsl].
  - intros n Hn. rewrite length_map in Hn. destruct Harr as [_ Hcov].
    destruct (lookup_lt_is_Some_2 (send_stream data metadata) (Z.to_nat (n - 1)) ltac:(lia)) as [f Hf'].
    pose proof (send_loop_numbers _ _ _ _ _ _ Hf') as Hnum.
    pose proof (Hcov f (list_elem_of_lookup_2 _ _ _ Hf')) as Hin.
    replace (fragment_number f) with n in Hin by lia.
    assert (HinT : TInsert n (payload f) ∈ s.1.*1).
    { unfold s. rewrite tasks_preserved. apply list_elem_of_fmap. exists (TInsert n (payload f), PStart).
      split; [done|]. apply list_elem_of_fmap. eauto. }
    apply list_elem_of_fmap in HinT as ([t p] & Heq & HinT). simpl in Heq. subst t. eauto.
  - apply (assemble_filled data metadata s.2); try done; [apply (si_shape s Hi)|by rewrite Hst2|apply (fi_consumed _ s Hf)|].
    rewrite Hc, length_map. unfold send_stream. rewrite send_loop_length.
    pose proof (total_packets_nonneg metadata (Z.of_nat (length data)) ltac:(lia)). lia.
Qed.

(** A stream of 1125 bytes with metadata: two fragments, which arrive in reverse
    order and are inserted by two tasks that alternate. *)
Definition demo_data : bytes := replicate 1125 Byte.x61.
Definition demo_tasks : list task :=
  map (fun f => TInsert (fragment_number f) (payload f))
    (reverse (send_stream demo_data (Some [Byte.x01; Byte.x02]))).
Definition demo_schedule : list (nat * bool) :=
  concat (replicate 12 [(0%nat, false); (1%nat, false); (1%nat, true)]).

Lemma demo_arrivals : arrivals (send_stream demo_data (Some [Byte.x01; Byte.x02])) demo_tasks.
Proof.
  split.
  - apply Forall_forall. intros t (f & -> & Hin)%list_elem_of_fmap. exists f. split; [|done].
    by apply elem_of_reverse.
  - intros f Hin. apply list_elem_of_fmap. exists f. split; [done|]. by apply elem_of_reverse.
Qed.

Lemma concurrent_reassembly_witness :
  let s := sys_run demo_schedule (spawn demo_tasks, new_with_time_source 1125) in
  Forall is_done s.1 /\ assemble s.2 = Some demo_data.
Proof.
  intros s. assert (Hd : Forall is_done s.1).
  { unfold s. vm_compute. repeat constructor; eexists; reflexivity. }
  split; [exact Hd|].
  refine (proj2 (concurrent_reassembly demo_data (Some [Byte.x01; Byte.x02]) demo_tasks demo_schedule
    _ demo_arrivals Hd)).
  unfold demo_data. rewrite length_replicate. lia.
Defined.

(** C8: the frontier is never left behind. Under any interleaving of concurrent
    insertions, takes and consumptions, the frontier stays between 0 and the
    number of slots, and whenever no call is in progress the slot after it is
    empty: no filled slot was missed because two threads each left it to the
    other. *)
Theorem quiescent_frontier_maximal (len : Z) (ts : list task) (schedule : list (nat * bool)) :
  0 < len < 2 ^ 32 -> Forall task_ok ts ->
  let s := sys_run schedule (spawn ts, new_with_time_source len) in
  0 <= contiguous_fragments s.2 <= total_fragments s.2
  /\ (Forall is_done s.1 -> slot (contiguous_fragments s.2 + 1) s.2 = None).
Proof.
  intros Hl Hts s. destruct (sys_run_inv schedule _ (spawn_inv ts len Hl Hts)) as [_ Hc _ Hr]. fold s in Hc, Hr.
  split; [done|]. intros Hdone. destruct (slot _ s.2) eqn:E; [|done]. exfalso.
  destruct (Hr ltac:(congruence)) as (th & Hin & n & d & _ & Hp).
  destruct (proj1 (Forall_forall _ _) Hdone _ Hin) as [r Hr']. rewrite Hr' in Hp. naive_solver.
Qed.

Lemma quiescent_frontier_maximal_witness :
  let ts := [TInsert 2 [Byte.x62]; TInsert 1 [Byte.x61]; TTake 1] in
  let s := sys_run (concat (replicate 12 [(0%nat, false); (1%nat, false); (2%nat, false)]))
    (spawn ts, new_with_time_source 3000) in
  Forall is_done s.1 /\ slot (contiguous_fragments s.2 + 1) s.2 = None.
Proof.
  intros ts s. assert (Hd : Forall is_done s.1).
  { unfold s. vm_compute. repeat constructor; eexists; reflexivity. }
  split; [exact Hd|].
  refine (proj2 (quiescent_frontier_maximal 3000 ts _ _ _) Hd); [lia|].
  repeat constructor; simpl; unfold is_u32, u32_max; lia.
Defined.

(** C37: insertion is obstruction-free. From any reachable state, an insertion that
    runs by itself (and whose weak exchange does not fail spuriously) returns
    within three steps per missing fragment plus five, whatever the other calls
    were doing when they stopped. *)
Theorem insert_obstruction_free (len : Z) (ts : list task) (schedule : list (nat * bool))
    (i : nat) (n : Z) (data : bytes) :
  0 < len < 2 ^ 32 -> Forall task_ok ts -> ts !! i = Some (TInsert n data) ->
  let s := sys_run schedule (spawn ts, new_with_time_source len) in
  exists o, (sys_run (solo i (Z.to_nat (3 * (total_fragments s.2 - contiguous_fragments s.2) + 5))) s).1 !! i
    = Some (TInsert n data, PDone o).
Proof.
  intros Hl Hts Hi s. assert (Hinv := sys_run_inv schedule _ (spawn_inv ts len Hl Hts)). fold s in Hinv.
  assert (Hti : s.1.*1 !! i = Some (TInsert n data)).
  { unfold s. rewrite tasks_preserved. change (spawn ts, _).1 with (spawn ts). unfold spawn.
    change (map ?f ts) with (f <$> ts). by rewrite <- list_fmap_compose, list_lookup_fmap, Hi. }
  rewrite list_lookup_fmap in Hti. destruct (s.1 !! i) as [[t p]|] eqn:E; [|done]. injection Hti as ->.
  apply (solo_finishes i n data p s); [done|done| |].
  - intros j f ->. revert E. apply no_sweep_in_insert. intros i' n' d' j' f'. cbn [fst].
    unfold spawn. change (map ?f ts) with (f <$> ts). rewrite list_lookup_fmap. by destruct (ts !! i').
  - destruct Hinv as [_ Hc _ _]. unfold steps_left. destruct p; try case_match; lia.
Qed.

Lemma insert_obstruction_free_witness :
  let ts := [TInsert 2 [Byte.x62]; TInsert 1 [Byte.x61]] in
  let s := sys_run [(0%nat, false); (0%nat, false); (1%nat, false)] (spawn ts, new_with_time_source 3000) in
  exists o, (sys_run (solo 1 (Z.to_nat (3 * (total_fragments s.2 - contiguous_fragments s.2) + 5))) s).1 !! 1%nat
    = Some (TInsert 1 [Byte.x61], PDone o).
Proof.
  intros ts. apply (insert_obstruction_free 3000 ts [(0%nat, false); (0%nat, false); (1%nat, false)] 1 1 [Byte.x61]);
    [lia| |reflexivity].
  repeat constructor; simpl; unfold is_u32, u32_max; lia.
Defined.

(** The single-threaded [insert] is the concurrent one without interference:
    an insertion task that runs alone ends with the buffer and the result of
    [insert]. *)
Lemma insert_refines_task (n : Z) (data : bytes) (b : LockFreeStreamBuffer) :
  shape b -> 0 <= contiguous_fragments b <= total_fragments b -> 0 <= n ->
  exists k, sys_run (solo 0 k) ([(TInsert n data, PStart)], b)
    = ([(TInsert n data, PDone (RInsert (insert n data b).2))], (insert n data b).1).
Proof.
  intros Hsh Hc Hn0. unfold insert.
  destruct ((n =? 0) || (total_fragments b <? n)) eqn:E1.
  { exists 1%nat. rewrite solo_run_cons. simpl. by rewrite E1. }
  destruct (n <=? consumed_frontier b) eqn:E2.
  { exists 1%nat. rewrite solo_run_cons. simpl. by rewrite E1, E2. }
  destruct (slot n b) as [d|] eqn:E3.
  { exists 2%nat. rewrite !solo_run_cons. simpl. rewrite E1, E2. simpl. by rewrite E3. }
  destruct (solo_advance n data (S (Z.to_nat (total_fragments b))) (set_slot n (Some data) b)) as [k Hk];
    [by apply shape_set_slot|done|simpl; lia|].
  exists (S (S k)). rewrite !solo_run_cons. simpl. rewrite E1, E2. simpl. rewrite E3. exact Hk.
Qed.

Lemma insert_refines_task_witness :
  exists k, sys_run (solo 0 k) ([(TInsert 1 [Byte.x61], PStart)], new_with_time_source 2000)
    = ([(TInsert 1 [Byte.x61], PDone (RInsert (insert 1 [Byte.x61] (new_with_time_source 2000)).2))],
       (insert 1 [Byte.x61] (new_with_time_source 2000)).1).
Proof.
  apply (insert_refines_task 1 [Byte.x61] (new_with_time_source 2000)); [|vm_compute; split; discriminate|lia].
  split; vm_compute; reflexivity.
Defined.

(** A consumer of a complete buffer reads the whole stream. Polled until it
    ends, a [StreamingInboundStream] (reclaiming or not) on a buffer that holds
    every fragment yields the sender's payloads in order, hence the stream's
    bytes, and then reports the end. *)
Lemma consumer_reads_stream (data : bytes) (metadata : option bytes) (h : StreamHandle)
    (reclaim : bool) :
  let fs := map payload (send_stream data metadata) in
  readable fs 0 h ->
  exists st h' ds, poll_all (S (length fs)) (stream reclaim) h = (st, h', ds, Ready None)
    /\ concat ds = data.
Proof.
  intros fs Hr. destruct (poll_all_reads fs 0 h reclaim 0 (S (length fs)) Hr ltac:(lia) ltac:(lia))
    as (st & h' & Heq). exists st, h', fs. split; [exact Heq|]. apply send_stream_payloads.
Qed.

Lemma consumer_reads_stream_witness :
  let s := sys_run demo_schedule (spawn demo_tasks, new_with_time_source 1125) in
  exists st h' ds, poll_all 3 (stream true) (mkHandle s.2 false) = (st, h', ds, Ready None)
    /\ concat ds = demo_data.
Proof.
  intros s. apply (consumer_reads_stream demo_data (Some [Byte.x01; Byte.x02]) (mkHandle s.2 false) true).
  split_and!; [done|split; vm_compute; reflexivity|vm_compute; reflexivity|vm_compute; discriminate|].
  intros j _ Hj. assert (Hj2 : Z.of_nat j < 2) by exact Hj.
  destruct j as [|[|j]]; [vm_compute; reflexivity..|lia].
Defined.

(** A consumer can end early. The stream of [demo_data] with metadata needs the
    overflow slot, but [is_complete] counts only the base number of fragments: once
    fragment 1 is in, the buffer calls itself complete, [assemble] refuses, and
    [poll_next] answers that the stream has ended after 1119 of 1125 bytes, although
    fragment 2 is still accepted when it arrives. *)
Example poll_ends_before_overflow_fragment :
  match send_stream demo_data (Some [Byte.x01; Byte.x02]) with
  | [f1; f2] =>
      let h1 := (push_fragment 1 (payload f1) (mkHandle (new_with_time_source 1125) false)).1 in
      let '(st, h2, ds, p) := poll_all 5 (stream false) h1 in
      is_complete (buffer h1) = true /\ try_assemble h1 = None
      /\ p = Ready None /\ bytes_read st = 1119 /\ length (concat ds) = 1119%nat
      /\ (push_fragment 2 (payload f2) h2).2 = inl true
  | _ => False
  end.
Proof. vm_compute. done. Qed.

(** Slots are not write-once after [take]. The buffer remembers consumption
    only through [mark_consumed]: a fragment that was taken is accepted again as
    new when a retransmission of it arrives. *)
Example taken_fragment_inserted_again :
  let b1 := (insert 1 [Byte.x61] (new_with_time_source 2000)).1 in
  let '(b2, taken) := take_fragment 1 b1 in
  taken = Some [Byte.x61] /\ (insert 1 [Byte.x61] b2).2 = Inserted true
  /\ get 1 (insert 1 [Byte.x61] b2).1 = Some [Byte.x61].
Proof. vm_compute. done. Qed.

End StreamingBuffer.
