(* ===== verification/SymmetricMessage.v ===== *)
(** * Messages on the wire and how they are cut into packets

    Models [src/crates/core/src/transport/symmetric_message.rs] and the part of
    [packet_sending] ([peer_connection.rs]) that decides which packets carry a
    message and its receipts.

    Encoding is the [bincode] crate's; the code consults it through
    [serialized_size], which is a parameter here.  [bincode_layout] states what
    the crate documents for its default fixed-width configuration: integers at
    their width, a 4-byte variant tag, 8-byte lengths, a 1-byte option tag. *)

From S2P Require Import Prelude StreamingBuffer.

Module SymmetricMessage.

Abbreviation PacketId := Z (only parsing).
Abbreviation StreamId := Z (only parsing).
Abbreviation bytes := StreamingBuffer.bytes (only parsing).
Abbreviation MAX_DATA_SIZE := StreamingBuffer.PACKET_MAX_DATA_SIZE (only parsing).

(** ** Messages *)

Record SocketAddr := mkAddr { ip : bytes; port : Z }.

Record OutboundConnection := mkOutbound { key : bytes; remote_addr : SocketAddr }.

Inductive SymmetricMessagePayload :=
  | AckConnection (result : OutboundConnection + bytes)
  | ShortMessage (payload : bytes)
  | StreamFragment (stream_id : StreamId) (total_length_bytes fragment_number : Z)
      (payload : bytes) (metadata_bytes : option bytes)
  | NoOp
  | Ping (sequence : Z)
  | Pong (sequence : Z).

Record SymmetricMessage := mkMessage {
  packet_id : PacketId;
  confirm_receipt : list PacketId;
  message_payload : SymmetricMessagePayload;
}.

Definition FIRST_PACKET_ID : PacketId := 0.

Section wire.
Variable serialized_size : SymmetricMessage -> Z.

Definition short_message_overhead : Z :=
  serialized_size (mkMessage u32_max [] (ShortMessage [])).

Definition noop_message_overhead : Z :=
  serialized_size (mkMessage u32_max [] NoOp).

(** [stream_id] stands for the [StreamId::next()] of the blank message. *)
Definition stream_fragment_overhead (stream_id : StreamId) : Z :=
  serialized_size (mkMessage u32_max [] (StreamFragment stream_id u64_max u32_max [] None)).

Definition max_num_of_confirm_receipts_of_noop_message : Z :=
  (MAX_DATA_SIZE -w64 noop_message_overhead) / 4.

(** [to_packet_data]: [None] is the error of a message that does not fit.  The
    message stands for its encrypted packet. *)
Definition to_packet_data (m : SymmetricMessage) : option SymmetricMessage :=
  if MAX_DATA_SIZE <? serialized_size m then None else Some m.

Definition serialize_msg_to_packet_data (packet_id : PacketId) (payload : SymmetricMessagePayload)
    (confirm_receipt : list PacketId) : option SymmetricMessage :=
  to_packet_data (mkMessage packet_id confirm_receipt payload).

Definition try_serialize_msg_to_packet_data (packet_id : PacketId)
    (payload : SymmetricMessagePayload) (confirm_receipt : list PacketId)
    : SymmetricMessage + (SymmetricMessagePayload * list PacketId) :=
  let msg := mkMessage packet_id confirm_receipt payload in
  if serialized_size msg <=? MAX_DATA_SIZE then inl msg
  else inr (message_payload msg, SymmetricMessage.confirm_receipt msg).

(** ** [packet_sending]: the packets of a message

    The [while] loop that spreads receipts over [NoOp] packets.  Every iteration
    but the last shortens [confirm_receipt], so its length is fuel enough. *)
Fixpoint receipt_packets (fuel : nat) (packet_id : PacketId) (confirm_receipt : list PacketId)
    (packets : list SymmetricMessage) : option (list SymmetricMessage) :=
  match fuel, confirm_receipt with
  | _, [] => Some packets
  | O, _ => None
  | S fuel', _ =>
      let max_num := max_num_of_confirm_receipts_of_noop_message in
      if Z.of_nat (length confirm_receipt) <=? max_num then
        p ← serialize_msg_to_packet_data packet_id NoOp confirm_receipt;
        Some (packets ++ [p])
      else
        let receipts := drop (Z.to_nat max_num) confirm_receipt in
        let confirm_receipt := take (Z.to_nat max_num) confirm_receipt in
        p ← serialize_msg_to_packet_data packet_id NoOp receipts;
        receipt_packets fuel' packet_id confirm_receipt (packets ++ [p])
  end.

(** The packets [packet_sending] hands to the socket, in order; [None] when one
    of them cannot be serialized, in which case nothing is sent. *)
Definition packet_plan (packet_id : PacketId) (payload : SymmetricMessagePayload)
    (confirm_receipt : list PacketId) : option (list SymmetricMessage) :=
  match try_serialize_msg_to_packet_data packet_id payload confirm_receipt with
  | inl packet => Some [packet]
  | inr (payload, confirm_receipt) =>
      let max_num := max_num_of_confirm_receipts_of_noop_message in
      packet ← serialize_msg_to_packet_data packet_id payload [];
      if Z.of_nat (length confirm_receipt) <? max_num then
        ack ← serialize_msg_to_packet_data packet_id NoOp confirm_receipt;
        Some [packet; ack]
      else receipt_packets (length confirm_receipt) packet_id confirm_receipt [packet]
  end.

(** [PeerConnection::send]: whether serialized data goes as a stream. *)
Definition sent_as_stream (data : bytes) : bool :=
  MAX_DATA_SIZE <? Z.of_nat (length data) + short_message_overhead.

(** [pipe_stream]: the metadata a piped first fragment carries. *)
Definition piped_metadata (payload : bytes) (pending_metadata : option bytes) : option bytes :=
  match pending_metadata with
  | Some meta =>
      let required_size := Z.of_nat (length payload) + 41 + Z.of_nat (length meta) in
      if required_size <=? MAX_DATA_SIZE then Some meta else None
  | None => None
  end.

(** The message a fragment of [send_stream] travels in. *)
Definition fragment_payload (stream_id : StreamId) (total_length_bytes : Z)
    (f : StreamingBuffer.Fragment) : SymmetricMessagePayload :=
  StreamFragment stream_id total_length_bytes (StreamingBuffer.fragment_number f)
    (StreamingBuffer.payload f) (StreamingBuffer.metadata_bytes f).

(** ** What [bincode] documents *)

Definition bytes_size (b : bytes) : Z := 8 + Z.of_nat (length b).

Definition header_size (m : SymmetricMessage) : Z :=
  4 + (8 + 4 * Z.of_nat (length (confirm_receipt m))) + 4.

Definition bincode_layout : Prop :=
  forall m, serialized_size m = header_size m +
    match message_payload m with
    | AckConnection (inl c) => 4 + 16 + (4 + Z.of_nat (length (ip (remote_addr c))) + 2)
    | AckConnection (inr e) => 4 + bytes_size e
    | ShortMessage p => bytes_size p
    | StreamFragment _ _ _ p meta =>
        4 + 8 + 4 + bytes_size p + match meta with None => 1 | Some b => 1 + bytes_size b end
    | NoOp => 0
    | Ping _ | Pong _ => 8
    end.

(** ** Lemmas *)

Hypothesis layout : bincode_layout.

Lemma max_num_value : max_num_of_confirm_receipts_of_noop_message = 288.
Proof.
  unfold max_num_of_confirm_receipts_of_noop_message, noop_message_overhead.
  by rewrite layout.
Qed.

Lemma noop_size id rs : serialized_size (mkMessage id rs NoOp) = 16 + 4 * Z.of_nat (length rs).
Proof. rewrite layout. unfold header_size. simpl. lia. Qed.

Lemma noop_fits id rs :
  serialize_msg_to_packet_data id NoOp rs
  = if Z.of_nat (length rs) <=? 288 then Some (mkMessage id rs NoOp) else None.
Proof.
  unfold serialize_msg_to_packet_data, to_packet_data. rewrite noop_size.
  change MAX_DATA_SIZE with 1171. repeat case_bool; to_props; first [done|lia].
Qed.

(** Adding receipts to a message adds four bytes for each. *)
Lemma receipts_size id rs p :
  serialized_size (mkMessage id rs p)
  = serialized_size (mkMessage id [] p) + 4 * Z.of_nat (length rs).
Proof. rewrite !layout. unfold header_size. simpl. lia. Qed.

Lemma receipt_packets_spec id rs packets :
  0 < Z.of_nat (length rs) ->
  receipt_packets (length rs) id rs packets
  = if Z.of_nat (length rs) <=? 288 then Some (packets ++ [mkMessage id rs NoOp])
    else if Z.of_nat (length rs) <=? 576
    then Some (packets ++ [mkMessage id (drop 288 rs) NoOp; mkMessage id (take 288 rs) NoOp])
    else None.
Proof.
  intros Hpos. destruct rs as [|r rs]; [simpl in Hpos; lia|]. revert Hpos.
  generalize (r :: rs) as l. intros l Hpos.
  assert (Hstep : forall f, l <> [] -> receipt_packets (S f) id l packets =
    if Z.of_nat (length l) <=? 288 then Some (packets ++ [mkMessage id l NoOp])
    else (p ← serialize_msg_to_packet_data id NoOp (drop 288 l);
          receipt_packets f id (take 288 l) (packets ++ [p]))).
  { intros f Hl. destruct l; [done|]. cbn [receipt_packets]. rewrite max_num_value.
    destruct (_ <=? 288) eqn:E; [|done]. rewrite noop_fits, E. done. }
  assert (Hl : l <> []) by (intros ->; simpl in Hpos; lia).
  destruct (length l) as [|n] eqn:En; [lia|]. rewrite Hstep by done. rewrite ?En.
  destruct (Z.of_nat (S n) <=? 288) eqn:E; [done|]. to_props.
  rewrite noop_fits, length_drop, En.
  destruct (Z.of_nat (S n) <=? 576) eqn:E2; to_props.
  - rewrite (proj2 (Z.leb_le _ _)) by lia. simpl.
    destruct n as [|n]; [lia|].
    destruct (take 288 l) as [|x xs] eqn:Et.
    { apply (f_equal length) in Et. rewrite length_take in Et. cbn [length] in Et. lia. }
    cbn [receipt_packets]. rewrite max_num_value, noop_fits, <- Et, length_take.
    rewrite (proj2 (Z.leb_le _ _)) by lia. simpl. by rewrite <- app_assoc.
  - by rewrite (proj2 (Z.leb_gt _ _)) by lia.
Qed.

(** The outcome of [packet_plan], case by case. *)
Lemma packet_plan_cases id p rs :
  packet_plan id p rs =
    let size := serialized_size (mkMessage id [] p) in
    let n := Z.of_nat (length rs) in
    if size + 4 * n <=? 1171 then Some [mkMessage id rs p]
    else if 1171 <? size then None
    else if n <=? 288 then Some [mkMessage id [] p; mkMessage id rs NoOp]
    else if n <=? 576
    then Some [mkMessage id [] p; mkMessage id (drop 288 rs) NoOp; mkMessage id (take 288 rs) NoOp]
    else None.
Proof.
  assert (Hs : serialize_msg_to_packet_data id p [] =
    if 1171 <? serialized_size (mkMessage id [] p) then None else Some (mkMessage id [] p)) by reflexivity.
  unfold packet_plan, try_serialize_msg_to_packet_data. rewrite max_num_value, (receipts_size id rs).
  change MAX_DATA_SIZE with 1171. cbv zeta. revert Hs.
  generalize (serialized_size (mkMessage id [] p)) as size. intros size Hs.
  destruct (size + 4 * Z.of_nat (length rs) <=? 1171) eqn:E; [done|].
  cbn [message_payload SymmetricMessage.confirm_receipt]. rewrite Hs.
  destruct (1171 <? size) eqn:E2; [done|]. to_props. cbn [mbind option_bind].
  destruct (Z.of_nat (length rs) <? 288) eqn:E3; to_props.
  - rewrite noop_fits, (proj2 (Z.leb_le _ _)) by lia. done.
  - by rewrite receipt_packets_spec by lia.
Qed.

Lemma fragment_size id sid total f :
  serialized_size (mkMessage id [] (fragment_payload sid total f))
  = 41 + Z.of_nat (length (StreamingBuffer.payload f))
    + match StreamingBuffer.metadata_bytes f with None => 0 | Some m => 8 + Z.of_nat (length m) end.
Proof.
  rewrite layout. unfold header_size, bytes_size. cbn.
  destruct (StreamingBuffer.metadata_bytes f); lia.
Qed.

(** A plan without receipts is one packet, or an error. *)
Lemma packet_plan_single id p :
  packet_plan id p [] =
    if serialized_size (mkMessage id [] p) <=? 1171 then Some [mkMessage id [] p] else None.
Proof.
  rewrite packet_plan_cases. simpl. generalize (serialized_size (mkMessage id [] p)) as size.
  intros size. rewrite Z.add_0_r. repeat case_bool; to_props; first [done|lia].
Qed.

End wire.

(** The payload of a fragment of [send_loop] leaves room for its metadata. *)
Lemma send_loop_room n k s pm f :
  f ∈ StreamingBuffer.send_loop n k s pm ->
  match StreamingBuffer.metadata_bytes f with
  | None => Z.of_nat (length (StreamingBuffer.payload f)) <= 1130
  | Some m => pm = Some m
      /\ Z.of_nat (length (StreamingBuffer.payload f)) <= sat_sub 1130 (9 + Z.of_nat (length m))
  end.
Proof.
  revert k s pm. induction n as [|n IH]; intros k s pm Hf; [by apply not_elem_of_nil in Hf|].
  cbn [StreamingBuffer.send_loop] in Hf. rewrite StreamingBuffer.MAX_DATA_SIZE_value in Hf.
  destruct (if k =? 1 then (pm, None) else (None, pm)) as [meta pending] eqn:Em.
  destruct (if _ <? _ then _ else _) as [fragment rest] eqn:Ef.
  apply elem_of_cons in Hf as [->|Hf].
  - cbn. assert (Hlen : Z.of_nat (length fragment) <=
      match meta with Some m => sat_sub 1130 (StreamingBuffer.meta_overhead m) | None => 1130 end).
    { destruct (_ <? _) eqn:E in Ef; to_props; simplify_eq; [|done]. rewrite length_take.
      destruct meta; unfold sat_sub in *; lia. }
    destruct meta as [m|]; [|done]. destruct (Z.eqb_spec k 1); simplify_eq. done.
  - specialize (IH _ _ _ Hf). destruct (StreamingBuffer.metadata_bytes f) as [m|]; [|done].
    destruct IH as (-> & IH). by destruct (Z.eqb_spec k 1); simplify_eq.
Qed.

(** The sizes [bincode] computes, written out. *)
Definition bincode_size (m : SymmetricMessage) : Z :=
  header_size m +
    match message_payload m with
    | AckConnection (inl c) => 4 + 16 + (4 + Z.of_nat (length (ip (remote_addr c))) + 2)
    | AckConnection (inr e) => 4 + bytes_size e
    | ShortMessage p => bytes_size p
    | StreamFragment _ _ _ p meta =>
        4 + 8 + 4 + bytes_size p + match meta with None => 1 | Some b => 1 + bytes_size b end
    | NoOp => 0
    | Ping _ | Pong _ => 8
    end.

Lemma bincode_size_layout : bincode_layout bincode_size.
Proof. done. Qed.

(** C38: the packets of a message. [packet_sending] refuses a message exactly when the
    payload alone is too large for a datagram, or when more than 576 receipts come with
    a payload that leaves no room for them. Otherwise every packet it sends fits in a
    datagram and carries the message's packet id; the first one carries the payload,
    any others are [NoOp]s, and between them they carry every receipt exactly once. *)
Theorem packet_plan_correct (ss : SymmetricMessage -> Z) (id : PacketId)
    (p : SymmetricMessagePayload) (rs : list PacketId) :
  bincode_layout ss ->
  (packet_plan ss id p rs = None <->
    MAX_DATA_SIZE < ss (mkMessage id [] p)
    \/ 576 < Z.of_nat (length rs) /\ MAX_DATA_SIZE < ss (mkMessage id rs p))
  /\ (forall ps, packet_plan ss id p rs = Some ps ->
      Forall (fun m => packet_id m = id /\ ss m <= MAX_DATA_SIZE) ps
      /\ (exists rs0 rest, ps = mkMessage id rs0 p :: rest /\ Forall (fun m => message_payload m = NoOp) rest)
      /\ concat (map confirm_receipt ps) ≡ₚ rs).
Proof.
  intros Hl. rewrite packet_plan_cases by done. cbv zeta.
  pose proof (receipts_size ss Hl id rs p) as Hs. pose proof (noop_size ss Hl id) as Hn.
  change MAX_DATA_SIZE with 1171. split.
  { repeat case_bool; to_props; split; intros; first [done|lia]. }
  intros ps Hps. destruct (_ <=? 1171) eqn:E1 in Hps; to_props.
  { simplify_eq. split_and!; [|by exists rs, []|simpl; by rewrite app_nil_r]. by apply Forall_singleton; simpl; lia. }
  destruct (1171 <? _) eqn:E2 in Hps; to_props; [done|].
  destruct (_ <=? 288) eqn:E3 in Hps; to_props.
  { simplify_eq. split_and!; [|by eexists _, [_]; repeat constructor|simpl; by rewrite app_nil_r].
    by apply Forall_cons_2; [|apply Forall_singleton]; rewrite ?Hn; simpl; lia. }
  destruct (_ <=? 576) eqn:E4 in Hps; to_props; [|done]. simplify_eq.
  split_and!; [|by eexists _, [_; _]; repeat constructor|].
  - repeat first [apply Forall_cons_2|apply Forall_nil_2]; rewrite ?Hn, ?length_drop, ?length_take; cbn [packet_id]; lia.
  - cbn [map concat app confirm_receipt]. rewrite app_nil_r, Permutation_app_comm. by rewrite take_drop.
Qed.

Lemma packet_plan_correct_witness :
  exists ps, packet_plan bincode_size 7 (ShortMessage (replicate 1140 Byte.x00)) [1; 2; 3] = Some ps
    /\ concat (map confirm_receipt ps) ≡ₚ [1; 2; 3].
Proof.
  destruct (packet_plan_correct bincode_size 7 (ShortMessage (replicate 1140 Byte.x00)) [1; 2; 3]
    bincode_size_layout) as [_ H].
  destruct (packet_plan _ _ _ _) as [ps|] eqn:E; [|vm_compute in E; discriminate].
  exists ps. split; [done|by apply H].
Defined.

(** Routing of messages. [PeerConnection::send] sends serialized data as a
    short message exactly when that can be done: with up to 576 receipts to
    carry along, a message below the threshold always has a plan, and one above
    it has none. *)
Lemma short_message_sendable (ss : SymmetricMessage -> Z) (id : PacketId) (data : bytes)
    (rs : list PacketId) :
  bincode_layout ss -> Z.of_nat (length rs) <= 576 ->
  is_Some (packet_plan ss id (ShortMessage data) rs) <-> sent_as_stream ss data = false.
Proof.
  intros Hl Hrs. rewrite packet_plan_cases by done. cbv zeta.
  assert (Hd : ss (mkMessage id [] (ShortMessage data)) = Z.of_nat (length data) + short_message_overhead ss).
  { unfold short_message_overhead. rewrite !Hl. unfold header_size, bytes_size. simpl. lia. }
  unfold sent_as_stream. rewrite Hd. change MAX_DATA_SIZE with 1171.
  generalize (Z.of_nat (length data) + short_message_overhead ss) as size. intros size.
  split.
  - intros [ps H]. repeat case_bool; to_props; first [done|lia].
  - intros H. repeat case_bool; to_props; first [apply (mk_is_Some _ _ eq_refl)|lia].
Qed.

Lemma short_message_sendable_witness :
  is_Some (packet_plan bincode_size 7 (ShortMessage (replicate 1147 Byte.x00)) [1; 2])
  /\ ~ is_Some (packet_plan bincode_size 7 (ShortMessage (replicate 1148 Byte.x00)) [1; 2]).
Proof.
  split.
  - apply (short_message_sendable bincode_size 7 _ _ bincode_size_layout); [simpl; lia|].
    by vm_compute.
  - intros H. apply (short_message_sendable bincode_size 7 _ _ bincode_size_layout) in H; [|simpl; lia].
    by vm_compute in H.
Defined.

(** Every fragment of a stream is one datagram. The fragments [send_stream]
    cuts, sent without receipts, each fit in a single packet if and only if the
    metadata embedded in the first one is at most 1122 bytes. This is the guard
    that the abort path of [send_stream] relies on when it releases a failed
    fragment's bytes. *)
Lemma fragments_fit_one_packet (ss : SymmetricMessage -> Z) (data : bytes)
    (metadata : option bytes) (id : PacketId) (stream_id : StreamId) (total : Z) :
  bincode_layout ss ->
  Forall (fun f => packet_plan ss id (fragment_payload stream_id total f) []
    = Some [mkMessage id [] (fragment_payload stream_id total f)])
    (StreamingBuffer.send_stream data metadata)
  <-> match metadata with None => True | Some m => Z.of_nat (length m) <= 1122 end.
Proof.
  intros Hl. split.
  - destruct metadata as [m|]; [|done]. unfold StreamingBuffer.send_stream.
    destruct (Z.to_nat _) as [|n] eqn:En.
    { pose proof (StreamingBuffer.total_packets_pos m (Z.of_nat (length data))). lia. }
    cbn [StreamingBuffer.send_loop Z.eqb Pos.eqb]. destruct (if _ <? _ then _ else _) as [x y].
    intros Hf%Forall_inv. rewrite packet_plan_single, fragment_size in Hf by done. cbn in Hf.
    destruct (_ <=? 1171) eqn:E in Hf; [|done]. to_props. lia.
  - intros Hm. apply Forall_forall. intros f Hf. apply send_loop_room in Hf.
    rewrite packet_plan_single, fragment_size by done.
    rewrite (proj2 (Z.leb_le _ _)); [done|].
    destruct (StreamingBuffer.metadata_bytes f) as [m|]; [|lia].
    destruct Hf as (-> & Hf). unfold sat_sub in Hf. lia.
Qed.

Lemma fragments_fit_one_packet_witness :
  Forall (fun f => packet_plan bincode_size 7 (fragment_payload 1 1300 f) []
    = Some [mkMessage 7 [] (fragment_payload 1 1300 f)])
    (StreamingBuffer.send_stream (replicate 1300 Byte.x00) (Some (replicate 40 Byte.x01))).
Proof.
  apply (fragments_fit_one_packet bincode_size _ _ _ _ _ bincode_size_layout). simpl. lia.
Defined.

(** The rule [pipe_stream] uses to embed metadata is not the one of the wire
    format: it counts 41 bytes of overhead, which include the option tag of
    [metadata_bytes] but not the 8-byte length a present value carries. When the
    rule embeds metadata and less than 8 bytes are left over, the fragment does
    not fit and the piped stream is aborted with a serialization error. *)
Lemma piped_metadata_may_not_fit (ss : SymmetricMessage -> Z) (payload meta : bytes)
    (id : PacketId) (stream_id : StreamId) (total : Z) :
  bincode_layout ss -> piped_metadata payload (Some meta) = Some meta ->
  packet_plan ss id (StreamFragment stream_id total 1 payload (piped_metadata payload (Some meta))) [] = None
  <-> MAX_DATA_SIZE - 8 < Z.of_nat (length payload) + 41 + Z.of_nat (length meta).
Proof.
  intros Hl Hp. rewrite packet_plan_single by done. rewrite Hp.
  change (StreamFragment stream_id total 1 payload (Some meta)) with
    (fragment_payload stream_id total (StreamingBuffer.mkFragment 1 payload (Some meta))).
  rewrite fragment_size by done. cbn [StreamingBuffer.payload StreamingBuffer.metadata_bytes].
  change MAX_DATA_SIZE with 1171. case_bool; to_props; split; intros; first [done|lia].
Qed.

End SymmetricMessage.
