(* ===== verification/CongestionControl.v ===== *)
(** * Congestion control: the interface and the fixed-rate controller

    Models the trait [CongestionControl] of
    [src/crates/core/src/transport/congestion_control.rs], as far as a connection
    uses it, and the default implementation,
    [src/crates/core/src/transport/fixed_rate/controller.rs].

    [Class CongestionControl] has the operations; [Class FlightAccounting] has
    the contract the trait documents for the flight size, against which the
    connection's theorems are proved.  The clock a controller may read is an
    argument. *)

From S2P Require Import Prelude StreamingBuffer SentPacketTracker.

Module CongestionControl.

Abbreviation DeliveryRateToken := SentPacketTracker.DeliveryRateToken (only parsing).
Abbreviation MAX_PACKET_SIZE := StreamingBuffer.MAX_PACKET_SIZE (only parsing).

(** ** The trait *)

Class CongestionControl (C : Type) := {
  on_send_with_token : Z -> Z -> C -> C * option DeliveryRateToken;
  on_ack_with_token : Z -> Z -> Z -> option DeliveryRateToken -> C -> C;
  on_ack_without_rtt : Z -> Z -> C -> C;
  on_loss : Z -> C -> C;
  on_timeout : Z -> C -> C;
  release_flightsize : Z -> C -> C;
  current_cwnd : C -> Z;
  flightsize : C -> Z;
}.

(** What the trait's documentation promises about the flight size: [usize]
    addition on a send, a saturating decrement on an acknowledgement or a release,
    no change on a loss or a timeout. *)
Class FlightAccounting (C : Type) `{CongestionControl C} := {
  flightsize_send now n c :
    flightsize (on_send_with_token now n c).1 = flightsize c +w64 n;
  flightsize_ack now rtt n token c :
    flightsize (on_ack_with_token now rtt n token c) = sat_sub (flightsize c) n;
  flightsize_ack_without_rtt now n c :
    flightsize (on_ack_without_rtt now n c) = sat_sub (flightsize c) n;
  flightsize_loss now c : flightsize (on_loss now c) = flightsize c;
  flightsize_timeout now c : flightsize (on_timeout now c) = flightsize c;
  flightsize_release n c : flightsize (release_flightsize n c) = sat_sub (flightsize c) n;
}.

(** ** The fixed-rate controller *)

Module FixedRate.

Definition DEFAULT_RATE_BYTES_PER_SEC : Z := 1250000.
Definition LOSS_PAUSE_MARGIN : Z := 50 * MAX_PACKET_SIZE.

Record FixedRateController := mkFixedRate {
  rate : Z;
  bytes_in_flight : Z;
  loss_pause_cwnd : Z;
}.

Definition new_with_time_source (rate_bytes_per_sec : Z) : FixedRateController :=
  mkFixedRate rate_bytes_per_sec 0 0.

Definition send (bytes : Z) (c : FixedRateController) : FixedRateController :=
  mkFixedRate (rate c) (bytes_in_flight c +w64 bytes) (loss_pause_cwnd c).

Definition ack_without_rtt (bytes_acked : Z) (c : FixedRateController) : FixedRateController :=
  mkFixedRate (rate c) (sat_sub (bytes_in_flight c) bytes_acked) 0.

Definition loss (c : FixedRateController) : FixedRateController :=
  mkFixedRate (rate c) (bytes_in_flight c) (Z.max (bytes_in_flight c) 1).

Definition timeout (c : FixedRateController) : FixedRateController :=
  mkFixedRate (rate c) (bytes_in_flight c) (Z.max (bytes_in_flight c) 1).

Definition release (bytes : Z) (c : FixedRateController) : FixedRateController :=
  mkFixedRate (rate c) (sat_sub (bytes_in_flight c) bytes) (loss_pause_cwnd c).

Definition cwnd (c : FixedRateController) : Z :=
  let paused_at := loss_pause_cwnd c in
  if 0 <? paused_at then paused_at +w64 LOSS_PAUSE_MARGIN else usize_max / 2.

(** The [FixedRate] arms of [CongestionController]: no delivery token, and the
    RTT sample is ignored. *)
#[export] Instance fixed_rate_control : CongestionControl FixedRateController := {|
  on_send_with_token _ bytes c := (send bytes c, None);
  on_ack_with_token _ _ bytes_acked _ c := ack_without_rtt bytes_acked c;
  on_ack_without_rtt _ bytes_acked c := ack_without_rtt bytes_acked c;
  on_loss _ c := loss c;
  on_timeout _ c := timeout c;
  release_flightsize bytes c := release bytes c;
  current_cwnd := cwnd;
  flightsize := bytes_in_flight;
|}.

#[export] Instance fixed_rate_accounting : FlightAccounting FixedRateController.
Proof. by split. Qed.

(** A fragment of at most a packet is admitted by the congestion window whenever
    the flight size has dropped to at most [LOSS_PAUSE_MARGIN - MAX_PACKET_SIZE],
    whatever losses came before: a pause can slow a stream but not stop it. *)
Lemma cwnd_admits (c : FixedRateController) (packet_size : Z) :
  0 <= bytes_in_flight c <= LOSS_PAUSE_MARGIN - MAX_PACKET_SIZE ->
  0 <= packet_size <= MAX_PACKET_SIZE ->
  0 <= loss_pause_cwnd c < usize_max - LOSS_PAUSE_MARGIN ->
  bytes_in_flight c + packet_size <= cwnd c.
Proof.
  change LOSS_PAUSE_MARGIN with 60000. change MAX_PACKET_SIZE with 1200.
  intros Hf Hp Hl. unfold cwnd. change LOSS_PAUSE_MARGIN with 60000. case_bool; to_props.
  - rewrite wrap64_id by int_lia. lia.
  - change (usize_max / 2) with 9223372036854775807. lia.
Qed.

End FixedRate.

End CongestionControl.
