(* ===== verification/Connection.v ===== *)
(** * A connection: flight-size accounting across concurrent tasks

    Models how [src/crates/core/src/transport/peer_connection.rs] and
    [src/crates/core/src/transport/peer_connection/outbound_stream.rs] use the
    packet tracker and the congestion controller of a connection.

    A connection is served by one task ([recv], [send], the acknowledgement and
    resend timers) and by one spawned task per outbound stream ([send_stream],
    [pipe_stream]).  They share the packet-id counter, the tracker (behind a
    mutex) and the controller (atomics).  Each access to one of them is a step of
    its own here: [task_step] advances one task from one access to the next, with
    the socket's answers and the clock supplied by the environment, and [run]
    interleaves the tasks in any order.

    On a connection a gateway accepted there is one access more.  The handler of
    [src/crates/core/src/transport/connection_handler.rs] hands the connection over
    and then registers the acknowledgement of the handshake with its tracker, under
    [FIRST_PACKET_ID] and without telling the controller: the step [Handler], which
    may fall anywhere between the steps of the tasks. *)

From S2P Require Import Prelude StreamingBuffer SentPacketTracker ReceivedPacketTracker.
From S2P Require Import SymmetricMessage CongestionControl.

Module Connection.

Import CongestionControl.
Module S := SentPacketTracker.
Module M := SymmetricMessage.

Abbreviation PacketId := Z (only parsing).
Abbreviation StreamId := Z (only parsing).
Abbreviation bytes := StreamingBuffer.bytes (only parsing).

#[local] Existing Instance S.PacketStream_eq_dec.

#[export] Instance PacketStream_countable : Countable S.PacketStream.
Proof.
  refine (inj_countable' (fun s => match s with S.Stream i => Some i | S.Control => None end)
    (fun o => match o with Some i => S.Stream i | None => S.Control end) _).
  by intros [].
Defined.

Section connection.
Context {C : Type} `{!CongestionControl C}.
(** Encoding and encryption of a message. *)
Variable serialized_size : M.SymmetricMessage -> Z.
Variable seal : M.SymmetricMessage -> bytes.

(** ** State *)

(** What the tasks of a connection share. *)
Record RemoteConnection := mkConn {
  sent_tracker : S.SentPacketTracker;
  congestion_controller : C;
  last_packet_id : Z;
}.

Definition set_tracker (t : S.SentPacketTracker) (s : RemoteConnection) : RemoteConnection :=
  mkConn t (congestion_controller s) (last_packet_id s).
Definition set_controller (c : C) (s : RemoteConnection) : RemoteConnection :=
  mkConn (sent_tracker s) c (last_packet_id s).

(** [last_packet_id.fetch_add(1)] *)
Definition fetch_packet_id (s : RemoteConnection) : RemoteConnection * PacketId :=
  (mkConn (sent_tracker s) (congestion_controller s) (last_packet_id s +w32 1), last_packet_id s).

(** Where a task stands between two accesses to the shared state.  Tasks are
    identified by the [PacketStream] they tag their packets with: [Control] for
    the connection's own task, [Stream id] for the task of a stream. *)
Inductive pc :=
  | Ready
  | CallOnSend (id : PacketId) (size : Z) (p : M.SymmetricMessagePayload) (receipts : list PacketId)
  | FetchId (size : Z) (token : option DeliveryRateToken) (p : M.SymmetricMessagePayload)
      (receipts : list PacketId)
  | Sending (id : PacketId) (size : Z) (token : option DeliveryRateToken) (packets : list bytes)
      (registered : bool)
  | Registering (id : PacketId) (size : Z) (token : option DeliveryRateToken) (packet : bytes)
      (packets : list bytes) (registered : bool)
  | Failed (size : Z) (registered : bool)
  | Aborting (unregistered : list Z)
  | Releasing (amounts : list Z)
  | Acking (info : list S.ack_info_item)
  | TimingOut (id : PacketId) (packet : bytes)
  | Refreshing (id : PacketId) (packet : bytes)
  | Finished.

(** What the environment decides: which operation an idle task starts, and, while
    one is running, the clock and the socket's answer. *)
Inductive event :=
  | ShortMessage (data : bytes) (receipts : list PacketId)
  | Noop (now : Z) (receipts : list PacketId)
  | Fragment (packet_size : Z) (p : M.SymmetricMessagePayload)
  | Abort
  | Receipts (now : Z) (confirm_receipt : list PacketId)
  | ResendCheck (now now_end : Z)
  | Continue (now : Z) (socket_ok : bool).

(** ** Operations, one access at a time *)

(** [packet_sending]: from the message to the packets still to be sent. *)
Definition packet_sending (id : PacketId) (size : Z) (token : option DeliveryRateToken)
    (p : M.SymmetricMessagePayload) (receipts : list PacketId) : pc :=
  match M.packet_plan serialized_size id p receipts with
  | Some packets => Sending id size token (map seal packets) false
  | None => Failed size false
  end.

(** [outbound_short_message], up to the id it takes. *)
Definition outbound_short_message (data : bytes) (receipts : list PacketId) (s : RemoteConnection)
    : RemoteConnection * pc :=
  let '(s, packet_id) := fetch_packet_id s in
  let packet_size := Z.of_nat (length data) +w64 40 in
  (s, CallOnSend packet_id packet_size (M.ShortMessage data) receipts).

(** [noop], up to [on_send_with_token]. *)
Definition noop (now : Z) (receipts : list PacketId) (s : RemoteConnection)
    : RemoteConnection * pc :=
  let '(c, token) := on_send_with_token now 50 (congestion_controller s) in
  (set_controller c s, FetchId 50 token M.NoOp receipts).

(** One fragment of [send_stream] or [pipe_stream], from the id it takes; the
    window and the token bucket have let it through. *)
Definition start_fragment (packet_size : Z) (p : M.SymmetricMessagePayload) (s : RemoteConnection)
    : RemoteConnection * pc :=
  let '(s, packet_id) := fetch_packet_id s in (s, CallOnSend packet_id packet_size p []).

Definition call_on_send (now : Z) (id : PacketId) (size : Z) (p : M.SymmetricMessagePayload)
    (receipts : list PacketId) (s : RemoteConnection) : RemoteConnection * pc :=
  let '(c, token) := on_send_with_token now size (congestion_controller s) in
  (set_controller c s, packet_sending id size token p receipts).

(** [report_sent_tagged] after a successful send; the operation ends with the
    last packet. *)
Definition register (now : Z) (tag : S.PacketStream) (id : PacketId) (size : Z)
    (token : option DeliveryRateToken) (packet : bytes) (packets : list bytes)
    (s : RemoteConnection) : RemoteConnection * pc :=
  (set_tracker (S.report_sent_tagged now id packet size token tag (sent_tracker s)) s,
   match packets with [] => Ready | _ => Sending id size token packets true end).

(** A failed send.  A stream aborts, and releases the fragment it could not
    register; [noop] and [outbound_short_message] return the error to a caller that
    does nothing about the bytes. *)
Definition send_failed (tag : S.PacketStream) (size : Z) : pc :=
  match tag with S.Stream _ => Aborting [size] | S.Control => Ready end.

(** [release_aborted_stream_flightsize]: drop the stream's packets, then release
    their bytes if there are any. *)
Definition drop_aborted (stream_id : StreamId) (unregistered : list Z) (s : RemoteConnection)
    : RemoteConnection * pc :=
  let '(t, released) := S.drop_stream stream_id (sent_tracker s) in
  (set_tracker t s,
   Releasing ((if 0 <? released then [Z.min released usize_max] else []) ++ unregistered)).

Definition release_next (tag : S.PacketStream) (amounts : list Z) (s : RemoteConnection)
    : RemoteConnection * pc :=
  match amounts with
  | n :: rest => (set_controller (release_flightsize n (congestion_controller s)) s, Releasing rest)
  | [] => (s, match tag with S.Stream _ => Finished | S.Control => Ready end)
  end.

(** The receipts of an inbound packet: the tracker, then the controller once per
    acknowledged packet.  [None] if the tracker panics. *)
Definition process_receipts (now : Z) (confirm_receipt : list PacketId) (s : RemoteConnection)
    : option (RemoteConnection * pc) :=
  '(t, (ack_info, _)) ← S.report_received_receipts now confirm_receipt (sent_tracker s);
  Some (set_tracker t s, Acking ack_info).

Definition ack_next (now : Z) (info : list S.ack_info_item) (s : RemoteConnection)
    : RemoteConnection * pc :=
  match info with
  | (Some rtt_sample, packet_size, token) :: rest =>
      (set_controller (on_ack_with_token now rtt_sample packet_size token (congestion_controller s)) s,
       Acking rest)
  | (None, packet_size, _) :: rest =>
      (set_controller (on_ack_without_rtt now packet_size (congestion_controller s)) s, Acking rest)
  | [] => (s, Ready)
  end.

(** One iteration of the resend loop. *)
Definition resend_check (now now_end : Z) (s : RemoteConnection) : RemoteConnection * pc :=
  let '(t, action) := S.get_resend now now_end (sent_tracker s) in
  (set_tracker t s,
   match action with
   | S.WaitUntil _ => Ready
   | S.Abandon _ payload_len => Releasing [payload_len]
   | S.Resend idx packet => TimingOut idx packet
   | S.TlpProbe idx packet => Refreshing idx packet
   end).

(** After the send of a resent packet, successful or not. *)
Definition refresh (now : Z) (idx : PacketId) (packet : bytes) (s : RemoteConnection)
    : RemoteConnection * pc :=
  (set_tracker (S.refresh_sent_packet now idx packet None (sent_tracker s)).1 s, Ready).

(** ** Tasks *)

(** One step of the task that tags its packets with [tag]; [None] if the event
    does not apply. *)
Definition task_step (tag : S.PacketStream) (ev : event) (s : RemoteConnection) (p : pc)
    : option (RemoteConnection * pc) :=
  match p, ev, tag with
  | Ready, ShortMessage data receipts, S.Control => Some (outbound_short_message data receipts s)
  | Ready, Noop now receipts, S.Control => Some (noop now receipts s)
  | Ready, Receipts now confirm_receipt, S.Control => process_receipts now confirm_receipt s
  | Ready, ResendCheck now now_end, S.Control => Some (resend_check now now_end s)
  | Ready, Fragment packet_size p, S.Stream _ => Some (start_fragment packet_size p s)
  | Ready, Abort, S.Stream _ => Some (s, Aborting [])
  | CallOnSend id size p receipts, Continue now _, _ => Some (call_on_send now id size p receipts s)
  | FetchId size token p receipts, Continue _ _, _ =>
      let '(s, id) := fetch_packet_id s in Some (s, packet_sending id size token p receipts)
  | Sending id size token (packet :: packets) registered, Continue _ socket_ok, _ =>
      Some (s, if socket_ok then Registering id size token packet packets registered
               else Failed size registered)
  | Sending _ _ _ [] _, Continue _ _, _ => Some (s, Ready)
  | Registering id size token packet packets _, Continue now _, _ =>
      Some (register now tag id size token packet packets s)
  | Failed size _, Continue _ _, _ => Some (s, send_failed tag size)
  | Aborting unregistered, Continue _ _, S.Stream stream_id =>
      Some (drop_aborted stream_id unregistered s)
  | Releasing amounts, Continue _ _, _ => Some (release_next tag amounts s)
  | Acking info, Continue now _, _ => Some (ack_next now info s)
  | TimingOut id packet, Continue now _, _ =>
      Some (set_controller (on_timeout now (congestion_controller s)) s, Refreshing id packet)
  | Refreshing id packet, Continue now _, _ => Some (refresh now id packet s)
  | _, _, _ => None
  end.

(** The whole connection.  [handshake] is the packet the handler has still to
    register.  The rest is not part of the program: [bytes_sent], [ids_taken] and
    [lost] count the bytes passed to [on_send], the ids taken from the counter, and
    the bytes of control packets whose send failed before anything was registered;
    [greeted] tells that the handshake packet was registered, [uncharged] counts its
    bytes if it was then new to the tracker, and [merged] the bytes of packets whose
    first registration found their id tracked already. *)
Record world := mkWorld {
  shared : RemoteConnection;
  tasks : gmap S.PacketStream pc;
  handshake : option bytes;
  bytes_sent : Z;
  ids_taken : Z;
  lost : Z;
  greeted : bool;
  uncharged : Z;
  merged : list Z;
}.

Definition counted_send (p : pc) (ev : event) : Z :=
  match p, ev with
  | Ready, Noop _ _ => 50
  | CallOnSend _ size _ _, Continue _ _ => size
  | _, _ => 0
  end.

Definition counted_id (p : pc) (ev : event) : Z :=
  match p, ev with
  | Ready, ShortMessage _ _ | Ready, Fragment _ _ | FetchId _ _ _ _, Continue _ _ => 1
  | _, _ => 0
  end.

Definition counted_loss (tag : S.PacketStream) (p : pc) : Z :=
  match p, tag with Failed size false, S.Control => size | _, _ => 0 end.

Definition counted_merge (s : RemoteConnection) (p : pc) : list Z :=
  match p with
  | Registering id size _ _ _ false => if S.contains_packet id (sent_tracker s) then [size] else []
  | _ => []
  end.

(** A step of a task, or the handler's registration of the handshake packet. *)
Inductive choice := Task (tag : S.PacketStream) (ev : event) | Handler (now : Z).

Definition register_handshake (now : Z) (packet : bytes) (s : RemoteConnection) : RemoteConnection :=
  set_tracker (S.report_sent_packet now M.FIRST_PACKET_ID packet (sent_tracker s)) s.

Definition step (w : world) (ch : choice) : option world :=
  match ch with
  | Task tag ev =>
      p ← tasks w !! tag;
      '(s, p') ← task_step tag ev (shared w) p;
      Some (mkWorld s (<[tag := p']> (tasks w)) (handshake w) (bytes_sent w + counted_send p ev)
        (ids_taken w + counted_id p ev) (lost w + counted_loss tag p) (greeted w) (uncharged w)
        (merged w ++ counted_merge (shared w) p))
  | Handler now =>
      packet ← handshake w;
      Some (mkWorld (register_handshake now packet (shared w)) (tasks w) None (bytes_sent w) (ids_taken w) (lost w) true
        (uncharged w + if S.contains_packet M.FIRST_PACKET_ID (sent_tracker (shared w)) then 0
                       else Z.of_nat (length packet)) (merged w))
  end.

Fixpoint run (w : world) (schedule : list choice) : option world :=
  match schedule with
  | [] => Some w
  | ch :: rest => w' ← step w ch; run w' rest
  end.

(** A connection with the streams [ids] to send.  [hs] is the handshake packet of a
    connection a gateway accepted; a connection this node opened, or that both sides
    did, has none. *)
Definition start (c : C) (ids : list StreamId) (hs : option bytes) : world :=
  mkWorld (mkConn S.new_with_time_source c 0)
    (<[S.Control := Ready]> (list_to_map ((fun i => (S.Stream i, Ready)) <$> ids))) hs 0 0 0 false 0 [].

(** ** Invariant *)

(** Bytes a task holds that the controller counts and the tracker does not: not
    registered yet, or taken out of the tracker and not released yet. *)
Definition owed (p : pc) : Z :=
  match p with
  | FetchId size _ _ _ => size
  | Sending _ size _ _ registered | Registering _ size _ _ _ registered | Failed size registered =>
      if registered then 0 else size
  | Aborting amounts | Releasing amounts => sumZ id amounts
  | Acking info => sumZ (fun i => i.1.2) info
  | _ => 0
  end.

(** The id a task has taken and not registered. *)
Definition claimed (p : pc) : option PacketId :=
  match p with
  | CallOnSend id _ _ _ | Sending id _ _ _ false | Registering id _ _ _ _ false => Some id
  | _ => None
  end.

(** Local consistency of a task: amounts are unsigned; the packets of a stream
    are single; the packets of a message of several are tracked as [Control] from
    the first one on. *)
Definition pc_ok (tag : S.PacketStream) (t : S.SentPacketTracker) (p : pc) : Prop :=
  let multi id registered (packets : list bytes) :=
    match tag with
    | S.Stream _ => registered = false /\ packets = []
    | S.Control => registered = true -> S.packet_streams t !! id = Some S.Control
    end in
  match p with
  | CallOnSend _ size _ receipts => is_u64 size /\ (tag <> S.Control -> receipts = [])
  | FetchId size _ _ _ => is_u64 size /\ tag = S.Control
  | Sending id size _ packets registered =>
      is_u64 size /\ packets <> [] /\ multi id registered (drop 1 packets)
  | Registering id size _ _ packets registered => is_u64 size /\ multi id registered packets
  | Failed size registered => is_u64 size /\ (tag <> S.Control -> registered = false)
  | Aborting amounts => Forall (fun n => 0 <= n) amounts /\ tag <> S.Control
  | Releasing amounts => Forall (fun n => 0 <= n) amounts
  | Acking info => Forall (fun i => 0 <= i.1.2) info /\ tag = S.Control
  | TimingOut _ _ | Refreshing _ _ => tag = S.Control
  | _ => True
  end.

Definition event_ok (ev : event) : Prop :=
  match ev with
  | ShortMessage data _ => Z.of_nat (length data) < 2 ^ 63
  | Noop now _ | Receipts now _ | Continue now _ => is_u64 now
  | Fragment packet_size _ => is_u64 packet_size
  | ResendCheck now now_end => is_u64 now /\ is_u64 now_end
  | Abort => True
  end.

Definition choice_ok (ch : choice) : Prop :=
  match ch with Task _ ev => event_ok ev | Handler now => is_u64 now end.

Abbreviation tracked w := (dom (S.pending_receipts (sent_tracker (shared w)))).
Abbreviation in_flight s := (flightsize (congestion_controller s)).

(** A tracked packet that no task registered: the handshake packet. *)
Definition exempt (g : bool) (t : S.SentPacketTracker) (id : PacketId) : Prop :=
  g = true /\ id = M.FIRST_PACKET_ID /\ S.packet_streams t !! id = Some S.Control.

Definition unregistered (g : bool) (t : S.SentPacketTracker) (id : PacketId) : Prop :=
  id ∈ dom (S.pending_receipts t) -> exempt g t id.

Record inv (w : world) : Prop := {
  inv_wf : S.wf (sent_tracker (shared w));
  inv_low : S.pending_bytes (sent_tracker (shared w)) + map_sum owed (tasks w) + lost w
    <= in_flight (shared w) + uncharged w;
  inv_high : in_flight (shared w)
    <= S.pending_bytes (sent_tracker (shared w)) + map_sum owed (tasks w) + lost w + sumZ id (merged w);
  inv_uncharged : 0 <= uncharged w /\ (greeted w = false -> uncharged w = 0 /\ merged w = []);
  inv_merged : Forall (fun n => 0 <= n) (merged w) /\ (merged w = [] \/
    (length (merged w) = 1%nat /\ 0 < ids_taken w /\
     forall tag p, tasks w !! tag = Some p -> claimed p <> Some M.FIRST_PACKET_ID));
  inv_handshake : match handshake w with
    | Some packet => greeted w = false /\ is_u64 (Z.of_nat (length packet)) | None => True end;
  inv_lost : 0 <= lost w;
  inv_sent : 0 <= in_flight (shared w) <= bytes_sent w;
  inv_ids : 0 <= ids_taken w /\ last_packet_id (shared w) = wrap32 (ids_taken w);
  inv_tracked : forall id, ids_taken w <= id -> unregistered (greeted w) (sent_tracker (shared w)) id;
  inv_claimed : forall tag p id, tasks w !! tag = Some p -> claimed p = Some id ->
    0 <= id < ids_taken w /\ unregistered (greeted w) (sent_tracker (shared w)) id;
  inv_unique : forall tag1 tag2 p1 p2 id, tasks w !! tag1 = Some p1 -> tasks w !! tag2 = Some p2 ->
    claimed p1 = Some id -> claimed p2 = Some id -> tag1 = tag2;
  inv_pcs : forall tag p, tasks w !! tag = Some p -> pc_ok tag (sent_tracker (shared w)) p;
}.

(** What a step of one task does, to the shared state and to the task. *)
Record effect (g : bool) (tag : S.PacketStream) (ev : event) (s s' : RemoteConnection) (p p' : pc) : Prop := {
  e_wf : S.wf (sent_tracker s');
  e_flight : let accounted := in_flight s + (S.pending_bytes (sent_tracker s') - S.pending_bytes (sent_tracker s))
    + (owed p' - owed p) + counted_loss tag p in
    in_flight s' = accounted + sumZ id (counted_merge s p) \/ (accounted <= 0 /\ in_flight s' = 0);
  e_merge : Forall (fun n => 0 <= n) (counted_merge s p) /\ (counted_merge s p = [] \/
    (length (counted_merge s p) = 1%nat /\ claimed p = Some M.FIRST_PACKET_ID /\ g = true /\ claimed p' = None));
  e_sent : 0 <= in_flight s' <= in_flight s + counted_send p ev;
  e_dom : forall id, id ∈ dom (S.pending_receipts (sent_tracker s')) ->
    id ∈ dom (S.pending_receipts (sent_tracker s)) \/ claimed p = Some id;
  e_tags : forall id, id ∈ dom (S.pending_receipts (sent_tracker s')) ->
    S.packet_streams (sent_tracker s) !! id = Some S.Control -> S.packet_streams (sent_tracker s') !! id = Some S.Control;
  e_control : tag <> S.Control -> forall id, S.packet_streams (sent_tracker s) !! id = Some S.Control ->
    S.packet_streams (sent_tracker s') !! id = Some S.Control;
  e_ids : last_packet_id s' = wrap32 (last_packet_id s + counted_id p ev) \/
    (counted_id p ev = 0 /\ last_packet_id s' = last_packet_id s);
  e_claimed : forall id, claimed p' = Some id -> unregistered g (sent_tracker s') id
    /\ (claimed p = Some id \/ counted_id p ev = 1 /\ id = last_packet_id s);
  e_pc : pc_ok tag (sent_tracker s') p';
}.

(** A step that only touches the controller, or nothing. *)
Lemma effect_controller g tag ev s c p p' :
  S.wf (sent_tracker s) -> counted_id p ev = 0 -> counted_merge s p = [] ->
  flightsize c = in_flight s + (owed p' - owed p) + counted_loss tag p \/
    (in_flight s + (owed p' - owed p) + counted_loss tag p <= 0 /\ flightsize c = 0) ->
  0 <= flightsize c <= in_flight s + counted_send p ev ->
  (forall id, claimed p' = Some id -> claimed p = Some id /\ unregistered g (sent_tracker s) id) ->
  pc_ok tag (sent_tracker s) p' ->
  effect g tag ev s (set_controller c s) p p'.
Proof.
  intros Hw Hi Hm Hf Hs Hc Hp. constructor; simpl; rewrite ?Hm, ?sumZ_nil; try done; [lia|by auto|by left|by right|].
  intros id Hid. destruct (Hc id Hid). auto.
Qed.

(** A step that calls the tracker with [o] and leaves its task with nothing
    claimed; the bytes it moves are what the task owes more, or less. *)
Lemma effect_tracker g tag ev o r s t' p p' :
  S.op_ok o -> S.wf (sent_tracker s) -> S.pending_bytes (sent_tracker s) <= u64_max ->
  S.step (sent_tracker s) o = Some (t', r) ->
  counted_id p ev = 0 -> counted_loss tag p = 0 -> 0 <= counted_send p ev -> 0 <= in_flight s ->
  S.added_bytes r - S.released_bytes r = owed p - owed p' - sumZ id (counted_merge s p) ->
  (Forall (fun n => 0 <= n) (counted_merge s p) /\ (counted_merge s p = [] \/
    (length (counted_merge s p) = 1%nat /\ claimed p = Some M.FIRST_PACKET_ID /\ g = true))) ->
  (forall id, id ∈ S.sends o ->
    id ∈ dom (S.pending_receipts (sent_tracker s)) \/ claimed p = Some id) ->
  (tag <> S.Control -> forall id, S.packet_streams (sent_tracker s) !! id = Some S.Control ->
    S.packet_streams t' !! id = Some S.Control) ->
  claimed p' = None -> pc_ok tag t' p' ->
  effect g tag ev s (set_tracker t' s) p p'.
Proof.
  intros Hok Hw Hmax H Hi Hl Hs Hf0 Hb Hm Hd Hc Hn Hp. pose proof (S.step_bytes _ _ _ _ Hok Hw Hmax H).
  pose proof (S.step_dom _ _ _ _ H) as Hdom. pose proof (S.sent_step_wf _ _ _ _ Hok H Hw) as Hw'.
  constructor; simpl; [done|left; lia|naive_solver|lia| | |done|by right|congruence|done].
  - intros id Hid. apply Hdom, elem_of_union in Hid as [?|?]; auto.
  - intros id Hid Ht. rewrite <- (S.wf_streams _ Hw') in Hid. apply elem_of_dom in Hid as [st Hst].
    assert (Hin : id ∈ dom (S.pending_receipts (sent_tracker s))) by (rewrite <- (S.wf_streams _ Hw); apply elem_of_dom; eauto).
    pose proof (S.step_streams _ _ _ _ id st Hw H Hin Hst). congruence.
Qed.

Lemma effect_fetch g tag ev s p p' :
  S.wf (sent_tracker s) -> counted_id p ev = 1 -> counted_merge s p = [] -> 0 <= counted_send p ev -> 0 <= in_flight s ->
  owed p' = owed p -> counted_loss tag p = 0 ->
  unregistered g (sent_tracker s) (last_packet_id s) ->
  (forall id, claimed p' = Some id -> id = last_packet_id s) ->
  pc_ok tag (sent_tracker s) p' ->
  effect g tag ev s (fetch_packet_id s).1 p p'.
Proof.
  intros Hw Hi Hm Hs Hf0 Ho Hl Hf Hc Hp. constructor; simpl; rewrite ?Hm, ?sumZ_nil; try done; [lia|by auto|lia|by left| |].
  - left. by rewrite Hi.
  - intros id Hid. rewrite (Hc id Hid). auto.
Qed.

(** The packets of a message sent without receipts: at most one. *)
Lemma packet_plan_no_receipts id p :
  match M.packet_plan serialized_size id p [] with Some ps => length ps = 1%nat | None => True end.
Proof.
  unfold M.packet_plan, M.try_serialize_msg_to_packet_data.
  destruct (serialized_size (M.mkMessage id [] p) <=? StreamingBuffer.PACKET_MAX_DATA_SIZE) eqn:E; [done|].
  cbn [M.message_payload M.confirm_receipt]. apply Z.leb_gt, Z.ltb_lt in E.
  unfold M.serialize_msg_to_packet_data, M.to_packet_data. by rewrite E.
Qed.

Lemma receipt_packets_nonempty fuel id rs packets ps :
  M.receipt_packets serialized_size fuel id rs packets = Some ps -> packets <> [] -> ps <> [].
Proof.
  revert rs packets. induction fuel as [|fuel IH]; intros [|r rs] packets H Hp; simpl in H; simplify_eq; [done..|].
  destruct (_ <=? _) in H; apply bind_Some in H as (p & _ & H).
  - simplify_eq. apply snoc_not_nil.
  - by eapply IH, snoc_not_nil.
Qed.

Lemma packet_plan_nonempty id p rs ps : M.packet_plan serialized_size id p rs = Some ps -> ps <> [].
Proof.
  unfold M.packet_plan. intros H. case_match; [by simplify_eq|]. case_match.
  apply bind_Some in H as (packet & _ & H). destruct (_ <? _) in H.
  - by apply bind_Some in H as (ack & _ & [= <-]).
  - by eapply receipt_packets_nonempty.
Qed.

Lemma packet_sending_ok tag t id size token p receipts :
  is_u64 size -> (tag <> S.Control -> receipts = []) ->
  pc_ok tag t (packet_sending id size token p receipts)
  /\ owed (packet_sending id size token p receipts) = size
  /\ (forall i, claimed (packet_sending id size token p receipts) = Some i -> i = id).
Proof.
  intros Hs Hr. unfold packet_sending.
  destruct (M.packet_plan serialized_size id p receipts) as [ps|] eqn:E; simpl;
    [|by split_and!].
  split; [|by split; [|congruence]]. split; [done|]. split.
  { apply packet_plan_nonempty in E. by destruct ps. }
  destruct tag as [sid|]; [|done]. split; [done|]. rewrite Hr in E by done.
  pose proof (packet_plan_no_receipts id p) as Hl. rewrite E in Hl.
  by destruct ps as [|x [|y ps]].
Qed.

Context `{!FlightAccounting C}.

(** The premises under which one step of a task is accounted for. *)
Record ready_for (g : bool) (u : Z) (tag : S.PacketStream) (ev : event) (s : RemoteConnection) (p : pc) : Prop := {
  r_wf : S.wf (sent_tracker s);
  r_room : S.pending_bytes (sent_tracker s) + owed p <= in_flight s + u;
  r_max : 0 <= counted_send p ev /\ 0 <= in_flight s /\ 0 <= u /\ in_flight s + counted_send p ev + u <= u64_max;
  r_claimed : forall id, claimed p = Some id -> unregistered g (sent_tracker s) id;
  r_fresh : counted_id p ev = 1 -> unregistered g (sent_tracker s) (last_packet_id s);
  r_pc : pc_ok tag (sent_tracker s) p;
  r_event : event_ok ev;
}.

Lemma owed_nonneg tag t p : pc_ok tag t p -> 0 <= owed p.
Proof.
  destruct p; simpl; try lia; try (intros [? _]; try case_match; int_lia);
    intros Hf; apply sumZ_nonneg, Forall_forall; first [exact Hf|apply Hf].
Qed.

Lemma idle_effect g u tag ev s p p' :
  ready_for g u tag ev s p -> counted_id p ev = 0 -> counted_merge s p = [] ->
  owed p' = owed p - counted_loss tag p ->
  (forall id, claimed p' = Some id -> claimed p = Some id) ->
  pc_ok tag (sent_tracker s) p' -> effect g tag ev s s p p'.
Proof.
  intros [? ? (? & ? & ? & ?) ? ? ? ?] Hi Hm Ho Hc Hp. replace s with (set_controller (congestion_controller s) s) at 2 by by destruct s.
  apply effect_controller; try done; [lia|lia|]. intros id Hid. auto.
Qed.

Lemma release_effect g u tag ev s n p p' :
  ready_for g u tag ev s p -> counted_id p ev = 0 -> counted_merge s p = [] -> counted_loss tag p = 0 ->
  0 <= n -> owed p = n + owed p' -> 0 <= owed p' -> claimed p' = None ->
  pc_ok tag (sent_tracker s) p' ->
  forall c, flightsize c = sat_sub (in_flight s) n -> effect g tag ev s (set_controller c s) p p'.
Proof.
  intros [? ? (? & ? & ? & ?) ? ? ? ?] Hi Hm Hl Hn Ho Ho' Hc Hp c Hf. apply effect_controller; try done; [..|congruence];
    rewrite Hf; unfold sat_sub; lia.
Qed.

Lemma on_send_effect g u tag now ok s id size p receipts :
  ready_for g u tag (Continue now ok) s (CallOnSend id size p receipts) ->
  effect g tag (Continue now ok) s (call_on_send now id size p receipts s).1
    (CallOnSend id size p receipts) (call_on_send now id size p receipts s).2.
Proof.
  intros [Hw Hroom (Hs & Hf0 & Hu0 & Hmax) Hc _ [Hu Hr] _]. unfold call_on_send. simpl in *.
  pose proof (flightsize_send now size (congestion_controller s)) as Hf.
  destruct (on_send_with_token now size (congestion_controller s)) as [c token]. simpl in *.
  destruct (packet_sending_ok tag (sent_tracker s) id size token p receipts Hu Hr) as (Hp & Ho & Hi).
  pose proof (S.sizes_nonneg _ Hw). rewrite wrap64_id in Hf by int_lia.
  apply effect_controller; simpl; rewrite ?Ho; try done; [lia|lia|].
  intros i Hid. rewrite (Hi i Hid). auto.
Qed.

Lemma noop_effect g u now receipts s :
  ready_for g u S.Control (Noop now receipts) s Ready ->
  effect g S.Control (Noop now receipts) s (noop now receipts s).1 Ready (noop now receipts s).2.
Proof.
  intros [Hw Hroom (Hs & Hf0 & Hu0 & Hmax) _ _ _ _]. unfold noop. simpl in *.
  pose proof (flightsize_send now 50 (congestion_controller s)) as Hf.
  destruct (on_send_with_token now 50 (congestion_controller s)) as [c token]. simpl in *.
  pose proof (S.sizes_nonneg _ Hw). rewrite wrap64_id in Hf by int_lia.
  apply effect_controller; simpl; try done; lia.
Qed.

(** After its registration a packet is tracked, under the tag it had or is given. *)
Lemma registered_tags now id packet size token tag t :
  S.wf t -> let t' := S.report_sent_tagged now id packet size token tag t in
  S.packet_streams t' = match S.pending_receipts t !! id with
    | Some _ => S.packet_streams t
    | None => <[id := tag]> (S.packet_streams t)
    end.
Proof.
  intros Hw. assert (Hd : S.pending_receipts t !! id = None -> S.packet_streams t !! id = None).
  { rewrite <- !not_elem_of_dom. by rewrite (S.wf_streams t Hw). }
  destruct tag; simpl; unfold S.report_sent_packet_with_token_and_size, S.report_sent_stream_packet_with_size,
    S.report_sent_packet_inner; destruct (S.pending_receipts t !! id) eqn:E; simpl; try done.
  by rewrite Hd.
Qed.

Lemma tracked_tag t id tag : S.wf t -> S.packet_streams t !! id = Some tag ->
  id ∈ dom (S.pending_receipts t).
Proof. intros Hw H. rewrite <- (S.wf_streams t Hw). apply elem_of_dom. eauto. Qed.

Lemma register_effect g u tag now ok s id size token packet packets registered :
  let p := Registering id size token packet packets registered in
  ready_for g u tag (Continue now ok) s p ->
  effect g tag (Continue now ok) s (register now tag id size token packet packets s).1 p
    (register now tag id size token packet packets s).2.
Proof.
  intros p [Hw Hroom (Hs & Hf0 & Hu0 & Hmax) Hc _ Hpc Hev]. unfold register. simpl in *. destruct Hpc as [Hu Hm].
  pose proof (registered_tags now id packet size token tag _ Hw) as Ht. simpl in Ht.
  pose proof (S.sizes_nonneg _ Hw).
  assert (Hin : S.contains_packet id (sent_tracker s) = true <-> id ∈ dom (S.pending_receipts (sent_tracker s)))
    by (unfold S.contains_packet; by rewrite bool_decide_eq_true, elem_of_dom).
  assert (Hreg : registered = true -> S.contains_packet id (sent_tracker s) = true).
  { intros ->. apply Hin. destruct tag; [by destruct Hm|]. by eapply tracked_tag; [done|apply Hm]. }
  assert (Hex : registered = false -> S.contains_packet id (sent_tracker s) = true -> exempt g (sent_tracker s) id).
  { intros -> Hb. apply (Hc id); [done|]. by apply Hin. }
  assert (Hctl : tag = S.Control -> id ∈ dom (S.pending_receipts (sent_tracker s)) ->
    S.packet_streams (sent_tracker s) !! id = Some S.Control).
  { intros -> Hid. destruct registered; [by apply Hm|]. by destruct Hex as (_ & _ & ?); [|apply Hin|]. }
  eapply (effect_tracker _ _ _ (S.OSend now id packet token tag size)
    (S.RSent (if S.contains_packet id (sent_tracker s) then 0 else size))); simpl; try done.
  - destruct registered; int_lia.
  - assert (owed match packets with [] => Ready | _ => Sending id size token packets true end = 0) as -> by (by destruct packets).
    destruct registered; [rewrite Hreg by done; simpl; lia|]. destruct (S.contains_packet _ _); simpl; lia.
  - destruct registered; [split; [done|by left]|]. destruct (S.contains_packet id (sent_tracker s)); [|split; [done|by left]].
    destruct Hex as (-> & -> & _); [done|done|]. split; [apply Forall_singleton; int_lia|by right].
  - intros i Hi. apply elem_of_singleton in Hi as ->. destruct registered; [left; by apply Hin, Hreg|by right].
  - intros _ i Hi. rewrite Ht. destruct (S.pending_receipts (sent_tracker s) !! id) eqn:E; [done|].
    rewrite lookup_insert_ne; [done|]. intros ->.
    apply tracked_tag in Hi; [|done]. by apply not_elem_of_dom in E.
  - by destruct packets.
  - destruct packets as [|x packets]; [done|]. split; [done|]. split; [done|].
    destruct tag; [by destruct Hm|]. intros _. rewrite Ht.
    destruct (S.pending_receipts (sent_tracker s) !! id) eqn:E; [|by rewrite lookup_insert_eq].
    apply Hctl; [done|]. apply elem_of_dom. eauto.
Qed.

Lemma drop_effect g u sid now ok s amounts :
  ready_for g u (S.Stream sid) (Continue now ok) s (Aborting amounts) ->
  effect g (S.Stream sid) (Continue now ok) s (drop_aborted sid amounts s).1 (Aborting amounts)
    (drop_aborted sid amounts s).2.
Proof.
  intros [Hw Hroom (Hs & Hf0 & Hu0 & Hmax) Hc _ [Hpc _] Hev]. unfold drop_aborted. simpl in *.
  assert (0 <= sumZ id amounts) by by apply sumZ_nonneg, Forall_forall.
  pose proof (S.released_nonneg (S.ODrop sid) (sent_tracker s)) as Hr. simpl in Hr.
  pose proof (S.drop_stream_bytes sid _ Hw ltac:(lia)) as Hb.
  pose proof (S.drop_stream_streams sid (sent_tracker s)) as Hst.
  pose proof (S.sizes_nonneg _ (S.drop_stream_wf sid _ Hw)) as Hn.
  destruct (S.drop_stream sid (sent_tracker s)) as [t' released] eqn:E. simpl in *.
  specialize (Hr _ _ Hw eq_refl). simpl in Hr.
  eapply (effect_tracker _ _ _ (S.ODrop sid) (S.RDropped released)); simpl; try done; try (by split; [|left]).
  - lia.
  - by rewrite E.
  - case_bool; to_props; simpl; [rewrite Z.min_l by int_lia|]; lia.
  - intros _ i Hi. rewrite Hst. by rewrite bool_decide_eq_false_2 by congruence.
  - apply Forall_app. split; [|done]. case_bool; to_props; [|done]. apply Forall_singleton. int_lia.
Qed.

Lemma receipts_effect g u now ids s s' p' :
  ready_for g u S.Control (Receipts now ids) s Ready ->
  process_receipts now ids s = Some (s', p') ->
  effect g S.Control (Receipts now ids) s s' Ready p'.
Proof.
  intros [Hw Hroom (Hs & Hf0 & Hu0 & Hmax) Hc _ _ Hev] H.
  apply bind_Some in H as ([t' [info l]] & H & [= <- <-]). simpl in *.
  assert (Hstep : S.step (sent_tracker s) (S.OAck now ids) = Some (t', S.RAcked info)) by (simpl; by rewrite H).
  eapply (effect_tracker _ _ _ (S.OAck now ids) (S.RAcked info)); simpl; try done; try (by split; [|left]).
  - lia.
  - lia.
  - unfold S.report_received_receipts in H. apply bind_Some in H as ([t1 info1] & H & [= <- <- _]).
    split; [|done]. by eapply S.ack_packets_info_nonneg; [exact H|done|constructor].
Qed.

Lemma resend_effect g u now now_end s :
  ready_for g u S.Control (ResendCheck now now_end) s Ready ->
  effect g S.Control (ResendCheck now now_end) s (resend_check now now_end s).1 Ready
    (resend_check now now_end s).2.
Proof.
  intros [Hw Hroom (Hs & Hf0 & Hu0 & Hmax) Hc _ _ Hev]. unfold resend_check.
  destruct (S.get_resend now now_end (sent_tracker s)) as [t' a] eqn:E. simpl in *.
  assert (Hstep : S.step (sent_tracker s) (S.OResend now now_end) = Some (t', S.RAction a)) by (simpl; by rewrite E).
  pose proof (S.released_nonneg _ _ _ _ Hw Hstep) as Hr.
  eapply (effect_tracker _ _ _ (S.OResend now now_end) (S.RAction a)); simpl; try done; try (by split; [|left]);
    [lia|destruct a; simpl in *; lia|by destruct a|].
  destruct a; try done. by apply Forall_singleton.
Qed.

Lemma refresh_effect g u now ok s id packet :
  ready_for g u S.Control (Continue now ok) s (Refreshing id packet) ->
  effect g S.Control (Continue now ok) s (refresh now id packet s).1 (Refreshing id packet) Ready.
Proof.
  intros [Hw Hroom (Hs & Hf0 & Hu0 & Hmax) Hc _ _ Hev]. unfold refresh. simpl in *.
  destruct (S.refresh_sent_packet now id packet None (sent_tracker s)) as [t' b] eqn:E. simpl.
  eapply (effect_tracker _ _ _ (S.ORefresh now id packet None) (S.RRefreshed b)); simpl; try done; try (by split; [|left]);
    [lia|by rewrite E].
Qed.

Lemma ack_effect g u now ok s info :
  ready_for g u S.Control (Continue now ok) s (Acking info) ->
  effect g S.Control (Continue now ok) s (ack_next now info s).1 (Acking info) (ack_next now info s).2.
Proof.
  intros Hr. destruct info as [|[[[rtt|] n] token] info]; simpl; [by apply (idle_effect g u)|..];
    destruct (r_pc _ _ _ _ _ _ Hr) as [Hpc _]; simpl in Hpc; inversion_clear Hpc as [|? ? Hn Hi];
    eapply (release_effect _ _ _ _ _ n); simpl; try done; try (by apply sumZ_nonneg, Forall_forall);
    first [apply flightsize_ack|apply flightsize_ack_without_rtt].
Qed.

Lemma releasing_effect g u tag now ok s amounts :
  ready_for g u tag (Continue now ok) s (Releasing amounts) ->
  effect g tag (Continue now ok) s (release_next tag amounts s).1 (Releasing amounts)
    (release_next tag amounts s).2.
Proof.
  intros Hr. destruct amounts as [|n amounts]; simpl; [by destruct tag; apply (idle_effect g u)|].
  pose proof (r_pc _ _ _ _ _ _ Hr) as Hpc. simpl in Hpc. inversion_clear Hpc as [|? ? Hn Hi].
  eapply (release_effect _ _ _ _ _ n); simpl; try done; [by apply sumZ_nonneg, Forall_forall|apply flightsize_release].
Qed.

(** A task that is idle takes an id for a packet of [size] bytes. *)
Lemma take_id_effect g u tag ev s size p receipts :
  ready_for g u tag ev s Ready -> counted_id Ready ev = 1 -> counted_send Ready ev = 0 ->
  is_u64 size -> (tag <> S.Control -> receipts = []) ->
  effect g tag ev s (fetch_packet_id s).1 Ready (CallOnSend (last_packet_id s) size p receipts).
Proof.
  intros [Hw Hroom (Hs & Hf0 & Hu0 & Hmax) Hc Hfr _ _] Hi Hn Hu Ht.
  apply effect_fetch; simpl; auto; first [lia|congruence].
Qed.

Lemma fetch_id_effect g u tag now ok s size token p receipts :
  let p0 := FetchId size token p receipts in
  ready_for g u tag (Continue now ok) s p0 ->
  effect g tag (Continue now ok) s (fetch_packet_id s).1 p0 (packet_sending (last_packet_id s) size token p receipts).
Proof.
  intros p0 [Hw Hroom (Hs & Hf0 & Hu0 & Hmax) Hc Hfr [Hu Ht] _].
  destruct (packet_sending_ok tag (sent_tracker s) (last_packet_id s) size token p receipts Hu) as (Hp & Ho & Hi);
    [by intros|]. apply effect_fetch; simpl; auto.
Qed.

Lemma sending_effect g u tag now ok s id size token packet packets registered :
  let p := Sending id size token (packet :: packets) registered in
  ready_for g u tag (Continue now ok) s p ->
  effect g tag (Continue now ok) s s p
    (if ok then Registering id size token packet packets registered else Failed size registered).
Proof.
  intros p Hr. destruct (r_pc _ _ _ _ _ _ Hr) as (Hu & _ & Hm). destruct ok; apply (idle_effect g u); try done; simpl; try lia.
  by split; [|destruct tag; [intros _; apply Hm|]].
Qed.

Lemma failed_effect g u tag now ok s size registered :
  ready_for g u tag (Continue now ok) s (Failed size registered) ->
  effect g tag (Continue now ok) s s (Failed size registered) (send_failed tag size).
Proof.
  intros Hr. destruct (r_pc _ _ _ _ _ _ Hr) as [Hu Hm].
  destruct tag as [sid|]; apply (idle_effect g u); try done; simpl.
  - rewrite Hm by done. lia.
  - by split; [apply Forall_singleton; int_lia|].
  - destruct registered; lia.
Qed.

Lemma task_step_effect g u tag ev s p s' p' :
  ready_for g u tag ev s p -> task_step tag ev s p = Some (s', p') -> effect g tag ev s s' p p'.
Proof.
  intros Hr H.
  assert (Hpair : forall q : RemoteConnection * pc, effect g tag ev s q.1 p q.2 -> Some q = Some (s', p') ->
    effect g tag ev s s' p p') by by intros ? ? [= ->].
  destruct p, ev; simpl in H; try discriminate H; try (destruct packets; discriminate H).
  - destruct tag; [done|]. eapply Hpair; [|exact H]. apply (take_id_effect g u); try done.
    apply wrap64_range.
  - destruct tag; [done|]. eapply Hpair; [|exact H]. by apply (noop_effect g u).
  - destruct tag; [|done]. eapply Hpair; [|exact H]. by apply (take_id_effect g u); [..|apply Hr|].
  - destruct tag; [|done]. simplify_eq. by apply (idle_effect g u).
  - destruct tag; [done|]. by apply (receipts_effect g u).
  - destruct tag; [done|]. eapply Hpair; [|exact H]. by apply (resend_effect g u).
  - eapply Hpair; [|exact H]. by apply (on_send_effect g u).
  - injection H as <- <-. by apply (fetch_id_effect g u).
  - destruct packets; [by destruct (r_pc _ _ _ _ _ _ Hr) as (_ & ? & _)|].
    injection H as <- <-. by apply (sending_effect g u).
  - eapply Hpair; [|exact H]. by apply (register_effect g u).
  - injection H as <- <-. by apply (failed_effect g u).
  - destruct tag; [|done]. eapply Hpair; [|exact H]. by apply (drop_effect g u).
  - eapply Hpair; [|exact H]. by apply (releasing_effect g u).
  - destruct (r_pc _ _ _ _ _ _ Hr) as [_ ->]. eapply Hpair; [|exact H]. by apply (ack_effect g u).
  - pose proof (r_pc _ _ _ _ _ _ Hr). simplify_eq. apply effect_controller; simpl; rewrite ?flightsize_timeout; try done; [apply Hr|lia|].
    pose proof (r_max _ _ _ _ _ _ Hr). simpl in *. lia.
  - pose proof (r_pc _ _ _ _ _ _ Hr) as Hpc. simpl in Hpc. subst tag. eapply Hpair; [|exact H]. by apply (refresh_effect g u).
Qed.

Lemma counted_nonneg tag t p ev :
  pc_ok tag t p -> 0 <= counted_send p ev /\ 0 <= counted_loss tag p /\ 0 <= counted_id p ev <= 1.
Proof.
  intros H. split_and!.
  - destruct p, ev; simpl; try lia. destruct H. int_lia.
  - destruct p as [| | | | |size []| | | | | |], tag; simpl; try lia. destruct H. int_lia.
  - destruct p, ev; simpl; lia.
  - destruct p, ev; simpl; lia.
Qed.

Lemma pc_ok_frame tag t t' p :
  (tag = S.Control -> forall id, S.packet_streams t !! id = Some S.Control ->
    S.packet_streams t' !! id = Some S.Control) ->
  pc_ok tag t p -> pc_ok tag t' p.
Proof.
  intros Hc. destruct p; simpl; try done; destruct tag; try done.
  - intros (? & ? & H). split_and!; auto.
  - intros (? & H). split_and!; auto.
Qed.

Lemma ready_for_inv w tag p ev :
  inv w -> tasks w !! tag = Some p -> event_ok ev ->
  bytes_sent w + counted_send p ev + uncharged w <= u64_max -> ids_taken w + counted_id p ev <= 2 ^ 32 ->
  ready_for (greeted w) (uncharged w) tag ev (shared w) p.
Proof.
  intros [] Ht Hev Hb Hi. destruct (counted_nonneg _ _ _ ev (inv_pcs0 _ _ Ht)) as (Hn & _ & Hn').
  assert (Ho : forall k q, tasks w !! k = Some q -> 0 <= owed q) by (intros; eapply owed_nonneg; eauto).
  pose proof (map_sum_le owed (tasks w) tag p Ho Ht). constructor; auto; try lia.
  - by intros id Hid; apply (inv_claimed0 _ _ _ Ht Hid).
  - intros Hc. destruct inv_ids0 as [? Hl]. apply inv_tracked0. rewrite Hl, wrap32_id by int_lia. lia.
Qed.

(** A step takes nothing away from the exemption of an id no task registers. *)
Lemma unregistered_step g tag ev s s' p p' id :
  effect g tag ev s s' p p' -> claimed p <> Some id -> unregistered g (sent_tracker s) id ->
  unregistered g (sent_tracker s') id.
Proof.
  intros He Hc Hu Hin. destruct (e_dom _ _ _ _ _ _ _ He id Hin) as [Hd|?]; [|done].
  destruct (Hu Hd) as (Hg & Hid & Ht). split_and!; [done..|]. by apply (e_tags _ _ _ _ _ _ _ He).
Qed.

(** The ids a task claims after a step are its own. *)
Lemma claims_step w tag p ev s' p' :
  inv w -> tasks w !! tag = Some p -> ids_taken w + counted_id p ev <= 2 ^ 32 ->
  effect (greeted w) tag ev (shared w) s' p p' ->
  (forall id, claimed p' = Some id -> 0 <= id < ids_taken w + counted_id p ev /\ (claimed p = Some id \/ id = ids_taken w)) /\
  (forall tag2 p2 id, tag2 <> tag -> tasks w !! tag2 = Some p2 -> claimed p2 = Some id ->
     claimed p <> Some id /\ claimed p' <> Some id).
Proof.
  intros Hinv Ht Hi He. destruct (counted_nonneg _ _ _ ev (inv_pcs _ Hinv _ _ Ht)) as (_ & _ & Hn).
  destruct (inv_ids _ Hinv) as [Hi0 Hlast].
  assert (Hmine : forall id, claimed p' = Some id ->
    0 <= id < ids_taken w + counted_id p ev /\ (claimed p = Some id \/ id = ids_taken w)).
  { intros id Hid. destruct (e_claimed _ _ _ _ _ _ _ He id Hid) as [_ [Hc|[Hc ->]]].
    - destruct (inv_claimed _ Hinv _ _ _ Ht Hc). split; [lia|by left].
    - rewrite Hlast, wrap32_id by int_lia. split; [lia|by right]. }
  split; [done|]. intros tag2 p2 id Hne Ht2 Hc2.
  assert (Hp : claimed p <> Some id) by (intros Hc; by apply Hne; eapply inv_unique).
  split; [done|]. intros Hc'. destruct (Hmine id Hc') as [_ [?| ->]]; [done|].
  destruct (inv_claimed _ Hinv _ _ _ Ht2 Hc2). lia.
Qed.

(** The two bounds on the flight size. *)
Lemma bounds_step w tag p ev s' p' :
  inv w -> tasks w !! tag = Some p -> effect (greeted w) tag ev (shared w) s' p p' ->
  let accounted := S.pending_bytes (sent_tracker s') + map_sum owed (<[tag := p']> (tasks w)) + (lost w + counted_loss tag p) in
  accounted <= in_flight s' + uncharged w /\ in_flight s' <= accounted + sumZ id (merged w ++ counted_merge (shared w) p).
Proof.
  intros [] Ht []. simpl. destruct (counted_nonneg _ _ _ ev (inv_pcs0 _ _ Ht)) as (_ & Hl & _).
  assert (Hm : 0 <= sumZ id (merged w) /\ 0 <= sumZ id (counted_merge (shared w) p)).
  { split; apply sumZ_nonneg, Forall_forall; [apply inv_merged0|apply e_merge0]. }
  assert (Ho : 0 <= map_sum owed (<[tag := p']> (tasks w))).
  { apply map_sum_nonneg. intros k q [[-> <-]|[Hne H]]%lookup_insert_Some; [by eapply owed_nonneg|].
    eapply owed_nonneg, inv_pcs0, H. }
  pose proof (S.sizes_nonneg _ e_wf0). rewrite sumZ_app. rewrite (map_sum_replace _ _ _ p) in * by done.
  destruct e_flight0 as [?|[? ?]]; lia.
Qed.

Lemma merged_step w tag p ev s' p' :
  inv w -> tasks w !! tag = Some p -> ids_taken w + counted_id p ev <= 2 ^ 32 ->
  effect (greeted w) tag ev (shared w) s' p p' ->
  let m := merged w ++ counted_merge (shared w) p in
  (greeted w = false -> m = []) /\ Forall (fun n => 0 <= n) m /\
  (m = [] \/ (length m = 1%nat /\ 0 < ids_taken w + counted_id p ev /\
     forall tag2 p2, <[tag := p']> (tasks w) !! tag2 = Some p2 -> claimed p2 <> Some M.FIRST_PACKET_ID)).
Proof.
  intros Hinv Ht Hi He. destruct (counted_nonneg _ _ _ ev (inv_pcs _ Hinv _ _ Ht)) as (_ & _ & Hn).
  destruct (claims_step w tag p ev s' p' Hinv Ht Hi He) as [Hmine Hothers]. destruct (e_merge _ _ _ _ _ _ _ He) as [Hf Hm].
  destruct (inv_merged _ Hinv) as [Hf' Hm'], (inv_uncharged _ Hinv) as [_ Hg]. cbn zeta. split_and!.
  - intros Hgf. destruct (Hg Hgf) as [_ ->]. destruct Hm as [->|(_ & _ & ? & _)]; [done|congruence].
  - by apply Forall_app.
  - destruct Hm as [->|(Hlen & Hc & Hgt & Hn')].
    + rewrite app_nil_r. destruct Hm' as [?|(? & ? & Hcl)]; [by left|right]. split_and!; [done|lia|].
      intros tag2 p2 [[<- <-]|[Hne H2]]%lookup_insert_Some; [|by apply (Hcl tag2)].
      intros Hc. destruct (Hmine _ Hc) as [_ [?|E]]; [by apply (Hcl tag p Ht)|]. unfold M.FIRST_PACKET_ID in E. lia.
    + destruct Hm' as [->|(_ & _ & Hcl)]; [|by apply (Hcl tag p Ht) in Hc]. right.
      destruct (inv_claimed _ Hinv _ _ _ Ht Hc) as [? _]. split_and!; [done|lia|].
      intros tag2 p2 [[<- <-]|[Hne H2]]%lookup_insert_Some; [congruence|]. intros Hc2.
      by destruct (Hothers tag2 p2 M.FIRST_PACKET_ID) as [? _]; [congruence| | |].
Qed.

Lemma conn_step_inv w tag ev w' :
  inv w -> event_ok ev -> step w (Task tag ev) = Some w' ->
  bytes_sent w' + uncharged w' <= u64_max -> ids_taken w' <= 2 ^ 32 -> inv w'.
Proof.
  intros Hinv Hev H Hb Hi. simpl in H. apply bind_Some in H as (p & Ht & H).
  apply bind_Some in H as ([s' p'] & H & [= <-]). simpl in *.
  pose proof (ready_for_inv w tag p ev Hinv Ht Hev Hb Hi) as Hr.
  pose proof (task_step_effect _ _ _ _ _ _ _ _ Hr H) as He.
  destruct (bounds_step w tag p ev s' p' Hinv Ht He) as [Hlow Hhigh].
  destruct (claims_step w tag p ev s' p' Hinv Ht Hi He) as [Hmine Hothers].
  destruct (merged_step w tag p ev s' p' Hinv Ht Hi He) as (Hg & Hf & Hm).
  pose proof (fun id => unregistered_step _ _ _ _ _ _ _ id He) as Hun.
  destruct (counted_nonneg _ _ _ ev (inv_pcs _ Hinv _ _ Ht)) as (Hn & Hn' & Hn''). destruct Hinv, He.
  destruct inv_ids0 as [Hi0 Hlast], inv_uncharged0 as [Hu0 Hu1].
  constructor; simpl; try done; try lia.
  - split; [done|]. intros Hgf. split; [by apply Hu1|by apply Hg].
  - split; [lia|]. destruct e_ids0 as [->|[-> ->]]; [by rewrite Hlast, wrap32_add_l|by rewrite Z.add_0_r].
  - intros id Hid. apply Hun; [|apply inv_tracked0; lia]. intros Hc. destruct (inv_claimed0 _ _ _ Ht Hc). lia.
  - intros tag2 p2 id [[-> <-]|[Hne Ht2]]%lookup_insert_Some Hc2.
    + split; [by apply Hmine|by apply e_claimed0].
    + destruct (inv_claimed0 _ _ _ Ht2 Hc2) as [Hlt Hni]. split; [lia|]. apply Hun; [|done]. by apply (Hothers tag2 p2).
  - intros tag1 tag2 p1 p2 id [[-> <-]|[Hne1 H1]]%lookup_insert_Some
      [[-> <-]|[Hne2 H2]]%lookup_insert_Some Hc1 Hc2; [done| | |by eapply inv_unique0].
    + by apply (Hothers tag2 p2 id) in Hc2 as [_ ?].
    + by apply (Hothers tag1 p1 id) in Hc1 as [_ ?].
  - intros tag2 p2 [[-> <-]|[Hne H2]]%lookup_insert_Some; [done|].
    apply (pc_ok_frame _ (sent_tracker (shared w))); [|by apply inv_pcs0]. intros ->. apply e_control0. done.
Qed.

(** The handler registers the handshake packet. *)
Lemma handshake_tracker now packet s :
  S.step (sent_tracker s) (S.OSend now M.FIRST_PACKET_ID packet None S.Control (Z.of_nat (length packet)))
  = Some (sent_tracker (register_handshake now packet s),
          S.RSent (if S.contains_packet M.FIRST_PACKET_ID (sent_tracker s) then 0 else Z.of_nat (length packet))).
Proof. done. Qed.

Lemma handshake_tags now packet s :
  S.wf (sent_tracker s) ->
  S.packet_streams (sent_tracker (register_handshake now packet s)) =
  match S.pending_receipts (sent_tracker s) !! M.FIRST_PACKET_ID with
  | Some _ => S.packet_streams (sent_tracker s)
  | None => <[M.FIRST_PACKET_ID := S.Control]> (S.packet_streams (sent_tracker s))
  end.
Proof. intros Hw. exact (registered_tags now M.FIRST_PACKET_ID packet (Z.of_nat (length packet)) None S.Control _ Hw). Qed.

Lemma handshake_unregistered now packet s id :
  S.wf (sent_tracker s) -> unregistered false (sent_tracker s) id ->
  unregistered true (sent_tracker (register_handshake now packet s)) id.
Proof.
  intros Hw Hu Hin. assert (Hni : id ∉ dom (S.pending_receipts (sent_tracker s))) by (intros Hd; by destruct (Hu Hd)).
  apply (S.step_dom _ _ _ _ (handshake_tracker now packet s)) in Hin. apply elem_of_union in Hin as [?|Hin]; [done|].
  simpl in Hin. apply elem_of_singleton in Hin as ->. split_and!; [done..|].
  rewrite handshake_tags by done. apply not_elem_of_dom in Hni as ->. apply lookup_insert_eq.
Qed.

Lemma handler_step_inv w now w' :
  inv w -> is_u64 now -> step w (Handler now) = Some w' -> bytes_sent w' + uncharged w' <= u64_max -> inv w'.
Proof.
  intros Hinv Hnow H Hb. simpl in H. apply bind_Some in H as (packet & Hp & [= <-]). cbn [bytes_sent uncharged] in Hb.
  destruct Hinv. rewrite Hp in inv_handshake0. destruct inv_handshake0 as [Hg Hlen], inv_uncharged0 as [Hu0 Hu1].
  rewrite Hg in *. destruct (Hu1 eq_refl) as [Hz Hmz]. pose proof (S.sizes_nonneg _ inv_wf0).
  assert (Ho : 0 <= map_sum owed (tasks w)) by (apply map_sum_nonneg; intros; eapply owed_nonneg; eauto).
  assert (Hx : 0 <= if S.contains_packet M.FIRST_PACKET_ID (sent_tracker (shared w)) then 0 else Z.of_nat (length packet))
    by (destruct (S.contains_packet _ _); lia).
  pose proof (handshake_tracker now packet (shared w)) as Hstep.
  assert (Hok : S.op_ok (S.OSend now M.FIRST_PACKET_ID packet None S.Control (Z.of_nat (length packet)))) by done.
  pose proof (S.step_bytes _ _ _ _ Hok inv_wf0 ltac:(lia) Hstep) as Hbytes. cbn [S.added_bytes S.released_bytes] in Hbytes.
  pose proof (fun id => handshake_unregistered now packet (shared w) id inv_wf0) as Hun.
  constructor; cbn [shared tasks handshake bytes_sent ids_taken lost greeted uncharged merged]; try done.
  - by eapply S.sent_step_wf.
  - change (in_flight (register_handshake now packet (shared w))) with (in_flight (shared w)). lia.
  - change (in_flight (register_handshake now packet (shared w))) with (in_flight (shared w)).
    lia.
  - split; [lia|done].
  - intros id Hid. by apply Hun, inv_tracked0.
  - intros tag p id Ht Hc. destruct (inv_claimed0 tag p id Ht Hc) as [? Hni]. split; [done|]. by apply Hun.
  - intros tag p Ht. apply (pc_ok_frame _ (sent_tracker (shared w))); [|by apply inv_pcs0]. intros _ id Hid.
    rewrite handshake_tags by done. destruct (_ !! M.FIRST_PACKET_ID); [done|].
    destruct (decide (id = M.FIRST_PACKET_ID)) as [->|]; [apply lookup_insert_eq|by rewrite lookup_insert_ne].
Qed.

(** The counters only grow. *)
Definition counted_ok (p : pc) : Prop :=
  match p with CallOnSend _ size _ _ => 0 <= size | _ => True end.

Lemma task_step_counted tag ev s p s' p' :
  event_ok ev -> task_step tag ev s p = Some (s', p') -> counted_ok p'.
Proof.
  intros Hev H. pose proof wrap64_range as Hwrap. unfold is_u64 in Hwrap.
  destruct p, ev, tag; simpl in H; try discriminate H; try (destruct packets; try discriminate H);
    unfold outbound_short_message, noop, start_fragment, call_on_send, process_receipts, ack_next, resend_check,
      register, drop_aborted, release_next, packet_sending, send_failed, refresh in H;
    repeat (case_match || simplify_option_eq); simpl in *; try done; apply Hwrap || apply Hev.
Qed.

Definition counters_ok (w : world) : Prop := forall tag p, tasks w !! tag = Some p -> counted_ok p.

(** The bytes of the handshake packet still to be registered. *)
Definition handshake_bytes (w : world) : Z := match handshake w with Some packet => Z.of_nat (length packet) | None => 0 end.

Lemma step_counters w ch w' :
  choice_ok ch -> step w ch = Some w' -> counters_ok w ->
  counters_ok w' /\ bytes_sent w <= bytes_sent w' /\ ids_taken w <= ids_taken w' /\ uncharged w <= uncharged w' /\
  uncharged w' + handshake_bytes w' <= uncharged w + handshake_bytes w /\
  (handshake w = None -> handshake w' = None /\ greeted w' = greeted w).
Proof.
  intros Hev H Hc. destruct ch as [tag ev|now]; simpl in H.
  - apply bind_Some in H as (p & Ht & H). apply bind_Some in H as ([s' p'] & H & [= <-]). simpl.
    pose proof (task_step_counted _ _ _ _ _ _ Hev H) as Hp'. specialize (Hc _ _ Ht) as Hp. split_and!; try done.
    + intros tag2 p2. simpl. intros [[-> <-]|[_ H2]]%lookup_insert_Some; [done|by apply (Hc tag2)].
    + enough (0 <= counted_send p ev) by lia. destruct p, ev; simpl in *; lia.
    + enough (0 <= counted_id p ev) by lia. destruct p, ev; simpl in *; lia.
  - apply bind_Some in H as (packet & Hp & [= <-]). unfold handshake_bytes. rewrite Hp. simpl.
    destruct (S.contains_packet _ _); split_and!; try done; lia.
Qed.

Lemma conn_run_cons w ch sched : run w (ch :: sched) = (step w ch ≫= fun w' => run w' sched).
Proof. done. Qed.

Lemma run_counters sched w w' :
  Forall choice_ok sched -> run w sched = Some w' -> counters_ok w ->
  bytes_sent w <= bytes_sent w' /\ ids_taken w <= ids_taken w' /\ uncharged w <= uncharged w' /\
  uncharged w' + handshake_bytes w' <= uncharged w + handshake_bytes w /\
  (handshake w = None -> handshake w' = None /\ greeted w' = greeted w).
Proof.
  revert w. induction sched as [|ch sched IH]; intros w Hev H Hc; [simplify_eq/=; split_and!; try done; lia|].
  inversion_clear Hev as [|? ? Hev1 Hev2]. rewrite conn_run_cons in H.
  apply bind_Some in H as (w1 & H1 & H). destruct (step_counters _ _ _ Hev1 H1 Hc) as (Hc1 & ? & ? & ? & ? & Hh).
  destruct (IH _ Hev2 H Hc1) as (? & ? & ? & ? & Hh1). split_and!; try lia;
    intros Hn; destruct (Hh Hn) as [Hn1 Hg]; apply Hh1 in Hn1; naive_solver congruence.
Qed.

Lemma world_step_inv w ch w' :
  inv w -> choice_ok ch -> step w ch = Some w' -> bytes_sent w' + uncharged w' <= u64_max -> ids_taken w' <= 2 ^ 32 -> inv w'.
Proof. intros Hi Hc H Hb Hn. destruct ch; [by eapply conn_step_inv|by eapply handler_step_inv]. Qed.

Lemma conn_run_inv sched w w' :
  Forall choice_ok sched -> run w sched = Some w' -> inv w -> counters_ok w ->
  bytes_sent w' + uncharged w' <= u64_max -> ids_taken w' <= 2 ^ 32 -> inv w'.
Proof.
  revert w. induction sched as [|ch sched IH]; intros w Hev H Hi Hc Hb Hn; [by simplify_eq/=|].
  inversion_clear Hev as [|? ? Hev1 Hev2]. rewrite conn_run_cons in H.
  apply bind_Some in H as (w1 & H1 & H). destruct (step_counters _ _ _ Hev1 H1 Hc) as (Hc1 & _).
  destruct (run_counters _ _ _ Hev2 H Hc1) as (? & ? & ? & _). eapply IH; [done|exact H| |done|done|done].
  eapply world_step_inv; [done| |exact H1|lia|lia]. done.
Qed.

Lemma start_tasks c ids hs tag p : tasks (start c ids hs) !! tag = Some p -> p = Ready.
Proof.
  simpl. intros [[_ <-]|[_ H]]%lookup_insert_Some; [done|].
  apply elem_of_list_to_map_2, list_elem_of_fmap in H as (i & [= -> ->] & _). done.
Qed.

(** A task that has no operation in progress. *)
Definition idle (p : pc) : bool := match p with Ready | Finished => true | _ => false end.

Lemma idle_owed (m : gmap S.PacketStream pc) :
  (forall tag p, m !! tag = Some p -> idle p = true) -> map_sum owed m = 0.
Proof.
  intros Hi. unfold map_sum. assert (Hall : forall e, e ∈ map_to_list m -> owed e.2 = 0).
  { intros [k v] Hin. apply elem_of_map_to_list, Hi in Hin. by destruct v. }
  induction (map_to_list m) as [|e l IH]; [done|]. simpl. rewrite Hall by left.
  apply IH. intros e' He'. apply Hall. by right.
Qed.

Definition handshake_ok (hs : option bytes) : Prop :=
  match hs with Some packet => is_u64 (Z.of_nat (length packet)) | None => True end.

Lemma conn_start_inv c ids hs :
  flightsize c = 0 -> handshake_ok hs -> inv (start c ids hs) /\ counters_ok (start c ids hs).
Proof.
  intros Hf Hh. assert (Hz : map_sum owed (tasks (start c ids hs)) = 0)
    by (apply idle_owed; by intros tag p ->%start_tasks).
  assert (Hp : S.pending_bytes (sent_tracker (shared (start c ids hs))) = 0) by apply map_sum_empty.
  split; [|by intros tag p ->%start_tasks].
  constructor; try (by intros tag p; try intros ?; intros ->%start_tasks); try (rewrite Hz, Hp); simpl; rewrite ?sumZ_nil; try lia; try done.
  - split; [done|by left].
  - by destruct hs.
  - by intros tag1 tag2 p1 p2 id ->%start_tasks.
  - by intros tag p ->%start_tasks.
Qed.

(** Without a handshake packet the two bounds meet. *)
Lemma opened_exact sched c ids w :
  flightsize c = 0 -> Forall choice_ok sched -> run (start c ids None) sched = Some w ->
  bytes_sent w + uncharged w <= u64_max -> ids_taken w <= 2 ^ 32 ->
  in_flight (shared w) = S.pending_bytes (sent_tracker (shared w)) + map_sum owed (tasks w) + lost w /\ uncharged w = 0.
Proof.
  intros Hf Hev Hrun Hb Hn. destruct (conn_start_inv c ids None Hf I) as [Hi Hc].
  destruct (run_counters _ _ _ Hev Hrun Hc) as (_ & _ & _ & _ & Hg). destruct (Hg eq_refl) as [_ Hg1].
  pose proof (conn_run_inv _ _ _ Hev Hrun Hi Hc Hb Hn) as []. destruct inv_uncharged0 as [_ Hu]. destruct (Hu Hg1) as [Hz Hm].
  rewrite Hz, Hm, ?sumZ_nil in *. lia.
Qed.

End connection.

(** ** The loss pause of the fixed-rate controller *)

Import FixedRate.

Section fixed_rate.
Variable serialized_size : M.SymmetricMessage -> Z.
Variable seal : M.SymmetricMessage -> bytes.

Abbreviation pause s := (loss_pause_cwnd (congestion_controller s)).

Lemma task_step_pause tag ev (s : RemoteConnection (C := FixedRateController)) p s' p' :
  task_step serialized_size seal tag ev s p = Some (s', p') ->
  pause s' = pause s \/ pause s' = 0 \/ pause s' = Z.max (bytes_in_flight (congestion_controller s)) 1.
Proof.
  intros H. destruct p, ev, tag; simpl in H; try discriminate H; try (destruct packets; try discriminate H);
    unfold outbound_short_message, noop, start_fragment, call_on_send, process_receipts, ack_next, resend_check,
      register, drop_aborted, release_next, packet_sending, send_failed, refresh, fetch_packet_id in H;
    repeat (case_match || simplify_option_eq); simpl in *; auto.
Qed.

Lemma run_pause sched w w' :
  Forall choice_ok sched -> run serialized_size seal w sched = Some w' ->
  inv w -> counters_ok w -> bytes_sent w' + uncharged w' <= u64_max -> ids_taken w' <= 2 ^ 32 ->
  0 <= pause (shared w) <= Z.max 1 (bytes_sent w) -> 0 <= pause (shared w') <= Z.max 1 (bytes_sent w').
Proof.
  revert w. induction sched as [|ch sched IH]; intros w Hev H Hi Hc Hb Hn Hp; [by simplify_eq/=|].
  inversion_clear Hev as [|? ? Hev1 Hev2]. rewrite conn_run_cons in H.
  apply bind_Some in H as (w1 & H1 & H). destruct (step_counters _ _ _ _ _ Hev1 H1 Hc) as (Hc1 & ? & ? & ? & _).
  destruct (run_counters _ _ _ _ _ Hev2 H Hc1) as (? & ? & ? & _).
  assert (Hi1 : inv w1) by (apply (world_step_inv serialized_size seal w ch); [exact Hi|exact Hev1|exact H1|lia|lia]).
  eapply IH; [done|exact H|done|done|done|done|]. clear IH H.
  pose proof (inv_sent w Hi) as Hs. destruct ch as [tag ev|now]; simpl in H1.
  - apply bind_Some in H1 as (p & _ & H1). apply bind_Some in H1 as ([s' p'] & Ht & [= <-]). simpl in *.
    apply task_step_pause in Ht as [-> | [-> | ->]]; lia.
  - by apply bind_Some in H1 as (packet & _ & [= <-]).
Qed.

End fixed_rate.

(** ** Theorems *)

Abbreviation in_flight s := (flightsize (congestion_controller s)).

(** C2: flight size under concurrency. For any controller that keeps the trait's
    contract, any number of streams and any interleaving of the tasks' accesses
    (sends, failed sends, acknowledgements, timeouts, abandoned packets, aborted
    streams), compare the controller's flight size with the bytes accounted for: those
    the tracker still holds, plus those a task has in its hands, plus those of control
    packets whose send failed. On a connection without a handshake packet to register
    (every one but those a gateway accepted) the two are equal, so no decrement is ever
    clipped at zero, and between operations, if no control send failed, the flight size
    is exactly the bytes of the tracked packets. On a connection a gateway accepted,
    whenever the handler registers the handshake packet, the flight size is never
    below the bytes accounted for by more than that packet, which is tracked but was
    not charged, and never above them by more than the one packet that may have been
    registered over it under the same id. (Up to [2^64] bytes and [2^32] packet ids.) *)
Theorem flight_size_exact {C : Type} `{FlightAccounting C} (ss : M.SymmetricMessage -> Z)
    (seal : M.SymmetricMessage -> bytes) (c : C) (ids : list StreamId) (hs : option bytes)
    (sched : list choice) (w : world) :
  flightsize c = 0 -> handshake_ok hs -> Forall choice_ok sched ->
  run ss seal (start c ids hs) sched = Some w ->
  bytes_sent w + uncharged w <= u64_max -> ids_taken w <= 2 ^ 32 ->
  let accounted := S.pending_bytes (sent_tracker (shared w)) + map_sum owed (tasks w) + lost w in
  (hs = None -> in_flight (shared w) = accounted /\
     (map_Forall (fun _ p => idle p = true) (tasks w) -> lost w = 0 ->
      in_flight (shared w) = S.pending_bytes (sent_tracker (shared w)))) /\
  accounted - uncharged w <= in_flight (shared w) <= accounted + sumZ id (merged w) /\
  0 <= uncharged w <= match hs with Some packet => Z.of_nat (length packet) | None => 0 end /\
  (length (merged w) <= 1)%nat.
Proof.
  intros Hf Hh Hev Hrun Hb Hn. destruct (conn_start_inv c ids hs Hf Hh) as [Hi Hc].
  destruct (run_counters _ _ _ _ _ Hev Hrun Hc) as (_ & _ & _ & Hu & _).
  pose proof (conn_run_inv _ _ _ _ _ Hev Hrun Hi Hc Hb Hn) as []. cbn zeta. split_and!; try lia.
  - intros ->. destruct (opened_exact _ _ _ _ _ _ Hf Hev Hrun Hb Hn) as [He _]. split; [done|].
    intros Hidle Hl. rewrite He, (idle_owed _ Hidle), Hl. lia.
  - assert (0 <= handshake_bytes w) by (unfold handshake_bytes; case_match; lia).
    unfold handshake_bytes at 2 in Hu. simpl in Hu. lia.
  - destruct inv_merged0 as [_ [->|(-> & _)]]; simpl; lia.
Qed.

(** A schedule in which a fragment of stream 5 and a short message are sent, the
    message is acknowledged, and the next fragment's send fails, aborting the
    stream. *)
Definition demo_seal (m : M.SymmetricMessage) : bytes :=
  match M.message_payload m with
  | M.ShortMessage p => p
  | M.StreamFragment _ _ _ p _ => p
  | _ => []
  end.

Definition demo_fragment (n : Z) : M.SymmetricMessagePayload :=
  M.StreamFragment 5 2000 n (replicate 1000 Byte.x00) None.

Definition demo_schedule : list choice :=
  [Task (S.Stream 5) (Fragment 1000 (demo_fragment 1)); Task S.Control (ShortMessage (replicate 60 Byte.x01) [7]);
   Task (S.Stream 5) (Continue 10 true); Task S.Control (Continue 11 true); Task (S.Stream 5) (Continue 12 true);
   Task S.Control (Continue 13 true); Task S.Control (Continue 14 true); Task (S.Stream 5) (Continue 15 true);
   Task (S.Stream 5) (Fragment 1000 (demo_fragment 2)); Task S.Control (Receipts 60 [1]);
   Task (S.Stream 5) (Continue 61 true); Task (S.Stream 5) (Continue 62 false); Task S.Control (Continue 63 true);
   Task (S.Stream 5) (Continue 64 true); Task (S.Stream 5) (Continue 65 true); Task S.Control (Continue 66 true)].

Lemma demo_events_ok : Forall choice_ok demo_schedule.
Proof. repeat constructor; simpl; unfold is_u64, u64_max; lia. Qed.

(** On a connection a gateway accepted: the handler registers the 48 bytes of its
    handshake packet between the send of the first message and its registration. *)
Definition accepted_schedule : list choice :=
  [Task S.Control (ShortMessage (replicate 60 Byte.x01) []); Task S.Control (Continue 1 true);
   Task S.Control (Continue 2 true); Handler 3; Task S.Control (Continue 4 true)].

Lemma flight_size_exact_witness :
  (exists w, run M.bincode_size demo_seal (start (FixedRate.new_with_time_source 1250000) [5] None) demo_schedule = Some w
    /\ in_flight (shared w) = 2000
    /\ in_flight (shared w) = S.pending_bytes (sent_tracker (shared w)) + map_sum owed (tasks w) + lost w) /\
  (exists w, run M.bincode_size demo_seal (start (FixedRate.new_with_time_source 1250000) [] (Some (replicate 48 Byte.x00)))
      accepted_schedule = Some w
    /\ in_flight (shared w) = 100 /\ merged w = [100]
    /\ in_flight (shared w)
       <= S.pending_bytes (sent_tracker (shared w)) + map_sum owed (tasks w) + lost w + sumZ id (merged w)).
Proof.
  split.
  - destruct (run M.bincode_size demo_seal (start (FixedRate.new_with_time_source 1250000) [5] None) demo_schedule)
      as [w|] eqn:E; [|vm_compute in E; discriminate].
    assert (Hw : in_flight (shared w) = 2000 /\ bytes_sent w + uncharged w <= u64_max /\ ids_taken w <= 2 ^ 32)
      by (vm_compute in E; injection E as <-; vm_compute; done).
    destruct Hw as (Hw & Hb & Hn). exists w. split; [done|]. split; [done|].
    exact (proj1 (proj1 (flight_size_exact M.bincode_size demo_seal (FixedRate.new_with_time_source 1250000) [5] None
      demo_schedule w eq_refl I demo_events_ok E Hb Hn) eq_refl)).
  - destruct (run M.bincode_size demo_seal _ accepted_schedule) as [w|] eqn:E; [|vm_compute in E; discriminate].
    assert (Hw : in_flight (shared w) = 100 /\ merged w = [100] /\ bytes_sent w + uncharged w <= u64_max /\ ids_taken w <= 2 ^ 32)
      by (vm_compute in E; injection E as <-; vm_compute; done).
    destruct Hw as (Hw & Hm & Hb & Hn). exists w. split; [done|]. split; [done|]. split; [done|].
    apply (flight_size_exact M.bincode_size demo_seal (FixedRate.new_with_time_source 1250000) []
      (Some (replicate 48 Byte.x00)) accepted_schedule w); try done.
    repeat constructor; simpl; unfold is_u64, u64_max; lia.
Defined.

(** A loss cannot stall a connection for good. With the fixed-rate controller,
    once every packet of a connection has been acknowledged, abandoned or dropped
    with its stream, and no control send failed, the flight size is zero and the
    congestion window admits the next fragment at once, whatever losses and
    timeouts paused the window before. *)
Lemma drained_connection_admits (ss : M.SymmetricMessage -> Z) (seal : M.SymmetricMessage -> bytes)
    (rate : Z) (ids : list StreamId) (sched : list choice) (w : world) (packet_size : Z) :
  Forall choice_ok sched ->
  run ss seal (start (new_with_time_source rate) ids None) sched = Some w ->
  bytes_sent w + uncharged w <= 2 ^ 63 -> ids_taken w <= 2 ^ 32 ->
  map_Forall (fun _ p => idle p = true) (tasks w) -> lost w = 0 ->
  S.pending_receipts (sent_tracker (shared w)) = ∅ -> 0 <= packet_size <= MAX_PACKET_SIZE ->
  in_flight (shared w) = 0
  /\ in_flight (shared w) + packet_size <= current_cwnd (congestion_controller (shared w)).
Proof.
  intros Hev Hrun Hb Hn Hidle Hl He Hp.
  assert (Hb' : bytes_sent w + uncharged w <= u64_max) by int_lia.
  assert (H0 : flightsize (new_with_time_source rate) = 0) by reflexivity.
  destruct (conn_start_inv (new_with_time_source rate) ids None H0 I) as [Hi Hc].
  destruct (opened_exact _ _ _ _ _ _ H0 Hev Hrun Hb' Hn) as [Hf Hu0].
  pose proof (run_pause _ _ _ _ _ Hev Hrun Hi Hc Hb' Hn) as Hpause.
  assert (Hz : in_flight (shared w) = 0).
  { rewrite Hf, (idle_owed _ Hidle), Hl. unfold S.pending_bytes. rewrite He, map_sum_empty. lia. }
  split; [done|]. simpl in *. apply cwnd_admits; rewrite ?Hz; [done|done|].
  change LOSS_PAUSE_MARGIN with 60000. unfold usize_max. specialize (Hpause ltac:(lia)). lia.
Qed.

(** A packet is sent, times out once (pausing the window) and is acknowledged. *)
Definition drain_schedule : list choice :=
  [Task S.Control (ShortMessage (replicate 60 Byte.x01) []); Task S.Control (Continue 1 true);
   Task S.Control (Continue 2 true); Task S.Control (Continue 3 true);
   Task S.Control (ResendCheck 2000000000 2000000000); Task S.Control (Continue 2000000001 true);
   Task S.Control (Continue 2000000002 true); Task S.Control (Receipts 2100000000 [0]);
   Task S.Control (Continue 2100000001 true); Task S.Control (Continue 2100000002 true)].

Lemma drained_connection_admits_witness :
  exists w, run M.bincode_size demo_seal (start (new_with_time_source 1250000) [] None) drain_schedule = Some w
    /\ in_flight (shared w) + 1130 <= current_cwnd (congestion_controller (shared w)).
Proof.
  destruct (run M.bincode_size demo_seal (start (new_with_time_source 1250000) [] None) drain_schedule)
    as [w|] eqn:E; [|vm_compute in E; discriminate].
  assert (Hev : Forall choice_ok drain_schedule)
    by (repeat constructor; simpl; unfold is_u64, u64_max; lia).
  exists w. split; [done|].
  apply (drained_connection_admits M.bincode_size demo_seal 1250000 [] drain_schedule w 1130 Hev E);
    try (vm_compute in E; injection E as <-; vm_compute; done).
  - change (bool_decide (map_Forall (fun _ p => idle p = true) (tasks w))) with true.
    apply (bool_decide_unpack _). vm_compute in E. injection E as <-. vm_compute. exact I.
Defined.

(** ** Where the accounting and the packet ids go wrong *)

(** A control packet whose send fails stays in the flight size for good: [noop]
    and [outbound_short_message] count the packet before [packet_sending] fails,
    register nothing and release nothing. After the failed send of a 60-byte
    message the connection is idle and tracks no packet, but 100 bytes are still
    counted in flight, and no acknowledgement, abort or resend can release them. *)
Example control_send_failure_leaks :
  exists w, run M.bincode_size demo_seal (start (new_with_time_source 1250000) [] None)
      [Task S.Control (ShortMessage (replicate 60 Byte.x01) []); Task S.Control (Continue 1 true);
       Task S.Control (Continue 2 false); Task S.Control (Continue 3 true)] = Some w
    /\ tasks w = {[S.Control := Ready]} /\ S.pending_receipts (sent_tracker (shared w)) = ∅
    /\ in_flight (shared w) = 100 /\ lost w = 100.
Proof. eexists. split; [vm_compute; reflexivity|]. split_and!; vm_compute; reflexivity. Qed.

(** A message split over two packets loses its payload. When the pending receipts
    do not fit beside a short message, [packet_sending] sends the message and a
    [NoOp] with the receipts under the same packet id, and registers both: the
    second registration replaces the payload kept for retransmission by the
    [NoOp]'s (empty under [demo_seal]). If the first packet is lost, what is resent
    is the [NoOp], and its acknowledgement, or that of the second packet, retires
    the id: the message is never delivered. *)
Example split_message_not_retransmitted :
  exists w, run M.bincode_size demo_seal (start (new_with_time_source 1250000) [] None)
      [Task S.Control (ShortMessage (replicate 1140 Byte.x01) [1; 2; 3]); Task S.Control (Continue 1 true);
       Task S.Control (Continue 2 true); Task S.Control (Continue 3 true);
       Task S.Control (Continue 4 true); Task S.Control (Continue 5 true)] = Some w
    /\ tasks w = {[S.Control := Ready]}
    /\ S.pr_payload <$> S.pending_receipts (sent_tracker (shared w)) !! 0 = Some [].
Proof. eexists. split; [vm_compute; reflexivity|]. split_and!; vm_compute; reflexivity. Qed.

(** The first packet of a connection a gateway accepted has the id of the handshake
    packet: the connection's counter starts at [FIRST_PACKET_ID] too.  Registering
    the first message only replaces the payload, so the tracker holds the
    handshake's 48 bytes where the controller counted 100; its acknowledgement
    releases 48, and 52 bytes stay in flight on an idle connection that tracks
    nothing. *)
Example first_packet_id_collides :
  exists w w', run M.bincode_size demo_seal (start (new_with_time_source 1250000) [] (Some (replicate 48 Byte.x00)))
      (Handler 0 :: map (Task S.Control)
        [ShortMessage (replicate 60 Byte.x01) []; Continue 1 true; Continue 2 true; Continue 3 true]) = Some w
    /\ in_flight (shared w) = 100 /\ S.pending_bytes (sent_tracker (shared w)) = 48
    /\ S.pr_payload <$> S.pending_receipts (sent_tracker (shared w)) !! 0 = Some (replicate 60 Byte.x01)
    /\ run M.bincode_size demo_seal w
         (map (Task S.Control) [Receipts 2100000000 [0]; Continue 2100000001 true; Continue 2100000002 true]) = Some w'
    /\ tasks w' = {[S.Control := Ready]} /\ S.pending_receipts (sent_tracker (shared w')) = ∅ /\ in_flight (shared w') = 52.
Proof.
  eexists _, _. split; [vm_compute; reflexivity|]. do 3 (split; [vm_compute; reflexivity|]).
  split; [vm_compute; reflexivity|]. split_and!; vm_compute; reflexivity.
Qed.

(** And if the handler is late, it is the message that is lost to retransmission: the
    handshake packet takes its place in the tracker. *)
Example late_handshake_replaces_message :
  exists w, run M.bincode_size demo_seal (start (new_with_time_source 1250000) [] (Some (replicate 48 Byte.x00)))
      (map (Task S.Control)
        [ShortMessage (replicate 60 Byte.x01) []; Continue 1 true; Continue 2 true; Continue 3 true] ++ [Handler 4]) = Some w
    /\ S.pr_payload <$> S.pending_receipts (sent_tracker (shared w)) !! 0 = Some (replicate 48 Byte.x00).
Proof. eexists. split; vm_compute; reflexivity. Qed.

(** On the other side, if the handshake packet is retransmitted before the first
    message is sent, its id counts as received, and the first message is taken for
    a duplicate and dropped. *)
Example first_message_taken_for_duplicate :
  let t1 := (ReceivedPacketTracker.report_received_packet 1000 1000 M.FIRST_PACKET_ID
    ReceivedPacketTracker.new).1 in
  (ReceivedPacketTracker.report_received_packet 2000 2000 0 t1).2 = ReceivedPacketTracker.AlreadyReceived.
Proof. vm_compute. reflexivity. Qed.

End Connection.
