(* ===== verification/HostingCache.v ===== *)
(** * The hosting cache: byte budget and subscriber-primary eviction

    Models [src/crates/core/src/ring/hosting/cache.rs].

    [HostingCache] tracks the contracts a peer hosts.  When their state exceeds
    the byte budget it sheds contracts in the order of [victim_order]: fewest
    local subscriptions, then fewest downstream subscribers, then least recent
    read or write, then key.  A second sweep sheds contracts without demand whose
    update work dominates the node.

    [ContractKey] and [ContractInstanceId] belong to the [freenet-stdlib] crate:
    they are parameters, with [key_bytes] and [key_id] for [as_bytes] and [id].
    The clock is an argument; a [HashMap] is a [gmap], and where its iteration
    order could matter the order is an argument too. *)

From S2P Require Import Prelude Ordering F64.

Module HostingCache.

Abbreviation Instant := Z (only parsing).
Abbreviation Duration := Z (only parsing).

(** ** Budgets *)

Definition MIB : Z := 1024 * 1024.
Definition MIN_DEFAULT_HOSTING_BUDGET_BYTES : Z := 128 * MIB.
Definition MAX_DEFAULT_HOSTING_BUDGET_BYTES : Z := 1024 * MIB.
Definition DEFAULT_HOSTING_BUDGET_RAM_DIVISOR : Z := 8.
Definition FALLBACK_TOTAL_RAM_BYTES : Z := 1024 * MIB.
Definition DEFAULT_MAX_HOSTING_DISK_BYTES : Z := 32 * 1024 * MIB.

Definition budget_for_ram (total_ram : Z) : Z :=
  Z.min MAX_DEFAULT_HOSTING_BUDGET_BYTES
    (Z.max MIN_DEFAULT_HOSTING_BUDGET_BYTES (total_ram / DEFAULT_HOSTING_BUDGET_RAM_DIVISOR)).

(** [read_total_ram_bytes] is the operating system's answer. *)
Definition default_hosting_budget_bytes (read_total_ram_bytes : option Z) : Z :=
  budget_for_ram (default FALLBACK_TOTAL_RAM_BYTES read_total_ram_bytes).

Definition disk_budget_for_clamped (freenet_used available : Z) (pct : f64) (min_bytes max_bytes : Z) : Z :=
  let pct := if f64_is_finite pct then f64_clamp pct f64_zero f64_one else f64_zero in
  let basis := sat_add64 freenet_used available in
  let raw := f64_mul (f64_of_Z basis) pct in
  let budget := if f64_le (f64_of_Z u64_max) raw then u64_max else f64_to_u64 raw in
  Z.max min_bytes (Z.min budget max_bytes).

Definition disk_budget_for (freenet_used available : Z) (pct : f64) : Z :=
  disk_budget_for_clamped freenet_used available pct MIN_DEFAULT_HOSTING_BUDGET_BYTES
    DEFAULT_MAX_HOSTING_DISK_BYTES.

(** ** Constants of the cost trigger and of the renewal lease *)

Definition COST_SHARE_THRESHOLD : f64 := f64_div f64_one (f64_of_Z 4).
Definition EXEC_CPU_PRESSURE_FLOOR_MICROS_PER_SEC : f64 := f64_of_Z 50000.
Definition BROADCAST_FANOUT_PRESSURE_FLOOR_BYTES_PER_SEC : f64 :=
  f64_mul (f64_of_Z 128) (f64_of_Z 1024).
Definition BROADCAST_MESSAGES_PRESSURE_FLOOR_PER_SEC : f64 := f64_of_Z 10.
Definition COST_RATE_MIN_WINDOW : Duration := from_secs 300.
Definition SUBSCRIPTION_RENEWAL_INTERVAL : Duration := from_secs 120.
Definition LEASE_RENEWAL_MULTIPLIER : Z := 4.
Definition SUBSCRIPTION_LEASE_DURATION : Duration :=
  SUBSCRIPTION_RENEWAL_INTERVAL * LEASE_RENEWAL_MULTIPLIER.
Definition NEUTRAL_DEMAND : f64 := f64_one.

(** ** Data *)

Inductive AccessType := Get | Put | Subscribe.

#[export] Instance AccessType_eq_dec : EqDecision AccessType.
Proof. solve_decision. Defined.

Inductive MemoryPressure := AtCapacity | Overflow.

Record HostedContract := mkHosted {
  size_bytes : Z;
  last_accessed : Instant;
  last_access_seq : Z;
  recency_seq : Z;
  last_genuine_access : option Instant;
  keep_score : f64;
  predicted_demand : f64;
  read_count : Z;
  inserted_at : Instant;
  seeded_this_run : bool;
  access_type : AccessType;
  local_client_access : bool;
  local_client_last_access : option Instant;
  write_generation : Z;
  abandoned_at : option Instant;
}.

Definition saturating_duration_since (now earlier : Instant) : Duration := Z.max 0 (now - earlier).

Section cache.
Context {K I : Type} `{eqK : EqDecision K, cntK : !Countable K, eqI : EqDecision I, cntI : !Countable I}.
Variable key_bytes : K -> list Byte.byte.
Variable key_id : K -> I.
(** The earliest [Instant] the platform can represent. *)
Variable instant_min : Instant.

Record EvictedContract := mkEvicted { key : K; evicted_generation : Z; was_in_use : bool }.

Record RecordAccessResult := mkResult {
  is_new : bool;
  evicted : list (K * Z);
  evicted_in_use : list K;
  observed_read_rate : option f64;
}.

Record HostingCache := mkCache {
  budget_bytes : Z;
  current_bytes : Z;
  contracts : gmap K HostedContract;
  access_seq : Z;
  eviction_floor : f64;
  budget_evictions_total : Z;
  evictions_of_recently_read_total : Z;
  evicted_unread_total : Z;
  evicted_unread_age_secs_sum : Z;
  oom_valve_evictions_total : Z;
  subscribed_evictions_total : Z;
  cost_evictions_total : Z;
}.

(** Node-level attributed cost on one axis. *)
Record CostAxisPressure := mkAxis { total_rate : f64; floor : f64; rates : gmap I f64 }.

Definition new (budget : Z) : HostingCache := {|
  budget_bytes := budget; current_bytes := 0; contracts := ∅; access_seq := 0;
  eviction_floor := f64_zero; budget_evictions_total := 0; evictions_of_recently_read_total := 0;
  evicted_unread_total := 0; evicted_unread_age_secs_sum := 0; oom_valve_evictions_total := 0;
  subscribed_evictions_total := 0; cost_evictions_total := 0;
|}.

(** Replace the entries and their byte count, the only fields most operations
    touch. *)
Definition set_entries (m : gmap K HostedContract) (bytes : Z) (c : HostingCache) : HostingCache := {|
  budget_bytes := budget_bytes c; current_bytes := bytes; contracts := m; access_seq := access_seq c;
  eviction_floor := eviction_floor c; budget_evictions_total := budget_evictions_total c;
  evictions_of_recently_read_total := evictions_of_recently_read_total c;
  evicted_unread_total := evicted_unread_total c;
  evicted_unread_age_secs_sum := evicted_unread_age_secs_sum c;
  oom_valve_evictions_total := oom_valve_evictions_total c;
  subscribed_evictions_total := subscribed_evictions_total c;
  cost_evictions_total := cost_evictions_total c;
|}.

Definition set_contracts (m : gmap K HostedContract) (c : HostingCache) : HostingCache :=
  set_entries m (current_bytes c) c.

Definition set_budget_bytes (budget : Z) (c : HostingCache) : HostingCache := {|
  budget_bytes := budget; current_bytes := current_bytes c; contracts := contracts c;
  access_seq := access_seq c; eviction_floor := eviction_floor c;
  budget_evictions_total := budget_evictions_total c;
  evictions_of_recently_read_total := evictions_of_recently_read_total c;
  evicted_unread_total := evicted_unread_total c;
  evicted_unread_age_secs_sum := evicted_unread_age_secs_sum c;
  oom_valve_evictions_total := oom_valve_evictions_total c;
  subscribed_evictions_total := subscribed_evictions_total c;
  cost_evictions_total := cost_evictions_total c;
|}.

Definition next_seq (c : HostingCache) : HostingCache * Z :=
  let seq := sat_add64 (access_seq c) 1 in
  ({| budget_bytes := budget_bytes c; current_bytes := current_bytes c; contracts := contracts c;
      access_seq := seq; eviction_floor := eviction_floor c;
      budget_evictions_total := budget_evictions_total c;
      evictions_of_recently_read_total := evictions_of_recently_read_total c;
      evicted_unread_total := evicted_unread_total c;
      evicted_unread_age_secs_sum := evicted_unread_age_secs_sum c;
      oom_valve_evictions_total := oom_valve_evictions_total c;
      subscribed_evictions_total := subscribed_evictions_total c;
      cost_evictions_total := cost_evictions_total c |}, seq).

(** ** Over-budget eviction *)

(** A candidate: key, local and downstream subscribers, recency. *)
Definition candidate : Type := K * nat * nat * Z.

Definition victim_order (a b : candidate) : comparison :=
  let '(a_key, a_local, a_down, a_seq) := a in
  let '(b_key, b_local, b_down, b_seq) := b in
  then_with (Nat.compare a_local b_local)
    (then_with (Nat.compare a_down b_down)
      (then_with (Z.compare a_seq b_seq) (bytes_cmp (key_bytes a_key) (key_bytes b_key)))).

Definition eligible (pressure : MemoryPressure) (protected : option K) (k : K) : bool :=
  match pressure with
  | AtCapacity => negb (bool_decide (protected = Some k))
  | Overflow => true
  end.

(** The [filter_map] over the entries, in the iteration order [order]. *)
Definition candidates_of (subscriber_counts : K -> nat * nat) (pressure : MemoryPressure)
    (protected : option K) (order : list (K * HostedContract)) : list candidate :=
  omap (fun '(k, entry) =>
    if eligible pressure protected k then
      let '(local, downstream) := subscriber_counts k in Some (k, local, downstream, recency_seq entry)
    else None) order.

(** The removal of one victim and the counters it moves. *)
Definition evict_entry (pressure : MemoryPressure) (now : Instant) (k : K) (local downstream : nat)
    (entry : HostedContract) (c : HostingCache) : HostingCache * EvictedContract :=
  let in_use := (0 <? local + downstream)%nat in
  let unread := (read_count entry =? 0) && seeded_this_run entry in
  let age_secs := saturating_duration_since now (inserted_at entry) / nanos_per_sec in
  ({| budget_bytes := budget_bytes c;
      current_bytes := sat_sub (current_bytes c) (size_bytes entry);
      contracts := delete k (contracts c);
      access_seq := access_seq c;
      eviction_floor := if f64_lt (eviction_floor c) (keep_score entry) then keep_score entry
                        else eviction_floor c;
      budget_evictions_total := sat_add64 (budget_evictions_total c) 1;
      evictions_of_recently_read_total :=
        if 2 <=? read_count entry then sat_add64 (evictions_of_recently_read_total c) 1
        else evictions_of_recently_read_total c;
      evicted_unread_total :=
        if unread then sat_add64 (evicted_unread_total c) 1 else evicted_unread_total c;
      evicted_unread_age_secs_sum :=
        if unread then sat_add64 (evicted_unread_age_secs_sum c) age_secs
        else evicted_unread_age_secs_sum c;
      oom_valve_evictions_total :=
        match pressure with Overflow => sat_add64 (oom_valve_evictions_total c) 1
                          | AtCapacity => oom_valve_evictions_total c end;
      subscribed_evictions_total :=
        if in_use then sat_add64 (subscribed_evictions_total c) 1 else subscribed_evictions_total c;
      cost_evictions_total := cost_evictions_total c |},
   mkEvicted k (write_generation entry) in_use).

Fixpoint evict_loop (pressure : MemoryPressure) (now : Instant) (cands : list candidate)
    (c : HostingCache) (acc : list EvictedContract) : HostingCache * list EvictedContract :=
  match cands with
  | [] => (c, acc)
  | (k, local, downstream, _) :: rest =>
      if current_bytes c <=? budget_bytes c then (c, acc)
      else match contracts c !! k with
           | Some entry =>
               let '(c, e) := evict_entry pressure now k local downstream entry c in
               evict_loop pressure now rest c (acc ++ [e])
           | None => evict_loop pressure now rest c acc
           end
  end.

Definition evict_over_budget_in (order : list (K * HostedContract)) (now : Instant)
    (subscriber_counts : K -> nat * nat) (pressure : MemoryPressure) (protected : option K)
    (c : HostingCache) : HostingCache * list EvictedContract :=
  if current_bytes c <=? budget_bytes c then (c, [])
  else evict_loop pressure now
         (sort_by victim_order (candidates_of subscriber_counts pressure protected order)) c [].

Definition evict_over_budget (now : Instant) (subscriber_counts : K -> nat * nat)
    (pressure : MemoryPressure) (protected : option K) (c : HostingCache)
    : HostingCache * list EvictedContract :=
  evict_over_budget_in (map_to_list (contracts c)) now subscriber_counts pressure protected c.

Definition sweep_expired (now : Instant) (subscriber_counts : K -> nat * nat)
    (pressure : MemoryPressure) (c : HostingCache) : HostingCache * list EvictedContract :=
  evict_over_budget now subscriber_counts pressure None c.

(** ** Access *)

Definition rate_sample (reads : Z) (now inserted : Instant) : option f64 :=
  let residency := saturating_duration_since now inserted in
  if residency =? 0 then None
  else Some (f64_div (f64_of_Z reads) (f64_max (as_secs_f64 residency) f64_one)).

Definition is_read (a : AccessType) : bool := match a with Get | Subscribe => true | Put => false end.
Definition resets_recency (a : AccessType) : bool := match a with Get | Put => true | Subscribe => false end.

(** The refresh of an entry that is already hosted. *)
Definition refresh_entry (now seq size gen : Z) (a : AccessType) (floor demand : f64)
    (e : HostedContract) : HostedContract := {|
  size_bytes := size;
  last_accessed := now;
  last_access_seq := seq;
  recency_seq := if resets_recency a then seq else recency_seq e;
  last_genuine_access := if resets_recency a then Some now else last_genuine_access e;
  keep_score := if is_read a then f64_add floor demand else keep_score e;
  predicted_demand := demand;
  read_count := if is_read a then sat_add32 (read_count e) 1 else read_count e;
  inserted_at := inserted_at e;
  seeded_this_run := seeded_this_run e;
  access_type := a;
  local_client_access := local_client_access e;
  local_client_last_access := local_client_last_access e;
  write_generation := gen;
  abandoned_at := if is_read a then None else abandoned_at e;
|}.

(** The entry of a contract hosted for the first time in this run. *)
Definition fresh_entry (now seq size gen : Z) (a : AccessType) (floor demand : f64) : HostedContract := {|
  size_bytes := size;
  last_accessed := now;
  last_access_seq := seq;
  recency_seq := if resets_recency a then seq else 0;
  last_genuine_access := if resets_recency a then Some now else None;
  keep_score := f64_add floor demand;
  predicted_demand := demand;
  read_count := if is_read a then 1 else 0;
  inserted_at := now;
  seeded_this_run := true;
  access_type := a;
  local_client_access := false;
  local_client_last_access := None;
  write_generation := gen;
  abandoned_at := None;
|}.

Definition record_access_with_demand (now : Instant) (k : K) (size : Z) (a : AccessType) (gen : Z)
    (demand : f64) (subscriber_counts : K -> nat * nat) (c : HostingCache)
    : HostingCache * RecordAccessResult :=
  let '(c, seq) := next_seq c in
  match contracts c !! k with
  | Some existing =>
      let bytes := if size_bytes existing =? size then current_bytes c
                   else sat_sub (sat_add64 (current_bytes c) size) (size_bytes existing) in
      let e := refresh_entry now seq size gen a (eviction_floor c) demand existing in
      (set_entries (<[k := e]> (contracts c)) bytes c,
       mkResult false [] []
         (if is_read a then rate_sample (read_count e) now (inserted_at e) else None))
  | None =>
      let e := fresh_entry now seq size gen a (eviction_floor c) demand in
      let c := set_entries (<[k := e]> (contracts c)) (sat_add64 (current_bytes c) size) c in
      let '(c, out) := evict_over_budget now subscriber_counts AtCapacity (Some k) c in
      (c, mkResult true (map (fun e => (key e, evicted_generation e)) out)
            (map key (filter (fun e => was_in_use e = true) out)) None)
  end.

Definition record_access (now : Instant) (k : K) (size : Z) (a : AccessType) (gen : Z)
    (subscriber_counts : K -> nat * nat) (c : HostingCache) : HostingCache * RecordAccessResult :=
  record_access_with_demand now k size a gen NEUTRAL_DEMAND subscriber_counts c.

Definition mark_local_client_access (now : Instant) (k : K) (c : HostingCache) : HostingCache :=
  match contracts c !! k with
  | Some e =>
      set_contracts (<[k := {|
        size_bytes := size_bytes e; last_accessed := last_accessed e;
        last_access_seq := last_access_seq e; recency_seq := recency_seq e;
        last_genuine_access := last_genuine_access e; keep_score := keep_score e;
        predicted_demand := predicted_demand e; read_count := read_count e;
        inserted_at := inserted_at e; seeded_this_run := seeded_this_run e;
        access_type := access_type e; local_client_access := true;
        local_client_last_access := Some now; write_generation := write_generation e;
        abandoned_at := abandoned_at e |}]> (contracts c)) c
  | None => c
  end.

Definition has_local_client_access (k : K) (c : HostingCache) : bool :=
  match contracts c !! k with Some e => local_client_access e | None => false end.

Definition has_recent_local_client_access (now : Instant) (k : K) (max_age : Duration)
    (c : HostingCache) : bool :=
  match contracts c !! k ≫= local_client_last_access with
  | Some t => saturating_duration_since now t <? max_age
  | None => false
  end.

Definition touch_entry (now seq : Z) (floor demand : f64) (e : HostedContract) : HostedContract := {|
  size_bytes := size_bytes e;
  last_accessed := now;
  last_access_seq := seq;
  recency_seq := seq;
  last_genuine_access := Some now;
  keep_score := f64_add floor demand;
  predicted_demand := demand;
  read_count := sat_add32 (read_count e) 1;
  inserted_at := inserted_at e;
  seeded_this_run := seeded_this_run e;
  access_type := access_type e;
  local_client_access := local_client_access e;
  local_client_last_access := local_client_last_access e;
  write_generation := write_generation e;
  abandoned_at := None;
|}.

Definition touch_with_demand (now : Instant) (k : K) (demand : f64) (c : HostingCache)
    : HostingCache * option f64 :=
  let floor := eviction_floor c in
  let '(c, seq) := next_seq c in
  match contracts c !! k with
  | Some existing =>
      let e := touch_entry now seq floor demand existing in
      (set_contracts (<[k := e]> (contracts c)) c, rate_sample (read_count e) now (inserted_at e))
  | None => (c, None)
  end.

Definition touch (now : Instant) (k : K) (c : HostingCache) : HostingCache * option f64 :=
  match contracts c !! k with
  | Some e => touch_with_demand now k (predicted_demand e) c
  | None => (c, None)
  end.

Definition abandon_entry (now seq : Z) (floor : f64) (e : HostedContract) : HostedContract := {|
  size_bytes := size_bytes e; last_accessed := last_accessed e; last_access_seq := last_access_seq e;
  recency_seq := seq;
  last_genuine_access := Some now;
  keep_score := floor;
  predicted_demand := predicted_demand e; read_count := read_count e; inserted_at := inserted_at e;
  seeded_this_run := seeded_this_run e; access_type := access_type e;
  local_client_access := local_client_access e;
  local_client_last_access := local_client_last_access e; write_generation := write_generation e;
  abandoned_at := Some now;
|}.

Definition record_abandonment (now : Instant) (k : K) (c : HostingCache) : HostingCache :=
  let floor := eviction_floor c in
  match contracts c !! k with
  | Some e =>
      match abandoned_at e with
      | Some _ => c
      | None =>
          let '(c, seq) := next_seq c in
          set_contracts (<[k := abandon_entry now seq floor e]> (contracts c)) c
      end
  | None => c
  end.

Definition refresh_entry_generation (k : K) (new_gen : Z) (c : HostingCache) : HostingCache :=
  match contracts c !! k with
  | Some e =>
      set_contracts (<[k := {|
        size_bytes := size_bytes e; last_accessed := last_accessed e;
        last_access_seq := last_access_seq e; recency_seq := recency_seq e;
        last_genuine_access := last_genuine_access e; keep_score := keep_score e;
        predicted_demand := predicted_demand e; read_count := read_count e;
        inserted_at := inserted_at e; seeded_this_run := seeded_this_run e;
        access_type := access_type e; local_client_access := local_client_access e;
        local_client_last_access := local_client_last_access e; write_generation := new_gen;
        abandoned_at := abandoned_at e |}]> (contracts c)) c
  | None => c
  end.

Definition contains (k : K) (c : HostingCache) : bool := bool_decide (is_Some (contracts c !! k)).
Definition len (c : HostingCache) : nat := size (contracts c).

(** ** Diagnostics *)

Record HostingContractScore := mkScore {
  score_key : K; score_keep : f64; score_demand : f64; score_size : Z; score_reads : Z; score_recency : Z }.

Definition eviction_ordered_scores (c : HostingCache) : list HostingContractScore :=
  sort_by (fun a b => then_with (Z.compare (score_recency a) (score_recency b))
                        (bytes_cmp (key_bytes (score_key a)) (key_bytes (score_key b))))
    (map (fun '(k, v) => mkScore k (keep_score v) (predicted_demand v) (size_bytes v) (read_count v)
                           (recency_seq v)) (map_to_list (contracts c))).

(** ** Cost-pressure eviction *)

Definition ContractCostRead : Type := f64 * gmap I f64.

Definition build_cost_axes (exec_cpu fanout_bytes messages : ContractCostRead) : list CostAxisPressure :=
  [ mkAxis exec_cpu.1 EXEC_CPU_PRESSURE_FLOOR_MICROS_PER_SEC exec_cpu.2;
    mkAxis fanout_bytes.1 BROADCAST_FANOUT_PRESSURE_FLOOR_BYTES_PER_SEC fanout_bytes.2;
    mkAxis messages.1 BROADCAST_MESSAGES_PRESSURE_FLOOR_PER_SEC messages.2 ].

Definition cost_eviction_candidate (local_subs downstream_subs : nat) (attributed_rate : f64)
    (recently_accessed : bool) : bool :=
  (local_subs =? 0)%nat && (downstream_subs =? 0)%nat && negb recently_accessed
  && f64_lt f64_zero attributed_rate.

Definition within (now : Instant) (window : Duration) (at_ : option Instant) : bool :=
  match at_ with Some t => saturating_duration_since now t <? window | None => false end.

Definition recently_accessed (now : Instant) (e : HostedContract) : bool :=
  within now COST_RATE_MIN_WINDOW (last_genuine_access e)
  || within now SUBSCRIPTION_LEASE_DURATION (local_client_last_access e).

(** The [filter_map] of the sweep: the rate of a contract that is to be shed on
    this axis. *)
Definition offender_rate (now : Instant) (subscriber_counts : K -> nat * nat) (axis : CostAxisPressure)
    (k : K) (e : HostedContract) : option f64 :=
  let share_cutoff := f64_mul COST_SHARE_THRESHOLD (total_rate axis) in
  let rate := default f64_zero (rates axis !! key_id k) in
  if f64_le rate share_cutoff then None
  else
    let '(local, downstream) := subscriber_counts k in
    if cost_eviction_candidate local downstream rate (recently_accessed now e) then Some rate else None.

Definition axis_under_pressure (axis : CostAxisPressure) : bool :=
  negb (f64_is_nan (total_rate axis) || f64_le (total_rate axis) (floor axis)).

Definition offender_order (a b : K * f64) : comparison :=
  then_with (default Eq (f64_partial_cmp b.2 a.2)) (bytes_cmp (key_bytes a.1) (key_bytes b.1)).

Definition cost_evict_entry (k : K) (e : HostedContract) (c : HostingCache)
    : HostingCache * EvictedContract :=
  ({| budget_bytes := budget_bytes c;
      current_bytes := sat_sub (current_bytes c) (size_bytes e);
      contracts := delete k (contracts c);
      access_seq := access_seq c; eviction_floor := eviction_floor c;
      budget_evictions_total := budget_evictions_total c;
      evictions_of_recently_read_total := evictions_of_recently_read_total c;
      evicted_unread_total := evicted_unread_total c;
      evicted_unread_age_secs_sum := evicted_unread_age_secs_sum c;
      oom_valve_evictions_total := oom_valve_evictions_total c;
      subscribed_evictions_total := subscribed_evictions_total c;
      cost_evictions_total := sat_add64 (cost_evictions_total c) 1 |},
   mkEvicted k (write_generation e) false).

Fixpoint cost_evict_loop (offenders : list (K * f64)) (c : HostingCache) (acc : list EvictedContract)
    : HostingCache * list EvictedContract :=
  match offenders with
  | [] => (c, acc)
  | (k, _) :: rest =>
      match contracts c !! k with
      | Some e => let '(c, x) := cost_evict_entry k e c in cost_evict_loop rest c (acc ++ [x])
      | None => cost_evict_loop rest c acc
      end
  end.

Definition offenders_of (now : Instant) (subscriber_counts : K -> nat * nat) (axis : CostAxisPressure)
    (order : list (K * HostedContract)) : list (K * f64) :=
  omap (fun '(k, e) => (fun r => (k, r)) <$> offender_rate now subscriber_counts axis k e) order.

Fixpoint evict_cost_pressure_loop (now : Instant) (subscriber_counts : K -> nat * nat)
    (axes : list CostAxisPressure) (c : HostingCache) (acc : list EvictedContract)
    : HostingCache * list EvictedContract :=
  match axes with
  | [] => (c, acc)
  | axis :: rest =>
      if axis_under_pressure axis then
        let offenders := sort_by offender_order
          (offenders_of now subscriber_counts axis (map_to_list (contracts c))) in
        let '(c, acc) := cost_evict_loop offenders c acc in
        evict_cost_pressure_loop now subscriber_counts rest c acc
      else evict_cost_pressure_loop now subscriber_counts rest c acc
  end.

Definition evict_cost_pressure (now : Instant) (subscriber_counts : K -> nat * nat)
    (axes : list CostAxisPressure) (c : HostingCache) : HostingCache * list EvictedContract :=
  evict_cost_pressure_loop now subscriber_counts axes c [].

(** ** Loading at startup *)

Definition load_persisted_entry_with_demand (now : Instant) (k : K) (size : Z) (a : AccessType)
    (last_access_age : Duration) (local : bool) (demand : f64) (c : HostingCache) : HostingCache :=
  if contains k c then c
  else
    let last := if instant_min <=? now - last_access_age then now - last_access_age else now in
    let e := {|
      size_bytes := size; last_accessed := last; last_access_seq := 0; recency_seq := 0;
      last_genuine_access := match a with Get => Some last | Put | Subscribe => None end;
      keep_score := f64_add (eviction_floor c) demand; predicted_demand := demand;
      read_count := 0; inserted_at := now; seeded_this_run := false; access_type := a;
      local_client_access := local;
      local_client_last_access := if local then Some now else None;
      write_generation := 0; abandoned_at := None |} in
    set_entries (<[k := e]> (contracts c)) (sat_add64 (current_bytes c) size) c.

Definition load_persisted_entry (now : Instant) (k : K) (size : Z) (a : AccessType)
    (last_access_age : Duration) (local : bool) (c : HostingCache) : HostingCache :=
  load_persisted_entry_with_demand now k size a last_access_age local NEUTRAL_DEMAND c.

Definition set_last_access_seq (seq : Z) (e : HostedContract) : HostedContract := {|
  size_bytes := size_bytes e; last_accessed := last_accessed e; last_access_seq := seq;
  recency_seq := recency_seq e; last_genuine_access := last_genuine_access e;
  keep_score := keep_score e; predicted_demand := predicted_demand e; read_count := read_count e;
  inserted_at := inserted_at e; seeded_this_run := seeded_this_run e; access_type := access_type e;
  local_client_access := local_client_access e;
  local_client_last_access := local_client_last_access e; write_generation := write_generation e;
  abandoned_at := abandoned_at e;
|}.

Fixpoint finalize_loop (entries : list (K * Instant)) (c : HostingCache) : HostingCache :=
  match entries with
  | [] => c
  | (k, _) :: rest =>
      let '(c, seq) := next_seq c in
      finalize_loop rest
        (match contracts c !! k with
         | Some e => set_contracts (<[k := set_last_access_seq seq e]> (contracts c)) c
         | None => c
         end)
  end.

(** The sort is stable: entries of equal age keep the map's iteration order. *)
Definition finalize_loading (order : list (K * HostedContract)) (c : HostingCache) : HostingCache :=
  finalize_loop (sort_by (fun a b => Z.compare a.2 b.2)
                   (map (fun '(k, v) => (k, last_accessed v)) order)) c.

(** ** Sequences of calls *)

Inductive op :=
| RecordAccess (k : K) (size : Z) (a : AccessType) (gen : Z) (demand : f64) (counts : K -> nat * nat)
| MarkLocal (k : K)
| Touch (k : K) (demand : f64)
| Abandon (k : K)
| RefreshGeneration (k : K) (gen : Z)
| SetBudget (budget : Z)
| Sweep (counts : K -> nat * nat) (pressure : MemoryPressure)
| CostSweep (counts : K -> nat * nat) (axes : list CostAxisPressure)
| LoadEntry (k : K) (size : Z) (a : AccessType) (age : Duration) (local : bool) (demand : f64)
| FinalizeLoading.

Definition step (c : HostingCache) (e : Instant * op) : HostingCache :=
  let now := e.1 in
  match e.2 with
  | RecordAccess k size a gen demand counts => (record_access_with_demand now k size a gen demand counts c).1
  | MarkLocal k => mark_local_client_access now k c
  | Touch k demand => (touch_with_demand now k demand c).1
  | Abandon k => record_abandonment now k c
  | RefreshGeneration k gen => refresh_entry_generation k gen c
  | SetBudget b => set_budget_bytes b c
  | Sweep counts pressure => (sweep_expired now counts pressure c).1
  | CostSweep counts axes => (evict_cost_pressure now counts axes c).1
  | LoadEntry k size a age local demand => load_persisted_entry_with_demand now k size a age local demand c
  | FinalizeLoading => finalize_loading (map_to_list (contracts c)) c
  end.

Definition run (c : HostingCache) (es : list (Instant * op)) : HostingCache := foldl step c es.

(** The bytes a call brings to the cache. *)
Definition offered (o : op) : Z :=
  match o with
  | RecordAccess _ size _ _ _ _ | LoadEntry _ size _ _ _ _ => size
  | _ => 0
  end.

(** ** The invariant *)

(** What every call keeps true of the byte count, the entries and the access
    counter, when at most [t] bytes were offered so far. *)
Record wf_state (t bytes : Z) (m : gmap K HostedContract) (seq : Z) : Prop := {
  wf_bytes : bytes = map_sum size_bytes m;
  wf_offered : bytes <= t;
  wf_sizes : map_Forall (fun _ e => 0 <= size_bytes e) m;
  wf_recency : map_Forall (fun _ e => 0 <= recency_seq e <= seq) m;
  wf_seq : 0 <= seq <= u64_max;
  wf_unique : seq < u64_max ->
    forall k1 k2 e1 e2, m !! k1 = Some e1 -> m !! k2 = Some e2 ->
    recency_seq e1 = recency_seq e2 -> recency_seq e1 <> 0 -> k1 = k2;
}.

Definition wf (t : Z) (c : HostingCache) : Prop :=
  wf_state t (current_bytes c) (contracts c) (access_seq c).

Lemma wf_state_more t t' bytes m seq : t <= t' -> wf_state t bytes m seq -> wf_state t' bytes m seq.
Proof. intros Ht []. split; [done|lia|done..]. Qed.

Lemma wf_new b : wf 0 (new b).
Proof.
  split; simpl; [by rewrite map_sum_empty|lia|apply map_Forall_empty..|int_lia|].
  intros _ k1 k2 e1 e2 Hk. by rewrite lookup_empty in Hk.
Qed.

(** A call that replaces or adds one entry, keeping its recency, clearing it or
    taking the next number. *)
Lemma wf_put t t' bytes bytes' m seq seq' k e' :
  wf_state t bytes m seq -> 0 <= size_bytes e' ->
  bytes' = map_sum size_bytes (<[k := e']> m) -> bytes' <= t' ->
  (seq' = seq /\ ((exists e, m !! k = Some e /\ recency_seq e' = recency_seq e) \/ recency_seq e' = 0)) \/
  (seq' = sat_add64 seq 1 /\
    ((exists e, m !! k = Some e /\ recency_seq e' = recency_seq e) \/ recency_seq e' = 0 \/ recency_seq e' = seq')) ->
  wf_state t' bytes' (<[k := e']> m) seq'.
Proof.
  intros Hwf Hsz Hb Ht Hseq. destruct Hwf as [_ _ Hs Hr Hq Hu].
  assert (Hle : seq <= seq' <= u64_max) by (unfold_ints; naive_solver lia).
  assert (He' : 0 <= recency_seq e' <= seq').
  { destruct Hseq as [[-> [(e & He & ->) | ->]] | [_ [(e & He & ->) | [-> | ->]]]];
      try (apply Hr in He); simpl in *; lia. }
  split; [done..| | |lia|].
  - by apply map_Forall_insert_2.
  - apply map_Forall_insert_2; [done|]. eapply map_Forall_impl; [exact Hr|]. intros; simpl in *; lia.
  - intros Hlt k1 k2 e1 e2 H1 H2 Heq Hnz.
    assert (Hold : forall k2 e2, k <> k2 -> m !! k2 = Some e2 -> recency_seq e' = recency_seq e2 ->
                     recency_seq e' <> 0 -> k = k2).
    { intros k0 e0 Hne H0 Hr0 Hn0.
      destruct Hseq as [[-> [(e & He & Hre) | ?]] | [-> [(e & He & Hre) | [? | Hre]]]]; try done.
      - eapply Hu; [lia|exact He|exact H0|congruence|congruence].
      - eapply Hu; [unfold_ints; lia|exact He|exact H0|congruence|congruence].
      - apply Hr in H0. simpl in H0. unfold_ints. lia. }
    rewrite lookup_insert_Some in H1, H2.
    destruct H1 as [[<- <-] | [Hk1 H1]], H2 as [[<- <-] | [Hk2 H2]]; [done| | |].
    + by eapply Hold.
    + symmetry. eapply Hold; [done|exact H1|congruence|congruence].
    + eapply Hu; [lia|exact H1|exact H2|done|done].
Qed.

(** Dropping an entry. *)
Lemma wf_drop t bytes m seq k e :
  wf_state t bytes m seq -> m !! k = Some e ->
  wf_state t (sat_sub bytes (size_bytes e)) (delete k m) seq.
Proof.
  intros [Hb Ht Hs Hr Hq Hu] He. pose proof (map_sum_delete size_bytes m k e He) as Hd.
  assert (0 <= map_sum size_bytes (delete k m)).
  { apply map_sum_nonneg. intros k' v [_ Hv]%lookup_delete_Some. by apply Hs in Hv. }
  pose proof (Hs k e He) as Hsz. simpl in Hsz.
  split; [unfold sat_sub; lia|unfold sat_sub; lia|by apply map_Forall_delete..|done|].
  intros Hlt k1 k2 e1 e2 [_ H1]%lookup_delete_Some [_ H2]%lookup_delete_Some. by apply Hu.
Qed.

Lemma evict_loop_wf t p now cands c acc :
  wf t c -> wf t (evict_loop p now cands c acc).1.
Proof.
  revert c acc. induction cands as [|[[[k l] d] r] cands IH]; intros c acc Hwf; simpl; [done|].
  case_match; [done|]. case_match eqn:He; [|by apply IH]. simpl. apply IH. by apply wf_drop.
Qed.

Lemma evict_over_budget_wf t now counts p prot c :
  wf t c -> wf t (evict_over_budget now counts p prot c).1.
Proof.
  intros Hwf. unfold evict_over_budget, evict_over_budget_in. case_match; [done|]. by apply evict_loop_wf.
Qed.

Lemma cost_evict_loop_wf t offs c acc : wf t c -> wf t (cost_evict_loop offs c acc).1.
Proof.
  revert c acc. induction offs as [|[k r] offs IH]; intros c acc Hwf; simpl; [done|].
  case_match eqn:He; [|by apply IH]. simpl. apply IH. by apply wf_drop.
Qed.

Lemma evict_cost_pressure_wf t now counts axes c :
  wf t c -> wf t (evict_cost_pressure now counts axes c).1.
Proof.
  unfold evict_cost_pressure. generalize (@nil EvictedContract). revert c.
  induction axes as [|ax axes IH]; intros c acc Hwf; simpl; [done|]. case_match; [|by apply IH].
  match goal with |- context [cost_evict_loop ?l c acc] =>
    pose proof (cost_evict_loop_wf t l c acc Hwf) as Hc; destruct (cost_evict_loop l c acc) as [c' acc'] end.
  by apply IH.
Qed.

(** An entry rewritten in place, keeping its size. *)
Lemma wf_rewrite t c seq' k e e' :
  wf t c -> contracts c !! k = Some e -> size_bytes e' = size_bytes e ->
  (seq' = access_seq c /\ recency_seq e' = recency_seq e) \/
  (seq' = sat_add64 (access_seq c) 1 /\ (recency_seq e' = recency_seq e \/ recency_seq e' = seq')) ->
  wf_state t (current_bytes c) (<[k := e']> (contracts c)) seq'.
Proof.
  intros Hwf He Hsz Hseq. eapply wf_put; [exact Hwf| | | |].
  - rewrite Hsz. apply (wf_sizes _ _ _ _ Hwf k e He).
  - rewrite (wf_bytes _ _ _ _ Hwf). rewrite (map_sum_replace size_bytes _ k e e'); [lia|done].
  - apply Hwf.
  - naive_solver.
Qed.

Lemma wf_next_seq t c : wf t c -> wf t (next_seq c).1.
Proof.
  intros [Hb Ht Hs Hr Hq Hu]. split; simpl; [done..| |int_lia|].
  - eapply map_Forall_impl; [exact Hr|]. intros; simpl in *; int_lia.
  - intros Hlt. apply Hu. int_lia.
Qed.

Lemma finalize_loop_wf t l c : wf t c -> wf t (finalize_loop l c).
Proof.
  revert c. induction l as [|[k a] l IH]; intros c Hwf; simpl; [done|]. apply IH.
  case_match eqn:He; [|by apply wf_next_seq]. apply (wf_rewrite t c _ _ _ _ Hwf He); [done|]. by right; split; [|left].
Qed.

(** A contract hosted for the first time. *)
Lemma wf_host t c seq' k e :
  0 <= size_bytes e -> t + size_bytes e <= u64_max -> wf t c -> contracts c !! k = None ->
  (seq' = access_seq c /\ recency_seq e = 0) \/
  (seq' = sat_add64 (access_seq c) 1 /\ (recency_seq e = 0 \/ recency_seq e = seq')) ->
  wf_state (t + size_bytes e) (sat_add64 (current_bytes c) (size_bytes e)) (<[k := e]> (contracts c)) seq'.
Proof.
  intros Hsz Ht Hwf Hk Hseq. pose proof (wf_bytes _ _ _ _ Hwf) as Hb. pose proof (wf_offered _ _ _ _ Hwf) as Ho.
  eapply wf_put; [exact Hwf|done| |int_lia|naive_solver].
  rewrite map_sum_insert by done. int_lia.
Qed.

Lemma record_access_wf t now k sz a gen demand counts c :
  0 <= sz -> t + sz <= u64_max -> wf t c ->
  wf (t + sz) (record_access_with_demand now k sz a gen demand counts c).1.
Proof.
  intros Hsz Ht Hwf. pose proof (wf_bytes _ _ _ _ Hwf) as Hb. pose proof (wf_offered _ _ _ _ Hwf) as Ho.
  unfold record_access_with_demand. simpl. destruct (contracts c !! k) as [e|] eqn:He; simpl.
  - assert (Hse : 0 <= size_bytes e <= current_bytes c).
    { split; [apply (wf_sizes _ _ _ _ Hwf k e He)|]. rewrite Hb. eapply map_sum_le; [|done].
      intros k' v Hv. apply (wf_sizes _ _ _ _ Hwf k' v Hv). }
    eapply wf_put; [exact Hwf|done| | |].
    + rewrite (map_sum_replace size_bytes _ k e); [|done]. simpl.
      case_match; to_props; [lia|int_lia].
    + simpl. case_match; to_props; [lia|int_lia].
    + right. split; [done|]. simpl. destruct a; simpl; eauto.
  - destruct (evict_over_budget _ _ _ _ _) as [c' out] eqn:Ev. simpl.
    apply (f_equal fst) in Ev. simpl in Ev. subst c'. apply evict_over_budget_wf.
    match goal with |- wf _ (set_entries (<[k := ?e]> _) _ _) => apply (wf_host t c _ k e) end; try done.
    right. split; [done|]. destruct a; simpl; eauto.
Qed.

Lemma load_wf t now k sz a age local demand c :
  0 <= sz -> t + sz <= u64_max -> wf t c ->
  wf (t + sz) (load_persisted_entry_with_demand now k sz a age local demand c).
Proof.
  intros Hsz Ht Hwf. pose proof (wf_bytes _ _ _ _ Hwf) as Hb. pose proof (wf_offered _ _ _ _ Hwf) as Ho.
  unfold load_persisted_entry_with_demand, contains.
  case_bool_decide as Hin; [eapply wf_state_more; [|exact Hwf]; lia|].
  apply eq_None_not_Some in Hin.
  match goal with |- wf _ (set_entries (<[k := ?e]> _) _ _) => apply (wf_host t c _ k e) end; try done.
  by left.
Qed.

Lemma step_wf_hosting t c e :
  0 <= offered e.2 -> t + offered e.2 <= u64_max -> wf t c -> wf (t + offered e.2) (step c e).
Proof.
  destruct e as [now o]. simpl. intros H0 H1 Hwf.
  unfold step; destruct o; simpl in *; try (by apply record_access_wf); try (by apply load_wf); rewrite Z.add_0_r in *.
  - unfold mark_local_client_access. case_match eqn:He; [|done]. apply (wf_rewrite t c _ _ _ _ Hwf He); [done|by left].
  - unfold touch_with_demand. simpl. case_match eqn:He; simpl; [|by apply (wf_next_seq t c)].
    apply (wf_rewrite t c _ _ _ _ Hwf He); [done|]. by right; split; [|right].
  - unfold record_abandonment. case_match eqn:He; [|done]. case_match; [done|]. simpl.
    apply (wf_rewrite t c _ _ _ _ Hwf He); [done|]. by right; split; [|right].
  - unfold refresh_entry_generation. case_match eqn:He; [|done]. apply (wf_rewrite t c _ _ _ _ Hwf He); [done|by left].
  - done.
  - by apply evict_over_budget_wf.
  - by apply evict_cost_pressure_wf.
  - by apply finalize_loop_wf.
Qed.

Lemma run_wf_hosting t c es :
  Forall (fun e => 0 <= offered e.2) es -> t + sumZ (fun e => offered e.2) es <= u64_max -> wf t c ->
  wf (t + sumZ (fun e => offered e.2) es) (run c es).
Proof.
  revert t c. induction es as [|e es IH]; intros t c Hpos Ht Hwf; simpl in *.
  - by rewrite Z.add_0_r.
  - apply Forall_cons in Hpos as [He Hpos].
    assert (0 <= sumZ (fun e => offered e.2) es).
    { apply sumZ_nonneg. intros x Hx. by apply (proj1 (Forall_forall _ _) Hpos). }
    rewrite Z.add_assoc. apply IH; [done|lia|]. apply step_wf_hosting; [done|lia|done].
Qed.

(** The traces whose sizes are machine integers that sum within 64 bits. *)
Definition fits (es : list (Instant * op)) : bool :=
  forallb (fun e => 0 <=? offered e.2) es && (sumZ (fun e => offered e.2) es <=? u64_max).

Lemma hosting_reachable_wf b es : fits es = true -> wf (sumZ (fun e => offered e.2) es) (run (new b) es).
Proof.
  unfold fits. intros [Hpos Hsum]%andb_true_iff. rewrite forallb_forall in Hpos.
  apply (run_wf_hosting 0); [|lia|apply wf_new].
  apply Forall_forall. intros e He%list_elem_of_In. specialize (Hpos e He). lia.
Qed.

(** ** The order of eviction *)

#[export] Instance victim_order_comparator : Comparator victim_order.
Proof.
  eapply comparator_ext; [|apply (comparator_then
    (fun a b : candidate => Nat.compare a.1.1.2 b.1.1.2) (fun a b : candidate =>
      then_with (Nat.compare a.1.2 b.1.2) (then_with (Z.compare a.2 b.2)
        (bytes_cmp (key_bytes a.1.1.1) (key_bytes b.1.1.1)))))].
  - by intros [[[]]] [[[]]].
  - apply (comparator_on (fun a : candidate => a.1.1.2) Nat.compare), _.
  - apply (comparator_then (fun a b : candidate => Nat.compare a.1.2 b.1.2));
      [apply (comparator_on (fun a : candidate => a.1.2) Nat.compare), _|].
    apply (comparator_then (fun a b : candidate => Z.compare a.2 b.2));
      [apply (comparator_on (fun a : candidate => a.2) Z.compare), _|].
    apply (comparator_on (fun a : candidate => key_bytes a.1.1.1) bytes_cmp), _.
Qed.

Definition cand_key (x : candidate) : K := x.1.1.1.

(** The eligible contracts in the order they would be shed. *)
Definition ranked (counts : K -> nat * nat) (p : MemoryPressure) (prot : option K) (c : HostingCache)
    : list candidate :=
  sort_by victim_order (candidates_of counts p prot (map_to_list (contracts c))).

Definition victims (counts : K -> nat * nat) (p : MemoryPressure) (prot : option K) (c : HostingCache)
    : list K := map cand_key (ranked counts p prot c).

(** The entries left when the contracts [ks] are gone. *)
Definition shed (ks : list K) (m : gmap K HostedContract) : gmap K HostedContract := foldr delete m ks.

Lemma shed_lookup ks m k : shed ks m !! k = if decide (k ∈ ks) then None else m !! k.
Proof.
  unfold shed. induction ks as [|k' ks IH]; simpl; [done|].
  destruct (decide (k = k')) as [-> | Hne].
  - rewrite lookup_delete_eq, decide_True; [done|left].
  - rewrite lookup_delete_ne by done. rewrite IH.
    destruct (decide (k ∈ ks)); [rewrite decide_True; [done|by right]|].
    rewrite decide_False; [done|]. by rewrite not_elem_of_cons.
Qed.

Lemma shed_cons k ks m : shed ks (delete k m) = shed (k :: ks) m.
Proof.
  apply map_eq. intros k'. rewrite !shed_lookup.
  destruct (decide (k' ∈ ks)); [rewrite decide_True; [done|by right]|].
  destruct (decide (k = k')) as [-> | Hne].
  - rewrite lookup_delete_eq, decide_True; [done|left].
  - rewrite lookup_delete_ne by done. rewrite decide_False; [done|]. rewrite not_elem_of_cons. naive_solver.
Qed.

Lemma elem_of_candidates counts p prot order k l d r :
  (k, l, d, r) ∈ candidates_of counts p prot order <->
  exists e, (k, e) ∈ order /\ eligible p prot k = true /\ counts k = (l, d) /\ recency_seq e = r.
Proof.
  unfold candidates_of. rewrite list_elem_of_omap. split.
  - intros ([k' e] & Hin & Hs). destruct (eligible p prot k') eqn:El; [|done].
    destruct (counts k') eqn:Ec. simplify_eq. eauto.
  - intros (e & Hin & El & Ec & Hr). exists (k, e). rewrite El, Ec, Hr. eauto.
Qed.

Lemma candidates_NoDup counts p prot order :
  NoDup order.*1 -> NoDup (map cand_key (candidates_of counts p prot order)).
Proof.
  unfold candidates_of. induction order as [|[k e] order IH]; simpl; [constructor|].
  intros [Hk Hn]%NoDup_cons. destruct (eligible p prot k); [|by apply IH].
  destruct (counts k) as [l d]. simpl. constructor; [|by apply IH].
  intros ([[[k' l'] d'] r'] & Heq & Hin%elem_of_candidates)%list_elem_of_fmap.
  unfold cand_key in Heq. simpl in Heq. subst k'. destruct Hin as (e' & Hin & _).
  apply Hk. apply list_elem_of_fmap. by exists (k, e').
Qed.

Lemma elem_of_ranked counts p prot c k l d r :
  (k, l, d, r) ∈ ranked counts p prot c <->
  exists e, contracts c !! k = Some e /\ eligible p prot k = true /\ counts k = (l, d) /\ recency_seq e = r.
Proof.
  unfold ranked. rewrite sort_by_perm, elem_of_candidates. by setoid_rewrite elem_of_map_to_list.
Qed.

Lemma elem_of_victims counts p prot c k :
  k ∈ victims counts p prot c <-> is_Some (contracts c !! k) /\ eligible p prot k = true.
Proof.
  unfold victims. rewrite list_elem_of_fmap. split.
  - intros ([[[k' l] d] r] & -> & (e & He & El & _)%elem_of_ranked). unfold cand_key. simpl. by rewrite He.
  - intros [[e He] El]. destruct (counts k) as [l d] eqn:Ec. exists (k, l, d, recency_seq e).
    split; [done|]. apply elem_of_ranked. eauto.
Qed.

Lemma victims_NoDup counts p prot c : NoDup (victims counts p prot c).
Proof.
  unfold victims, ranked. rewrite sort_by_perm. apply candidates_NoDup, NoDup_fst_map_to_list.
Qed.

(** ** The eviction loop *)

Lemma hosting_loop_spec t p now cands c acc :
  wf t c -> NoDup (map cand_key cands) -> (forall k, k ∈ map cand_key cands -> is_Some (contracts c !! k)) ->
  exists n out, (n <= length cands)%nat /\
    (evict_loop p now cands c acc).2 = acc ++ out /\
    Forall2 (fun e x => key e = cand_key x /\ was_in_use e = (0 <? x.1.1.2 + x.1.2)%nat) out (take n cands) /\
    contracts (evict_loop p now cands c acc).1 = shed (map cand_key (take n cands)) (contracts c) /\
    budget_bytes (evict_loop p now cands c acc).1 = budget_bytes c /\
    (forall j, (j < n)%nat ->
       budget_bytes c < map_sum size_bytes (shed (map cand_key (take j cands)) (contracts c))) /\
    (current_bytes (evict_loop p now cands c acc).1 <= budget_bytes c \/ n = length cands).
Proof.
  revert c acc. induction cands as [|[[[k l] d] r] cands IH]; intros c acc Hwf Hnd Hin.
  { exists 0%nat, []. simpl. rewrite app_nil_r. split_and!; [lia|done|constructor|done|done|lia|by right]. }
  simpl in Hnd. apply NoDup_cons in Hnd as [Hk Hnd]. simpl.
  case_match eqn:Hle.
  { exists 0%nat, []. simpl. rewrite app_nil_r. split_and!; [lia|done|constructor|done|done|lia|left; to_props; lia]. }
  destruct (Hin k) as [e He]; [by left|]. rewrite He. simpl.
  match goal with |- context [evict_loop p now cands ?c' ?a'] =>
    destruct (IH c' a') as (n & out & Hn & Hout & Hall & Hc & Hb & Hmin & Hend) end.
  - by apply wf_drop.
  - done.
  - intros k' Hk'. simpl. rewrite lookup_delete_ne; [apply Hin; by right|]. intros ->. done.
  - simpl in *. eexists (S n), (_ :: out). split_and!.
    + lia.
    + rewrite Hout, <- app_assoc. done.
    + simpl. constructor; [|exact Hall]. done.
    + rewrite Hc. apply shed_cons.
    + done.
    + intros [|j] Hj.
      * simpl. rewrite <- (wf_bytes _ _ _ _ Hwf). to_props. lia.
      * simpl. specialize (Hmin j ltac:(lia)). by rewrite shed_cons in Hmin.
    + destruct Hend as [Hend | ->]; [by left|by right].
Qed.

Lemma evict_over_budget_spec t now counts p prot c :
  wf t c ->
  exists n, (n <= length (ranked counts p prot c))%nat /\
    Forall2 (fun e x => key e = cand_key x /\ was_in_use e = (0 <? x.1.1.2 + x.1.2)%nat)
      (evict_over_budget now counts p prot c).2 (take n (ranked counts p prot c)) /\
    contracts (evict_over_budget now counts p prot c).1 = shed (take n (victims counts p prot c)) (contracts c) /\
    budget_bytes (evict_over_budget now counts p prot c).1 = budget_bytes c /\
    (forall j, (j < n)%nat ->
       budget_bytes c < map_sum size_bytes (shed (take j (victims counts p prot c)) (contracts c))) /\
    (current_bytes (evict_over_budget now counts p prot c).1 <= budget_bytes c \/
     n = length (ranked counts p prot c)).
Proof.
  intros Hwf. unfold evict_over_budget, evict_over_budget_in. fold (ranked counts p prot c).
  case_match eqn:Hle.
  { exists 0%nat. simpl. split_and!; [lia|constructor|done|done|lia|left; to_props; lia]. }
  destruct (hosting_loop_spec t p now (ranked counts p prot c) c []) as (n & out & Hn & Hout & Hall & Hc & Hb & Hmin & Hend).
  - done.
  - apply victims_NoDup.
  - intros k Hk. by apply (elem_of_victims counts p prot) in Hk as [? _].
  - exists n. simpl in Hout. rewrite Hout. unfold victims.
    split_and!; [done|done| |done| |done].
    + by rewrite firstn_map.
    + intros j Hj. rewrite firstn_map. by apply Hmin.
Qed.

Lemma elem_of_prefix {A} n (l : list A) x : x ∈ take n l -> x ∈ l.
Proof. intros Hx. rewrite <- (take_drop n l). apply elem_of_app. by left. Qed.

(** A sorted list: what is in the prefix does not come after what is in the rest. *)
Lemma sorted_split {A} (R : A -> A -> Prop) n (l : list A) x y :
  StronglySorted R l -> x ∈ take n l -> y ∈ drop n l -> R x y.
Proof.
  intros Hl. revert n. induction Hl as [|a l Hl IH Ha]; intros [|n]; simpl; try (by intros ?%elem_of_nil).
  intros [-> | Hx]%elem_of_cons Hy; [|by eapply IH].
  apply (proj1 (Forall_forall _ _) Ha). rewrite <- (take_drop n l). apply elem_of_app. by right.
Qed.

(** The subscribers of [k] and its last read or write come before those of [k']
    in lexicographic order. *)
Definition less_wanted (counts : K -> nat * nat) (c : HostingCache) (k k' : K) : Prop :=
  let '(l, d) := counts k in
  let '(l', d') := counts k' in
  (l < l')%nat \/ (l = l' /\ ((d < d')%nat \/ (d = d' /\
    match contracts c !! k, contracts c !! k' with
    | Some e, Some e' => recency_seq e <= recency_seq e'
    | _, _ => False
    end))).

Lemma victim_order_wanted counts c k e k' e' l d l' d' :
  contracts c !! k = Some e -> contracts c !! k' = Some e' -> counts k = (l, d) -> counts k' = (l', d') ->
  le_by victim_order (k, l, d, recency_seq e) (k', l', d', recency_seq e') -> less_wanted counts c k k'.
Proof.
  intros He He' Hc Hc'. unfold le_by, victim_order, less_wanted. rewrite Hc, Hc', He, He'.
  destruct (Nat.compare_spec l l'), (Nat.compare_spec d d'),
    (Z.compare_spec (recency_seq e) (recency_seq e')); simpl; intros Hle; try done; lia.
Qed.

Lemma evicted_key_iff t now counts p prot c k :
  wf t c ->
  k ∈ map key (evict_over_budget now counts p prot c).2 <->
  is_Some (contracts c !! k) /\ contracts (evict_over_budget now counts p prot c).1 !! k = None.
Proof.
  intros Hwf. destruct (evict_over_budget_spec t now counts p prot c Hwf) as (n & _ & Hall & Hc & _).
  assert (Hk : map key (evict_over_budget now counts p prot c).2 = take n (victims counts p prot c)).
  { unfold victims. rewrite firstn_map. clear -Hall. induction Hall as [|e x ? ? [Hx _] _ IH]; simpl; congruence. }
  rewrite Hk, Hc, shed_lookup. case_decide as Hin.
  - split; [|done]. intros _. split; [|done].
    apply (elem_of_victims counts p prot). by eapply elem_of_prefix.
  - split; [done|]. intros [[e He] Hn]. congruence.
Qed.

Lemma evicted_before_survivors t now counts p prot c k k' :
  wf t c -> k ∈ map key (evict_over_budget now counts p prot c).2 ->
  eligible p prot k' = true -> is_Some (contracts (evict_over_budget now counts p prot c).1 !! k') ->
  less_wanted counts c k k'.
Proof.
  intros Hwf Hk El Hk'. destruct (evict_over_budget_spec t now counts p prot c Hwf) as (n & _ & Hall & Hc & _).
  rewrite Hc, shed_lookup in Hk'. case_decide as Hnin; [by destruct Hk'|].
  destruct Hk' as [e' He']. destruct (counts k') as [l' d'] eqn:Hc'.
  assert (Hin' : (k', l', d', recency_seq e') ∈ drop n (ranked counts p prot c)).
  { assert (Hr : (k', l', d', recency_seq e') ∈ ranked counts p prot c) by (apply elem_of_ranked; eauto).
    rewrite <- (take_drop n (ranked counts p prot c)) in Hr. apply elem_of_app in Hr as [Hr | Hr]; [|done].
    destruct Hnin. unfold victims. rewrite firstn_map. apply list_elem_of_fmap. by exists (k', l', d', recency_seq e'). }
  apply list_elem_of_fmap in Hk as (ev & -> & Hev).
  apply list_elem_of_lookup in Hev as [i Hi].
  destruct (Forall2_lookup_l _ _ _ _ _ Hall Hi) as ([[[k l] d] r] & Hx & Hkey & _).
  unfold cand_key in Hkey. simpl in Hkey. rewrite Hkey. apply list_elem_of_lookup_2 in Hx.
  pose proof (elem_of_prefix _ _ _ Hx) as Hr. apply elem_of_ranked in Hr as (e & He & _ & Hcnt & <-).
  eapply victim_order_wanted; [done..|].
  eapply sorted_split; [apply sort_by_sorted, _|exact Hx|exact Hin'].
Qed.

(** ** Cost pressure *)

Definition attributed_rate (axis : CostAxisPressure) (k : K) : f64 :=
  default f64_zero (rates axis !! key_id k).

(** Nobody subscribes to [k] and nobody read or wrote it lately. *)
Definition unwanted (now : Instant) (counts : K -> nat * nat) (k : K) (e : HostedContract) : Prop :=
  counts k = (0, 0)%nat /\
  within now COST_RATE_MIN_WINDOW (last_genuine_access e) = false /\
  within now SUBSCRIPTION_LEASE_DURATION (local_client_last_access e) = false.

(** The node is above the floor of the axis, and [k] has more than a quarter of
    its load. *)
Definition dominates (axis : CostAxisPressure) (k : K) : Prop :=
  f64_is_nan (total_rate axis) = false /\ f64_le (total_rate axis) (floor axis) = false /\
  f64_le (attributed_rate axis k) (f64_mul COST_SHARE_THRESHOLD (total_rate axis)) = false /\
  f64_lt f64_zero (attributed_rate axis k) = true.

Lemma offender_iff now counts axis k e :
  axis_under_pressure axis = true /\ is_Some (offender_rate now counts axis k e) <->
  dominates axis k /\ unwanted now counts k e.
Proof.
  unfold axis_under_pressure, offender_rate, dominates, unwanted, recently_accessed, attributed_rate,
    cost_eviction_candidate.
  destruct (f64_is_nan _), (f64_le (total_rate axis) _), (f64_le (default _ _) _), (f64_lt _ _),
    (counts k) as [[|l] [|d]], (within now COST_RATE_MIN_WINDOW _), (within now SUBSCRIPTION_LEASE_DURATION _);
    simpl; (split; [intros [? Hs]|intros Hs]); try done; try (by destruct Hs); naive_solver eauto.
Qed.

Lemma cost_evict_loop_spec offs c acc :
  NoDup offs.*1 -> (forall k, k ∈ offs.*1 -> is_Some (contracts c !! k)) ->
  exists out, (cost_evict_loop offs c acc).2 = acc ++ out /\ map key out = offs.*1 /\
    Forall (fun e => was_in_use e = false) out /\
    contracts (cost_evict_loop offs c acc).1 = shed offs.*1 (contracts c).
Proof.
  revert c acc. induction offs as [|[k r] offs IH]; intros c acc Hnd Hin; simpl in *.
  { exists []. by rewrite app_nil_r. }
  apply NoDup_cons in Hnd as [Hk Hnd]. destruct (Hin k) as [e He]; [by left|]. rewrite He. simpl.
  match goal with |- context [cost_evict_loop offs ?c' ?a'] => destruct (IH c' a' Hnd) as (out & Ho & Hm & Hf & Hc) end.
  - intros k' Hk'. simpl. rewrite lookup_delete_ne; [apply Hin; by right|]. by intros ->.
  - eexists (_ :: out). rewrite Ho, <- app_assoc. split_and!; [done|by simpl; rewrite Hm|by constructor|].
    rewrite Hc. apply shed_cons.
Qed.

Lemma elem_of_offenders now counts axis order k r :
  (k, r) ∈ offenders_of now counts axis order <->
  exists e, (k, e) ∈ order /\ offender_rate now counts axis k e = Some r.
Proof.
  unfold offenders_of. rewrite list_elem_of_omap. split.
  - intros ([k' e] & Hin & Hs). apply fmap_Some in Hs as (r' & Hr & [= -> ->]). eauto.
  - intros (e & Hin & Hr). exists (k, e). by rewrite Hr.
Qed.

Lemma offenders_keys now counts axis order : (offenders_of now counts axis order).*1 `sublist_of` order.*1.
Proof.
  unfold offenders_of. induction order as [|[k e] order IH]; simpl; [done|].
  destruct (offender_rate now counts axis k e); simpl; [by apply sublist_skip|by apply sublist_cons].
Qed.

(** One axis removes exactly the contracts that dominate it and are unwanted. *)
Lemma axis_spec now counts axis c acc :
  axis_under_pressure axis = true ->
  let offs := sort_by offender_order (offenders_of now counts axis (map_to_list (contracts c))) in
  exists out, (cost_evict_loop offs c acc).2 = acc ++ out /\ Forall (fun e => was_in_use e = false) out /\
    (forall k, k ∈ map key out <-> exists e, contracts c !! k = Some e /\ dominates axis k /\ unwanted now counts k e) /\
    (forall k, contracts (cost_evict_loop offs c acc).1 !! k = if decide (k ∈ map key out) then None else contracts c !! k).
Proof.
  intros Hp offs.
  assert (Hperm : offs.*1 ≡ₚ (offenders_of now counts axis (map_to_list (contracts c))).*1).
  { unfold offs. apply fmap_Permutation, sort_by_perm. }
  assert (Hmem : forall k, k ∈ offs.*1 <-> exists e, contracts c !! k = Some e /\ dominates axis k /\ unwanted now counts k e).
  { intros k. rewrite Hperm, list_elem_of_fmap. setoid_rewrite <- offender_iff. split.
    - intros ([k' r] & -> & (e & He%elem_of_map_to_list & Hr)%elem_of_offenders). simpl. eauto 6.
    - intros (e & He & _ & [r Hr]). exists (k, r). split; [done|]. apply elem_of_offenders.
      exists e. by rewrite elem_of_map_to_list. }
  destruct (cost_evict_loop_spec offs c acc) as (out & Ho & Hm & Hf & Hc).
  - rewrite Hperm. eapply sublist_NoDup; [apply (NoDup_fst_map_to_list (contracts c))|apply offenders_keys].
  - intros k (e & He & _)%Hmem. by rewrite He.
  - exists out. rewrite Hm. split_and!; [done..|]. intros k. by rewrite Hc, shed_lookup.
Qed.

Lemma evict_cost_pressure_loop_spec now counts axes c acc :
  exists out, (evict_cost_pressure_loop now counts axes c acc).2 = acc ++ out /\
    Forall (fun e => was_in_use e = false) out /\
    (forall k, k ∈ map key out <->
       exists e axis, contracts c !! k = Some e /\ axis ∈ axes /\ dominates axis k /\ unwanted now counts k e) /\
    (forall k, contracts (evict_cost_pressure_loop now counts axes c acc).1 !! k =
       if decide (k ∈ map key out) then None else contracts c !! k).
Proof.
  revert c acc. induction axes as [|ax axes IH]; intros c acc; simpl.
  { exists []. rewrite app_nil_r. split_and!; [done|done| |done].
    intros k. split; [by intros ?%elem_of_nil|]. intros (e & ax & _ & ?%elem_of_nil & _). done. }
  destruct (axis_under_pressure ax) eqn:Hp.
  - destruct (axis_spec now counts ax c acc Hp) as (o1 & E1 & F1 & M1 & C1).
    destruct (cost_evict_loop _ c acc) as [c1 acc1]. simpl in *. subst acc1.
    destruct (IH c1 (acc ++ o1)) as (o2 & E2 & F2 & M2 & C2).
    exists (o1 ++ o2). rewrite E2, app_assoc, map_app. split_and!; [done|by apply Forall_app| |].
    + intros k. rewrite elem_of_app, M1, M2, C1. setoid_rewrite elem_of_cons.
      destruct (decide (k ∈ map key o1)) as [Hin | Hin]; rewrite M1 in Hin; naive_solver.
    + intros k. rewrite C2, C1. repeat case_decide; try done; set_solver.
  - destruct (IH c acc) as (o2 & E2 & F2 & M2 & C2). exists o2. split_and!; [done..| |done].
    intros k. rewrite M2. setoid_rewrite elem_of_cons.
    assert (forall e, ~ (dominates ax k /\ unwanted now counts k e)).
    { intros e Hd%offender_iff. destruct Hd. congruence. }
    naive_solver.
Qed.

(** ** Properties *)

(** C7: after any sequence of calls from an empty cache, the byte count is the sum
    of the hosted states' sizes (it never drifts, although the code only adjusts it
    with saturating arithmetic), no entry's recency is ahead of the access counter,
    and until that counter is exhausted two contracts never share a recency other
    than 0, so that the eviction order is decided before the key. *)
Theorem cache_accounting_exact (b : Z) (es : list (Instant * op)) :
  fits es = true ->
  current_bytes (run (new b) es) = map_sum size_bytes (contracts (run (new b) es)) /\
  (forall k e, contracts (run (new b) es) !! k = Some e ->
     0 <= recency_seq e <= access_seq (run (new b) es)) /\
  (access_seq (run (new b) es) < u64_max ->
   forall k1 k2 e1 e2, contracts (run (new b) es) !! k1 = Some e1 -> contracts (run (new b) es) !! k2 = Some e2 ->
   recency_seq e1 = recency_seq e2 -> recency_seq e1 <> 0 -> k1 = k2).
Proof. intros Hwf%(hosting_reachable_wf b). split_and!; apply Hwf. Qed.

(** C3: an over-budget pass sheds the shortest prefix of the eligible contracts in
    victim order that brings the cache within its budget: what it returns is a
    prefix of that order, the cache loses exactly those entries, one contract fewer
    would have left it over budget, and it stops over budget only when no eligible
    contract is left. *)
Theorem eviction_sheds_shortest_prefix (b : Z) es now counts p prot :
  fits es = true ->
  let c := run (new b) es in
  let '(c', out) := evict_over_budget now counts p prot c in
  exists n,
    map key out = take n (victims counts p prot c) /\
    contracts c' = shed (take n (victims counts p prot c)) (contracts c) /\
    (forall j, (j < n)%nat ->
       budget_bytes c < map_sum size_bytes (shed (take j (victims counts p prot c)) (contracts c))) /\
    (map_sum size_bytes (contracts c') <= budget_bytes c \/ n = length (victims counts p prot c)).
Proof.
  intros Hwf%(hosting_reachable_wf b) c.
  destruct (evict_over_budget_spec _ now counts p prot c Hwf) as (n & _ & Hall & Hc & _ & Hmin & Hend).
  pose proof (evict_over_budget_wf _ now counts p prot c Hwf) as Hwf'.
  destruct (evict_over_budget now counts p prot c) as [c' out]. simpl in *. exists n. split_and!; [|done..|].
  - unfold victims. rewrite firstn_map. clear -Hall. induction Hall as [|e x ? ? [Hx _] _ IH]; simpl; congruence.
  - rewrite <- (wf_bytes _ _ _ _ Hwf'). unfold victims. by rewrite length_map.
Qed.

(** A contract is shed only when every eligible contract that stays is at least
    as wanted: it has more local subscriptions, or as many and more downstream
    subscribers, or as many of both and its last read or write is not older.  In
    particular a contract with subscribers is shed only after every eligible
    contract without. *)
Theorem eviction_respects_demand (b : Z) es now counts p prot k k' :
  fits es = true ->
  let c := run (new b) es in
  k ∈ map key (evict_over_budget now counts p prot c).2 ->
  eligible p prot k' = true ->
  is_Some (contracts (evict_over_budget now counts p prot c).1 !! k') ->
  less_wanted counts c k k' /\ (counts k' = (0, 0)%nat -> counts k = (0, 0)%nat).
Proof.
  intros Hwf%(hosting_reachable_wf b) c Hk El Hk'.
  pose proof (evicted_before_survivors _ now counts p prot c k k' Hwf Hk El Hk') as Hless.
  split; [done|]. intros H0. unfold less_wanted in Hless. rewrite H0 in Hless.
  destruct (counts k) as [l d]. f_equal; lia.
Qed.

(** Hosting a contract that was not hosted always succeeds: the newcomer is
    never the victim of the pass it triggers, whatever its size, and the cache ends
    within its budget unless the newcomer alone exceeds it and nothing else is
    left. *)
Lemma newcomer_always_hosted (b : Z) es now k sz a gen demand counts :
  fits (es ++ [(now, RecordAccess k sz a gen demand counts)]) = true ->
  contracts (run (new b) es) !! k = None ->
  let c := run (new b) es in
  let '(c', r) := record_access_with_demand now k sz a gen demand counts c in
  is_new r = true /\ (exists e, contracts c' !! k = Some e /\ size_bytes e = sz) /\
  (current_bytes c' <= budget_bytes c' \/ dom (contracts c') = {[k]}).
Proof.
  intros Hfit Hk c.
  pose proof (hosting_reachable_wf b _ Hfit) as Hwf'. unfold run in Hwf'. rewrite foldl_app in Hwf'. simpl in Hwf'.
  fold (run (new b) es) in Hwf'. fold c in Hwf'.
  unfold fits in Hfit. apply andb_true_iff in Hfit as [Hpos Hsum].
  rewrite forallb_app in Hpos. apply andb_true_iff in Hpos as [Hpos Hsz]. rewrite sumZ_app in *. simpl in *.
  assert (Hwf : wf (sumZ (fun e => offered e.2) es) c) by (apply hosting_reachable_wf; unfold fits; rewrite Hpos; simpl; to_props; lia).
  unfold record_access_with_demand. simpl. fold c in Hk. rewrite Hk.
  match goal with |- context [evict_over_budget now counts AtCapacity (Some k) ?c0] => set (c1 := c0) end.
  assert (Hwf1 : wf (sumZ (fun e => offered e.2) es + sz) c1).
  { match goal with c1 := set_entries (<[k := ?e]> _) _ _ |- _ => apply (wf_host _ c _ k e) end;
      simpl; [to_props; lia..|done|done|]. right. split; [done|]. destruct a; simpl; eauto. }
  destruct (evict_over_budget_spec _ now counts AtCapacity (Some k) c1 Hwf1) as (n & Hn & _ & Hc & Hb & _ & Hend).
  destruct (evict_over_budget now counts AtCapacity (Some k) c1) as [c2 out]. simpl in *.
  assert (Hmem : forall k', k' ∈ victims counts AtCapacity (Some k) c1 <-> is_Some (contracts c1 !! k') /\ k' <> k).
  { intros k'. rewrite elem_of_victims. unfold eligible. rewrite negb_true_iff, bool_decide_eq_false. naive_solver. }
  split_and!; [done| |].
  - rewrite Hc, shed_lookup, decide_False; [|intros Hin%elem_of_prefix; by apply Hmem in Hin as []].
    unfold c1. simpl. rewrite lookup_insert_eq. by eexists.
  - rewrite Hb. destruct Hend as [Hend | ->]; [by left|right].
    rewrite Hc. rewrite firstn_all2 by (unfold victims; by rewrite length_map).
    apply set_eq. intros k'. rewrite elem_of_dom, shed_lookup, elem_of_singleton.
    case_decide as Hv; rewrite Hmem in Hv; [naive_solver by eauto using is_Some_None|].
    split; [intros Hs; destruct (decide (k' = k)); naive_solver|].
    intros ->. unfold c1. simpl. by rewrite lookup_insert_eq.
Qed.

(** Touching a hosted contract makes it the last to go among its equals: in an
    over-budget pass right after the touch it is shed only together with every
    eligible contract that has the same subscribers. *)
Lemma touched_contract_outlives_equals (b : Z) es now k demand now' counts p prot k' :
  fits es = true ->
  let c := run (new b) (es ++ [(now, Touch k demand)]) in
  access_seq c < u64_max ->
  k ∈ map key (evict_over_budget now' counts p prot c).2 ->
  k' <> k -> counts k' = counts k -> eligible p prot k' = true ->
  contracts (evict_over_budget now' counts p prot c).1 !! k' = None.
Proof.
  intros Hfit c Hseq Hk Hne Hcnt El.
  assert (Hfit' : fits (es ++ [(now, Touch k demand)]) = true).
  { unfold fits in *. rewrite forallb_app, sumZ_app. simpl. by rewrite andb_true_r, Z.add_0_r. }
  pose proof (hosting_reachable_wf b _ Hfit') as Hwf. fold c in Hwf.
  pose proof (hosting_reachable_wf b _ Hfit) as Hwf0.
  destruct (contracts _ !! k') as [e2|] eqn:He'; [exfalso|done].
  pose proof (evicted_before_survivors _ now' counts p prot c k k' Hwf Hk El (mk_is_Some _ _ He')) as Hless.
  apply (evicted_key_iff _ now' counts p prot c k Hwf) in Hk as [[e He] _].
  assert (Hcur : exists e1, contracts c !! k' = Some e1).
  { destruct (evict_over_budget_spec _ now' counts p prot c Hwf) as (n & _ & _ & Hc & _).
    rewrite Hc, shed_lookup in He'. case_decide; [done|by eexists]. }
  destruct Hcur as [e1 He1]. unfold less_wanted in Hless. rewrite Hcnt, He, He1 in Hless.
  destruct (counts k) as [l d]. assert (Hle : recency_seq e <= recency_seq e1) by lia. clear Hless.
  unfold c, run in He, He1, Hseq. rewrite foldl_app in He, He1, Hseq. simpl in He, He1, Hseq.
  fold (run (new b) es) in He, He1, Hseq. unfold step, touch_with_demand in He, He1, Hseq. simpl in He, He1, Hseq.
  destruct (contracts (run (new b) es) !! k) as [e0|] eqn:H0; simpl in He, He1, Hseq; [|congruence].
  rewrite lookup_insert_eq in He. rewrite lookup_insert_ne in He1 by done. injection He as <-.
  apply (wf_recency _ _ _ _ Hwf0) in He1. simpl in *. int_lia.
Qed.

(** An over-budget pass does not depend on the iteration order of the hash map:
    whatever order its entries come in, the same contracts are shed in the same
    order and the cache ends in the same state. *)
Lemma eviction_order_deterministic (order : list (K * HostedContract)) now counts p prot c :
  (forall k1 k2, key_bytes k1 = key_bytes k2 -> k1 = k2) ->
  order ≡ₚ map_to_list (contracts c) ->
  evict_over_budget_in order now counts p prot c = evict_over_budget now counts p prot c.
Proof.
  intros Hinj Hperm. unfold evict_over_budget, evict_over_budget_in.
  assert (Hc : candidates_of counts p prot order ≡ₚ candidates_of counts p prot (map_to_list (contracts c))).
  { unfold candidates_of. by rewrite Hperm. }
  rewrite (sort_by_unique victim_order _ _) with (2 := Hc); [done|].
  intros [[[k1 l1] d1] r1] [[[k2 l2] d2] r2] _ _. unfold victim_order.
  destruct (Nat.compare_spec l1 l2), (Nat.compare_spec d1 d2), (Z.compare_spec r1 r2); simpl; try done.
  intros ->%bytes_cmp_eq%Hinj. congruence.
Qed.

(** The cost sweep sheds exactly the contracts that, on some axis where the node
    is above the absolute floor, account for more than a quarter of the attributed
    load, and that nobody subscribes to, nobody read or wrote in the last five
    minutes and no local client used within the lease; every other contract stays,
    and none of the shed ones is reported as in use. *)
Lemma cost_eviction_exact now counts axes c :
  let '(c', out) := evict_cost_pressure now counts axes c in
  (forall k, k ∈ map key out <->
     exists e axis, contracts c !! k = Some e /\ axis ∈ axes /\ dominates axis k /\ unwanted now counts k e) /\
  (forall k, contracts c' !! k = if decide (k ∈ map key out) then None else contracts c !! k) /\
  Forall (fun e => was_in_use e = false) out.
Proof.
  unfold evict_cost_pressure.
  destruct (evict_cost_pressure_loop_spec now counts axes c []) as (out & Ho & Hf & Hm & Hc).
  destruct (evict_cost_pressure_loop now counts axes c []) as [c' out']. simpl in *. by subst out'.
Qed.

End cache.

(** ** A concrete cache *)

(** Keys are numbers; the bytes of [n] are [n] zeros. *)
Definition demo_bytes (n : nat) : list Byte.byte := repeat Byte.x00 n.

Lemma demo_bytes_inj n1 n2 : demo_bytes n1 = demo_bytes n2 -> n1 = n2.
Proof. intros H%(f_equal length). unfold demo_bytes in H. by rewrite !repeat_length in H. Qed.

Definition no_subscribers (_ : nat) : nat * nat := (0, 0)%nat.
Definition one_subscribed (k : nat) : nat * nat := (0, if decide (k = 1) then 3 else 0)%nat.

(** Three contracts of 40 bytes in a cache of 100: the third one sheds the first. *)
Definition demo_trace : list (Instant * op (K:=nat) (I:=nat)) :=
  [(10, RecordAccess 1%nat 40 Get 0 f64_one one_subscribed);
   (20, RecordAccess 2%nat 40 Get 0 f64_one one_subscribed);
   (30, SetBudget 200);
   (40, RecordAccess 3%nat 40 Put 0 f64_one one_subscribed)].

Definition demo : HostingCache (K:=nat) := run demo_bytes id 0 (new 100) demo_trace.

Lemma cache_accounting_exact_witness :
  fits demo_trace = true /\ current_bytes demo = map_sum size_bytes (contracts demo).
Proof.
  split; [by vm_compute|].
  refine (proj1 (cache_accounting_exact demo_bytes id 0 100 demo_trace _)). by vm_compute.
Defined.

Lemma eviction_sheds_shortest_prefix_witness :
  exists n, map key (evict_over_budget demo_bytes 50 one_subscribed AtCapacity None
                       (run demo_bytes id 0 (new 100) (demo_trace ++ [(45, SetBudget 100)]))).2
    = take n (victims demo_bytes one_subscribed AtCapacity None
                (run demo_bytes id 0 (new 100) (demo_trace ++ [(45, SetBudget 100)]))).
Proof.
  assert (Hf : fits (demo_trace ++ [(45, SetBudget 100)]) = true) by (by vm_compute).
  pose proof (eviction_sheds_shortest_prefix demo_bytes id 0 100 (demo_trace ++ [(45, SetBudget 100)]) 50
    one_subscribed AtCapacity None Hf) as H.
  revert H. cbv zeta. destruct (evict_over_budget _ _ _ _ _ _) as [c' out]. intros (n & H & _). by exists n.
Defined.

Lemma eviction_respects_demand_witness :
  less_wanted one_subscribed (run demo_bytes id 0 (new 100) (demo_trace ++ [(45, SetBudget 100)])) 2%nat 1%nat.
Proof.
  refine (proj1 (eviction_respects_demand demo_bytes id 0 100 (demo_trace ++ [(45, SetBudget 100)]) 50
    one_subscribed AtCapacity None 2%nat 1%nat _ _ _ _)).
  - by vm_compute.
  - apply list_elem_of_In. vm_compute. by left.
  - by vm_compute.
  - apply (bool_decide_unpack _). by vm_compute.
Defined.

Lemma newcomer_always_hosted_witness :
  let '(c', r) := record_access_with_demand demo_bytes 60 4%nat 500 Get 0 f64_one no_subscribers demo in
  is_new r = true /\ dom (contracts c') = {[4%nat]}.
Proof.
  pose proof (newcomer_always_hosted demo_bytes id 0 100 demo_trace 60 4%nat 500 Get 0 f64_one no_subscribers
    ltac:(by vm_compute) ltac:(by vm_compute)) as H. unfold demo.
  assert (Hover : (current_bytes (record_access_with_demand demo_bytes 60 4%nat 500 Get 0 f64_one no_subscribers
      (run demo_bytes id 0 (new 100) demo_trace)).1
    <=? budget_bytes (record_access_with_demand demo_bytes 60 4%nat 500 Get 0 f64_one no_subscribers
      (run demo_bytes id 0 (new 100) demo_trace)).1) = false)
    by (by vm_compute).
  revert H Hover. cbv zeta. destruct (record_access_with_demand _ _ _ _ _ _ _ _ _) as [c' r].
  intros (H1 & _ & [H2 | H2]) Hover; [simpl in Hover; lia|done].
Defined.

Lemma touched_contract_outlives_equals_witness :
  contracts (evict_over_budget demo_bytes 60 no_subscribers AtCapacity None
    (run demo_bytes id 0 (new 100) ((demo_trace ++ [(45, SetBudget 0)]) ++ [(50, Touch 1%nat f64_one)]))).1 !! 2%nat = None.
Proof.
  apply (touched_contract_outlives_equals demo_bytes id 0 100 (demo_trace ++ [(45, SetBudget 0)]) 50 1%nat f64_one
    60 no_subscribers AtCapacity None 2%nat); [by vm_compute|by vm_compute| |done|done|done].
  apply list_elem_of_In. vm_compute. tauto.
Defined.

Lemma eviction_order_deterministic_witness :
  evict_over_budget_in demo_bytes (rev (map_to_list (contracts demo))) 50 no_subscribers Overflow None demo
  = evict_over_budget demo_bytes 50 no_subscribers Overflow None demo.
Proof.
  apply (eviction_order_deterministic demo_bytes).
  - exact demo_bytes_inj.
  - symmetry. apply Permutation_rev.
Defined.

(** A contract with the larger [keep_score] is shed before one with a smaller:
    the over-budget walk does not look at the score. *)
Example keep_score_does_not_order_evictions :
  let es := [(10, RecordAccess 1%nat 40 Get 0 (f64_of_Z 9) no_subscribers);
             (20, RecordAccess 2%nat 40 Get 0 f64_one no_subscribers)] in
  let c := run demo_bytes id 0 (new 50) (take 1 es) in
  keep_score <$> contracts c !! 1%nat = Some (f64_of_Z 9) /\
  let c' := run demo_bytes id 0 (new 50) es in
  contracts c' !! 1%nat = None /\ keep_score <$> contracts c' !! 2%nat = Some f64_one.
Proof. vm_compute. done. Qed.

End HostingCache.
