(* ===== verification/BoundedMap.v ===== *)
(** * A concurrent map with a strict capacity

    The contract-hardening modules of [src/crates/core/src/ring/] keep their
    state in a [DashMap] whose size is capped by a separate atomic counter:
    a new key first reserves a slot with [fetch_add], inserts if the counter was
    below the cap and otherwise rolls the reservation back; a removal decrements
    the counter after the entry is gone.  [ContractBanList], [UpdateRateLimiter],
    [TokenBucketLimiter], [OutstandingResyncRequests] and both maps of
    [MergeBackoff] are instances.

    The first part gives the operations as one call each; the second runs them
    step by step, interleaved by an arbitrary schedule, and shows that the cap
    holds at every moment and that the counter is exact whenever nothing runs. *)

From S2P Require Import Prelude.

Module BoundedMap.

Section bounded_map.
Context {K V : Type} `{eqK : EqDecision K, cntK : !Countable K}.

(** The shared map and its counter (an [AtomicUsize]). *)
Record t := mk { entries : gmap K V; count : Z }.

Definition empty : t := mk ∅ 0.

Definition set_entry (k : K) (v : V) (m : t) : t := mk (<[k := v]> (entries m)) (count m).

(** The [Entry::Vacant] arm: reserve, then insert or roll back. *)
Definition reserve_insert (max : Z) (k : K) (v : V) (m : t) : t * bool :=
  let prev := count m in
  let m := mk (entries m) (prev +w64 1)%rust in
  if max <=? prev then (mk (entries m) (count m -w64 1)%rust, false)
  else (mk (<[k := v]> (entries m)) (count m), true).

Definition remove (k : K) (m : t) : t * option V :=
  match entries m !! k with
  | Some v => (mk (delete k (entries m)) (count m -w64 1)%rust, Some v)
  | None => (m, None)
  end.

(** [retain], whose closure may change the values it keeps, then the decrement by
    the number of entries dropped. *)
Definition retain (f : K -> V -> option V) (m : t) : t :=
  let kept := map_imap f (entries m) in
  let removed := Z.of_nat (size (entries m)) - Z.of_nat (size kept) in
  mk kept (if 0 <? removed then (count m -w64 removed)%rust else count m).

(** ** Each call alone *)

(** The counter is the number of entries, which the cap bounds. *)
Definition wf (max : Z) (m : t) : Prop :=
  count m = Z.of_nat (size (entries m)) /\ count m <= max <= usize_max.

Lemma wf_empty max : 0 <= max <= usize_max -> wf max empty.
Proof. unfold wf, empty. simpl. rewrite map_size_empty. lia. Qed.

Lemma set_entry_wf max k v m : is_Some (entries m !! k) -> wf max m -> wf max (set_entry k v m).
Proof. intros [v' Hk] [Hc Hm]. split; simpl; [|done]. by rewrite map_size_insert_Some by (by exists v'). Qed.

Lemma reserve_insert_spec max k v m :
  wf max m -> entries m !! k = None ->
  wf max (reserve_insert max k v m).1 /\
  reserve_insert max k v m =
    if max <=? Z.of_nat (size (entries m)) then (m, false)
    else (mk (<[k := v]> (entries m)) (count m + 1), true).
Proof.
  intros [Hc Hm] Hk. unfold reserve_insert, wf, usize_max in *. rewrite <- Hc.
  destruct (max <=? count m) eqn:E; simpl; to_props.
  - assert (Hw : wrap64 (wrap64 (count m + 1) - 1) = count m).
    { unfold wrap64. rewrite Zminus_mod_idemp_l. rewrite Z.mod_small; lia. }
    rewrite Hw. split; [lia|]. by destruct m.
  - rewrite map_size_insert_None by done. rewrite wrap64_id by (unfold_ints; lia). split; [lia|done].
Qed.

Lemma reserve_insert_other max k k' v m :
  k <> k' -> entries (reserve_insert max k v m).1 !! k' = entries m !! k'.
Proof. intros Hne. unfold reserve_insert. case_match; simpl; [done|]. by rewrite lookup_insert_ne. Qed.

Lemma remove_other k k' m : k <> k' -> entries (remove k m).1 !! k' = entries m !! k'.
Proof. intros Hne. unfold remove. case_match; simpl; [by rewrite lookup_delete_ne|done]. Qed.

Lemma size_pos (m : gmap K V) k v : m !! k = Some v -> size m <> 0%nat.
Proof. intros Hk ->%map_size_empty_inv. by rewrite lookup_empty in Hk. Qed.

Lemma remove_spec max k m :
  wf max m -> wf max (remove k m).1 /\ entries (remove k m).1 = delete k (entries m) /\
  (remove k m).2 = entries m !! k.
Proof.
  intros [Hc Hm]. unfold remove. destruct (entries m !! k) as [v|] eqn:Hk; simpl.
  - split_and!; [|done|done]. unfold wf. simpl.
    pose proof (map_size_delete_Some k (entries m) (mk_is_Some _ _ Hk)) as Hs.
    pose proof (size_pos _ _ _ Hk).
    rewrite Hs. unfold usize_max in *. rewrite wrap64_id by (unfold_ints; lia). lia.
  - rewrite delete_id by done. by unfold wf.
Qed.

Lemma imap_size (f : K -> V -> option V) (m : gmap K V) : (size (map_imap f m) <= size m)%nat.
Proof.
  rewrite <- !(size_dom (D := gset K)). apply subseteq_size. intros k. rewrite !elem_of_dom, map_lookup_imap.
  destruct (m !! k); simpl; [by eexists|by intros []].
Qed.

Lemma retain_spec max f m :
  wf max m -> wf max (retain f m) /\ entries (retain f m) = map_imap f (entries m).
Proof.
  intros [Hc Hm]. split; [|done]. unfold wf, retain. simpl.
  pose proof (imap_size f (entries m)) as Hle. unfold usize_max in *.
  case_match; to_props; [rewrite wrap64_id by (unfold_ints; lia)|]; lia.
Qed.

(** ** Interleaved *)

Inductive task :=
| TInsert (k : K) (v : V)
| TRemove (k : K)
| TRetain (f : K -> V -> option V) (ks : list K).

(** Where a task stands.  [Locked] holds the entry guard of a vacant key;
    [Reserved] has done its [fetch_add]; [RolledBack] its [fetch_sub]; [Uncount n]
    has removed [n] entries it has not yet subtracted. *)
Inductive pc :=
| Start
| Locked
| Reserved (prev : Z)
| RolledBack
| Sweep (rest : list K) (removed : Z)
| Uncount (n : Z)
| Done.

Record world := mkWorld { shared : t; guards : gset K; threads : list (task * pc) }.

(** One atomic action of a task.  A task that needs a key guarded by another does
    not move. *)
Definition task_step (max : Z) (tk : task) (p : pc) (m : t) (g : gset K) : pc * t * gset K :=
  match tk, p with
  | TInsert k v, Start =>
      if decide (k ∈ g) then (p, m, g)
      else match entries m !! k with
           | Some _ => (Done, set_entry k v m, g)
           | None => (Locked, m, {[k]} ∪ g)
           end
  | TInsert k v, Locked => (Reserved (count m), mk (entries m) (count m +w64 1)%rust, g)
  | TInsert k v, Reserved prev =>
      if max <=? prev then (RolledBack, mk (entries m) (count m -w64 1)%rust, g)
      else (Done, set_entry k v m, g ∖ {[k]})
  | TInsert k v, RolledBack => (Done, m, g ∖ {[k]})
  | TRemove k, Start =>
      if decide (k ∈ g) then (p, m, g)
      else match entries m !! k with
           | Some _ => (Uncount 1, mk (delete k (entries m)) (count m), g)
           | None => (Done, m, g)
           end
  | TRetain f ks, Start => (Sweep ks 0, m, g)
  | TRetain f _, Sweep (k :: ks) r =>
      if decide (k ∈ g) then (p, m, g)
      else match entries m !! k with
           | Some v =>
               match f k v with
               | Some v' => (Sweep ks r, set_entry k v' m, g)
               | None => (Sweep ks (r + 1), mk (delete k (entries m)) (count m), g)
               end
           | None => (Sweep ks r, m, g)
           end
  | TRetain _ _, Sweep [] r => (if 0 <? r then Uncount r else Done, m, g)
  | _, Uncount n => (Done, mk (entries m) (count m -w64 n)%rust, g)
  | _, _ => (p, m, g)
  end.

Definition step (max : Z) (w : world) (i : nat) : world :=
  match threads w !! i with
  | Some (tk, p) =>
      let '(p', m', g') := task_step max tk p (shared w) (guards w) in
      mkWorld m' g' (<[i := (tk, p')]> (threads w))
  | None => w
  end.

Definition run (max : Z) (w : world) (schedule : list nat) : world := foldl (step max) w schedule.

Definition spawn (m : t) (ts : list task) : world := mkWorld m ∅ (map (fun tk => (tk, Start)) ts).

Definition finished (w : world) : bool :=
  forallb (fun x => match x.2 with Done => true | _ => false end) (threads w).

(** What a thread has added to the counter beyond the entries. *)
Definition debt (x : task * pc) : Z :=
  match x.2 with
  | Reserved _ => 1
  | Sweep _ r => r
  | Uncount n => n
  | _ => 0
  end.

(** The slots it may still fill: reservations below the cap. *)
Definition claims (max : Z) (x : task * pc) : Z :=
  match x.2 with Reserved prev => if max <=? prev then 0 else 1 | _ => 0 end.

(** The most a thread can ever owe. *)
Definition work (tk : task) : Z :=
  match tk with TInsert _ _ | TRemove _ => 1 | TRetain _ ks => Z.of_nat (length ks) end.

Definition thread_ok (x : task * pc) : Prop :=
  match x with
  | (TInsert _ _, p) => match p with Sweep _ _ | Uncount _ => False | _ => True end
  | (TRemove _, p) => match p with Start | Done => True | Uncount n => n = 1 | _ => False end
  | (TRetain _ ks, p) =>
      match p with
      | Start | Done => True
      | Sweep rest r => 0 <= r /\ r + Z.of_nat (length rest) <= Z.of_nat (length ks)
      | Uncount n => 0 <= n <= Z.of_nat (length ks)
      | _ => False
      end
  end.

(** The key a thread guards. *)
Definition guarding (x : task * pc) : option K :=
  match x with
  | (TInsert k _, Locked) | (TInsert k _, Reserved _) | (TInsert k _, RolledBack) => Some k
  | _ => None
  end.

Record inv (max : Z) (w : world) : Prop := {
  inv_count : count (shared w) = Z.of_nat (size (entries (shared w))) + sumZ debt (threads w);
  inv_cap : Z.of_nat (size (entries (shared w))) + sumZ (claims max) (threads w) <= max;
  inv_threads : Forall thread_ok (threads w);
  inv_work : max + sumZ (fun x => work x.1) (threads w) < 2 ^ 64;
  inv_guards : forall i x k, threads w !! i = Some x -> guarding x = Some k ->
    k ∈ guards w /\ entries (shared w) !! k = None /\
    forall j y, threads w !! j = Some y -> guarding y = Some k -> i = j;
}.

Section capacity.
Context (max : Z).

Lemma debt_bounds x : thread_ok x -> 0 <= claims max x <= debt x /\ debt x <= work x.1.
Proof.
  destruct x as [[k v|k|f ks] []]; unfold claims, debt; simpl; intros Hok; try lia; try done; case_match; lia.
Qed.

Lemma debts_bounds w :
  Forall thread_ok (threads w) ->
  0 <= sumZ (claims max) (threads w) <= sumZ debt (threads w) /\
  sumZ debt (threads w) <= sumZ (fun x => work x.1) (threads w).
Proof.
  induction 1 as [|x l Hx _ IH]; simpl; [lia|]. pose proof (debt_bounds x Hx). lia.
Qed.

(** The other threads, when one of them moves. *)
Lemma debts_others w i x :
  Forall thread_ok (threads w) -> threads w !! i = Some x ->
  debt x <= sumZ debt (threads w) /\
  sumZ debt (threads w) - debt x <= sumZ (fun x => work x.1) (threads w) - work x.1.
Proof.
  intros Hall. revert i. induction Hall as [|y l Hy Hall IH]; intros [|i] Hi; simpl in *; try done.
  - simplify_eq. pose proof (debts_bounds (mkWorld empty ∅ l) Hall). simpl in *. lia.
  - pose proof (debt_bounds y Hy). specialize (IH i Hi). lia.
Qed.

Definition held (p : pc) : bool := match p with Locked | Reserved _ | RolledBack => true | _ => false end.

(** The counter follows the entries and what the moving thread owes. *)
Lemma task_step_count tk p m g p' m' g' :
  thread_ok (tk, p) -> task_step max tk p m g = (p', m', g') ->
  debt (tk, p) <= count m -> count m + work tk - debt (tk, p) < 2 ^ 64 ->
  (forall k, guarding (tk, p) = Some k -> entries m !! k = None) ->
  thread_ok (tk, p') /\
  count m' - Z.of_nat (size (entries m')) - debt (tk, p')
  = count m - Z.of_nat (size (entries m)) - debt (tk, p).
Proof.
  intros Hok Hs Hd Hw Hg.
  unfold debt in *. destruct tk as [k v|k|f ks], p; simpl in *; try done; unfold set_entry in *;
    repeat case_match; simplify_eq; simpl in *;
    rewrite ?map_size_insert_Some by eauto;
    rewrite ?(map_size_insert_None k _ (entries m)) by (by apply Hg);
    rewrite ?map_size_delete_Some by eauto;
    rewrite ?wrap64_id by (unfold_ints; lia);
    repeat match goal with
      | H : entries ?m !! ?k = Some ?v |- _ =>
          apply size_pos in H
      end; to_props; try lia; split; (done || lia).
Qed.

Lemma task_step_cap tk p m g p' m' g' n :
  thread_ok (tk, p) -> task_step max tk p m g = (p', m', g') ->
  (forall k, guarding (tk, p) = Some k -> entries m !! k = None) ->
  Z.of_nat (size (entries m)) + n + claims max (tk, p) <= max ->
  Z.of_nat (size (entries m)) + n + claims max (tk, p) <= count m ->
  Z.of_nat (size (entries m')) + n + claims max (tk, p') <= max.
Proof.
  intros Hok Hs Hg Hcap Hcount. unfold claims in *.
  destruct tk as [k v|k|f ks], p; simpl in *; try done; unfold set_entry in *;
    repeat case_match; simplify_eq; simpl in *;
    rewrite ?map_size_insert_Some by eauto;
    rewrite ?(map_size_insert_None k _ (entries m)) by (by apply Hg);
    rewrite ?map_size_delete_Some by eauto; to_props; lia.
Qed.

(** What a step does to the guards and to the entries under other guards. *)
Lemma task_step_guards tk p m g p' m' g' :
  task_step max tk p m g = (p', m', g') ->
  (forall k, guarding (tk, p) = Some k -> k ∈ g /\ entries m !! k = None) ->
  (forall k, k ∈ g -> guarding (tk, p) <> Some k -> k ∈ g' /\ entries m' !! k = entries m !! k) /\
  (forall k, guarding (tk, p') = Some k ->
     k ∈ g' /\ entries m' !! k = None /\ (guarding (tk, p) = Some k \/ k ∉ g)).
Proof.
  intros Hs Hg.
  destruct tk as [k0 v|k0|f ks], p; simpl in *; unfold set_entry in *;
    repeat case_match; simplify_eq; simpl in *;
    (split; [intros kk Hk Hne; (split; [set_solver|]);
             rewrite ?lookup_insert_ne, ?lookup_delete_ne by (congruence || set_solver); done
            |intros kk Hk; simplify_eq; split_and!; (set_solver || naive_solver)]).
Qed.

Lemma step_keeps_inv w i : inv max w -> inv max (step max w i).
Proof.
  intros [Hc Hcap Hth Hwork Hg]. unfold step.
  destruct (threads w !! i) as [[tk p]|] eqn:Hi; [|done].
  destruct (task_step max tk p (shared w) (guards w)) as [[p' m'] g'] eqn:Hs.
  assert (Hok : thread_ok (tk, p)) by (eapply Forall_lookup_1; eauto).
  assert (Hgi : forall k, guarding (tk, p) = Some k -> k ∈ guards w /\ entries (shared w) !! k = None).
  { intros k Hk. destruct (Hg i _ k Hi Hk) as (? & ? & _). done. }
  destruct (debts_bounds w Hth) as [[Hcl Hcd] Hdw]. destruct (debts_others w i _ Hth Hi) as [Hd1 Hd2]. simpl in Hd2.
  destruct (task_step_count tk p (shared w) (guards w) p' m' g' Hok Hs) as [Hok' Hcnt];
    [lia|lia|intros k Hk; apply (Hgi k Hk)|].
  destruct (task_step_guards _ _ _ _ _ _ _ Hs Hgi) as [Hold Hnew].
  split; simpl.
  - rewrite (sumZ_insert _ _ _ _ _ Hi). lia.
  - rewrite (sumZ_insert _ _ _ _ _ Hi).
    pose proof (task_step_cap tk p (shared w) (guards w) p' m' g' (sumZ (claims max) (threads w) - claims max (tk, p))
      Hok Hs ltac:(intros k Hk; apply (Hgi k Hk)) ltac:(lia) ltac:(lia)). lia.
  - by apply Forall_insert.
  - rewrite (sumZ_insert _ _ _ _ _ Hi). simpl. lia.
  - assert (Hother : forall j y k, j <> i -> threads w !! j = Some y -> guarding y = Some k ->
      k ∈ guards w /\ k ∈ g' /\ entries m' !! k = None /\ guarding (tk, p) <> Some k).
    { intros j y k Hj Hy Hk. destruct (Hg j y k Hy Hk) as (Hin & He & Hu).
      assert (Hne : guarding (tk, p) <> Some k) by (intros Hik; apply Hj, (Hu i _ Hi Hik)).
      destruct (Hold k Hin Hne) as [? ->]. done. }
    intros j y k Hy Hk. destruct (decide (j = i)) as [-> | Hj].
    + rewrite list_lookup_insert_eq in Hy by (by eapply lookup_lt_Some). injection Hy as <-.
      destruct (Hnew k Hk) as (? & ? & Hor). split_and!; [done..|].
      intros j' y' Hy' Hk'. destruct (decide (j' = i)) as [-> | Hj']; [done|].
      rewrite list_lookup_insert_ne in Hy' by done. destruct (Hother j' y' k Hj' Hy' Hk') as (? & _ & _ & ?). naive_solver.
    + rewrite list_lookup_insert_ne in Hy by done. destruct (Hother j y k Hj Hy Hk) as (? & ? & ? & ?).
      split_and!; [done..|]. intros j' y' Hy' Hk'. destruct (decide (j' = i)) as [-> | Hj'].
      * rewrite list_lookup_insert_eq in Hy' by (by eapply lookup_lt_Some). injection Hy' as <-.
        destruct (Hnew k Hk') as (_ & _ & [? | ?]); done.
      * rewrite list_lookup_insert_ne in Hy' by done. destruct (Hg j y k Hy Hk) as (_ & _ & Hu). by eapply Hu.
Qed.

Lemma run_keeps_inv w schedule : inv max w -> inv max (run max w schedule).
Proof.
  unfold run. revert w. induction schedule as [|i l IH]; intros w Hw; simpl; [done|].
  by apply IH, step_keeps_inv.
Qed.

Lemma spawn_inv_bounded m ts :
  wf max m -> max + sumZ work ts < 2 ^ 64 -> inv max (spawn m ts).
Proof.
  intros [Hc Hm] Hw.
  assert (Hz : forall f : task * pc -> Z, (forall tk, f (tk, Start) = 0) ->
    sumZ f (map (fun tk => (tk, Start)) ts) = 0).
  { intros f Hf. clear -Hf. induction ts as [|tk ts IH]; simpl; [done|]. by rewrite Hf, IH. }
  split; simpl.
  - rewrite Hz; [lia|done].
  - rewrite Hz; [lia|done].
  - apply Forall_map, Forall_true. by intros [].
  - assert (sumZ (fun x : task * pc => work x.1) (map (fun tk => (tk, Start)) ts) = sumZ work ts) as ->; [|done].
    clear. induction ts as [|tk ts IH]; simpl; [done|]. by rewrite IH.
  - intros i x k Hx Hk. rewrite list_lookup_fmap in Hx.
    destruct (ts !! i) as [tk|]; simplify_eq/=. by destruct tk.
Qed.

(** C31: however insertions, removals and sweeps of a capped map interleave, at
    every moment it holds at most as many entries as the cap allows (the counter is
    reserved before the insertion, so that concurrent insertions of new keys cannot
    overshoot), and once every call has returned the counter is exactly the number
    of entries. *)
Theorem cap_never_exceeded m ts schedule :
  wf max m -> max + sumZ work ts < 2 ^ 64 ->
  let w := run max (spawn m ts) schedule in
  Z.of_nat (size (entries (shared w))) <= max /\
  (finished w = true -> wf max (shared w)).
Proof.
  intros Hm Hw. pose proof (run_keeps_inv _ schedule (spawn_inv_bounded m ts Hm Hw)) as Hi.
  destruct Hi as [Hc Hcap Hth _ _]. destruct (debts_bounds _ Hth) as [[Hcl _] _].
  simpl. split; [lia|]. intros Hf. unfold finished in Hf. rewrite forallb_forall in Hf.
  assert (Hd : sumZ debt (threads (run max (spawn m ts) schedule)) = 0).
  { revert Hf. clear. generalize (threads (run max (spawn m ts) schedule)). intros l.
    induction l as [|x l IH]; simpl; [done|]. intros Hf. rewrite IH by (intros y Hy; apply Hf; by right). specialize (Hf x (or_introl eq_refl)).
    unfold debt. by destruct (x.2). }
  destruct Hm. unfold wf. lia.
Qed.

End capacity.

End bounded_map.

(** Three insertions race for the two slots of an empty map; a removal and a sweep
    run alongside. *)
Lemma cap_never_exceeded_witness :
  let w := run 2 (spawn (mk (K:=nat) (V:=nat) ∅ 0)
    [TInsert 1 10; TInsert 2 20; TInsert 3 30; TRemove 1; TRetain (fun _ v => Some v) [1; 2]]%nat)
    [0; 1; 2; 0; 1; 2; 0; 3; 4; 1; 2; 4; 4; 4; 3; 2; 0; 3]%nat in
  finished w = true /\ wf 2 (shared w).
Proof.
  assert (Hf : finished (run 2 (spawn (mk (K:=nat) (V:=nat) ∅ 0)
    [TInsert 1 10; TInsert 2 20; TInsert 3 30; TRemove 1; TRetain (fun _ v => Some v) [1; 2]]%nat)
    [0; 1; 2; 0; 1; 2; 0; 3; 4; 1; 2; 4; 4; 4; 3; 2; 0; 3]%nat) = true) by (by vm_compute).
  split; [exact Hf|]. refine (proj2 (cap_never_exceeded 2 _ _ _ _ _) Hf).
  - split; [done|]. unfold usize_max. simpl. lia.
  - vm_compute. done.
Defined.

End BoundedMap.
