(* ===== verification/UpdateRateLimit.v ===== *)
(** * The per-sender update rate limiter

    Models [src/crates/core/src/ring/update_rate_limit.rs]: at most one accepted
    update per [(sender, contract)] pair and interval, with a bound on the number
    of pairs remembered.  Senders and contracts are the socket addresses and
    instance ids of other crates: any countable types.  Each call is one step; the
    concurrent behaviour of the underlying map is the subject of [BoundedMap]. *)

From S2P Require Import Prelude BoundedMap.

Module UpdateRateLimit.
Module BM := BoundedMap.

Abbreviation Instant := Z (only parsing).
Abbreviation Duration := Z (only parsing).

Definition MIN_UPDATE_INTERVAL : Duration := from_millis 100.
Definition CLEANUP_AGE : Duration := from_secs (5 * 60).
Definition MAX_TRACKED_PAIRS : Z := 16384.

Inductive RateLimitDecision :=
| Allowed
| Rejected (elapsed min_interval : Duration)
| CapacityExceeded.

Definition is_allowed (d : RateLimitDecision) : bool :=
  match d with Allowed => true | _ => false end.

Section limiter.
Context {S C : Type} `{eqS : EqDecision S, cntS : !Countable S, eqC : EqDecision C, cntC : !Countable C}.
(** The earliest [Instant] the platform can represent. *)
Variable instant_min : Instant.

Record UpdateRateLimiter := mkLimiter {
  last_accepted : BM.t (K := S * C) (V := Instant);
  min_interval : Duration;
  max_tracked_pairs : Z;
  accepted_total : Z;
  rejected_total : Z;
  capacity_rejected_total : Z;
}.

Definition with_config (interval : Duration) (max : Z) : UpdateRateLimiter :=
  mkLimiter BM.empty interval max 0 0 0.

Definition new : UpdateRateLimiter := with_config MIN_UPDATE_INTERVAL MAX_TRACKED_PAIRS.

Definition set_map (m : BM.t) (l : UpdateRateLimiter) : UpdateRateLimiter :=
  mkLimiter m (min_interval l) (max_tracked_pairs l) (accepted_total l) (rejected_total l)
    (capacity_rejected_total l).

(** The counters are [AtomicU64]s. *)
Definition count_decision (d : RateLimitDecision) (l : UpdateRateLimiter) : UpdateRateLimiter :=
  mkLimiter (last_accepted l) (min_interval l) (max_tracked_pairs l)
    (match d with Allowed => accepted_total l +w64 1 | _ => accepted_total l end)%rust
    (match d with Rejected _ _ => rejected_total l +w64 1 | _ => rejected_total l end)%rust
    (match d with CapacityExceeded => capacity_rejected_total l +w64 1
                | _ => capacity_rejected_total l end)%rust.

Definition check_and_record (now : Instant) (sender : S) (contract : C) (l : UpdateRateLimiter)
    : UpdateRateLimiter * RateLimitDecision :=
  let k := (sender, contract) in
  match BM.entries (last_accepted l) !! k with
  | Some last =>
      let elapsed := Z.max 0 (now - last) in
      if elapsed <? min_interval l then
        let d := Rejected elapsed (min_interval l) in (count_decision d l, d)
      else (count_decision Allowed (set_map (BM.set_entry k now (last_accepted l)) l), Allowed)
  | None =>
      let '(m, inserted) := BM.reserve_insert (max_tracked_pairs l) k now (last_accepted l) in
      if inserted then (count_decision Allowed (set_map m l), Allowed)
      else (count_decision CapacityExceeded (set_map m l), CapacityExceeded)
  end.

Definition cleanup (now : Instant) (l : UpdateRateLimiter) : UpdateRateLimiter :=
  if instant_min <=? now - CLEANUP_AGE then
    let cutoff := now - CLEANUP_AGE in
    set_map (BM.retain (fun _ last => if cutoff <=? last then Some last else None) (last_accepted l)) l
  else l.

(** ** Sequences of calls *)

Inductive op := Check (sender : S) (contract : C) | Cleanup.

(** The limiter and the accepted updates so far, newest first. *)
Definition state : Type := UpdateRateLimiter * list (Instant * (S * C)).

Definition step (st : state) (e : Instant * op) : state :=
  let '(l, log) := st in
  match e.2 with
  | Check s c =>
      let '(l, d) := check_and_record e.1 s c l in
      (l, if is_allowed d then (e.1, (s, c)) :: log else log)
  | Cleanup => (cleanup e.1 l, log)
  end.

Definition run (st : state) (es : list (Instant * op)) : state := foldl step st es.

(** Accepted updates of one pair are [d] apart. *)
Definition spaced (d : Duration) (log : list (Instant * (S * C))) : Prop :=
  forall i j t1 t2 k, (i < j)%nat -> log !! i = Some (t1, k) -> log !! j = Some (t2, k) -> t2 + d <= t1.

Record inv (interval max now : Z) (st : state) : Prop := {
  inv_config : min_interval st.1 = interval /\ max_tracked_pairs st.1 = max;
  inv_bm : BM.wf max (last_accepted st.1);
  inv_past : forall t k, (t, k) ∈ st.2 -> t <= now;
  inv_recent : forall k t, BM.entries (last_accepted st.1) !! k = Some t ->
    (t, k) ∈ st.2 /\ forall t', (t', k) ∈ st.2 -> t' <= t;
  inv_forgotten : forall k t, (t, k) ∈ st.2 -> BM.entries (last_accepted st.1) !! k = None ->
    t + interval <= now;
  inv_spaced : spaced interval st.2;
}.

Lemma inv_later interval max now now' st : now <= now' -> inv interval max now st -> inv interval max now' st.
Proof.
  intros Hle [? ? Hp ? Hf ?]. split; try done.
  - intros t k Hin. specialize (Hp t k Hin). lia.
  - intros k t Hin Hn. specialize (Hf k t Hin Hn). lia.
Qed.

Lemma spaced_cons d t k log :
  spaced d log -> (forall t', (t', k) ∈ log -> t' + d <= t) -> spaced d ((t, k) :: log).
Proof.
  intros Hs Hk [|i] [|j] t1 t2 k' Hij Hi Hj; simpl in *; try lia.
  - injection Hi as <- <-. apply Hk. by eapply list_elem_of_lookup_2.
  - eapply (Hs i j); [lia|done|done].
Qed.

(** Accepting an update: what is left of the invariant is the spacing. *)
Lemma accept_inv interval max now l log k m :
  0 <= interval -> inv interval max now (l, log) -> BM.wf max m ->
  BM.entries m = <[k := now]> (BM.entries (last_accepted l)) ->
  (forall t, (t, k) ∈ log -> t + interval <= now) ->
  inv interval max now (count_decision Allowed (set_map m l), (now, k) :: log).
Proof.
  intros H0 [Hc Hbm Hp Hr Hf Hs] Hm He Hk. split; simpl in *; [done|done| | | |].
  - intros t k' [[= -> ->] | Hin]%elem_of_cons; [lia|by eapply Hp].
  - rewrite He. intros k' t Ht. apply lookup_insert_Some in Ht as [[<- <-] | [Hne Ht]].
    + split; [by left|]. intros t' [[= ->] | Hin]%elem_of_cons; [lia|by eapply Hp].
    + destruct (Hr k' t Ht) as [Hin Hmax]. split; [by right|].
      intros t' [[= -> ->] | Hin']%elem_of_cons; [done|by apply Hmax].
  - rewrite He. intros k' t [[= -> ->] | Hin]%elem_of_cons Hn; [by rewrite lookup_insert_eq in Hn|].
    apply lookup_insert_None in Hn as [Hn _]. by eapply Hf.
  - by apply spaced_cons.
Qed.

Lemma step_inv_limiter interval max now st e :
  0 <= interval <= CLEANUP_AGE -> now <= e.1 -> inv interval max now st -> inv interval max e.1 (step st e).
Proof.
  intros H0 Hle Hinv%(inv_later _ _ _ e.1); [|done]. destruct st as [l log], e as [t [s c|]]; simpl in *.
  - destruct Hinv as [[Hi Hm] Hbm Hp Hr Hf Hs] eqn:E. clear E. simpl in *. unfold check_and_record.
    destruct (BM.entries (last_accepted l) !! (s, c)) as [last|] eqn:Hk.
    + rewrite Hi. destruct (Z.max 0 (t - last) <? interval) eqn:Hlt; simpl; to_props; [by split|].
      apply accept_inv; [lia|by split|apply BM.set_entry_wf; [by rewrite Hk|done]|done|].
      intros t' Hin. destruct (Hr _ _ Hk) as [Hlast Hmax]. apply Hp in Hlast. specialize (Hmax t' Hin). lia.
    + rewrite Hm. destruct (BM.reserve_insert_spec max (s, c) t (last_accepted l) Hbm Hk) as [Hwf Heq].
      rewrite Heq in *. destruct (max <=? _) eqn:Hfull; simpl in *; [by split|].
      apply accept_inv; [lia|by split|done|done|]. intros t' Hin. by eapply Hf.
  - unfold cleanup. case_match; [|done]. destruct Hinv as [Hc Hbm Hp Hr Hf Hs]. simpl in *.
    destruct (BM.retain_spec max (fun _ last => if t - CLEANUP_AGE <=? last then Some last else None)
      (last_accepted l) Hbm) as [Hwf He].
    split; simpl; [done|done|done| | |done].
    + intros k t'. rewrite map_lookup_imap. intros (v & Hv & Hs')%bind_Some. case_match; simplify_eq. by apply Hr.
    + intros k t' Hin. rewrite map_lookup_imap. destruct (BM.entries (last_accepted l) !! k) as [v|] eqn:Hv; simpl.
      * case_match; [done|]. intros _. destruct (Hr k v Hv) as [_ Hmax]. specialize (Hmax t' Hin). to_props. lia.
      * intros _. by eapply Hf.
Qed.

Lemma start_inv_limiter interval max now : 0 <= max <= usize_max -> inv interval max now (with_config interval max, []).
Proof.
  intros Hm. split; simpl; [done|by apply BM.wf_empty|by intros ? ? ?%elem_of_nil| |by intros ? ? ?%elem_of_nil|].
  - intros k t. by rewrite lookup_empty.
  - by intros i j t1 t2 k _ ?.
Qed.

Lemma run_inv_limiter interval max now es :
  0 <= interval <= CLEANUP_AGE -> 0 <= max <= usize_max -> clock_monotone now es = true ->
  inv interval max (clock_end now es) (run (with_config interval max, []) es).
Proof.
  intros Hi Hm Hmono. apply (timed_run_inv step (inv interval max)); [|done|by apply start_inv_limiter].
  intros ? ? ?. by apply step_inv_limiter.
Qed.

(** With a clock that does not go back, whatever calls and clean-ups happen, two
    updates of the same sender for the same contract are accepted at least the
    configured interval apart (forgetting idle pairs never lets one through early,
    as long as the interval is below the clean-up age), and the limiter never
    remembers more pairs than its cap. *)
Lemma updates_spaced interval max now es :
  0 <= interval <= CLEANUP_AGE -> 0 <= max <= usize_max -> clock_monotone now es = true ->
  let '(l, log) := run (with_config interval max, []) es in
  spaced interval log /\ Z.of_nat (size (BM.entries (last_accepted l))) <= max.
Proof.
  intros Hi Hm Hmono. pose proof (run_inv_limiter interval max now es Hi Hm Hmono) as Hinv.
  destruct (run _ es) as [l log]. destruct Hinv as [_ [Hc Hcap] _ _ _ Hs]. simpl in *. split; [done|lia].
Qed.

(** The limiter refuses an update for being too early only when an update of the
    same pair was in fact accepted less than the interval before, and for lack of
    room only when it already tracks as many pairs as its cap. *)
Lemma refusals_justified interval max now es t s c :
  0 <= interval <= CLEANUP_AGE -> 0 <= max <= usize_max ->
  clock_monotone now (es ++ [(t, Check s c)]) = true ->
  let '(l, log) := run (with_config interval max, []) es in
  match (check_and_record t s c l).2 with
  | Allowed => True
  | Rejected elapsed _ => exists t', (t', (s, c)) ∈ log /\ elapsed = t - t' /\ t - t' < interval
  | CapacityExceeded => Z.of_nat (size (BM.entries (last_accepted l))) = max
  end.
Proof.
  intros Hi Hm Hmono. rewrite clock_monotone_app in Hmono. apply andb_true_iff in Hmono as [Hpre Ht].
  simpl in Ht. to_props. pose proof (run_inv_limiter interval max now es Hi Hm Hpre) as Hinv.
  destruct (run _ es) as [l log]. destruct Hinv as [[Hci Hcm] Hbm Hp Hr _ _]. simpl in *.
  unfold check_and_record. destruct (BM.entries (last_accepted l) !! (s, c)) as [last|] eqn:Hk.
  - rewrite Hci. destruct (Z.max 0 (t - last) <? interval) eqn:Hlt; simpl; [|done].
    destruct (Hr _ _ Hk) as [Hin _]. specialize (Hp _ _ Hin). to_props. exists last. split; [done|]. lia.
  - rewrite Hcm. destruct (BM.reserve_insert_spec max (s, c) t (last_accepted l) Hbm Hk) as [_ Heq].
    rewrite Heq. destruct (max <=? _) eqn:Hfull; simpl; [|done]. destruct Hbm. to_props. lia.
Qed.

End limiter.

(** Two senders, one contract, a clean-up in between. *)
Definition demo_calls : list (Z * op (S:=nat) (C:=nat)) :=
  [(0, Check 1%nat 7%nat); (50000000, Check 1%nat 7%nat); (60000000, Check 2%nat 7%nat);
   (100000000, Check 1%nat 7%nat); (from_secs 400, Cleanup); (from_secs 401, Check 1%nat 7%nat)].

Lemma updates_spaced_witness :
  spaced MIN_UPDATE_INTERVAL (run 0 (with_config MIN_UPDATE_INTERVAL MAX_TRACKED_PAIRS, []) demo_calls).2 /\
  map fst (run 0 (with_config MIN_UPDATE_INTERVAL MAX_TRACKED_PAIRS, []) demo_calls).2
  = [from_secs 401; 100000000; 60000000; 0].
Proof.
  split; [|by vm_compute].
  pose proof (updates_spaced 0 MIN_UPDATE_INTERVAL MAX_TRACKED_PAIRS 0 demo_calls) as H.
  destruct (run _ _ demo_calls) as [l log]. apply H; [by vm_compute|by vm_compute|by vm_compute].
Defined.

Lemma refusals_justified_witness :
  exists t', (t', (1, 7))%nat ∈ (run 0 (with_config MIN_UPDATE_INTERVAL MAX_TRACKED_PAIRS, []) demo_calls).2 /\
    from_secs 401 + 5 - t' < MIN_UPDATE_INTERVAL.
Proof.
  pose proof (refusals_justified 0 MIN_UPDATE_INTERVAL MAX_TRACKED_PAIRS 0 demo_calls (from_secs 401 + 5) 1%nat 7%nat
    ltac:(by vm_compute) ltac:(by vm_compute) ltac:(by vm_compute)) as H.
  assert (Hd : is_allowed (check_and_record (from_secs 401 + 5) 1%nat 7%nat
    (run 0 (with_config MIN_UPDATE_INTERVAL MAX_TRACKED_PAIRS, []) demo_calls).1).2 = false /\
    Z.of_nat (size (BM.entries (last_accepted (run 0 (with_config MIN_UPDATE_INTERVAL MAX_TRACKED_PAIRS, []) demo_calls).1)))
    <> MAX_TRACKED_PAIRS) by (split; by vm_compute).
  destruct (run 0 _ demo_calls) as [l log]. simpl in *. destruct Hd as [Hd Hne].
  destruct (check_and_record _ _ _ l).2; [done| |done]. destruct H as (t' & ? & ? & ?). by exists t'.
Defined.

End UpdateRateLimit.
