(* ===== verification/ContractBanList.v ===== *)
(** * The contract ban list

    Models [src/crates/core/src/ring/contract_ban_list.rs]: contracts refused until
    an expiry, in a map of bounded size where a ban decided by the node itself
    displaces a ban set by an operator.  Contract instance ids belong to another
    crate: any countable type.  [order] is the iteration order of the map. *)

From S2P Require Import Prelude BoundedMap.

Module ContractBanList.
Module BM := BoundedMap.

Abbreviation Instant := Z (only parsing).

Definition MAX_BANNED_CONTRACTS : Z := 8192.

Inductive BanReason := AutoMad | Operator.

#[export] Instance BanReason_eq_dec : EqDecision BanReason.
Proof. solve_decision. Defined.

Record BanEntry := mkBan { expires_at : Instant; reason : BanReason }.

Inductive BanOutcome := Banned | Updated | CapacityExceeded.

Section ban_list.
Context {K : Type} `{eqK : EqDecision K, cntK : !Countable K}.
Variable order : gmap K BanEntry -> list (K * BanEntry).

Record ContractBanList := mkList {
  entries : BM.t (K := K) (V := BanEntry);
  max_banned : Z;
  capacity_rejected_total : Z;
}.

Definition with_max (max : Z) : ContractBanList := mkList BM.empty max 0.
Definition new : ContractBanList := with_max MAX_BANNED_CONTRACTS.

Definition set_map (m : BM.t) (l : ContractBanList) : ContractBanList :=
  mkList m (max_banned l) (capacity_rejected_total l).

Definition is_banned (now : Instant) (contract : K) (l : ContractBanList) : bool :=
  match BM.entries (entries l) !! contract with
  | None => false
  | Some e => now <? expires_at e
  end.

(** The [Entry::Occupied] arm: the later expiry and the stronger reason. *)
Definition merge_ban (expires : Instant) (r : BanReason) (cur : BanEntry) : BanEntry :=
  mkBan (if expires_at cur <? expires then expires else expires_at cur)
        (match r with AutoMad => AutoMad | Operator => reason cur end).

Definition first_operator (es : list (K * BanEntry)) : option K :=
  fst <$> List.find (fun e => bool_decide (reason e.2 = Operator)) es.

Definition evict_one_operator (l : ContractBanList) : ContractBanList * bool :=
  match first_operator (order (BM.entries (entries l))) with
  | Some k => (set_map (BM.remove k (entries l)).1 l, true)
  | None => (l, false)
  end.

(** The retry loop; [None] when the fuel is used up. *)
Fixpoint ban_loop (fuel : nat) (contract : K) (expires : Instant) (r : BanReason) (l : ContractBanList)
    : option (ContractBanList * BanOutcome) :=
  match fuel with
  | O => None
  | S fuel =>
      match BM.entries (entries l) !! contract with
      | Some cur => Some (set_map (BM.set_entry contract (merge_ban expires r cur) (entries l)) l, Updated)
      | None =>
          let '(m, inserted) := BM.reserve_insert (max_banned l) contract (mkBan expires r) (entries l) in
          let l := set_map m l in
          if inserted then Some (l, Banned)
          else
            let '(l, evicted) :=
              match r with AutoMad => evict_one_operator l | Operator => (l, false) end in
            if evicted then ban_loop fuel contract expires r l
            else Some (mkList (entries l) (max_banned l) (capacity_rejected_total l +w64 1)%rust,
                       CapacityExceeded)
      end
  end.

(** Every turn but the last evicts an entry. *)
Definition ban (contract : K) (expires : Instant) (r : BanReason) (l : ContractBanList)
    : option (ContractBanList * BanOutcome) :=
  ban_loop (S (S (size (BM.entries (entries l))))) contract expires r l.

Definition unban (contract : K) (l : ContractBanList) : ContractBanList :=
  set_map (BM.remove contract (entries l)).1 l.

Definition cleanup (now : Instant) (l : ContractBanList) : ContractBanList :=
  set_map (BM.retain (fun _ e => if now <? expires_at e then Some e else None) (entries l)) l.

(** ** Sequences of calls *)

Inductive op :=
| Ban (contract : K) (expires : Instant) (r : BanReason)
| Unban (contract : K)
| Cleanup.

(** [None]: a ban that did not return. *)
Definition step (l : option ContractBanList) (e : Instant * op) : option ContractBanList :=
  l ← l;
  match e.2 with
  | Ban k expires r => fst <$> ban k expires r l
  | Unban k => Some (unban k l)
  | Cleanup => Some (cleanup e.1 l)
  end.

Definition run (l : ContractBanList) (es : list (Instant * op)) : option ContractBanList := foldl step (Some l) es.

(** ** The loop *)

Section laws.
Hypothesis order_perm : forall m, order m ≡ₚ map_to_list m.

Definition wf (max : Z) (l : ContractBanList) : Prop := max_banned l = max /\ BM.wf max (entries l).

Lemma first_operator_Some m k :
  first_operator (order m) = Some k -> exists e, m !! k = Some e /\ reason e = Operator.
Proof.
  unfold first_operator. intros ([k' e] & [Hin Hop]%List.find_some & ->)%fmap_Some.
  apply list_elem_of_In in Hin. rewrite order_perm in Hin. apply elem_of_map_to_list in Hin.
  exists e. split; [done|]. by apply bool_decide_eq_true in Hop.
Qed.

Lemma first_operator_None m :
  first_operator (order m) = None -> forall k e, m !! k = Some e -> reason e = AutoMad.
Proof.
  unfold first_operator. rewrite fmap_None. intros Hn k e He.
  assert (Hin : (k, e) ∈ order m) by (rewrite order_perm; by apply elem_of_map_to_list).
  apply list_elem_of_In in Hin. specialize (List.find_none _ _ Hn _ Hin) as Hb. simpl in Hb.
  apply bool_decide_eq_false in Hb. by destruct (reason e).
Qed.

(** How a call of [ban] ends, from a list within its cap. *)
Inductive ban_spec (k : K) (expires : Instant) (r : BanReason) (m m' : gmap K BanEntry) (max : Z) : BanOutcome -> Prop :=
| spec_updated cur :
    m !! k = Some cur -> m' = <[k := merge_ban expires r cur]> m ->
    ban_spec k expires r m m' max Updated
| spec_banned :
    m !! k = None -> Z.of_nat (size m) < max -> m' = <[k := mkBan expires r]> m ->
    ban_spec k expires r m m' max Banned
| spec_displaced victim e :
    m !! k = None -> Z.of_nat (size m) = max -> r = AutoMad ->
    m !! victim = Some e -> reason e = Operator ->
    m' = <[k := mkBan expires r]> (delete victim m) ->
    ban_spec k expires r m m' max Banned
| spec_full :
    m !! k = None -> Z.of_nat (size m) = max -> m' = m ->
    r = Operator \/ (forall k' e, m !! k' = Some e -> reason e = AutoMad) ->
    ban_spec k expires r m m' max CapacityExceeded.

Lemma ban_result max k expires r l :
  wf max l ->
  exists l' out, ban k expires r l = Some (l', out) /\ wf max l' /\
    ban_spec k expires r (BM.entries (entries l)) (BM.entries (entries l')) max out.
Proof.
  intros [Hmax Hbm]. unfold ban. destruct Hbm as [Hcnt Hcap] eqn:E. clear E.
  cbn [ban_loop]. destruct (BM.entries (entries l) !! k) as [cur|] eqn:Hk.
  { eexists _, _. split; [done|]. split; [split; [done|]; apply BM.set_entry_wf; [by rewrite Hk|done]|].
    by eapply spec_updated. }
  destruct (BM.reserve_insert_spec max k (mkBan expires r) (entries l) Hbm Hk) as [Hwf Heq].
  rewrite Hmax, Heq in *. destruct (max <=? Z.of_nat (size (BM.entries (entries l)))) eqn:Hfull; to_props.
  2: { eexists _, _. split; [done|]. split; [by split|]. by apply spec_banned. }
  assert (Hsz : Z.of_nat (size (BM.entries (entries l))) = max) by lia.
  destruct r.
  - unfold evict_one_operator. simpl. destruct (first_operator _) as [v|] eqn:Hop.
    2: { eexists _, _. split; [done|]. split; [by split|]. apply spec_full; [done..|].
         right. by apply first_operator_None. }
    destruct (first_operator_Some _ _ Hop) as (e & He & Hr).
    destruct (BM.remove_spec max v (entries l) Hbm) as (Hwf2 & Hdel & _).
    destruct (BM.remove v (entries l)) as [m2 x]. simpl in *.
    assert (Hk2 : BM.entries m2 !! k = None) by (rewrite Hdel; apply lookup_delete_None; by right).
    destruct (BM.reserve_insert_spec max k (mkBan expires AutoMad) m2 Hwf2 Hk2) as [Hwf3 Heq3].
    assert (Hlt : Z.of_nat (size (BM.entries m2)) < max).
    { rewrite Hdel, map_size_delete_Some by eauto. pose proof (BM.size_pos _ _ _ He). lia. }
    rewrite Hk2, Hmax, Heq3 in *. rewrite (proj2 (Z.leb_gt _ _) Hlt) in *. simpl in *.
    eexists _, _. split; [done|]. split; [by split|]. simpl. rewrite Hdel. by eapply spec_displaced.
  - eexists _, _. split; [done|]. split; [by split|]. apply spec_full; [done..|]. by left.
Qed.

Lemma step_wf_ban max l e : wf max l -> exists l', step (Some l) e = Some l' /\ wf max l'.
Proof.
  intros Hwf. destruct e as [now [k x r|k|]]; simpl.
  - destruct (ban_result max k x r l Hwf) as (l' & out & -> & Hwf' & _). simpl. eauto.
  - eexists. split; [done|]. split; [apply Hwf|]. apply BM.remove_spec, Hwf.
  - eexists. split; [done|]. split; [apply Hwf|]. apply BM.retain_spec, Hwf.
Qed.

Lemma run_wf_ban max l es : wf max l -> exists l', run l es = Some l' /\ wf max l'.
Proof.
  unfold run. revert l. induction es as [|e es IH]; intros l Hwf; cbn [foldl]; [eauto|].
  destruct (step_wf_ban max l e Hwf) as (l' & -> & Hwf'). by apply IH.
Qed.

(** [k] is under a ban of the node's own until [until] at least. *)
Definition holds (k : K) (until : Instant) (l : ContractBanList) : Prop :=
  exists e, BM.entries (entries l) !! k = Some e /\ reason e = AutoMad /\ until <= expires_at e.

Lemma ban_spec_holds k' x r m m' max out k until :
  ban_spec k' x r m m' max out ->
  (exists e, m !! k = Some e /\ reason e = AutoMad /\ until <= expires_at e) ->
  exists e, m' !! k = Some e /\ reason e = AutoMad /\ until <= expires_at e.
Proof.
  intros Hspec (e & He & Hr & Hu).
  destruct Hspec as [cur Hk -> | Hk _ -> | v ev Hk _ _ Hv Hop -> | _ _ -> _]; [| | |by eauto].
  - destruct (decide (k' = k)) as [-> | Hne]; [|rewrite lookup_insert_ne by done; by eauto].
    rewrite lookup_insert_eq. eexists. split; [done|]. simplify_eq. unfold merge_ban. simpl.
    split; [by destruct r|]. case_match; to_props; lia.
  - rewrite lookup_insert_ne by congruence. by eauto.
  - assert (v <> k) by (intros ->; congruence).
    rewrite lookup_insert_ne, lookup_delete_ne by congruence. by eauto.
Qed.

Lemma step_holds max k until l e l' :
  wf max l -> step (Some l) e = Some l' -> e.2 <> Unban k -> e.1 < until -> holds k until l -> holds k until l'.
Proof.
  intros Hwf Hs Hne Hlt Hk. destruct e as [now [k' x r|k'|]]; simpl in *.
  - destruct (ban_result max k' x r l Hwf) as (l1 & out & Hb & _ & Hspec). rewrite Hb in Hs. simplify_eq/=.
    by eapply ban_spec_holds.
  - simplify_eq. destruct Hk as (e & He & Hr). exists e. split; [|done]. simpl.
    destruct (BM.remove_spec max k' (entries l) (proj2 Hwf)) as (_ & -> & _).
    rewrite lookup_delete_ne; [done|]. by intros ->.
  - simplify_eq. destruct Hk as (e & He & Hr & Hu). exists e. split; [|done]. simpl.
    rewrite map_lookup_imap, He. simpl. rewrite (proj2 (Z.ltb_lt _ _)); [done|lia].
Qed.

Lemma run_holds max k until t0 l es l' :
  wf max l -> run l es = Some l' -> Forall (fun e => e.2 <> Unban k) es ->
  clock_monotone t0 es = true -> clock_end t0 es < until -> holds k until l -> holds k until l'.
Proof.
  unfold run. revert t0 l. induction es as [|e es IH]; intros t0 l Hwf Hrun Hnu Hm Hend Hk; cbn [foldl clock_monotone clock_end] in *.
  - by simplify_eq.
  - apply Forall_cons in Hnu as [Hne Hnu]. to_props.
    destruct (step_wf_ban max l e Hwf) as (l1 & Hs & Hwf1). rewrite Hs in Hrun.
    assert (e.1 <= clock_end e.1 es) by (by apply clock_end_le).
    apply (IH e.1 l1); try done. apply (step_holds max k until l e l1 Hwf Hs); [done|lia|done].
Qed.

Lemma new_wf_ban max : 0 <= max <= usize_max -> wf max (with_max max).
Proof. intros Hm. split; [done|]. by apply BM.wf_empty. Qed.

(** C32: a ban the node decided itself holds until it expires: once accepted, no
    later bans (of this or other contracts, at capacity or not, by an operator or by
    the node) and no clean-up end it early; only [unban] of that contract does. *)
Theorem security_ban_persists max before l k until l1 out t0 after now :
  0 <= max <= usize_max -> run (with_max max) before = Some l ->
  ban k until AutoMad l = Some (l1, out) -> out <> CapacityExceeded ->
  Forall (fun e => e.2 <> Unban k) after ->
  clock_monotone t0 after = true -> clock_end t0 after <= now -> now < until ->
  exists l2, run l1 after = Some l2 /\ is_banned now k l2 = true.
Proof.
  intros Hm Hrun Hban Hout Hnu Hmono Hend Hlt.
  destruct (run_wf_ban max (with_max max) before (new_wf_ban max Hm)) as (l' & Hrun' & Hwf). simplify_eq.
  destruct (ban_result max k until AutoMad l Hwf) as (l' & out' & Hban' & Hwf1 & Hspec).
  rewrite Hban in Hban'. simplify_eq.
  assert (Hk : holds k until l').
  { destruct Hspec as [cur ? Hm' | ? ? Hm' | v ev ? ? ? ? ? Hm' |]; [| | |done];
      (eexists; split; [rewrite Hm'; apply lookup_insert_eq|]; split; [done|]); simpl; [|lia..].
    case_match; to_props; lia. }
  destruct (run_wf_ban max l' after Hwf1) as (l2 & Hrun2 & _). exists l2. split; [done|].
  destruct (run_holds max k until t0 l' after l2) as (e & He & _ & Hu); try done; [lia|].
  unfold is_banned. rewrite He. lia.
Qed.

(** After any calls, [ban] returns (its retry loop ends) with one of these
    outcomes and no other effect: an existing ban is extended, never shortened nor
    weakened; a new one is added if there is room; if there is none a ban of the
    node displaces exactly one operator ban; and it is refused only when the list
    is full and, for a ban of the node, holds nothing but such bans.  The list never
    exceeds its cap. *)
Lemma ban_decides max es k until r :
  0 <= max <= usize_max ->
  exists l l' out, run (with_max max) es = Some l /\ ban k until r l = Some (l', out) /\
    ban_spec k until r (BM.entries (entries l)) (BM.entries (entries l')) max out /\
    Z.of_nat (size (BM.entries (entries l'))) <= max.
Proof.
  intros Hm. destruct (run_wf_ban max (with_max max) es (new_wf_ban max Hm)) as (l & Hrun & Hwf).
  destruct (ban_result max k until r l Hwf) as (l' & out & Hban & [_ [Hc Hcap]] & Hspec).
  exists l, l', out. split_and!; [done..|lia].
Qed.

End laws.

End ban_list.

(** A list of two: an operator ban and a security ban, then a second security ban
    displaces the operator's. *)
Definition demo_bans : list (Z * op (K:=nat)) :=
  [(1, Ban 1%nat 1000 Operator); (2, Ban 2%nat 50 AutoMad)].

Definition demo_after : list (Z * op (K:=nat)) :=
  [(10, Ban 3%nat 900 Operator); (20, Cleanup); (30, Unban 1%nat); (60, Cleanup); (61, Ban 7%nat 70 Operator)].

Lemma security_ban_persists_witness :
  exists l l1 l2, run map_to_list (with_max 2) demo_bans = Some l /\
    ban map_to_list 7%nat 500 AutoMad l = Some (l1, Banned) /\
    run map_to_list l1 demo_after = Some l2 /\ is_banned 499 7%nat l2 = true.
Proof.
  destruct (run map_to_list (with_max 2) demo_bans) as [l|] eqn:Hrun; [|by vm_compute in Hrun].
  destruct (ban map_to_list 7%nat 500 AutoMad l) as [[l1 out]|] eqn:Hban.
  2: { vm_compute in Hrun. by simplify_eq. }
  assert (out = Banned) as -> by (vm_compute in Hrun; simplify_eq; vm_compute in Hban; congruence).
  destruct (security_ban_persists map_to_list (fun m => Permutation_refl _) 2 demo_bans l 7%nat 500 l1 Banned 5 demo_after 499)
    as (l2 & ? & ?).
  - by vm_compute.
  - exact Hrun.
  - exact Hban.
  - done.
  - repeat (apply Forall_cons_2; [done|]). apply Forall_nil_2.
  - by vm_compute.
  - by vm_compute.
  - done.
  - by exists l, l1, l2.
Defined.

Lemma ban_decides_witness :
  exists l l' out, run map_to_list (with_max 2) demo_bans = Some l /\
    ban map_to_list 7%nat 500 AutoMad l = Some (l', out) /\ Z.of_nat (size (BM.entries (entries l'))) <= 2.
Proof.
  destruct (ban_decides map_to_list (fun m => Permutation_refl _) 2 demo_bans 7%nat 500 AutoMad) as (l & l' & out & ? & ? & _ & ?);
    [by vm_compute|]. by exists l, l', out.
Defined.

End ContractBanList.
