(* ===== verification/OutstandingResync.v ===== *)
(** * Outstanding resync requests

    Models [OutstandingResyncRequests] of
    [src/crates/core/src/ring/resync_rate_limit.rs]: a node records each resync
    request it sends, and takes a full-state response only from a peer it has an
    unanswered request to, once and within a deadline.  Contract ids and socket
    addresses are any countable types. *)

From S2P Require Import Prelude BoundedMap.

Module OutstandingResync.
Module BM := BoundedMap.

Abbreviation Instant := Z (only parsing).
Abbreviation Duration := Z (only parsing).

Definition OUTSTANDING_RESYNC_TTL : Duration := from_secs 60.
Definition MAX_TRACKED_KEYS : Z := 16384.

Section outstanding.
Context {C P : Type} `{eqC : EqDecision C, cntC : !Countable C, eqP : EqDecision P, cntP : !Countable P}.

Record OutstandingResyncRequests := mkOutstanding {
  entries : BM.t (K := C * P) (V := Instant);
  max_tracked : Z;
  ttl : Duration;
}.

Definition new : OutstandingResyncRequests := mkOutstanding BM.empty MAX_TRACKED_KEYS OUTSTANDING_RESYNC_TTL.

Definition set_map (m : BM.t) (r : OutstandingResyncRequests) : OutstandingResyncRequests :=
  mkOutstanding m (max_tracked r) (ttl r).

Definition record (now : Instant) (contract : C) (target : P) (r : OutstandingResyncRequests)
    : OutstandingResyncRequests * bool :=
  let k := (contract, target) in
  match BM.entries (entries r) !! k with
  | Some _ => (set_map (BM.set_entry k now (entries r)) r, true)
  | None =>
      let '(m, inserted) := BM.reserve_insert (max_tracked r) k now (entries r) in
      (set_map m r, inserted)
  end.

Definition fresh (now : Instant) (r : OutstandingResyncRequests) (emitted : Instant) : bool :=
  Z.max 0 (now - emitted) <=? ttl r.

Definition consume (now : Instant) (contract : C) (source : P) (r : OutstandingResyncRequests)
    : OutstandingResyncRequests * bool :=
  let '(m, removed) := BM.remove (contract, source) (entries r) in
  (set_map m r, match removed with Some emitted => fresh now r emitted | None => false end).

Definition is_outstanding (now : Instant) (contract : C) (peer : P) (r : OutstandingResyncRequests) : bool :=
  match BM.entries (entries r) !! (contract, peer) with Some emitted => fresh now r emitted | None => false end.

Definition cleanup (now : Instant) (r : OutstandingResyncRequests) : OutstandingResyncRequests :=
  set_map (BM.retain (fun _ emitted => if ttl r <? Z.max 0 (now - emitted) then None else Some emitted)
             (entries r)) r.

(** ** Sequences of calls and their specification *)

Inductive op :=
| Record (contract : C) (target : P)
| Consume (contract : C) (source : P)
| IsOutstanding (contract : C) (peer : P)
| Cleanup.

Definition step (r : OutstandingResyncRequests) (e : Instant * op) : OutstandingResyncRequests * bool :=
  match e.2 with
  | Record c p => record e.1 c p r
  | Consume c p => consume e.1 c p r
  | IsOutstanding c p => (r, is_outstanding e.1 c p r)
  | Cleanup => (cleanup e.1 r, true)
  end.

(** The answers of a sequence of calls. *)
Fixpoint answers (r : OutstandingResyncRequests) (es : list (Instant * op)) : list bool :=
  match es with
  | [] => []
  | e :: es => let '(r, b) := step r e in b :: answers r es
  end.

(** The specification: every unanswered request with the time it was last sent, and the
    time of the last clean-up.  Nothing is ever removed but by a response.  A request
    counts against the capacity unless it had expired at the last clean-up. *)
Record spec := mkSpec { requests : gmap (C * P) Instant; swept : Instant }.

Definition counted (s : spec) (e : (C * P) * Instant) : Prop := swept s - e.2 <= OUTSTANDING_RESYNC_TTL.

#[local] Instance counted_dec s e : Decision (counted s e) := Z_le_dec _ _.

Definition load (s : spec) : gmap (C * P) Instant := filter (counted s) (requests s).

(** A request is accepted if it repeats one that counts, or while fewer than the
    capacity count. *)
Definition accepts (s : spec) (k : C * P) : bool :=
  bool_decide (is_Some (load s !! k)) || bool_decide (Z.of_nat (size (load s)) < MAX_TRACKED_KEYS).

Definition spec_step (s : spec) (e : Instant * op) : spec * bool :=
  let answer k := match requests s !! k with Some t => e.1 - t <=? OUTSTANDING_RESYNC_TTL | None => false end in
  match e.2 with
  | Record c p => if accepts s (c, p) then (mkSpec (<[(c, p) := e.1]> (requests s)) (swept s), true) else (s, false)
  | Consume c p => (mkSpec (delete (c, p) (requests s)) (swept s), answer (c, p))
  | IsOutstanding c p => (s, answer (c, p))
  | Cleanup => (mkSpec (requests s) e.1, true)
  end.

Fixpoint spec_answers (s : spec) (es : list (Instant * op)) : list bool :=
  match es with
  | [] => []
  | e :: es => let '(s, b) := spec_step s e in b :: spec_answers s es
  end.

(** The map holds exactly the requests that count. *)
Record simulates (now : Instant) (s : spec) (r : OutstandingResyncRequests) : Prop := {
  sim_ttl : ttl r = OUTSTANDING_RESYNC_TTL;
  sim_max : max_tracked r = MAX_TRACKED_KEYS;
  sim_bm : BM.wf MAX_TRACKED_KEYS (entries r);
  sim_load : BM.entries (entries r) = load s;
  sim_past : forall k t, requests s !! k = Some t -> t <= now;
  sim_swept : swept s <= now;
}.

Lemma load_Some s k t :
  load s !! k = Some t <-> requests s !! k = Some t /\ swept s - t <= OUTSTANDING_RESYNC_TTL.
Proof. apply map_lookup_filter_Some. Qed.

Lemma load_insert s k now : swept s <= now -> load (mkSpec (<[k := now]> (requests s)) (swept s)) = <[k := now]> (load s).
Proof. intros Hs. unfold load. cbn. apply map_filter_insert_True. unfold counted, OUTSTANDING_RESYNC_TTL, from_secs, nanos_per_sec. cbn. lia. Qed.

Lemma simulates_later now now' s r : now <= now' -> simulates now s r -> simulates now' s r.
Proof. intros Hle [? ? ? ? Hp ?]. split; try done; [|lia]. intros k t H1. specialize (Hp k t H1). lia. Qed.

(** What the code answers about a pair is what the specification answers: a request that
    does not count any more has expired. *)
Lemma simulates_answer now s r k :
  simulates now s r ->
  match BM.entries (entries r) !! k with Some t => fresh now r t | None => false end
  = match requests s !! k with Some t => now - t <=? OUTSTANDING_RESYNC_TTL | None => false end.
Proof.
  intros [Ht _ _ Hl Hp Hs]. unfold fresh. rewrite Ht, Hl.
  destruct (load s !! k) as [t|] eqn:He.
  - apply load_Some in He as [He _]. rewrite He. specialize (Hp k t He). by rewrite Z.max_r by lia.
  - destruct (requests s !! k) as [t|] eqn:Hr; [|done]. symmetry. apply Z.leb_gt.
    destruct (decide (swept s - t <= OUTSTANDING_RESYNC_TTL)); [|lia].
    by rewrite (proj2 (load_Some s k t)) in He.
Qed.

Lemma record_simulates now s r c p :
  simulates now s r ->
  (record now c p r).2 = (spec_step s (now, Record c p)).2 /\
  simulates now (spec_step s (now, Record c p)).1 (record now c p r).1.
Proof.
  intros [Ht Hm Hb Hl Hp Hs]. unfold record, spec_step, accepts. cbn [fst snd]. rewrite <- Hl, Hm.
  assert (Hins : forall m, BM.wf MAX_TRACKED_KEYS m -> BM.entries m = <[(c, p) := now]> (BM.entries (entries r)) ->
    simulates now (mkSpec (<[(c, p) := now]> (requests s)) (swept s)) (set_map m r)).
  { intros m Hwf He. split; cbn; try done.
    - rewrite He, Hl. symmetry. by apply load_insert.
    - intros k t [[_ <-]|[_ H]]%lookup_insert_Some; [lia|by apply (Hp k)]. }
  destruct (BM.entries (entries r) !! (c, p)) as [t0|] eqn:He.
  - rewrite bool_decide_eq_true_2 by by exists t0. split; [done|].
    apply Hins; [by apply BM.set_entry_wf; [rewrite He|]|done].
  - destruct (BM.reserve_insert_spec MAX_TRACKED_KEYS (c, p) now (entries r) Hb He) as [Hwf Heq].
    rewrite (bool_decide_eq_false_2 (is_Some None)) by by intros [? ?]. rewrite Heq in *. cbn [orb].
    destruct (MAX_TRACKED_KEYS <=? _) eqn:E; to_props.
    + rewrite bool_decide_eq_false_2 by lia. by split.
    + rewrite bool_decide_eq_true_2 by lia. split; [done|]. by apply Hins.
Qed.

Lemma consume_simulates now s r c p :
  simulates now s r ->
  (consume now c p r).2 = (spec_step s (now, Consume c p)).2 /\
  simulates now (spec_step s (now, Consume c p)).1 (consume now c p r).1.
Proof.
  intros Hsim. unfold consume. destruct (BM.remove_spec MAX_TRACKED_KEYS (c, p) (entries r) (sim_bm _ _ _ Hsim)) as (Hwf & Hd & Hx).
  destruct (BM.remove (c, p) (entries r)) as [m x]. cbn in *. subst x.
  split; [by apply simulates_answer|]. destruct Hsim as [Ht Hm _ Hl Hp Hs].
  split; cbn; try done.
  - rewrite Hd, Hl. unfold load. cbn. symmetry. apply map_filter_delete.
  - intros k t [_ H]%lookup_delete_Some. by apply (Hp k).
Qed.

Lemma sweep_simulates now s r :
  simulates now s r -> simulates now (spec_step s (now, Cleanup)).1 (cleanup now r).
Proof.
  intros [Ht Hm Hb Hl Hp Hs]. unfold cleanup. rewrite Ht.
  set (f := fun (_ : C * P) emitted => if OUTSTANDING_RESYNC_TTL <? Z.max 0 (now - emitted) then None else Some emitted).
  destruct (BM.retain_spec MAX_TRACKED_KEYS f (entries r) Hb) as [Hwf Hr]. split; cbn [set_map spec_step fst snd requests swept ttl max_tracked entries]; try done.
  - rewrite Hr, Hl. apply map_eq. intros k. rewrite map_lookup_imap. apply option_eq. intros t.
    rewrite bind_Some, load_Some. cbn. setoid_rewrite load_Some. unfold f. split.
    + intros (v & [Hv _] & Hf). case_match eqn:E; simplify_eq. to_props. split; [done|]. specialize (Hp k t Hv). lia.
    + intros [Hv Hc]. exists t. specialize (Hp k t Hv). split_and!; [done|lia|].
      by rewrite (proj2 (Z.ltb_ge _ _)) by (unfold OUTSTANDING_RESYNC_TTL, from_secs, nanos_per_sec in *; lia).
Qed.

Lemma step_simulates now s r e :
  now <= e.1 -> simulates now s r ->
  (step r e).2 = (spec_step s e).2 /\ simulates e.1 (spec_step s e).1 (step r e).1.
Proof.
  intros Hle Hsim%(simulates_later _ e.1); [|done]. destruct e as [t [c p|c p|c p|]]; cbn [step fst snd] in *.
  - by apply record_simulates.
  - by apply consume_simulates.
  - split; [by apply simulates_answer|done].
  - split; [done|by apply sweep_simulates].
Qed.

(** C36: the bounded, swept map is the list of unanswered requests.  The specification
    removes a request only when it is answered, and takes a new one as long as fewer than
    16384 unanswered requests are live, where a request stays live until the first clean-up
    after its sixty seconds.  With a clock that does not go back, every call of the map, made
    at [now], gets the answer of the specification: a request is refused only when the table
    is full of live ones, a response is taken exactly when it answers a request to that peer
    not older than sixty seconds, once, and a clean-up changes no answer but that it makes
    room. *)
Theorem outstanding_refines now es :
  clock_monotone now es = true ->
  answers new es = spec_answers (mkSpec ∅ now) es.
Proof.
  assert (H0 : simulates now (mkSpec ∅ now) new).
  { by split. }
  revert H0. generalize (mkSpec ∅ now), new. revert now.
  induction es as [|e es IH]; intros now s r Hsim Hm; simpl in *; [done|]. to_props.
  destruct (step_simulates now s r e ltac:(done) Hsim) as [Hb Hsim'].
  destruct (step r e) as [r' b], (spec_step s e) as [s' b']. simpl in *. subst b'. f_equal. by apply (IH e.1).
Qed.

End outstanding.

Definition demo_calls : list (Z * op (C:=nat) (P:=nat)) :=
  [(1, Record 1%nat 2%nat); (2, Consume 1%nat 3%nat); (3, Consume 1%nat 2%nat); (4, Consume 1%nat 2%nat);
   (5, Record 1%nat 2%nat); (from_secs 66, Cleanup); (from_secs 67, IsOutstanding 1%nat 2%nat)].

Lemma outstanding_refines_witness :
  answers new demo_calls = spec_answers (mkSpec ∅ 0) demo_calls /\
  answers new demo_calls = [true; false; true; false; true; true; false].
Proof. split; [apply (outstanding_refines 0); by vm_compute|by vm_compute]. Defined.

End OutstandingResync.
