(* ===== verification/MergeBackoff.v ===== *)
(** * The merge-failure backoff

    Models [src/crates/core/src/ring/merge_backoff.rs]: how a node stops executing
    merges that keep failing.  Rejected merges are counted per contract and sender,
    timeouts per contract, and the hashes of failed payloads are remembered per
    contract.  Contract ids and socket addresses are any countable types; a
    payload is its hash ([merge_payload_hash] uses a third-party hasher).  The
    random jitter of a cooldown is an argument; [None] is a panic of the float
    arithmetic on durations. *)

From S2P Require Import Prelude F64 F64Round BoundedMap.

Module MergeBackoff.
Module BM := BoundedMap.

Abbreviation Instant := Z (only parsing).
Abbreviation Duration := Z (only parsing).

Definition INVALID_BASE : Duration := from_secs 30.
Definition INVALID_CAP : Duration := from_secs (30 * 60).
Definition TIMEOUT_BASE : Duration := from_secs 120.
Definition TIMEOUT_CAP : Duration := from_secs (2 * 60 * 60).
Definition INVALID_TRIP_THRESHOLD : Z := 3.
Definition TIMEOUT_TRIP_THRESHOLD : Z := 1.
Definition FAILED_PAYLOAD_TTL : Duration := from_secs (10 * 60).
Definition MAX_FAILED_PAYLOADS_PER_CONTRACT : nat := 32.
Definition MAX_TRACKED_CONTRACTS : Z := 16384.
Definition INVALID_CLEANUP_AGE : Duration := INVALID_CAP.
Definition CONTRACT_CLEANUP_AGE : Duration := TIMEOUT_CAP.

Inductive MergeFailureClass := Invalid | Timeout.

#[export] Instance MergeFailureClass_eq_dec : EqDecision MergeFailureClass.
Proof. solve_decision. Defined.

Definition base (class : MergeFailureClass) : Duration :=
  match class with Invalid => INVALID_BASE | Timeout => TIMEOUT_BASE end.
Definition cap (class : MergeFailureClass) : Duration :=
  match class with Invalid => INVALID_CAP | Timeout => TIMEOUT_CAP end.
Definition trip_threshold (class : MergeFailureClass) : Z :=
  match class with Invalid => INVALID_TRIP_THRESHOLD | Timeout => TIMEOUT_TRIP_THRESHOLD end.

Inductive MergeDecision := Allow | InBackoff | KnownFailedPayload.

Definition cooldown_for (jitter : f64) (class : MergeFailureClass) (consecutive_failures : Z) : option Duration :=
  let exponent := Z.min (sat_sub consecutive_failures (trip_threshold class)) 20 in
  let raw := dur_saturating_mul (base class) (Z.shiftl 1 (Z.min exponent 30)) in
  dur_mul_f64 (Z.min raw (cap class)) jitter.

Record Cooldown := mkCooldown { consecutive_failures : Z; next_allowed : Instant; last_failure : Instant }.

Definition inert (now : Instant) : Cooldown := mkCooldown 0 now now.

Definition record (jitter : f64) (class : MergeFailureClass) (now : Instant) (cd : Cooldown) : option Cooldown :=
  let n := sat_add32 (consecutive_failures cd) 1 in
  d ← cooldown_for jitter class n;
  Some (mkCooldown n (now + d) now).

Definition tripped (class : MergeFailureClass) (cd : Cooldown) : bool :=
  trip_threshold class <=? consecutive_failures cd.
Definition suppressing (class : MergeFailureClass) (now : Instant) (cd : Cooldown) : bool :=
  tripped class cd && (now <? next_allowed cd).
Definition past_cooldown (now : Instant) (cd : Cooldown) : bool := next_allowed cd <=? now.
Definition idle (now : Instant) (grace : Duration) (cd : Cooldown) : bool :=
  grace <? Z.max 0 (now - last_failure cd).

Record ContractState := mkContract {
  timeout : Cooldown;
  failed_payloads : list (Z * Instant);
  last_touch : Instant;
}.

Definition contract_state (now : Instant) : ContractState := mkContract (inert now) [] now.

Fixpoint prune (now : Instant) (l : list (Z * Instant)) : list (Z * Instant) :=
  match l with
  | (h, at_) :: rest => if FAILED_PAYLOAD_TTL <? Z.max 0 (now - at_) then prune now rest else l
  | [] => []
  end.

Definition prune_payloads (now : Instant) (cs : ContractState) : ContractState :=
  mkContract (timeout cs) (prune now (failed_payloads cs)) (last_touch cs).

Definition memoized (h : Z) (cs : ContractState) : bool :=
  existsb (fun e => e.1 =? h) (failed_payloads cs).

Definition memoize (h : Z) (now : Instant) (cs : ContractState) : ContractState :=
  let cs := prune_payloads now cs in
  if memoized h cs then cs
  else
    let l := failed_payloads cs in
    let l := if (MAX_FAILED_PAYLOADS_PER_CONTRACT <=? length l)%nat then tail l else l in
    mkContract (timeout cs) (l ++ [(h, now)]) (last_touch cs).

Section backoff.
Context {C P : Type} `{eqC : EqDecision C, cntC : !Countable C, eqP : EqDecision P, cntP : !Countable P}.

Record MergeBackoff := mkBackoff {
  invalid_by_sender : BM.t (K := C * P) (V := Cooldown);
  contract : BM.t (K := C) (V := ContractState);
  max_tracked : Z;
  suppressed_total : Z;
}.

Definition with_max (max : Z) : MergeBackoff := mkBackoff BM.empty BM.empty max 0.
Definition new : MergeBackoff := with_max MAX_TRACKED_CONTRACTS.

Definition set_invalid (m : BM.t) (b : MergeBackoff) : MergeBackoff :=
  mkBackoff m (contract b) (max_tracked b) (suppressed_total b).
Definition set_contract (m : BM.t) (b : MergeBackoff) : MergeBackoff :=
  mkBackoff (invalid_by_sender b) m (max_tracked b) (suppressed_total b).
Definition suppress (b : MergeBackoff) : MergeBackoff :=
  mkBackoff (invalid_by_sender b) (contract b) (max_tracked b) (suppressed_total b +w64 1)%rust.

Definition check (now : Instant) (c : C) (sender : P) (payload_hash : Z) (b : MergeBackoff)
    : MergeBackoff * MergeDecision :=
  let sender_suppressing :=
    match BM.entries (invalid_by_sender b) !! (c, sender) with
    | Some cd => suppressing Invalid now cd
    | None => false
    end in
  let by_sender b := if sender_suppressing : bool then (suppress b, InBackoff) else (b, Allow) in
  match BM.entries (contract b) !! c with
  | Some cs =>
      let cs := prune_payloads now cs in
      let b := set_contract (BM.set_entry c cs (contract b)) b in
      if memoized payload_hash cs then (suppress b, KnownFailedPayload)
      else if suppressing Timeout now (timeout cs) then (suppress b, InBackoff)
      else by_sender b
  | None => by_sender b
  end.

Definition record_invalid_sender (jitter : f64) (now : Instant) (c : C) (sender : P) (b : MergeBackoff)
    : option MergeBackoff :=
  let k := (c, sender) in
  match BM.entries (invalid_by_sender b) !! k with
  | Some cd => cd ← record jitter Invalid now cd; Some (set_invalid (BM.set_entry k cd (invalid_by_sender b)) b)
  | None =>
      (* the cooldown is computed only once a slot is reserved *)
      if max_tracked b <=? BM.count (invalid_by_sender b) then
        Some (set_invalid (BM.reserve_insert (max_tracked b) k (inert now) (invalid_by_sender b)).1 b)
      else
        cd ← record jitter Invalid now (inert now);
        Some (set_invalid (BM.reserve_insert (max_tracked b) k cd (invalid_by_sender b)).1 b)
  end.

(** The closure [record_failure] passes to [with_contract_entry]. *)
Definition touch_contract (jitter : f64) (now : Instant) (class : MergeFailureClass) (h : Z) (cs : ContractState)
    : option ContractState :=
  t ← match class with Timeout => record jitter Timeout now (timeout cs) | Invalid => Some (timeout cs) end;
  Some (memoize h now (mkContract t (failed_payloads cs) now)).

Definition with_contract_entry (c : C) (now : Instant) (f : ContractState -> option ContractState)
    (b : MergeBackoff) : option MergeBackoff :=
  match BM.entries (contract b) !! c with
  | Some cs => cs ← f cs; Some (set_contract (BM.set_entry c cs (contract b)) b)
  | None =>
      if max_tracked b <=? BM.count (contract b) then
        Some (set_contract (BM.reserve_insert (max_tracked b) c (contract_state now) (contract b)).1 b)
      else
        cs ← f (contract_state now);
        Some (set_contract (BM.reserve_insert (max_tracked b) c cs (contract b)).1 b)
  end.

Definition record_failure (jitter : f64) (now : Instant) (c : C) (sender : P) (class : MergeFailureClass) (h : Z)
    (b : MergeBackoff) : option MergeBackoff :=
  b ← match class with Invalid => record_invalid_sender jitter now c sender b | Timeout => Some b end;
  with_contract_entry c now (touch_contract jitter now class h) b.

Definition clear_contract_side (c : C) (b : MergeBackoff) : MergeBackoff :=
  set_contract (BM.remove c (contract b)).1 b.

Definition record_success_from_sender (c : C) (sender : P) (changed : bool) (b : MergeBackoff) : MergeBackoff :=
  let b := set_invalid (BM.remove (c, sender) (invalid_by_sender b)).1 b in
  if changed then clear_contract_side c b else b.

Definition record_success_local (c : C) (changed : bool) (b : MergeBackoff) : MergeBackoff :=
  if changed then clear_contract_side c b else b.

Definition invalidate_payload_memo (c : C) (b : MergeBackoff) : MergeBackoff :=
  match BM.entries (contract b) !! c with
  | Some cs => set_contract (BM.set_entry c (mkContract (timeout cs) [] (last_touch cs)) (contract b)) b
  | None => b
  end.

Definition cleanup_expired (now : Instant) (b : MergeBackoff) : MergeBackoff :=
  let b := set_invalid (BM.retain (fun _ cd =>
    if past_cooldown now cd && idle now INVALID_CLEANUP_AGE cd then None else Some cd)
    (invalid_by_sender b)) b in
  set_contract (BM.retain (fun _ cs =>
    let cs := prune_payloads now cs in
    if past_cooldown now (timeout cs) && bool_decide (failed_payloads cs = [])
       && (CONTRACT_CLEANUP_AGE <? Z.max 0 (now - last_touch cs)) then None else Some cs)
    (contract b)) b.

(** ** Sequences of calls *)

Inductive op :=
| Check (c : C) (sender : P) (h : Z)
| Failure (c : C) (sender : P) (class : MergeFailureClass) (h : Z) (jitter : f64)
| SuccessFrom (c : C) (sender : P) (changed : bool)
| SuccessLocal (c : C) (changed : bool)
| InvalidateMemo (c : C)
| Cleanup.

Definition step (b : option MergeBackoff) (e : Instant * op) : option MergeBackoff :=
  b ← b;
  match e.2 with
  | Check c s h => Some (check e.1 c s h b).1
  | Failure c s class h jitter => record_failure jitter e.1 c s class h b
  | SuccessFrom c s changed => Some (record_success_from_sender c s changed b)
  | SuccessLocal c changed => Some (record_success_local c changed b)
  | InvalidateMemo c => Some (invalidate_payload_memo c b)
  | Cleanup => Some (cleanup_expired e.1 b)
  end.

Definition run (b : MergeBackoff) (es : list (Instant * op)) : option MergeBackoff := foldl step (Some b) es.

(** ** Cooldowns *)

(** A cooldown never exceeds 1.2 times its cap. *)
Definition max_cooldown (class : MergeFailureClass) : Duration :=
  match class with Invalid => from_secs 2160 | Timeout => from_secs 8640 end.

Lemma cooldown_bounds j class n :
  F64Round.jitter_ok j -> exists d, cooldown_for j class n = Some d /\ 0 <= d <= max_cooldown class.
Proof.
  intros [Hok Hj]. unfold cooldown_for.
  set (d := Z.min (dur_saturating_mul _ _) (cap class)).
  assert (Hd : 0 <= d <= cap class).
  { unfold d, dur_saturating_mul. split; [|lia]. rewrite Z.shiftl_1_l.
    assert (0 <= base class * 2 ^ Z.min (Z.min (sat_sub n (trip_threshold class)) 20) 30).
    { apply Z.mul_nonneg_nonneg; [by destruct class|]. apply Z.pow_nonneg. lia. }
    assert (0 <= duration_max) by done. assert (0 <= cap class) by (by destruct class). lia. }
  pose proof F64Round.U_pos.
  destruct class; simpl in *; unfold INVALID_CAP, TIMEOUT_CAP, from_secs in *.
  - apply (F64Round.dur_mul_f64_le d j 1800 2160); [lia|lia|done|lia|lia].
  - apply (F64Round.dur_mul_f64_le d j 7200 8640); [lia|lia|done|lia|lia].
Qed.

Lemma record_spec j class now cd :
  F64Round.jitter_ok j -> exists cd', record j class now cd = Some cd' /\
    consecutive_failures cd' = sat_add32 (consecutive_failures cd) 1 /\ last_failure cd' = now /\
    next_allowed cd' <= now + max_cooldown class.
Proof.
  intros Hj. unfold record.
  destruct (cooldown_bounds j class (sat_add32 (consecutive_failures cd) 1) Hj) as (d & -> & Hd).
  eexists. split; [done|]. simpl. split_and!; [done|done|lia].
Qed.

(** ** The payload memo *)

Lemma prune_suffix now l : exists dropped, l = dropped ++ prune now l /\
  Forall (fun e => FAILED_PAYLOAD_TTL < Z.max 0 (now - e.2)) dropped.
Proof.
  induction l as [|[h at_] l (d & Hl & Hd)]; simpl; [by exists []|]. case_match; to_props.
  - exists ((h, at_) :: d). simpl. split; [by f_equal|]. by constructor.
  - by exists [].
Qed.

Lemma prune_elem now l e : e ∈ prune now l -> e ∈ l.
Proof. destruct (prune_suffix now l) as (d & Hl & _). intros He. rewrite Hl. apply elem_of_app. by right. Qed.

Lemma prune_fresh now l1 h t l2 :
  Z.max 0 (now - t) <= FAILED_PAYLOAD_TTL ->
  exists l1', prune now (l1 ++ (h, t) :: l2) = l1' ++ (h, t) :: l2.
Proof.
  intros Ht. induction l1 as [|[h' t'] l1 (l1' & IH)]; simpl.
  - exists []. case_match; to_props; [lia|done].
  - case_match; [by exists l1'|by exists ((h', t') :: l1)].
Qed.

Lemma prune_all now l :
  Forall (fun e => FAILED_PAYLOAD_TTL < now - e.2) l -> prune now l = [].
Proof.
  induction 1 as [|[h t] l Ht _ IH]; simpl in *; [done|].
  rewrite (proj2 (Z.ltb_lt _ _)); [done|]. lia.
Qed.

Lemma memoized_iff h cs : memoized h cs = true <-> exists t, (h, t) ∈ failed_payloads cs.
Proof.
  unfold memoized. rewrite existsb_exists. split.
  - intros ([h' t] & Hin%list_elem_of_In & Heq). simpl in Heq. to_props. subst. by exists t.
  - intros (t & Hin%list_elem_of_In). exists (h, t). split; [done|]. apply Z.eqb_refl.
Qed.

Lemma memoize_elem h now cs e :
  e ∈ failed_payloads (memoize h now cs) -> e ∈ failed_payloads cs \/ e = (h, now).
Proof.
  unfold memoize. case_match; simpl; [by intros ?%prune_elem; left|].
  intros [Hin | ->%list_elem_of_singleton]%elem_of_app; [|by right]. left. apply (prune_elem now).
  case_match; [|done]. destruct (prune now (failed_payloads cs)); [done|by right].
Qed.

(** ** Every entry comes from a recorded failure *)

Definition failed_at (es : list (Instant * op)) (c : C) (s : P) (class : MergeFailureClass) (h : Z) (t : Instant) : Prop :=
  exists j, (t, Failure c s class h j) ∈ es.

(** The invalid merges of sender [s] for contract [c]. *)
Definition invalid_count (es : list (Instant * op)) (c : C) (s : P) : Z :=
  sumZ (fun e => match e.2 with
                 | Failure c' s' Invalid _ _ => if decide (c' = c /\ s' = s) then 1 else 0
                 | _ => 0
                 end) es.

Definition cooldown_ok (es : list (Instant * op)) (k : C * P) (cd : Cooldown) : Prop :=
  0 <= consecutive_failures cd <= invalid_count es k.1 k.2 /\
  exists t h, failed_at es k.1 k.2 Invalid h t /\ next_allowed cd <= t + max_cooldown Invalid.

Definition contract_ok (es : list (Instant * op)) (c : C) (cs : ContractState) : Prop :=
  (consecutive_failures (timeout cs) = 0 \/
   exists t s h, failed_at es c s Timeout h t /\ next_allowed (timeout cs) <= t + max_cooldown Timeout) /\
  forall h t, (h, t) ∈ failed_payloads cs -> exists s class, failed_at es c s class h t.

Record inv (max : Z) (es : list (Instant * op)) (b : MergeBackoff) : Prop := {
  inv_max : max_tracked b = max;
  inv_invalid_wf : BM.wf max (invalid_by_sender b);
  inv_contract_wf : BM.wf max (contract b);
  inv_invalid : map_Forall (cooldown_ok es) (BM.entries (invalid_by_sender b));
  inv_contract : map_Forall (contract_ok es) (BM.entries (contract b));
}.

Lemma failed_grow es e c s class h t : failed_at es c s class h t -> failed_at (es ++ [e]) c s class h t.
Proof. intros (j & Hj). exists j. apply elem_of_app. by left. Qed.

Lemma failed_last es c s class h t j : failed_at (es ++ [(t, Failure c s class h j)]) c s class h t.
Proof. exists j. apply elem_of_app. right. by apply list_elem_of_singleton. Qed.

Lemma cooldown_ok_grow es e k cd : cooldown_ok es k cd -> cooldown_ok (es ++ [e]) k cd.
Proof.
  intros [Hc (t & h & Hf & Hn)]. split.
  - unfold invalid_count in *. rewrite sumZ_app. simpl. repeat case_match; lia.
  - exists t, h. split; [by apply failed_grow|done].
Qed.

Lemma contract_ok_grow es e c cs : contract_ok es c cs -> contract_ok (es ++ [e]) c cs.
Proof.
  intros [Ht Hm]. split.
  - destruct Ht as [? | (t & s & h & Hf & Hn)]; [by left|right]. exists t, s, h. split; [by apply failed_grow|done].
  - intros h t (s & class & Hf)%Hm. exists s, class. by apply failed_grow.
Qed.

Lemma inv_grow max es e b : inv max es b -> inv max (es ++ [e]) b.
Proof.
  intros [? ? ? Hi Hc]. split; try done.
  - eapply map_Forall_impl; [exact Hi|]. intros. by apply cooldown_ok_grow.
  - eapply map_Forall_impl; [exact Hc|]. intros. by apply contract_ok_grow.
Qed.

Lemma map_Forall_imap {K V} `{Countable K} (Q : K -> V -> Prop) (f : K -> V -> option V) (m : gmap K V) :
  map_Forall Q m -> (forall k v v', Q k v -> f k v = Some v' -> Q k v') -> map_Forall Q (map_imap f m).
Proof.
  intros Hm Hf k v'. rewrite map_lookup_imap. intros (v & Hv & Hs)%bind_Some. by eapply Hf; [apply Hm|].
Qed.

Lemma contract_ok_prune es c cs now : contract_ok es c cs -> contract_ok es c (prune_payloads now cs).
Proof. intros [Ht Hm]. split; [done|]. intros h t Hin%prune_elem. by apply Hm. Qed.

(** A map with the entry of one contract replaced or added. *)
Lemma contract_entry_inv max es b m c cs :
  inv max es b -> BM.wf max m -> BM.entries m = <[c := cs]> (BM.entries (contract b)) -> contract_ok es c cs ->
  inv max es (set_contract m b).
Proof. intros [] Hwf He Hok. split; simpl; try done. rewrite He. by apply map_Forall_insert_2. Qed.

Lemma invalid_entry_inv max es b m k cd :
  inv max es b -> BM.wf max m -> BM.entries m = <[k := cd]> (BM.entries (invalid_by_sender b)) -> cooldown_ok es k cd ->
  inv max es (set_invalid m b).
Proof. intros [] Hwf He Hok. split; simpl; try done. rewrite He. by apply map_Forall_insert_2. Qed.

Lemma check_inv max es now c s h b : inv max es b -> inv max es (check now c s h b).1.
Proof.
  intros Hinv. unfold check.
  assert (Hsup : forall b, inv max es b -> inv max es (suppress b)) by (by intros ? []; split).
  destruct (BM.entries (contract b) !! c) as [cs|] eqn:Hc.
  - assert (inv max es (set_contract (BM.set_entry c (prune_payloads now cs) (contract b)) b)).
    { eapply contract_entry_inv; [done| |done|].
      - apply BM.set_entry_wf; [by rewrite Hc|apply Hinv].
      - apply contract_ok_prune. by apply (inv_contract _ _ _ Hinv). }
    repeat case_match; simpl; auto.
  - repeat case_match; simpl; auto.
Qed.

Lemma record_cooldown_ok es j now c s h cd cd' :
  F64Round.jitter_ok j -> 0 <= consecutive_failures cd <= invalid_count es c s ->
  record j Invalid now cd = Some cd' -> cooldown_ok (es ++ [(now, Failure c s Invalid h j)]) (c, s) cd'.
Proof.
  intros Hj Hc Hr. destruct (record_spec j Invalid now cd Hj) as (x & Hx & Hn & _ & Ha).
  rewrite Hr in Hx. simplify_eq. split; simpl.
  - rewrite Hn. unfold invalid_count in *. rewrite sumZ_app. simpl. rewrite decide_True by done. int_lia.
  - exists now, h. split; [apply failed_last|done].
Qed.

Lemma invalid_count_nonneg es c s : 0 <= invalid_count es c s.
Proof. apply sumZ_nonneg. intros x _. repeat case_match; lia. Qed.

Lemma record_invalid_inv max es j now c s h b :
  F64Round.jitter_ok j -> inv max es b ->
  exists b', record_invalid_sender j now c s b = Some b' /\
    inv max (es ++ [(now, Failure c s Invalid h j)]) b' /\ contract b' = contract b.
Proof.
  intros Hj Hinv. unfold record_invalid_sender.
  pose proof (inv_grow max es (now, Failure c s Invalid h j) b Hinv) as Hg.
  destruct (BM.entries (invalid_by_sender b) !! (c, s)) as [cd|] eqn:Hk.
  - destruct (record_spec j Invalid now cd Hj) as (cd' & Hr & _). rewrite Hr. simpl.
    eexists. split; [done|]. split; [|done]. eapply invalid_entry_inv; [done| |done|].
    + apply BM.set_entry_wf; [by rewrite Hk|apply Hinv].
    + eapply record_cooldown_ok; [done| |exact Hr]. by apply (inv_invalid _ _ _ Hinv _ _ Hk).
  - pose proof (inv_invalid_wf _ _ _ Hinv) as Hwf. rewrite (inv_max _ _ _ Hinv).
    destruct (max <=? BM.count (invalid_by_sender b)) eqn:Hfull; to_props.
    + destruct (BM.reserve_insert_spec max (c, s) (inert now) _ Hwf Hk) as [_ Heq].
      rewrite Heq. rewrite (proj2 (Z.leb_le _ _)) by (destruct Hwf; lia). simpl.
      eexists. split; [done|]. split; [|done]. by destruct b, Hg.
    + destruct (record_spec j Invalid now (inert now) Hj) as (cd' & Hr & _). rewrite Hr. simpl.
      destruct (BM.reserve_insert_spec max (c, s) cd' _ Hwf Hk) as [Hwf' Heq].
      rewrite Heq in *. rewrite (proj2 (Z.leb_gt _ _)) in * by (destruct Hwf; lia). simpl in *.
      eexists. split; [done|]. split; [|done]. eapply invalid_entry_inv; [done|done|done|].
      eapply record_cooldown_ok; [done| |exact Hr]. simpl. pose proof (invalid_count_nonneg es c s). lia.
Qed.

Lemma touch_contract_ok es j now class c s h cs :
  F64Round.jitter_ok j -> failed_at es c s class h now -> contract_ok es c cs ->
  exists cs', touch_contract j now class h cs = Some cs' /\ contract_ok es c cs'.
Proof.
  intros Hj Hf [Ht Hm]. unfold touch_contract.
  assert (Hmemo : forall t', (consecutive_failures t' = 0 \/
      exists t s h, failed_at es c s Timeout h t /\ next_allowed t' <= t + max_cooldown Timeout) ->
    contract_ok es c (memoize h now (mkContract t' (failed_payloads cs) now))).
  { intros t' Ht'. split.
    - unfold memoize. by case_match.
    - intros h' a [Hin | [= -> ->]]%memoize_elem; [by apply Hm|by exists s, class]. }
  destruct class; simpl.
  - eexists. split; [done|]. by apply Hmemo.
  - destruct (record_spec j Timeout now (timeout cs) Hj) as (t' & -> & _ & _ & Ha). simpl.
    eexists. split; [done|]. apply Hmemo. right. by exists now, s, h.
Qed.

Lemma fresh_contract_ok es c now : contract_ok es c (contract_state now).
Proof. split; simpl; [by left|]. by intros h t ?%elem_of_nil. Qed.

Lemma with_contract_entry_inv max es j now class c s h b :
  F64Round.jitter_ok j -> failed_at es c s class h now -> inv max es b ->
  exists b', with_contract_entry c now (touch_contract j now class h) b = Some b' /\ inv max es b'.
Proof.
  intros Hj Hf Hinv. unfold with_contract_entry.
  destruct (BM.entries (contract b) !! c) as [cs|] eqn:Hk.
  - destruct (touch_contract_ok es j now class c s h cs Hj Hf (inv_contract _ _ _ Hinv _ _ Hk)) as (cs' & -> & Hok).
    simpl. eexists. split; [done|]. eapply contract_entry_inv; [done| |done|done].
    apply BM.set_entry_wf; [by rewrite Hk|apply Hinv].
  - pose proof (inv_contract_wf _ _ _ Hinv) as Hwf. rewrite (inv_max _ _ _ Hinv).
    destruct (max <=? BM.count (contract b)) eqn:Hfull; to_props.
    + destruct (BM.reserve_insert_spec max c (contract_state now) _ Hwf Hk) as [_ Heq].
      rewrite Heq. rewrite (proj2 (Z.leb_le _ _)) by (destruct Hwf; lia). simpl.
      eexists. split; [done|]. by destruct b, Hinv.
    + destruct (touch_contract_ok es j now class c s h _ Hj Hf (fresh_contract_ok es c now)) as (cs' & -> & Hok).
      simpl. destruct (BM.reserve_insert_spec max c cs' _ Hwf Hk) as [Hwf' Heq].
      rewrite Heq in *. rewrite (proj2 (Z.leb_gt _ _)) in * by (destruct Hwf; lia). simpl in *.
      eexists. split; [done|]. by eapply contract_entry_inv.
Qed.

Lemma record_failure_inv max es j now c s class h b :
  F64Round.jitter_ok j -> inv max es b ->
  exists b', record_failure j now c s class h b = Some b' /\
    inv max (es ++ [(now, Failure c s class h j)]) b'.
Proof.
  intros Hj Hinv. unfold record_failure. destruct class.
  - destruct (record_invalid_inv max es j now c s h b Hj Hinv) as (b1 & -> & Hinv1 & _). simpl.
    by eapply with_contract_entry_inv; [|apply failed_last|].
  - simpl. by eapply with_contract_entry_inv; [|apply failed_last|apply inv_grow].
Qed.

Lemma clear_contract_inv max es c b : inv max es b -> inv max es (clear_contract_side c b).
Proof.
  intros [? ? Hwf ? Hc]. destruct (BM.remove_spec max c _ Hwf) as (? & He & _).
  split; simpl; try done. rewrite He. by apply map_Forall_delete.
Qed.

Lemma success_inv max es c s changed b : inv max es b -> inv max es (record_success_from_sender c s changed b).
Proof.
  intros [? Hwf ? Hi ?]. destruct (BM.remove_spec max (c, s) _ Hwf) as (? & He & _).
  assert (inv max es (set_invalid (BM.remove (c, s) (invalid_by_sender b)).1 b)).
  { split; simpl; try done. rewrite He. by apply map_Forall_delete. }
  unfold record_success_from_sender. case_match; [by apply clear_contract_inv|done].
Qed.

Lemma cleanup_inv max es now b : inv max es b -> inv max es (cleanup_expired now b).
Proof.
  intros [? Hwf1 Hwf2 Hi Hc]. unfold cleanup_expired.
  split; simpl; [done|by apply BM.retain_spec|by apply BM.retain_spec|..].
  - apply map_Forall_imap; [done|]. intros k v v' Hok ?. by case_match; simplify_eq.
  - apply map_Forall_imap; [done|]. intros k v v' Hok ?. case_match; simplify_eq. by apply contract_ok_prune.
Qed.

Definition event_ok (e : Instant * op) : Prop :=
  match e.2 with Failure _ _ _ _ j => F64Round.jitter_ok j | _ => True end.

Lemma step_inv_backoff max es e b :
  event_ok e -> inv max es b -> exists b', step (Some b) e = Some b' /\ inv max (es ++ [e]) b'.
Proof.
  intros He Hinv. destruct e as [now o]. destruct o; cbn [step snd fst mbind option_bind].
  - eexists. split; [done|]. by apply inv_grow, check_inv.
  - by apply record_failure_inv.
  - eexists. split; [done|]. by apply inv_grow, success_inv.
  - eexists. split; [done|]. apply inv_grow. unfold record_success_local. case_match; [by apply clear_contract_inv|done].
  - eexists. split; [done|]. apply inv_grow. unfold invalidate_payload_memo. case_match eqn:Hk; [|done].
    eapply contract_entry_inv; [done| |done|].
    + apply BM.set_entry_wf; [by rewrite Hk|apply Hinv].
    + destruct (inv_contract _ _ _ Hinv _ _ Hk). split; [done|]. by intros ? ? ?%elem_of_nil.
  - eexists. split; [done|]. by apply inv_grow, cleanup_inv.
Qed.

Lemma run_inv_backoff max es :
  0 <= max <= usize_max -> Forall event_ok es ->
  exists b, run (with_max max) es = Some b /\ inv max es b.
Proof.
  intros Hm. unfold run. induction es as [|e es IH] using rev_ind.
  - intros _. eexists. split; [done|]. split; simpl; [done|by apply BM.wf_empty|by apply BM.wf_empty|apply map_Forall_empty|apply map_Forall_empty].
  - intros [Hes He]%Forall_app. destruct (IH Hes) as (b & Hb & Hinv). rewrite foldl_app, Hb.
    rewrite Forall_singleton in He. cbn [foldl]. exact (step_inv_backoff max es e b He Hinv).
Qed.

(** ** A failed payload is remembered *)

(** The memo of [c] holds [h], failed at [t], with at most [n] payloads after it. *)
Definition remembers (c : C) (h : Z) (t : Instant) (n : nat) (m : gmap C ContractState) : Prop :=
  exists cs l1 l2, m !! c = Some cs /\ failed_payloads cs = l1 ++ (h, t) :: l2 /\ (length l2 <= n)%nat.

Definition failures_of (c : C) (e : Instant * op) : nat :=
  match e.2 with Failure c' _ _ _ _ => if decide (c' = c) then 1 else 0 | _ => 0 end.

(** The state of [c] advanced, or its memo was dropped. *)
Definition clears (c : C) (e : Instant * op) : bool :=
  match e.2 with
  | SuccessFrom c' _ true | SuccessLocal c' true | InvalidateMemo c' => bool_decide (c' = c)
  | _ => false
  end.

Lemma memoize_keeps h' now cs l1 h t l2 :
  Z.max 0 (now - t) <= FAILED_PAYLOAD_TTL -> failed_payloads cs = l1 ++ (h, t) :: l2 ->
  (length l2 < 31)%nat ->
  exists l1' l2', failed_payloads (memoize h' now cs) = l1' ++ (h, t) :: l2' /\ (length l2' <= S (length l2))%nat.
Proof.
  intros Ht Hl Hlen. destruct (prune_fresh now l1 h t l2 Ht) as (l1' & Hp). rewrite <- Hl in Hp.
  unfold memoize. destruct (memoized h' (prune_payloads now cs)).
  { exists l1', l2. split; [exact Hp|lia]. }
  cbn [failed_payloads prune_payloads]. rewrite Hp.
  destruct (MAX_FAILED_PAYLOADS_PER_CONTRACT <=? length (l1' ++ (h, t) :: l2))%nat eqn:Hfull.
  - apply Nat.leb_le in Hfull. rewrite length_app in Hfull. cbn [length] in Hfull.
    unfold MAX_FAILED_PAYLOADS_PER_CONTRACT in Hfull.
    destruct l1' as [|x l1']; cbn [length tail app] in *; [lia|]. exists l1', (l2 ++ [(h', now)]).
    rewrite <- app_assoc. split; [done|]. rewrite length_app. cbn [length]. lia.
  - exists l1', (l2 ++ [(h', now)]). rewrite <- app_assoc. split; [done|]. rewrite length_app. cbn [length]. lia.
Qed.

Lemma prune_remembers now c h t n m cs :
  Z.max 0 (now - t) <= FAILED_PAYLOAD_TTL -> m !! c = Some cs -> remembers c h t n m ->
  exists l1 l2, failed_payloads (prune_payloads now cs) = l1 ++ (h, t) :: l2 /\ (length l2 <= n)%nat.
Proof.
  intros Ht Hc (cs' & l1 & l2 & Hc' & Hl & Hn). simplify_eq. unfold prune_payloads. simpl. rewrite Hl.
  destruct (prune_fresh now l1 h t l2 Ht) as (l1' & ->). by exists l1', l2.
Qed.

Lemma check_remembers now c h t n c' s h' b :
  Z.max 0 (now - t) <= FAILED_PAYLOAD_TTL -> remembers c h t n (BM.entries (contract b)) ->
  remembers c h t n (BM.entries (contract (check now c' s h' b).1)).
Proof.
  intros Ht Hr. unfold check.
  destruct (BM.entries (contract b) !! c') as [cs|] eqn:Hk; [|by case_match].
  assert (Hgoal : remembers c h t n (<[c' := prune_payloads now cs]> (BM.entries (contract b)))).
  { destruct (decide (c' = c)) as [-> | Hne].
    - destruct (prune_remembers now c h t n _ cs Ht Hk Hr) as (l1 & l2 & ? & ?).
      eexists _, l1, l2. split; [apply lookup_insert_eq|done].
    - destruct Hr as (cs' & l1 & l2 & ? & ?). exists cs', l1, l2. by rewrite lookup_insert_ne. }
  by repeat case_match.
Qed.

(** The per-sender half of [record_failure] does not touch the contract side. *)
Lemma record_invalid_contract j now c s (class : MergeFailureClass) b b1 :
  match class with Invalid => record_invalid_sender j now c s b | Timeout => Some b end = Some b1 ->
  contract b1 = contract b.
Proof.
  destruct class; [|by intros [= ->]]. unfold record_invalid_sender. intros H1.
  repeat case_match; simplify_eq/=; try done; (destruct (record j Invalid now _); [|done]); by simplify_eq/=.
Qed.

Lemma failure_remembers j now c h t n c' s class h' b b' :
  Z.max 0 (now - t) <= FAILED_PAYLOAD_TTL -> (n + (if decide (c' = c) then 1 else 0) <= 31)%nat ->
  remembers c h t n (BM.entries (contract b)) -> record_failure j now c' s class h' b = Some b' ->
  remembers c h t (n + (if decide (c' = c) then 1 else 0)) (BM.entries (contract b')).
Proof.
  intros Ht Hn Hr Hf. unfold record_failure in Hf.
  destruct (match class with Invalid => _ | Timeout => _ end) as [b1|] eqn:H1; [|done].
  rewrite <- (record_invalid_contract _ _ _ _ _ _ _ H1) in Hr. clear H1. cbn [mbind option_bind] in Hf. unfold with_contract_entry in Hf.
  case_decide as Hc.
  - subst c'. destruct Hr as (cs & l1 & l2 & Hk & Hl & Hlen). rewrite Hk in Hf.
    destruct (touch_contract j now class h' cs) as [cs'|] eqn:Htc; [|done]. simplify_eq/=.
    unfold touch_contract in Htc. destruct (match class with Invalid => _ | Timeout => _ end) as [t'|]; [|done].
    simplify_eq/=. destruct (memoize_keeps h' now (mkContract t' (failed_payloads cs) now) l1 h t l2) as (l1' & l2' & ? & ?);
      [done|done|lia|]. eexists _, l1', l2'. split; [apply lookup_insert_eq|]. split; [done|lia].
  - rewrite Nat.add_0_r. destruct Hr as (cs & l1 & l2 & Hk & Hl & Hlen). exists cs, l1, l2. split; [|done].
    repeat case_match; simplify_eq/=.
    + destruct (touch_contract j now class h' _); [|done]. simplify_eq/=. by rewrite lookup_insert_ne.
    + by rewrite BM.reserve_insert_other.
    + destruct (touch_contract j now class h' _); [|done]. simplify_eq/=. by rewrite BM.reserve_insert_other.
Qed.

Lemma cleanup_remembers now c h t n b :
  Z.max 0 (now - t) <= FAILED_PAYLOAD_TTL -> remembers c h t n (BM.entries (contract b)) ->
  remembers c h t n (BM.entries (contract (cleanup_expired now b))).
Proof.
  intros Ht Hr. pose proof Hr as (cs & _ & _ & Hk & _). simpl.
  destruct (prune_remembers now c h t n _ cs Ht Hk Hr) as (l1 & l2 & Hl & Hlen).
  exists (prune_payloads now cs), l1, l2. split; [|done]. rewrite map_lookup_imap, Hk. simpl in *. rewrite Hl.
  rewrite bool_decide_eq_false_2; [by rewrite andb_false_r|]. by destruct l1.
Qed.

Lemma step_remembers c h t n e b b' :
  Z.max 0 (e.1 - t) <= FAILED_PAYLOAD_TTL -> clears c e = false -> (n + failures_of c e <= 31)%nat ->
  remembers c h t n (BM.entries (contract b)) -> step (Some b) e = Some b' ->
  remembers c h t (n + failures_of c e) (BM.entries (contract b')).
Proof.
  intros Ht Hcl Hn Hr Hs. destruct e as [now o]. unfold failures_of, clears in *.
  assert (Hclear : forall c' b0, BM.entries (contract b0) = BM.entries (contract b) -> c' <> c ->
    remembers c h t n (BM.entries (contract (clear_contract_side c' b0)))).
  { intros c' b0 Hb0 Hne. destruct Hr as (cs & l1 & l2 & Hk & ?). exists cs, l1, l2. split; [|done]. simpl.
    by rewrite BM.remove_other, Hb0. }
  destruct o as [c' s h'|c' s cl h' j|c' s ch|c' ch|c'|]; cbn [step mbind option_bind fst snd] in *;
    rewrite ?Nat.add_0_r.
  - simplify_eq. by apply check_remembers.
  - by eapply failure_remembers.
  - simplify_eq. unfold record_success_from_sender. destruct ch; [|done]. apply Hclear; [done|]. by to_props.
  - simplify_eq. unfold record_success_local. destruct ch; [|done]. apply Hclear; [done|]. by to_props.
  - simplify_eq. to_props. unfold invalidate_payload_memo. case_match; [|done]. simpl.
    destruct Hr as (cs & l1 & l2 & Hk & ?). exists cs, l1, l2. by rewrite lookup_insert_ne.
  - simplify_eq. by apply cleanup_remembers.
Qed.

Lemma run_remembers max c h t n now es before b b' :
  Forall event_ok es -> inv max before b -> clock_monotone now es = true -> t <= now ->
  clock_end now es - t <= FAILED_PAYLOAD_TTL -> Forall (fun e => clears c e = false) es ->
  (n + sum_list_with (failures_of c) es <= 31)%nat ->
  remembers c h t n (BM.entries (contract b)) -> run b es = Some b' ->
  remembers c h t (n + sum_list_with (failures_of c) es) (BM.entries (contract b')).
Proof.
  unfold run. revert now n before b. induction es as [|e es IH]; intros now n before b Hok Hinv Hm Ht Hend Hcl Hn Hr Hrun;
    cbn [foldl sum_list_with clock_monotone clock_end] in *.
  - simplify_eq. by rewrite Nat.add_0_r.
  - apply Forall_cons in Hok as [He Hok]. apply Forall_cons in Hcl as [Hce Hcl]. to_props.
    destruct (step_inv_backoff max before e b He Hinv) as (b1 & Hs & Hinv1). rewrite Hs in Hrun.
    pose proof (clock_end_le e.1 es ltac:(done)). rewrite Nat.add_assoc.
    apply (IH e.1 (n + failures_of c e)%nat (before ++ [e]) b1); try done; [lia|lia|].
    apply (step_remembers c h t n e b b1); try done; [lia|lia].
Qed.

Lemma allowed_not_memoized now c s h b cs :
  (check now c s h b).2 = Allow -> BM.entries (contract (check now c s h b).1) !! c = Some cs -> memoized h cs = false.
Proof.
  unfold check. destruct (BM.entries (contract b) !! c) as [cs0|] eqn:Hk; [|repeat case_match; simpl; congruence].
  destruct (memoized h (prune_payloads now cs0)) eqn:Hmz; [done|].
  intros _ Hc. repeat case_match; simpl in Hc; rewrite lookup_insert_eq in Hc; by simplify_eq.
Qed.

Lemma touch_memoizes j now class h cs cs' :
  memoized h cs = false -> touch_contract j now class h cs = Some cs' ->
  exists l, failed_payloads cs' = l ++ [(h, now)].
Proof.
  intros Hm Ht. unfold touch_contract in Ht.
  destruct (match class with Invalid => _ | Timeout => _ end) as [t'|]; [|done]. simplify_eq/=.
  unfold memoize. destruct (memoized h (prune_payloads now _)) eqn:Hp; [|by eexists].
  apply memoized_iff in Hp as (t & Hin%prune_elem). simpl in Hin.
  assert (memoized h cs = true) by (apply memoized_iff; eauto). congruence.
Qed.

Lemma failure_memoizes j now c s class h b b1 :
  record_failure j now c s class h b = Some b1 -> is_Some (BM.entries (contract b1) !! c) ->
  (forall cs, BM.entries (contract b) !! c = Some cs -> memoized h cs = false) ->
  remembers c h now 0 (BM.entries (contract b1)).
Proof.
  intros Hf [cs1 Hs] Hm. unfold record_failure in Hf.
  destruct (match class with Invalid => _ | Timeout => _ end) as [b0|] eqn:H1; [|done].
  rewrite <- (record_invalid_contract _ _ _ _ _ _ _ H1) in Hm. clear H1. cbn [mbind option_bind] in Hf.
  unfold with_contract_entry in Hf.
  assert (Hnew : forall cs0 cs', memoized h cs0 = false -> touch_contract j now class h cs0 = Some cs' ->
    BM.entries (contract b1) !! c = Some cs' -> remembers c h now 0 (BM.entries (contract b1))).
  { intros cs0 cs' Hmz Ht Hk. destruct (touch_memoizes _ _ _ _ _ _ Hmz Ht) as (l & Hl). by exists cs', l, []. }
  destruct (BM.entries (contract b0) !! c) as [cs|] eqn:Hk.
  - destruct (touch_contract j now class h cs) as [cs'|] eqn:Htc; [|done]. simplify_eq/=.
    eapply Hnew; [by apply Hm|done|apply lookup_insert_eq].
  - unfold BM.reserve_insert in Hf. destruct (max_tracked b0 <=? BM.count (contract b0)) eqn:Hfull; simplify_eq/=.
    destruct (touch_contract j now class h (contract_state now)) as [cs'|] eqn:Htc; [|done]. simplify_eq/=.
    eapply Hnew; [|done|apply lookup_insert_eq]. done.
Qed.

(** ** Properties *)

(** C30: one sender cannot silence a contract for the others.  Whatever was recorded
    before, a delta is executed when its sender has had fewer than three invalid
    merges for that contract, no merge of that contract timed out, and this very
    payload never failed: the invalid merges of other senders, however many, and the
    state of the bounded maps do not matter.  The cooldown arithmetic never
    panics. *)
Theorem honest_sender_unaffected max es now c s h :
  0 <= max <= usize_max -> Forall event_ok es ->
  invalid_count es c s < INVALID_TRIP_THRESHOLD ->
  (forall s' h' t, ~ failed_at es c s' Timeout h' t) ->
  (forall s' class t, ~ failed_at es c s' class h t) ->
  exists b, run (with_max max) es = Some b /\ (check now c s h b).2 = Allow.
Proof.
  intros Hm Hes Hcnt Hto Hpay. destruct (run_inv_backoff max es Hm Hes) as (b & Hb & Hinv).
  exists b. split; [done|]. unfold check.
  assert (Hs : match BM.entries (invalid_by_sender b) !! (c, s) with
    | Some cd => suppressing Invalid now cd | None => false end = false).
  { destruct (BM.entries (invalid_by_sender b) !! (c, s)) as [cd|] eqn:Hk; [|done].
    destruct (inv_invalid _ _ _ Hinv _ _ Hk) as [Hc _]. unfold suppressing, tripped. simpl in *.
    rewrite (proj2 (Z.leb_gt _ _)); [done|lia]. }
  rewrite Hs. destruct (BM.entries (contract b) !! c) as [cs|] eqn:Hk; [|done].
  destruct (inv_contract _ _ _ Hinv _ _ Hk) as [Ht Hmemo].
  destruct (memoized h (prune_payloads now cs)) eqn:Hmz.
  { apply memoized_iff in Hmz as (t & Hin%prune_elem). destruct (Hmemo _ _ Hin) as (s' & cl & Hf).
    by destruct (Hpay s' cl t). }
  destruct Ht as [H0 | (t & s' & h' & Hf & _)]; [|by destruct (Hto s' h' t)].
  unfold suppressing, tripped, prune_payloads. simpl. by rewrite H0.
Qed.

(** Suppression always ends: once nothing failed for a contract during 8640
    seconds (1.2 times the longest cap), every sender's deltas for it are executed
    again, also the payloads that failed before. *)
Lemma suppression_ends max es now c s h :
  0 <= max <= usize_max -> Forall event_ok es ->
  (forall s' class h' t, failed_at es c s' class h' t -> t + max_cooldown Timeout <= now) ->
  exists b, run (with_max max) es = Some b /\ (check now c s h b).2 = Allow.
Proof.
  intros Hm Hes Hold. destruct (run_inv_backoff max es Hm Hes) as (b & Hb & Hinv).
  exists b. split; [done|]. unfold check.
  assert (Hs : match BM.entries (invalid_by_sender b) !! (c, s) with
    | Some cd => suppressing Invalid now cd | None => false end = false).
  { destruct (BM.entries (invalid_by_sender b) !! (c, s)) as [cd|] eqn:Hk; [|done].
    destruct (inv_invalid _ _ _ Hinv _ _ Hk) as [_ (t & h' & Hf & Hn)]. simpl in *. apply Hold in Hf.
    unfold suppressing. rewrite (proj2 (Z.ltb_ge now _)); [by rewrite andb_false_r|].
    unfold from_secs, nanos_per_sec in *. lia. }
  rewrite Hs. destruct (BM.entries (contract b) !! c) as [cs|] eqn:Hk; [|done].
  destruct (inv_contract _ _ _ Hinv _ _ Hk) as [Ht Hmemo].
  assert (Hp : prune now (failed_payloads cs) = []).
  { apply prune_all, Forall_forall. intros [h' t] Hin. destruct (Hmemo _ _ Hin) as (s' & cl & Hf%Hold).
    simpl in *. unfold FAILED_PAYLOAD_TTL, from_secs, nanos_per_sec in *. lia. }
  unfold memoized, prune_payloads. simpl. rewrite Hp. simpl.
  destruct Ht as [H0 | (t & s' & h' & Hf%Hold & Hn)]; unfold suppressing, tripped; simpl.
  - by rewrite H0.
  - rewrite (proj2 (Z.ltb_ge now _)); [by rewrite andb_false_r|lia].
Qed.

(** A payload that was executed and failed is not executed again, for any sender:
    from the failure on, and as long as the contract's state does not advance, the
    memo is not dropped, at most 31 more merges of that contract fail and the ten
    minutes are not over, every check of the same payload is answered
    [KnownFailedPayload], across clean-ups and checks of any contract. *)
Theorem poison_payload_skipped max before now c s class h j b b1 after b2 later s' :
  0 <= max <= usize_max -> Forall event_ok (before ++ after) -> F64Round.jitter_ok j ->
  run (with_max max) before = Some b -> (check now c s h b).2 = Allow ->
  record_failure j now c s class h (check now c s h b).1 = Some b1 ->
  is_Some (BM.entries (contract b1) !! c) ->
  run b1 after = Some b2 -> clock_monotone now after = true -> clock_end now after <= later ->
  later - now <= FAILED_PAYLOAD_TTL -> Forall (fun e => clears c e = false) after ->
  (sum_list_with (failures_of c) after <= 31)%nat ->
  (check later c s' h b2).2 = KnownFailedPayload.
Proof.
  intros Hm [Hbefore Hafter]%Forall_app Hj Hrun Hallow Hf Hsome Hrun2 Hmono Hend Httl Hcl Hn.
  destruct (run_inv_backoff max before Hm Hbefore) as (b' & Hrun' & Hinv).
  rewrite Hrun in Hrun'. injection Hrun' as <-.
  destruct (record_failure_inv max before j now c s class h (check now c s h b).1 Hj (check_inv _ _ _ _ _ _ _ Hinv))
    as (b1' & Hf' & Hinv1). rewrite Hf in Hf'. injection Hf' as <-.
  assert (Hr : remembers c h now 0 (BM.entries (contract b1))).
  { eapply failure_memoizes; [exact Hf|done|]. intros cs. by apply allowed_not_memoized. }
  destruct (run_remembers max c h now 0 now after _ b1 b2 Hafter Hinv1 Hmono ltac:(lia) ltac:(lia) Hcl Hn Hr Hrun2)
    as (cs & l1 & l2 & Hk & Hl & _).
  unfold check. rewrite Hk.
  pose proof (clock_end_le now after Hmono).
  destruct (prune_fresh later l1 h now l2) as (l1' & Hp); [lia|].
  rewrite (proj2 (memoized_iff h (prune_payloads later cs))); [done|].
  exists now. simpl. rewrite Hl, Hp. apply elem_of_app. right. by left.
Qed.

End backoff.

(** ** A concrete run *)

Definition no_jitter : f64 := f64_one.

(** Sender 1 sends four different bad deltas for contract 9, spaced out. *)
Definition demo_attack : list (Z * op (C:=nat) (P:=nat)) :=
  [(0, Failure 9%nat 1%nat Invalid 100 no_jitter); (1, Failure 9%nat 1%nat Invalid 101 no_jitter);
   (2, Failure 9%nat 1%nat Invalid 102 no_jitter); (3, Failure 9%nat 1%nat Invalid 103 no_jitter)].

Lemma demo_attack_ok : Forall event_ok demo_attack.
Proof. repeat (apply Forall_cons_2; [exact F64Round.jitter_ok_one|]). apply Forall_nil_2. Qed.

Lemma demo_failed c s class h t :
  failed_at demo_attack c s class h t -> 0 <= t <= 3 /\ class = Invalid /\ 100 <= h <= 103.
Proof.
  intros (j & Hj). unfold demo_attack in Hj. rewrite !elem_of_cons, elem_of_nil in Hj. naive_solver lia.
Qed.

(** Sender 1 is suppressed, sender 2 is not. *)
Lemma honest_sender_unaffected_witness :
  exists b, run (with_max 8) demo_attack = Some b /\ (check 4 9%nat 2%nat 200 b).2 = Allow.
Proof.
  apply (honest_sender_unaffected 8 demo_attack 4 9%nat 2%nat 200).
  - by vm_compute.
  - exact demo_attack_ok.
  - by vm_compute.
  - intros s' h' t (_ & ? & _)%demo_failed. done.
  - intros s' class t (_ & _ & ?)%demo_failed. lia.
Defined.

Example bad_sender_suppressed :
  match run (with_max 8) demo_attack with
  | Some b => (check 4 9%nat 1%nat 200 b).2 = InBackoff
  | None => False
  end.
Proof. by vm_compute. Qed.

Lemma suppression_ends_witness :
  exists b, run (with_max 8) demo_attack = Some b /\ (check (from_secs 8641) 9%nat 1%nat 100 b).2 = Allow.
Proof.
  apply (suppression_ends 8 demo_attack (from_secs 8641) 9%nat 1%nat 100).
  - by vm_compute.
  - exact demo_attack_ok.
  - intros s' class h' t (? & _)%demo_failed. unfold max_cooldown, from_secs, nanos_per_sec. lia.
Defined.

Lemma poison_payload_skipped_witness :
  exists b b1 b2, run (with_max 8) (take 3 demo_attack) = Some b /\
    record_failure no_jitter 3 9%nat 3%nat Invalid 103 (check 3 9%nat 3%nat 103 b).1 = Some b1 /\
    run b1 [(from_secs 500, Cleanup)] = Some b2 /\
    (check (from_secs 600) 9%nat 2%nat 103 b2).2 = KnownFailedPayload.
Proof.
  destruct (run (with_max 8) (take 3 demo_attack)) as [b|] eqn:Hb; [|by vm_compute in Hb].
  destruct (record_failure no_jitter 3 9%nat 3%nat Invalid 103 (check 3 9%nat 3%nat 103 b).1) as [b1|] eqn:Hb1.
  2: { vm_compute in Hb. injection Hb as <-. by vm_compute in Hb1. }
  destruct (run b1 [(from_secs 500, Cleanup)]) as [b2|] eqn:Hb2; [|done].
  exists b, b1, b2. split; [done|]. split; [done|]. split; [done|].
  apply (poison_payload_skipped 8 (take 3 demo_attack) 3 9%nat 3%nat Invalid 103 no_jitter b b1
      [(from_secs 500, Cleanup)] b2 (from_secs 600) 2%nat).
  - clear. by vm_compute.
  - repeat (apply Forall_cons_2; [exact F64Round.jitter_ok_one || exact Logic.I|]). apply Forall_nil_2.
  - exact F64Round.jitter_ok_one.
  - exact Hb.
  - vm_compute in Hb. injection Hb as <-. by vm_compute.
  - exact Hb1.
  - vm_compute in Hb. injection Hb as <-. vm_compute in Hb1. injection Hb1 as <-. vm_compute. by eexists.
  - exact Hb2.
  - clear. by vm_compute.
  - clear. by vm_compute.
  - clear. by vm_compute.
  - apply Forall_singleton. by vm_compute.
  - vm_compute. lia.
Defined.

End MergeBackoff.
