(* ===== verification/RequestRouter.v ===== *)
(** * The request router: deduplication of client requests

    Models [src/crates/core/src/node/request_router.rs].  Identical client requests
    share one network operation: the router keeps a map from resources to the
    transaction that fetches them, its inverse, and the clients that wait.

    Keys, contracts and update data belong to [freenet-stdlib]: they are type
    parameters.  A new transaction id comes from a generator in another module: it
    is an argument of the call that draws it.

    The first part gives each call as a whole; the second runs the calls step by
    step under an arbitrary schedule.  In the second, a [DashMap] entry guards its
    key until it is dropped: a vacant entry is consumed by its [insert], so that its
    guard ends there, an occupied one lives to the end of the arm. *)

From S2P Require Import Prelude.

Module RequestRouter.

Section requests.
Context {InstanceId ContractKey Container Related State UpdateData : Type}.

Inductive RequestResource :=
| GetResource (key : InstanceId) (return_contract_code subscribe : bool)
| PutResource (key : ContractKey) (contract : Container) (related : Related) (state : State) (subscribe : bool)
| SubscribeResource (key : InstanceId)
| UpdateResource (key : ContractKey) (data : UpdateData) (related : Related).

Context {ClientId RequestId : Type}.

Inductive DeduplicatedRequest :=
| Get (key : InstanceId) (return_contract_code subscribe blocking_subscribe : bool)
    (client_id : ClientId) (request_id : RequestId)
| Put (key : ContractKey) (contract : Container) (related : Related) (state : State)
    (subscribe blocking_subscribe : bool) (client_id : ClientId) (request_id : RequestId)
| Subscribe (key : InstanceId) (client_id : ClientId) (request_id : RequestId)
| Update (key : ContractKey) (data : UpdateData) (related : Related)
    (client_id : ClientId) (request_id : RequestId).

Definition resource (r : DeduplicatedRequest) : RequestResource :=
  match r with
  | Get key code sub _ _ _ => GetResource key code sub
  | Put key contract related state sub _ _ _ => PutResource key contract related state sub
  | Subscribe key _ _ => SubscribeResource key
  | Update key data related _ _ => UpdateResource key data related
  end.

Definition client_info (r : DeduplicatedRequest) : ClientId * RequestId :=
  match r with
  | Get _ _ _ _ c q | Put _ _ _ _ _ _ c q | Subscribe _ c q | Update _ _ _ c q => (c, q)
  end.

End requests.

Arguments RequestResource : clear implicits.
Arguments DeduplicatedRequest : clear implicits.

Section resources.
Context {InstanceId ContractKey Container Related State UpdateData : Type}.

Abbreviation Res := (RequestResource InstanceId ContractKey Container Related State UpdateData).
Abbreviation Rep := (InstanceId * bool * bool + ContractKey * Container * Related * State * bool
                     + (InstanceId + ContractKey * UpdateData * Related))%type.

Definition to_rep (r : Res) : Rep :=
  match r with
  | GetResource k c s => inl (inl (k, c, s))
  | PutResource k c rel st s => inl (inr (k, c, rel, st, s))
  | SubscribeResource k => inr (inl k)
  | UpdateResource k d rel => inr (inr (k, d, rel))
  end.

Definition of_rep (x : Rep) : Res :=
  match x with
  | inl (inl (k, c, s)) => GetResource k c s
  | inl (inr (k, c, rel, st, s)) => PutResource k c rel st s
  | inr (inl k) => SubscribeResource k
  | inr (inr (k, d, rel)) => UpdateResource k d rel
  end.

Lemma of_to_rep r : of_rep (to_rep r) = r.
Proof. by destruct r. Qed.

Context `{Countable InstanceId, Countable ContractKey, Countable Container, Countable Related,
          Countable State, Countable UpdateData}.

#[export] Instance resource_eq_dec : EqDecision Res.
Proof. solve_decision. Defined.

#[export] Instance resource_countable : Countable Res := inj_countable' to_rep of_rep of_to_rep.

End resources.

Section router.
(** Resources, transactions, and the clients with their request ids. *)
Context {R Tx W : Type} `{eqR : EqDecision R, cntR : !Countable R, eqT : EqDecision Tx, cntT : !Countable Tx}.

Record RequestRoutingState := mkState {
  resource_to_transaction : gmap R Tx;
  transaction_to_resource : gmap Tx R;
  transaction_waiters : gmap Tx (list W);
}.

Definition new : RequestRoutingState := mkState ∅ ∅ ∅.

(** The three insertions that start an operation. *)
Definition start_operation (r : R) (client : W) (new_tx : Tx) (st : RequestRoutingState) : RequestRoutingState :=
  mkState (<[r := new_tx]> (resource_to_transaction st)) (<[new_tx := r]> (transaction_to_resource st))
    (<[new_tx := [client]]> (transaction_waiters st)).

Definition add_waiter (tx : Tx) (client : W) (st : RequestRoutingState) : RequestRoutingState :=
  mkState (resource_to_transaction st) (transaction_to_resource st)
    (<[tx := default [] (transaction_waiters st !! tx) ++ [client]]> (transaction_waiters st)).

(** The transaction to wait for, and whether the caller must start it. *)
Definition route_request (r : R) (client : W) (new_tx : Tx) (st : RequestRoutingState)
    : RequestRoutingState * (Tx * bool) :=
  match resource_to_transaction st !! r with
  | Some existing_tx =>
      if bool_decide (is_Some (transaction_to_resource st !! existing_tx))
      then (add_waiter existing_tx client st, (existing_tx, false))
      else (start_operation r client new_tx st, (new_tx, true))
  | None => (start_operation r client new_tx st, (new_tx, true))
  end.

Definition complete_operation (tx : Tx) (st : RequestRoutingState) : RequestRoutingState :=
  let st := match transaction_to_resource st !! tx with
            | Some r => mkState (delete r (resource_to_transaction st)) (delete tx (transaction_to_resource st))
                          (transaction_waiters st)
            | None => st
            end in
  mkState (resource_to_transaction st) (transaction_to_resource st) (delete tx (transaction_waiters st)).

(** ** Interleaved calls *)

Inductive call :=
| Route (r : R) (client : W) (new_tx : Tx)
| Complete (tx : Tx).

(** Where a call stands.  [Occupied tx] and [Vacant] hold the entry of the
    resource, as do [Join], [Replace], [Reverse true] and [Waiters true]. *)
Inductive pc :=
| Start
| Occupied (tx : Tx)
| Vacant
| Join (tx : Tx)
| Replace
| Reverse (held : bool)
| Waiters (held : bool)
| Forward (r : R)
| DropWaiters
| Done (result : option (Tx * bool)).

Record world := mkWorld {
  state : RequestRoutingState;
  guards : gset R;
  threads : list (call * pc);
}.

Definition set_r2t (m : gmap R Tx) (st : RequestRoutingState) : RequestRoutingState :=
  mkState m (transaction_to_resource st) (transaction_waiters st).
Definition set_t2r (m : gmap Tx R) (st : RequestRoutingState) : RequestRoutingState :=
  mkState (resource_to_transaction st) m (transaction_waiters st).
Definition set_waiters (m : gmap Tx (list W)) (st : RequestRoutingState) : RequestRoutingState :=
  mkState (resource_to_transaction st) (transaction_to_resource st) m.

Definition call_step (c : call) (p : pc) (st : RequestRoutingState) (g : gset R) : pc * RequestRoutingState * gset R :=
  match c, p with
  | Route r client new_tx, Start =>
      if decide (r ∈ g) then (p, st, g)
      else match resource_to_transaction st !! r with
           | Some tx => (Occupied tx, st, {[r]} ∪ g)
           | None => (Vacant, st, {[r]} ∪ g)
           end
  | Route r client new_tx, Vacant =>
      (Reverse false, set_r2t (<[r := new_tx]> (resource_to_transaction st)) st, g ∖ {[r]})
  | Route r client new_tx, Occupied tx =>
      (if bool_decide (is_Some (transaction_to_resource st !! tx)) then Join tx else Replace, st, g)
  | Route r client new_tx, Join tx =>
      (Done (Some (tx, false)), add_waiter tx client st, g ∖ {[r]})
  | Route r client new_tx, Replace =>
      (Reverse true, set_r2t (<[r := new_tx]> (resource_to_transaction st)) st, g)
  | Route r client new_tx, Reverse held =>
      (Waiters held, set_t2r (<[new_tx := r]> (transaction_to_resource st)) st, g)
  | Route r client new_tx, Waiters held =>
      (Done (Some (new_tx, true)), set_waiters (<[new_tx := [client]]> (transaction_waiters st)) st,
       if held then g ∖ {[r]} else g)
  | Complete tx, Start =>
      match transaction_to_resource st !! tx with
      | Some r => (Forward r, set_t2r (delete tx (transaction_to_resource st)) st, g)
      | None => (DropWaiters, st, g)
      end
  | Complete tx, Forward r =>
      if decide (r ∈ g) then (p, st, g)
      else (DropWaiters, set_r2t (delete r (resource_to_transaction st)) st, g)
  | Complete tx, DropWaiters => (Done None, set_waiters (delete tx (transaction_waiters st)) st, g)
  | _, _ => (p, st, g)
  end.

Definition step (w : world) (i : nat) : world :=
  match threads w !! i with
  | Some (c, p) =>
      let '(p', st', g') := call_step c p (state w) (guards w) in
      mkWorld st' g' (<[i := (c, p')]> (threads w))
  | None => w
  end.

Definition run (w : world) (schedule : list nat) : world := foldl step w schedule.

Definition spawn (st : RequestRoutingState) (cs : list call) : world :=
  mkWorld st ∅ (map (fun c => (c, Start)) cs).

(** One call at a time. *)
Definition apply_call (st : RequestRoutingState) (c : call) : RequestRoutingState * option (Tx * bool) :=
  match c with
  | Route r client new_tx => let '(st, x) := route_request r client new_tx st in (st, Some x)
  | Complete tx => (complete_operation tx st, None)
  end.

(** The state after a sequence of calls, and their answers. *)
Fixpoint apply_calls (st : RequestRoutingState) (cs : list call) : RequestRoutingState * list (option (Tx * bool)) :=
  match cs with
  | [] => (st, [])
  | c :: cs => let '(st, x) := apply_call st c in let '(st, xs) := apply_calls st cs in (st, x :: xs)
  end.

(** ** The contract of the router *)

(** For each resource with an operation in progress, its transaction and the
    clients waiting for it. *)
Abbreviation spec := (gmap R (Tx * list W)).

Definition spec_call (s : spec) (c : call) : spec * option (Tx * bool) :=
  match c with
  | Route r client new_tx =>
      match s !! r with
      | Some (tx, ws) => (<[r := (tx, ws ++ [client])]> s, Some (tx, false))
      | None => (<[r := (new_tx, [client])]> s, Some (new_tx, true))
      end
  | Complete tx => (filter (fun x => x.2.1 <> tx) s, None)
  end.

Fixpoint spec_calls (s : spec) (cs : list call) : spec * list (option (Tx * bool)) :=
  match cs with
  | [] => (s, [])
  | c :: cs => let '(s, x) := spec_call s c in let '(s, xs) := spec_calls s cs in (s, x :: xs)
  end.

(** The transactions a sequence of calls draws. *)
Definition drawn (cs : list call) : list Tx :=
  omap (fun c => match c with Route _ _ tx => Some tx | Complete _ => None end) cs.

(** The maps are inverse to each other and hold what the specification says. *)
Record simulates (s : spec) (st : RequestRoutingState) : Prop := {
  sim_inverse : forall r tx, resource_to_transaction st !! r = Some tx <-> transaction_to_resource st !! tx = Some r;
  sim_waiters : forall tx, is_Some (transaction_waiters st !! tx) <-> is_Some (transaction_to_resource st !! tx);
  sim_spec : forall r tx ws, s !! r = Some (tx, ws) <->
    resource_to_transaction st !! r = Some tx /\ transaction_waiters st !! tx = Some ws;
}.

Lemma simulates_new : simulates ∅ new.
Proof. split; intros; simpl; rewrite ?lookup_empty; naive_solver. Qed.

Lemma spec_lookup s st r tx :
  simulates s st -> resource_to_transaction st !! r = Some tx -> exists ws, s !! r = Some (tx, ws).
Proof.
  intros [Hi Hw Hs] Hr. destruct (proj2 (Hw tx)) as [ws Hws]; [rewrite (proj1 (Hi r tx) Hr); by eexists|].
  exists ws. by apply Hs.
Qed.

Lemma spec_lookup_None s st r :
  simulates s st -> resource_to_transaction st !! r = None <-> s !! r = None.
Proof.
  intros Hsim. split; intros Hn.
  - destruct (s !! r) as [[tx ws]|] eqn:E; [|done]. apply (sim_spec _ _ Hsim) in E as [E _]. congruence.
  - destruct (resource_to_transaction st !! r) as [tx|] eqn:E; [|done].
    destruct (spec_lookup s st r tx Hsim E). congruence.
Qed.

Lemma start_simulates s st r client tx :
  simulates s st -> transaction_to_resource st !! tx = None -> resource_to_transaction st !! r = None ->
  simulates (<[r := (tx, [client])]> s) (start_operation r client tx st).
Proof.
  intros Hsim Htx Hr. destruct Hsim as [Hi Hw Hs]. unfold start_operation. split; simpl.
  - intros r' tx'. rewrite !lookup_insert_Some. split; intros [[? ?] | [Hne H1]]; subst; [by left| |by left|].
    + right. split; [|by apply Hi]. intros ->. apply Hi in H1. congruence.
    + right. split; [|by apply Hi]. intros ->. apply Hi in H1. congruence.
  - intros tx'. rewrite !lookup_insert_is_Some. naive_solver.
  - intros r' tx' ws. rewrite !lookup_insert_Some. split.
    + intros [[-> [= -> ->]] | [Hne [H1 H2]%Hs]]; [split; by left|]. split; [by right|]. right. split; [|done].
      intros ->. apply Hi in H1. congruence.
    + intros [[[-> ->] | [Hne H1]] [[? ?] | [Hne' H2]]]; subst; [by left|done| |right; split; [done|by apply Hs]].
      apply Hi in H1. congruence.
Qed.

Lemma join_simulates s st r client tx ws :
  simulates s st -> s !! r = Some (tx, ws) ->
  simulates (<[r := (tx, ws ++ [client])]> s) (add_waiter tx client st).
Proof.
  intros Hsim Hr. pose proof (proj1 (sim_spec _ _ Hsim r tx ws) Hr) as [Hr2 Hw2].
  destruct Hsim as [Hi Hw Hs]. unfold add_waiter. rewrite Hw2. simpl. split; simpl; [done| |].
  - intros tx'. rewrite lookup_insert_is_Some, Hw. split.
    + intros [<- | [_ ?]]; [|done]. apply Hi in Hr2. by rewrite Hr2.
    + intros H1. destruct (decide (tx = tx')); [by left|by right].
  - intros r' tx' ws'. rewrite !lookup_insert_Some. split.
    + intros [[<- [= <- <-]] | [Hne [H1 H2]%Hs]]; [split; [done|by left]|]. split; [done|]. right. split; [|done].
      intros <-. apply Hi in H1, Hr2. congruence.
    + intros [H1 [[<- <-] | [Hne H2]]].
      * left. apply Hi in H1, Hr2. split; [congruence|done].
      * right. split; [|by apply Hs]. intros <-. congruence.
Qed.

Lemma complete_simulates s st tx :
  simulates s st -> simulates (filter (fun x => x.2.1 <> tx) s) (complete_operation tx st).
Proof.
  intros [Hi Hw Hs]. unfold complete_operation.
  destruct (transaction_to_resource st !! tx) as [r|] eqn:Htx; split; simpl.
  - intros r' tx'. rewrite !lookup_delete_Some. split; intros [Hne H1]; (split; [|by apply Hi]).
    + intros <-. apply Hi in H1. congruence.
    + intros <-. apply Hi in H1, Htx. congruence.
  - intros tx'. rewrite !lookup_delete_is_Some. by rewrite Hw.
  - intros r' tx' ws. rewrite map_lookup_filter_Some, Hs, !lookup_delete_Some. simpl. split.
    + intros [[H1 H2] Hne]. split_and!; try done. intros <-. apply Hi in Htx. congruence.
    + intros [[Hne H1] [Hne' H2]]. done.
  - done.
  - intros tx'. rewrite lookup_delete_is_Some, Hw. split; [naive_solver|]. intros H1. split; [|done].
    intros <-. rewrite Htx in H1. by destruct H1.
  - intros r' tx' ws. rewrite map_lookup_filter_Some, Hs, !lookup_delete_Some. simpl.
    split; [naive_solver|]. intros [H1 [Hne H2]]. split; [done|]. intros ->. apply Hi in H1. congruence.
Qed.

Lemma call_simulates s st c :
  simulates s st -> (forall tx, tx ∈ drawn [c] -> transaction_to_resource st !! tx = None) ->
  (apply_call st c).2 = (spec_call s c).2 /\ simulates (spec_call s c).1 (apply_call st c).1 /\
  (forall tx, is_Some (transaction_to_resource (apply_call st c).1 !! tx) ->
     tx ∈ drawn [c] \/ is_Some (transaction_to_resource st !! tx)).
Proof.
  intros Hsim Hfresh. destruct c as [r client tx|tx]; simpl in *.
  - specialize (Hfresh tx ltac:(by left)). unfold route_request.
    destruct (resource_to_transaction st !! r) as [tx0|] eqn:Hr.
    + destruct (spec_lookup s st r tx0 Hsim Hr) as (ws & Hs). rewrite Hs.
      rewrite bool_decide_eq_true_2 by (rewrite (proj1 (sim_inverse _ _ Hsim r tx0) Hr); by eexists).
      simpl. split_and!; [done|by apply join_simulates|by right].
    + rewrite (proj1 (spec_lookup_None s st r Hsim) Hr). simpl.
      split_and!; [done|by apply start_simulates|].
      intros tx' [<- | [_ ?]]%lookup_insert_is_Some; [by left; left|by right].
  - split_and!; [done|by apply complete_simulates|]. intros tx' Hs. right. unfold complete_operation in Hs.
    case_match; simpl in Hs; [|done]. by apply lookup_delete_is_Some in Hs as [_ ?].
Qed.

Lemma calls_simulate (cs : list call) s st :
  simulates s st -> (forall tx, tx ∈ drawn cs -> transaction_to_resource st !! tx = None) -> NoDup (drawn cs) ->
  (apply_calls st cs).2 = (spec_calls s cs).2 /\ simulates (spec_calls s cs).1 (apply_calls st cs).1.
Proof.
  revert s st. induction cs as [|c cs IH]; intros s st Hsim Hf Hnd; simpl; [done|].
  assert (Hd : drawn (c :: cs) = drawn [c] ++ drawn cs) by (by destruct c).
  rewrite Hd in *. apply NoDup_app in Hnd as (_ & Hdisj & Hnd).
  destruct (call_simulates s st c Hsim) as (Hx & Hsim' & Hdom).
  { intros tx Hin. apply Hf, elem_of_app. by left. }
  destruct (apply_call st c) as [st' x], (spec_call s c) as [s' x']. simpl in *. subst x'.
  destruct (IH s' st' Hsim') as [Hxs Hend]; [|done|].
  - intros tx Hin. destruct (transaction_to_resource st' !! tx) eqn:E; [|done].
    destruct (Hdom tx) as [Hc | Ho]; [by rewrite E|by destruct (Hdisj tx Hc)|].
    rewrite (Hf tx) in Ho; [by destruct Ho|]. apply elem_of_app. by right.
  - destruct (apply_calls st' cs), (spec_calls s' cs). simpl in *. by subst.
Qed.

(** C33: called one at a time, the router is the table of operations in progress: a
    request joins the operation of its resource if there is one and starts one
    otherwise, and a completed operation is gone, with its clients.  For every
    sequence of calls whose new transactions are distinct, every answer is that of
    the table, and afterwards the three maps hold the table and nothing else: the
    transaction of each resource, the resource of each transaction, and the clients
    that wait for it in the order they came. *)
Theorem router_refines_table (cs : list call) :
  NoDup (drawn cs) ->
  let '(st, answers) := apply_calls new cs in
  let '(table, spec_answers) := spec_calls ∅ cs in
  answers = spec_answers /\
  (forall r, resource_to_transaction st !! r = fst <$> table !! r) /\
  (forall tx r, transaction_to_resource st !! tx = Some r <-> exists ws, table !! r = Some (tx, ws)) /\
  (forall tx ws, transaction_waiters st !! tx = Some ws <-> exists r, table !! r = Some (tx, ws)).
Proof.
  intros Hnd. destruct (calls_simulate cs ∅ new simulates_new) as [Hx Hsim]; [done|done|].
  destruct (apply_calls new cs) as [st xs], (spec_calls ∅ cs) as [s ys]. simpl in *.
  pose proof (sim_inverse _ _ Hsim) as Hi. pose proof (sim_waiters _ _ Hsim) as Hw. pose proof (sim_spec _ _ Hsim) as Hs. split_and!; [done|..].
  - intros r. destruct (resource_to_transaction st !! r) as [tx|] eqn:E.
    + destruct (spec_lookup s st r tx Hsim E) as [ws ->]. done.
    + by rewrite (proj1 (spec_lookup_None s st r Hsim) E).
  - intros tx r. rewrite <- Hi. split; [by apply spec_lookup|]. by intros [ws [? _]%Hs].
  - intros tx ws. split; [|by intros [r [_ ?]%Hs]]. intros E. destruct (proj1 (Hw tx)) as [r Hr]; [by rewrite E|].
    exists r. apply Hs. by rewrite Hi.
Qed.

Lemma step_solo st g c p :
  step (mkWorld st g [(c, p)]) 0
  = let '(p', st', g') := call_step c p st g in mkWorld st' g' [(c, p')].
Proof. unfold step. simpl. by destruct (call_step c p st g) as [[? ?] ?]. Qed.

(** One step of the only thread, with the tests its context decides. *)
Ltac solo :=
  rewrite step_solo; cbn [call_step];
  repeat match goal with
  | |- context [decide (?x ∈ ∅)] => rewrite (decide_False (P := x ∈ ∅)) by apply not_elem_of_empty
  | H : ?x = _ |- context [match ?x with _ => _ end] => rewrite H
  end.

(** Running a call alone step by step, from any state, ends after at most five
    steps in the state and with the answer of the call as a whole, and leaves no
    entry guarded. *)
Lemma call_runs_alone (st : RequestRoutingState) (c : call) (n : nat) :
  (5 <= n)%nat ->
  run (spawn st [c]) (repeat 0%nat n)
  = mkWorld (apply_call st c).1 ∅ [(c, Done (apply_call st c).2)].
Proof.
  intros Hn.
  assert (Hstay : forall k st c x, run (mkWorld st ∅ [(c, Done x)]) (repeat 0%nat k) = mkWorld st ∅ [(c, Done x)]).
  { intros k st0 c0 x. induction k as [|k IH]; simpl; [done|]. unfold step. simpl. by destruct c0. }
  assert (Hrun : exists k, (k <= 5)%nat /\
    run (spawn st [c]) (repeat 0%nat k) = mkWorld (apply_call st c).1 ∅ [(c, Done (apply_call st c).2)]).
  { unfold spawn, apply_call, run. cbn [map].
    destruct c as [r client tx|tx]; unfold route_request, complete_operation.
    - destruct (resource_to_transaction st !! r) as [tx0|] eqn:Hr.
      + destruct (bool_decide (is_Some (transaction_to_resource st !! tx0))) eqn:Hb.
        * exists 3%nat. split; [lia|]. cbn [repeat foldl]. do 3 solo. f_equal. set_solver.
        * exists 5%nat. split; [lia|]. cbn [repeat foldl]. do 5 solo. f_equal. set_solver.
      + exists 4%nat. split; [lia|]. cbn [repeat foldl]. do 4 solo. f_equal. set_solver.
    - destruct (transaction_to_resource st !! tx) as [r|] eqn:Hr.
      + exists 3%nat. split; [lia|]. cbn [repeat foldl]. by do 3 solo.
      + exists 2%nat. split; [lia|]. cbn [repeat foldl]. by do 2 solo. }
  destruct Hrun as (k & Hk & Hrun). replace n with (k + (n - k))%nat by lia.
  unfold run in *. rewrite repeat_app, foldl_app, Hrun. apply Hstay.
Qed.

(** ** Completion and concurrent requests *)

(** [tx] is over: no call will make it active again. *)
Definition over (tx : Tx) (w : world) : Prop :=
  transaction_to_resource (state w) !! tx = None /\
  forall i r client p, threads w !! i = Some (Route r client tx, p) -> exists x, p = Done x.

(** Thread [i] does not wait for [tx]. *)
Definition not_waiting (i : nat) (tx : Tx) (w : world) : Prop :=
  forall c p, threads w !! i = Some (c, p) -> p <> Join tx /\ p <> Done (Some (tx, false)).

Lemma call_step_over tx c p st g p' st' g' :
  call_step c p st g = (p', st', g') -> transaction_to_resource st !! tx = None ->
  (forall r client, c = Route r client tx -> exists x, p = Done x) ->
  transaction_to_resource st' !! tx = None /\
  (forall r client, c = Route r client tx -> exists x, p' = Done x) /\
  (p <> Join tx /\ p <> Done (Some (tx, false)) -> p' <> Join tx /\ p' <> Done (Some (tx, false))).
Proof.
  intros Hs Htx Hc. assert (Hroute : forall r client tx', c = Route r client tx' -> (exists x, p = Done x) \/ tx' <> tx).
  { intros r client tx' ->. destruct (decide (tx' = tx)) as [-> | ?]; [left; by eapply Hc|by right]. }
  destruct c as [r client tx'|tx'].
  - destruct (Hroute r client tx' eq_refl) as [[x ->] | Hne]; simpl in Hs; simplify_eq/=; [naive_solver|].
    destruct p; simpl in Hs; repeat case_match; simplify_eq/=; rewrite ?lookup_insert_ne by done;
      try (split_and!; naive_solver). to_props. split_and!; [done|naive_solver|].
    intros _. split; [|done]. intros [= ->]. congruence || (rewrite Htx in *; by destruct H).
  - destruct p; simpl in Hs; repeat case_match; simplify_eq/=; rewrite ?lookup_delete_None; split_and!; naive_solver.
Qed.

Lemma step_over_kept tx i w k :
  over tx w -> not_waiting i tx w -> over tx (step w k) /\ not_waiting i tx (step w k).
Proof.
  intros [Htx Hr] Hi. unfold step. destruct (threads w !! k) as [[c p]|] eqn:Hk; [|by split].
  destruct (call_step c p (state w) (guards w)) as [[p' st'] g'] eqn:Hs.
  destruct (call_step_over tx c p _ _ p' st' g' Hs Htx) as (Htx' & Hc & Hw).
  { intros r client ->. by eapply Hr. }
  assert (Hlen : (k < length (threads w))%nat) by (by eapply lookup_lt_Some).
  split; [split; [done|]|]; simpl.
  - intros k' r client q Hq. destruct (decide (k' = k)) as [-> | Hne].
    + rewrite list_lookup_insert_eq in Hq by done. simplify_eq. by eapply Hc.
    + rewrite list_lookup_insert_ne in Hq by done. by eapply Hr.
  - intros c' q Hq. simpl in Hq. destruct (decide (i = k)) as [-> | Hne].
    + rewrite list_lookup_insert_eq in Hq by done. simplify_eq. by eapply Hw, Hi.
    + rewrite list_lookup_insert_ne in Hq by done. by eapply Hi.
Qed.

Lemma run_over tx i w schedule :
  over tx w -> not_waiting i tx w -> not_waiting i tx (run w schedule).
Proof.
  unfold run. revert w. induction schedule as [|k l IH]; intros w Ho Hi; simpl; [done|].
  destruct (step_over_kept tx i w k Ho Hi). by apply IH.
Qed.

(** C34: under any interleaving, a request that arrives after the completion of a
    transaction has begun never waits for it: if the call that routed [tx] has
    returned, a call completing [tx] takes its first step, and the request of thread
    [i] has not started yet, then however the calls are scheduled from there,
    thread [i] is not answered with [tx] as an operation to join. *)
Theorem no_join_after_completion (w : world) (i j : nat) (tx : Tx) (c : call) (schedule : list nat) p :
  threads w !! j = Some (Complete tx, Start) ->
  (forall k r client q, threads w !! k = Some (Route r client tx, q) -> exists x, q = Done x) ->
  threads w !! i = Some (c, Start) -> i <> j ->
  threads (run (step w j) schedule) !! i = Some (c, p) -> p <> Done (Some (tx, false)).
Proof.
  intros Hj Hr Hi Hij Hp.
  assert (Hw : over tx (step w j) /\ not_waiting i tx (step w j)).
  { unfold step. rewrite Hj. simpl.
    assert (Hthr : forall q k r client q', <[j := (Complete tx, q)]> (threads w) !! k = Some (Route r client tx, q') ->
      exists x, q' = Done x).
    { intros q k r client q' Hk. destruct (decide (k = j)) as [-> | ?].
      - by rewrite list_lookup_insert_eq in Hk by (by eapply lookup_lt_Some).
      - rewrite list_lookup_insert_ne in Hk by done. by eapply Hr. }
    destruct (transaction_to_resource (state w) !! tx) eqn:Htx; (split; [split|]); simpl.
    - apply lookup_delete_eq.
    - by apply Hthr.
    - intros c' q Hq. simpl in Hq. rewrite list_lookup_insert_ne in Hq by done. by simplify_eq.
    - done.
    - by apply Hthr.
    - intros c' q Hq. simpl in Hq. rewrite list_lookup_insert_ne in Hq by done. by simplify_eq. }
  destruct Hw as [Ho Hn]. by apply (run_over tx i _ schedule Ho Hn) in Hp as [_ ?].
Qed.

End router.

(** ** Concrete runs *)

(** Two clients ask for resource 1, the operation completes, a third client asks. *)
Definition demo_calls : list (call (R:=nat) (Tx:=nat) (W:=nat)) :=
  [Route 1 10 100; Route 1 11 101; Complete 100; Route 1 12 102]%nat.

Lemma router_refines_table_witness :
  (apply_calls new demo_calls).2 = [Some (100, true); Some (100, false); None; Some (102, true)]%nat /\
  (forall tx ws, transaction_waiters (apply_calls new demo_calls).1 !! tx = Some ws <->
     exists r, (spec_calls ∅ demo_calls).1 !! r = Some (tx, ws)).
Proof.
  split; [by vm_compute|].
  assert (Hnd : NoDup (drawn demo_calls)) by (repeat (apply NoDup_cons_2; [set_solver|]); apply NoDup_nil_2).
  pose proof (router_refines_table demo_calls Hnd) as H.
  destruct (apply_calls new demo_calls), (spec_calls ∅ demo_calls). apply H.
Defined.

Lemma call_runs_alone_witness :
  run (spawn new [Route 1 10 100]%nat) (repeat 0%nat 9)
  = mkWorld (apply_call new (Route 1 10 100)%nat).1 ∅ [(Route 1 10 100, Done (Some (100, true)))]%nat.
Proof. apply (call_runs_alone new (Route 1 10 100)%nat 9). lia. Defined.

(** The operation of transaction 100 is routed; then its completion and a new
    request for the same resource overlap. *)
Definition overlap : world (R:=nat) (Tx:=nat) (W:=nat) :=
  run (spawn new [Route 1 10 100; Complete 100; Route 1 11 101]%nat) [0; 0; 0; 0]%nat.

Lemma no_join_after_completion_witness :
  exists p, threads (run (step overlap 1) [2; 2; 1; 2; 2; 2; 1; 1]%nat) !! 2%nat = Some (Route 1 11 101, p)%nat /\
    p = Done (Some (101, true))%nat /\ p <> Done (Some (100, false))%nat.
Proof.
  eexists. split; [by vm_compute|]. split; [done|].
  eapply (no_join_after_completion overlap 2 1 100 (Route 1 11 101) [2; 2; 1; 2; 2; 2; 1; 1])%nat;
    [by vm_compute| |by vm_compute|done|by vm_compute].
  intros k r client q Hk. assert (Ht : threads overlap = [(Route 1 10 100, Done (Some (100, true))); (Complete 100, Start); (Route 1 11 101, Start)]%nat)
    by (by vm_compute).
  rewrite Ht in Hk. destruct k as [|[|[|k]]]; simplify_eq/=; by eexists.
Defined.

(** Two overlapping requests for the same resource both start an operation: the
    vacant entry's guard ends at [insert], before the reverse mapping exists, and
    the second request takes the first transaction for a completed one. *)
Example concurrent_routes_start_twice :
  map snd (threads (run (spawn new [Route 1 10 100; Route 1 11 101]%nat) [0; 0; 1; 1; 1; 1; 1; 0; 0]%nat))
  = [Done (Some (100, true)); Done (Some (101, true))]%nat.
Proof. by vm_compute. Qed.

(** A completion that overlaps a new request removes the mapping of the new
    operation: a third request starts a second one while it is in progress. *)
Example completion_unroutes_new_operation :
  let w := run (spawn new [Route 1 10 100; Complete 100; Route 1 11 101; Route 1 12 102]%nat)
             [0; 0; 0; 0; 1; 2; 2; 2; 2; 2; 1; 1; 3; 3; 3; 3]%nat in
  map snd (threads w)
  = [Done (Some (100, true)); Done None; Done (Some (101, true)); Done (Some (102, true))]%nat /\
  transaction_to_resource (state w) !! 101%nat = Some 1%nat.
Proof. by vm_compute. Qed.

End RequestRouter.
