(* ===== verification/OrphanStreams.v ===== *)
(** * Orphan streams: pairing a stream with its metadata

    Models [src/crates/core/src/operations/orphan_streams.rs].  The fragments of a
    stream and the message that announces it travel separately.  The transport
    registers a stream nobody expects yet ([register_orphan]); the operation that
    reads the announcement claims it or waits for it ([claim_or_wait]).

    The registry is three concurrent maps.  Calls run step by step, one map
    operation at a time, under an arbitrary schedule; whether a waiting claim times
    out is a choice of the schedule.  Keys are a peer address and a stream id, and
    handles belong to the transport: any types. *)

From S2P Require Import Prelude.

Module OrphanStreams.

Section registry.
Context {K H : Type} `{eqK : EqDecision K, cntK : !Countable K, eqH : EqDecision H}.

Definition ORPHAN_STREAM_TIMEOUT : Z := from_secs 60.

Inductive OrphanStreamError := Timeout | WaiterCancelled | AlreadyClaimed.

(** A waiter is the sending half of a channel: it is named by the thread that
    holds the receiving half. *)
Record OrphanStreamRegistry := mkRegistry {
  orphan_streams : gmap K (H * Z);
  stream_waiters : gmap K nat;
  claimed_streams : gset K;
}.

Definition new : OrphanStreamRegistry := mkRegistry ∅ ∅ ∅.

Definition set_orphans (m : gmap K (H * Z)) (r : OrphanStreamRegistry) : OrphanStreamRegistry :=
  mkRegistry m (stream_waiters r) (claimed_streams r).
Definition set_waiters (m : gmap K nat) (r : OrphanStreamRegistry) : OrphanStreamRegistry :=
  mkRegistry (orphan_streams r) m (claimed_streams r).
Definition set_claimed (s : gset K) (r : OrphanStreamRegistry) : OrphanStreamRegistry :=
  mkRegistry (orphan_streams r) (stream_waiters r) s.

Inductive call :=
| RegisterOrphan (k : K) (handle : H)
| ClaimOrWait (k : K)
| GcExpired.

Inductive pc :=
| Start
(** [register_orphan] *)
| Deliver (waiter : nat)
| Store
(** [claim_or_wait] *)
| Claimed
| NoOrphan
| Waiting (received : option H)
| Abandon (e : OrphanStreamError)
| Unclaim (e : OrphanStreamError)
(** [gc_expired] *)
| Sweeping (now : Z) (rest : list K)
| Counting
| Clearing
| Done (result : option (H + OrphanStreamError)).

(** A step of a thread: the clock it reads, and whether its timer has expired. *)
Record event := mkEvent { thread : nat; now : Z; expire : bool }.

Record world := mkWorld { registry : OrphanStreamRegistry; threads : list (call * pc) }.

(** The receiving half of a claim is alive while it waits. *)
Definition send (waiter : nat) (h : H) (ts : list (call * pc)) : list (call * pc) :=
  match ts !! waiter with
  | Some (ClaimOrWait k, Waiting None) => <[waiter := (ClaimOrWait k, Waiting (Some h))]> ts
  | _ => ts
  end.

(** The visit of one entry by the sweep of [gc_expired]. *)
Definition retain_entry (now : Z) (k : K) (m : gmap K (H * Z)) : gmap K (H * Z) :=
  match m !! k with
  | Some (_, created) => if ORPHAN_STREAM_TIMEOUT <? sat_sub now created then delete k m else m
  | None => m
  end.

(** One step of thread [i].  A waiting claim whose timer expires times out, and
    one whose sender was dropped is cancelled; a delivered handle wins over both. *)
Definition thread_step (now : Z) (expire : bool) (i : nat) (c : call) (p : pc) (w : world) : world :=
  let r := registry w in
  let go p r := mkWorld r (<[i := (c, p)]> (threads w)) in
  match c, p with
  | RegisterOrphan k h, Start =>
      match stream_waiters r !! k with
      | Some j => go (Deliver j) (set_waiters (delete k (stream_waiters r)) r)
      | None => go Store r
      end
  | RegisterOrphan k h, Deliver j => mkWorld r (<[i := (c, Done None)]> (send j h (threads w)))
  | RegisterOrphan k h, Store => go (Done None) (set_orphans (<[k := (h, now)]> (orphan_streams r)) r)
  | ClaimOrWait k, Start =>
      if decide (k ∈ claimed_streams r) then go (Done (Some (inr AlreadyClaimed))) r
      else go Claimed (set_claimed ({[k]} ∪ claimed_streams r) r)
  | ClaimOrWait k, Claimed =>
      match orphan_streams r !! k with
      | Some (h, _) => go (Done (Some (inl h))) (set_orphans (delete k (orphan_streams r)) r)
      | None => go NoOrphan r
      end
  | ClaimOrWait k, NoOrphan => go (Waiting None) (set_waiters (<[k := i]> (stream_waiters r)) r)
  | ClaimOrWait k, Waiting (Some h) => go (Done (Some (inl h))) r
  | ClaimOrWait k, Waiting None =>
      if expire then go (Abandon Timeout) r
      else if decide (stream_waiters r !! k = Some i) then w
      else if existsb (fun x => match x.2 with Deliver j => (j =? i)%nat | _ => false end) (threads w) then w
      else go (Abandon WaiterCancelled) r
  | ClaimOrWait k, Abandon e => go (Unclaim e) (set_waiters (delete k (stream_waiters r)) r)
  | ClaimOrWait k, Unclaim e => go (Done (Some (inr e))) (set_claimed (claimed_streams r ∖ {[k]}) r)
  | GcExpired, Start => go (Sweeping now (map fst (map_to_list (orphan_streams r)))) r
  | GcExpired, Sweeping t (k :: ks) => go (Sweeping t ks) (set_orphans (retain_entry t k (orphan_streams r)) r)
  | GcExpired, Sweeping _ [] => go Counting r
  | GcExpired, Counting => if decide (1000 < size (claimed_streams r))%nat then go Clearing r else go (Done None) r
  | GcExpired, Clearing => go (Done None) (set_claimed ∅ r)
  | _, _ => w
  end.

Definition step (w : world) (e : event) : world :=
  match threads w !! thread e with
  | Some (c, p) => thread_step (now e) (expire e) (thread e) c p w
  | None => w
  end.

Definition run (w : world) (schedule : list event) : world := foldl step w schedule.

Definition spawn (cs : list call) : world := mkWorld new (map (fun c => (c, Start)) cs).

(** ** Every handle is in one place *)

(** How often the handle [h] is held by a thread. *)
Definition held (h : H) (x : call * pc) : Z :=
  match x with
  | (RegisterOrphan _ h', Done _) => 0
  | (RegisterOrphan _ h', _) => if decide (h' = h) then 1 else 0
  | (ClaimOrWait _, Waiting (Some h')) => if decide (h' = h) then 1 else 0
  | (ClaimOrWait _, Done (Some (inl h'))) => if decide (h' = h) then 1 else 0
  | _ => 0
  end.

Definition stored (h : H) (x : H * Z) : Z := if decide (x.1 = h) then 1 else 0.

Definition places (h : H) (w : world) : Z :=
  sumZ (held h) (threads w) + map_sum (stored h) (orphan_streams (registry w)).

Lemma held_nonneg h x : 0 <= held h x.
Proof. unfold held. repeat case_match; lia. Qed.

Lemma send_held h j h' ts k :
  ts !! j = Some (ClaimOrWait k, Waiting None) ->
  sumZ (held h) (send j h' ts) = sumZ (held h) ts + (if decide (h' = h) then 1 else 0).
Proof. intros Hj. unfold send. rewrite Hj. rewrite (sumZ_insert _ _ _ _ _ Hj). simpl. lia. Qed.

Lemma send_held_le h j h' ts :
  sumZ (held h) (send j h' ts) <= sumZ (held h) ts + (if decide (h' = h) then 1 else 0).
Proof.
  unfold send. destruct (ts !! j) as [[[|k|] [| | | | |[]| | | | | |]]|] eqn:Hj; try (case_decide; lia).
  pose proof (send_held h j h' ts k Hj) as Hs. unfold send in Hs. rewrite Hj in Hs. lia.
Qed.

Lemma send_other j h ts i c p :
  ts !! i = Some (c, p) -> (forall k, c <> ClaimOrWait k) -> send j h ts !! i = Some (c, p).
Proof.
  intros Hi Hc. unfold send. destruct (ts !! j) as [[[|k|] [| | | | |[]| | | | | |]]|] eqn:Hj; try done.
  rewrite list_lookup_insert_ne; [done|]. intros ->. rewrite Hi in Hj. simplify_eq. by destruct (Hc k).
Qed.

(** No step multiplies a handle. *)
Lemma places_step h w e : places h (step w e) <= places h w.
Proof.
  unfold step. destruct e as [i now expire]. simpl. destruct (threads w !! i) as [[c p]|] eqn:Hi; [|lia].
  assert (Hgo : forall p' r', orphan_streams r' = orphan_streams (registry w) ->
    held h (c, p') <= held h (c, p) -> places h (mkWorld r' (<[i := (c, p')]> (threads w))) <= places h w).
  { intros p' r' Hr Hh. unfold places. simpl. rewrite Hr, (sumZ_insert _ _ _ _ _ Hi). lia. }
  assert (Hdel : forall p' k, held h (c, p') <= held h (c, p) +
      match orphan_streams (registry w) !! k with Some x => stored h x | None => 0 end ->
    places h (mkWorld (set_orphans (delete k (orphan_streams (registry w))) (registry w)) (<[i := (c, p')]> (threads w)))
    <= places h w).
  { intros p' k Hh. unfold places. simpl. rewrite (sumZ_insert _ _ _ _ _ Hi).
    destruct (orphan_streams (registry w) !! k) as [h'|] eqn:Hk.
    - rewrite (map_sum_delete (stored h) _ k h' Hk). lia.
    - rewrite delete_id by done. lia. }
  destruct c as [k h0|k|], p as [|j| | | |[h1|]|x|x|t [|k0 rest]| | |x]; simpl; try lia;
    repeat case_match; try lia; try (by apply Hgo).
  - unfold places. simpl. rewrite (sumZ_insert _ _ i (RegisterOrphan k h0, Deliver j)) by (by apply send_other).
    pose proof (send_held_le h j h0 (threads w)). simpl in *. lia.
  - unfold places. simpl. rewrite (sumZ_insert _ _ _ _ _ Hi). simpl.
    assert (map_sum (stored h) (<[k := (h0, now)]> (orphan_streams (registry w)))
      <= map_sum (stored h) (orphan_streams (registry w)) + stored h (h0, now)).
    { destruct (orphan_streams (registry w) !! k) as [h'|] eqn:Hk.
      - rewrite (map_sum_replace (stored h) _ k h' (h0, now) Hk). unfold stored. repeat case_decide; lia.
      - rewrite map_sum_insert by done. lia. }
    unfold stored in *. simpl in *. lia.
  - apply Hdel. simpl. rewrite H0. unfold stored. simpl. lia.
  - unfold retain_entry. destruct (orphan_streams (registry w) !! k0) as [[h' created]|] eqn:Hk; [case_match|]; try (by apply Hgo).
    apply Hdel. rewrite Hk. unfold stored. simpl. case_decide; lia.
Qed.

(** ** Handles stay with their key *)

Lemma calls_insert (ts : list (call * pc)) i c p p' :
  ts !! i = Some (c, p) -> (<[i := (c, p')]> ts).*1 = ts.*1.
Proof. intros Hi. rewrite list_fmap_insert. simpl. apply list_insert_id. by rewrite list_lookup_fmap, Hi. Qed.

Lemma calls_lookup (ts : list (call * pc)) cs i c p : ts.*1 = cs -> ts !! i = Some (c, p) -> cs !! i = Some c.
Proof. intros <- Hi. by rewrite list_lookup_fmap, Hi. Qed.

(** What a thread must satisfy. *)
Definition thread_ok (cs : list call) (x : call * pc) : Prop :=
  match x with
  | (RegisterOrphan k _, Deliver j) => cs !! j = Some (ClaimOrWait k)
  | (ClaimOrWait k, Waiting (Some h)) | (ClaimOrWait k, Done (Some (inl h))) => RegisterOrphan k h ∈ cs
  | _ => True
  end.

Record routed (cs : list call) (w : world) : Prop := {
  routed_calls : (threads w).*1 = cs;
  routed_orphans : map_Forall (fun k x => RegisterOrphan k x.1 ∈ cs) (orphan_streams (registry w));
  routed_waiters : map_Forall (fun k j => cs !! j = Some (ClaimOrWait k)) (stream_waiters (registry w));
  routed_threads : Forall (thread_ok cs) (threads w);
}.

Lemma routed_go cs w i c p p' r' :
  routed cs w -> threads w !! i = Some (c, p) ->
  map_Forall (fun k x => RegisterOrphan k x.1 ∈ cs) (orphan_streams r') ->
  map_Forall (fun k j => cs !! j = Some (ClaimOrWait k)) (stream_waiters r') ->
  thread_ok cs (c, p') -> routed cs (mkWorld r' (<[i := (c, p')]> (threads w))).
Proof.
  intros [Hc _ _ Ht] Hi Ho Hw Hp. split; simpl; [|done|done|by apply Forall_insert].
  by rewrite (calls_insert _ _ _ _ _ Hi).
Qed.

Lemma send_routed cs w j k h :
  routed cs w -> cs !! j = Some (ClaimOrWait k) -> RegisterOrphan k h ∈ cs ->
  routed cs (mkWorld (registry w) (send j h (threads w))).
Proof.
  intros Hr Hj Hin. destruct Hr as [Hc Ho Hw Ht] eqn:E. clear E. unfold send.
  destruct (threads w !! j) as [[[|k'|] [| | | | |[]| | | | | |]]|] eqn:Hjt; try (by split).
  pose proof (calls_lookup _ _ _ _ _ Hc Hjt) as Hcs. simplify_eq. by eapply routed_go.
Qed.

Lemma step_routed cs w e : routed cs w -> routed cs (step w e).
Proof.
  intros Hr. unfold step. destruct e as [i now expire]. simpl.
  destruct (threads w !! i) as [[c p]|] eqn:Hi; [|done].
  destruct Hr as [Hc Ho Hw Ht] eqn:E. clear E.
  assert (Hp : thread_ok cs (c, p)) by (eapply Forall_lookup_1; eauto).
  pose proof (calls_lookup _ _ _ _ _ Hc Hi) as Hcs.
  destruct c as [k h0|k|], p as [|j| | | |[h1|]|x|x|t [|k0 rest]| | |x]; simpl; try done;
    repeat case_match; try done; try (by eapply routed_go); simpl in Hp.
  - eapply routed_go; try done; simpl; [by apply map_Forall_delete|]. by apply Hw.
  - assert (Hreg : RegisterOrphan k h0 ∈ cs) by (by eapply list_elem_of_lookup_2).
    pose proof (send_routed cs w j k h0 Hr Hp Hreg) as Hs.
    apply (routed_go cs _ i (RegisterOrphan k h0) (Deliver j) (Done None) (registry w) Hs); try done.
    simpl. by apply send_other.
  - eapply routed_go; try done; simpl. apply map_Forall_insert_2; [by eapply list_elem_of_lookup_2|done].
  - eapply routed_go; try done; simpl; [by apply map_Forall_delete|]. by apply (Ho k (h, z)).
  - eapply routed_go; try done; simpl. by apply map_Forall_insert_2.
  - eapply routed_go; try done; simpl. by apply map_Forall_delete.
  - eapply routed_go; try done; simpl. unfold retain_entry. repeat case_match; try done. by apply map_Forall_delete.
Qed.

Lemma run_facts cs w schedule h :
  routed cs w -> routed cs (run w schedule) /\ places h (run w schedule) <= places h w.
Proof.
  unfold run. revert w. induction schedule as [|e l IH]; intros w Hr; simpl; [split; [done|lia]|].
  destruct (IH (step w e)) as [? ?]; [by apply step_routed|]. pose proof (places_step h w e). split; [done|lia].
Qed.

(** The handles registered by a list of calls. *)
Definition registered (cs : list call) : list H :=
  omap (fun c => match c with RegisterOrphan _ h => Some h | _ => None end) cs.

Lemma spawn_facts cs h : NoDup (registered cs) -> routed cs (spawn cs) /\ places h (spawn cs) <= 1.
Proof.
  intros Hnd. split.
  - split; simpl; [|apply map_Forall_empty..|].
    + rewrite map_map. simpl. apply map_id.
    + apply Forall_map, Forall_true. by intros [].
  - unfold places. simpl. rewrite map_sum_empty.
    assert (Hsum : sumZ (held h) (map (fun c => (c, Start)) cs) = if decide (h ∈ registered cs) then 1 else 0).
    { clear -Hnd. induction cs as [|c cs IH]; simpl; [done|].
      destruct c as [k h0|k|]; simpl in *; [|by rewrite IH..].
      apply NoDup_cons in Hnd as [Hn Hnd]. rewrite (IH Hnd). fold (registered cs) in *.
      destruct (decide (h0 = h)) as [-> | Hne].
      - rewrite (decide_False (P := h ∈ registered cs)) by done. rewrite decide_True by (by left). lia.
      - destruct (decide (h ∈ registered cs)).
        + rewrite decide_True by (by right). lia.
        + rewrite decide_False; [lia|]. by rewrite not_elem_of_cons. }
    rewrite Hsum. case_decide; lia.
Qed.

(** C35: however registrations, claims, time-outs and sweeps interleave, a stream
    handle reaches at most one claim, and only a claim for the peer and stream it
    was registered under. *)
Theorem handle_claimed_once (cs : list call) (schedule : list event) i1 i2 k1 k2 h :
  NoDup (registered cs) ->
  let w := run (spawn cs) schedule in
  threads w !! i1 = Some (ClaimOrWait k1, Done (Some (inl h))) ->
  threads w !! i2 = Some (ClaimOrWait k2, Done (Some (inl h))) ->
  i1 = i2 /\ RegisterOrphan k1 h ∈ cs.
Proof.
  intros Hnd w H1 H2. destruct (spawn_facts cs h Hnd) as [Hr0 Hp0].
  destruct (run_facts cs (spawn cs) schedule h Hr0) as [Hr Hp]. fold w in Hr, Hp.
  split.
  - destruct (decide (i1 = i2)) as [-> | Hne]; [done|exfalso].
    pose proof (sumZ_pair_le (held h) (threads w) i1 i2 _ _ (held_nonneg h) Hne H1 H2) as Hle.
    assert (0 <= map_sum (stored h) (orphan_streams (registry w))).
    { apply map_sum_nonneg. intros. unfold stored. case_decide; lia. }
    unfold places in Hp, Hp0. simpl in Hle. rewrite !decide_True in Hle by done. lia.
  - by apply (Forall_lookup_1 _ _ _ _ (routed_threads _ _ Hr)) in H1.
Qed.

End registry.

(** Two peers send a stream of the same id; the first is claimed as an orphan,
    the second while the claim waits. *)
Definition demo_calls : list (call (K := Z * Z) (H := Z)) :=
  [RegisterOrphan (1, 7) 100; ClaimOrWait (1, 7); ClaimOrWait (2, 7); RegisterOrphan (2, 7) 200; GcExpired].
Definition at_ (i : nat) (t : Z) : event := mkEvent i t false.
Definition demo_schedule : list event :=
  [at_ 0 0; at_ 0 0; at_ 2 1; at_ 1 1; at_ 1 2; at_ 2 2; at_ 2 3; at_ 4 4; at_ 3 5; at_ 3 6; at_ 2 7; at_ 4 8].

Lemma handle_claimed_once_witness :
  let w := run (spawn demo_calls) demo_schedule in
  threads w !! 1%nat = Some (ClaimOrWait (1, 7), Done (Some (inl 100))) /\
  threads w !! 2%nat = Some (ClaimOrWait (2, 7), Done (Some (inl 200))) /\
  (2 = 2)%nat /\ RegisterOrphan (2, 7) 200 ∈ demo_calls.
Proof.
  intros w. split; [by vm_compute|]. split; [by vm_compute|].
  apply (handle_claimed_once demo_calls demo_schedule 2 2 (2, 7) (2, 7) 200); [|by vm_compute..].
  apply (bool_decide_unpack _). by vm_compute.
Defined.

(** A claim can miss a registration that runs at the same time.  The claim finds
    no orphan; the registration finds no waiter and stores its handle; the claim
    then registers its waiter.  The claim times out although the stream has been
    in the registry all the time it waited. *)
Example claim_misses_registration :
  let w := run (spawn [RegisterOrphan (1, 7) 100; ClaimOrWait (1, 7)])
    [at_ 1 0; at_ 1 0; at_ 0 0; at_ 0 0; at_ 1 0; mkEvent 1 30 true; at_ 1 30; at_ 1 30] in
  threads w !! 1%nat = Some (ClaimOrWait (1, 7), Done (Some (inr Timeout))) /\
  orphan_streams (registry w) !! (1, 7) = Some (100, 0).
Proof. by vm_compute. Qed.

End OrphanStreams.
