(* ===== verification/VersionCmp.v ===== *)
(** * Versions on the wire

    Models [src/crates/core/src/transport/connection_handler/version_cmp.rs]: the
    eight bytes that announce a version in a handshake, the decision whether two
    peers can talk, and the version numbers read back from an error message. *)

From S2P Require Import Prelude.
From stdpp Require Import strings pretty.
From Stdlib Require Import Ascii.

#[local] Open Scope Z_scope.

Module VersionCmp.

Abbreviation version := (Z * Z * Z)%type (only parsing).

Definition NEW_FORMAT_MARKER : Z := 255.
Definition FORMAT_VERSION : Z := 1.

Record VersionInfo := mkInfo { version_of : version; min_compatible : option version }.

(** The [as u8] and [as u16] casts. *)
Definition as_u8 (z : Z) : Z := z mod 2 ^ 8.
Definition as_u16 (z : Z) : Z := z mod 2 ^ 16.

(** [{}] of an unsigned integer. *)
Definition show (z : Z) : string := pretty (Z.to_N z).

Definition display_version (v : version) : string :=
  let '(maj, min, pat) := v in (show maj ++ "." ++ show min ++ "." ++ show pat)%string.

Definition display (i : VersionInfo) : string := display_version (version_of i).

Definition is_digit (c : ascii) : bool := (48 <=? N_of_ascii c)%N && (N_of_ascii c <=? 57)%N.
Definition digit (c : ascii) : Z := Z.of_N (N_of_ascii c) - 48.

(** The scanning loop; [state] says which number is being read. *)
Fixpoint parse_loop (s : string) (state : Z) (major minor patch : Z) : version :=
  match s with
  | EmptyString => (major, minor, patch)
  | String c s =>
      if decide (c = "."%char) then parse_loop s (as_u8 (state + 1)) major minor patch
      else if is_digit c then
        if state =? 0 then parse_loop s state (as_u8 (as_u16 (major * 10 + digit c))) minor patch
        else if state =? 1 then parse_loop s state major (as_u8 (as_u16 (minor * 10 + digit c))) patch
        else if state =? 2 then parse_loop s state major minor (as_u16 (as_u16 (patch * 10) + digit c))
        else parse_loop s state major minor patch
      else (major, minor, patch)
  end.

Definition parse_semver (s : string) : version := parse_loop s 0 0 0 0.

Definition encode_new_format (version min_compatible : string) : list Z :=
  let '(major, minor, patch) := parse_semver version in
  let '(_, _, min_patch) := parse_semver min_compatible in
  [NEW_FORMAT_MARKER; major; minor; as_u8 (Z.shiftr patch 8); as_u8 patch;
   as_u8 (Z.shiftr min_patch 8); as_u8 min_patch; FORMAT_VERSION].

Definition from_be_bytes (hi lo : Z) : Z := hi * 2 ^ 8 + lo.

Definition parse_version_bytes (bytes : list Z) : VersionInfo :=
  let b i := nth i bytes 0 in
  if (b 0%nat =? NEW_FORMAT_MARKER) && negb (b 7%nat =? 0) then
    mkInfo (b 1%nat, b 2%nat, from_be_bytes (b 3%nat) (b 4%nat))
      (Some (b 1%nat, b 2%nat, from_be_bytes (b 5%nat) (b 6%nat)))
  else mkInfo (b 0%nat, b 1%nat, b 2%nat) None.

(** [a >= b] on tuples. *)
Definition ver_ge (a b : version) : bool :=
  let '(a1, a2, a3) := a in let '(b1, b2, b3) := b in
  (b1 <? a1) || ((a1 =? b1) && ((b2 <? a2) || ((a2 =? b2) && (b3 <=? a3)))).

Definition remote_requires_newer_than_us (local remote : list Z) : bool :=
  match min_compatible (parse_version_bytes remote) with
  | Some min => negb (ver_ge (version_of (parse_version_bytes local)) min)
  | None => false
  end.

Definition is_compatible (local remote : list Z) : VersionInfo + string :=
  let local_info := parse_version_bytes local in
  let remote_info := parse_version_bytes remote in
  let check_remote :=
    match min_compatible remote_info with
    | Some remote_min =>
        if negb (ver_ge (version_of local_info) remote_min)
        then inr ("our " ++ display local_info ++ " too old for remote's min_compatible "
                  ++ display_version remote_min)%string
        else inl remote_info
    | None => inl remote_info
    end in
  match min_compatible local_info with
  | Some local_min =>
      if negb (ver_ge (version_of remote_info) local_min)
      then inr ("remote " ++ display remote_info ++ " too old for our min_compatible "
                ++ display_version local_min)%string
      else check_remote
  | None => check_remote
  end.

Definition old_peer_rejection_means_we_must_update (remote_version_str : string) (local : list Z) : bool :=
  let local_info := parse_version_bytes local in
  let remote := parse_semver remote_version_str in
  let newer := negb (ver_ge (version_of local_info) remote) in
  match min_compatible local_info with
  | Some local_min => if negb (ver_ge remote local_min) then false else newer
  | None => newer
  end.

(** ** Reading printed numbers *)

(** Where a number ends. *)
Definition number_ends (s : string) : Prop :=
  match s with EmptyString => True | String c _ => is_digit c = false end.

(** A version whose numbers fit their types. *)
Definition in_range (v : version) : Prop :=
  let '(maj, min, pat) := v in 0 <= maj < 256 /\ 0 <= min < 256 /\ 0 <= pat < 65536.

Lemma pretty_char_spec (d : N) :
  (d < 10)%N -> pretty_N_char d <> "."%char /\ is_digit (pretty_N_char d) = true /\
  digit (pretty_N_char d) = Z.of_N d.
Proof.
  intros Hd. assert (d = 0 ∨ d = 1 ∨ d = 2 ∨ d = 3 ∨ d = 4 ∨ d = 5 ∨ d = 6 ∨ d = 7 ∨ d = 8 ∨ d = 9)%N by lia.
  by destruct_or?; subst.
Qed.

(** What the loop does with the number it is reading. *)
Definition put (state n : Z) (v : version) : version :=
  let '(maj, min, pat) := v in
  if state =? 0 then (n, min, pat) else if state =? 1 then (maj, n, pat) else (maj, min, n).
Definition field_max (state : Z) : Z := if state =? 2 then 65536 else 256.

Definition loop_at (s : string) (state : Z) (v : version) : version :=
  let '(maj, min, pat) := v in parse_loop s state maj min pat.

Lemma loop_digit c s state n v :
  c <> "."%char -> is_digit c = true -> 0 <= digit c -> 0 <= n -> 0 <= state <= 2 ->
  n * 10 + digit c < field_max state ->
  loop_at (String c s) state (put state n v) = loop_at s state (put state (n * 10 + digit c) v).
Proof.
  intros Hc Hd Hd0 Hn Hst Hmax. destruct v as [[maj min] pat].
  assert (state = 0 \/ state = 1 \/ state = 2) as [-> | [-> | ->]] by lia;
    unfold loop_at, put, field_max, as_u8, as_u16 in *; cbn [Z.eqb Pos.eqb] in *; cbn [parse_loop];
    rewrite (decide_False (P := c = "."%char)) by done; rewrite Hd; cbn [Z.eqb Pos.eqb];
    unfold as_u8, as_u16; rewrite !Z.mod_small; try done; rewrite ?Z.mod_small; lia.
Qed.

Lemma loop_number (x : N) s state v :
  0 <= state <= 2 -> Z.of_N x < field_max state ->
  loop_at (pretty_N_go x s) state (put state 0 v) = loop_at s state (put state (Z.of_N x) v).
Proof.
  revert s. induction (N.lt_wf_0 x) as [x _ IH]; intros s Hst Hx.
  destruct (decide (x = 0)%N) as [-> | Hne]; [done|].
  rewrite pretty_N_go_step by lia. pose proof (N.div_mod x 10 ltac:(lia)) as Hqr.
  pose proof (N.mod_lt x 10 ltac:(lia)) as Hr. assert (Hq : (x `div` 10 < x)%N) by (apply N.div_lt; lia).
  revert Hqr Hr Hq. generalize (x `div` 10)%N (x `mod` 10)%N. intros q r Hqr Hr Hq.
  rewrite IH by (done || lia). destruct (pretty_char_spec r Hr) as (Hdot & Hdig & Hval).
  rewrite loop_digit by (try done; rewrite ?Hval; lia). rewrite Hval. do 2 f_equal. lia.
Qed.

Lemma loop_show n s state v :
  0 <= state <= 2 -> 0 <= n < field_max state ->
  loop_at (show n ++ s)%string state (put state 0 v) = loop_at s state (put state n v).
Proof.
  intros Hst Hn. assert (Hgo : forall x t, (pretty_N_go x "" ++ t)%string = pretty_N_go x t).
  { intros x t. enough (forall u, (pretty_N_go x u ++ t)%string = pretty_N_go x (u ++ t)) as H by apply H.
    induction (N.lt_wf_0 x) as [x _ IH]; intros u. destruct (decide (x = 0)%N) as [-> | Hne]; [done|].
    rewrite !(pretty_N_go_step x) by lia. by rewrite IH by (apply N.div_lt; lia). }
  unfold show, pretty, pretty_N. case_decide as Hz.
  - assert (n = 0) as -> by lia. change ("0" ++ s)%string with (String "0" s).
    by rewrite loop_digit by (done || (change (digit "0") with 0; lia)).
  - rewrite Hgo, loop_number by (rewrite ?Z2N.id; lia). by rewrite Z2N.id by lia.
Qed.

Lemma loop_ends s v : number_ends s -> (forall s', s <> String "." s') -> loop_at s 2 v = v.
Proof.
  intros Hend Hdot. destruct v as [[maj min] pat]. destruct s as [|c s]; [done|]. simpl in *.
  rewrite decide_False by (intros ->; by eapply Hdot). by rewrite Hend.
Qed.

Lemma string_app_assoc (a b c : string) : ((a ++ b) ++ c)%string = (a ++ (b ++ c))%string.
Proof. induction a as [|ch a IH]; [done|]. exact (f_equal (String ch) IH). Qed.

(** A version that is printed and parsed again is the same version, also with a
    pre-release suffix behind it: the version an old peer reports in its refusal is
    the one it runs. *)
Lemma semver_roundtrip (v : version) (suffix : string) :
  in_range v -> number_ends suffix -> (forall s, suffix <> String "." s) ->
  parse_semver (display_version v ++ suffix) = v.
Proof.
  destruct v as [[maj min] pat]. intros (H1 & H2 & H3) Hend Hdot.
  unfold display_version. rewrite !string_app_assoc.
  change (parse_semver ?s) with (loop_at s 0 (put 0 0 (0, 0, 0))).
  rewrite loop_show by (unfold field_max; simpl; lia).
  change (loop_at (show min ++ ("." ++ (show pat ++ suffix))) 1 (put 1 0 (maj, 0, 0)) = (maj, min, pat)).
  rewrite loop_show by (unfold field_max; simpl; lia).
  change (loop_at (show pat ++ suffix) 2 (put 2 0 (maj, min, 0)) = (maj, min, pat)).
  rewrite loop_show by (unfold field_max; simpl; lia). by apply loop_ends.
Qed.

(** ** The handshake *)

Lemma ver_ge_total a b : ver_ge a b = true \/ ver_ge b a = true.
Proof. destruct a as [[? ?] ?], b as [[? ?] ?]. simpl. lia. Qed.

Lemma be_bytes_roundtrip z : 0 <= z < 65536 -> from_be_bytes (as_u8 (Z.shiftr z 8)) (as_u8 z) = z.
Proof.
  intros Hz. unfold from_be_bytes, as_u8. rewrite Z.shiftr_div_pow2 by lia. change (2 ^ 8) with 256.
  pose proof (Z.div_mod z 256 ltac:(lia)).
  rewrite (Z.mod_small (z / 256)); [lia|]. split; [apply Z.div_pos; lia|apply Z.div_lt_upper_bound; lia].
Qed.

Lemma parse_loop_range s state maj min pat :
  in_range (maj, min, pat) -> in_range (parse_loop s state maj min pat).
Proof.
  revert state maj min pat. induction s as [|c s IH]; intros state maj min pat H; [done|]. cbn [parse_loop].
  assert (H8 : forall z, 0 <= as_u8 z < 256) by (intros; by apply Z.mod_pos_bound).
  assert (H16 : forall z, 0 <= as_u16 z < 65536) by (intros; by apply Z.mod_pos_bound).
  pose proof H as (? & ? & ?). repeat case_match; try done; by apply IH.
Qed.

(** What the version [v] with the minimum [m] announces: the minimum is read in
    the major and minor series of [v]. *)
Definition announced_min (v m : string) : version :=
  (fst (fst (parse_semver v)), snd (fst (parse_semver v)), snd (parse_semver m)).

Lemma parse_encode v m :
  parse_version_bytes (encode_new_format v m) = mkInfo (parse_semver v) (Some (announced_min v m)).
Proof.
  unfold encode_new_format, announced_min.
  assert (Hr : forall s, in_range (parse_semver s)) by (intros; by apply parse_loop_range).
  pose proof (Hr v) as Hv. pose proof (Hr m) as Hm.
  destruct (parse_semver v) as [[maj min] pat], (parse_semver m) as [[maj' min'] pat'].
  destruct Hv as (_ & _ & Hp), Hm as (_ & _ & Hp').
  unfold parse_version_bytes. cbn [nth Z.eqb Pos.eqb NEW_FORMAT_MARKER FORMAT_VERSION andb negb fst snd].
  by rewrite !be_bytes_roundtrip.
Qed.

Definition is_ok {A B} (r : A + B) : bool := match r with inl _ => true | inr _ => false end.

Lemma is_compatible_symmetric l r : is_ok (is_compatible l r) = is_ok (is_compatible r l).
Proof.
  unfold is_compatible. destruct (min_compatible (parse_version_bytes l)) as [ml|],
    (min_compatible (parse_version_bytes r)) as [mr|]; simpl;
    repeat match goal with |- context [ver_ge ?a ?b] => destruct (ver_ge a b); simpl end; done.
Qed.

(** The two ends of a handshake take the same decision, and it is the intended
    one: each side's version reaches the minimum the other announces.  When they
    refuse, at least one side learns that it has to update. *)
Lemma handshake_agreement (v1 m1 v2 m2 : string) :
  let l := encode_new_format v1 m1 in
  let r := encode_new_format v2 m2 in
  is_ok (is_compatible l r) = is_ok (is_compatible r l) /\
  is_ok (is_compatible l r)
  = ver_ge (parse_semver v2) (announced_min v1 m1) && ver_ge (parse_semver v1) (announced_min v2 m2) /\
  is_ok (is_compatible l r)
  = negb (remote_requires_newer_than_us l r || remote_requires_newer_than_us r l).
Proof.
  intros l r. split; [apply is_compatible_symmetric|].
  unfold is_compatible, remote_requires_newer_than_us, l, r. rewrite !parse_encode. simpl.
  by destruct (ver_ge (parse_semver v2) _), (ver_ge (parse_semver v1) _).
Qed.

Lemma semver_roundtrip_witness :
  parse_semver "0.2.112-rc1" = (0, 2, 112).
Proof.
  apply (semver_roundtrip (0, 2, 112) "-rc1"); [by vm_compute|done|done].
Defined.

(** The minimum's own major and minor numbers are not sent.  When a minor series
    starts while the minimum is still in the previous one, two peers of the same
    build refuse each other. *)
Example new_series_refuses_itself :
  let build := encode_new_format "0.3.0" "0.2.64" in
  is_compatible build build = inr "remote 0.3.0 too old for our min_compatible 0.3.64".
Proof. by vm_compute. Qed.

End VersionCmp.
