(* ===== verification/Backoff.v ===== *)
(** * Exponential backoff

    Models [src/crates/core/src/util/backoff.rs]: the delay calculator
    ([ExponentialBackoff]) and the per-key tracker built on it ([TrackedBackoff]),
    which forgets its oldest key when it is full.  Clock readings and the jitter
    factor are arguments.  A [HashMap] is iterated in an unspecified order, the
    parameter [order]. *)

From S2P Require Import Prelude F64 F64Round.

Module Backoff.

Abbreviation Instant := Z (only parsing).
Abbreviation Duration := Z (only parsing).

Record ExponentialBackoff := mkConfig { base : Duration; max : Duration }.

Definition delay (b : ExponentialBackoff) (attempt : Z) : Duration :=
  let exponent := Z.min attempt 10 in
  let multiplier := Z.shiftl 1 exponent in
  let delay := dur_saturating_mul (base b) multiplier in
  if max b <? delay then max b else delay.

Definition delay_for_failures (b : ExponentialBackoff) (failures : Z) : Duration :=
  if failures =? 0 then 0 else delay b (failures - 1).

Definition default_config : ExponentialBackoff := mkConfig (from_secs 5) (from_secs 300).

Record BackoffEntry := mkEntry { consecutive_failures : Z; last_failure : Instant; retry_after : Instant }.

Section tracker.
Context {K : Type} `{eqK : EqDecision K, cntK : !Countable K}.
Variable order : gmap K BackoffEntry -> list (K * BackoffEntry).

Record TrackedBackoff := mkTracked {
  entries : gmap K BackoffEntry;
  config : ExponentialBackoff;
  max_entries : Z;
}.

Definition new (config : ExponentialBackoff) (max_entries : Z) : TrackedBackoff := mkTracked ∅ config max_entries.
Definition with_defaults : TrackedBackoff := new default_config 256.

Definition set_entries (m : gmap K BackoffEntry) (t : TrackedBackoff) : TrackedBackoff :=
  mkTracked m (config t) (max_entries t).

Definition is_in_backoff (now : Instant) (key : K) (t : TrackedBackoff) : bool :=
  match entries t !! key with Some e => now <? retry_after e | None => false end.

Definition remaining_backoff (now : Instant) (key : K) (t : TrackedBackoff) : option Duration :=
  match entries t !! key with
  | Some e => if now <? retry_after e then Some (retry_after e - now) else None
  | None => None
  end.

(** [iter().min_by_key(last_failure)]: the first of the oldest entries. *)
Fixpoint min_by_last_failure (l : list (K * BackoffEntry)) : option (K * BackoffEntry) :=
  match l with
  | [] => None
  | x :: l =>
      match min_by_last_failure l with
      | Some y => if last_failure y.2 <? last_failure x.2 then Some y else Some x
      | None => Some x
      end
  end.

Fixpoint evict_loop (fuel : nat) (max : Z) (m : gmap K BackoffEntry) : option (gmap K BackoffEntry) :=
  match fuel with
  | O => None
  | S fuel =>
      if max <? Z.of_nat (size m) then
        match min_by_last_failure (order m) with
        | Some (key, _) => evict_loop fuel max (delete key m)
        | None => Some m
        end
      else Some m
  end.

Definition evict_if_needed (t : TrackedBackoff) : option TrackedBackoff :=
  m ← evict_loop (S (size (entries t))) (max_entries t) (entries t); Some (set_entries m t).

Definition record_failure (now : Instant) (jitter_factor : f64) (key : K) (t : TrackedBackoff)
    : option TrackedBackoff :=
  let e := default (mkEntry 0 now now) (entries t !! key) in
  let consecutive_failures := sat_add32 (consecutive_failures e) 1 in
  jittered_backoff ← dur_mul_f64 (delay_for_failures (config t) consecutive_failures) jitter_factor;
  evict_if_needed
    (set_entries (<[key := mkEntry consecutive_failures now (now + jittered_backoff)]> (entries t)) t).

Definition record_short_backoff (now : Instant) (jitter_factor : f64) (key : K) (delay : Duration) (t : TrackedBackoff)
    : option TrackedBackoff :=
  jittered ← dur_mul_f64 delay jitter_factor;
  let e := default (mkEntry 0 now now) (entries t !! key) in
  evict_if_needed
    (set_entries (<[key := mkEntry (consecutive_failures e) now (Z.max (retry_after e) (now + jittered))]> (entries t)) t).

Definition record_success (key : K) (t : TrackedBackoff) : TrackedBackoff :=
  set_entries (delete key (entries t)) t.

Definition failure_count (key : K) (t : TrackedBackoff) : Z :=
  match entries t !! key with Some e => consecutive_failures e | None => 0 end.

Definition retain (f : BackoffEntry -> bool) (t : TrackedBackoff) : TrackedBackoff :=
  set_entries (filter (fun x => f x.2 = true) (entries t)) t.

Definition cleanup_expired (now : Instant) (t : TrackedBackoff) : TrackedBackoff :=
  retain (fun e => negb ((retry_after e <=? now) && (max (config t) <? sat_sub now (last_failure e)))) t.

Definition clear (t : TrackedBackoff) : TrackedBackoff := set_entries ∅ t.

Definition len (t : TrackedBackoff) : Z := Z.of_nat (size (entries t)).

Definition keys_in_backoff (now : Instant) (t : TrackedBackoff) : list K :=
  fst <$> List.filter (fun x => now <? retry_after x.2) (order (entries t)).

Definition remove_expired_entries (now : Instant) (t : TrackedBackoff) : TrackedBackoff * Z :=
  let t' := retain (fun e => now <? retry_after e) t in (t', len t - len t').

(** ** Sequences of calls *)

Inductive op :=
| Failure (key : K) (jitter_factor : f64)
| ShortBackoff (key : K) (jitter_factor : f64) (delay : Duration)
| Success (key : K)
| CleanupExpired
| RemoveExpired
| Clear.

Definition step (t : option TrackedBackoff) (e : Instant * op) : option TrackedBackoff :=
  t ← t; match e.2 with
         | Failure k j => record_failure e.1 j k t
         | ShortBackoff k j d => record_short_backoff e.1 j k d t
         | Success k => Some (record_success k t)
         | CleanupExpired => Some (cleanup_expired e.1 t)
         | RemoveExpired => Some (remove_expired_entries e.1 t).1
         | Clear => Some (clear t)
         end.

Definition run (t : TrackedBackoff) (es : list (Instant * op)) : option TrackedBackoff := foldl step (Some t) es.

(** ** Eviction *)

Section laws.
Hypothesis order_perm : forall m, order m ≡ₚ map_to_list m.

Lemma min_spec l :
  match min_by_last_failure l with
  | Some x => x ∈ l /\ forall y, y ∈ l -> last_failure x.2 <= last_failure y.2
  | None => l = []
  end.
Proof.
  induction l as [|x l IH]; simpl; [done|]. destruct (min_by_last_failure l) as [y|].
  - destruct IH as [Hy Hmin]. destruct (_ <? _) eqn:E; to_props.
    + split; [by right|]. intros z [-> | Hz]%elem_of_cons; [lia|by apply Hmin].
    + split; [by left|]. intros z [-> | Hz]%elem_of_cons; [lia|]. specialize (Hmin z Hz). lia.
  - subst l. split; [by left|]. intros z ->%list_elem_of_singleton. lia.
Qed.

(** The loop ends below the bound, and every entry it drops is at most as recent as
    every entry it keeps. *)
Lemma backoff_evict_loop_spec fuel max m :
  (size m < fuel)%nat -> 0 <= max ->
  exists m', evict_loop fuel max m = Some m' /\ m' ⊆ m /\ Z.of_nat (size m') <= max /\
    (Z.of_nat (size m) <= max -> m' = m) /\
    forall k e k' e', m !! k = Some e -> m' !! k = None -> m' !! k' = Some e' -> last_failure e <= last_failure e'.
Proof using order_perm.
  revert m. induction fuel as [|fuel IH]; intros m Hf Hmax; [lia|]. simpl.
  destruct (_ <? _) eqn:E; to_props; [|exists m; split_and!; [done|done|lia|done|congruence]].
  pose proof (min_spec (order m)) as Hmin. destruct (min_by_last_failure (order m)) as [[k0 e0]|]; simpl in Hmin.
  - destruct Hmin as [Hin Hold]. rewrite order_perm, elem_of_map_to_list in Hin.
    pose proof (map_size_delete_Some k0 m ltac:(by eexists)) as Hs.
    destruct (IH (delete k0 m)) as (m' & -> & Hsub & Hsz & _ & Hev); [lia|done|].
    exists m'. split_and!; [done|by etrans; [|apply delete_subseteq]|done|lia|].
    intros k e k' e' He Hn He'. destruct (decide (k = k0)) as [-> | Hne].
    + rewrite Hin in He. injection He as <-. apply (Hold (k', e')). rewrite order_perm.
      apply elem_of_map_to_list. eapply lookup_weaken; [|apply delete_subseteq]. by eapply lookup_weaken.
    + eapply Hev; [|done|done]. by rewrite lookup_delete_ne.
  - apply (f_equal length) in Hmin. rewrite order_perm, length_map_to_list in Hmin. simpl in Hmin. lia.
Qed.

(** ** No key is held back for long *)

Section bounded.
Variable cfg : ExponentialBackoff.
Variables (cap M : Z).
Hypothesis cfg_ok : 0 <= base cfg /\ 0 <= max cfg.
Hypothesis cap_ok : 0 <= cap.
(** [M] bounds a jittered delay. *)
Hypothesis jittered : forall d j, 0 <= d <= max cfg -> F64Round.jitter_ok j ->
  exists d', dur_mul_f64 d j = Some d' /\ 0 <= d' <= M.

Definition event_ok (e : Instant * op) : Prop :=
  match e.2 with
  | Failure _ j => F64Round.jitter_ok j
  | ShortBackoff _ j d => F64Round.jitter_ok j /\ 0 <= d <= max cfg
  | _ => True
  end.

(** A call that holds [k] back, and a call that frees it. *)
Definition holds (k : K) (o : op) : Prop :=
  match o with Failure k' _ | ShortBackoff k' _ _ => k' = k | _ => False end.
Definition frees (k : K) (o : op) : bool :=
  match o with Success k' => bool_decide (k' = k) | Clear => true | _ => false end.

Definition held_at (es : list (Instant * op)) (k : K) (t : Instant) : Prop :=
  exists o, holds k o /\ (t, o) ∈ since (frees k) es.

Record entry_ok (now : Instant) (es : list (Instant * op)) (k : K) (e : BackoffEntry) : Prop := {
  ok_held : held_at es k (last_failure e);
  ok_past : last_failure e <= now;
  ok_retry : retry_after e <= last_failure e + M;
  ok_count : 0 <= consecutive_failures e;
}.

Record inv (now : Instant) (es : list (Instant * op)) (t : TrackedBackoff) : Prop := {
  inv_config : config t = cfg;
  inv_cap : max_entries t = cap;
  inv_size : len t <= cap;
  inv_entries : map_Forall (entry_ok now es) (entries t);
}.

Lemma delay_bounds n : 0 <= n -> 0 <= delay_for_failures cfg n <= max cfg.
Proof using cfg_ok.
  intros Hn. unfold delay_for_failures, delay, dur_saturating_mul. case_match; [lia|]. rewrite Z.shiftl_1_l.
  assert (0 <= base cfg * 2 ^ Z.min (n - 1) 10).
  { apply Z.mul_nonneg_nonneg; [lia|]. apply Z.pow_nonneg. lia. }
  assert (0 <= duration_max) by done. case_match; to_props; lia.
Qed.

Lemma held_at_snoc es k t e : frees k e.2 = false -> held_at es k t -> held_at (es ++ [e]) k t.
Proof. intros Hf (o & Ho & Hin). exists o. rewrite elem_of_since_snoc by done. auto. Qed.

Lemma held_at_now es k t o : holds k o -> held_at (es ++ [(t, o)]) k t.
Proof.
  intros Ho. exists o. rewrite elem_of_since_snoc; [auto|]. by destruct o.
Qed.

Lemma backoff_entry_ok_snoc now es k x e :
  frees k e.2 = false -> now <= e.1 -> entry_ok now es k x -> entry_ok e.1 (es ++ [e]) k x.
Proof. intros Hf Hle [? ? ? ?]. split; [by apply held_at_snoc|lia|done|done]. Qed.

Lemma evict_inv now es t m :
  map_Forall (entry_ok now es) m -> config t = cfg -> max_entries t = cap ->
  exists t', evict_if_needed (set_entries m t) = Some t' /\ inv now es t'.
Proof using order_perm cap_ok.
  intros Hm Hc Hcap. unfold evict_if_needed, set_entries. cbn [entries max_entries config]. rewrite Hcap.
  destruct (backoff_evict_loop_spec (S (size m)) cap m) as (m' & -> & Hsub & Hsz & _); [lia|done|].
  eexists. split; [done|]. split; simpl; try done. intros k e He. apply Hm. by eapply lookup_weaken.
Qed.

Lemma retain_inv now es f t : inv now es t -> inv now es (retain f t).
Proof.
  intros [? ? Hs He]. split; simpl; try done.
  - etrans; [|exact Hs]. unfold len. simpl. apply Nat2Z.inj_le. apply map_size_filter.
  - intros k e [Hk _]%map_lookup_filter_Some. by apply He.
Qed.

Lemma entries_snoc now es e (m : gmap K BackoffEntry) :
  (forall k, frees k e.2 = false) -> now <= e.1 -> map_Forall (entry_ok now es) m ->
  map_Forall (entry_ok e.1 (es ++ [e])) m.
Proof. intros Hf Hle Hm k x Hk. apply (backoff_entry_ok_snoc now); [apply Hf|done|by apply Hm]. Qed.

Lemma backoff_record_failure_inv now es t j k time :
  now <= time -> F64Round.jitter_ok j -> inv now es t ->
  exists t', record_failure time j k t = Some t' /\ inv time (es ++ [(time, Failure k j)]) t'.
Proof using order_perm cfg_ok cap_ok jittered.
  intros Hle Hj [Hc Hcap _ He]. unfold record_failure. rewrite Hc.
  assert (Hn : 0 <= sat_add32 (consecutive_failures (default (mkEntry 0 time time) (entries t !! k))) 1).
  { unfold sat_add32, u32_max. destruct (entries t !! k) as [x|] eqn:Hx; simpl; [|lia].
    pose proof (ok_count _ _ _ _ (He k x Hx)). lia. }
  destruct (jittered _ j (delay_bounds _ Hn) Hj) as (d & -> & Hd). cbn [mbind option_bind].
  apply evict_inv; [|done|done]. apply map_Forall_insert_2; [|by apply (entries_snoc now es (time, Failure k j))].
  split; cbn [last_failure retry_after consecutive_failures]; [by apply held_at_now|lia|lia|done].
Qed.

Lemma record_short_inv now es t j k d time :
  now <= time -> F64Round.jitter_ok j -> 0 <= d <= max cfg -> inv now es t ->
  exists t', record_short_backoff time j k d t = Some t' /\ inv time (es ++ [(time, ShortBackoff k j d)]) t'.
Proof using order_perm cap_ok jittered.
  intros Hle Hj Hd [Hc Hcap _ He]. unfold record_short_backoff.
  destruct (jittered d j Hd Hj) as (d' & -> & Hd'). cbn [mbind option_bind].
  apply evict_inv; [|done|done]. apply map_Forall_insert_2; [|by apply (entries_snoc now es (time, ShortBackoff k j d))].
  destruct (entries t !! k) as [x|] eqn:Hx; cbn [from_option id].
  - destruct (He k x Hx) as [_ Hp Hr Hn].
    split; cbn [last_failure retry_after consecutive_failures]; [by apply held_at_now|lia|lia|done].
  - split; cbn [last_failure retry_after consecutive_failures]; [by apply held_at_now|lia|lia|done].
Qed.

Lemma backoff_step_inv now es t e :
  now <= e.1 -> event_ok e -> inv now es t -> exists t', step (Some t) e = Some t' /\ inv e.1 (es ++ [e]) t'.
Proof using order_perm cfg_ok cap_ok jittered.
  intros Hle Hok Hinv. destruct e as [time [k j|k j d|k| | |]]; cbn [step mbind option_bind fst snd] in *.
  - by eapply backoff_record_failure_inv.
  - destruct Hok. by eapply record_short_inv.
  - eexists. split; [done|]. destruct Hinv as [? ? Hs He]. split; simpl; try done.
    + etrans; [|exact Hs]. unfold len. simpl. apply Nat2Z.inj_le, map_subseteq_size, delete_subseteq.
    + intros k' x [Hne Hx]%lookup_delete_Some. apply (backoff_entry_ok_snoc now _ _ _ (time, Success k)); [|done|by apply He].
      simpl. by rewrite bool_decide_eq_false_2.
  - eexists. split; [done|]. apply retain_inv. destruct Hinv. split; try done. by apply (entries_snoc now es (time, CleanupExpired)).
  - eexists. split; [done|]. apply retain_inv. destruct Hinv. split; try done. by apply (entries_snoc now es (time, RemoveExpired)).
  - eexists. split; [done|]. destruct Hinv. by split.
Qed.

Lemma backoff_run_inv start es :
  clock_monotone start es = true -> Forall event_ok es ->
  exists t, run (new cfg cap) es = Some t /\ inv (clock_end start es) es t.
Proof using order_perm cfg_ok cap_ok jittered.
  intros Hm Hok. unfold run. induction es as [|e es IH] using rev_ind.
  - exists (new cfg cap). split; [done|]. by split.
  - rewrite clock_monotone_app in Hm. to_props. apply Forall_app in Hok as [Hok [He _]%Forall_cons].
    destruct IH as (t & Ht & Hinv); [done|done|]. rewrite foldl_app, Ht.
    assert (Hend : clock_end start (es ++ [e]) = e.1).
    { clear. revert start. induction es as [|e0 es IH]; intros start; [done|apply IH]. }
    rewrite Hend. eapply backoff_step_inv; [|done|done]. simpl in *. by to_props.
Qed.

(** After any calls the tracker is within its bound, and a key in backoff had a
    failure since it was last freed, less than [M] ago. *)
Lemma backoff_justified start es now k :
  clock_monotone start es = true -> Forall event_ok es ->
  exists t, run (new cfg cap) es = Some t /\ len t <= cap /\
    (is_in_backoff now k t = true -> exists at_, held_at es k at_ /\ now < at_ + M).
Proof using order_perm cfg_ok cap_ok jittered.
  intros Hm Hok. destruct (backoff_run_inv start es Hm Hok) as (t & Ht & [_ _ Hs He]). exists t. split_and!; [done|done|].
  unfold is_in_backoff. destruct (entries t !! k) as [e|] eqn:Hk; [|done]. intros Hlt. to_props.
  destruct (He k e Hk) as [Hh _ Hr _]. exists (last_failure e). split; [done|lia].
Qed.
End bounded.
End laws.
End tracker.

End Backoff.
