(* ===== verification/PeerConnectionBackoff.v ===== *)
(** * Backoff of gateways

    Models [src/crates/core/src/ring/peer_connection_backoff.rs], the tracker a node
    consults before it dials a gateway again.  The base interval may come from the
    environment, an argument of [new].  Socket addresses are any countable type. *)

From S2P Require Import Prelude F64 F64Round Backoff.

Module PeerConnectionBackoff.
Module B := Backoff.

Abbreviation Instant := Z (only parsing).

Definition DEFAULT_BASE_INTERVAL : Z := from_secs 30.
Definition DEFAULT_MAX_BACKOFF : Z := from_secs 90.
Definition DEFAULT_MAX_ENTRIES : Z := 1024.

Section gateways.
Context {Addr : Type} `{eqA : EqDecision Addr, cntA : !Countable Addr}.
Variable order : gmap Addr B.BackoffEntry -> list (Addr * B.BackoffEntry).

Record PeerConnectionBackoff := mkBackoff { inner : B.TrackedBackoff (K := Addr) }.

(** [env] is the number of seconds read from [FREENET_BACKOFF_BASE_SECS], if any. *)
Definition new (env : option Z) : PeerConnectionBackoff :=
  let base := match env with Some secs => from_secs secs | None => DEFAULT_BASE_INTERVAL end in
  mkBackoff (B.new (B.mkConfig base DEFAULT_MAX_BACKOFF) DEFAULT_MAX_ENTRIES).

Definition is_in_backoff (now : Instant) (peer_addr : Addr) (b : PeerConnectionBackoff) : bool :=
  B.is_in_backoff now peer_addr (inner b).

Definition remaining_backoff (now : Instant) (peer_addr : Addr) (b : PeerConnectionBackoff) : option Z :=
  B.remaining_backoff now peer_addr (inner b).

Definition record_failure (now : Instant) (jitter : f64) (peer_addr : Addr) (b : PeerConnectionBackoff)
    : option PeerConnectionBackoff :=
  mkBackoff <$> B.record_failure order now jitter peer_addr (inner b).

Definition record_success (peer_addr : Addr) (b : PeerConnectionBackoff) : PeerConnectionBackoff :=
  mkBackoff (B.record_success peer_addr (inner b)).

Definition cleanup_expired (now : Instant) (b : PeerConnectionBackoff) : PeerConnectionBackoff :=
  mkBackoff (B.cleanup_expired now (inner b)).

Definition clear (b : PeerConnectionBackoff) : PeerConnectionBackoff := mkBackoff (B.clear (inner b)).

(** ** Sequences of calls *)

Inductive op :=
| Failure (peer_addr : Addr) (jitter : f64)
| Success (peer_addr : Addr)
| CleanupExpired
| Clear.

Definition step (b : option PeerConnectionBackoff) (e : Instant * op) : option PeerConnectionBackoff :=
  b ← b; match e.2 with
         | Failure a j => record_failure e.1 j a b
         | Success a => Some (record_success a b)
         | CleanupExpired => Some (cleanup_expired e.1 b)
         | Clear => Some (clear b)
         end.

Definition run (b : PeerConnectionBackoff) (es : list (Instant * op)) : option PeerConnectionBackoff :=
  foldl step (Some b) es.

Definition lower (o : op) : B.op :=
  match o with
  | Failure a j => B.Failure a j
  | Success a => B.Success a
  | CleanupExpired => B.CleanupExpired
  | Clear => B.Clear
  end.
Definition lower_event (e : Instant * op) : Instant * B.op := (e.1, lower e.2).

Lemma run_lower b es : run b es = mkBackoff <$> B.run order (inner b) (map lower_event es).
Proof.
  unfold run, B.run. destruct b as [t]. cbn [inner]. change (Some (mkBackoff t)) with (mkBackoff <$> Some t).
  generalize (Some t). induction es as [|[now o] es IH]; intros t'; cbn [foldl map]; [done|].
  rewrite <- IH. f_equal. destruct t' as [t'|]; [|done].
  destruct o; unfold step, B.step; cbn [fmap option_fmap option_map mbind option_bind fst snd lower_event lower]; done.
Qed.

(** What frees a gateway. *)
Definition frees (a : Addr) (o : op) : bool :=
  match o with Success a' => bool_decide (a' = a) | Clear => true | _ => false end.

Lemma since_lower a es :
  since (B.frees a) (map lower_event es) = map lower_event (since (frees a) es).
Proof.
  induction es as [|e es IH] using rev_ind; [done|]. rewrite map_app. simpl. rewrite !since_snoc, IH.
  replace (B.frees a (lower_event e).2) with (frees a e.2) by (by destruct e as [? []]).
  destruct (frees a e.2); [done|]. by rewrite map_app.
Qed.

Lemma clock_lower start es : clock_monotone start (map lower_event es) = clock_monotone start es.
Proof. revert start. induction es as [|e es IH]; intros start; simpl; [done|]. by rewrite IH. Qed.

Definition event_ok (e : Instant * op) : Prop :=
  match e.2 with Failure _ j => F64Round.jitter_ok j | _ => True end.

Section laws.
Hypothesis order_perm : forall m, order m ≡ₚ map_to_list m.

(** A gateway is never out of reach for long.  Whatever base interval the
    environment sets and however often a gateway fails, it is held back only if it
    failed less than 108 seconds ago and neither a connection nor a reset came after
    that failure; the tracker never panics and keeps at most 1024 addresses. *)
Lemma gateway_backoff_bounded (env : option Z) (start : Instant) (es : list (Instant * op)) (now : Instant) (a : Addr) :
  (forall secs, env = Some secs -> 0 <= secs <= u64_max) ->
  clock_monotone start es = true -> Forall event_ok es ->
  exists b, run (new env) es = Some b /\ B.len (inner b) <= DEFAULT_MAX_ENTRIES /\
    (is_in_backoff now a b = true ->
     exists t j, (t, Failure a j) ∈ since (frees a) es /\ now < t + from_secs 108).
Proof using order_perm.
  intros Henv Hm Hok.
  destruct (B.backoff_justified order order_perm (B.config (inner (new env))) DEFAULT_MAX_ENTRIES (from_secs 108))
    with (start := start) (es := map lower_event es) (now := now) (k := a) as (t & Ht & Hlen & Hin).
  - simpl. split; [|done]. destruct env as [secs|]; [|done]. specialize (Henv secs eq_refl).
    unfold from_secs, nanos_per_sec. lia.
  - done.
  - intros d j Hd Hj. apply (F64Round.jittered_le d j 18); [|done|done].
    simpl in Hd. unfold DEFAULT_MAX_BACKOFF, from_secs in Hd. lia.
  - by rewrite clock_lower.
  - apply Forall_map. eapply Forall_impl; [exact Hok|]. by intros [? []].
  - exists (mkBackoff t). rewrite run_lower. split_and!; [|done|].
    + change (inner (new env)) with (B.new (K := Addr) (B.config (inner (new env))) DEFAULT_MAX_ENTRIES). by rewrite Ht.
    + intros Hb. destruct (Hin Hb) as (at_ & (o & Ho & Hel) & Hlt). rewrite since_lower in Hel.
      apply list_elem_of_fmap in Hel as ([t0 o0] & [= -> ->] & Hel).
      destruct o0 as [a' j|a'| |]; simpl in Ho; try done. subst a'. by exists t0, j.
Qed.
End laws.
End gateways.

Definition no_jitter : f64 := f64_one.

Definition demo_calls : list (Z * op (Addr := Z)) :=
  [(from_secs 1, Failure 7 no_jitter); (from_secs 40, Failure 7 no_jitter); (from_secs 120, Failure 8 no_jitter);
   (from_secs 130, Failure 7 no_jitter); (from_secs 140, Success 8)].

Lemma gateway_backoff_bounded_witness :
  exists b, run map_to_list (new None) demo_calls = Some b /\ B.len (inner b) <= DEFAULT_MAX_ENTRIES /\
    is_in_backoff (from_secs 200) 7 b = true /\
    (is_in_backoff (from_secs 200) 7 b = true ->
     exists t j, (t, Failure 7 j) ∈ since (frees 7) demo_calls /\ from_secs 200 < t + from_secs 108).
Proof.
  destruct (gateway_backoff_bounded map_to_list (fun _ => reflexivity _) None 0 demo_calls (from_secs 200) 7)
    as (b & Hb & Hl & Hin); [done|by vm_compute| |].
  - repeat (apply Forall_cons_2; [first [exact F64Round.jitter_ok_one | exact I]|]). apply Forall_nil_2.
  - exists b. split_and!; [done|done| |done].
    assert (Hc : run map_to_list (new None) demo_calls = Some b) by done. revert Hc. clear. vm_compute. by intros [= <-].
Defined.

End PeerConnectionBackoff.
