(* ===== verification/ConnectionBackoff.v ===== *)
(** * Backoff of ring locations

    Models [src/crates/core/src/ring/connection_backoff.rs]: failed connection
    attempts are tracked per bucket of the ring, a timeout counting as two failures.
    A call that records a failure may read the clock and draw a jitter factor more
    than once; the readings are a function of the turn. *)

From S2P Require Import Prelude F64 F64Round Backoff.

Module ConnectionBackoff.
Module B := Backoff.

Abbreviation Instant := Z (only parsing).
Abbreviation Location := f64 (only parsing).

Inductive ConnectionFailureReason :=
| RoutingFailed | Timeout | Rejected | NatPunchFailed | HandshakeError | TransientError.

(** [f64::min] *)
Definition f64_min (x y : f64) : f64 :=
  if f64_is_nan x then y else if f64_is_nan y then x else if f64_lt y x then y else x.

(** [x as u8]: saturating. *)
Definition f64_to_u8 (x : f64) : Z := Z.min 255 (f64_to_u64 x).

(** [LocationBucket::from_location] *)
Definition from_location (loc : Location) : Z :=
  f64_to_u8 (f64_min (f64_mul loc (f64_of_Z 256)) (f64_of_Z 255)).

Definition DEFAULT_BASE_INTERVAL : Z := from_secs 30.
Definition DEFAULT_MAX_BACKOFF : Z := from_secs 600.
Definition DEFAULT_MAX_ENTRIES : Z := 256.
Definition TIMEOUT_FAILURE_ESCALATION : nat := 2.
Definition UNDER_MIN_REJECT_BACKOFF : Z := from_secs 3.

Section locations.
Variable order : gmap Z B.BackoffEntry -> list (Z * B.BackoffEntry).

Record ConnectionBackoff := mkBackoff { inner : B.TrackedBackoff (K := Z) }.

Definition new : ConnectionBackoff :=
  mkBackoff (B.new (B.mkConfig DEFAULT_BASE_INTERVAL DEFAULT_MAX_BACKOFF) DEFAULT_MAX_ENTRIES).

Definition is_in_backoff (now : Instant) (target : Location) (b : ConnectionBackoff) : bool :=
  B.is_in_backoff now (from_location target) (inner b).

Definition num_failures_to_record (reason : ConnectionFailureReason) : nat :=
  match reason with
  | Timeout => TIMEOUT_FAILURE_ESCALATION
  | TransientError => 1
  | RoutingFailed | Rejected | NatPunchFailed | HandshakeError => 1
  end.

Fixpoint record_times (readings : list (Instant * f64)) (bucket : Z) (t : B.TrackedBackoff) : option B.TrackedBackoff :=
  match readings with
  | [] => Some t
  | (now, jitter) :: readings => t ← B.record_failure order now jitter bucket t; record_times readings bucket t
  end.

Definition record_failure_with_reason (readings : nat -> Instant * f64) (target : Location)
    (reason : ConnectionFailureReason) (b : ConnectionBackoff) : option ConnectionBackoff :=
  mkBackoff <$> record_times (readings <$> seq 0 (num_failures_to_record reason)) (from_location target) (inner b).

Definition record_failure (readings : nat -> Instant * f64) (target : Location) (b : ConnectionBackoff)
    : option ConnectionBackoff :=
  record_failure_with_reason readings target RoutingFailed b.

Definition record_short_reject_backoff (now : Instant) (jitter : f64) (target : Location) (b : ConnectionBackoff)
    : option ConnectionBackoff :=
  mkBackoff <$> B.record_short_backoff order now jitter (from_location target) UNDER_MIN_REJECT_BACKOFF (inner b).

Definition record_success (target : Location) (b : ConnectionBackoff) : ConnectionBackoff :=
  mkBackoff (B.record_success (from_location target) (inner b)).

Definition cleanup_expired (now : Instant) (b : ConnectionBackoff) : ConnectionBackoff :=
  mkBackoff (B.cleanup_expired now (inner b)).

Definition clear (b : ConnectionBackoff) : ConnectionBackoff := mkBackoff (B.clear (inner b)).

(** ** Sequences of calls *)

Inductive call :=
| Failed (readings : nat -> Instant * f64) (target : Location) (reason : ConnectionFailureReason)
| ShortReject (now : Instant) (jitter : f64) (target : Location)
| Connected (now : Instant) (target : Location)
| Cleanup (now : Instant)
| Reset (now : Instant).

Definition step (b : option ConnectionBackoff) (c : call) : option ConnectionBackoff :=
  b ← b; match c with
         | Failed rs l r => record_failure_with_reason rs l r b
         | ShortReject now j l => record_short_reject_backoff now j l b
         | Connected _ l => Some (record_success l b)
         | Cleanup now => Some (cleanup_expired now b)
         | Reset _ => Some (clear b)
         end.

Definition run (b : ConnectionBackoff) (cs : list call) : option ConnectionBackoff := foldl step (Some b) cs.

(** The calls of the tracker a call makes. *)
Definition events_of (c : call) : list (Instant * B.op) :=
  match c with
  | Failed rs l r => (fun x => (x.1, B.Failure (from_location l) x.2)) <$> (rs <$> seq 0 (num_failures_to_record r))
  | ShortReject now j l => [(now, B.ShortBackoff (from_location l) j UNDER_MIN_REJECT_BACKOFF)]
  | Connected now l => [(now, B.Success (from_location l))]
  | Cleanup now => [(now, B.CleanupExpired)]
  | Reset now => [(now, B.Clear)]
  end.

Definition events (cs : list call) : list (Instant * B.op) := List.flat_map events_of cs.

Lemma from_location_range l : 0 <= from_location l <= 255.
Proof.
  unfold from_location, f64_to_u8, f64_to_u64. split; [|lia].
  assert (forall m e, 0 <= scale_floor (Z.pos m) e).
  { intros m e. unfold scale_floor. case_match.
    - apply Z.mul_nonneg_nonneg; [lia|]. apply Z.pow_nonneg. lia.
    - to_props. apply Z.div_pos; [lia|]. apply Z.pow_pos_nonneg; lia. }
  assert (0 <= u64_max) by done. repeat case_match; try lia. specialize (H m e). lia.
Qed.

Lemma record_times_events rs k t :
  record_times rs k t = foldl (B.step order) (Some t) ((fun x => (x.1, B.Failure k x.2)) <$> rs).
Proof.
  assert (Hn : forall es, foldl (B.step order) None es = None) by (induction es; done).
  revert t. induction rs as [|[now j] rs IH]; intros t; simpl; [done|].
  destruct (B.record_failure order now j k t); simpl; [apply IH|by rewrite Hn].
Qed.

Lemma run_events b cs : run b cs = mkBackoff <$> B.run order (inner b) (events cs).
Proof.
  unfold run, B.run. destruct b as [t]. cbn [inner]. change (Some (mkBackoff t)) with (mkBackoff <$> Some t).
  generalize (Some t). induction cs as [|c cs IH]; intros t'; [done|]. unfold events in *. cbn [List.flat_map foldl].
  rewrite foldl_app, <- IH. f_equal. destruct t' as [t'|].
  - destruct c; cbn [step mbind option_bind fmap option_fmap option_map events_of]; try done.
    unfold record_failure_with_reason. by rewrite record_times_events.
  - assert (Hn : forall es, foldl (B.step order) None es = None) by (induction es; done). by rewrite Hn.
Qed.

Definition call_ok (c : call) : Prop :=
  match c with
  | Failed rs _ r => forall i, (i < num_failures_to_record r)%nat -> F64Round.jitter_ok (rs i).2
  | ShortReject _ j _ => F64Round.jitter_ok j
  | _ => True
  end.

Section laws.
Hypothesis order_perm : forall m, order m ≡ₚ map_to_list m.

Let cfg : B.ExponentialBackoff := B.mkConfig DEFAULT_BASE_INTERVAL DEFAULT_MAX_BACKOFF.

Lemma events_ok cs : Forall call_ok cs -> Forall (B.event_ok cfg) (events cs).
Proof.
  induction 1 as [|c cs Hc _ IH]; simpl; [done|]. apply Forall_app. split; [|done].
  destruct c as [rs l r|now j l|now l|now|now]; simpl in *;
    [|apply Forall_cons_2; [first [exact I | split; [done|by vm_compute]]|by apply Forall_nil_2]..].
  apply Forall_fmap, Forall_fmap, Forall_forall. intros i Hi%elem_of_seq. apply Hc. lia.
Qed.

Lemma jittered_cfg d j :
  0 <= d <= B.max cfg -> F64Round.jitter_ok j -> exists d', dur_mul_f64 d j = Some d' /\ 0 <= d' <= from_secs 720.
Proof.
  intros Hd Hj. apply (F64Round.jittered_le d j 120); [|done|done].
  unfold cfg in Hd. cbn [B.max] in Hd. unfold DEFAULT_MAX_BACKOFF, from_secs in Hd. lia.
Qed.

(** A location is held back only if an attempt in its bucket failed, or was
    rejected, less than twelve minutes before, after the bucket was last freed. *)
Lemma location_backoff_bounded start cs now target :
  clock_monotone start (events cs) = true -> Forall call_ok cs ->
  exists b, run new cs = Some b /\
    (is_in_backoff now target b = true ->
     exists t, B.held_at (events cs) (from_location target) t /\ now < t + from_secs 720).
Proof using order_perm.
  intros Hm Hok.
  destruct (B.backoff_justified order order_perm cfg DEFAULT_MAX_ENTRIES (from_secs 720) ltac:(done) ltac:(done)
    jittered_cfg start (events cs) now (from_location target) Hm (events_ok cs Hok)) as (t & Ht & _ & Hin).
  exists (mkBackoff t). rewrite run_events. split; [|done].
  change (inner new) with (B.new (K := Z) cfg DEFAULT_MAX_ENTRIES). by rewrite Ht.
Qed.

Lemma bucket_count (m : gmap Z B.BackoffEntry) :
  (forall k, is_Some (m !! k) -> 0 <= k <= 255) -> Z.of_nat (size m) <= DEFAULT_MAX_ENTRIES.
Proof.
  intros Hm. rewrite <- (size_dom (D := gset Z)).
  assert (Hsub : dom m ⊆ (list_to_set (seqZ 0 256) : gset Z)).
  { intros k Hk%elem_of_dom. apply elem_of_list_to_set, elem_of_seqZ. specialize (Hm k Hk). lia. }
  apply subseteq_size in Hsub. rewrite size_list_to_set in Hsub by apply NoDup_seqZ.
  rewrite length_seqZ in Hsub. unfold DEFAULT_MAX_ENTRIES. lia.
Qed.

Lemma events_bucket cs t o k : (t, o) ∈ events cs -> B.holds k o -> 0 <= k <= 255.
Proof.
  unfold events. intros Hin Ho. apply list_elem_of_In, List.in_flat_map in Hin as (c & _ & Hin%list_elem_of_In).
  destruct c as [rs l r|now j l|now l|now|now]; simpl in Hin.
  - apply list_elem_of_fmap in Hin as (x & [= -> ->] & _). simpl in Ho. subst k. apply from_location_range.
  - apply list_elem_of_singleton in Hin as [= -> ->]. simpl in Ho. subst k. apply from_location_range.
  - by apply list_elem_of_singleton in Hin as [= -> ->].
  - by apply list_elem_of_singleton in Hin as [= -> ->].
  - by apply list_elem_of_singleton in Hin as [= -> ->].
Qed.

Lemma since_subset {A} (f : A -> bool) es x : x ∈ since f es -> x ∈ es.
Proof.
  induction es as [|e es IH] using rev_ind; [done|]. rewrite since_snoc. case_match; [by intros ?%not_elem_of_nil|].
  rewrite !elem_of_app. naive_solver.
Qed.

(** With 256 buckets and room for 256, the tracker of ring locations never evicts:
    recording a failure succeeds and leaves the backoff of every other bucket as it
    was. *)
Theorem failure_affects_own_bucket start cs b now jitter target :
  clock_monotone start (events cs) = true -> Forall call_ok cs -> run new cs = Some b -> F64Round.jitter_ok jitter ->
  exists b', record_failure (fun _ => (now, jitter)) target b = Some b' /\
    forall later other, from_location other <> from_location target ->
      is_in_backoff later other b' = is_in_backoff later other b.
Proof using order_perm.
  intros Hm Hok Hrun Hj. rewrite run_events in Hrun.
  destruct (B.backoff_run_inv order order_perm cfg DEFAULT_MAX_ENTRIES (from_secs 720) ltac:(done) ltac:(done) jittered_cfg
    start (events cs) Hm (events_ok cs Hok)) as (t & Ht & [Hc Hcap _ He]).
  change (inner new) with (B.new (K := Z) cfg DEFAULT_MAX_ENTRIES) in Hrun. rewrite Ht in Hrun. injection Hrun as <-.
  unfold record_failure, record_failure_with_reason. cbn [num_failures_to_record seq fmap list_fmap record_times inner].
  unfold B.record_failure. rewrite Hc.
  set (e := default _ (B.entries t !! from_location target)). set (n := sat_add32 (B.consecutive_failures e) 1).
  assert (Hn : 0 <= n).
  { unfold n, e, sat_add32, u32_max. destruct (B.entries t !! _) as [x|] eqn:Hx; simpl; [|lia].
    pose proof (B.ok_count _ _ _ _ _ (He _ _ Hx)). lia. }
  destruct (jittered_cfg _ jitter (B.delay_bounds cfg ltac:(done) n Hn) Hj) as (d & -> & _). cbn [mbind option_bind].
  unfold B.evict_if_needed, B.set_entries. cbn [B.entries B.max_entries B.config]. rewrite Hcap.
  match goal with |- context [B.evict_loop _ _ _ ?m] => set (m' := m) end.
  destruct (B.backoff_evict_loop_spec order order_perm (S (size m')) DEFAULT_MAX_ENTRIES m') as (m2 & -> & _ & _ & Hid & _); [lia|done|].
  assert (Hsz : Z.of_nat (size m') <= DEFAULT_MAX_ENTRIES).
  { apply bucket_count. intros k [x [[<- _] | [_ Hx]]%lookup_insert_Some]; [apply from_location_range|].
    destruct (B.ok_held _ _ _ _ _ (He k x Hx)) as (o & Ho & Hin%since_subset). by eapply events_bucket. }
  rewrite (Hid Hsz). eexists. split; [done|]. intros later other Hne. unfold is_in_backoff, B.is_in_backoff. simpl.
  unfold m'. by rewrite lookup_insert_ne.
Qed.
End laws.
End locations.

Definition half : Location := f64_div (f64_of_Z 1) (f64_of_Z 2).

Definition demo_calls : list call :=
  [Failed (fun _ => (from_secs 1, f64_one)) half Timeout; ShortReject (from_secs 2) f64_one f64_zero].

Lemma failure_affects_own_bucket_witness :
  exists b b', run map_to_list new demo_calls = Some b /\
    record_failure map_to_list (fun _ => (from_secs 3, f64_one)) f64_zero b = Some b' /\
    is_in_backoff (from_secs 60) half b' = is_in_backoff (from_secs 60) half b.
Proof.
  destruct (run map_to_list new demo_calls) as [b|] eqn:Hb; [|by vm_compute in Hb].
  destruct (failure_affects_own_bucket map_to_list (fun _ => reflexivity _) 0 demo_calls b (from_secs 3) f64_one f64_zero)
    as (b' & Hb' & Ho); [by vm_compute| |done|exact F64Round.jitter_ok_one|].
  - repeat (apply Forall_cons_2; [first [exact F64Round.jitter_ok_one | intros i _; exact F64Round.jitter_ok_one]|]).
    apply Forall_nil_2.
  - exists b, b'. split_and!; [done|done|]. apply Ho. by vm_compute.
Defined.

End ConnectionBackoff.
