(* ===== verification/DeltaIncompat.v ===== *)
(** * Contracts that cannot take deltas

    Models [src/crates/core/src/ring/delta_incompat.rs]: the memo that makes a node
    send full state instead of deltas for a contract that keeps rejecting deltas.
    Its evidence is the node's own failed applications, which always count, and
    resync requests that follow a delta, which count once two peers have made
    them.  Contract ids and socket addresses are any countable types. *)

From S2P Require Import Prelude BoundedMap.

Module DeltaIncompat.
Module BM := BoundedMap.

Abbreviation Instant := Z (only parsing).
Abbreviation Duration := Z (only parsing).

Definition DELTA_INCOMPAT_TTL : Duration := from_secs (10 * 60).
Definition DELTA_ATTRIBUTION_WINDOW : Duration := from_secs 60.
Definition INCOMPAT_TRIP_THRESHOLD : Z := 3.
Definition MAX_TRACKED_CONTRACTS : Z := 8192.
Definition MAX_TRACKED_DELTA_SENDS : Z := 16384.
Definition CONTRACT_CLEANUP_AGE : Duration := from_secs (20 * 60).

Section memo.
Context {C P : Type} `{eqC : EqDecision C, cntC : !Countable C, eqP : EqDecision P, cntP : !Countable P}.

Record ContractEntry := mkEntry {
  local_strikes : Z;
  resync_strikes : Z;
  first_resync_peer : option P;
  multi_peer_resync : bool;
  armed_until : option Instant;
  last_event : Instant;
}.

Definition new_entry (now : Instant) : ContractEntry := mkEntry 0 0 None false None now.

Definition effective_strikes (e : ContractEntry) : Z :=
  sat_add32 (local_strikes e) (if multi_peer_resync e then resync_strikes e else 0).

Record DeltaIncompat := mkMemo {
  contracts : BM.t (K := C) (V := ContractEntry);
  recent_delta_sends : BM.t (K := C * P) (V := Instant);
  armed_total : Z;
  suppressed_total : Z;
}.

Definition new : DeltaIncompat := mkMemo BM.empty BM.empty 0 0.

Definition set_contracts (m : BM.t) (d : DeltaIncompat) : DeltaIncompat :=
  mkMemo m (recent_delta_sends d) (armed_total d) (suppressed_total d).
Definition set_sends (m : BM.t) (d : DeltaIncompat) : DeltaIncompat :=
  mkMemo (contracts d) m (armed_total d) (suppressed_total d).

(** The insertion of a vacant entry with a size test in front. *)
Definition insert_below {K V} `{Countable K} (max : Z) (k : K) (v : V) (m : BM.t (K := K) (V := V)) : BM.t * bool :=
  if max <=? BM.count m then (m, false)
  else (BM.mk (<[k := v]> (BM.entries m)) (BM.count m +w64 1)%rust, true).

Definition record_delta_sent (now : Instant) (contract : C) (peer : P) (d : DeltaIncompat) : DeltaIncompat :=
  match BM.entries (recent_delta_sends d) !! (contract, peer) with
  | Some _ => set_sends (BM.set_entry (contract, peer) now (recent_delta_sends d)) d
  | None => set_sends (insert_below MAX_TRACKED_DELTA_SENDS (contract, peer) now (recent_delta_sends d)).1 d
  end.

(** One strike on an entry. *)
Definition add_strike (resync_peer : option P) (now : Instant) (e : ContractEntry) : ContractEntry :=
  match resync_peer with
  | Some peer =>
      mkEntry (local_strikes e) (sat_add32 (resync_strikes e) 1)
        (match first_resync_peer e with None => Some peer | first => first end)
        (match first_resync_peer e with
         | Some first => if decide (first = peer) then multi_peer_resync e else true
         | None => multi_peer_resync e
         end) (armed_until e) now
  | None =>
      mkEntry (sat_add32 (local_strikes e) 1) (resync_strikes e) (first_resync_peer e) (multi_peer_resync e)
        (armed_until e) now
  end.

(** [matches!(armed_until, Some(until) if until > now)] *)
Definition is_armed (now : Instant) (e : ContractEntry) : bool :=
  match armed_until e with Some until => now <? until | None => false end.

(** The test that follows every strike; the boolean says the memo is newly armed. *)
Definition arm (now : Instant) (e : ContractEntry) : ContractEntry * bool :=
  if INCOMPAT_TRIP_THRESHOLD <=? effective_strikes e then
    (mkEntry (local_strikes e) (resync_strikes e) (first_resync_peer e) (multi_peer_resync e)
       (Some (now + DELTA_INCOMPAT_TTL)) (last_event e), negb (is_armed now e))
  else (e, false).

Definition note_failure (contract : C) (now : Instant) (resync_peer : option P) (d : DeltaIncompat) : DeltaIncompat :=
  let '(m, e) :=
    match BM.entries (contracts d) !! contract with
    | Some e => (contracts d, Some e)
    | None =>
        let '(m, inserted) := insert_below MAX_TRACKED_CONTRACTS contract (new_entry now) (contracts d) in
        (m, if inserted then Some (new_entry now) else None)
    end in
  match e with
  | None => d
  | Some e =>
      let '(e, armed) := arm now (add_strike resync_peer now e) in
      mkMemo (BM.set_entry contract e m) (recent_delta_sends d)
        (if armed then (armed_total d +w64 1)%rust else armed_total d) (suppressed_total d)
  end.

Definition note_resync_request (now : Instant) (contract : C) (peer : P) (d : DeltaIncompat) : DeltaIncompat * bool :=
  match BM.remove (contract, peer) (recent_delta_sends d) with
  | (_, None) => (d, false)
  | (m, Some sent_at) =>
      let d := set_sends m d in
      if DELTA_ATTRIBUTION_WINDOW <? sat_sub now sent_at then (d, false)
      else (note_failure contract now (Some peer) d, true)
  end.

Definition note_delta_apply_failed (now : Instant) (contract : C) (d : DeltaIncompat) : DeltaIncompat :=
  note_failure contract now None d.

Definition suppress_deltas (now : Instant) (contract : C) (d : DeltaIncompat) : DeltaIncompat * bool :=
  let suppressed := match BM.entries (contracts d) !! contract with Some e => is_armed now e | None => false end in
  (if suppressed
   then mkMemo (contracts d) (recent_delta_sends d) (armed_total d) (suppressed_total d +w64 1)%rust else d, suppressed).

Definition record_delta_success (contract : C) (d : DeltaIncompat) : DeltaIncompat :=
  set_contracts (BM.remove contract (contracts d)).1 d.

Definition cleanup (now : Instant) (d : DeltaIncompat) : DeltaIncompat :=
  let d := set_sends (BM.retain (fun _ sent_at =>
    if sat_sub now sent_at <=? DELTA_ATTRIBUTION_WINDOW then Some sent_at else None) (recent_delta_sends d)) d in
  set_contracts (BM.retain (fun _ e =>
    if is_armed now e || (sat_sub now (last_event e) <=? CONTRACT_CLEANUP_AGE) then Some e else None) (contracts d)) d.

(** ** Sequences of calls

    The sender of a delta that failed to apply is part of the event, though the memo is not
    told ([op_ctx_task.rs], the [Invalid] arm of a received delta). *)

Inductive op :=
| DeltaSent (contract : C) (peer : P)
| Resync (contract : C) (peer : P)
| ApplyFailed (contract : C) (sender : P)
| Suppress (contract : C)
| Success (contract : C)
| Cleanup.

Definition step (d : DeltaIncompat) (e : Instant * op) : DeltaIncompat :=
  match e.2 with
  | DeltaSent c p => record_delta_sent e.1 c p d
  | Resync c p => (note_resync_request e.1 c p d).1
  | ApplyFailed c _ => note_delta_apply_failed e.1 c d
  | Suppress c => (suppress_deltas e.1 c d).1
  | Success c => record_delta_success c d
  | Cleanup => cleanup e.1 d
  end.

Definition run (d : DeltaIncompat) (es : list (Instant * op)) : DeltaIncompat := foldl step d es.

(** ** The evidence in a trace *)

#[export] Instance op_eq_dec : EqDecision op.
Proof using eqC eqP. solve_decision. Defined.

(** What happened since a delta for [c] last applied. *)
Definition history (c : C) (es : list (Instant * op)) : list (Instant * op) :=
  since (fun o => bool_decide (o = Success c)) es.

Definition is_local (c : C) (e : Instant * op) : Z :=
  match e.2 with ApplyFailed c' _ => if decide (c' = c) then 1 else 0 | _ => 0 end.
Definition is_resync (c : C) (e : Instant * op) : Z :=
  match e.2 with Resync c' _ => if decide (c' = c) then 1 else 0 | _ => 0 end.

Definition local_count (c : C) (es : list (Instant * op)) : Z := sumZ (is_local c) (history c es).
Definition resync_count (c : C) (es : list (Instant * op)) : Z := sumZ (is_resync c) (history c es).

(** Peer [p] asked for a resync of [c] within the attribution window of a delta
    this node had sent it. *)
Definition reported (es : list (Instant * op)) (c : C) (p : P) : Prop :=
  exists s t, (s, DeltaSent c p) ∈ es /\ (t, Resync c p) ∈ history c es /\ t - s <= DELTA_ATTRIBUTION_WINDOW.

Definition two_report (es : list (Instant * op)) (c : C) : Prop :=
  exists p1 p2, p1 <> p2 /\ reported es c p1 /\ reported es c p2.

Definition justified (es : list (Instant * op)) (c : C) : Prop :=
  INCOMPAT_TRIP_THRESHOLD <= local_count c es \/
  (INCOMPAT_TRIP_THRESHOLD <= local_count c es + resync_count c es /\ two_report es c).

(** A strike against [c] at time [t] in the history. *)
Definition struck (es : list (Instant * op)) (c : C) (t : Instant) : Prop :=
  exists e, e ∈ history c es /\ e.1 = t /\ is_local c e + is_resync c e = 1.

Record entry_ok (es : list (Instant * op)) (c : C) (e : ContractEntry) : Prop := {
  ok_local : local_strikes e <= local_count c es;
  ok_resync : resync_strikes e <= resync_count c es;
  ok_first : forall p, first_resync_peer e = Some p -> reported es c p;
  ok_multi : multi_peer_resync e = true -> two_report es c;
  ok_armed : forall u, armed_until e = Some u ->
    justified es c /\ exists t, struck es c t /\ u = t + DELTA_INCOMPAT_TTL;
}.

Record inv (es : list (Instant * op)) (d : DeltaIncompat) : Prop := {
  inv_contracts : map_Forall (entry_ok es) (BM.entries (contracts d));
  inv_sends : map_Forall (fun k s => (s, DeltaSent k.1 k.2) ∈ es) (BM.entries (recent_delta_sends d));
}.

Lemma is_local_nonneg c ev : 0 <= is_local c ev.
Proof. unfold is_local. repeat case_match; lia. Qed.
Lemma is_resync_nonneg c ev : 0 <= is_resync c ev.
Proof. unfold is_resync. repeat case_match; lia. Qed.

Section extension.
Variables (es : list (Instant * op)) (ev : Instant * op) (c : C).
Hypothesis not_success : ev.2 <> Success c.

Lemma history_snoc : history c (es ++ [ev]) = history c es ++ [ev].
Proof using not_success. unfold history. rewrite since_snoc. by rewrite bool_decide_eq_false_2. Qed.

Lemma local_count_snoc : local_count c (es ++ [ev]) = local_count c es + is_local c ev.
Proof using not_success. unfold local_count. rewrite history_snoc, sumZ_app. simpl. lia. Qed.

Lemma resync_count_snoc : resync_count c (es ++ [ev]) = resync_count c es + is_resync c ev.
Proof using not_success. unfold resync_count. rewrite history_snoc, sumZ_app. simpl. lia. Qed.

Lemma reported_snoc p : reported es c p -> reported (es ++ [ev]) c p.
Proof using not_success.
  intros (s & t & Hs & Ht & Hle). exists s, t. rewrite history_snoc, !elem_of_app. by auto.
Qed.

Lemma two_report_snoc : two_report es c -> two_report (es ++ [ev]) c.
Proof using not_success. intros (p1 & p2 & Hne & H1 & H2). exists p1, p2. auto using reported_snoc. Qed.

Lemma justified_snoc : justified es c -> justified (es ++ [ev]) c.
Proof using not_success.
  pose proof (is_local_nonneg c ev). pose proof (is_resync_nonneg c ev). unfold justified.
  rewrite local_count_snoc, resync_count_snoc. intros [?|[? ?]]; [left; lia|right].
  split; [lia|]. by apply two_report_snoc.
Qed.

Lemma struck_snoc t : struck es c t -> struck (es ++ [ev]) c t.
Proof using not_success.
  intros (e & He & Ht). exists e. rewrite history_snoc, elem_of_app. auto.
Qed.

Lemma delta_entry_ok_snoc e : entry_ok es c e -> entry_ok (es ++ [ev]) c e.
Proof using not_success.
  pose proof (is_local_nonneg c ev). pose proof (is_resync_nonneg c ev).
  intros [Hl Hr Hf Hm Ha]. split.
  - rewrite local_count_snoc. lia.
  - rewrite resync_count_snoc. lia.
  - eauto using reported_snoc.
  - eauto using two_report_snoc.
  - intros u Hu. destruct (Ha u Hu) as (Hj & t & Ht & ->). split; [by apply justified_snoc|].
    exists t. split; [by apply struck_snoc|done].
Qed.

(** The event that a strike stands for. *)
Definition strike_event (resync_peer : option P) : Prop :=
  match resync_peer with
  | Some p => ev.2 = Resync c p /\ reported (es ++ [ev]) c p
  | None => exists sender, ev.2 = ApplyFailed c sender
  end.

Lemma strike_counts rp :
  strike_event rp ->
  is_local c ev = match rp with Some _ => 0 | None => 1 end /\ is_resync c ev = match rp with Some _ => 1 | None => 0 end.
Proof.
  unfold is_local, is_resync. destruct rp; simpl; [intros [-> _]|intros [sender ->]]; by rewrite ?decide_True.
Qed.

Lemma add_strike_ok rp e :
  strike_event rp -> entry_ok es c e -> entry_ok (es ++ [ev]) c (add_strike rp ev.1 e).
Proof using not_success.
  intros Hev Hok. destruct (strike_counts rp Hev) as [Hl1 Hr1].
  pose proof (delta_entry_ok_snoc e Hok) as [_ _ Hf' Hm' Ha']. destruct Hok as [Hl Hr _ _ _].
  destruct rp as [p|]; split; simpl; rewrite ?local_count_snoc, ?resync_count_snoc; try done;
    try (unfold sat_add32; lia).
  - destruct Hev as [_ Hp]. intros p'. destruct (first_resync_peer e) as [f|] eqn:E; [by apply Hf'|].
    by intros [= <-].
  - destruct Hev as [_ Hp]. destruct (first_resync_peer e) as [f|] eqn:E; [|done].
    case_decide; [done|]. intros _. exists f, p. auto.
Qed.

Lemma arm_ok rp e :
  strike_event rp -> entry_ok (es ++ [ev]) c e -> entry_ok (es ++ [ev]) c (arm ev.1 e).1.
Proof using not_success.
  intros Hev [Hl Hr Hf Hm Ha]. unfold arm. destruct (_ <=? _) eqn:E; [|by split]. to_props.
  split; try done. simpl. intros u [= <-]. split.
  - unfold justified. unfold effective_strikes, sat_add32 in E. destruct (multi_peer_resync e); [right|left].
    + split; [lia|by apply Hm].
    + lia.
  - exists ev.1. split; [|done]. exists ev. destruct (strike_counts rp Hev) as [-> ->].
    rewrite history_snoc, elem_of_app, list_elem_of_singleton. destruct rp; auto.
Qed.
End extension.

Lemma new_entry_ok es c now : entry_ok es c (new_entry now).
Proof.
  assert (Hn : forall (f : Instant * op -> Z) l, (forall e, 0 <= f e) -> 0 <= sumZ f l) by (intros; by apply sumZ_nonneg).
  split; simpl; try done; apply Hn; intros; first [apply is_local_nonneg|apply is_resync_nonneg].
Qed.

Lemma contracts_snoc es ev (m : gmap C ContractEntry) :
  (forall c, ev.2 <> Success c) -> map_Forall (entry_ok es) m -> map_Forall (entry_ok (es ++ [ev])) m.
Proof. intros Hev Hm c e He. apply delta_entry_ok_snoc; [apply Hev|by apply Hm]. Qed.

Lemma sends_snoc (es : list (Instant * op)) (ev : Instant * op) (m : gmap (C * P) Instant) :
  map_Forall (fun k s => (s, DeltaSent k.1 k.2) ∈ es) m ->
  map_Forall (fun k s => (s, DeltaSent k.1 k.2) ∈ es ++ [ev]) m.
Proof. intros Hm k s Hk. apply elem_of_app. left. by apply Hm. Qed.

Lemma note_failure_inv es ev c rp d :
  (forall c, ev.2 <> Success c) -> strike_event es ev c rp ->
  map_Forall (entry_ok es) (BM.entries (contracts d)) ->
  map_Forall (entry_ok (es ++ [ev])) (BM.entries (contracts (note_failure c ev.1 rp d))).
Proof.
  intros Hns Hev Hc. pose proof (contracts_snoc es ev _ Hns Hc) as Hc'.
  assert (Hok : forall e, entry_ok es c e -> entry_ok (es ++ [ev]) c (arm ev.1 (add_strike rp ev.1 e)).1).
  { intros e He. eapply arm_ok; [apply Hns|done|]. by apply add_strike_ok. }
  unfold note_failure, insert_below.
  destruct (BM.entries (contracts d) !! c) as [e|] eqn:Hl; [|destruct (_ <=? _); [done|]];
    simpl; destruct (arm _ _) as [e' a] eqn:E; simpl;
    replace e' with (arm ev.1 (add_strike rp ev.1 (from_option id (new_entry ev.1) (BM.entries (contracts d) !! c)))).1
      by (rewrite Hl; simpl; by rewrite E); rewrite Hl; simpl.
  - apply map_Forall_insert_2; [|done]. apply Hok. by apply Hc.
  - rewrite insert_insert_eq. apply map_Forall_insert_2; [|done]. apply Hok. apply new_entry_ok.
Qed.

Lemma note_failure_sends c now rp d : recent_delta_sends (note_failure c now rp d) = recent_delta_sends d.
Proof. unfold note_failure. repeat (case_match; simpl; try done). Qed.

Lemma retain_Forall {K V} `{Countable K} (Q : K -> V -> Prop) f (m : BM.t (K := K) (V := V)) :
  (forall k v v', f k v = Some v' -> v' = v) ->
  map_Forall Q (BM.entries m) -> map_Forall Q (BM.entries (BM.retain f m)).
Proof.
  intros Hf Hm k v. simpl. rewrite map_lookup_imap. intros (v0 & Hv0 & Hs)%bind_Some.
  apply Hf in Hs as ->. by apply Hm.
Qed.

Lemma resync_inv es t c p d : inv es d -> inv (es ++ [(t, Resync c p)]) (note_resync_request t c p d).1.
Proof.
  intros [Hc Hs]. unfold note_resync_request, BM.remove.
  assert (Hns : forall c', (t, Resync c p).2 <> Success c') by done.
  pose proof (contracts_snoc es (t, Resync c p) _ Hns Hc) as Hc'.
  pose proof (sends_snoc es (t, Resync c p) _ Hs) as Hs'.
  destruct (BM.entries (recent_delta_sends d) !! (c, p)) as [s|] eqn:Hl; simpl; [|by split].
  destruct (_ <? _) eqn:E; simpl; [by split; [|apply map_Forall_delete]|]. to_props.
  split; [|rewrite note_failure_sends; by apply map_Forall_delete].
  apply (note_failure_inv es (t, Resync c p) c (Some p)); [done| |done]. split; [done|].
  exists s, t. rewrite history_snoc by done. split_and!.
  - by apply Hs' in Hl.
  - apply elem_of_app. right. by apply list_elem_of_singleton.
  - unfold sat_sub in E. lia.
Qed.

Lemma delta_success_inv es t c d : inv es d -> inv (es ++ [(t, Success c)]) (record_delta_success c d).
Proof.
  intros [Hc Hs]. split; simpl; [|by apply sends_snoc].
  assert (Hd : map_Forall (entry_ok (es ++ [(t, Success c)])) (delete c (BM.entries (contracts d)))).
  { intros c' e [Hne He]%lookup_delete_Some. apply delta_entry_ok_snoc; [simpl; congruence|by apply Hc]. }
  unfold BM.remove. destruct (BM.entries (contracts d) !! c) eqn:Hl; simpl; [done|]. by rewrite delete_id in Hd.
Qed.

Lemma delta_step_inv es d e : inv es d -> inv (es ++ [e]) (step d e).
Proof.
  intros Hinv. pose proof Hinv as [Hc Hs]. destruct e as [t o].
  pose proof (sends_snoc es (t, o) _ Hs) as Hs'.
  assert (Hc' : (forall c, o <> Success c) -> map_Forall (entry_ok (es ++ [(t, o)])) (BM.entries (contracts d))).
  { intros. by apply contracts_snoc. }
  destruct o as [c p|c p|c p|c|c|]; unfold step; simpl; try specialize (Hc' ltac:(done)).
  - assert (Hin : map_Forall (fun k s => (s, DeltaSent k.1 k.2) ∈ es ++ [(t, DeltaSent c p)])
        (<[(c, p) := t]> (BM.entries (recent_delta_sends d)))).
    { apply map_Forall_insert_2; [|done]. apply elem_of_app. right. by apply list_elem_of_singleton. }
    unfold record_delta_sent, insert_below. case_match; [by split|]. case_match; by split.
  - by apply resync_inv.
  - split; [|unfold note_delta_apply_failed; by rewrite note_failure_sends].
    apply (note_failure_inv es (t, ApplyFailed c p) c None); [done|by exists p|done].
  - unfold suppress_deltas. simpl. case_match; by split.
  - by apply delta_success_inv.
  - split; (apply retain_Forall; [intros k v v'; case_match; congruence|done]).
Qed.

Lemma delta_run_inv es : inv es (run new es).
Proof.
  unfold run. induction es as [|e es IH] using rev_ind; [by split; apply map_Forall_empty|].
  rewrite foldl_app. by apply delta_step_inv.
Qed.

(** Peer [q] had a part in a strike against [c]: it sent a delta that this node could not
    apply, or asked for a resync. *)
Definition struck_by (es : list (Instant * op)) (c : C) (q : P) : Prop :=
  exists t, (t, ApplyFailed c q) ∈ history c es \/ (t, Resync c q) ∈ history c es.

(** The deltas of [q] that failed to apply since one last applied. *)
Definition failed_deltas (q : P) (c : C) (es : list (Instant * op)) : Z :=
  sumZ (fun e => if decide (e.2 = ApplyFailed c q) then 1 else 0) (history c es).

Lemma single_source es c q :
  (forall q', struck_by es c q' -> q' = q) -> local_count c es = failed_deltas q c es.
Proof.
  intros Hq. unfold local_count, failed_deltas. apply sumZ_ext. intros [t o] He. unfold is_local. cbn.
  destruct o as [| |c' q'| | |]; try by rewrite decide_False. destruct (decide (c' = c)) as [-> |Hne].
  - rewrite (Hq q') by (exists t; by left). by rewrite decide_True.
  - rewrite decide_False; [done|congruence].
Qed.

(** C40: deltas are suppressed only on evidence.  Since a delta last applied, either
    the node itself failed to apply three, or there were three failures or requests
    in all and two different peers asked for a resync within a minute of a delta
    sent to them.  The last strike lies within the ten minutes before.  A single peer
    cannot bring this about by asking for resyncs: if all the strikes are one peer's,
    then at least three deltas of that peer were rejected on this node. *)
Theorem suppression_needs_corroboration es now c :
  (suppress_deltas now c (run new es)).2 = true ->
  justified es c /\ (exists t, struck es c t /\ now < t + DELTA_INCOMPAT_TTL) /\
  (forall q, (forall q', struck_by es c q' -> q' = q) -> INCOMPAT_TRIP_THRESHOLD <= failed_deltas q c es).
Proof.
  unfold suppress_deltas, is_armed. simpl. case_match eqn:He; [|done]. case_match eqn:Hu; [|done]. intros Hlt.
  to_props. destruct (inv_contracts _ _ (delta_run_inv es) c _ He) as [_ _ _ _ Ha].
  destruct (Ha _ Hu) as (Hj & t & Ht & ->). split_and!; [done|by exists t|].
  intros q Hq. rewrite <- (single_source es c q Hq). destruct Hj as [?|[_ (p1 & p2 & Hne & H1 & H2)]]; [done|].
  destruct H1 as (_ & t1 & _ & H1 & _), H2 as (_ & t2 & _ & H2 & _). destruct Hne.
  rewrite (Hq p1), (Hq p2); [done|exists t2; by right|exists t1; by right].
Qed.

End memo.

(** Two peers ask for a resync after a delta, and one of them a second time. *)
Definition demo_calls : list (Z * op (C := Z) (P := Z)) :=
  [(1, DeltaSent 7 1); (2, DeltaSent 7 2); (3, Resync 7 1); (4, DeltaSent 7 1); (5, Resync 7 1); (6, Resync 7 2)].

Lemma suppression_needs_corroboration_witness :
  (suppress_deltas 10 7 (run new demo_calls)).2 = true /\
  justified demo_calls 7 /\ exists t, struck demo_calls 7 t /\ 10 < t + DELTA_INCOMPAT_TTL.
Proof.
  assert (H : (suppress_deltas 10 7 (run new demo_calls)).2 = true) by by vm_compute.
  destruct (suppression_needs_corroboration demo_calls 10 7 H) as (Hj & Ht & _). done.
Defined.

(** The same requests from one peer arm nothing. *)
Example one_peer_does_not_arm :
  (suppress_deltas 10 7 (run new (demo_calls ++ [(7, Success 7); (8, DeltaSent 7 1); (9, Resync 7 1);
    (9, DeltaSent 7 1); (9, Resync 7 1); (9, DeltaSent 7 1); (9, Resync 7 1)]))).2 = false.
Proof. by vm_compute. Qed.

(** One peer whose deltas the contract rejects does: a local failure counts whoever sent the
    delta. *)
Example one_sender_arms :
  (suppress_deltas 10 7 (run new [(1, ApplyFailed 7 1); (2, ApplyFailed 7 1); (3, ApplyFailed (P := Z) 7 1)])).2 = true.
Proof. by vm_compute. Qed.

End DeltaIncompat.
