(* ===== verification/VisitedPeers.v ===== *)
(** * The peers a search has visited

    Models [src/crates/core/src/operations/visited_peers.rs]: a Bloom filter that
    travels with a search so that it does not return to a peer.  Its hash keys come
    from the transaction and are not sent; the receiver derives them again.

    The hash ([ahash]) is a parameter: a function of the two seeds and the address
    to a 64-bit number.  Nothing is assumed of it. *)

From S2P Require Import Prelude.

Module VisitedPeers.

Definition BLOOM_BITS : Z := 512.
Definition BLOOM_BYTES : nat := 64.
Definition NUM_HASHES : nat := 4.

Section filter.
Context {Addr : Type}.
Variable hash_one : Z * Z -> Addr -> Z.

Record VisitedPeers := mkVisited { bits : list Z; hash_keys : Z * Z }.

(** [u64::from_le_bytes] *)
Fixpoint from_le_bytes (bs : list Z) : Z :=
  match bs with [] => 0 | b :: bs => b + 2 ^ 8 * from_le_bytes bs end.

(** The sixteen bytes of a transaction id. *)
Definition derive_hash_keys (tx_bytes : list Z) : Z * Z :=
  (from_le_bytes (take 8 tx_bytes), from_le_bytes (take 8 (drop 8 tx_bytes))).

Definition new (tx : list Z) : VisitedPeers := mkVisited (replicate BLOOM_BYTES 0) (derive_hash_keys tx).
Definition default : VisitedPeers := mkVisited (replicate BLOOM_BYTES 0) (0, 0).

Definition with_transaction (tx : list Z) (v : VisitedPeers) : VisitedPeers :=
  mkVisited (bits v) (derive_hash_keys tx).

(** Serialised and deserialised: the keys are skipped and become zero. *)
Definition over_the_wire (v : VisitedPeers) : VisitedPeers := mkVisited (bits v) (0, 0).

Definition hash_indices (keys : Z * Z) (addr : Addr) : list Z :=
  let h1 := wrap64 (hash_one keys addr) in
  let h2 := wrap64 (hash_one (keys.1 +w64 11400714819323198485, keys.2 +w64 5871781006564002453)%rust addr) in
  [h1 mod BLOOM_BITS; (h1 +w64 h2)%rust mod BLOOM_BITS;
   (h1 +w64 wrap64 (h2 * 2))%rust mod BLOOM_BITS; (h1 +w64 wrap64 (h2 * 3))%rust mod BLOOM_BITS].

(** [self.bits[idx / 8] |= 1 << (idx % 8)]; [None] is an index out of bounds. *)
Definition set_bit (idx : Z) (bs : list Z) : option (list Z) :=
  byte ← bs !! Z.to_nat (idx / 8);
  Some (<[Z.to_nat (idx / 8) := Z.lor byte (Z.shiftl 1 (idx mod 8))]> bs).

Fixpoint set_bits (idxs : list Z) (bs : list Z) : option (list Z) :=
  match idxs with
  | [] => Some bs
  | idx :: idxs => bs ← set_bit idx bs; set_bits idxs bs
  end.

Definition mark_visited (addr : Addr) (v : VisitedPeers) : option VisitedPeers :=
  bs ← set_bits (hash_indices (hash_keys v) addr) (bits v); Some (mkVisited bs (hash_keys v)).

Fixpoint all_set (idxs : list Z) (bs : list Z) : option bool :=
  match idxs with
  | [] => Some true
  | idx :: idxs =>
      byte ← bs !! Z.to_nat (idx / 8);
      if Z.land byte (Z.shiftl 1 (idx mod 8)) =? 0 then Some false else all_set idxs bs
  end.

Definition probably_visited (addr : Addr) (v : VisitedPeers) : option bool :=
  all_set (hash_indices (hash_keys v) addr) (bits v).

(** ** A search: peers are marked, and the filter is forwarded *)

Inductive op := Mark (addr : Addr) | Forward.

Definition step (tx : list Z) (v : option VisitedPeers) (o : op) : option VisitedPeers :=
  v ← v; match o with
         | Mark addr => mark_visited addr v
         | Forward => Some (with_transaction tx (over_the_wire v))
         end.

Definition run (tx : list Z) (os : list op) : option VisitedPeers := foldl (step tx) (Some (new tx)) os.

(** ** The set of bits *)

Definition valid (idx : Z) : Prop := 0 <= idx < BLOOM_BITS.

Definition bit (bs : list Z) (idx : Z) : bool := Z.testbit (nth (Z.to_nat (idx / 8)) bs 0) (idx mod 8).

Lemma byte_index idx : valid idx -> (Z.to_nat (idx / 8) < BLOOM_BYTES)%nat /\ 0 <= idx mod 8 < 8.
Proof.
  unfold valid, BLOOM_BITS, BLOOM_BYTES. intros Hi. split; [|by apply Z.mod_pos_bound].
  assert (0 <= idx / 8 < 64); [|lia]. split; [apply Z.div_pos; lia|apply Z.div_lt_upper_bound; lia].
Qed.

Lemma hash_indices_valid keys addr : Forall valid (hash_indices keys addr).
Proof. repeat constructor; apply Z.mod_pos_bound; unfold BLOOM_BITS; lia. Qed.

Lemma byte_lookup bs idx :
  length bs = BLOOM_BYTES -> valid idx -> bs !! Z.to_nat (idx / 8) = Some (nth (Z.to_nat (idx / 8)) bs 0).
Proof.
  intros Hl [Hi _]%byte_index. rewrite <- Hl in Hi. destruct (lookup_lt_is_Some_2 bs _ Hi) as [b Hb].
  by rewrite Hb, (nth_lookup_Some _ _ 0 _ Hb).
Qed.

Lemma land_bit_zero b k : 0 <= k -> (Z.land b (Z.shiftl 1 k) =? 0) = negb (Z.testbit b k).
Proof.
  intros Hk. rewrite Z.shiftl_1_l. destruct (Z.testbit b k) eqn:E; simpl.
  - apply Z.eqb_neq. intros H0. assert (Hb : Z.testbit (Z.land b (2 ^ k)) k = true).
    { by rewrite Z.land_spec, E, Z.pow2_bits_true. }
    by rewrite H0, Z.bits_0 in Hb.
  - apply Z.eqb_eq. apply Z.bits_inj'. intros n Hn. rewrite Z.land_spec, Z.bits_0.
    destruct (decide (n = k)) as [-> | Hne]; [by rewrite E|]. rewrite Z.pow2_bits_false by done. apply andb_false_r.
Qed.

(** Setting a bit sets that bit and no other. *)
Lemma set_bit_spec idx bs :
  length bs = BLOOM_BYTES -> valid idx ->
  exists bs', set_bit idx bs = Some bs' /\ length bs' = BLOOM_BYTES /\
    forall j, valid j -> bit bs' j = bit bs j || (j =? idx).
Proof.
  intros Hl Hi. unfold set_bit. rewrite (byte_lookup bs idx Hl Hi). simpl. eexists. split; [done|].
  split; [by rewrite length_insert|]. intros j Hj. unfold bit.
  destruct (byte_index idx Hi) as [Hb Hm], (byte_index j Hj) as [Hbj Hmj]. rewrite Z.shiftl_1_l.
  pose proof (Z.div_mod j 8 ltac:(lia)). pose proof (Z.div_mod idx 8 ltac:(lia)).
  pose proof (Z.div_pos j 8 ltac:(unfold valid in *; lia) ltac:(lia)).
  pose proof (Z.div_pos idx 8 ltac:(unfold valid in *; lia) ltac:(lia)).
  destruct (decide (Z.to_nat (j / 8) = Z.to_nat (idx / 8))) as [He|He].
  - rewrite He. erewrite nth_lookup_Some by (apply list_lookup_insert_eq; rewrite Hl; done).
    rewrite Z.lor_spec. f_equal. rewrite Z.pow2_bits_eqb by lia. apply eq_true_iff_eq. rewrite !Z.eqb_eq. lia.
  - rewrite !nth_lookup, list_lookup_insert_ne by done.
    assert ((j =? idx) = false) as -> by (apply Z.eqb_neq; intros ->; done). by rewrite orb_false_r.
Qed.

Lemma set_bits_spec idxs bs :
  length bs = BLOOM_BYTES -> Forall valid idxs ->
  exists bs', set_bits idxs bs = Some bs' /\ length bs' = BLOOM_BYTES /\
    forall j, valid j -> bit bs' j = bit bs j || bool_decide (j ∈ idxs).
Proof.
  intros Hl Hv. revert bs Hl. induction Hv as [|idx idxs Hi Hv IH]; intros bs Hl; simpl.
  - exists bs. split_and!; [done|done|]. intros j _. by rewrite orb_false_r.
  - destruct (set_bit_spec idx bs Hl Hi) as (bs1 & -> & Hl1 & Hb1). simpl.
    destruct (IH bs1 Hl1) as (bs2 & -> & Hl2 & Hb2). exists bs2. split_and!; [done|done|].
    intros j Hj. rewrite Hb2, Hb1 by done. rewrite <- orb_assoc. f_equal. apply eq_true_iff_eq.
    rewrite orb_true_iff, Z.eqb_eq, !bool_decide_eq_true, elem_of_cons. done.
Qed.

Lemma all_set_spec idxs bs :
  length bs = BLOOM_BYTES -> Forall valid idxs -> all_set idxs bs = Some (forallb (bit bs) idxs).
Proof.
  intros Hl Hv. induction Hv as [|idx idxs Hi Hv IH]; simpl; [done|].
  rewrite (byte_lookup bs idx Hl Hi). simpl. rewrite land_bit_zero by (by apply byte_index).
  unfold bit at 1. destruct (Z.testbit _ _); simpl; [done|done].
Qed.

(** The bits of the addresses marked so far, whatever hops lie in between. *)
Lemma run_bits tx os :
  exists v, run tx os = Some v /\ length (bits v) = BLOOM_BYTES /\ hash_keys v = derive_hash_keys tx /\
    forall j, valid j -> bit (bits v) j = true <->
      exists a, Mark a ∈ os /\ j ∈ hash_indices (derive_hash_keys tx) a.
Proof.
  generalize (hash_indices_valid (derive_hash_keys tx)). unfold run, step, mark_visited.
  intros Hval. induction os as [|o os IH] using rev_ind.
  - exists (new tx). split_and!; [done|done|done|]. intros j Hj. split.
    + unfold bit, new. cbn [bits]. rewrite nth_lookup. destruct (_ !! _) as [x|] eqn:E; simpl.
      * apply lookup_replicate in E as [-> _]. by rewrite Z.bits_0.
      * by rewrite Z.bits_0.
    + by intros (a & Ha%not_elem_of_nil & _).
  - destruct IH as (v & Hv & Hl & Hk & Hb). rewrite foldl_app, Hv. destruct o as [a|]; cbn [foldl mbind option_bind].
    + rewrite Hk. destruct (set_bits_spec _ (bits v) Hl (Hval a)) as (bs & -> & Hl' & Hb'). cbn [mbind option_bind].
      eexists. split_and!; [done|done|done|]. cbn [bits]. intros j Hj. rewrite Hb' by done.
      rewrite orb_true_iff, bool_decide_eq_true, (Hb j Hj). split.
      * intros [(a' & Ha & Hin) | Hin]; [exists a'|exists a]; rewrite elem_of_app, list_elem_of_singleton; auto.
      * intros (a' & [Ha | [= ->]%list_elem_of_singleton]%elem_of_app & Hin); [left; by exists a'|by right].
    + eexists. split_and!; [done|done|done|]. cbn [bits with_transaction over_the_wire]. intros j Hj.
      rewrite (Hb j Hj). split; intros (a & Ha & Hin); exists a; (split; [|done]).
      * apply elem_of_app. by left.
      * apply elem_of_app in Ha as [Ha | Ha%list_elem_of_singleton]; done.
Qed.

(** The filter answers exactly from the hashes.  However a search marks peers and
    forwards the filter from node to node, no index is out of bounds, and a peer is
    reported visited if and only if each of its bits was set by some marked peer; so
    a marked peer is always reported, and a search never returns to it. *)
Lemma visited_exact (tx : list Z) (os : list op) (a : Addr) :
  exists v b, run tx os = Some v /\ probably_visited a v = Some b /\
    (b = true <-> forall j, j ∈ hash_indices (derive_hash_keys tx) a ->
      exists a', Mark a' ∈ os /\ j ∈ hash_indices (derive_hash_keys tx) a') /\
    (Mark a ∈ os -> b = true).
Proof.
  destruct (run_bits tx os) as (v & Hv & Hl & Hk & Hb). exists v.
  pose proof (hash_indices_valid (derive_hash_keys tx) a) as Hval. rewrite Forall_forall in Hval.
  unfold probably_visited. rewrite Hk, all_set_spec by (done || apply hash_indices_valid). eexists.
  assert (Hiff : forallb (bit (bits v)) (hash_indices (derive_hash_keys tx) a) = true <->
    forall j, j ∈ hash_indices (derive_hash_keys tx) a ->
      exists a', Mark a' ∈ os /\ j ∈ hash_indices (derive_hash_keys tx) a').
  { rewrite forallb_forall. split; intros H j Hj.
    - apply Hb; [by apply Hval|]. apply H. by apply list_elem_of_In.
    - apply list_elem_of_In in Hj. apply Hb; [by apply Hval|]. by apply H. }
  split_and!; [done|done|done|]. intros Ha. apply Hiff. intros j Hj. by exists a.
Qed.

End filter.

(** Deserialisation without [with_transaction] loses the keys: a marked peer is not
    found until they are restored. *)
Example keys_must_be_restored :
  let h (keys : Z * Z) (a : Z) := keys.1 + 7 * a in
  let tx := [1; 2; 3; 4; 5; 6; 7; 8; 9; 10; 11; 12; 13; 14; 15; 16] in
  exists v, mark_visited h 5 (new tx) = Some v /\
    probably_visited h 5 (over_the_wire v) = Some false /\
    probably_visited h 5 (with_transaction tx (over_the_wire v)) = Some true.
Proof. eexists. by vm_compute. Qed.

End VisitedPeers.
