(* ===== verification/Location.v ===== *)
(** * Ring locations

    Models [src/crates/core/src/ring/location.rs]: locations and distances on the
    unit ring, the location of a network address and of a contract key.

    A [debug_assert] that fails is [None], as a panic is.  The hash of a location,
    which writes its bits, is its float. *)

From S2P Require Import Prelude F64 F64Round.
From Stdlib Require Import SpecFloat.

Module Location.

#[local] Open Scope Z_scope.

Definition f64_abs (x : f64) : f64 := SFabs x.
Definition half : f64 := f64_div f64_one (f64_of_Z 2).
Definition minus_half : f64 := SFopp half.
(** [f64::EPSILON], [2^-52]. *)
Definition EPSILON : f64 := f64_div f64_one (f64_of_Z (2 ^ 52)).

(** [(0.0..=1.0).contains(&x)] *)
Definition in_unit (x : f64) : bool := f64_le f64_zero x && f64_le x f64_one.

(** [x.rem_euclid(1.0)]: the remainder is exact, a negative one is moved up by one. *)
Definition rem_euclid_one (x : f64) : f64 :=
  match x with
  | S754_zero s => S754_zero s
  | S754_finite s m e =>
      let r := if 0 <=? e then S754_zero s
               else match Z.pos m mod 2 ^ (- e) with
                    | Z.pos r => binary_normalize f64_prec f64_emax (if s then Z.neg r else Z.pos r) e s
                    | _ => S754_zero s
                    end in
      if f64_lt r f64_zero then f64_add r f64_one else r
  | _ => S754_nan
  end.

(** ** Distances *)

Record Distance := mkDistance { distance_value : f64 }.

Definition new_distance (value : f64) : option Distance :=
  if f64_is_nan value then None
  else if negb (in_unit value) then None
  else if f64_le value half then Some (mkDistance value) else Some (mkDistance (f64_sub f64_one value)).

Definition add_distance (a b : Distance) : option Distance :=
  let d := f64_add (distance_value a) (distance_value b) in
  if f64_lt half d then new_distance (f64_sub f64_one d) else new_distance d.

Definition distance_eq (a b : Distance) : bool :=
  f64_lt (f64_abs (f64_sub (distance_value a) (distance_value b))) EPSILON.

(** [None] is the panic of an incomparable value. *)
Definition distance_cmp (a b : Distance) : option comparison :=
  f64_partial_cmp (distance_value a) (distance_value b).

(** ** Locations *)

Record Location := mkLocation { as_f64 : f64 }.

Definition new (location : f64) : option Location :=
  if in_unit location then Some (mkLocation location) else None.

Definition new_rounded (location : f64) : option Location := new (rem_euclid_one location).

Definition try_from (value : f64) : option Location :=
  if negb (in_unit value) then None else Some (mkLocation value).

Definition distance (a b : Location) : option Distance :=
  let d := f64_abs (f64_sub (as_f64 a) (as_f64 b)) in
  if f64_lt d half then new_distance d else new_distance (f64_sub f64_one d).

Definition signed_distance (a b : Location) : f64 :=
  let diff := f64_sub (as_f64 b) (as_f64 a) in
  if f64_lt half diff then f64_sub diff f64_one
  else if f64_lt diff minus_half then f64_add diff f64_one
  else if f64_eq diff minus_half then half
  else diff.

(** The two locations at a distance. *)
Definition add (l : Location) (d : Distance) : Location * Location :=
  (mkLocation (f64_sub (as_f64 l) (distance_value d)), mkLocation (f64_add (as_f64 l) (distance_value d))).

Definition location_eq (a b : Location) : bool := f64_lt (f64_abs (f64_sub (as_f64 a) (as_f64 b))) EPSILON.
Definition location_cmp (a b : Location) : option comparison := f64_partial_cmp (as_f64 a) (as_f64 b).
Definition location_hash (l : Location) : f64 := as_f64 l.

(** ** Contract keys *)

Fixpoint key_loop (bytes : list Byte.byte) (value divisor : f64) : f64 :=
  match bytes with
  | [] => value
  | b :: bytes =>
      key_loop bytes (f64_add value (f64_div (f64_of_Z (Z.of_N (Byte.to_N b))) divisor))
        (f64_mul divisor (f64_of_Z 256))
  end.

Definition from_contract_key (bytes : list Byte.byte) : option Location :=
  try_from (key_loop bytes f64_zero (f64_of_Z 256)).

(** ** Network addresses *)

(** Addresses as the 32-bit value of an IPv4 address, or the eight segments of an
    IPv6 address. *)
Inductive IpAddr := V4 (value : Z) | V6 (s0 s1 s2 s3 s4 s5 s6 s7 : Z).
Record SocketAddr := mkAddr { ip : IpAddr; port : Z }.

Definition wrapping_mul (a b : Z) : Z := wrap64 (a * b).
Definition xor_shift (n h : Z) : Z := Z.lxor h (Z.shiftr h n).

Definition distribute_hash (x : Z) : Z :=
  let h := wrapping_mul x 0x517cc1b727220a95 in
  let h := xor_shift 32 h in
  let h := wrapping_mul h 0x4cf5ad432745937f in
  let h := xor_shift 28 h in
  let h := wrapping_mul h 0x2f38a814cad5c4ed in
  xor_shift 31 h.

(** What is hashed. *)
Definition hash_input (addr : SocketAddr) : Z :=
  match ip addr with
  | V4 value =>
      let masked := Z.land value 0xFFFFFF00 in
      if Z.shiftr value 24 =? 127 then Z.lor masked (wrap64 (Z.shiftl (port addr) 32)) else masked
  | V6 s0 s1 s2 s3 s4 s5 s6 s7 =>
      let combined := Z.lor (Z.lor (Z.shiftl s0 32) (Z.shiftl s1 16)) s2 in
      let loopback := forallb (Z.eqb 0) [s0; s1; s2; s3; s4; s5; s6] && (s7 =? 1) in
      if loopback || (combined =? 0) then Z.lor combined (wrap64 (Z.shiftl (port addr) 48)) else combined
  end.

Definition deterministic_loc (addr : SocketAddr) : Location :=
  mkLocation (f64_div (f64_of_Z (distribute_hash (hash_input addr))) (f64_of_Z u64_max)).

Definition from_address (addr : SocketAddr) : Location := deterministic_loc addr.

(** ** The hash loses nothing *)

(** The inverse of [xor_shift], where three shifts clear the word. *)
Definition xor_unshift (n h : Z) : Z := Z.lxor h (Z.lxor (Z.shiftr h n) (Z.shiftr h (2 * n))).

Definition undistribute_hash (h : Z) : Z :=
  let h := xor_unshift 31 h in
  let h := wrapping_mul h 0x354930355f1f38e5 in
  let h := xor_unshift 28 h in
  let h := wrapping_mul h 0xa81e14edd9de2c7f in
  let h := xor_unshift 32 h in
  wrapping_mul h 0x2040003d780970bd.

Lemma u64_shiftr x : is_u64 x <-> Z.shiftr x 64 = 0.
Proof.
  rewrite Z.shiftr_div_pow2 by lia. pose proof (Z.div_mod x (2 ^ 64) ltac:(lia)).
  pose proof (Z.mod_pos_bound x (2 ^ 64) ltac:(lia)). split; intros Hx.
  - apply Z.div_small. int_lia.
  - rewrite Hx in *. int_lia.
Qed.

Lemma shiftr_u64 n h : 0 <= n -> is_u64 h -> is_u64 (Z.shiftr h n).
Proof. rewrite !u64_shiftr. intros Hn Hh. rewrite Z.shiftr_shiftr, Z.add_comm, <- Z.shiftr_shiftr, Hh by lia. apply Z.shiftr_0_l. Qed.

Lemma lxor_u64 a b : is_u64 a -> is_u64 b -> is_u64 (Z.lxor a b).
Proof. rewrite !u64_shiftr, Z.shiftr_lxor. by intros -> ->. Qed.

Lemma shiftr_all n h : 64 <= n -> is_u64 h -> Z.shiftr h n = 0.
Proof.
  rewrite u64_shiftr. intros Hn Hh. replace n with (64 + (n - 64)) by lia.
  rewrite <- Z.shiftr_shiftr, Hh by lia. apply Z.shiftr_0_l.
Qed.

Lemma xor_shift_u64 n h : 0 <= n -> is_u64 h -> is_u64 (xor_shift n h).
Proof. intros. apply lxor_u64; [done|by apply shiftr_u64]. Qed.

Lemma xor_unshift_u64 n h : 0 <= n -> is_u64 h -> is_u64 (xor_unshift n h).
Proof. intros. repeat apply lxor_u64; try done; apply shiftr_u64; lia || done. Qed.

Lemma lxor_telescope a b c d : Z.lxor (Z.lxor a b) (Z.lxor (Z.lxor b c) (Z.lxor c d)) = Z.lxor a d.
Proof.
  rewrite (Z.lxor_assoc b c), <- (Z.lxor_assoc c c), Z.lxor_nilpotent, Z.lxor_0_l.
  by rewrite Z.lxor_assoc, <- (Z.lxor_assoc b b), Z.lxor_nilpotent, Z.lxor_0_l.
Qed.

Lemma xor_unshift_shift n h : 22 <= n -> is_u64 h -> xor_unshift n (xor_shift n h) = h.
Proof.
  intros Hn Hh. unfold xor_unshift, xor_shift. rewrite !Z.shiftr_lxor, !Z.shiftr_shiftr by lia.
  replace (n + n) with (2 * n) by lia. rewrite lxor_telescope, (shiftr_all (n + 2 * n)) by (lia || done).
  apply Z.lxor_0_r.
Qed.

Lemma xor_shift_unshift n h : 22 <= n -> is_u64 h -> xor_shift n (xor_unshift n h) = h.
Proof.
  intros Hn Hh. unfold xor_unshift, xor_shift. rewrite !Z.shiftr_lxor, !Z.shiftr_shiftr by lia.
  replace (n + n) with (2 * n) by lia. replace (2 * n + n) with (n + 2 * n) by lia.
  rewrite (shiftr_all (n + 2 * n)), Z.lxor_0_r by (lia || done).
  rewrite Z.lxor_assoc, Z.lxor_nilpotent. apply Z.lxor_0_r.
Qed.

Lemma wrapping_mul_inverse a a' x : wrap64 (a * a') = 1 -> is_u64 x -> wrapping_mul (wrapping_mul x a) a' = x.
Proof.
  intros Ha Hx. unfold wrapping_mul, wrap64 in *. rewrite Zmult_mod_idemp_l, <- Z.mul_assoc, Zmult_mod, Ha.
  rewrite Z.mul_1_r, Zmod_mod. by apply wrap64_id.
Qed.

Lemma wrapping_mul_u64 a b : is_u64 (wrapping_mul a b).
Proof. apply wrap64_range. Qed.

Ltac in_words := repeat first [apply wrapping_mul_u64 | apply xor_shift_u64 | apply xor_unshift_u64 | lia | done].

Lemma hash_inverse x :
  is_u64 x ->
  undistribute_hash (distribute_hash x) = x /\ distribute_hash (undistribute_hash x) = x /\
  is_u64 (distribute_hash x) /\ is_u64 (undistribute_hash x).
Proof.
  intros Hx. unfold undistribute_hash, distribute_hash. split_and!; [| |in_words..].
  - rewrite xor_unshift_shift, wrapping_mul_inverse, xor_unshift_shift, wrapping_mul_inverse, xor_unshift_shift by in_words.
    by apply wrapping_mul_inverse.
  - rewrite wrapping_mul_inverse, xor_shift_unshift, wrapping_mul_inverse, xor_shift_unshift, wrapping_mul_inverse by in_words.
    by apply xor_shift_unshift.
Qed.

(** ** Distances on the ring *)

Import F64Round.

(** A location in [[0, 1]]. *)
Definition valid (l : Location) : Prop := ok (as_f64 l) /\ fz (as_f64 l) <= U.

Lemma one_ok : ok f64_one /\ fz f64_one = U.
Proof. destruct (f64_of_Z_exact 1) as [Hok H]; [lia|]. split; [done|]. unfold f64_one. rewrite H. lia. Qed.
Lemma U_half : U = 2 * 2 ^ 1073.
Proof. by vm_compute. Qed.
Lemma half_eq : half = S754_finite false 4503599627370496 (-53).
Proof. by vm_compute. Qed.
Lemma minus_half_eq : minus_half = S754_finite true 4503599627370496 (-53).
Proof. by vm_compute. Qed.
Lemma one_eq : f64_one = S754_finite false 4503599627370496 (-52).
Proof. by vm_compute. Qed.
Lemma half_ok : ok half /\ fz half = 2 ^ 1073.
Proof. split; [|by vm_compute]. vm_compute. split_and!; [done|done|done|by right]. Qed.

Lemma fz_inj x y : ok x -> ok y -> fz x = fz y -> x = y.
Proof.
  intros Hx Hy He.
  destruct (ok_cases x Hx) as [[Ex ->]|(mx & ex & -> & Ex & Px & Hex & Hmx & Hnx)];
    destruct (ok_cases y Hy) as [[Ey ->]|(my & ey & -> & Ey & Py & Hey & Hmy & Hny)]; try done; try lia.
  rewrite Ex, Ey in He. assert (0 < 2 ^ (ex + 1074)) by (apply Z.pow_pos_nonneg; lia).
  destruct (Z.lt_trichotomy ex ey) as [Hlt|[->|Hgt]].
  - pose proof (canonical_lt mx ex my ey ltac:(lia) Hlt Hmx ltac:(lia)). lia.
  - apply Z.mul_cancel_r in He; [|lia]. by injection He as ->.
  - pose proof (canonical_lt my ey mx ex ltac:(lia) Hgt Hmy ltac:(lia)). lia.
Qed.

Lemma abs_ok x : ok x -> f64_abs x = x.
Proof. by destruct x as [[]| | |[]]. Qed.

Lemma abs_opp x : f64_abs (SFopp x) = f64_abs x.
Proof. by destruct x. Qed.

Lemma round_aux_opp m e l :
  binary_round_aux f64_prec f64_emax true m e l = SFopp (binary_round_aux f64_prec f64_emax false m e l).
Proof. unfold binary_round_aux. by repeat case_match. Qed.

Lemma opp_opp x : SFopp (SFopp x) = x.
Proof. by destruct x as [[]|[]| |[]]. Qed.

Lemma normalize_opp z e s s' : z <> 0 ->
  binary_normalize f64_prec f64_emax (- z) e s = SFopp (binary_normalize f64_prec f64_emax z e s').
Proof.
  intros Hz. destruct z as [|p|p]; [done|rewrite Pos2Z.opp_pos|rewrite Pos2Z.opp_neg];
    unfold binary_normalize, binary_round; destruct (shl_align p e _) as [m' e'];
    by rewrite round_aux_opp, ?opp_opp.
Qed.

Lemma finite_sub mx ex my ey :
  f64_sub (S754_finite false mx ex) (S754_finite false my ey) =
  binary_normalize f64_prec f64_emax
    (Z.pos (shl_align mx ex (Z.min ex ey)).1 - Z.pos (shl_align my ey (Z.min ex ey)).1) (Z.min ex ey) false.
Proof. done. Qed.

(** Subtraction changes sign with its arguments. *)
Lemma sub_opp x y : ok x -> ok y -> fz x <> fz y -> f64_sub y x = SFopp (f64_sub x y).
Proof.
  intros Hx Hy Hne.
  destruct (ok_cases x Hx) as [[_ ->]|(mx & ex & -> & Ex & _ & Hex & _)];
    destruct (ok_cases y Hy) as [[_ ->]|(my & ey & -> & Ey & _ & Hey & _)]; try done.
  rewrite !finite_sub, (Z.min_comm ey ex). rewrite <- (normalize_opp _ _ false false).
  - f_equal. lia.
  - intros E. apply Hne. rewrite Ex, Ey, (fz_align mx ex (Z.min ex ey)), (fz_align my ey (Z.min ex ey)) by lia.
    f_equal. lia.
Qed.

Lemma sub_abs_comm x y : ok x -> ok y -> f64_abs (f64_sub x y) = f64_abs (f64_sub y x).
Proof.
  intros Hx Hy. destruct (decide (fz x = fz y)) as [E|E].
  - apply fz_inj in E as ->; done.
  - by rewrite (sub_opp x y), abs_opp.
Qed.

(** Adding one to a negated float is subtracting it from one. *)
Lemma add_opp_one x : ok x -> f64_add (SFopp x) f64_one = f64_sub f64_one x.
Proof.
  intros Hx. destruct (ok_cases x Hx) as [[_ ->]|(mx & ex & -> & _)]; [by vm_compute|].
  rewrite one_eq, finite_sub.
  unfold f64_add. cbn [SFopp SFadd negb cond_Zopp]. rewrite (Z.min_comm ex (-52)). f_equal.
Qed.

(** A difference of two locations. *)
Lemma sub_unit x y : ok x -> ok y -> fz y <= fz x <= U ->
  ok (f64_sub x y) /\ fz (f64_sub x y) <= U.
Proof.
  intros Hx Hy Hle. pose proof (f64_sub_rounds x y Hx Hy ltac:(lia)) as Hr. pose proof (fz_nonneg y).
  change U with (1 * 2 ^ 1074). apply (rounds_le _ _ _ 1 1074 Hr); [lia|lia|]. change (1 * 2 ^ 1074) with U. lia.
Qed.

Lemma one_sub_half x : ok x -> 2 ^ 1073 <= fz x <= U -> ok (f64_sub f64_one x) /\ fz (f64_sub f64_one x) <= 2 ^ 1073.
Proof.
  intros Hx Hle. destruct one_ok as [H1 E1].
  pose proof (f64_sub_rounds f64_one x H1 Hx ltac:(lia)) as Hr. rewrite E1 in Hr.
  replace (2 ^ 1073) with (1 * 2 ^ 1073) by lia. apply (rounds_le _ _ _ 1 1073 Hr); [lia|lia|]. rewrite U_half. lia.
Qed.

Lemma new_distance_small x : ok x -> fz x <= 2 ^ 1073 -> new_distance x = Some (mkDistance x).
Proof.
  intros Hx Hle. destruct one_ok as [H1 E1]. destruct half_ok as [H2 E2].
  unfold new_distance, in_unit. rewrite (f64_le_fz f64_zero x), !f64_le_fz, E1, E2 by done.
  pose proof (fz_nonneg x). change (fz f64_zero) with 0. pose proof U_half. pose proof U_pos.
  rewrite !(proj2 (Z.leb_le _ _)) by lia. by rewrite (ok_not_nan x Hx).
Qed.

(** [fold] of the two directions around the ring: a gap below one half is the distance,
    a larger one is measured the other way round. *)
Definition arc (g : f64) : f64 := if f64_lt g half then g else f64_sub f64_one g.

Lemma arc_small g : ok g -> fz g <= U -> ok (arc g) /\ fz (arc g) <= 2 ^ 1073.
Proof.
  intros Hg Hle. destruct half_ok as [H2 E2]. unfold arc. rewrite f64_lt_fz, E2 by done.
  destruct (fz g <? 2 ^ 1073) eqn:E; [split; [done|lia]|]. apply one_sub_half; [done|lia].
Qed.

(** The gap between two locations. *)
Lemma gap_ok a b : valid a -> valid b ->
  ok (f64_abs (f64_sub (as_f64 a) (as_f64 b))) /\ fz (f64_abs (f64_sub (as_f64 a) (as_f64 b))) <= U.
Proof.
  intros [Ha Ha'] [Hb Hb']. destruct (Z.le_ge_cases (fz (as_f64 b)) (fz (as_f64 a))) as [Hle|Hle].
  - destruct (sub_unit _ _ Ha Hb ltac:(lia)). by rewrite abs_ok.
  - destruct (sub_unit _ _ Hb Ha ltac:(lia)). by rewrite sub_abs_comm, abs_ok.
Qed.

Lemma distance_arc a b : valid a -> valid b ->
  distance a b = Some (mkDistance (arc (f64_abs (f64_sub (as_f64 a) (as_f64 b))))).
Proof.
  intros Ha Hb. destruct (gap_ok a b Ha Hb) as [Hg Hle]. destruct (arc_small _ Hg Hle) as [Ho Hs].
  rewrite <- new_distance_small by done. unfold distance, arc in *. by destruct (f64_lt _ half).
Qed.

(** Comparing negated floats. *)
Lemma compare_opp m e m' e' :
  let x := S754_finite false m e in let y := S754_finite false m' e' in
  f64_lt y (SFopp x) = false /\ f64_lt (SFopp x) (SFopp y) = f64_lt y x /\ f64_eq (SFopp x) (SFopp y) = f64_eq x y.
Proof.
  unfold f64_lt, f64_eq, SFltb, SFeqb. cbn [SFcompare SFopp negb]. split_and!; [done| |].
  - rewrite (Z.compare_antisym e e'). destruct (e ?= e'); cbn [CompOpp]; try done.
    change (Pos.compare_cont Eq) with Pos.compare. rewrite (Pos.compare_antisym m). by destruct (Pos.compare m _).
  - destruct (e ?= e'); try done. by destruct (Pos.compare_cont _ _ _).
Qed.

Lemma lt_opp_half x : ok x -> 0 < fz x ->
  f64_lt half (SFopp x) = false /\ f64_lt (SFopp x) minus_half = f64_lt half x /\
  f64_eq (SFopp x) minus_half = f64_eq x half.
Proof.
  intros Hx Hpos. destruct (ok_cases x Hx) as [[E _]|(m & e & -> & _)]; [lia|].
  unfold minus_half. rewrite half_eq. apply compare_opp.
Qed.

Lemma above_minus_half x : ok x -> f64_lt x minus_half = false /\ f64_eq x minus_half = false.
Proof. intros Hx. rewrite minus_half_eq. by destruct (ok_cases x Hx) as [[_ ->]|(m & e & -> & _)]. Qed.

Lemma f64_eq_fz x y : ok x -> ok y -> f64_eq x y = (fz x =? fz y).
Proof.
  intros Hx Hy. pose proof (f64_partial_cmp_fz x y Hx Hy) as H. unfold f64_partial_cmp in H.
  unfold f64_eq, SFeqb. rewrite H. destruct (Z.compare_spec (fz x) (fz y)); symmetry; [by apply Z.eqb_eq|apply Z.eqb_neq; lia..].
Qed.

(** Clockwise the gap is positive, anticlockwise its negation. *)
Lemma signed_arc g : ok g -> fz g <= U ->
  let s d := if f64_lt half d then f64_sub d f64_one else if f64_lt d minus_half then f64_add d f64_one
             else if f64_eq d minus_half then half else d in
  f64_abs (s g) = arc g /\ (0 < fz g -> f64_abs (s (SFopp g)) = arc g).
Proof.
  intros Hg Hle s. destruct half_ok as [H2 E2]. destruct one_ok as [H1 E1].
  assert (Hge : 2 ^ 1073 <= fz g -> f64_abs (f64_sub g f64_one) = f64_sub f64_one g).
  { intros H. rewrite sub_abs_comm by done. by apply abs_ok, one_sub_half. }
  assert (Hhalf : fz g = 2 ^ 1073 -> f64_sub f64_one g = half).
  { intros H. rewrite <- E2 in H. apply fz_inj in H as ->; done. }
  unfold s, arc. split.
  - destruct (above_minus_half g Hg) as [-> ->]. rewrite !f64_lt_fz, E2 by done.
    destruct (Z.lt_trichotomy (fz g) (2 ^ 1073)) as [H|[H|H]].
    + rewrite (proj2 (Z.ltb_ge _ _)), (proj2 (Z.ltb_lt _ _)) by lia. by apply abs_ok.
    + rewrite !(proj2 (Z.ltb_ge _ _)) by lia. rewrite Hhalf by done. rewrite <- E2 in H. apply fz_inj in H as ->; done.
    + rewrite (proj2 (Z.ltb_lt _ _)), (proj2 (Z.ltb_ge _ _)) by lia. apply Hge. lia.
  - intros Hpos. destruct (lt_opp_half g Hg Hpos) as (-> & -> & ->). rewrite !f64_lt_fz, f64_eq_fz, E2 by done.
    destruct (Z.lt_trichotomy (fz g) (2 ^ 1073)) as [H|[H|H]].
    + rewrite (proj2 (Z.ltb_ge _ _)), (proj2 (Z.eqb_neq _ _)), (proj2 (Z.ltb_lt _ _)) by lia. by rewrite abs_opp, abs_ok.
    + rewrite !(proj2 (Z.ltb_ge _ _)), (proj2 (Z.eqb_eq _ _)), Hhalf by lia. by vm_compute.
    + rewrite (proj2 (Z.ltb_lt _ _)), (proj2 (Z.ltb_ge _ _)), add_opp_one by (lia || done).
      apply abs_ok, one_sub_half; [done|lia].
Qed.

(** The distance of two locations is total, symmetric, between zero and one half, and
    the signed distance is that distance with a direction. *)
Lemma distance_total a b :
  valid a -> valid b ->
  exists d, distance a b = Some d /\ distance b a = Some d /\
    ok (distance_value d) /\ fz (distance_value d) <= 2 ^ 1073 /\
    f64_abs (signed_distance a b) = distance_value d.
Proof.
  intros Ha Hb. destruct (gap_ok a b Ha Hb) as [Hg Hle]. destruct (arc_small _ Hg Hle) as [Ho Hs].
  eexists. rewrite (distance_arc a b), (distance_arc b a) by done. split; [done|].
  rewrite (sub_abs_comm (as_f64 b)) by (apply Hb || apply Ha). split_and!; [done..|]. cbn [distance_value].
  unfold signed_distance. destruct Ha as [Ha Ha'], Hb as [Hb Hb']. destruct (signed_arc _ Hg Hle) as [Hp Hn].
  destruct (Z.lt_trichotomy (fz (as_f64 a)) (fz (as_f64 b))) as [H|[H|H]].
  - assert (E : f64_abs (f64_sub (as_f64 a) (as_f64 b)) = f64_sub (as_f64 b) (as_f64 a)).
    { rewrite sub_abs_comm by done. apply abs_ok, sub_unit; [done..|lia]. }
    rewrite E in Hp |- *. exact Hp.
  - assert (E : f64_abs (f64_sub (as_f64 a) (as_f64 b)) = f64_sub (as_f64 b) (as_f64 a)).
    { apply fz_inj in H as ->; [|done..]. apply abs_ok, sub_unit; [done..|lia]. }
    rewrite E in Hp |- *. exact Hp.
  - assert (E : f64_abs (f64_sub (as_f64 a) (as_f64 b)) = f64_sub (as_f64 a) (as_f64 b))
      by (apply abs_ok, sub_unit; [done..|lia]).
    rewrite (sub_opp (as_f64 a)) by (done || lia). rewrite E in Hn |- *. apply Hn.
    pose proof (f64_sub_rounds _ _ Ha Hb ltac:(lia)) as Hr.
    pose proof (fz_nonneg (as_f64 b)). enough (1 * 2 ^ 0 <= fz (f64_sub (as_f64 a) (as_f64 b))) by lia.
    apply (rounds_ge _ _ _ 1 0 1 1074 Hr); [lia|lia|change (1 * 2 ^ 1074) with U; lia|lia|lia|lia].
Qed.

(** ** Locations of contracts *)

Definition byte_val (b : Byte.byte) : Z := Z.of_N (Byte.to_N b).

Lemma byte_range b : 0 <= byte_val b < 256.
Proof. by destruct b. Qed.

Lemma rounds_exact K J D r : 0 < D -> 0 <= K < 2 ^ 53 -> 0 <= J <= 2045 -> rounds (K * 2 ^ J * D) D r ->
  ok r /\ fz r = K * 2 ^ J.
Proof.
  intros HD HK HJ Hr. destruct (rounds_le _ _ _ K J Hr HK HJ ltac:(lia)) as [Hok Hle]. split; [done|].
  apply Z.le_antisymm; [done|]. apply (rounds_ge _ _ _ K J K J Hr); lia.
Qed.

(** The divisor of the [n]-th byte. *)
Definition is_divisor (n : Z) (d : f64) : Prop := ok d /\ fz d = 2 ^ (1074 + 8 * n).

Lemma divisor_first : is_divisor 1 (f64_of_Z 256).
Proof.
  destruct (f64_of_Z_exact 256) as [Hok Hz]; [lia|]. split; [done|]. rewrite Hz. by vm_compute.
Qed.

Lemma divisor_next n d : 1 <= n <= 32 -> is_divisor n d -> is_divisor (n + 1) (f64_mul d (f64_of_Z 256)).
Proof.
  intros Hn [Hd Ed]. destruct divisor_first as [H1 E1]. pose proof (f64_mul_rounds d _ Hd H1) as Hr.
  rewrite Ed, E1 in Hr. pose proof U_pos. unfold is_divisor.
  replace (2 ^ (1074 + 8 * (n + 1))) with (1 * 2 ^ (1074 + 8 * (n + 1))) by lia.
  apply (rounds_exact _ _ U); [done|lia|lia|].
  replace (1 * 2 ^ (1074 + 8 * (n + 1)) * U) with (2 ^ (1074 + 8 * n) * 2 ^ (1074 + 8 * 1)); [done|].
  change U with (2 ^ 1074). rewrite Z.mul_1_l, <- !Z.pow_add_r by lia. f_equal. lia.
Qed.

(** A byte at its place value. *)
Lemma place_value n d b : 1 <= n <= 33 -> is_divisor n d ->
  let t := f64_div (f64_of_Z (byte_val b)) d in ok t /\ fz t = byte_val b * 2 ^ (1074 - 8 * n).
Proof.
  intros Hn [Hd Ed] t. pose proof (byte_range b) as Hb.
  destruct (f64_of_Z_exact (byte_val b)) as [Hv Ev]; [lia|].
  assert (H0 : 0 < 2 ^ (1074 + 8 * n)) by (apply Z.pow_pos_nonneg; lia).
  pose proof (f64_div_rounds _ d Hv Hd ltac:(lia)) as Hr. rewrite Ed, Ev in Hr.
  apply (rounds_exact _ _ (2 ^ (1074 + 8 * n))); [done|lia|lia|].
  replace (byte_val b * 2 ^ (1074 - 8 * n) * 2 ^ (1074 + 8 * n)) with (byte_val b * U * U); [done|].
  rewrite <- !Z.mul_assoc, <- Z.pow_add_r by lia. f_equal. change U with (2 ^ 1074). rewrite <- Z.pow_add_r by lia. f_equal. lia.
Qed.

(** The partial sum after [n] bytes: exact for the first six, then rounded, one or at
    least half a unit in the last place below one. *)
Definition partial (n : Z) (v : f64) : Prop :=
  ok v /\ (n <= 6 -> exists k, 0 <= k < 2 ^ (8 * n) /\ fz v = k * 2 ^ (1074 - 8 * n)) /\
  (7 <= n -> fz v = U \/ fz v <= U - 2 ^ 1021).

Lemma below_one v : ok v -> fz v <= U -> fz v = U \/ fz v <= U - 2 ^ 1021.
Proof.
  intros Hv Hle. destruct (decide (fz v = U)) as [|Hne]; [by left|right].
  destruct (ok_cases v Hv) as [[E _]|(m & e & -> & E & _ & He & Hm & Hn)].
  - rewrite E, U_half. replace (2 ^ 1073) with (2 ^ 52 * 2 ^ 1021) by (rewrite <- Z.pow_add_r by lia; f_equal). lia.
  - rewrite E in *. assert (Hlt : Z.pos m * 2 ^ (e + 1074) < 2 ^ 52 * 2 ^ (-52 + 1074)) by (rewrite <- Z.pow_add_r by lia; change (2 ^ (52 + (-52 + 1074))) with U; lia).
    assert (e <= -53).
    { destruct (Z.le_gt_cases e (-53)) as [|Hgt]; [done|]. exfalso.
      assert (2 ^ (-52 + 1074) <= 2 ^ (e + 1074)) by (apply Z.pow_le_mono_r; lia).
      assert (2 ^ 52 <= Z.pos m) by lia. nia. }
    assert (2 ^ (e + 1074) <= 2 ^ 1021) by (apply Z.pow_le_mono_r; lia).
    assert (U = 2 ^ 53 * 2 ^ 1021) as -> by (rewrite <- Z.pow_add_r by lia; by vm_compute). nia.
Qed.

(** Once the sum is one it stays one: the remaining bytes are below half a unit in the
    last place. *)
Definition bytes_256 : list Z := map Z.of_nat (seq 0 256).

Lemma one_absorbs_table :
  forallb (fun n => forallb (fun b => f64_eq (f64_add f64_one (f64_div (f64_of_Z b) (f64_of_Z (256 ^ n)))) f64_one) bytes_256)
    (map Z.of_nat (seq 8 25)) = true.
Proof. by vm_compute. Qed.

Lemma one_absorbs n d b : 8 <= n <= 32 -> is_divisor n d ->
  f64_eq (f64_add f64_one (f64_div (f64_of_Z (byte_val b)) d)) f64_one = true.
Proof.
  intros Hn [Hd Ed]. assert (Hz : rounds (256 ^ n * U) 1 (f64_of_Z (256 ^ n))) by (apply f64_of_Z_rounds; apply Z.pow_nonneg; lia).
  destruct (rounds_exact 1 (1074 + 8 * n) 1 (f64_of_Z (256 ^ n))) as [Hok Ef]; [lia|lia|lia| |].
  { replace (1 * 2 ^ (1074 + 8 * n) * 1) with (256 ^ n * U); [done|].
    change 256 with (2 ^ 8). change U with (2 ^ 1074). rewrite <- Z.pow_mul_r, <- Z.pow_add_r by lia. rewrite Z.mul_1_l, Z.mul_1_r. f_equal. lia. }
  assert (d = f64_of_Z (256 ^ n)) as -> by (apply fz_inj; [done|done|rewrite Ed, Ef; lia]).
  pose proof one_absorbs_table as Ht. rewrite forallb_forall in Ht.
  specialize (Ht n). rewrite forallb_forall in Ht. apply Ht.
  - apply in_map_iff. exists (Z.to_nat n). rewrite in_seq. lia.
  - apply in_map_iff. exists (Z.to_nat (byte_val b)). pose proof (byte_range b). rewrite in_seq. lia.
Qed.

Lemma one_plus_small t : ok t -> fz t <= U -> f64_eq (f64_add f64_one t) f64_one = true -> f64_add f64_one t = f64_one.
Proof.
  intros Ht Hle He. destruct one_ok as [H1 E1]. pose proof (f64_add_rounds f64_one t H1 Ht) as Hr. rewrite E1 in Hr.
  destruct (rounds_le _ _ _ 1 1075 Hr) as [Hok _]; [lia|lia|change (2 ^ 1075) with (2 * 2 ^ 1074); change (2 ^ 1074) with U; lia|].
  rewrite f64_eq_fz in He by done. apply fz_inj; [done|done|lia].
Qed.

Lemma partial_next n d v b : 0 <= n <= 31 -> is_divisor (n + 1) d -> partial n v ->
  partial (n + 1) (f64_add v (f64_div (f64_of_Z (byte_val b)) d)).
Proof.
  intros Hn Hd (Hv & Hex & Hbig). destruct (place_value (n + 1) d b ltac:(lia) Hd) as [Ht Et].
  pose proof (byte_range b) as Hb. set (t := f64_div _ d) in *. pose proof (f64_add_rounds v t Hv Ht) as Hr.
  assert (H0 : 0 < 2 ^ (1074 - 8 * (n + 1))) by (apply Z.pow_pos_nonneg; lia).
  assert (Hone : fz v + fz t <= U -> ok (f64_add v t) /\ fz (f64_add v t) <= U).
  { intros H. change U with (1 * 2 ^ 1074). apply (rounds_le _ _ _ 1 1074 Hr); [lia|lia|]. change (1 * 2 ^ 1074) with U. lia. }
  destruct (Z.le_gt_cases n 6) as [Hsmall|Hlarge].
  - destruct (Hex Hsmall) as (k & Hk & Ev).
    assert (Esum : fz v + fz t = (256 * k + byte_val b) * 2 ^ (1074 - 8 * (n + 1))).
    { rewrite Ev, Et. replace (1074 - 8 * n) with (8 + (1074 - 8 * (n + 1))) by lia. rewrite Z.pow_add_r by lia. lia. }
    assert (Hk' : 256 * k + byte_val b < 2 ^ (8 * (n + 1))).
    { replace (8 * (n + 1)) with (8 + 8 * n) by lia. rewrite Z.pow_add_r by lia. lia. }
    destruct (Z.le_gt_cases (n + 1) 6) as [Hs|Hs].
    + assert (2 ^ (8 * (n + 1)) <= 2 ^ 48) by (apply Z.pow_le_mono_r; lia). rewrite Esum in Hr.
      destruct (rounds_exact (256 * k + byte_val b) (1074 - 8 * (n + 1)) 1 (f64_add v t)) as [Hok Ef]; [lia..|by rewrite Z.mul_1_r|].
      split_and!; [done| |lia]. intros _. exists (256 * k + byte_val b). split; [lia|done].
    + destruct Hone as [Hok Hle].
      { rewrite Esum. assert (U = 2 ^ (8 * (n + 1)) * 2 ^ (1074 - 8 * (n + 1))) as ->; [|nia].
        rewrite <- Z.pow_add_r by lia. change U with (2 ^ 1074). f_equal. lia. }
      split_and!; [done|lia|]. intros _. by apply below_one.
  - assert (2 ^ (1074 - 8 * (n + 1)) <= 2 ^ 1010) by (apply Z.pow_le_mono_r; lia).
    assert (Ht' : fz t <= 2 ^ 1021) by (rewrite Et; assert (2 ^ 1021 = 2 ^ 11 * 2 ^ 1010) by (rewrite <- Z.pow_add_r by lia; f_equal); nia).
    assert (2 ^ 1021 <= U) by (change U with (2 ^ 1074); apply Z.pow_le_mono_r; lia).
    destruct (Hbig ltac:(lia)) as [E|Hle].
    + destruct one_ok as [Ho E1]. assert (v = f64_one) as -> by (apply fz_inj; [done|done|lia]).
      rewrite (one_plus_small t); [|done|lia|apply (one_absorbs (n + 1)); [lia|done]].
      split_and!; [done|lia|]. intros _. by left.
    + destruct Hone as [Hok Hle']; [lia|].
      split_and!; [done|lia|]. intros _. by apply below_one.
Qed.

Lemma key_loop_partial bytes n v d : 0 <= n -> n + Z.of_nat (length bytes) <= 32 ->
  is_divisor (n + 1) d -> partial n v -> partial (n + Z.of_nat (length bytes)) (key_loop bytes v d).
Proof.
  revert n v d. induction bytes as [|b bytes IH]; intros n v d Hn Hl Hd Hv; cbn [key_loop length] in *.
  - by rewrite Z.add_0_r.
  - replace (n + Z.of_nat (S (length bytes))) with (n + 1 + Z.of_nat (length bytes)) by lia.
    apply IH; [lia|lia|apply divisor_next; [lia|done]|apply partial_next; [lia|done|done]].
Qed.

Lemma partial_unit n v : 0 <= n -> partial n v -> fz v <= U.
Proof.
  intros Hn (_ & Hex & Hbig). destruct (Z.le_gt_cases n 6) as [H|H].
  - destruct (Hex H) as (k & Hk & ->). assert (U = 2 ^ (8 * n) * 2 ^ (1074 - 8 * n)) as ->.
    { rewrite <- Z.pow_add_r by lia. change U with (2 ^ 1074). f_equal. lia. }
    apply Z.mul_le_mono_nonneg_r; [apply Z.pow_nonneg; lia|lia].
  - assert (0 < 2 ^ 1021) by (by apply Z.pow_pos_nonneg). destruct (Hbig ltac:(lia)); lia.
Qed.

Lemma try_from_valid x : ok x -> fz x <= U -> try_from x = Some (mkLocation x).
Proof.
  intros Hx Hle. destruct one_ok as [H1 E1]. unfold try_from, in_unit.
  rewrite (f64_le_fz f64_zero x), f64_le_fz, E1 by done. pose proof (fz_nonneg x). change (fz f64_zero) with 0.
  by rewrite !(proj2 (Z.leb_le _ _)) by lia.
Qed.

Lemma contract_location_exists bytes :
  (length bytes <= 32)%nat -> exists l, from_contract_key bytes = Some l /\ valid l.
Proof.
  intros Hl. unfold from_contract_key.
  assert (Hp : partial (0 + Z.of_nat (length bytes)) (key_loop bytes f64_zero (f64_of_Z 256))).
  { apply key_loop_partial; [lia|lia|exact divisor_first|]. split_and!; [done|intros _; by exists 0|intros H; lia]. }
  pose proof (partial_unit (0 + Z.of_nat (length bytes)) _ ltac:(lia) Hp) as Hu. exists (mkLocation (key_loop bytes f64_zero (f64_of_Z 256))).
  split; [apply try_from_valid; [apply Hp|done]|split; [apply Hp|done]].
Qed.

(** Any two contract keys have a ring distance.  The conversion of their up to 32
    bytes never fails, although the sum of the rounded place values can reach one; the
    distance is symmetric, at most one half, and never trips an assertion; and the
    signed distance is that distance with a direction. *)
Lemma contract_distance_total bytes bytes' :
  (length bytes <= 32)%nat -> (length bytes' <= 32)%nat ->
  exists l l' d, from_contract_key bytes = Some l /\ from_contract_key bytes' = Some l' /\ valid l /\ valid l' /\
    distance l l' = Some d /\ distance l' l = Some d /\
    ok (distance_value d) /\ fz (distance_value d) <= 2 ^ 1073 /\ f64_abs (signed_distance l l') = distance_value d.
Proof.
  intros H H'. destruct (contract_location_exists bytes H) as (l & Hl & Vl).
  destruct (contract_location_exists bytes' H') as (l' & Hl' & Vl').
  destruct (distance_total l l' Vl Vl') as (d & Hd). exists l, l', d. do 4 (split; [done|]). exact Hd.
Qed.

(** The largest key is at one, next to zero on the ring. *)
Lemma contract_distance_total_witness :
  exists l l' d, from_contract_key (replicate 32 Byte.xff) = Some l /\ from_contract_key [] = Some l' /\
    as_f64 l = f64_one /\ distance l l' = Some d /\ distance_value d = f64_zero.
Proof.
  destruct (contract_distance_total (replicate 32 Byte.xff) []) as (l & l' & d & Hl & Hl' & _ & _ & Hd & _);
    [by apply Nat.leb_le|by apply Nat.leb_le|].
  exists l, l', d. revert Hd. assert (l = mkLocation f64_one) as ->.
  { revert Hl. vm_compute. by intros [= <-]. }
  assert (l' = mkLocation f64_zero) as -> by (revert Hl'; vm_compute; by intros [= <-]).
  intros Hd. split; [exact Hl|]. split; [exact Hl'|]. split; [reflexivity|]. split; [exact Hd|].
  revert Hd. vm_compute. by intros [= <-].
Defined.

(** ** Locations of addresses *)

Lemma lor_shiftl a b n : 0 <= n -> 0 <= a < 2 ^ n -> Z.lor a (Z.shiftl b n) = a + b * 2 ^ n.
Proof.
  intros Hn Ha. rewrite <- Z.shiftl_mul_pow2 by lia.
  assert (Hland : Z.land a (Z.shiftl b n) = 0).
  { apply Z.bits_inj'. intros i Hi. rewrite Z.land_spec, Z.shiftl_spec, Z.bits_0 by lia.
    destruct (Z.lt_ge_cases i n) as [H|H].
    - rewrite (Z.testbit_neg_r b) by lia. apply andb_false_r.
    - rewrite <- (Z.mod_small a (2 ^ n)) by lia. rewrite Z.mod_pow2_bits_high by lia. done. }
  rewrite Z.add_nocarry_lxor by done. symmetry. by apply Z.lxor_lor.
Qed.

Lemma mask_octet v : 0 <= v < 2 ^ 32 -> Z.land v 0xFFFFFF00 = Z.shiftr v 8 * 2 ^ 8.
Proof.
  intros Hv. rewrite <- Z.shiftl_mul_pow2 by lia. change 0xFFFFFF00 with (Z.shiftl (Z.ones 24) 8).
  apply Z.bits_inj'. intros i Hi. rewrite Z.land_spec, !Z.shiftl_spec by lia.
  destruct (Z.lt_ge_cases i 8) as [H|H].
  - rewrite !(Z.testbit_neg_r _ (i - 8)) by lia. apply andb_false_r.
  - rewrite Z.shiftr_spec, Z.testbit_ones_nonneg by lia. replace (i - 8 + 8) with i by lia.
    destruct (Z.lt_ge_cases i 32) as [H'|H'].
    + rewrite (proj2 (Z.ltb_lt _ _)) by lia. apply andb_true_r.
    + rewrite <- (Z.mod_small v (2 ^ 32)) by lia. by rewrite Z.mod_pow2_bits_high by lia.
Qed.

Definition u16 (z : Z) : Prop := 0 <= z < 2 ^ 16.

Definition addr_ok (a : SocketAddr) : Prop :=
  u16 (port a) /\
  match ip a with
  | V4 v => 0 <= v < 2 ^ 32
  | V6 s0 s1 s2 s3 s4 s5 s6 s7 => Forall u16 [s0; s1; s2; s3; s4; s5; s6; s7]
  end.

Definition same_family (a b : SocketAddr) : bool :=
  match ip a, ip b with V4 _, V4 _ => true | V6 _ _ _ _ _ _ _ _, V6 _ _ _ _ _ _ _ _ => true | _, _ => false end.

(** The part of an address its location depends on: three octets, or three segments,
    and for the local host the port. *)
Definition subnet (a : SocketAddr) : Z * Z * Z * Z :=
  match ip a with
  | V4 v => (Z.shiftr v 8, 0, 0, if Z.shiftr v 24 =? 127 then port a else 0)
  | V6 s0 s1 s2 s3 s4 s5 s6 s7 => (s0, s1, s2, if (s0 =? 0) && (s1 =? 0) && (s2 =? 0) then port a else 0)
  end.

Definition combine (s : Z * Z * Z * Z) (w : Z * Z * Z * Z) : Z :=
  let '(a, b, c, d) := s in let '(wa, wb, wc, wd) := w in a * wa + b * wb + c * wc + d * wd.

Lemma hash_input_combine a : addr_ok a ->
  hash_input a = combine (subnet a) (match ip a with V4 _ => (2 ^ 8, 0, 0, 2 ^ 32)
                                                   | V6 _ _ _ _ _ _ _ _ => (2 ^ 32, 2 ^ 16, 1, 2 ^ 48) end).
Proof.
  intros [Hp Ha]. unfold hash_input, subnet. unfold u16 in Hp. destruct (ip a) as [v|s0 s1 s2 s3 s4 s5 s6 s7].
  - rewrite (mask_octet v Ha).
    assert (0 <= Z.shiftr v 8 < 2 ^ 24)
      by (rewrite Z.shiftr_div_pow2 by lia; split; [apply Z.div_pos; lia|apply Z.div_lt_upper_bound; lia]).
    unfold combine. destruct (_ =? 127); [|lia].
    rewrite wrap64_id by (rewrite Z.shiftl_mul_pow2 by lia; int_lia). rewrite lor_shiftl by lia. lia.
  - rewrite !Forall_cons in Ha. unfold u16 in Ha. destruct Ha as (H0 & H1 & H2 & _).
    assert (Ec : Z.lor (Z.lor (Z.shiftl s0 32) (Z.shiftl s1 16)) s2 = s2 + s1 * 2 ^ 16 + s0 * 2 ^ 32).
    { rewrite (Z.lor_comm _ s2), (Z.lor_comm (Z.shiftl s0 32)), Z.lor_assoc, (lor_shiftl s2), lor_shiftl by lia. done. }
    rewrite Ec. unfold combine.
    assert (El : forallb (Z.eqb 0) [s0; s1; s2; s3; s4; s5; s6] && (s7 =? 1) || (s2 + s1 * 2 ^ 16 + s0 * 2 ^ 32 =? 0)
      = (s0 =? 0) && (s1 =? 0) && (s2 =? 0)).
    { destruct ((s0 =? 0) && (s1 =? 0) && (s2 =? 0)) eqn:E.
      - apply andb_true_iff in E as [[->%Z.eqb_eq ->%Z.eqb_eq]%andb_true_iff ->%Z.eqb_eq]. by rewrite orb_true_r.
      - apply orb_false_iff. rewrite andb_false_iff, andb_false_iff, !Z.eqb_neq in E. split.
        + apply not_true_iff_false. cbn [forallb]. rewrite !andb_true_iff, !Z.eqb_eq. lia.
        + apply Z.eqb_neq. lia. }
    rewrite El. destruct (_ && _ && _); [|lia].
    rewrite wrap64_id by (rewrite Z.shiftl_mul_pow2 by lia; int_lia). rewrite lor_shiftl by lia. lia.
Qed.

Lemma subnet_range a : addr_ok a ->
  let '(x, y, z, p) := subnet a in 0 <= x < 2 ^ 24 /\ u16 y /\ u16 z /\ u16 p /\
  (match ip a with V4 _ => y = 0 /\ z = 0 | V6 _ _ _ _ _ _ _ _ => u16 x end).
Proof.
  intros [Hp Ha]. unfold subnet, u16 in *. destruct (ip a) as [v|s0 s1 s2 s3 s4 s5 s6 s7].
  - assert (0 <= Z.shiftr v 8 < 2 ^ 24)
      by (rewrite Z.shiftr_div_pow2 by lia; split; [apply Z.div_pos; lia|apply Z.div_lt_upper_bound; lia]).
    split_and!; try lia; destruct (_ =? 127); lia.
  - rewrite !Forall_cons in Ha. destruct Ha as (H0 & H1 & H2 & _). split_and!; try lia; destruct (_ && _); lia.
Qed.

Lemma hash_input_u64 a : addr_ok a -> is_u64 (hash_input a).
Proof.
  intros Ha. rewrite (hash_input_combine a Ha). pose proof (subnet_range a Ha) as Hs.
  destruct (subnet a) as [[[x y] z] p]. unfold u16, combine in *. destruct (ip a); int_lia.
Qed.

Lemma f64_of_u64_le h : is_u64 h -> ok (f64_of_Z h) /\ fz (f64_of_Z h) <= 2 ^ 64 * U.
Proof.
  intros Hh. pose proof (f64_of_Z_rounds h ltac:(int_lia)) as Hr. pose proof U_pos.
  replace (2 ^ 64 * U) with (1 * 2 ^ 1138) by (by vm_compute). apply (rounds_le _ _ _ 1 1138 Hr); [lia|lia|].
  replace (1 * 2 ^ 1138 * 1) with (2 ^ 64 * U) by (by vm_compute). unfold is_u64, u64_max in Hh. nia.
Qed.

Lemma digit_unique B a r a' r' : 0 <= r < B -> 0 <= r' < B -> a * B + r = a' * B + r' -> a = a' /\ r = r'.
Proof. intros Hr Hr' E. apply (Z.div_mod_unique B); [lia..|]. lia. Qed.

(** Within one address family two peers are hashed alike just when they share the
    subnet: three octets or three segments, plus the port on the local host.  The
    location is always in the unit interval. *)
Lemma address_location_by_subnet a b :
  addr_ok a -> addr_ok b -> same_family a b = true ->
  (distribute_hash (hash_input a) = distribute_hash (hash_input b) <-> subnet a = subnet b) /\
  valid (from_address a).
Proof.
  intros Ha Hb Hf. pose proof (hash_input_u64 a Ha) as Ua. pose proof (hash_input_u64 b Hb) as Ub. split.
  - transitivity (hash_input a = hash_input b).
    { split; [|by intros ->]. intros E. apply (f_equal undistribute_hash) in E.
      by rewrite (proj1 (hash_inverse _ Ua)), (proj1 (hash_inverse _ Ub)) in E. }
    rewrite (hash_input_combine a Ha), (hash_input_combine b Hb).
    pose proof (subnet_range a Ha) as Sa. pose proof (subnet_range b Hb) as Sb.
    unfold same_family in Hf. destruct (subnet a) as [[[x y] z] p] eqn:Ea, (subnet b) as [[[x' y'] z'] p'] eqn:Eb.
    unfold u16, combine in *. destruct (ip a) eqn:Ia, (ip b) eqn:Ib; try done.
    + assert (y = 0 /\ z = 0 /\ y' = 0 /\ z' = 0) as (-> & -> & -> & ->) by tauto.
      split; [|by intros [= -> ->]]. intros E. 
      destruct (digit_unique (2 ^ 32) p (x * 2 ^ 8) p' (x' * 2 ^ 8)) as [-> ?]; [lia..|]. assert (x = x') as -> by lia. done.
    + split; [|by intros [= -> -> -> ->]]. intros E. 
      destruct (digit_unique (2 ^ 48) p (x * 2 ^ 32 + y * 2 ^ 16 + z) p' (x' * 2 ^ 32 + y' * 2 ^ 16 + z')) as [-> E1]; [lia..|].
      destruct (digit_unique (2 ^ 32) x (y * 2 ^ 16 + z) x' (y' * 2 ^ 16 + z')) as [-> E2]; [lia..|].
      destruct (digit_unique (2 ^ 16) y z y' z') as [-> ->]; [lia..|]. done.
  - unfold from_address, deterministic_loc, valid. cbn [as_f64].
    destruct (f64_of_u64_le (distribute_hash (hash_input a))) as [Ho Hle]; [by apply hash_inverse|].
    assert (Em : ok (f64_of_Z u64_max) /\ fz (f64_of_Z u64_max) = 2 ^ 64 * U) by (split; [apply f64_of_u64_le; int_lia|by vm_compute]).
    destruct Em as [Hm Em]. pose proof U_pos.
    pose proof (f64_div_rounds _ _ Ho Hm ltac:(rewrite Em; lia)) as Hr. rewrite Em in Hr.
    change U with (1 * 2 ^ 1074) at 1. apply (rounds_le _ _ _ 1 1074 Hr); [lia|lia|]. change (1 * 2 ^ 1074) with U. nia.
Qed.

Lemma address_location_by_subnet_witness :
  let a := mkAddr (V4 0x0A010203) 1000 in let b := mkAddr (V4 0x0A0102FF) 2000 in
  distribute_hash (hash_input a) = distribute_hash (hash_input b) /\ valid (from_address a).
Proof.
  destruct (address_location_by_subnet (mkAddr (V4 0x0A010203) 1000) (mkAddr (V4 0x0A0102FF) 2000)) as [H1 H2]; [done..|].
  split; [by apply H1|done].
Defined.

(** ** Equality, order and hash disagree *)

(** Equality up to [EPSILON] is not transitive. *)
Example location_eq_not_transitive :
  let a := mkLocation f64_zero in
  let b := mkLocation (f64_div f64_one (f64_of_Z (2 ^ 53))) in
  let c := mkLocation (f64_div f64_one (f64_of_Z (2 ^ 52))) in
  location_eq a b = true /\ location_eq b c = true /\ location_eq a c = false.
Proof. by vm_compute. Qed.

(** Equal locations compare as different and hash differently. *)
Example equal_locations_hash_apart :
  let a := mkLocation f64_zero in
  let b := mkLocation (f64_div f64_one (f64_of_Z (2 ^ 53))) in
  location_eq a b = true /\ location_cmp a b = Some Lt /\ location_hash a <> location_hash b.
Proof. by vm_compute. Qed.

End Location.
