(* ===== verification/Demand.v ===== *)
(** * The demand estimate

    Models [src/crates/core/src/ring/hosting/demand.rs]: the read demand predicted for a
    contract from its ring distance, a blend of an analytic prior with a descending
    isotonic regression over a rolling window of observations.

    The regression is the [pav_regression] crate and the exponential is the platform's:
    both are parameters.  The estimate feeds only the telemetry score of the hosting
    cache. *)

From S2P Require Import Prelude F64 Location.

Module Demand.

Definition MAX_PRIOR_POINTS : nat := 500.
Definition NEUTRAL_DEMAND : f64 := f64_one.
Definition DISTANCE_PRIOR_DECAY : f64 := f64_of_Z 4.
Definition PRIOR_PSEUDO_COUNT : f64 := f64_of_Z 5.

(** A sample: distance and read rate. *)
Abbreviation Point := (f64 * f64)%type (only parsing).

(** What the estimator uses of the regression. *)
Record IsotonicRegression (R : Type) := mkRegression {
  new_descending : R;
  add_point : Point -> R -> R;
  remove_point : Point -> R -> R;
  interpolate : R -> f64 -> option f64;
}.
Arguments mkRegression {R}.
Arguments new_descending {R}.
Arguments add_point {R}.
Arguments remove_point {R}.
Arguments interpolate {R}.

Section estimator.
Context {R : Type}.
Variable reg : IsotonicRegression R.
Variable exp : f64 -> f64.

Definition distance_prior (distance : f64) : f64 :=
  let d := f64_clamp distance f64_zero Location.half in
  f64_mul NEUTRAL_DEMAND (exp (f64_mul (SpecFloat.SFopp DISTANCE_PRIOR_DECAY) d)).

Definition blend_weight (n : nat) : f64 :=
  f64_div PRIOR_PSEUDO_COUNT (f64_add PRIOR_PSEUDO_COUNT (f64_of_Z (Z.of_nat n))).

Record ProximityPrior := mkPrior { regression : R; raw_points : list Point }.

Definition new : ProximityPrior := mkPrior (new_descending reg) [].

Definition observe (distance read_rate : f64) (p : ProximityPrior) : ProximityPrior :=
  if negb (f64_is_finite distance) || negb (f64_is_finite read_rate)
     || f64_lt distance f64_zero || f64_lt read_rate f64_zero then p
  else
    let r := add_point reg (distance, read_rate) (regression p) in
    let ps := raw_points p ++ [(distance, read_rate)] in
    if (MAX_PRIOR_POINTS <? length ps)%nat then
      match ps with
      | oldest :: ps => mkPrior (remove_point reg oldest r) ps
      | [] => mkPrior r ps
      end
    else mkPrior r ps.

Definition fit (distance : f64) (p : ProximityPrior) : option f64 :=
  match raw_points p with
  | [] => None
  | _ :: _ =>
      match interpolate reg (regression p) distance with
      | Some rate => if f64_is_finite rate then Some (f64_max rate f64_zero) else None
      | None => None
      end
  end.

Definition predict (distance : f64) (p : ProximityPrior) : f64 :=
  if negb (f64_is_finite distance) then NEUTRAL_DEMAND
  else
    let g0 := distance_prior distance in
    let w := blend_weight (length (raw_points p)) in
    match fit distance p with
    | Some fit => f64_add (f64_mul w g0) (f64_mul (f64_sub f64_one w) fit)
    | None => g0
    end.

(** ** The window *)

Definition usable (o : Point) : bool :=
  f64_is_finite o.1 && f64_is_finite o.2 && negb (f64_lt o.1 f64_zero) && negb (f64_lt o.2 f64_zero).

Definition observe_all (os : list Point) (p : ProximityPrior) : ProximityPrior :=
  foldl (fun p o => observe o.1 o.2 p) p os.

(** The last [n] elements. *)
Definition last_n {A} (n : nat) (l : list A) : list A := drop (length l - n) l.

Lemma last_n_snoc {A} n (l : list A) x : (0 < n)%nat -> last_n n (l ++ [x]) = last_n n (last_n n l ++ [x]).
Proof.
  intros Hn. unfold last_n. rewrite !length_app, length_drop. cbn [length].
  destruct (decide (length l < n)%nat).
  - replace (length l - n)%nat with 0%nat by lia. rewrite drop_0. f_equal. lia.
  - rewrite !drop_app_le by (rewrite ?length_drop; lia). rewrite drop_drop. do 2 f_equal. lia.
Qed.

Lemma observe_unusable o p : usable o = false -> observe o.1 o.2 p = p.
Proof.
  unfold usable, observe.
  destruct (f64_is_finite o.1), (f64_is_finite o.2), (f64_lt o.1 f64_zero), (f64_lt o.2 f64_zero); cbn [negb orb andb]; congruence.
Qed.

Lemma observe_usable o p : usable o = true ->
  raw_points (observe o.1 o.2 p) = last_n MAX_PRIOR_POINTS (raw_points p ++ [o]) \/ (MAX_PRIOR_POINTS < length (raw_points p))%nat.
Proof.
  unfold usable, observe. intros H. rewrite !andb_true_iff, !negb_true_iff in H. destruct H as [[[-> ->] ->] ->]. cbn [negb orb].
  destruct o as [d r]. cbn [fst snd]. destruct (decide (MAX_PRIOR_POINTS < length (raw_points p))%nat) as [|Hle]; [by right|left].
  unfold last_n. destruct (_ <? _)%nat eqn:E.
  - apply Nat.ltb_lt in E. rewrite length_app in *. cbn [length] in *.
    replace (length (raw_points p) + 1 - MAX_PRIOR_POINTS)%nat with 1%nat by lia.
    by destruct (raw_points p) as [|? ?].
  - apply Nat.ltb_ge in E. replace (length (raw_points p ++ [(d, r)]) - MAX_PRIOR_POINTS)%nat with 0%nat by lia. done.
Qed.

(** The retained points are the last 500 usable observations. *)
Lemma window_exact os : raw_points (observe_all os new) = last_n MAX_PRIOR_POINTS (filter (fun o => usable o = true) os).
Proof.
  induction os as [|o os IH] using rev_ind; [done|].
  unfold observe_all in *. rewrite foldl_app, filter_app. cbn [foldl filter list_filter].
  destruct (decide (usable o = true)) as [Hu|Hu].
  - destruct (observe_usable o (foldl (fun p o => observe o.1 o.2 p) new os) Hu) as [->|Hlt].
    + rewrite IH. symmetry. apply last_n_snoc. unfold MAX_PRIOR_POINTS. lia.
    + rewrite IH in Hlt. unfold last_n in Hlt. rewrite length_drop in Hlt. lia.
  - rewrite observe_unusable by (by apply not_true_is_false). by rewrite app_nil_r.
Qed.

End estimator.

End Demand.
