(* ===== verification/DiskUsage.v ===== *)
(** * Disk usage of hosted contracts

    Models [src/crates/core/src/ring/hosting/disk_usage.rs]: the counters behind the
    disk budget.  State bytes are kept by signed differences against a per-contract
    index, which is seeded once from the stored rows; WASM and compile-cache bytes
    are measured by walking directories.  The index is behind a mutex, the counters
    are atomics updated after the mutex is released, so calls are also run step by
    step under an arbitrary schedule.

    A directory is modelled by the tree the walk finds. *)

From S2P Require Import Prelude.

Module DiskUsage.

(** ** Directory walks *)

(** A directory entry: a file with its size, unless its metadata cannot be read; a
    directory with its entries, unless it cannot be read; anything else. *)
Inductive node :=
| File (is_wasm : bool) (size : option Z)
| Dir (entries : option (list node))
| Other.

Definition file_bytes (wanted : bool -> bool) (n : node) : Z :=
  match n with File w (Some size) => if wanted w then size else 0 | _ => 0 end.

Definition push_dir (stack : list (option (list node))) (n : node) : list (option (list node)) :=
  match n with Dir es => es :: stack | _ => stack end.

(** The loop over the stack of directories; each turn pops one. *)
Fixpoint walk_loop (fuel : nat) (wanted : bool -> bool) (stack : list (option (list node))) (total : Z) : option Z :=
  match fuel with
  | O => None
  | S fuel =>
      match stack with
      | [] => Some total
      | None :: stack => walk_loop fuel wanted stack total
      | Some es :: stack =>
          walk_loop fuel wanted (foldl push_dir stack es)
            (foldl (fun t n => sat_add64 t (file_bytes wanted n)) total es)
      end
  end.

(** The number of directories below a node, which bounds the turns of the loop. *)
Fixpoint dirs (n : node) : nat :=
  match n with Dir (Some es) => S (sum_list_with dirs es) | Dir None => 1 | _ => 0 end.
Definition dirs_in (es : option (list node)) : nat := dirs (Dir es).

Definition du_walk (dir : option (list node)) : option Z :=
  walk_loop (S (dirs_in dir)) (fun _ => true) [dir] 0.
Definition du_walk_wasm (dir : option (list node)) : option Z :=
  walk_loop (S (dirs_in dir)) (fun w => w) [dir] 0.

(** What the walk measures. *)
Fixpoint tree_bytes (wanted : bool -> bool) (n : node) : Z :=
  match n with
  | Dir (Some es) => sumZ (tree_bytes wanted) es
  | Dir None | Other => 0
  | File _ _ => file_bytes wanted n
  end.

(** ** The tracker *)

Record DiskBudgetExceeded := mkExceeded { projected_bytes : Z; budget_bytes : Z }.

Section tracker.
Context {K : Type} `{eqK : EqDecision K, cntK : !Countable K}.

Record DiskUsageTracker := mkTracker {
  state_bytes : Z;
  wasm_bytes : Z;
  compile_cache_bytes : Z;
  seeded : bool;
  state_sizes : gmap K Z;
}.

Definition new : DiskUsageTracker := mkTracker 0 0 0 false ∅.

Definition set_state (b : Z) (t : DiskUsageTracker) : DiskUsageTracker :=
  mkTracker b (wasm_bytes t) (compile_cache_bytes t) (seeded t) (state_sizes t).
Definition set_wasm (b : Z) (t : DiskUsageTracker) : DiskUsageTracker :=
  mkTracker (state_bytes t) b (compile_cache_bytes t) (seeded t) (state_sizes t).
Definition set_cache (b : Z) (t : DiskUsageTracker) : DiskUsageTracker :=
  mkTracker (state_bytes t) (wasm_bytes t) b (seeded t) (state_sizes t).
Definition set_seeded (t : DiskUsageTracker) : DiskUsageTracker :=
  mkTracker (state_bytes t) (wasm_bytes t) (compile_cache_bytes t) true (state_sizes t).
Definition set_sizes (m : gmap K Z) (t : DiskUsageTracker) : DiskUsageTracker :=
  mkTracker (state_bytes t) (wasm_bytes t) (compile_cache_bytes t) (seeded t) m.

Definition is_seeded (t : DiskUsageTracker) : bool := seeded t.

Definition total_bytes (t : DiskUsageTracker) : Z :=
  sat_add64 (sat_add64 (state_bytes t) (wasm_bytes t)) (compile_cache_bytes t).

Definition size_of (k : K) (t : DiskUsageTracker) : Z := default 0 (state_sizes t !! k).

(** Rows already in the index are newer than the snapshot and win. *)
Definition merge_rows (rows : list (K * Z)) (m : gmap K Z) : gmap K Z :=
  foldl (fun m row => match m !! row.1 with Some _ => m | None => <[row.1 := row.2]> m end) m rows.

(** [values().fold(0, saturating_add)] *)
Definition sum_sizes (m : gmap K Z) : Z := Z.min u64_max (map_sum id m).

(** [wasm] and [cache] are what the walks measure. *)
Definition seed (rows : list (K * Z)) (wasm cache : Z) (t : DiskUsageTracker) : DiskUsageTracker :=
  if seeded t then t
  else let m := merge_rows rows (state_sizes t) in
       set_cache cache (set_wasm wasm (set_state (sum_sizes m) (set_sizes m (set_seeded t)))).

Definition record_state_write (k : K) (new_size : Z) (t : DiskUsageTracker) : DiskUsageTracker :=
  let old := size_of k t in
  let t := set_sizes (<[k := new_size]> (state_sizes t)) t in
  if negb (seeded t) then t
  else if old <=? new_size then set_state (state_bytes t +w64 (new_size - old))%rust t
  else set_state (sat_sub (state_bytes t) (old - new_size)) t.

Definition record_state_removed (k : K) (t : DiskUsageTracker) : DiskUsageTracker :=
  let removed := size_of k t in
  let t := set_sizes (delete k (state_sizes t)) t in
  if negb (seeded t) then t
  else if removed =? 0 then t
  else set_state (sat_sub (state_bytes t) removed) t.

Definition record_wasm_write (blob_len : Z) (t : DiskUsageTracker) : DiskUsageTracker :=
  if negb (seeded t) then t else set_wasm (wasm_bytes t +w64 blob_len)%rust t.

Definition record_wasm_removed (blob_len : Z) (t : DiskUsageTracker) : DiskUsageTracker :=
  if negb (seeded t) then t
  else if blob_len =? 0 then t
  else set_wasm (sat_sub (wasm_bytes t) blob_len) t.

Definition judge (projected budget : Z) : option DiskBudgetExceeded :=
  if budget <? projected then Some (mkExceeded projected budget) else None.

(** [None] admits. *)
Definition admit_state_write (k : K) (new_size budget : Z) (t : DiskUsageTracker) : option DiskBudgetExceeded :=
  judge (sat_add64 (sat_sub (total_bytes t) (size_of k t)) new_size) budget.

Definition admit_state_update (k : K) (new_size budget : Z) (t : DiskUsageTracker) : option DiskBudgetExceeded :=
  if new_size <=? size_of k t then None
  else judge (sat_add64 (sat_sub (total_bytes t) (size_of k t)) new_size) budget.

Definition admit_wasm_write (blob_len budget : Z) (t : DiskUsageTracker) : option DiskBudgetExceeded :=
  judge (sat_add64 (total_bytes t) blob_len) budget.

Definition refresh_wasm (measured : Z) (t : DiskUsageTracker) : DiskUsageTracker := set_wasm measured t.
Definition refresh_compile_cache (measured : Z) (t : DiskUsageTracker) : DiskUsageTracker := set_cache measured t.

(** ** Interleaved calls *)

Inductive call :=
| Seed (rows : list (K * Z)) (wasm cache : Z)
| RecordWrite (k : K) (new_size : Z)
| RecordRemoved (k : K)
| WasmWrite (blob_len : Z)
| WasmRemoved (blob_len : Z)
| AdmitWrite (k : K) (new_size budget : Z)
| AdmitUpdate (k : K) (new_size budget : Z)
| AdmitWasm (blob_len budget : Z)
| RefreshWasm (measured : Z)
| RefreshCache (measured : Z).

(** Where a call stands.  [Merge] and the [Read]s of a state admission hold the
    mutex; [Add], [Sub] and [Cas] are the counter updates after it is released. *)
Inductive pc :=
| Start
| Merge
| SeedWasm
| SeedCache
| Add (d : Z)
| Sub (d : Z)
| Cas (d cur : Z)
| WasmSub
| WasmCas (cur : Z)
| ReadState (old : Z)
| ReadWasm (old state : Z)
| ReadCache (old state wasm : Z)
| Done (result : option DiskBudgetExceeded).

Record world := mkWorld { tracker : DiskUsageTracker; locked : bool; threads : list (call * pc) }.

Definition admit_step (held : bool) (new_size budget : Z) (p : pc) (t : DiskUsageTracker) (l : bool)
    : pc * DiskUsageTracker * bool :=
  match p with
  | ReadState old => (ReadWasm old (state_bytes t), t, l)
  | ReadWasm old s => (ReadCache old s (wasm_bytes t), t, l)
  | ReadCache old s w =>
      let total := sat_add64 (sat_add64 s w) (compile_cache_bytes t) in
      (Done (judge (sat_add64 (sat_sub total old) new_size) budget), t, if held then false else l)
  | _ => (p, t, l)
  end.

Definition call_step (c : call) (p : pc) (t : DiskUsageTracker) (l : bool) : pc * DiskUsageTracker * bool :=
  match c, p with
  | Seed _ _ _, Start =>
      if l then (p, t, l) else if seeded t then (Done None, t, l) else (Merge, set_seeded t, true)
  | Seed rows _ _, Merge =>
      let m := merge_rows rows (state_sizes t) in (SeedWasm, set_state (sum_sizes m) (set_sizes m t), false)
  | Seed _ wasm _, SeedWasm => (SeedCache, set_wasm wasm t, l)
  | Seed _ _ cache, SeedCache => (Done None, set_cache cache t, l)
  | RecordWrite k n, Start =>
      if l then (p, t, l)
      else let old := size_of k t in
           let t := set_sizes (<[k := n]> (state_sizes t)) t in
           (if negb (seeded t) then Done None else if old <=? n then Add (n - old) else Sub (old - n), t, l)
  | RecordRemoved k, Start =>
      if l then (p, t, l)
      else let removed := size_of k t in
           let t := set_sizes (delete k (state_sizes t)) t in
           (if negb (seeded t) then Done None else if removed =? 0 then Done None else Sub removed, t, l)
  | (RecordWrite _ _ | RecordRemoved _), Add d => (Done None, set_state (state_bytes t +w64 d)%rust t, l)
  | (RecordWrite _ _ | RecordRemoved _), Sub d => (Cas d (state_bytes t), t, l)
  | (RecordWrite _ _ | RecordRemoved _), Cas d cur =>
      if state_bytes t =? cur then (Done None, set_state (sat_sub cur d) t, l) else (Cas d (state_bytes t), t, l)
  | WasmWrite len, Start =>
      (Done None, if negb (seeded t) then t else set_wasm (wasm_bytes t +w64 len)%rust t, l)
  | WasmRemoved len, Start =>
      (if negb (seeded t) then Done None else if len =? 0 then Done None else WasmSub, t, l)
  | WasmRemoved len, WasmSub => (WasmCas (wasm_bytes t), t, l)
  | WasmRemoved len, WasmCas cur =>
      if wasm_bytes t =? cur then (Done None, set_wasm (sat_sub cur len) t, l) else (WasmCas (wasm_bytes t), t, l)
  | AdmitWrite k _ _, Start => if l then (p, t, l) else (ReadState (size_of k t), t, true)
  | AdmitUpdate k n _, Start =>
      if l then (p, t, l) else if n <=? size_of k t then (Done None, t, l) else (ReadState (size_of k t), t, true)
  | (AdmitWrite _ n b | AdmitUpdate _ n b), _ => admit_step true n b p t l
  | AdmitWasm _ _, Start => (ReadState 0, t, l)
  | AdmitWasm len b, _ => admit_step false len b p t l
  | RefreshWasm m, Start => (Done None, set_wasm m t, l)
  | RefreshCache m, Start => (Done None, set_cache m t, l)
  | _, _ => (p, t, l)
  end.

Definition step (w : world) (i : nat) : world :=
  match threads w !! i with
  | Some (c, p) =>
      let '(p', t', l') := call_step c p (tracker w) (locked w) in mkWorld t' l' (<[i := (c, p')]> (threads w))
  | None => w
  end.

Definition run (w : world) (schedule : list nat) : world := foldl step w schedule.

Definition spawn (t : DiskUsageTracker) (cs : list call) : world := mkWorld t false (map (fun c => (c, Start)) cs).

Definition finished (w : world) : bool :=
  forallb (fun x => match x.2 with Done _ => true | _ => false end) (threads w).

(** ** Nothing is under-counted *)

(** The difference a thread still has to apply to the counter. *)
Definition pend (x : call * pc) : Z := match x.2 with Add d => d | Sub d | Cas d _ => - d | _ => 0 end.
Definition busy (x : call * pc) : Z := match x.2 with Add _ | Sub _ | Cas _ _ => 1 | _ => 0 end.
Definition merging (x : call * pc) : Z := match x.2 with Merge => 1 | _ => 0 end.
Definition holds (x : call * pc) : Z :=
  match x with
  | (_, Merge) => 1
  | (AdmitWrite _ _ _, (ReadState _ | ReadWasm _ _ | ReadCache _ _ _)) => 1
  | (AdmitUpdate _ _ _, (ReadState _ | ReadWasm _ _ | ReadCache _ _ _)) => 1
  | _ => 0
  end.

(** The bytes a thread may still add to the counter. *)
Definition weight (x : call * pc) : Z :=
  match x with
  | (RecordWrite _ n, Start) => n
  | (_, Add d) => d
  | (Seed rows _ _, (Start | Merge)) => sumZ snd rows
  | _ => 0
  end.

Definition call_ok (c : call) : Prop :=
  match c with
  | RecordWrite _ n => 0 <= n
  | Seed rows _ _ => Forall (fun row => 0 <= row.2) rows
  | _ => True
  end.

Definition thread_ok (x : call * pc) : Prop :=
  call_ok x.1 /\ match x.2 with
                 | Add d | Sub d | Cas d _ => 0 <= d
                 | Merge => exists rows wasm cache, x.1 = Seed rows wasm cache
                 | _ => True
                 end.

Record inv (T : Z) (w : world) : Prop := {
  inv_sizes : map_Forall (fun _ v => 0 <= v) (state_sizes (tracker w));
  inv_threads : Forall thread_ok (threads w);
  inv_lock : sumZ holds (threads w) = if locked w then 1 else 0;
  inv_merge : 0 < sumZ merging (threads w) -> seeded (tracker w) = true;
  inv_before : seeded (tracker w) = false \/ 0 < sumZ merging (threads w) ->
    sumZ busy (threads w) = 0 /\ state_bytes (tracker w) = 0 /\
    map_sum id (state_sizes (tracker w)) + sumZ weight (threads w) <= T;
  inv_after : seeded (tracker w) = true -> sumZ merging (threads w) = 0 ->
    map_sum id (state_sizes (tracker w)) <= state_bytes (tracker w) + sumZ pend (threads w) /\
    0 <= state_bytes (tracker w) /\ state_bytes (tracker w) + sumZ weight (threads w) <= T;
}.

Lemma size_of_nonneg k t : map_Forall (fun _ v => 0 <= v) (state_sizes t) -> 0 <= size_of k t.
Proof. intros H. unfold size_of. destruct (state_sizes t !! k) eqn:E; simpl; [|lia]. by apply H in E. Qed.

Lemma sum_insert (m : gmap K Z) k n : map_sum id (<[k := n]> m) = map_sum id m - default 0 (m !! k) + n.
Proof.
  destruct (m !! k) as [v|] eqn:E; simpl.
  - by rewrite (map_sum_replace id m k v n E).
  - rewrite map_sum_insert by done. unfold id. lia.
Qed.

Lemma sum_delete (m : gmap K Z) k : map_sum id (delete k m) = map_sum id m - default 0 (m !! k).
Proof.
  destruct (m !! k) as [v|] eqn:E; simpl.
  - rewrite (map_sum_delete id m k v E). unfold id. lia.
  - rewrite delete_id by done. lia.
Qed.

Lemma merge_rows_spec rows m :
  Forall (fun row => 0 <= row.2) rows -> map_Forall (fun _ v => 0 <= v) m ->
  map_Forall (fun _ v => 0 <= v) (merge_rows rows m) /\ map_sum id (merge_rows rows m) <= map_sum id m + sumZ snd rows.
Proof.
  intros Hr. revert m. induction Hr as [|[k v] rows Hv _ IH]; intros m Hm; simpl; [split; [done|lia]|]. simpl in Hv.
  unfold merge_rows in *. simpl. destruct (m !! k) as [v'|] eqn:E.
  - destruct (IH m Hm). split; [done|lia].
  - destruct (IH (<[k := v]> m)) as [? Hle]; [by apply map_Forall_insert_2|]. split; [done|].
    rewrite sum_insert, E in Hle. simpl in Hle. lia.
Qed.

Lemma pend_busy l : sumZ busy l = 0 -> sumZ pend l = 0.
Proof.
  intros Hb. apply sumZ_zero. intros x [i Hi]%list_elem_of_lookup.
  assert (H0 : busy x <= sumZ busy l) by (apply (sumZ_lookup_le busy l i); [intros [? []]; unfold busy; simpl; lia|done]).
  destruct x as [c []]; simpl in *; unfold busy, pend in *; simpl in *; lia.
Qed.

Definition bit (b : bool) : Z := if b then 1 else 0.

(** A step that touches neither the index nor the state counter. *)
Lemma step_neutral T w i c p p' t' l' :
  inv T w -> threads w !! i = Some (c, p) ->
  state_bytes t' = state_bytes (tracker w) -> state_sizes t' = state_sizes (tracker w) ->
  seeded t' = seeded (tracker w) ->
  pend (c, p') = pend (c, p) -> busy (c, p') = busy (c, p) -> merging (c, p') = merging (c, p) ->
  weight (c, p') <= weight (c, p) -> holds (c, p') - holds (c, p) = bit l' - bit (locked w) ->
  thread_ok (c, p') -> inv T (mkWorld t' l' (<[i := (c, p')]> (threads w))).
Proof.
  intros [Hs Ht Hl Hm Hb Ha] Hi E1 E2 E3 Hp Hbu Hme Hw Hh Hok.
  split; cbn [tracker threads locked]; rewrite ?E1, ?E2, ?E3, ?(sumZ_insert _ _ _ _ _ Hi), ?Hp, ?Hbu, ?Hme.
  - done.
  - by apply Forall_insert.
  - unfold bit in *. destruct l', (locked w); lia.
  - intros H. apply Hm. lia.
  - intros H. destruct Hb as (? & ? & ?); [destruct H; [by left|right; lia]|]. split_and!; [lia|done|lia].
  - intros H1 H2. destruct Ha as (? & ? & ?); [done|lia|]. split_and!; lia.
Qed.

Lemma holds_nonneg x : 0 <= holds x.
Proof. destruct x as [[] []]; unfold holds; simpl; lia. Qed.
Lemma merging_nonneg x : 0 <= merging x.
Proof. destruct x as [c []]; unfold merging; simpl; lia. Qed.
Lemma merging_holds x : merging x <= holds x.
Proof. destruct x as [[] []]; unfold merging, holds; simpl; lia. Qed.
Lemma busy_nonneg x : 0 <= busy x.
Proof. destruct x as [c []]; unfold busy; simpl; lia. Qed.

Lemma unlocked_not_merging T w : inv T w -> locked w = false -> sumZ merging (threads w) = 0.
Proof.
  intros [_ _ Hl _ _ _] Hf. rewrite Hf in Hl.
  pose proof (sumZ_le merging holds (threads w) merging_holds).
  pose proof (sumZ_nonneg merging (threads w) ltac:(intros; apply merging_nonneg)). lia.
Qed.

(** A state write, or a removal, under the lock. *)
Lemma write_step T w i c n m p' :
  inv T w -> threads w !! i = Some (c, Start) -> locked w = false -> thread_ok (c, p') ->
  map_Forall (fun _ v => 0 <= v) m -> holds (c, Start) = 0 -> holds (c, p') = 0 -> merging (c, p') = 0 ->
  map_sum id m = map_sum id (state_sizes (tracker w)) + n -> n <= weight (c, Start) ->
  (seeded (tracker w) = false -> weight (c, p') = 0 /\ busy (c, p') = 0) ->
  (seeded (tracker w) = true -> pend (c, p') = n /\ weight (c, p') <= weight (c, Start)) ->
  inv T (mkWorld (set_sizes m (tracker w)) false (<[i := (c, p')]> (threads w))).
Proof.
  intros Hinv Hi Hf Hok Hm Hh1 Hh2 Hme Hsum Hn Hb0 Ha0. pose proof (unlocked_not_merging T w Hinv Hf) as Hm0.
  destruct Hinv as [Hs Ht Hl Hmg Hb Ha]. rewrite Hf in Hl.
  assert (Hp0 : forall c, pend (c, Start) = 0 /\ busy (c, Start) = 0 /\ merging (c, Start) = 0) by done.
  destruct (Hp0 c) as (P1 & P2 & P3).
  split; cbn [tracker threads locked set_sizes state_sizes state_bytes seeded];
    rewrite ?(sumZ_insert _ _ _ _ _ Hi), ?Hh1, ?Hh2, ?Hme, ?P1, ?P2, ?P3, ?Hsum.
  - done.
  - by apply Forall_insert.
  - lia.
  - intros H. lia.
  - intros [H|H]; [|lia]. destruct (Hb0 H) as [-> ->]. destruct (Hb ltac:(by left)) as (? & ? & ?). split_and!; lia.
  - intros H _. destruct (Ha0 H) as [-> ?]. destruct (Ha H Hm0) as (? & ? & ?). split_and!; lia.
Qed.

Lemma weight_nonneg x : thread_ok x -> 0 <= weight x.
Proof.
  destruct x as [c p]. intros [Hc Hp]. simpl in *.
  destruct c, p; simpl in *; try lia; apply sumZ_nonneg; intros row Hr; by eapply Forall_forall in Hc.
Qed.

Lemma weights_nonneg l : Forall thread_ok l -> 0 <= sumZ weight l.
Proof. intros H. apply sumZ_nonneg. intros x Hx. apply weight_nonneg. by eapply Forall_forall in H. Qed.

Lemma busy_threads T w i x : inv T w -> threads w !! i = Some x -> busy x = 1 ->
  seeded (tracker w) = true /\ sumZ merging (threads w) = 0.
Proof.
  intros [_ _ _ _ Hb _] Hi Hx.
  pose proof (sumZ_lookup_le busy (threads w) i x busy_nonneg Hi).
  pose proof (sumZ_nonneg merging (threads w) ltac:(intros; apply merging_nonneg)).
  destruct (seeded (tracker w)) eqn:E; [|destruct Hb as (? & _); [by left|lia]].
  split; [done|]. destruct (decide (0 < sumZ merging (threads w))) as [Hm|]; [|lia].
  destruct Hb as (? & _); [by right|lia].
Qed.

(** A thread applies its difference to the counter. *)
Lemma counter_step T w i c p b :
  inv T w -> threads w !! i = Some (c, p) -> busy (c, p) = 1 ->
  0 <= b -> state_bytes (tracker w) + pend (c, p) <= b -> b <= state_bytes (tracker w) + weight (c, p) ->
  holds (c, p) = 0 -> merging (c, p) = 0 -> call_ok c -> weight (c, Done None) = 0 ->
  inv T (mkWorld (set_state b (tracker w)) (locked w) (<[i := (c, Done None)]> (threads w))).
Proof.
  intros Hinv Hi Hbu Hb0 Hlo Hhi Hh Hme Hok Hw. destruct (busy_threads T w i _ Hinv Hi Hbu) as [Hsd Hm0].
  assert (Hd : holds (c, Done None) = 0) by (by destruct c).
  destruct Hinv as [Hs Ht Hl Hmg Hb Ha]. destruct (Ha Hsd Hm0) as (A1 & A2 & A3).
  assert (Hz : forall c, pend (c, Done None) = 0 /\ busy (c, Done None) = 0 /\ merging (c, Done None) = 0) by done.
  destruct (Hz c) as (P1 & P2 & P3).
  split; cbn [tracker threads locked set_state state_sizes state_bytes seeded];
    rewrite ?(sumZ_insert _ _ _ _ _ Hi), ?Hd, ?Hh, ?Hme, ?P1, ?P2, ?P3, ?Hw.
  - done.
  - by apply Forall_insert.
  - lia.
  - intros H. lia.
  - intros [H|H]; [congruence|lia].
  - intros _ _. split_and!; lia.
Qed.

(** The seed merges the rows and stores the sum. *)
Lemma merge_step T w i rows wasm cache :
  let m := merge_rows rows (state_sizes (tracker w)) in
  T <= u64_max -> inv T w -> threads w !! i = Some (Seed rows wasm cache, Merge) ->
  inv T (mkWorld (set_state (sum_sizes m) (set_sizes m (tracker w))) false
           (<[i := (Seed rows wasm cache, SeedWasm)]> (threads w))).
Proof.
  intros m HT [Hs Ht Hl Hmg Hb Ha] Hi.
  pose proof (sumZ_lookup_le merging (threads w) i _ merging_nonneg Hi) as M1.
  pose proof (sumZ_le merging holds (threads w) merging_holds) as M2.
  pose proof (weights_nonneg _ (Forall_insert _ (threads w) i (Seed rows wasm cache, SeedWasm) Ht
    (conj (proj1 (Forall_lookup_1 _ _ _ _ Ht Hi)) I))) as Hwn.
  assert (Hrows : Forall (fun row => 0 <= row.2) rows) by exact (proj1 (Forall_lookup_1 _ _ _ _ Ht Hi)).
  destruct (merge_rows_spec rows _ Hrows Hs) as [Hms Hmsum]. fold m in Hms, Hmsum.
  pose proof (map_sum_nonneg id m Hms) as Hm0.
  destruct Hb as (B1 & B2 & B3); [right; unfold merging in M1 at 1; simpl in M1; lia|].
  pose proof (pend_busy _ B1) as B4. change (merging (Seed rows wasm cache, Merge)) with 1 in M1.
  assert (Hlk : locked w = true) by (destruct (locked w); [done|lia]). rewrite Hlk in Hl.
  rewrite (sumZ_insert _ _ _ _ _ Hi) in Hwn.
  split; cbn [tracker threads locked set_state set_sizes state_sizes state_bytes seeded];
    rewrite ?(sumZ_insert _ _ _ _ _ Hi); cbn [pend busy merging holds weight fst snd] in *; unfold sum_sizes.
  - done.
  - apply Forall_insert; [done|]. by split.
  - lia.
  - intros H. lia.
  - intros [H|H]; [|lia]. rewrite Hmg in H by lia. done.
  - intros _ _. split_and!; lia.
Qed.

(** The seed takes the lock. *)
Lemma lock_step T w i rows wasm cache :
  inv T w -> threads w !! i = Some (Seed rows wasm cache, Start) -> locked w = false ->
  seeded (tracker w) = false ->
  inv T (mkWorld (set_seeded (tracker w)) true (<[i := (Seed rows wasm cache, Merge)]> (threads w))).
Proof.
  intros [Hs Ht Hl Hmg Hb Ha] Hi Hlk Hsd. destruct Hb as (B1 & B2 & B3); [by left|].
  pose proof (sumZ_nonneg merging (threads w) ltac:(intros; apply merging_nonneg)) as Hn.
  split; cbn [tracker threads locked set_seeded state_sizes state_bytes seeded];
    rewrite ?(sumZ_insert _ _ _ _ _ Hi); cbn [pend busy merging holds weight fst snd] in *.
  - done.
  - apply Forall_insert; [done|]. split; [exact (proj1 (Forall_lookup_1 _ _ _ _ Ht Hi))|]. by exists rows, wasm, cache.
  - rewrite Hlk in Hl. lia.
  - done.
  - intros _. split_and!; lia.
  - intros _ H. lia.
Qed.

Lemma holder_locked T w i x : inv T w -> threads w !! i = Some x -> holds x = 1 -> locked w = true.
Proof.
  intros [_ _ Hl _ _ _] Hi Hx. pose proof (sumZ_lookup_le holds (threads w) i x holds_nonneg Hi).
  destruct (locked w); [done|lia].
Qed.

(** A call that reads, waits, or writes only the measured counters. *)
Ltac neutral Hinv Hi :=
  eapply step_neutral; [exact Hinv|exact Hi|done..| | |];
  [pose proof (weight_nonneg _ (Forall_lookup_1 _ _ _ _ (inv_threads _ _ Hinv) Hi)); cbn [weight] in *; lia
  |pose proof (holder_locked _ _ _ _ Hinv Hi) as Hlock; unfold bit, holds in *; cbn in Hlock |- *;
   destruct (locked _); first [lia | done | by rewrite Hlock in *]
  |destruct (Forall_lookup_1 _ _ _ _ (inv_threads _ _ Hinv) Hi); by split].

Lemma write_call T w i k n p t l :
  inv T w -> threads w !! i = Some (RecordWrite k n, Start) ->
  call_step (RecordWrite k n) Start (tracker w) (locked w) = (p, t, l) ->
  inv T (mkWorld t l (<[i := (RecordWrite k n, p)]> (threads w))).
Proof.
  intros Hinv Hi. simpl. destruct (locked w) eqn:El; intros [= <- <- <-].
  { rewrite list_insert_id by done. destruct w; simpl in *. by subst. }
  destruct (Forall_lookup_1 _ _ _ _ (inv_threads _ _ Hinv) Hi) as [Hn _]. simpl in Hn.
  pose proof (size_of_nonneg k (tracker w) (inv_sizes _ _ Hinv)) as H0.
  apply (write_step T w i _ (n - size_of k (tracker w)));
    [done..| | |done|by repeat case_match|by repeat case_match| | | |].
  - split; [done|]. simpl. destruct (negb _); [done|]. destruct (_ <=? _) eqn:E; simpl; lia.
  - by apply map_Forall_insert_2; [|apply Hinv].
  - rewrite sum_insert. fold (size_of k (tracker w)). lia.
  - simpl. lia.
  - intros ->. done.
  - intros ->. simpl. destruct (_ <=? _) eqn:E; unfold pend; simpl; lia.
Qed.

Lemma remove_call T w i k p t l :
  inv T w -> threads w !! i = Some (RecordRemoved k, Start) ->
  call_step (RecordRemoved k) Start (tracker w) (locked w) = (p, t, l) ->
  inv T (mkWorld t l (<[i := (RecordRemoved k, p)]> (threads w))).
Proof.
  intros Hinv Hi. simpl. destruct (locked w) eqn:El; intros [= <- <- <-].
  { rewrite list_insert_id by done. destruct w; simpl in *. by subst. }
  pose proof (size_of_nonneg k (tracker w) (inv_sizes _ _ Hinv)) as H0.
  apply (write_step T w i _ (- size_of k (tracker w)));
    [done..| | |done|by repeat case_match|by repeat case_match| | | |].
  - split; [done|]. simpl. destruct (negb _); [done|]. by destruct (_ =? _).
  - by apply map_Forall_delete, Hinv.
  - rewrite sum_delete. fold (size_of k (tracker w)). lia.
  - simpl. lia.
  - intros ->. done.
  - intros ->. simpl. destruct (_ =? _) eqn:E; unfold pend; simpl; lia.
Qed.

Lemma add_call T w i c d :
  T <= u64_max -> inv T w -> threads w !! i = Some (c, Add d) ->
  inv T (mkWorld (set_state (state_bytes (tracker w) +w64 d)%rust (tracker w)) (locked w)
           (<[i := (c, Done None)]> (threads w))).
Proof.
  intros HT Hinv Hi. destruct (Forall_lookup_1 _ _ _ _ (inv_threads _ _ Hinv) Hi) as [Hok Hd]. simpl in Hd, Hok.
  destruct (busy_threads T w i _ Hinv Hi eq_refl) as [Hsd Hm0].
  destruct (inv_after _ _ Hinv Hsd Hm0) as (_ & A2 & A3).
  assert (Hw : weight (c, Add d) = d /\ weight (c, Done None) = 0) by (by destruct c). destruct Hw as [W1 W2].
  pose proof (weights_nonneg _ (Forall_insert _ _ i (c, Done None) (inv_threads _ _ Hinv) (conj Hok I))) as Hn.
  rewrite (sumZ_insert _ _ _ _ _ Hi), W1, W2 in Hn.
  rewrite wrap64_id by int_lia. apply (counter_step T w i c (Add d)); try done; try lia; try by destruct c.
Qed.

Lemma cas_call T w i c d :
  inv T w -> threads w !! i = Some (c, Cas d (state_bytes (tracker w))) ->
  inv T (mkWorld (set_state (sat_sub (state_bytes (tracker w)) d) (tracker w)) (locked w)
           (<[i := (c, Done None)]> (threads w))).
Proof.
  intros Hinv Hi. destruct (Forall_lookup_1 _ _ _ _ (inv_threads _ _ Hinv) Hi) as [Hok Hd]. simpl in Hd, Hok.
  destruct (busy_threads T w i _ Hinv Hi eq_refl) as [Hsd Hm0].
  destruct (inv_after _ _ Hinv Hsd Hm0) as (_ & A2 & _).
  assert (Hw : weight (c, Cas d (state_bytes (tracker w))) = 0) by (by destruct c).
  apply (counter_step T w i c (Cas d (state_bytes (tracker w)))); try done; unfold sat_sub; try lia; try by destruct c.
  unfold pend. simpl. lia.
Qed.

Lemma usage_step_inv T w i : T <= u64_max -> inv T w -> inv T (step w i).
Proof.
  intros HT Hinv. unfold step. destruct (threads w !! i) as [[c p]|] eqn:Hi; [|done].
  pose proof (Forall_lookup_1 _ _ _ _ (inv_threads _ _ Hinv) Hi) as [Hok Hp]. simpl in Hok, Hp.
  destruct (call_step c p (tracker w) (locked w)) as [[p' t'] l'] eqn:E.
  destruct c as [rows wasm cache|k n|k|len|len|k n b|k n b|len b|me|me].
  - destruct p; simpl in E; repeat case_match; simplify_eq; try neutral Hinv Hi.
    + by apply lock_step.
    + by apply merge_step.
  - destruct p; try (by eapply write_call); try solve [simpl in E; simplify_eq; neutral Hinv Hi].
    + injection E as <- <- <-. by apply add_call.
    + simpl in E. destruct (_ =? _) eqn:Ec; simplify_eq; [|neutral Hinv Hi].
      apply Z.eqb_eq in Ec as <-. by apply cas_call.
  - destruct p; try (by eapply remove_call); try solve [simpl in E; simplify_eq; neutral Hinv Hi].
    + injection E as <- <- <-. by apply add_call.
    + simpl in E. destruct (_ =? _) eqn:Ec; simplify_eq; [|neutral Hinv Hi].
      apply Z.eqb_eq in Ec as <-. by apply cas_call.
  - destruct p; simpl in E; simplify_eq; try neutral Hinv Hi. case_match; neutral Hinv Hi.
  - destruct p; simpl in E; repeat case_match; simplify_eq; neutral Hinv Hi.
  - destruct p; simpl in E; repeat case_match; simplify_eq; neutral Hinv Hi.
  - destruct p; simpl in E; repeat case_match; simplify_eq; neutral Hinv Hi.
  - destruct p; simpl in E; repeat case_match; simplify_eq; neutral Hinv Hi.
  - destruct p; simpl in E; repeat case_match; simplify_eq; neutral Hinv Hi.
  - destruct p; simpl in E; repeat case_match; simplify_eq; neutral Hinv Hi.
Qed.

Lemma usage_run_inv T w schedule : T <= u64_max -> inv T w -> inv T (run w schedule).
Proof. intros HT. revert w. induction schedule as [|i s IH]; intros w H; simpl; [done|]. by apply IH, usage_step_inv. Qed.

(** The bytes a call reports. *)
Definition reported (c : call) : Z := weight (c, Start).

Lemma usage_spawn_inv cs : Forall call_ok cs -> inv (sumZ reported cs) (spawn new cs).
Proof.
  intros Hcs. split; cbn [spawn tracker threads locked new state_sizes state_bytes seeded];
    rewrite ?sumZ_map, ?map_sum_empty; [by apply map_Forall_empty| | |..].
  - apply Forall_map. eapply Forall_impl; [exact Hcs|]. by split.
  - apply sumZ_zero. by intros [] _.
  - rewrite sumZ_zero by done. lia.
  - intros _. split_and!; [by apply sumZ_zero|done|]. unfold reported. lia.
  - done.
Qed.

Lemma finished_idle w : finished w = true -> sumZ pend (threads w) = 0 /\ sumZ merging (threads w) = 0.
Proof.
  unfold finished. rewrite forallb_forall. intros Hf.
  split; apply sumZ_zero; intros [c p] Hx%list_elem_of_In%Hf; destruct p; done.
Qed.

(** The measurements of a call are unsigned. *)
Definition unsigned (c : call) : Prop :=
  match c with
  | Seed _ wasm cache => 0 <= wasm /\ 0 <= cache
  | RefreshWasm m | RefreshCache m => 0 <= m
  | _ => True
  end.

Definition counters_ok (w : world) : Prop :=
  Forall (fun x => unsigned x.1) (threads w) /\ 0 <= wasm_bytes (tracker w) /\ 0 <= compile_cache_bytes (tracker w).

Lemma step_counters_ok w i : counters_ok w -> counters_ok (step w i).
Proof.
  intros (Hu & Hw & Hc). unfold step. destruct (threads w !! i) as [[c p]|] eqn:Hi; [|done].
  pose proof (proj1 (Forall_lookup _ _) Hu i _ Hi) as Huc. cbn in Huc. pose proof wrap64_range as Hwrap. unfold is_u64 in Hwrap.
  destruct (call_step c p (tracker w) (locked w)) as [[p' t'] l'] eqn:E. split; [by apply Forall_insert|].
  destruct c, p; cbn in E; unfold admit_step in E; repeat case_match; simplify_eq; cbn in *; unfold sat_sub in *;
    split; try done; first [lia|apply Hwrap].
Qed.

Lemma run_counters_ok w schedule : counters_ok w -> counters_ok (run w schedule).
Proof. revert w. induction schedule as [|i s IH]; intros w H; simpl; [done|]. by apply IH, step_counters_ok. Qed.

Lemma spawn_counters_ok cs : Forall unsigned cs -> counters_ok (spawn new cs).
Proof. intros Hcs. split; [|done]. by apply Forall_map. Qed.

(** An admission that sees every byte of the index refuses what does not fit. *)
Lemma admitted_fits k n budget t :
  map_Forall (fun _ v => 0 <= v) (state_sizes t) -> map_sum id (state_sizes t) <= state_bytes t ->
  0 <= wasm_bytes t -> 0 <= compile_cache_bytes t -> 0 <= n -> budget < u64_max ->
  map_sum id (state_sizes t) <= u64_max ->
  admit_state_write k n budget t = None -> map_sum id (<[k := n]> (state_sizes t)) <= budget.
Proof.
  intros Hs Hle Hw Hc Hn Hb Hm. unfold admit_state_write, judge. destruct (_ <? _) eqn:E; [done|]. intros _. to_props.
  rewrite sum_insert. fold (size_of k t). unfold total_bytes, sat_sub, sat_add64 in E. lia.
Qed.

(** C12: state bytes are not forgotten.  However concurrent seeds, writes, removals, wasm
    updates, admissions and refreshes interleave, at every moment the state counter of a
    tracker that has been seeded falls short of the sum of the per-contract sizes by at most
    the differences that calls in progress have yet to apply.  So when all calls have
    returned, the counter is at least the sum, and an admission made then lets a state
    write through only if the states, with it, fit the budget.  (While the reported bytes
    total less than 2^64.) *)
Theorem usage_never_undercounted cs schedule :
  let w := run (spawn new cs) schedule in
  let sizes := state_sizes (tracker w) in
  Forall call_ok cs -> Forall unsigned cs -> sumZ reported cs <= u64_max -> is_seeded (tracker w) = true ->
  (sumZ merging (threads w) = 0 -> map_sum id sizes <= state_bytes (tracker w) + sumZ pend (threads w)) /\
  (finished w = true ->
    map_sum id sizes <= state_bytes (tracker w) /\
    forall k n budget, 0 <= n -> budget < u64_max -> admit_state_write k n budget (tracker w) = None ->
      map_sum id (<[k := n]> sizes) <= budget).
Proof.
  intros w sizes Hcs Hu HT Hsd. pose proof (usage_run_inv _ _ schedule HT (usage_spawn_inv cs Hcs)) as Hinv.
  destruct (run_counters_ok _ schedule (spawn_counters_ok cs Hu)) as (_ & Hw & Hc). fold w in Hinv, Hw, Hc. split.
  { intros Hm. by destruct (inv_after _ _ Hinv Hsd Hm). }
  intros Hf. destruct (finished_idle w Hf) as [Hp Hm]. destruct (inv_after _ _ Hinv Hsd Hm) as (Hle & _ & Hmax).
  pose proof (weights_nonneg _ (inv_threads _ _ Hinv)). split; [unfold sizes; lia|]. intros k n budget Hn Hb.
  apply admitted_fits; try done; [apply (inv_sizes _ _ Hinv)|lia|lia].
Qed.

(** ** One caller at a time *)

Record exact (t : DiskUsageTracker) : Prop := {
  exact_sizes : map_Forall (fun _ v => 0 <= v) (state_sizes t);
  exact_sum : seeded t = true -> state_bytes t = map_sum id (state_sizes t);
}.

Lemma size_le k t : map_Forall (fun _ v => 0 <= v) (state_sizes t) -> size_of k t <= map_sum id (state_sizes t).
Proof.
  intros H. unfold size_of. destruct (state_sizes t !! k) eqn:E; simpl.
  - apply (map_sum_le id _ k); [by intros ?? ?%H|done].
  - apply map_sum_nonneg. by intros ?? ?%H.
Qed.

Lemma write_exact k n t : exact t -> 0 <= n -> map_sum id (state_sizes t) + n <= u64_max ->
  exact (record_state_write k n t) /\
  (seeded t = true -> state_bytes (record_state_write k n t) = state_bytes t - size_of k t + n).
Proof.
  intros [Hs Hsum] Hn Hmax. pose proof (size_le k t Hs) as Hle. pose proof (size_of_nonneg k t Hs) as H0.
  assert (Hb : seeded t = true -> state_bytes (record_state_write k n t) = state_bytes t - size_of k t + n).
  { intros Ht. specialize (Hsum Ht). unfold record_state_write. simpl. rewrite Ht. simpl.
    destruct (_ <=? n) eqn:E; simpl; [rewrite wrap64_id by int_lia; lia|unfold sat_sub; lia]. }
  assert (Hm : state_sizes (record_state_write k n t) = <[k := n]> (state_sizes t))
    by (unfold record_state_write; repeat case_match; done).
  assert (Hd : seeded (record_state_write k n t) = seeded t) by (unfold record_state_write; repeat case_match; done).
  split; [|done]. split; rewrite Hm.
  - by apply map_Forall_insert_2.
  - rewrite Hd. intros Ht. rewrite (Hb Ht), sum_insert, (Hsum Ht). done.
Qed.

Lemma removed_exact k t : exact t -> exact (record_state_removed k t).
Proof.
  intros [Hs Hsum]. pose proof (size_le k t Hs) as Hle. pose proof (size_of_nonneg k t Hs) as H0.
  assert (Hm : state_sizes (record_state_removed k t) = delete k (state_sizes t))
    by (unfold record_state_removed; repeat case_match; done).
  split; rewrite Hm; [by apply map_Forall_delete|]. rewrite sum_delete. fold (size_of k t).
  unfold record_state_removed. simpl. destruct (seeded t) eqn:Ht; simpl; [|congruence]. intros _.
  rewrite <- Hsum by done. destruct (_ =? 0) eqn:E; simpl; [lia|]. unfold sat_sub. rewrite Hsum in * by done. lia.
Qed.

Lemma seed_exact rows wasm cache t :
  exact t -> Forall (fun row => 0 <= row.2) rows -> map_sum id (state_sizes t) + sumZ snd rows <= u64_max ->
  exact (seed rows wasm cache t).
Proof.
  intros Ht Hr Hmax. unfold seed. destruct (seeded t); [done|].
  destruct (merge_rows_spec rows _ Hr (exact_sizes _ Ht)) as [Hm Hle]. split; simpl; [done|]. intros _.
  unfold sum_sizes. lia.
Qed.

(** Between calls admission is exact.  As long as the true total fits 64 bits, a
    state write is admitted just when the total after recording it is within the
    budget, and a refusal reports that total. *)
Lemma admission_is_exact k n budget t :
  exact t -> is_seeded t = true -> 0 <= n -> 0 <= wasm_bytes t -> 0 <= compile_cache_bytes t ->
  state_bytes t + wasm_bytes t + compile_cache_bytes t + n <= u64_max ->
  let total := total_bytes (record_state_write k n t) in
  exact (record_state_write k n t) /\
  admit_state_write k n budget t = (if total <=? budget then None else Some (mkExceeded total budget)) /\
  admit_state_update k n budget t =
    (if (total <=? budget) || (n <=? size_of k t) then None else Some (mkExceeded total budget)).
Proof.
  intros Ht Hsd Hn Hw Hc Hmax total. unfold is_seeded in Hsd.
  pose proof (exact_sum _ Ht Hsd) as Hsum. pose proof (size_le k t (exact_sizes _ Ht)) as Hle.
  pose proof (size_of_nonneg k t (exact_sizes _ Ht)) as H0.
  destruct (write_exact k n t Ht Hn ltac:(lia)) as [Hex Hb]. specialize (Hb Hsd).
  assert (Hrest : wasm_bytes (record_state_write k n t) = wasm_bytes t /\
                  compile_cache_bytes (record_state_write k n t) = compile_cache_bytes t)
    by (unfold record_state_write; repeat case_match; done). destruct Hrest as [Ew Ec].
  assert (Hp : sat_add64 (sat_sub (total_bytes t) (size_of k t)) n = total).
  { unfold total, total_bytes. rewrite Hb, Ew, Ec. unfold sat_add64, sat_sub. lia. }
  split; [done|]. unfold admit_state_write, admit_state_update, judge. rewrite Hp. clearbody total.
  split; repeat case_match; simpl in *; try done; lia.
Qed.

(** What a call computes when nothing interferes. *)
Definition sequential (c : call) (t : DiskUsageTracker) : option DiskBudgetExceeded * DiskUsageTracker :=
  match c with
  | Seed rows wasm cache => (None, seed rows wasm cache t)
  | RecordWrite k n => (None, record_state_write k n t)
  | RecordRemoved k => (None, record_state_removed k t)
  | WasmWrite len => (None, record_wasm_write len t)
  | WasmRemoved len => (None, record_wasm_removed len t)
  | AdmitWrite k n b => (admit_state_write k n b t, t)
  | AdmitUpdate k n b => (admit_state_update k n b t, t)
  | AdmitWasm len b => (admit_wasm_write len b t, t)
  | RefreshWasm m => (None, refresh_wasm m t)
  | RefreshCache m => (None, refresh_compile_cache m t)
  end.

Lemma alone_step c p t l :
  step (mkWorld t l [(c, p)]) 0 = let '(p', t', l') := call_step c p t l in mkWorld t' l' [(c, p')].
Proof. unfold step. simpl. by destruct (call_step c p t l) as [[??]?]. Qed.

(** A call that runs alone ends within four steps, releases the mutex, and has the
    effect and the answer of its sequential definition. *)
Lemma call_alone c t :
  0 <= total_bytes t ->
  run (spawn t [c]) [0; 0; 0; 0]%nat =
  mkWorld (sequential c t).2 false [(c, Done (sequential c t).1)].
Proof.
  intros Ht. unfold run, spawn. cbn [foldl map]. destruct c; cbn [sequential fst snd];
    unfold seed, record_state_write, record_state_removed, record_wasm_write, record_wasm_removed,
      admit_state_write, admit_state_update, admit_wasm_write.
  all: do 4 (rewrite alone_step; cbn [call_step admit_step];
             repeat match goal with |- context [if ?b then _ else _] => destruct b eqn:? end);
       simpl in *; rewrite ?Z.eqb_refl in *; try done.
  fold (total_bytes t). unfold sat_sub. by rewrite Z.sub_0_r, Z.max_r.
Qed.
End tracker.

Arguments call : clear implicits.
Arguments world : clear implicits.
Arguments DiskUsageTracker K {_ _}.

(** Two writes, a removal, a seed and an admission, interleaved. *)
Lemma usage_never_undercounted_witness :
  let cs := [RecordWrite 1 100; Seed [(1, 40); (2, 7)] 0 0; RecordWrite 2 50; RecordRemoved 1; AdmitWrite 1 5 1000] in
  let schedule := [0; 1; 1; 2; 3; 2; 3; 3; 1; 1; 4; 4; 4; 4]%nat in
  let w := run (spawn (K := Z) new cs) schedule in
  map_sum id (state_sizes (tracker w)) <= state_bytes (tracker w) /\
  admit_state_write 3 20 70 (tracker w) = None /\ map_sum id (<[3 := 20]> (state_sizes (tracker w))) <= 70.
Proof.
  set (cs := [_; _; _; _; _]). set (schedule := [_; _; _; _; _; _; _; _; _; _; _; _; _; _]). cbv zeta.
  destruct (usage_never_undercounted cs schedule) as [_ H];
    [unfold cs; rewrite !Forall_cons, Forall_nil; simpl; rewrite !Forall_cons, Forall_nil; simpl; lia
    |unfold cs; rewrite !Forall_cons, Forall_nil; simpl; lia|by vm_compute..|].
  destruct H as [H1 H2]; [by vm_compute|]. split; [done|]. split; [by vm_compute|]. apply H2; by vm_compute.
Defined.

Definition t_example : DiskUsageTracker Z := record_state_write 1 30 (seed [(2, 10)] 5 6 new).

Lemma admission_is_exact_witness :
  exact (record_state_write 1 40 t_example) /\
  admit_state_write 1 40 60 t_example = Some (mkExceeded 61 60) /\
  admit_state_update 1 40 61 t_example = None.
Proof.
  assert (He : exact t_example).
  { apply write_exact; [apply seed_exact; [by split; [apply map_Forall_empty|]|by repeat constructor|]|..]; by vm_compute. }
  destruct (admission_is_exact 1 40 60 t_example He) as (H1 & H2 & _); [done..|].
  destruct (admission_is_exact 1 40 61 t_example He) as (_ & _ & H3); [done..|].
  split_and!; [done|rewrite H2; by vm_compute|rewrite H3; by vm_compute].
Defined.

Lemma call_alone_witness :
  run (spawn t_example [AdmitWasm 10 60]) [0; 0; 0; 0]%nat =
  mkWorld t_example false [(AdmitWasm 10 60, Done (Some (mkExceeded 61 60)))].
Proof. rewrite (call_alone (AdmitWasm 10 60) t_example); by vm_compute. Defined.

(** ** Races the design admits *)

(** A removal that overtakes the write it undoes: the index is empty, but the counter
    keeps the contract's bytes. *)
Example removal_overtakes_write :
  let w := run (spawn (seed [] 0 0 (K := Z) new) [RecordWrite 1 100; RecordRemoved 1]) [0; 1; 1; 1; 0]%nat in
  finished w = true /\ state_sizes (tracker w) = ∅ /\ state_bytes (tracker w) = 100.
Proof. by vm_compute. Qed.

(** A second write of the same contract is admitted against its new size and the old
    total, and ends over the budget. *)
Example admission_reads_torn_snapshot :
  let w := run (spawn (seed [(2, 50)] 0 0 (K := Z) new) [RecordWrite 1 40; AdmitWrite 1 70 80; RecordWrite 1 70])
             [0; 1; 1; 1; 1; 0; 2; 2]%nat in
  threads w !! 1%nat = Some (AdmitWrite 1 70 80, Done None) /\ finished w = true /\ total_bytes (tracker w) = 120.
Proof. by vm_compute. Qed.

(** A removal before the seed is undone by the older snapshot row. *)
Example seed_revives_removed :
  let w := run (spawn (K := Z) new [RecordRemoved 1; Seed [(1, 100)] 0 0]) [0; 1; 1; 1; 1]%nat in
  finished w = true /\ state_sizes (tracker w) !! 1 = Some 100 /\ state_bytes (tracker w) = 100.
Proof. by vm_compute. Qed.

(** ** What the walks measure *)

(** File lengths are unsigned. *)
Fixpoint lengths_ok (n : node) : bool :=
  match n with
  | File _ (Some size) => 0 <=? size
  | Dir (Some es) => forallb lengths_ok es
  | _ => true
  end.

Lemma pushed_dirs es stack : sum_list_with dirs_in (foldl push_dir stack es) = (sum_list_with dirs_in stack + sum_list_with dirs es)%nat.
Proof.
  revert stack. induction es as [|n es IH]; intros stack; cbn [foldl sum_list_with]; [lia|].
  rewrite IH. destruct n as [|d|]; cbn [push_dir sum_list_with dirs]; [lia| |lia]. unfold dirs_in at 1. cbn [dirs]. lia.
Qed.

Lemma pushed_bytes wanted es stack :
  sumZ (fun d => tree_bytes wanted (Dir d)) (foldl push_dir stack es) + sumZ (file_bytes wanted) es =
  sumZ (fun d => tree_bytes wanted (Dir d)) stack + sumZ (tree_bytes wanted) es.
Proof.
  revert stack. induction es as [|n es IH]; intros stack; cbn [foldl]; rewrite ?sumZ_cons, ?sumZ_nil; [lia|].
  specialize (IH (push_dir stack n)). destruct n as [w s|d|]; cbn [push_dir] in *; rewrite ?sumZ_cons in *; cbn [file_bytes] in *.
  - change (tree_bytes wanted (File w s)) with (file_bytes wanted (File w s)) in *. cbn [file_bytes] in *. lia.
  - lia.
  - change (tree_bytes wanted Other) with 0. lia.
Qed.

Lemma pushed_ok es stack : forallb lengths_ok es = true ->
  forallb (fun d => lengths_ok (Dir d)) stack = true -> forallb (fun d => lengths_ok (Dir d)) (foldl push_dir stack es) = true.
Proof.
  revert stack. induction es as [|n es IH]; intros stack; cbn [foldl forallb]; [done|].
  intros [Hn He]%andb_true_iff Hs. apply IH; [done|]. destruct n; cbn [push_dir forallb]; [done| |done]. by rewrite Hs, Hn.
Qed.

Lemma counted_bytes wanted es total : forallb lengths_ok es = true -> 0 <= total <= u64_max ->
  foldl (fun t n => sat_add64 t (file_bytes wanted n)) total es = Z.min u64_max (total + sumZ (file_bytes wanted) es) /\
  0 <= sumZ (file_bytes wanted) es.
Proof.
  revert total. induction es as [|n es IH]; intros total; cbn [foldl forallb]; rewrite ?sumZ_cons, ?sumZ_nil; [intros _ ?; lia|].
  intros [Hn He]%andb_true_iff Ht.
  assert (0 <= file_bytes wanted n) by (destruct n as [w [s|]| |]; simpl in *; repeat case_match; lia).
  destruct (IH (sat_add64 total (file_bytes wanted n)) He) as [-> ?]; unfold sat_add64; [lia|]. lia.
Qed.

Lemma tree_bytes_nonneg wanted n : lengths_ok n = true -> 0 <= tree_bytes wanted n.
Proof.
  revert n. fix IH 1. intros [w [s|]|[es|]|]; cbn [lengths_ok tree_bytes file_bytes]; try done.
  - case_match; lia.
  - revert es. fix IHes 1. intros [|n es]; cbn [forallb]; rewrite ?sumZ_cons; [done|].
    intros [Hn He]%andb_true_iff. pose proof (IH n Hn). pose proof (IHes es He). lia.
Qed.

Lemma walk_loop_spec fuel wanted stack total :
  (sum_list_with dirs_in stack < fuel)%nat -> 0 <= total <= u64_max ->
  forallb (fun d => lengths_ok (Dir d)) stack = true ->
  walk_loop fuel wanted stack total =
  Some (Z.min u64_max (total + sumZ (fun d => tree_bytes wanted (Dir d)) stack)).
Proof.
  revert stack total. induction fuel as [|fuel IH]; intros stack total Hf Ht Hok; [lia|].
  destruct stack as [|[es|] stack]; cbn [walk_loop sum_list_with forallb] in *; rewrite ?sumZ_cons, ?sumZ_nil.
  - f_equal. lia.
  - apply andb_true_iff in Hok as [He Hs]. destruct (counted_bytes wanted es total He Ht) as [-> H0].
    rewrite IH; [|rewrite pushed_dirs; unfold dirs_in in Hf at 1; cbn [dirs] in Hf; lia|lia|by apply pushed_ok].
    pose proof (pushed_bytes wanted es stack) as Hp. f_equal.
    change (tree_bytes wanted (Dir (Some es))) with (sumZ (tree_bytes wanted) es).
    assert (0 <= sumZ (fun d => tree_bytes wanted (Dir d)) (foldl push_dir stack es)).
    { apply sumZ_nonneg. intros d Hd. apply tree_bytes_nonneg.
      pose proof (pushed_ok es stack He Hs) as Hall. rewrite forallb_forall in Hall. by apply Hall, list_elem_of_In. }
    lia.
  - rewrite IH; [|unfold dirs_in in Hf at 1; cbn [dirs] in Hf; lia|done|done]. f_equal.
Qed.

(** A directory walk ends and measures every readable file below the directory,
    the [wasm] walk only those with the extension, saturating at the largest counter. *)
Lemma du_walk_measures d :
  lengths_ok (Dir d) = true ->
  du_walk d = Some (Z.min u64_max (tree_bytes (fun _ => true) (Dir d))) /\
  du_walk_wasm d = Some (Z.min u64_max (tree_bytes (fun w => w) (Dir d))).
Proof.
  intros Hd. unfold du_walk, du_walk_wasm.
  split; (rewrite walk_loop_spec; [rewrite sumZ_cons, sumZ_nil; f_equal; lia|cbn [sum_list_with]; lia|by vm_compute|by cbn [forallb]; rewrite Hd]).
Qed.

Lemma du_walk_measures_witness :
  du_walk_wasm (Some [File true (Some 10); Dir (Some [File true (Some 7); File true None]); Dir None; Other; File false (Some 3)])
  = Some 17.
Proof. apply du_walk_measures. done. Defined.

End DiskUsage.
