(* ===== verification/HostingStore.v ===== *)
(** * Hosting metadata on disk

    Models the part of [src/crates/core/src/contract/storages/redb.rs] the hosting
    manager uses: the encoding of [HostingMetadata], and the tables of states and of
    metadata, both keyed by the contract's instance id.

    [redb] is a third-party database.  A transaction either commits or fails without
    effect; [failing] says which, and the environment may change it between calls.  Of a
    stored state only the size is kept.  A byte is a [Z] in [[0, 256)]. *)

From S2P Require Import Prelude.

Module HostingStore.

Record HostingMetadata := mkMetadata {
  last_access_ms : Z;
  access_type : Z;
  size_bytes : Z;
  code_hash : list Z;
  local_client_access : bool;
}.

(** [to_le_bytes] and [from_le_bytes] of [n] bytes. *)
Fixpoint to_le_bytes (n : nat) (z : Z) : list Z :=
  match n with O => [] | S n => z mod 256 :: to_le_bytes n (z / 256) end.
Fixpoint from_le_bytes (bytes : list Z) : Z :=
  match bytes with [] => 0 | b :: bytes => b + 256 * from_le_bytes bytes end.

Definition to_bytes (m : HostingMetadata) : list Z :=
  to_le_bytes 8 (last_access_ms m) ++ [access_type m] ++ to_le_bytes 8 (size_bytes m) ++ code_hash m
    ++ [if local_client_access m then 1 else 0].

Definition from_bytes (bytes : list Z) : option HostingMetadata :=
  if (length bytes <? 49)%nat then None
  else Some (mkMetadata (from_le_bytes (take 8 bytes))
               (nth 8 bytes 0)
               (from_le_bytes (take 8 (drop 9 bytes)))
               (take 32 (drop 17 bytes))
               (negb (default 0 (bytes !! 49%nat) =? 0))).

(** ** Round trip *)

Definition is_byte (z : Z) : Prop := 0 <= z < 256.

Record metadata_ok (m : HostingMetadata) : Prop := {
  ok_last_access : is_u64 (last_access_ms m);
  ok_access_type : is_byte (access_type m);
  ok_size : is_u64 (size_bytes m);
  ok_code_hash : length (code_hash m) = 32%nat;
}.

Lemma to_le_bytes_length n z : length (to_le_bytes n z) = n.
Proof. revert z. induction n as [|n IH]; intros z; simpl; [done|]. by rewrite IH. Qed.

Lemma le_roundtrip n z : 0 <= z < 256 ^ Z.of_nat n -> from_le_bytes (to_le_bytes n z) = z.
Proof.
  revert z. induction n as [|n IH]; intros z Hz; simpl.
  - change (256 ^ Z.of_nat 0) with 1 in Hz. lia.
  - rewrite Nat2Z.inj_succ, Z.pow_succ_r in Hz by lia. pose proof (Z.div_mod z 256 ltac:(lia)).
    rewrite IH; [lia|]. split; [apply Z.div_pos; lia|apply Z.div_lt_upper_bound; lia].
Qed.

Lemma u64_roundtrip z : is_u64 z -> from_le_bytes (to_le_bytes 8 z) = z.
Proof. intros Hz. apply le_roundtrip. change (256 ^ Z.of_nat 8) with (2 ^ 64). int_lia. Qed.

(** The fields found at their offsets, whatever follows the code hash. *)
Lemma from_bytes_fields a t s c tl :
  is_u64 a -> is_u64 s -> length c = 32%nat ->
  from_bytes (to_le_bytes 8 a ++ [t] ++ to_le_bytes 8 s ++ c ++ tl) =
  Some (mkMetadata a t s c (negb (default 0 (tl !! 0%nat) =? 0))).
Proof.
  intros Ha Hs Hc. rewrite <- (u64_roundtrip a Ha) at 2. rewrite <- (u64_roundtrip s Hs) at 2.
  pose proof (to_le_bytes_length 8 a) as La. pose proof (to_le_bytes_length 8 s) as Ls.
  set (la := to_le_bytes 8 a) in *. set (ls := to_le_bytes 8 s) in *. clearbody la ls.
  unfold from_bytes. rewrite !length_app, La, Ls, Hc.
  replace (8 + (length [t] + (8 + (32 + length tl))) <? 49)%nat with false by (symmetry; apply Nat.ltb_ge; simpl; lia).
  rewrite take_app_length' by done.
  rewrite (app_nth2 la), (drop_app_ge la _ 9), (drop_app_ge la _ 17), (lookup_app_r la), La by lia.
  cbn [Nat.sub app nth drop lookup list_lookup].
  rewrite drop_0, take_app_length', (drop_app_ge ls _ 8), Ls by lia. rewrite (lookup_app_r ls), Ls by lia.
  cbn [Nat.sub]. rewrite drop_0, take_app_length', (lookup_app_r c), Hc by lia. done.
Qed.

(** C28: metadata survives the encoding, and a row written before the local-access flag
    existed, 49 bytes without the last one, reads back with the flag unset.  The rows
    have 50 bytes, and anything shorter than 49 is refused. *)
Theorem metadata_roundtrip m :
  metadata_ok m ->
  from_bytes (to_bytes m) = Some m /\ length (to_bytes m) = 50%nat /\
  from_bytes (take 49 (to_bytes m)) =
    Some (mkMetadata (last_access_ms m) (access_type m) (size_bytes m) (code_hash m) false) /\
  forall n, (n < 49)%nat -> from_bytes (take n (to_bytes m)) = None.
Proof.
  intros [Ha Ht Hs Hc]. destruct m as [a t s c l]. cbn [last_access_ms access_type size_bytes code_hash local_client_access] in *.
  assert (Hlen : length (to_bytes (mkMetadata a t s c l)) = 50%nat).
  { unfold to_bytes. cbn [last_access_ms access_type size_bytes code_hash local_client_access].
    rewrite !length_app, !to_le_bytes_length, Hc. done. }
  pose proof (fun tl => from_bytes_fields a t s c tl Ha Hs Hc) as Hany.
  split_and!.
  - unfold to_bytes. cbn [last_access_ms access_type size_bytes code_hash local_client_access]. rewrite Hany. by destruct l.
  - done.
  - unfold to_bytes. cbn [last_access_ms access_type size_bytes code_hash local_client_access].
    rewrite !app_assoc, take_app_length' by (rewrite !length_app, !to_le_bytes_length, Hc; done).
    rewrite <- !app_assoc, <- (app_nil_r c), Hany. by rewrite app_nil_r.
  - intros n Hn. unfold from_bytes. rewrite length_take, Hlen. by rewrite (proj2 (Nat.ltb_lt _ _)) by lia.
Qed.

Lemma metadata_roundtrip_witness :
  let m := mkMetadata 1700000000000 2 4096 (replicate 32 7) true in from_bytes (to_bytes m) = Some m.
Proof.
  apply (metadata_roundtrip (mkMetadata 1700000000000 2 4096 (replicate 32 7) true)). by split.
Defined.

(** ** Tables *)

Section tables.
Context {I : Type} `{eqI : EqDecision I, cntI : !Countable I}.

Record Storage := mkStorage {
  states : gmap I Z;
  metadata : gmap I HostingMetadata;
  failing : bool;
}.

Definition store_hosting_metadata (id : I) (m : HostingMetadata) (s : Storage) : Storage :=
  if failing s then s else mkStorage (states s) (<[id := m]> (metadata s)) (failing s).

Definition remove_hosting_metadata (id : I) (s : Storage) : Storage :=
  if failing s then s else mkStorage (states s) (delete id (metadata s)) (failing s).

Definition get_hosting_metadata (id : I) (s : Storage) : option (option HostingMetadata) :=
  if failing s then None else Some (metadata s !! id).

Definition load_all_hosting_metadata (s : Storage) : option (list (I * HostingMetadata)) :=
  if failing s then None else Some (map_to_list (metadata s)).

Definition get_state_size (id : I) (s : Storage) : option (option Z) :=
  if failing s then None else Some (states s !! id).

(** [store] and [remove] of the state storage: one transaction over both tables. *)
Definition store_state (now_ms : Z) (id : I) (size : Z) (code : list Z) (s : Storage) : option Storage :=
  if failing s then None
  else
    let existing_local := match metadata s !! id with Some m => local_client_access m | None => false end in
    Some (mkStorage (<[id := size]> (states s)) (<[id := mkMetadata now_ms 1 size code existing_local]> (metadata s))
            (failing s)).

Definition remove_state (id : I) (s : Storage) : option Storage :=
  if failing s then None else Some (mkStorage (delete id (states s)) (delete id (metadata s)) (failing s)).

Definition iter_all_state_keys (s : Storage) : option (list I) :=
  if failing s then None else Some (map fst (map_to_list (states s))).

End tables.

End HostingStore.
