(* ===== verification/HostingManager.v ===== *)
(** * The hosting manager

    Models [src/crates/core/src/ring/hosting.rs]: which contracts a node hosts, the
    leases of its own subscriptions, the local clients and downstream peers that depend
    on a contract, the retry queue of reclamations, the repair of contracts in use
    without state, the disk budget, and renewal.  It composes the hosting cache
    ([HostingCache.v]), the disk tracker ([DiskUsage.v]), the metadata tables
    ([HostingStore.v]), the demand estimate ([Demand.v]) and the retry backoff
    ([Backoff.v]).

    [ContractKey], [ContractInstanceId], [ClientId] and [PeerKey] are types of other
    crates or opaque identifiers: they are parameters, with the accessors the code
    uses.  Clock readings and jitter are arguments.  Where the iteration order of a
    concurrent map decides a result it is a parameter, as [active_order]; where the
    code sorts, it is not.  Each method is one atomic step: the locks are never held
    across methods. *)

From S2P Require Import Prelude Ordering F64 F64Round Location Demand Backoff HostingCache DiskUsage HostingStore.

Module HostingManager.

Module HC := HostingCache.
Module DU := DiskUsage.
Module HS := HostingStore.
Module L := Location.
Module D := Demand.
Module B := Backoff.

#[local] Open Scope Z_scope.

Abbreviation Instant := Z (only parsing).
Abbreviation Duration := Z (only parsing).

Definition SUBSCRIPTION_RENEWAL_INTERVAL : Duration := from_secs 120.
Definition LEASE_RENEWAL_MULTIPLIER : Z := 4.
Definition SUBSCRIPTION_LEASE_DURATION : Duration := from_secs (120 * LEASE_RENEWAL_MULTIPLIER).
Definition INITIAL_SUBSCRIPTION_BACKOFF : Duration := from_secs 15.
Definition MAX_SUBSCRIPTION_BACKOFF : Duration := from_secs (480 / 4).
Definition MAX_SUBSCRIPTION_BACKOFF_ENTRIES : Z := 4096.
Definition MAX_DOWNSTREAM_SUBSCRIBERS_PER_CONTRACT : nat := 512.
Definition MAX_PHANTOM_REPAIR_ATTEMPTS : Z := 3.
Definition OPERATION_TTL : Duration := from_secs 60.
Definition PHANTOM_REPAIR_COOLDOWN : Duration := OPERATION_TTL.
Definition PHANTOM_ABSOLUTE_MAX_AGE : Duration := from_secs (480 * 4).
Definition DEFAULT_HOSTING_DISK_PCT : f64 := L.half.

Record PhantomRepairEntry := mkPhantom { attempts : Z; last_attempt : Instant; first_seen : Instant }.

Inductive AddSubscriberOutcome := NewAdd | Renewal | Rejected.

Definition was_accepted (o : AddSubscriberOutcome) : bool :=
  match o with NewAdd | Renewal => true | Rejected => false end.

Record SubscriptionLease := mkLease {
  subscribed_since : Instant;
  expires_at : Instant;
  last_updated : option Instant;
}.

Section manager.
Context {K I C P R : Type}.
Context `{eqK : EqDecision K, cntK : !Countable K, eqI : EqDecision I, cntI : !Countable I}.
Context `{eqC : EqDecision C, cntC : !Countable C, eqP : EqDecision P, cntP : !Countable P}.

(** [ContractKey] and [ContractInstanceId]. *)
Variable key_bytes : K -> list Byte.byte.
Variable key_id : K -> I.
Variable key_code : K -> list Z.
Variable id_bytes : I -> list Byte.byte.
Variable from_id_and_code : I -> list Z -> K.

(** The platform's earliest instant, the regression and the exponential. *)
Variable instant_min : Instant.
Variable reg : D.IsotonicRegression R.
Variable exp : f64 -> f64.

(** Iteration orders. *)
Variable active_order : gmap K SubscriptionLease -> list K.
Variable downstream_order : gmap K (gmap P Instant) -> list K.
Variable cache_order : gmap K HC.HostedContract -> list K.
Variable backoff_order : gmap K B.BackoffEntry -> list (K * B.BackoffEntry).

Inductive PhantomRepair := Fetch (k : K) | Drop (k : K).

Record EvictedInUseTeardown := mkTeardown {
  torn_key : K; downstream_peers : list P; local_client_count : nat }.

Record HostingManager := mkManager {
  active_subscriptions : gmap K SubscriptionLease;
  client_subscriptions : gmap I (gset C);
  hosting_cache : HC.HostingCache (K:=K);
  demand_estimator : D.ProximityPrior (R:=R);
  own_location : option L.Location;
  local_get_serves : Z;
  local_get_forwards : Z;
  downstream_subscribers : gmap K (gmap P Instant);
  pending_subscription_requests : gset K;
  subscription_backoff : B.TrackedBackoff (K:=K);
  storage : option (HS.Storage (I:=I));
  state_generation : gmap K Z;
  pending_reclamation : gmap K Z;
  phantom_repair : gmap K PhantomRepairEntry;
  disk_tracker : option (DU.DiskUsageTracker K);
  ram_budget_bytes : Z;
  disk_pct : f64;
  max_hosting_disk_bytes : Z;
  disk_budget_bytes : Z;
}.

(** Functional updates, one for each field an operation assigns. *)
Definition with_active (v : gmap K SubscriptionLease) (m : HostingManager) : HostingManager :=
  mkManager v (client_subscriptions m) (hosting_cache m) (demand_estimator m) (own_location m)
    (local_get_serves m) (local_get_forwards m) (downstream_subscribers m) (pending_subscription_requests m)
    (subscription_backoff m) (storage m) (state_generation m) (pending_reclamation m) (phantom_repair m)
    (disk_tracker m) (ram_budget_bytes m) (disk_pct m) (max_hosting_disk_bytes m) (disk_budget_bytes m).
Definition with_clients (v : gmap I (gset C)) (m : HostingManager) : HostingManager :=
  mkManager (active_subscriptions m) v (hosting_cache m) (demand_estimator m) (own_location m)
    (local_get_serves m) (local_get_forwards m) (downstream_subscribers m) (pending_subscription_requests m)
    (subscription_backoff m) (storage m) (state_generation m) (pending_reclamation m) (phantom_repair m)
    (disk_tracker m) (ram_budget_bytes m) (disk_pct m) (max_hosting_disk_bytes m) (disk_budget_bytes m).
Definition with_cache (v : HC.HostingCache (K:=K)) (m : HostingManager) : HostingManager :=
  mkManager (active_subscriptions m) (client_subscriptions m) v (demand_estimator m) (own_location m)
    (local_get_serves m) (local_get_forwards m) (downstream_subscribers m) (pending_subscription_requests m)
    (subscription_backoff m) (storage m) (state_generation m) (pending_reclamation m) (phantom_repair m)
    (disk_tracker m) (ram_budget_bytes m) (disk_pct m) (max_hosting_disk_bytes m) (disk_budget_bytes m).
Definition with_estimator (v : D.ProximityPrior (R:=R)) (m : HostingManager) : HostingManager :=
  mkManager (active_subscriptions m) (client_subscriptions m) (hosting_cache m) v (own_location m)
    (local_get_serves m) (local_get_forwards m) (downstream_subscribers m) (pending_subscription_requests m)
    (subscription_backoff m) (storage m) (state_generation m) (pending_reclamation m) (phantom_repair m)
    (disk_tracker m) (ram_budget_bytes m) (disk_pct m) (max_hosting_disk_bytes m) (disk_budget_bytes m).
Definition with_location (v : option L.Location) (m : HostingManager) : HostingManager :=
  mkManager (active_subscriptions m) (client_subscriptions m) (hosting_cache m) (demand_estimator m) v
    (local_get_serves m) (local_get_forwards m) (downstream_subscribers m) (pending_subscription_requests m)
    (subscription_backoff m) (storage m) (state_generation m) (pending_reclamation m) (phantom_repair m)
    (disk_tracker m) (ram_budget_bytes m) (disk_pct m) (max_hosting_disk_bytes m) (disk_budget_bytes m).
Definition with_serves (v : Z) (m : HostingManager) : HostingManager :=
  mkManager (active_subscriptions m) (client_subscriptions m) (hosting_cache m) (demand_estimator m)
    (own_location m) v (local_get_forwards m) (downstream_subscribers m) (pending_subscription_requests m)
    (subscription_backoff m) (storage m) (state_generation m) (pending_reclamation m) (phantom_repair m)
    (disk_tracker m) (ram_budget_bytes m) (disk_pct m) (max_hosting_disk_bytes m) (disk_budget_bytes m).
Definition with_forwards (v : Z) (m : HostingManager) : HostingManager :=
  mkManager (active_subscriptions m) (client_subscriptions m) (hosting_cache m) (demand_estimator m)
    (own_location m) (local_get_serves m) v (downstream_subscribers m) (pending_subscription_requests m)
    (subscription_backoff m) (storage m) (state_generation m) (pending_reclamation m) (phantom_repair m)
    (disk_tracker m) (ram_budget_bytes m) (disk_pct m) (max_hosting_disk_bytes m) (disk_budget_bytes m).
Definition with_downstream (v : gmap K (gmap P Instant)) (m : HostingManager) : HostingManager :=
  mkManager (active_subscriptions m) (client_subscriptions m) (hosting_cache m) (demand_estimator m)
    (own_location m) (local_get_serves m) (local_get_forwards m) v (pending_subscription_requests m)
    (subscription_backoff m) (storage m) (state_generation m) (pending_reclamation m) (phantom_repair m)
    (disk_tracker m) (ram_budget_bytes m) (disk_pct m) (max_hosting_disk_bytes m) (disk_budget_bytes m).
Definition with_requests (v : gset K) (m : HostingManager) : HostingManager :=
  mkManager (active_subscriptions m) (client_subscriptions m) (hosting_cache m) (demand_estimator m)
    (own_location m) (local_get_serves m) (local_get_forwards m) (downstream_subscribers m) v
    (subscription_backoff m) (storage m) (state_generation m) (pending_reclamation m) (phantom_repair m)
    (disk_tracker m) (ram_budget_bytes m) (disk_pct m) (max_hosting_disk_bytes m) (disk_budget_bytes m).
Definition with_backoff (v : B.TrackedBackoff (K:=K)) (m : HostingManager) : HostingManager :=
  mkManager (active_subscriptions m) (client_subscriptions m) (hosting_cache m) (demand_estimator m)
    (own_location m) (local_get_serves m) (local_get_forwards m) (downstream_subscribers m)
    (pending_subscription_requests m) v (storage m) (state_generation m) (pending_reclamation m)
    (phantom_repair m) (disk_tracker m) (ram_budget_bytes m) (disk_pct m) (max_hosting_disk_bytes m)
    (disk_budget_bytes m).
Definition with_store (v : option (HS.Storage (I:=I))) (m : HostingManager) : HostingManager :=
  mkManager (active_subscriptions m) (client_subscriptions m) (hosting_cache m) (demand_estimator m)
    (own_location m) (local_get_serves m) (local_get_forwards m) (downstream_subscribers m)
    (pending_subscription_requests m) (subscription_backoff m) v (state_generation m) (pending_reclamation
    m) (phantom_repair m) (disk_tracker m) (ram_budget_bytes m) (disk_pct m) (max_hosting_disk_bytes m)
    (disk_budget_bytes m).
Definition with_generations (v : gmap K Z) (m : HostingManager) : HostingManager :=
  mkManager (active_subscriptions m) (client_subscriptions m) (hosting_cache m) (demand_estimator m)
    (own_location m) (local_get_serves m) (local_get_forwards m) (downstream_subscribers m)
    (pending_subscription_requests m) (subscription_backoff m) (storage m) v (pending_reclamation m)
    (phantom_repair m) (disk_tracker m) (ram_budget_bytes m) (disk_pct m) (max_hosting_disk_bytes m)
    (disk_budget_bytes m).
Definition with_pending (v : gmap K Z) (m : HostingManager) : HostingManager :=
  mkManager (active_subscriptions m) (client_subscriptions m) (hosting_cache m) (demand_estimator m)
    (own_location m) (local_get_serves m) (local_get_forwards m) (downstream_subscribers m)
    (pending_subscription_requests m) (subscription_backoff m) (storage m) (state_generation m) v
    (phantom_repair m) (disk_tracker m) (ram_budget_bytes m) (disk_pct m) (max_hosting_disk_bytes m)
    (disk_budget_bytes m).
Definition with_phantoms (v : gmap K PhantomRepairEntry) (m : HostingManager) : HostingManager :=
  mkManager (active_subscriptions m) (client_subscriptions m) (hosting_cache m) (demand_estimator m)
    (own_location m) (local_get_serves m) (local_get_forwards m) (downstream_subscribers m)
    (pending_subscription_requests m) (subscription_backoff m) (storage m) (state_generation m)
    (pending_reclamation m) v (disk_tracker m) (ram_budget_bytes m) (disk_pct m) (max_hosting_disk_bytes m)
    (disk_budget_bytes m).
Definition with_tracker (v : option (DU.DiskUsageTracker K)) (m : HostingManager) : HostingManager :=
  mkManager (active_subscriptions m) (client_subscriptions m) (hosting_cache m) (demand_estimator m)
    (own_location m) (local_get_serves m) (local_get_forwards m) (downstream_subscribers m)
    (pending_subscription_requests m) (subscription_backoff m) (storage m) (state_generation m)
    (pending_reclamation m) (phantom_repair m) v (ram_budget_bytes m) (disk_pct m) (max_hosting_disk_bytes
    m) (disk_budget_bytes m).
Definition with_disk_budget (v : Z) (m : HostingManager) : HostingManager :=
  mkManager (active_subscriptions m) (client_subscriptions m) (hosting_cache m) (demand_estimator m)
    (own_location m) (local_get_serves m) (local_get_forwards m) (downstream_subscribers m)
    (pending_subscription_requests m) (subscription_backoff m) (storage m) (state_generation m)
    (pending_reclamation m) (phantom_repair m) (disk_tracker m) (ram_budget_bytes m) (disk_pct m)
    (max_hosting_disk_bytes m) v.

Definition with_time_source (budget : Z) : HostingManager := {|
  active_subscriptions := ∅; client_subscriptions := ∅; hosting_cache := HC.new budget;
  demand_estimator := D.new reg; own_location := None; local_get_serves := 0; local_get_forwards := 0;
  downstream_subscribers := ∅; pending_subscription_requests := ∅;
  subscription_backoff :=
    B.new (B.mkConfig INITIAL_SUBSCRIPTION_BACKOFF MAX_SUBSCRIPTION_BACKOFF) MAX_SUBSCRIPTION_BACKOFF_ENTRIES;
  storage := None; state_generation := ∅; pending_reclamation := ∅; phantom_repair := ∅; disk_tracker := None;
  ram_budget_bytes := budget; disk_pct := DEFAULT_HOSTING_DISK_PCT;
  max_hosting_disk_bytes := HC.DEFAULT_MAX_HOSTING_DISK_BYTES; disk_budget_bytes := u64_max;
|}.

(** ** Write generations *)

Definition generation_of (k : K) (m : HostingManager) : Z := default 0 (state_generation m !! k).

Definition bump_state_generation (k : K) (m : HostingManager) : HostingManager * Z :=
  let next := match state_generation m !! k with Some g => sat_add64 g 1 | None => 1 end in
  (with_generations (<[k := next]> (state_generation m)) m, next).

Definition forget_state_generation (k : K) (m : HostingManager) : HostingManager :=
  with_generations (delete k (state_generation m)) m.

Definition refresh_cache_generation (k : K) (new_gen : Z) (m : HostingManager) : HostingManager :=
  with_cache (HC.refresh_entry_generation k new_gen (hosting_cache m)) m.

(** ** Storage and disk budget *)

Definition set_storage (s : HS.Storage (I:=I)) (m : HostingManager) : HostingManager := with_store (Some s) m.
Definition clear_storage (m : HostingManager) : HostingManager := with_store None m.

Definition configure_disk_tracker (m : HostingManager) : HostingManager := with_tracker (Some DU.new) m.

Definition configure_disk_budget (pct : f64) (max_hosting_disk : Z) (m : HostingManager) : HostingManager :=
  mkManager (active_subscriptions m) (client_subscriptions m) (hosting_cache m) (demand_estimator m)
    (own_location m) (local_get_serves m) (local_get_forwards m) (downstream_subscribers m)
    (pending_subscription_requests m) (subscription_backoff m) (storage m) (state_generation m)
    (pending_reclamation m) (phantom_repair m) (disk_tracker m) (ram_budget_bytes m) pct max_hosting_disk
    (disk_budget_bytes m).

(** The tracker, once it is seeded. *)
Definition seeded_tracker (m : HostingManager) : option (DU.DiskUsageTracker K) :=
  match disk_tracker m with
  | Some t => if DU.is_seeded t then Some t else None
  | None => None
  end.

(** [available] is the free space on the mount. *)
Definition recompute_effective_budget (available : Z) (m : HostingManager) : HostingManager * option Z :=
  match seeded_tracker m with
  | None => (m, None)
  | Some t =>
      let disk_budget := HC.disk_budget_for_clamped (DU.total_bytes t) available (disk_pct m)
                           HC.MIN_DEFAULT_HOSTING_BUDGET_BYTES (max_hosting_disk_bytes m) in
      let m := with_disk_budget disk_budget m in
      let effective := Z.min (ram_budget_bytes m) disk_budget in
      (with_cache (HC.set_budget_bytes effective (hosting_cache m)) m, Some effective)
  end.

(** [None] admits. *)
Definition admit_state_write (k : K) (new_size : Z) (m : HostingManager) : option DU.DiskBudgetExceeded :=
  t ← seeded_tracker m; DU.admit_state_write k new_size (disk_budget_bytes m) t.
Definition admit_state_update (k : K) (new_size : Z) (m : HostingManager) : option DU.DiskBudgetExceeded :=
  t ← seeded_tracker m; DU.admit_state_update k new_size (disk_budget_bytes m) t.
Definition admit_wasm_write (blob_len : Z) (m : HostingManager) : option DU.DiskBudgetExceeded :=
  t ← seeded_tracker m; DU.admit_wasm_write blob_len (disk_budget_bytes m) t.

Definition on_tracker (f : DU.DiskUsageTracker K -> DU.DiskUsageTracker K) (m : HostingManager) : HostingManager :=
  match disk_tracker m with Some t => with_tracker (Some (f t)) m | None => m end.

(** [wasm] and [cache] are what the directory walks of the seed measure. *)
Definition seed_disk_tracker_if_absent (wasm cache : Z) (m : HostingManager) : HostingManager :=
  match disk_tracker m with
  | None => m
  | Some t =>
      if DU.is_seeded t then m
      else match storage m with
           | None => m
           | Some s =>
               match HS.load_all_hosting_metadata s with
               | None => m
               | Some entries =>
                   let rows := map (fun '(id, md) => (from_id_and_code id (HS.code_hash md), HS.size_bytes md)) entries in
                   on_tracker (DU.seed rows wasm cache) m
               end
           end
  end.

Definition record_state_write (k : K) (new_size : Z) : HostingManager -> HostingManager :=
  on_tracker (DU.record_state_write k new_size).
Definition record_state_removed (k : K) : HostingManager -> HostingManager := on_tracker (DU.record_state_removed k).
Definition record_wasm_write (blob_len : Z) : HostingManager -> HostingManager :=
  on_tracker (DU.record_wasm_write blob_len).
Definition record_wasm_removed (blob_len : Z) : HostingManager -> HostingManager :=
  on_tracker (DU.record_wasm_removed blob_len).
Definition refresh_disk_usage (wasm cache : Z) : HostingManager -> HostingManager :=
  on_tracker (fun t => DU.refresh_compile_cache cache (DU.refresh_wasm wasm t)).

(** ** Retry queue of reclamations *)

Definition pending_reclamation_add (k : K) (expected_generation : Z) (m : HostingManager) : HostingManager :=
  with_pending (<[k := expected_generation]> (pending_reclamation m)) m.
Definition pending_reclamation_remove (k : K) (m : HostingManager) : HostingManager :=
  with_pending (delete k (pending_reclamation m)) m.
Definition pending_reclamation_snapshot (m : HostingManager) : list (K * Z) := map_to_list (pending_reclamation m).

(** ** Own subscriptions *)

Definition subscribe (now : Instant) (k : K) (m : HostingManager) : HostingManager * (bool * Instant) :=
  let expires_at := now + SUBSCRIPTION_LEASE_DURATION in
  match active_subscriptions m !! k with
  | Some e =>
      (with_active (<[k := mkLease (subscribed_since e) expires_at (last_updated e)]> (active_subscriptions m)) m,
       (false, expires_at))
  | None =>
      (with_active (<[k := mkLease now expires_at None]> (active_subscriptions m)) m, (true, expires_at))
  end.

Definition renew_subscription (now : Instant) (k : K) (m : HostingManager) : HostingManager * bool :=
  match active_subscriptions m !! k with
  | Some e =>
      (with_active (<[k := mkLease (subscribed_since e) (now + SUBSCRIPTION_LEASE_DURATION) (last_updated e)]>
                      (active_subscriptions m)) m, true)
  | None => (m, false)
  end.

Definition unsubscribe (k : K) (m : HostingManager) : HostingManager :=
  with_active (delete k (active_subscriptions m)) m.

Definition is_subscribed (now : Instant) (k : K) (m : HostingManager) : bool :=
  match active_subscriptions m !! k with Some lease => now <? expires_at lease | None => false end.

Definition by_id_bytes (a b : K) : comparison := bytes_cmp (id_bytes (key_id a)) (id_bytes (key_id b)).

Definition get_subscribed_contracts (now : Instant) (m : HostingManager) : list K :=
  sort_by by_id_bytes (List.filter (fun k => is_subscribed now k m) (active_order (active_subscriptions m))).

Fixpoint subscribed_keys_loop (now : Instant) (wanted : gset I) (max_matches : nat) (m : HostingManager)
    (keys out : list K) : list K :=
  match keys with
  | [] => out
  | k :: keys =>
      if (max_matches <=? length out)%nat then out
      else subscribed_keys_loop now wanted max_matches m keys
             (if is_subscribed now k m && bool_decide (key_id k ∈ wanted) then out ++ [k] else out)
  end.

Definition subscribed_keys_in (now : Instant) (wanted : gset I) (scan_cap max_matches : nat) (m : HostingManager)
    : list K :=
  subscribed_keys_loop now wanted max_matches m (take scan_cap (active_order (active_subscriptions m))) [].

Definition record_contract_update (now : Instant) (k : K) (m : HostingManager) : HostingManager :=
  match active_subscriptions m !! k with
  | Some e => with_active (<[k := mkLease (subscribed_since e) (expires_at e) (Some now)]> (active_subscriptions m)) m
  | None => m
  end.

Definition force_subscription_renewal (k : K) (m : HostingManager) : HostingManager :=
  with_active (delete k (active_subscriptions m)) m.

Definition expire_stale_subscriptions (now : Instant) (m : HostingManager) : HostingManager * list K :=
  (with_active (filter (fun x => now < expires_at x.2) (active_subscriptions m)) m,
   List.filter (fun k => match active_subscriptions m !! k with Some e => expires_at e <=? now | None => false end)
     (active_order (active_subscriptions m))).

Definition active_subscription_count (now : Instant) (m : HostingManager) : nat :=
  size (filter (fun x : K * SubscriptionLease => now < expires_at x.2) (active_subscriptions m)).

(** ** Demand: local clients and downstream peers *)

Definition has_client_subscriptions (id : I) (m : HostingManager) : bool :=
  match client_subscriptions m !! id with Some clients => negb (bool_decide (clients = ∅)) | None => false end.

Definition has_downstream_subscribers (k : K) (m : HostingManager) : bool :=
  match downstream_subscribers m !! k with Some peers => negb (bool_decide (peers = ∅)) | None => false end.

Definition contract_in_use (k : K) (m : HostingManager) : bool :=
  has_client_subscriptions (key_id k) m || has_downstream_subscribers k m.

Definition local_and_downstream_counts (m : HostingManager) (k : K) : nat * nat :=
  (match client_subscriptions m !! key_id k with Some c => size c | None => 0%nat end,
   match downstream_subscribers m !! k with Some peers => size peers | None => 0%nat end).

Definition maybe_record_abandonment (now : Instant) (k : K) (m : HostingManager) : HostingManager :=
  if negb (contract_in_use k m) then with_cache (HC.record_abandonment now k (hosting_cache m)) m else m.

(** The answer: whether this is the first client. *)
Definition add_client_subscription (id : I) (client : C) (m : HostingManager) : HostingManager * bool :=
  let entry := default ∅ (client_subscriptions m !! id) in
  (with_clients (<[id := {[client]} ∪ entry]> (client_subscriptions m)) m, bool_decide (entry = ∅)).

(** The answer: whether this was the last client. *)
Definition remove_client_subscription (id : I) (client : C) (m : HostingManager) : HostingManager * bool :=
  match client_subscriptions m !! id with
  | Some clients =>
      let clients := clients ∖ {[client]} in
      if bool_decide (clients = ∅) then (with_clients (delete id (client_subscriptions m)) m, true)
      else (with_clients (<[id := clients]> (client_subscriptions m)) m, false)
  | None => (m, false)
  end.

Fixpoint remove_client_loop (now : Instant) (client : C) (ids : list I) (affected : list K) (m : HostingManager)
    : HostingManager * list K :=
  match ids with
  | [] => (m, affected)
  | id :: ids =>
      let m := (remove_client_subscription id client m).1 in
      match find (fun k => bool_decide (key_id k = id)) (active_order (active_subscriptions m)) with
      | Some k => remove_client_loop now client ids (affected ++ [k]) (maybe_record_abandonment now k m)
      | None => remove_client_loop now client ids affected m
      end
  end.

Definition ids_with_client (client : C) (m : HostingManager) : list I :=
  sort_by (fun a b => bytes_cmp (id_bytes a) (id_bytes b))
    (map fst (List.filter (fun x : I * gset C => bool_decide (client ∈ x.2)) (map_to_list (client_subscriptions m)))).

Definition remove_client_from_all_subscriptions (now : Instant) (client : C) (m : HostingManager)
    : HostingManager * list K :=
  remove_client_loop now client (ids_with_client client m) [] m.

Definition add_downstream_subscriber (now : Instant) (k : K) (peer : P) (m : HostingManager)
    : HostingManager * AddSubscriberOutcome :=
  let entry := default ∅ (downstream_subscribers m !! k) in
  let is_new := negb (bool_decide (is_Some (entry !! peer))) in
  if is_new && (MAX_DOWNSTREAM_SUBSCRIBERS_PER_CONTRACT <=? size entry)%nat then
    (with_downstream (<[k := entry]> (downstream_subscribers m)) m, Rejected)
  else
    (with_downstream (<[k := <[peer := now]> entry]> (downstream_subscribers m)) m,
     if is_new then NewAdd else Renewal).

Definition renew_downstream_subscriber (now : Instant) (k : K) (peer : P) (m : HostingManager)
    : HostingManager * bool :=
  match downstream_subscribers m !! k with
  | Some peers =>
      if bool_decide (is_Some (peers !! peer)) then
        (with_downstream (<[k := <[peer := now]> peers]> (downstream_subscribers m)) m, true)
      else (m, false)
  | None => (m, false)
  end.

(** [peers], written back and dropped when it is empty. *)
Definition put_peers (k : K) (peers : gmap P Instant) (m : HostingManager) : HostingManager :=
  with_downstream (if bool_decide (peers = ∅) then delete k (downstream_subscribers m)
                   else <[k := peers]> (downstream_subscribers m)) m.

Definition remove_downstream_subscriber (now : Instant) (k : K) (peer : P) (m : HostingManager)
    : HostingManager * bool :=
  match downstream_subscribers m !! k with
  | Some peers =>
      if bool_decide (is_Some (peers !! peer)) then
        (maybe_record_abandonment now k (put_peers k (delete peer peers) m), true)
      else (m, false)
  | None => (m, false)
  end.

Definition lease_active (now last_renewed : Instant) : bool :=
  HC.saturating_duration_since now last_renewed <? SUBSCRIPTION_LEASE_DURATION.

(** The peers whose lease is active. *)
Definition live_peers (now : Instant) (peers : gmap P Instant) : gmap P Instant :=
  filter (fun x => lease_active now x.2 = true) peers.

Definition downstream_subscriber_peers (now : Instant) (k : K) (m : HostingManager) : list P :=
  match downstream_subscribers m !! k with
  | Some peers => map fst (map_to_list (live_peers now peers))
  | None => []
  end.

Definition add_benefit (id : I) (weight : f64) (count : nat) (benefits : gmap I f64) : gmap I f64 :=
  if (0 <? count)%nat then
    <[id := f64_add (default f64_zero (benefits !! id)) (f64_mul weight (f64_of_Z (Z.of_nat count)))]> benefits
  else benefits.

Definition beneficiary_counts (now : Instant) (local_weight forwarded_weight : f64) (m : HostingManager)
    : gmap I f64 :=
  let benefits := foldl (fun b x => add_benefit x.1 local_weight (size x.2) b) ∅
                    (map_to_list (client_subscriptions m)) in
  foldl (fun b k => match downstream_subscribers m !! k with
                    | Some peers => add_benefit (key_id k) forwarded_weight (size (live_peers now peers)) b
                    | None => b
                    end) benefits (downstream_order (downstream_subscribers m)).

Definition teardown_evicted_in_use_contract (k : K) (m : HostingManager)
    : HostingManager * EvictedInUseTeardown :=
  let peers := default ∅ (downstream_subscribers m !! k) in
  let clients := default ∅ (client_subscriptions m !! key_id k) in
  let m := with_downstream (delete k (downstream_subscribers m)) m in
  let m := with_clients (delete (key_id k) (client_subscriptions m)) m in
  (unsubscribe k m, mkTeardown k (map fst (map_to_list peers)) (size clients)).

Definition expire_downstream_of (now : Instant) (k : K) (m : HostingManager) : HostingManager * option (K * nat) :=
  match downstream_subscribers m !! k with
  | Some peers =>
      let live := live_peers now peers in
      let expired := (size peers - size live)%nat in
      let out := if (0 <? expired)%nat then Some (k, expired) else None in
      let m := put_peers k live m in
      (if bool_decide (live = ∅) then maybe_record_abandonment now k m else m, out)
  | None => (m, None)
  end.

Fixpoint expire_downstream_loop (now : Instant) (keys : list K) (m : HostingManager) (counts : list (K * nat))
    : HostingManager * list (K * nat) :=
  match keys with
  | [] => (m, counts)
  | k :: keys =>
      let '(m, out) := expire_downstream_of now k m in
      expire_downstream_loop now keys m (match out with Some x => counts ++ [x] | None => counts end)
  end.

Definition expire_stale_downstream_subscribers (now : Instant) (m : HostingManager)
    : HostingManager * list (K * nat) :=
  expire_downstream_loop now (downstream_order (downstream_subscribers m)) m [].

Definition should_unsubscribe_upstream (k : K) (m : HostingManager) : bool :=
  if has_client_subscriptions (key_id k) m then false else negb (has_downstream_subscribers k m).

(** ** State presence and phantom repair *)

(** Without a store, or when it cannot answer, the state is taken to be present. *)
Definition contract_state_present (k : K) (m : HostingManager) : bool :=
  match storage m with
  | Some s => match HS.get_state_size (key_id k) s with Some size => bool_decide (is_Some size) | None => true end
  | None => true
  end.

Definition phantom_in_use_count (m : HostingManager) : nat :=
  length (List.filter (fun k => negb (contract_state_present k m)) (downstream_order (downstream_subscribers m))).

(** One contract of the reconciliation; [fetches] is the number launched so far. *)
Definition reconcile_phantom (now : Instant) (max_fetches : nat) (k : K) (fetches : nat) (m : HostingManager)
    : HostingManager * nat * option PhantomRepair :=
  if contract_state_present k m then (with_phantoms (delete k (phantom_repair m)) m, fetches, None)
  else if bool_decide (k ∈ pending_subscription_requests m) then (m, fetches, None)
  else
    match phantom_repair m !! k with
    | Some e =>
        if MAX_PHANTOM_REPAIR_ATTEMPTS <=? attempts e then
          if PHANTOM_ABSOLUTE_MAX_AGE <=? HC.saturating_duration_since now (first_seen e) then
            (with_phantoms (delete k (phantom_repair m)) m, fetches, Some (Drop k))
          else (m, fetches, None)
        else if HC.saturating_duration_since now (last_attempt e) <? PHANTOM_REPAIR_COOLDOWN then (m, fetches, None)
        else if (fetches <? max_fetches)%nat then
          (with_phantoms (<[k := mkPhantom (attempts e + 1) now (first_seen e)]> (phantom_repair m)) m, S fetches,
           Some (Fetch k))
        else (m, fetches, None)
    | None =>
        if (fetches <? max_fetches)%nat then
          (with_phantoms (<[k := mkPhantom 1 now now]> (phantom_repair m)) m, S fetches, Some (Fetch k))
        else (m, fetches, None)
    end.

Fixpoint reconcile_loop (now : Instant) (max_fetches : nat) (keys : list K) (fetches : nat)
    (actions : list PhantomRepair) (m : HostingManager) : HostingManager * list PhantomRepair :=
  match keys with
  | [] => (m, actions)
  | k :: keys =>
      let '(m, fetches, action) := reconcile_phantom now max_fetches k fetches m in
      reconcile_loop now max_fetches keys fetches (match action with Some a => actions ++ [a] | None => actions end) m
  end.

Definition reconcile_phantom_in_use (now : Instant) (max_fetches : nat) (m : HostingManager)
    : HostingManager * list PhantomRepair :=
  let keys := downstream_order (downstream_subscribers m) in
  let m := with_phantoms (filter (fun x => x.1 ∈ keys) (phantom_repair m)) m in
  reconcile_loop now max_fetches keys 0 [] m.

Definition drop_phantom_downstream (now : Instant) (k : K) (m : HostingManager) : HostingManager * nat :=
  let removed := match downstream_subscribers m !! k with Some peers => size peers | None => 0%nat end in
  let m := with_downstream (delete k (downstream_subscribers m)) m in
  let m := if (0 <? removed)%nat then maybe_record_abandonment now k m else m in
  (with_phantoms (delete k (phantom_repair m)) m, removed).

(** ** Access *)

Definition set_own_location (l : L.Location) (m : HostingManager) : HostingManager := with_location (Some l) m.
Definition record_local_get_serve (m : HostingManager) : HostingManager :=
  with_serves (local_get_serves m +w64 1) m.
Definition record_local_get_forward (m : HostingManager) : HostingManager :=
  with_forwards (local_get_forwards m +w64 1) m.

(** [None] is the panic of a location or distance outside its range. *)
Definition distance_and_demand (k : K) (m : HostingManager) : option (option f64 * f64) :=
  match own_location m with
  | None => Some (None, D.NEUTRAL_DEMAND)
  | Some loc =>
      key_loc ← L.from_contract_key (id_bytes (key_id k));
      d ← L.distance loc key_loc;
      let d := L.distance_value d in
      Some (Some d, D.predict reg exp d (demand_estimator m))
  end.

Definition train (distance rate : option f64) (m : HostingManager) : HostingManager :=
  match distance, rate with
  | Some d, Some r => with_estimator (D.observe reg d r (demand_estimator m)) m
  | _, _ => m
  end.

Fixpoint teardown_all (keys : list K) (m : HostingManager) (out : list EvictedInUseTeardown)
    : HostingManager * list EvictedInUseTeardown :=
  match keys with
  | [] => (m, out)
  | k :: keys => let '(m, t) := teardown_evicted_in_use_contract k m in teardown_all keys m (out ++ [t])
  end.

Definition access_code (a : HC.AccessType) : Z :=
  match a with HC.Get => 0 | HC.Put => 1 | HC.Subscribe => 2 end.

Definition on_storage (f : HS.Storage (I:=I) -> HS.Storage (I:=I)) (m : HostingManager) : HostingManager :=
  match storage m with Some s => with_store (Some (f s)) m | None => m end.

Definition remove_metadata (evicted : list (K * Z)) (s : HS.Storage (I:=I)) : HS.Storage (I:=I) :=
  foldl (fun s x => HS.remove_hosting_metadata (key_id x.1) s) s evicted.

(** [now_ms] is the wall clock.  The answer: the cache's result and what was torn down. *)
Definition record_contract_access (now now_ms : Z) (k : K) (size : Z) (a : HC.AccessType) (m : HostingManager)
    : option (HostingManager * HC.RecordAccessResult (K:=K) * list EvictedInUseTeardown) :=
  let current_generation := generation_of k m in
  '(distance, demand) ← distance_and_demand k m;
  let '(c, result) := HC.record_access_with_demand key_bytes now k size a current_generation demand
                        (local_and_downstream_counts m) (hosting_cache m) in
  let m := with_cache c m in
  let '(m, teardowns) := teardown_all (HC.evicted_in_use result) m [] in
  let m := train distance (HC.observed_read_rate result) m in
  let local := HC.has_local_client_access k (hosting_cache m) in
  let m := on_storage (fun s =>
             remove_metadata (HC.evicted result)
               (HS.store_hosting_metadata (key_id k)
                  (HS.mkMetadata now_ms (access_code a) size (key_code k) local) s)) m in
  Some (m, result, teardowns).

Definition is_hosting_contract (k : K) (m : HostingManager) : bool := HC.contains k (hosting_cache m).

Definition should_summarize_or_broadcast (k : K) (m : HostingManager) : bool :=
  (is_hosting_contract k m || contract_in_use k m) && contract_state_present k m.

Definition hosting_contract_size (k : K) (m : HostingManager) : Z :=
  match HC.contracts (hosting_cache m) !! k with Some c => HC.size_bytes c | None => 0 end.

Definition is_receiving_updates (now : Instant) (k : K) (m : HostingManager) : bool :=
  is_subscribed now k m || has_client_subscriptions (key_id k) m.

Definition mark_local_client_access (now : Instant) (k : K) (m : HostingManager) : HostingManager :=
  let already_set := HC.has_local_client_access k (hosting_cache m) in
  let m := with_cache (HC.mark_local_client_access now k (hosting_cache m)) m in
  if already_set then m
  else on_storage (fun s =>
         match HS.get_hosting_metadata (key_id k) s with
         | Some (Some md) =>
             HS.store_hosting_metadata (key_id k)
               (HS.mkMetadata (HS.last_access_ms md) (HS.access_type md) (HS.size_bytes md) (HS.code_hash md) true) s
         | _ => s
         end) m.

Definition has_recent_local_client_access (now : Instant) (k : K) (m : HostingManager) : bool :=
  HC.has_recent_local_client_access now k SUBSCRIPTION_LEASE_DURATION (hosting_cache m).

Definition touch_hosting (now : Instant) (k : K) (m : HostingManager) : option HostingManager :=
  '(distance, demand) ← distance_and_demand k m;
  let '(c, rate) := HC.touch_with_demand now k demand (hosting_cache m) in
  Some (train distance rate (with_cache c m)).

(** The answer: the reclaim list and what was torn down. *)
Definition sweep_expired_hosting_with_cost (now : Instant) (axes : list (HC.CostAxisPressure (I:=I)))
    (m : HostingManager) : HostingManager * list (K * Z) * list EvictedInUseTeardown :=
  let counts := local_and_downstream_counts m in
  let '(c, evicted) := HC.sweep_expired key_bytes now counts HC.AtCapacity (hosting_cache m) in
  let '(c, evicted) :=
    if bool_decide (axes = []) then (c, evicted)
    else let '(c, more) := HC.evict_cost_pressure key_bytes key_id now counts axes c in (c, evicted ++ more) in
  let m := with_cache c m in
  let '(m, teardowns) := teardown_all (map HC.key (List.filter HC.was_in_use evicted)) m [] in
  let expired := map (fun e : HC.EvictedContract (K:=K) => (HC.key e, HC.evicted_generation e)) evicted in
  (if bool_decide (expired = []) then m else on_storage (remove_metadata expired) m, expired, teardowns).

(** ** Subscription retries *)

Definition can_request_subscription (now : Instant) (k : K) (m : HostingManager) : bool :=
  if bool_decide (k ∈ pending_subscription_requests m) then false
  else negb (B.is_in_backoff now k (subscription_backoff m)).

Definition mark_subscription_pending (k : K) (m : HostingManager) : HostingManager * bool :=
  (with_requests ({[k]} ∪ pending_subscription_requests m) m,
   negb (bool_decide (k ∈ pending_subscription_requests m))).

(** [None] is the panic of a delay outside the representable durations. *)
Definition complete_subscription_request (now : Instant) (jitter_factor : f64) (k : K) (success : bool)
    (m : HostingManager) : option HostingManager :=
  let m := with_requests (pending_subscription_requests m ∖ {[k]}) m in
  if success then Some (with_backoff (B.record_success k (subscription_backoff m)) m)
  else b ← B.record_failure backoff_order now jitter_factor k (subscription_backoff m);
       Some (with_backoff b m).

(** ** Renewal *)

Definition hosted_keys (m : HostingManager) : list K := cache_order (HC.contracts (hosting_cache m)).

Definition renew_active (now : Instant) (m : HostingManager) : list K :=
  List.filter (fun k => match active_subscriptions m !! k with
                        | Some e => (expires_at e <=? now + SUBSCRIPTION_RENEWAL_INTERVAL) && (now <? expires_at e)
                                    && contract_in_use k m
                        | None => false
                        end) (active_order (active_subscriptions m)).

Definition has_active_lease (now : Instant) (id : I) (m : HostingManager) : bool :=
  existsb (fun k => bool_decide (key_id k = id) && is_subscribed now k m) (active_order (active_subscriptions m)).

Definition renew_client (now : Instant) (m : HostingManager) : list K :=
  omap (fun id => if has_active_lease now id m then None
                  else find (fun k => bool_decide (key_id k = id)) (hosted_keys m))
    (map fst (map_to_list (client_subscriptions m))).

Definition renew_local (now : Instant) (m : HostingManager) : list K :=
  List.filter (fun k => has_recent_local_client_access now k m && negb (is_subscribed now k m)) (hosted_keys m).

Definition contracts_needing_renewal (now : Instant) (m : HostingManager) : list K :=
  sort_by by_id_bytes
    (elements (list_to_set (renew_active now m ++ renew_client now m ++ renew_local now m) : gset K)).

(** ** Loading at startup *)

Definition access_of_code (c : Z) : HC.AccessType :=
  if c =? 1 then HC.Put else if c =? 2 then HC.Subscribe else HC.Get.

Definition load_row (now now_ms : Z) (row : I * HS.HostingMetadata) (m : HostingManager) : option HostingManager :=
  let '(id, md) := row in
  let k := from_id_and_code id (HS.code_hash md) in
  let age := from_millis (sat_sub now_ms (HS.last_access_ms md)) in
  demand ← distance_and_demand k m;
  Some (with_cache (HC.load_persisted_entry_with_demand instant_min now k (HS.size_bytes md)
                      (access_of_code (HS.access_type md)) age (HS.local_client_access md) demand.2
                      (hosting_cache m)) m).

(** A state without metadata.  The answer: the store, and whether the contract was migrated. *)
Definition migrate_row (now now_ms : Z) (code_hash_lookup : I -> option (list Z)) (id : I)
    (m : HostingManager) (s : HS.Storage (I:=I)) : option (HostingManager * HS.Storage (I:=I) * bool) :=
  match code_hash_lookup id with
  | Some code =>
      let k := from_id_and_code id code in
      let size := default 0 (default (Some 0) (HS.get_state_size (key_id k) s)) in
      demand ← distance_and_demand k m;
      Some (with_cache (HC.load_persisted_entry_with_demand instant_min now k size HC.Get 0 false demand.2
                          (hosting_cache m)) m,
            HS.store_hosting_metadata (key_id k) (HS.mkMetadata now_ms 0 size code false) s, true)
  | None => Some (m, s, false)
  end.

Fixpoint load_rows (now now_ms : Z) (rows : list (I * HS.HostingMetadata)) (m : HostingManager)
    : option HostingManager :=
  match rows with
  | [] => Some m
  | row :: rows => m ← load_row now now_ms row m; load_rows now now_ms rows m
  end.

Fixpoint migrate_rows (now now_ms : Z) (code_hash_lookup : I -> option (list Z)) (ids : list I) (migrated : nat)
    (m : HostingManager) (s : HS.Storage (I:=I)) : option (HostingManager * HS.Storage (I:=I) * nat) :=
  match ids with
  | [] => Some (m, s, migrated)
  | id :: ids =>
      match migrate_row now now_ms code_hash_lookup id m s with
      | Some (m, s, added) =>
          migrate_rows now now_ms code_hash_lookup ids (if added then S migrated else migrated) m s
      | None => None
      end
  end.

Definition ordered_entries (m : HostingManager) : list (K * HC.HostedContract) :=
  omap (fun k => e ← HC.contracts (hosting_cache m) !! k; Some (k, e)) (hosted_keys m).

(** The outer [None] is a panic; the inner one the error of a store that cannot be read. *)
Definition load_from_storage (now now_ms : Z) (code_hash_lookup : I -> option (list Z)) (m : HostingManager)
    (s : HS.Storage (I:=I)) : option (option (HostingManager * HS.Storage (I:=I) * nat)) :=
  match HS.load_all_hosting_metadata s with
  | None => Some None
  | Some rows =>
      m ← load_rows now now_ms rows m;
      let loaded : gset I := list_to_set (map fst rows) in
      let ids := List.filter (fun id => negb (bool_decide (id ∈ loaded))) (default [] (HS.iter_all_state_keys s)) in
      match migrate_rows now now_ms code_hash_lookup ids 0 m s with
      | Some (m, s, migrated) =>
          Some (Some (with_cache (HC.finalize_loading (ordered_entries m) (hosting_cache m)) m, s,
                      (length rows + migrated)%nat))
      | None => None
      end
  end.

(** ** Sequences of calls *)

Inductive op :=
| Subscribe (k : K) | RenewLease (k : K) | Unsubscribe (k : K) | ContractUpdate (k : K) | ForceRenewal (k : K)
| ExpireSubscriptions
| AddClient (id : I) (client : C) | RemoveClient (id : I) (client : C) | DisconnectClient (client : C)
| AddDownstream (k : K) (peer : P) | RenewDownstream (k : K) (peer : P) | RemoveDownstream (k : K) (peer : P)
| ExpireDownstream
| Reconcile (max_fetches : nat) | DropPhantom (k : K)
| SetOwnLocation (l : L.Location) | ServeLocalGet | ForwardLocalGet
| Access (now_ms : Z) (k : K) (size : Z) (a : HC.AccessType) | MarkLocal (k : K) | Touch (k : K)
| SweepHosting (axes : list (HC.CostAxisPressure (I:=I)))
| MarkPending (k : K) | CompleteRequest (jitter_factor : f64) (k : K) (success : bool)
| BumpGeneration (k : K) | ForgetGeneration (k : K) | RefreshGeneration (k : K) (gen : Z)
| SetStorage (s : HS.Storage (I:=I)) | ClearStorage
| ConfigureTracker | ConfigureBudget (pct : f64) (max_hosting_disk : Z) | RecomputeBudget (available : Z)
| SeedTracker (wasm cache : Z) | RecordStateWrite (k : K) (size : Z) | RecordStateRemoved (k : K)
| RecordWasmWrite (len : Z) | RecordWasmRemoved (len : Z) | RefreshDisk (wasm cache : Z)
| PendingAdd (k : K) (gen : Z) | PendingRemove (k : K).

Definition step (now : Instant) (o : op) (m : HostingManager) : option HostingManager :=
  match o with
  | Subscribe k => Some (subscribe now k m).1
  | RenewLease k => Some (renew_subscription now k m).1
  | Unsubscribe k => Some (unsubscribe k m)
  | ContractUpdate k => Some (record_contract_update now k m)
  | ForceRenewal k => Some (force_subscription_renewal k m)
  | ExpireSubscriptions => Some (expire_stale_subscriptions now m).1
  | AddClient id c => Some (add_client_subscription id c m).1
  | RemoveClient id c => Some (remove_client_subscription id c m).1
  | DisconnectClient c => Some (remove_client_from_all_subscriptions now c m).1
  | AddDownstream k p => Some (add_downstream_subscriber now k p m).1
  | RenewDownstream k p => Some (renew_downstream_subscriber now k p m).1
  | RemoveDownstream k p => Some (remove_downstream_subscriber now k p m).1
  | ExpireDownstream => Some (expire_stale_downstream_subscribers now m).1
  | Reconcile n => Some (reconcile_phantom_in_use now n m).1
  | DropPhantom k => Some (drop_phantom_downstream now k m).1
  | SetOwnLocation l => Some (set_own_location l m)
  | ServeLocalGet => Some (record_local_get_serve m)
  | ForwardLocalGet => Some (record_local_get_forward m)
  | Access ms k size a => x ← record_contract_access now ms k size a m; Some x.1.1
  | MarkLocal k => Some (mark_local_client_access now k m)
  | Touch k => touch_hosting now k m
  | SweepHosting axes => Some (sweep_expired_hosting_with_cost now axes m).1.1
  | MarkPending k => Some (mark_subscription_pending k m).1
  | CompleteRequest j k s => complete_subscription_request now j k s m
  | BumpGeneration k => Some (bump_state_generation k m).1
  | ForgetGeneration k => Some (forget_state_generation k m)
  | RefreshGeneration k g => Some (refresh_cache_generation k g m)
  | SetStorage s => Some (set_storage s m)
  | ClearStorage => Some (clear_storage m)
  | ConfigureTracker => Some (configure_disk_tracker m)
  | ConfigureBudget pct mx => Some (configure_disk_budget pct mx m)
  | RecomputeBudget a => Some (recompute_effective_budget a m).1
  | SeedTracker w c => Some (seed_disk_tracker_if_absent w c m)
  | RecordStateWrite k n => Some (record_state_write k n m)
  | RecordStateRemoved k => Some (record_state_removed k m)
  | RecordWasmWrite n => Some (record_wasm_write n m)
  | RecordWasmRemoved n => Some (record_wasm_removed n m)
  | RefreshDisk w c => Some (refresh_disk_usage w c m)
  | PendingAdd k g => Some (pending_reclamation_add k g m)
  | PendingRemove k => Some (pending_reclamation_remove k m)
  end.

Definition run (m : HostingManager) (es : list (Instant * op)) : option HostingManager :=
  foldl (fun m e => m ← m; step e.1 e.2 m) (Some m) es.

(** ** Well-formed managers *)

Definition backoff_config : B.ExponentialBackoff := B.mkConfig INITIAL_SUBSCRIPTION_BACKOFF MAX_SUBSCRIPTION_BACKOFF.
(** The longest jittered delay. *)
Definition LONGEST_BACKOFF : Duration := from_secs 144.

(** At time [now], when at most [total] bytes were offered to the cache. *)
Record wf (now total : Z) (m : HostingManager) : Prop := {
  wf_clients : map_Forall (fun _ clients => clients <> ∅) (client_subscriptions m);
  wf_downstream : map_Forall (fun _ peers => peers <> ∅ /\ (size peers <= MAX_DOWNSTREAM_SUBSCRIBERS_PER_CONTRACT)%nat)
                    (downstream_subscribers m);
  wf_phantoms : map_Forall (fun _ e => 1 <= attempts e <= MAX_PHANTOM_REPAIR_ATTEMPTS) (phantom_repair m);
  wf_generations : map_Forall (fun _ g => 1 <= g <= u64_max) (state_generation m);
  wf_cache : HC.wf total (hosting_cache m);
  wf_backoff : exists es, B.inv backoff_config MAX_SUBSCRIPTION_BACKOFF_ENTRIES LONGEST_BACKOFF now es
                            (subscription_backoff m);
  wf_location : forall l, own_location m = Some l -> L.valid l;
}.

Lemma wf_frame now total m m' :
  wf now total m ->
  client_subscriptions m' = client_subscriptions m -> downstream_subscribers m' = downstream_subscribers m ->
  phantom_repair m' = phantom_repair m -> state_generation m' = state_generation m ->
  hosting_cache m' = hosting_cache m -> subscription_backoff m' = subscription_backoff m ->
  own_location m' = own_location m -> wf now total m'.
Proof. intros [] E1 E2 E3 E4 E5 E6 E7. split; by rewrite ?E1, ?E2, ?E3, ?E4, ?E5, ?E6, ?E7. Qed.

Lemma wf_with_cache now total total' m c : wf now total m -> HC.wf total' c -> wf now total' (with_cache c m).
Proof. intros [] Hc. by split. Qed.

Lemma wf_with_clients now total m v :
  wf now total m -> map_Forall (fun _ clients => clients <> ∅) v -> wf now total (with_clients v m).
Proof. intros [] Hv. by split. Qed.

Lemma wf_with_downstream now total m v :
  wf now total m ->
  map_Forall (fun _ peers => peers <> ∅ /\ (size peers <= MAX_DOWNSTREAM_SUBSCRIBERS_PER_CONTRACT)%nat) v ->
  wf now total (with_downstream v m).
Proof. intros [] Hv. by split. Qed.

Lemma wf_with_phantoms now total m v :
  wf now total m -> map_Forall (fun _ e => 1 <= attempts e <= MAX_PHANTOM_REPAIR_ATTEMPTS) v ->
  wf now total (with_phantoms v m).
Proof. intros [] Hv. by split. Qed.

Lemma wf_with_generations now total m v :
  wf now total m -> map_Forall (fun _ g => 1 <= g <= u64_max) v -> wf now total (with_generations v m).
Proof. intros [] Hv. by split. Qed.

Lemma wf_later now now' total m : now <= now' -> wf now total m -> wf now' total m.
Proof.
  intros Hle [? ? ? ? ? (es & [Hc Hm Hs He]) ?]. split; [done..| |done].
  exists es. split; [done..|]. intros k e Hk. destruct (He k e Hk). split; [done|lia|done|done].
Qed.

Lemma wf_more now total total' m : total <= total' -> wf now total m -> wf now total' m.
Proof. intros Hle []. split; try done. by apply (HC.wf_state_more total). Qed.

(** A cache operation that offers no bytes. *)
Lemma wf_cache_step now total m o :
  HC.offered o = 0 -> total <= u64_max -> wf now total m ->
  wf now total (with_cache (HC.step key_bytes key_id 0 (hosting_cache m) (now, o)) m).
Proof.
  intros Ho Ht Hwf. apply (wf_with_cache _ total); [done|].
  pose proof (HC.step_wf_hosting key_bytes key_id 0 total (hosting_cache m) (now, o)) as Hs.
  cbn [snd] in Hs. rewrite Ho, Z.add_0_r in Hs. apply Hs; [lia|done|apply Hwf].
Qed.

Lemma abandon_wf now total k m :
  total <= u64_max -> wf now total m -> wf now total (maybe_record_abandonment now k m).
Proof.
  intros Ht Hwf. unfold maybe_record_abandonment. destruct (negb _); [|done].
  by apply (wf_cache_step now total m (HC.Abandon k)).
Qed.

Lemma remove_client_wf now total id c m : wf now total m -> wf now total (remove_client_subscription id c m).1.
Proof.
  intros Hwf. unfold remove_client_subscription. destruct (client_subscriptions m !! id) as [s|] eqn:E; [|done].
  case_bool_decide; simpl.
  - apply wf_with_clients; [done|]. apply map_Forall_delete, Hwf.
  - apply wf_with_clients; [done|]. by apply map_Forall_insert_2; [|apply Hwf].
Qed.

Lemma remove_client_loop_wf now total c ids out m :
  total <= u64_max -> wf now total m -> wf now total (remove_client_loop now c ids out m).1.
Proof.
  intros Ht. revert out m. induction ids as [|id ids IH]; intros out m Hwf; simpl; [done|].
  case_match; apply IH; [apply abandon_wf; [done|]|]; by apply remove_client_wf.
Qed.

Lemma put_peers_wf now total k peers m :
  (size peers <= MAX_DOWNSTREAM_SUBSCRIBERS_PER_CONTRACT)%nat -> wf now total m -> wf now total (put_peers k peers m).
Proof.
  intros Hs Hwf. unfold put_peers. apply wf_with_downstream; [done|]. case_bool_decide.
  - apply map_Forall_delete, Hwf.
  - by apply map_Forall_insert_2; [|apply Hwf].
Qed.

Lemma teardown_all_wf now total ks out m : wf now total m -> wf now total (teardown_all ks m out).1.
Proof.
  revert out m. induction ks as [|k ks IH]; intros out m Hwf; simpl; [done|]. apply IH.
  apply (wf_frame _ _ (with_clients (delete (key_id k) (client_subscriptions m))
                         (with_downstream (delete k (downstream_subscribers m)) m))); try done.
  apply wf_with_clients; [apply wf_with_downstream; [done|]|]; apply map_Forall_delete, Hwf.
Qed.

Lemma live_peers_size now peers : (size (live_peers now peers) <= size peers)%nat.
Proof. apply map_subseteq_size, map_filter_subseteq. Qed.

Lemma expire_downstream_wf now total k m :
  total <= u64_max -> wf now total m -> wf now total (expire_downstream_of now k m).1.
Proof.
  intros Ht Hwf. unfold expire_downstream_of. destruct (downstream_subscribers m !! k) as [peers|] eqn:E; [|done].
  assert (Hp : wf now total (put_peers k (live_peers now peers) m)).
  { apply put_peers_wf; [|done]. pose proof (live_peers_size now peers). destruct (wf_downstream _ _ _ Hwf k peers E). lia. }
  case_bool_decide; simpl; [by apply abandon_wf|done].
Qed.

Lemma expire_downstream_loop_wf now total ks m out :
  total <= u64_max -> wf now total m -> wf now total (expire_downstream_loop now ks m out).1.
Proof.
  intros Ht. revert m out. induction ks as [|k ks IH]; intros m out Hwf; simpl; [done|].
  pose proof (expire_downstream_wf now total k m Ht Hwf) as H. destruct (expire_downstream_of now k m) as [m' o].
  by apply IH.
Qed.

Lemma reconcile_phantom_wf now total n k f m :
  wf now total m -> wf now total (reconcile_phantom now n k f m).1.1.
Proof.
  intros Hwf. unfold reconcile_phantom. unfold MAX_PHANTOM_REPAIR_ATTEMPTS.
  destruct (contract_state_present k m); simpl; [apply wf_with_phantoms; [done|]; apply map_Forall_delete, Hwf|].
  case_bool_decide; [done|]. destruct (phantom_repair m !! k) as [e|] eqn:E.
  - destruct (3 <=? attempts e) eqn:Ea; to_props.
    + destruct (_ <=? _); simpl; [|done]. apply wf_with_phantoms; [done|]. apply map_Forall_delete, Hwf.
    + destruct (_ <? _); simpl; [done|]. destruct (_ <? _)%nat; simpl; [|done].
      apply wf_with_phantoms; [done|]. apply map_Forall_insert_2; [|apply Hwf].
      pose proof (wf_phantoms _ _ _ Hwf k e E) as Hk. unfold MAX_PHANTOM_REPAIR_ATTEMPTS in *. simpl in *. lia.
  - destruct (_ <? _)%nat; simpl; [|done]. apply wf_with_phantoms; [done|]. by apply map_Forall_insert_2; [|apply Hwf].
Qed.

Lemma reconcile_loop_wf now total n ks f acts m :
  wf now total m -> wf now total (reconcile_loop now n ks f acts m).1.
Proof.
  revert f acts m. induction ks as [|k ks IH]; intros f acts m Hwf; simpl; [done|].
  pose proof (reconcile_phantom_wf now total n k f m Hwf) as H. destruct (reconcile_phantom now n k f m) as [[m' f'] a].
  by apply IH.
Qed.

Lemma on_storage_wf now total f m : wf now total m -> wf now total (on_storage f m).
Proof. intros Hwf. unfold on_storage. case_match; [|done]. by apply (wf_frame now total m). Qed.

Lemma on_tracker_wf now total f m : wf now total m -> wf now total (on_tracker f m).
Proof. intros Hwf. unfold on_tracker. case_match; [|done]. by apply (wf_frame now total m). Qed.

Lemma train_wf now total d r m : wf now total m -> wf now total (train d r m).
Proof. intros Hwf. unfold train. repeat case_match; [by apply (wf_frame now total m)|done..]. Qed.

Lemma jittered_config d j :
  0 <= d <= B.max backoff_config -> F64Round.jitter_ok j -> exists d', dur_mul_f64 d j = Some d' /\ 0 <= d' <= LONGEST_BACKOFF.
Proof. intros Hd Hj. apply (F64Round.jittered_le d j 24); [|done|done]. exact Hd. Qed.

Section total.
Hypothesis backoff_order_perm : forall b, backoff_order b ≡ₚ map_to_list b.
Hypothesis id_length : forall id, (length (id_bytes id) <= 32)%nat.

(** With a valid own location the demand estimate never panics. *)
Lemma distance_and_demand_total now total k m : wf now total m -> is_Some (distance_and_demand k m).
Proof using id_length.
  intros Hwf. unfold distance_and_demand. destruct (own_location m) as [l|] eqn:E; [|done].
  destruct (L.contract_location_exists (id_bytes (key_id k)) (id_length _)) as (kl & -> & Hkl). cbn [mbind option_bind].
  destruct (L.distance_total l kl (wf_location _ _ _ Hwf l E) Hkl) as (d & -> & _). by eexists.
Qed.

Lemma access_wf now total ms k size a m :
  0 <= size -> total + size <= u64_max -> wf now total m ->
  exists m' r ts, record_contract_access now ms k size a m = Some (m', r, ts) /\ wf now (total + size) m'.
Proof using id_length.
  intros Hs Ht Hwf. unfold record_contract_access. destruct (distance_and_demand_total now total k m Hwf) as [[d p] ->].
  cbn [mbind option_bind].
  pose proof (HC.record_access_wf key_bytes key_id total now k size a (generation_of k m) p
    (local_and_downstream_counts m) (hosting_cache m) Hs Ht (wf_cache _ _ _ Hwf)) as Hc.
  destruct (HC.record_access_with_demand _ _ _ _ _ _ _ _ _) as [c r]. simpl in Hc.
  pose proof (teardown_all_wf now (total + size) (HC.evicted_in_use r) [] (with_cache c m)
    (wf_with_cache _ _ _ _ _ Hwf Hc)) as Hd.
  destruct (teardown_all _ _ _) as [m' ts]. do 3 eexists. split; [done|]. by apply on_storage_wf, train_wf.
Qed.

Lemma sweep_wf now total axes m :
  total <= u64_max -> wf now total m -> wf now total (sweep_expired_hosting_with_cost now axes m).1.1.
Proof.
  intros Ht Hwf. unfold sweep_expired_hosting_with_cost.
  assert (Hc : HC.wf total (HC.sweep_expired key_bytes now (local_and_downstream_counts m) HC.AtCapacity (hosting_cache m)).1)
    by (apply (HC.evict_over_budget_wf key_bytes), Hwf).
  destruct (HC.sweep_expired _ _ _ _ _) as [c ev]. simpl in Hc.
  set (x := if bool_decide (axes = []) then _ else _).
  assert (Hx : HC.wf total x.1).
  { unfold x. case_bool_decide; [done|].
    pose proof (HC.evict_cost_pressure_wf key_bytes key_id total now (local_and_downstream_counts m) axes c Hc) as Hp.
    by destruct (HC.evict_cost_pressure _ _ _ _ _ _). }
  destruct x as [c' ev']. simpl in Hx.
  pose proof (teardown_all_wf now total (map HC.key (List.filter HC.was_in_use ev')) [] (with_cache c' m)
    (wf_with_cache _ _ _ _ _ Hwf Hx)) as Hd.
  destruct (teardown_all _ _ _) as [m' ts]. simpl in *. case_bool_decide; [done|]. by apply on_storage_wf.
Qed.

Lemma complete_wf now total j k s m :
  F64Round.jitter_ok j -> wf now total m ->
  exists m', complete_subscription_request now j k s m = Some m' /\ wf now total m'.
Proof using backoff_order_perm.
  intros Hj [? ? ? ? ? (es & Hb) ?]. unfold complete_subscription_request. destruct s; cbn [subscription_backoff].
  - eexists. split; [done|]. split; try done. exists (es ++ [(now, B.Success k)]).
    destruct (B.backoff_step_inv backoff_order backoff_order_perm backoff_config MAX_SUBSCRIPTION_BACKOFF_ENTRIES LONGEST_BACKOFF
      ltac:(done) ltac:(done) jittered_config now es (subscription_backoff m) (now, B.Success k)) as (b & [= <-] & Hi); [done..|].
    exact Hi.
  - destruct (B.backoff_record_failure_inv backoff_order backoff_order_perm backoff_config MAX_SUBSCRIPTION_BACKOFF_ENTRIES
      LONGEST_BACKOFF ltac:(done) ltac:(done) jittered_config now es (subscription_backoff m) j k now) as (b & Eb & Hi); [done..|].
    cbn [with_requests subscription_backoff] in *. rewrite Eb. cbn [mbind option_bind]. eexists. split; [done|].
    split; try done. by eexists.
Qed.

Lemma size_insert_le (peers : gmap P Instant) p t n :
  is_Some (peers !! p) /\ (size peers <= n)%nat \/ (size peers < n)%nat -> (size (<[p := t]> peers) <= n)%nat.
Proof. rewrite map_size_insert. intros [[[x ->] ?]|?]; simpl; [done|]. destruct (peers !! p); simpl; lia. Qed.

Definition op_ok (o : op) : Prop :=
  match o with
  | Access _ _ size _ => 0 <= size
  | SetOwnLocation l => L.valid l
  | CompleteRequest j _ _ => F64Round.jitter_ok j
  | _ => True
  end.

Definition offered (o : op) : Z := match o with Access _ _ size _ => size | _ => 0 end.

Lemma demand_step_wf now total o m m' :
  total <= u64_max -> wf now total m -> step now o m = Some m' ->
  match o with
  | AddClient _ _ | RemoveClient _ _ | DisconnectClient _ | AddDownstream _ _ | RenewDownstream _ _
  | RemoveDownstream _ _ | ExpireDownstream | Reconcile _ | DropPhantom _ => wf now total m'
  | _ => True
  end.
Proof.
  intros Ht Hwf Hs. destruct o; try done; cbn [step] in Hs; injection Hs as <-.
  - apply wf_with_clients; [done|]. apply map_Forall_insert_2; [|apply Hwf]. set_solver.
  - by apply remove_client_wf.
  - by apply remove_client_loop_wf.
  - unfold add_downstream_subscriber. case_match eqn:E; simpl; (apply wf_with_downstream; [done|]).
    + apply andb_true_iff in E as [_ E%Nat.leb_le]. apply map_Forall_insert_2; [|apply Hwf].
      destruct (downstream_subscribers m !! k) as [peers|] eqn:Ek; simpl in *; [by apply (wf_downstream _ _ _ Hwf k)|].
      rewrite map_size_empty in E. unfold MAX_DOWNSTREAM_SUBSCRIBERS_PER_CONTRACT in E. lia.
    + apply map_Forall_insert_2; [|apply Hwf]. split; [apply insert_non_empty|]. apply size_insert_le.
      destruct (downstream_subscribers m !! k) as [peers|] eqn:Ek; cbn [default from_option id] in *.
      * destruct (wf_downstream _ _ _ Hwf k peers Ek). case_bool_decide; [by left|right]. apply Nat.leb_gt. by apply E.
      * right. rewrite map_size_empty. unfold MAX_DOWNSTREAM_SUBSCRIBERS_PER_CONTRACT. lia.
  - unfold renew_downstream_subscriber. destruct (downstream_subscribers m !! k) as [peers|] eqn:Ek; [|done].
    case_bool_decide as Hp; [|done]. simpl. apply wf_with_downstream; [done|]. apply map_Forall_insert_2; [|apply Hwf].
    split; [apply insert_non_empty|]. destruct (wf_downstream _ _ _ Hwf k peers Ek).
    apply size_insert_le. by left.
  - unfold remove_downstream_subscriber. destruct (downstream_subscribers m !! k) as [peers|] eqn:Ek; [|done].
    case_bool_decide as Hp; [|done]. simpl. apply abandon_wf; [done|]. apply put_peers_wf; [|done].
    destruct (wf_downstream _ _ _ Hwf k peers Ek). pose proof (map_subseteq_size (delete peer peers) peers (delete_subseteq _ _)). lia.
  - by apply expire_downstream_loop_wf.
  - apply reconcile_loop_wf. apply wf_with_phantoms; [done|]. intros k e [Hk _]%map_lookup_filter_Some. by apply (wf_phantoms _ _ _ Hwf k).
  - unfold drop_phantom_downstream.
    assert (Hd : wf now total (with_downstream (delete k (downstream_subscribers m)) m))
      by (apply wf_with_downstream; [done|]; apply map_Forall_delete, Hwf).
    cbn [fst]. set (m1 := if (0 <? _)%nat then _ else _).
    assert (H1 : wf now total m1) by (unfold m1; case_match; [by apply abandon_wf|done]).
    apply wf_with_phantoms; [done|]. apply map_Forall_delete, H1.
Qed.

Lemma generation_range k m now total : wf now total m -> 0 <= generation_of k m <= u64_max.
Proof.
  intros Hwf. unfold generation_of. destruct (state_generation m !! k) as [g|] eqn:E; simpl; [|done].
  pose proof (wf_generations _ _ _ Hwf k g E). simpl in *. lia.
Qed.

Lemma step_wf now total o m :
  op_ok o -> total + offered o <= u64_max -> wf now total m ->
  exists m', step now o m = Some m' /\ wf now (total + offered o) m'.
Proof using backoff_order_perm id_length.
  intros Hok Ht Hwf.
  assert (Hdem : forall m', offered o = 0 -> step now o m = Some m' -> wf now total m' ->
    exists m', step now o m = Some m' /\ wf now (total + offered o) m').
  { intros m' -> Hs Hw. exists m'. by rewrite Z.add_0_r. }
  pose proof (demand_step_wf now total o m) as Hd.
  destruct o; cbn [offered] in *; rewrite ?Z.add_0_r in *.
  all: try (eexists; split; [done|]; by apply (wf_frame now total m)).
  all: try (eapply Hdem; [done|done|]; exact (Hd _ Ht Hwf eq_refl)).
  all: try (eexists; split; [done|]; by apply on_tracker_wf).
  - eexists. split; [done|]. unfold subscribe. case_match; by apply (wf_frame now total m).
  - eexists. split; [done|]. unfold renew_subscription. case_match; [by apply (wf_frame now total m)|done].
  - eexists. split; [done|]. unfold record_contract_update. case_match; [by apply (wf_frame now total m)|done].
  - eexists. split; [done|]. destruct Hwf. split; try done. cbn. by intros l' [= <-].
  - destruct (access_wf now total now_ms k size a m Hok Ht Hwf) as (m' & r & ts & E & Hw).
    exists m'. cbn [step]. by rewrite E.
  - eexists. split; [done|]. unfold mark_local_client_access.
    assert (Hc : wf now total (with_cache (HC.mark_local_client_access now k (hosting_cache m)) m))
      by (by apply (wf_cache_step now total m (HC.MarkLocal k))).
    case_match; [done|by apply on_storage_wf].
  - cbn [step]. unfold touch_hosting. destruct (distance_and_demand_total now total k m Hwf) as [[d p] ->].
    cbn [mbind option_bind]. pose proof (wf_cache_step now total m (HC.Touch k p) eq_refl Ht Hwf) as Hc.
    cbn [HC.step fst snd] in Hc.
    destruct (HC.touch_with_demand _ _ _ _) as [c r]. eexists. split; [done|]. by apply train_wf.
  - eexists. split; [done|]. by apply sweep_wf.
  - by apply complete_wf.
  - eexists. split; [done|]. apply wf_with_generations; [done|]. apply map_Forall_insert_2; [|apply Hwf].
    destruct (state_generation m !! k) as [g|] eqn:E; [|done]. pose proof (wf_generations _ _ _ Hwf k g E).
    unfold sat_add64. simpl in *. lia.
  - eexists. split; [done|]. apply wf_with_generations; [done|]. apply map_Forall_delete, Hwf.
  - eexists. split; [done|]. by apply (wf_cache_step now total m (HC.RefreshGeneration k gen)).
  - eexists. split; [done|]. unfold recompute_effective_budget. case_match; [|done]. simpl.
    apply (wf_cache_step now total (with_disk_budget _ m) (HC.SetBudget _)); [done|done|]. by apply (wf_frame now total m).
  - eexists. split; [done|]. unfold seed_disk_tracker_if_absent. repeat case_match; try done. by apply on_tracker_wf.
Qed.

Definition offered_all (es : list (Instant * op)) : Z := sumZ (fun e => offered e.2) es.

Lemma manager_new_wf now budget : wf now 0 (with_time_source budget).
Proof.
  split; try (by apply map_Forall_empty).
  - apply HC.wf_new.
  - exists []. by split.
  - done.
Qed.

Lemma run_wf start total m es :
  wf start total m -> clock_monotone start es = true -> Forall (fun e => op_ok e.2) es ->
  total + offered_all es <= u64_max ->
  exists m', run m es = Some m' /\ wf (clock_end start es) (total + offered_all es) m'.
Proof using backoff_order_perm id_length.
  intros Hwf. induction es as [|e es IH] using rev_ind; intros Hc Hok Ho.
  - exists m. split; [done|]. unfold offered_all. rewrite sumZ_nil, Z.add_0_r. done.
  - rewrite clock_monotone_app in Hc. to_props. apply Forall_app in Hok as [Hok [He _]%Forall_cons].
    unfold offered_all in *. rewrite sumZ_app, sumZ_cons, sumZ_nil, Z.add_0_r, Z.add_assoc in *.
    assert (0 <= offered e.2) by (destruct e as [t []]; simpl in *; lia).
    destruct IH as (m1 & Hm & Hwf1); [done|done|lia|]. unfold run in *. rewrite foldl_app, Hm, clock_end_app.
    cbn [foldl mbind option_bind clock_end clock_monotone] in *. to_props. apply step_wf; [done|done|].
    by apply (wf_later (clock_end start es)).
Qed.

(** ** Fetching a contract without state *)

(** What a call asks the ring to do about contracts without state. *)
Definition repair_actions (now : Instant) (o : op) (m : HostingManager) : list PhantomRepair :=
  match o with Reconcile n => (reconcile_phantom_in_use now n m).2 | _ => [] end.

Fixpoint repairs (m : HostingManager) (es : list (Instant * op)) : list PhantomRepair :=
  match es with
  | [] => []
  | (now, o) :: es => repair_actions now o m ++ match step now o m with Some m => repairs m es | None => [] end
  end.

Definition is_fetch (k : K) (a : PhantomRepair) : Z :=
  match a with Fetch k' => if decide (k' = k) then 1 else 0 | Drop _ => 0 end.
Definition fetches (k : K) (actions : list PhantomRepair) : Z := sumZ (is_fetch k) actions.











Section fetching.
(** The order enumerates the map. *)
Hypothesis downstream_order_perm : forall s, downstream_order s ≡ₚ map fst (map_to_list s).



End fetching.
End total.

(** ** Eviction ends demand *)

Lemma counts_in_use m k :
  contract_in_use k m = (0 <? (local_and_downstream_counts m k).1 + (local_and_downstream_counts m k).2)%nat.
Proof.
  unfold contract_in_use, local_and_downstream_counts, has_client_subscriptions, has_downstream_subscribers. cbn [fst snd].
  assert (Hc : forall s : gset C, negb (bool_decide (s = ∅)) = (0 <? size s)%nat).
  { intros s. case_bool_decide as E; [by rewrite E, size_empty|]. symmetry. apply Nat.ltb_lt.
    destruct (decide (size s = 0)%nat) as [Hz|]; [|lia]. destruct E. by apply size_empty_inv, leibniz_equiv in Hz. }
  assert (Hp : forall p : gmap P Instant, negb (bool_decide (p = ∅)) = (0 <? size p)%nat).
  { intros p. case_bool_decide as E; [by rewrite E, map_size_empty|]. symmetry. apply Nat.ltb_lt.
    destruct (decide (size p = 0)%nat) as [Hz|]; [|lia]. destruct E. by apply map_size_empty_iff in Hz. }
  destruct (client_subscriptions m !! key_id k) as [s|], (downstream_subscribers m !! k) as [p|]; rewrite ?Hc, ?Hp; cbn [orb].
  - destruct (size s), (size p); done.
  - rewrite orb_false_r. by rewrite Nat.add_0_r.
  - done.
  - done.
Qed.

Lemma lookup_torn {A B} `{Countable A} (x a : A) (l : list A) (g : gmap A B) :
  (if decide (a ∈ l) then None else delete x g !! a) = if decide (a ∈ x :: l) then None else g !! a.
Proof.
  destruct (decide (a ∈ l)) as [Hi|Hi].
  - rewrite decide_True; [done|]. by right.
  - destruct (decide (a = x)) as [->|Hne].
    + rewrite lookup_delete_eq, decide_True; [done|]. by left.
    + rewrite lookup_delete_ne, decide_False; [done| |done]. by intros [?|?]%elem_of_cons.
Qed.

(** What a teardown leaves. *)
Lemma teardown_all_spec ks m out :
  let m' := (teardown_all ks m out).1 in
  (forall k, active_subscriptions m' !! k = if decide (k ∈ ks) then None else active_subscriptions m !! k) /\
  (forall k, downstream_subscribers m' !! k = if decide (k ∈ ks) then None else downstream_subscribers m !! k) /\
  (forall id, client_subscriptions m' !! id = if decide (id ∈ map key_id ks) then None else client_subscriptions m !! id) /\
  (exists a d c, m' = with_active a (with_clients c (with_downstream d m))) /\
  map torn_key (teardown_all ks m out).2 = map torn_key out ++ ks.
Proof.
  revert m out. induction ks as [|k ks IH]; intros m out; cbn [teardown_all].
  - cbn [fst snd map]. rewrite app_nil_r. split_and!; try done; try (intros; by rewrite decide_False by apply not_elem_of_nil).
    exists (active_subscriptions m), (downstream_subscribers m), (client_subscriptions m). by destruct m.
  - destruct (IH (teardown_evicted_in_use_contract k m).1 (out ++ [(teardown_evicted_in_use_contract k m).2]))
      as (Ha & Hd & Hc & Hf & Ho).
    destruct (teardown_evicted_in_use_contract k m) as [m1 t1] eqn:Em. cbn [fst snd] in *.
    injection Em as <- <-. split_and!.
    + intros k'. rewrite Ha. cbn [active_subscriptions unsubscribe with_active]. apply lookup_torn.
    + intros k'. rewrite Hd. cbn [downstream_subscribers unsubscribe with_active with_clients with_downstream]. apply lookup_torn.
    + intros id. rewrite Hc. cbn [client_subscriptions unsubscribe with_active with_clients with_downstream map].
      apply lookup_torn.
    + destruct Hf as (a & d & c & ->). by exists a, d, c.
    + rewrite Ho, map_app, <- app_assoc. done.
Qed.

(** The evictions [ev] of [m] that left the cache [c]. *)
Definition evicted_from (m : HostingManager) (ev : list (HC.EvictedContract (K:=K))) (c : HC.HostingCache (K:=K)) : Prop :=
  Forall (fun e => HC.contracts c !! HC.key e = None /\ HC.was_in_use e = contract_in_use (HC.key e) m) ev.

(** The demand for exactly the contracts [ev] is over: none of them is hosted or
    in use, those that were in use are the ones reported torn down and have lost
    their leases, and nothing else changed. *)
Definition demand_ended (m m' : HostingManager) (ev : list (K * Z)) (ts : list EvictedInUseTeardown) : Prop :=
  (forall k, k ∈ map fst ev -> is_hosting_contract k m' = false /\ contract_in_use k m' = false) /\
  (forall k, k ∈ map torn_key ts <-> k ∈ map fst ev /\ contract_in_use k m = true) /\
  (forall k, active_subscriptions m' !! k = if decide (k ∈ map torn_key ts) then None else active_subscriptions m !! k) /\
  (forall k, key_id k ∉ map key_id (map fst ev) -> contract_in_use k m' = contract_in_use k m).

Lemma demand_ended_frame m m' m'' ev ts :
  demand_ended m m' ev ts -> hosting_cache m'' = hosting_cache m' -> active_subscriptions m'' = active_subscriptions m' ->
  client_subscriptions m'' = client_subscriptions m' -> downstream_subscribers m'' = downstream_subscribers m' ->
  demand_ended m m'' ev ts.
Proof.
  unfold demand_ended, is_hosting_contract, contract_in_use, has_client_subscriptions, has_downstream_subscribers.
  intros H E1 E2 E3 E4. by rewrite E1, E2, E3, E4.
Qed.

Definition reported (ev : list (HC.EvictedContract (K:=K))) : list (K * Z) :=
  map (fun e => (HC.key e, HC.evicted_generation e)) ev.

Lemma reported_keys ev : map fst (reported ev) = map HC.key ev.
Proof. unfold reported. by rewrite map_map. Qed.

Lemma shed_demand m ev c ks :
  evicted_from m ev c -> (forall k, k ∈ ks <-> k ∈ map HC.key ev /\ contract_in_use k m = true) ->
  demand_ended m (teardown_all ks (with_cache c m) []).1 (reported ev) (teardown_all ks (with_cache c m) []).2.
Proof.
  intros Hev Hks. destruct (teardown_all_spec ks (with_cache c m) []) as (Ha & Hd & Hc & (a & d & cl & Hf) & Ho).
  cbn [map app] in Ho. unfold demand_ended. rewrite Ho, reported_keys. unfold evicted_from in Hev. rewrite Forall_forall in Hev.
  assert (Hin : forall k, k ∈ map HC.key ev -> HC.contracts c !! k = None).
  { intros k (e & -> & He)%list_elem_of_fmap. by apply Hev. }
  split_and!; [|done|done|].
  - intros k Hk. split.
    + unfold is_hosting_contract, HC.contains. rewrite Hf. cbn. rewrite Hin by done. done.
    + unfold contract_in_use, has_client_subscriptions, has_downstream_subscribers. rewrite Hc, Hd.
      cbn [client_subscriptions downstream_subscribers with_cache].
      destruct (contract_in_use k m) eqn:Eu.
      * rewrite !decide_True; [done|by apply Hks|]. apply list_elem_of_fmap. exists k. split; [done|]. by apply Hks.
      * unfold contract_in_use, has_client_subscriptions, has_downstream_subscribers in Eu.
        apply orb_false_iff in Eu as [E1 E2]. case_decide; [|rewrite E1]; (case_decide; [done|by rewrite E2]).
  - intros k Hk. unfold contract_in_use, has_client_subscriptions, has_downstream_subscribers. rewrite Hc, Hd.
    rewrite !decide_False; [done| |].
    + intros [Hin' _]%Hks. destruct Hk. apply list_elem_of_fmap. eauto.
    + intros (k' & E & [Hin' _]%Hks)%list_elem_of_fmap. destruct Hk. apply list_elem_of_fmap. eauto.
Qed.

Lemma over_budget_evicted total now p prot m c :
  HC.wf total c ->
  evicted_from m (HC.evict_over_budget key_bytes now (local_and_downstream_counts m) p prot c).2
    (HC.evict_over_budget key_bytes now (local_and_downstream_counts m) p prot c).1.
Proof.
  intros Hc. unfold evicted_from. apply Forall_forall. intros e He. split.
  { apply (HC.evicted_key_iff key_bytes key_id total now (local_and_downstream_counts m) p prot c (HC.key e) Hc).
    apply list_elem_of_fmap. by exists e. }
  destruct (HC.evict_over_budget_spec key_bytes key_id total now (local_and_downstream_counts m) p prot c Hc)
    as (n & _ & Hall & _).
  apply list_elem_of_lookup in He as [i Hi]. destruct (Forall2_lookup_l _ _ _ _ _ Hall Hi) as (x & Hx & Ek & ->).
  apply list_elem_of_lookup_2, elem_of_take in Hx as (j & Hx & _).
  apply list_elem_of_lookup_2 in Hx. destruct x as [[[k l] d] r].
  apply HC.elem_of_ranked in Hx as (v & _ & _ & Ec & _). rewrite Ek, counts_in_use. unfold HC.cand_key. cbn [fst snd].
  by rewrite Ec.
Qed.

Lemma cost_pressure_evicted now axes m c :
  evicted_from m (HC.evict_cost_pressure key_bytes key_id now (local_and_downstream_counts m) axes c).2
    (HC.evict_cost_pressure key_bytes key_id now (local_and_downstream_counts m) axes c).1 /\
  forall k, HC.contracts c !! k = None ->
    HC.contracts (HC.evict_cost_pressure key_bytes key_id now (local_and_downstream_counts m) axes c).1 !! k = None.
Proof.
  destruct (HC.evict_cost_pressure_loop_spec key_bytes key_id now (local_and_downstream_counts m) axes c []) as (out & Eo & Hf & Hk & Hl).
  unfold HC.evict_cost_pressure, evicted_from. rewrite Eo. cbn [app]. split.
  - apply Forall_forall. intros e He. assert (Hin : HC.key e ∈ map HC.key out) by (apply list_elem_of_fmap; by exists e). split.
    + by rewrite Hl, decide_True.
    + rewrite Forall_forall in Hf. rewrite (Hf e He), counts_in_use.
      apply Hk in Hin as (v & ax & _ & _ & _ & Hu & _). by rewrite Hu.
  - intros k E. rewrite Hl. by case_decide.
Qed.

Lemma torn_keys m ev c :
  evicted_from m ev c ->
  forall k, k ∈ map HC.key (List.filter HC.was_in_use ev) <-> k ∈ map HC.key ev /\ contract_in_use k m = true.
Proof.
  intros Hev k. unfold evicted_from in Hev. rewrite Forall_forall in Hev. rewrite !list_elem_of_fmap. split.
  - intros (e & -> & He). apply list_elem_of_In, filter_In in He as [He Hu]. apply list_elem_of_In in He.
    split; [by exists e|]. by rewrite <- (proj2 (Hev e He)).
  - intros [(e & -> & He) Hu]. exists e. split; [done|]. apply list_elem_of_In, filter_In.
    split; [by apply list_elem_of_In|]. by rewrite (proj2 (Hev e He)).
Qed.

Lemma filter_bool {A} (f : A -> bool) l : filter (fun x => f x = true) l = List.filter f l.
Proof. induction l as [|x l IH]; [done|]. rewrite filter_cons. simpl. rewrite IH. by destruct (f x). Qed.

Lemma access_evicted total now k size a gen p m :
  HC.wf total (hosting_cache m) -> 0 <= size -> total + size <= u64_max ->
  let '(c, r) := HC.record_access_with_demand key_bytes now k size a gen p
        (local_and_downstream_counts m) (hosting_cache m) in
  exists ev, HC.evicted r = reported ev /\ evicted_from m ev c /\
    HC.evicted_in_use r = map HC.key (List.filter HC.was_in_use ev).
Proof.
  intros Hwf Hs Ht. unfold HC.record_access_with_demand, HC.next_seq. cbn [HC.contracts].
  destruct (HC.contracts (hosting_cache m) !! k) as [e|] eqn:Ek.
  { exists []. by split_and!; [|constructor|]. }
  match goal with |- context [HC.evict_over_budget _ _ _ _ _ ?c0] => set (c1 := c0) end.
  assert (Hc1 : HC.wf (total + size) c1).
  { match goal with c1 := HC.set_entries (<[k := ?e]> _) _ _ |- _ =>
      apply (HC.wf_host key_bytes key_id total (hosting_cache m) _ k e) end; try done.
    right. split; [done|]. destruct a; simpl; eauto. }
  pose proof (over_budget_evicted _ now HC.AtCapacity (Some k) m c1 Hc1) as He.
  destruct (HC.evict_over_budget _ _ _ _ _ _) as [c out]. exists out. split_and!; [done|done|].
  cbn [HC.evicted_in_use]. by rewrite filter_bool.
Qed.

Lemma sweep_evicted total now axes m :
  HC.wf total (hosting_cache m) ->
  let '(c, evicted) := HC.sweep_expired key_bytes now (local_and_downstream_counts m) HC.AtCapacity (hosting_cache m) in
  let '(c, evicted) := if bool_decide (axes = []) then (c, evicted)
    else let '(c, more) := HC.evict_cost_pressure key_bytes key_id now (local_and_downstream_counts m) axes c in
         (c, evicted ++ more) in
  evicted_from m evicted c.
Proof.
  intros Hwf. pose proof (over_budget_evicted _ now HC.AtCapacity None m _ Hwf) as He.
  fold (HC.sweep_expired key_bytes now (local_and_downstream_counts m) HC.AtCapacity (hosting_cache m)) in He.
  destruct (HC.sweep_expired _ _ _ _ _) as [c ev]. cbn [fst snd] in He. case_bool_decide; [done|].
  destruct (cost_pressure_evicted now axes m c) as [Hm Hk].
  destruct (HC.evict_cost_pressure _ _ _ _ _ _) as [c' more]. apply Forall_app. split; [|done].
  eapply Forall_impl; [exact He|]. intros e [En Eu]. split; [by apply Hk|done].
Qed.

(** C11: Eviction and demand never disagree.  When hosting a contract pushes the
    cache over its budget, and when the periodic sweep (with or without cost
    pressure) sheds contracts, every contract reported as evicted is from then on
    neither hosted nor in use, and the contracts whose subscribers have to be told
    are exactly those evicted while clients or downstream peers still wanted them;
    only those lose their upstream lease, and the demand of a contract whose
    instance was not evicted is untouched. *)
Theorem eviction_leaves_no_demand now total ms k size a axes m :
  wf now total m -> 0 <= size -> total + size <= u64_max ->
  (forall m' r ts, record_contract_access now ms k size a m = Some (m', r, ts) -> demand_ended m m' (HC.evicted r) ts) /\
  demand_ended m (sweep_expired_hosting_with_cost now axes m).1.1
    (sweep_expired_hosting_with_cost now axes m).1.2 (sweep_expired_hosting_with_cost now axes m).2.
Proof.
  intros Hwf Hs Ht. split.
  - intros m' r ts. unfold record_contract_access. destruct (distance_and_demand k m) as [[d p]|]; [|done].
    cbn [mbind option_bind].
    pose proof (access_evicted total now k size a (generation_of k m) p m (wf_cache _ _ _ Hwf) Hs Ht) as Hr.
    destruct (HC.record_access_with_demand _ _ _ _ _ _ _ _ _) as [c r']. destruct Hr as (ev & Er & Hev & Eu).
    pose proof (shed_demand m ev c _ Hev (torn_keys m ev c Hev)) as Hd. rewrite <- Eu, <- Er in Hd.
    destruct (teardown_all _ _ _) as [m1 ts1]. intros [= <- <- <-].
    eapply demand_ended_frame; [exact Hd|..]; unfold on_storage, train; by repeat case_match.
  - unfold sweep_expired_hosting_with_cost. pose proof (sweep_evicted total now axes m (wf_cache _ _ _ Hwf)) as He.
    destruct (HC.sweep_expired _ _ _ _ _) as [c ev]. set (x := if bool_decide (axes = []) then _ else _) in *.
    destruct x as [c' ev']. pose proof (shed_demand m ev' c' _ He (torn_keys m ev' c' He)) as Hd.
    destruct (teardown_all _ _ _) as [m1 ts1]. cbn [fst snd] in *. case_bool_decide; [done|].
    eapply demand_ended_frame; [exact Hd|..]; unfold on_storage; by case_match.
Qed.

(** ** Renewal *)

Section renewal.
(** A key is determined by its instance, and the orders enumerate the maps. *)
Hypothesis key_id_inj : forall k k', key_id k = key_id k' -> k = k'.
Hypothesis active_order_perm : forall s, active_order s ≡ₚ map fst (map_to_list s).
Hypothesis cache_order_perm : forall s, cache_order s ≡ₚ map fst (map_to_list s).

Lemma elem_of_keys {A B} `{Countable A} (s : gmap A B) x : x ∈ map fst (map_to_list s) <-> is_Some (s !! x).
Proof.
  rewrite list_elem_of_fmap. split.
  - intros ([x' v] & -> & Hv%elem_of_map_to_list). by exists v.
  - intros [v Hv]. exists (x, v). split; [done|]. by apply elem_of_map_to_list.
Qed.

Lemma elem_of_filter_bool {A} (f : A -> bool) l x : x ∈ List.filter f l <-> x ∈ l /\ f x = true.
Proof. by rewrite !list_elem_of_In, filter_In. Qed.







End renewal.

(** ** Demand is recent *)

Definition lease_until (m : HostingManager) (k : K) : option Instant := expires_at <$> active_subscriptions m !! k.
Definition registered_at (m : HostingManager) (k : K) (p : P) : option Instant :=
  downstream_subscribers m !! k ≫= fun peers => peers !! p.
Definition client_listed (m : HostingManager) (id : I) (c : C) : Prop :=
  c ∈ default ∅ (client_subscriptions m !! id).

(** The calls that start a form of demand, and those that end it. *)
Definition grants (k : K) (o : op) : bool :=
  match o with Subscribe k' | RenewLease k' => bool_decide (k' = k) | _ => false end.
Definition revokes (k : K) (o : op) : bool :=
  match o with Unsubscribe k' | ForceRenewal k' => bool_decide (k' = k) | _ => false end.
Definition registers (k : K) (p : P) (o : op) : bool :=
  match o with AddDownstream k' p' | RenewDownstream k' p' => bool_decide (k' = k /\ p' = p) | _ => false end.
Definition deregisters (k : K) (p : P) (o : op) : bool :=
  match o with
  | RemoveDownstream k' p' => bool_decide (k' = k /\ p' = p)
  | DropPhantom k' => bool_decide (k' = k)
  | _ => false
  end.
Definition joins (id : I) (c : C) (o : op) : bool :=
  match o with AddClient id' c' => bool_decide (id' = id /\ c' = c) | _ => false end.
Definition leaves (id : I) (c : C) (o : op) : bool :=
  match o with
  | RemoveClient id' c' => bool_decide (id' = id /\ c' = c)
  | DisconnectClient c' => bool_decide (c' = c)
  | _ => false
  end.

(** [m'] has no demand that [m] has not. *)
Definition no_more_demand (m m' : HostingManager) : Prop :=
  (forall k t, lease_until m' k = Some t -> lease_until m k = Some t) /\
  (forall k p t, registered_at m' k p = Some t -> registered_at m k p = Some t) /\
  (forall id c, client_listed m' id c -> client_listed m id c).

Lemma no_more_frame m m' :
  active_subscriptions m' = active_subscriptions m -> downstream_subscribers m' = downstream_subscribers m ->
  client_subscriptions m' = client_subscriptions m -> no_more_demand m m'.
Proof. unfold no_more_demand, lease_until, registered_at, client_listed. intros -> -> ->. done. Qed.

Lemma no_more_trans m1 m2 m3 : no_more_demand m1 m2 -> no_more_demand m2 m3 -> no_more_demand m1 m3.
Proof. intros (A1 & B1 & C1) (A2 & B2 & C2). split_and!; eauto. Qed.

Lemma no_more_refl m : no_more_demand m m.
Proof. by apply no_more_frame. Qed.

Lemma abandon_no_more now k m : no_more_demand m (maybe_record_abandonment now k m).
Proof. unfold maybe_record_abandonment. case_match; by apply no_more_frame. Qed.

Lemma teardown_no_more ks m out : no_more_demand m (teardown_all ks m out).1.
Proof.
  destruct (teardown_all_spec ks m out) as (Ha & Hd & Hc & _). unfold no_more_demand, lease_until, registered_at, client_listed.
  split_and!; intros *; rewrite ?Ha, ?Hd, ?Hc; case_decide; simpl; done.
Qed.

Lemma put_peers_no_more k peers live m :
  downstream_subscribers m !! k = Some peers -> live ⊆ peers -> no_more_demand m (put_peers k live m).
Proof.
  intros Hk Hs. unfold put_peers, no_more_demand, lease_until, registered_at, client_listed. cbn. split_and!; [done| |done].
  intros k' p t. case_bool_decide; (destruct (decide (k' = k)) as [->|Hne];
    [rewrite ?lookup_delete_eq, ?lookup_insert_eq|by rewrite ?lookup_delete_ne, ?lookup_insert_ne by done]); [done|].
  rewrite Hk. cbn. intros Hp. by eapply lookup_weaken.
Qed.

Lemma remove_client_listed id c m id' c' :
  client_listed (remove_client_subscription id c m).1 id' c' ->
  client_listed m id' c' /\ ~ (id' = id /\ c' = c).
Proof.
  unfold remove_client_subscription, client_listed. destruct (client_subscriptions m !! id) as [s|] eqn:Es.
  - case_bool_decide as E; cbn; (destruct (decide (id' = id)) as [->|Hne];
      [rewrite ?lookup_delete_eq, ?lookup_insert_eq, ?Es|rewrite ?lookup_delete_ne, ?lookup_insert_ne by done]); cbn.
    + by intros ?%elem_of_empty.
    + naive_solver.
    + set_solver.
    + naive_solver.
  - cbn. intros Hc. split; [done|]. intros [-> ->]. rewrite Es in Hc. by apply elem_of_empty in Hc.
Qed.

Lemma remove_client_no_more id c m : no_more_demand m (remove_client_subscription id c m).1.
Proof.
  split_and!; [| |by intros ? ? [? _]%remove_client_listed]; intros *;
    unfold remove_client_subscription, lease_until, registered_at; repeat case_match; done.
Qed.

Lemma remove_client_loop_spec now c ids acc m :
  no_more_demand m (remove_client_loop now c ids acc m).1 /\
  forall id, id ∈ ids -> ~ client_listed (remove_client_loop now c ids acc m).1 id c.
Proof.
  revert acc m. induction ids as [|id ids IH]; intros acc m; cbn [remove_client_loop].
  { split; [apply no_more_refl|]. by intros ? ?%elem_of_nil. }
  assert (Hrest : forall acc m1, no_more_demand (remove_client_subscription id c m).1 m1 ->
    no_more_demand m (remove_client_loop now c ids acc m1).1 /\
    (forall id', id' ∈ id :: ids -> ~ client_listed (remove_client_loop now c ids acc m1).1 id' c)).
  { intros acc' m1 Hm1. destruct (IH acc' m1) as [H1 H2]. split.
    - eapply no_more_trans; [apply remove_client_no_more|]. by eapply no_more_trans.
    - intros id' [->|Hin]%elem_of_cons Hl; [|by apply (H2 id' Hin)].
      apply H1, Hm1, remove_client_listed in Hl as [_ Hl]. by apply Hl. }
  case_match; apply Hrest; [apply abandon_no_more|apply no_more_refl].
Qed.

Lemma disconnect_spec now c m :
  let m' := (remove_client_from_all_subscriptions now c m).1 in
  no_more_demand m m' /\ forall id, ~ client_listed m' id c.
Proof.
  cbn zeta. unfold remove_client_from_all_subscriptions.
  destruct (remove_client_loop_spec now c (ids_with_client c m) [] m) as [Hm Hl]. split; [done|].
  intros id Hc. refine (Hl id _ Hc). apply Hm in Hc. unfold client_listed in Hc.
  destruct (client_subscriptions m !! id) as [s|] eqn:Es; [|by apply elem_of_empty in Hc].
  unfold ids_with_client. rewrite sort_by_perm. apply list_elem_of_fmap. exists (id, s). split; [done|].
  apply elem_of_filter_bool. rewrite elem_of_map_to_list. split; [done|]. by apply bool_decide_eq_true.
Qed.

Lemma expire_of_spec now k m :
  let m' := (expire_downstream_of now k m).1 in
  no_more_demand m m' /\ forall p t, registered_at m' k p = Some t -> lease_active now t = true.
Proof.
  cbn zeta. unfold expire_downstream_of. destruct (downstream_subscribers m !! k) as [peers|] eqn:Ek.
  2: { split; [apply no_more_refl|]. intros p t. unfold registered_at. cbn. by rewrite Ek. }
  set (live := live_peers now peers). cbn [fst].
  assert (Hput : no_more_demand m (put_peers k live m) /\
    forall p t, registered_at (put_peers k live m) k p = Some t -> lease_active now t = true).
  { split; [apply (put_peers_no_more k peers); [done|apply map_filter_subseteq]|].
    intros p t. unfold registered_at, put_peers. cbn. case_bool_decide.
    - by rewrite lookup_delete_eq.
    - rewrite lookup_insert_eq. cbn. unfold live, live_peers. by intros [_ Hl]%map_lookup_filter_Some. }
  destruct Hput as [H1 H2]. case_bool_decide; [|done]. split.
  - eapply no_more_trans; [exact H1|apply abandon_no_more].
  - intros p t Hr. apply (H2 p t), (abandon_no_more now k), Hr.
Qed.

Lemma expire_loop_spec now ks m out :
  let m' := (expire_downstream_loop now ks m out).1 in
  no_more_demand m m' /\ forall k p t, k ∈ ks -> registered_at m' k p = Some t -> lease_active now t = true.
Proof.
  cbn zeta. revert m out. induction ks as [|k ks IH]; intros m out; cbn [expire_downstream_loop].
  { split; [apply no_more_refl|]. by intros ? ? ? ?%elem_of_nil. }
  destruct (expire_of_spec now k m) as [H1 H2]. destruct (expire_downstream_of now k m) as [m1 o1]. cbn [fst] in *.
  match goal with |- context [expire_downstream_loop now ks m1 ?o] => destruct (IH m1 o) as [H3 H4] end.
  split; [by eapply no_more_trans|].
  intros k' p t [->|Hin]%elem_of_cons Hr; [|by eapply H4]. eapply H2. apply H3, Hr.
Qed.

Lemma reconcile_frame now n ks f acts m :
  let m' := (reconcile_loop now n ks f acts m).1 in exists ph, m' = with_phantoms ph m.
Proof.
  cbn zeta. revert f acts m. induction ks as [|k ks IH]; intros f acts m; cbn [reconcile_loop].
  { exists (phantom_repair m). by destruct m. }
  destruct (reconcile_phantom now n k f m) as [[m1 f1] a1] eqn:E.
  assert (exists ph, m1 = with_phantoms ph m) as [ph ->].
  { unfold reconcile_phantom in E.
    repeat case_match; injection E as <- _ _; eauto; exists (phantom_repair m); by destruct m. }
  destruct (IH f1 (match a1 with Some a => acts ++ [a] | None => acts end) (with_phantoms ph m)) as [ph' ->]. by exists ph'.
Qed.

Lemma drop_phantom_spec now k m :
  let m' := (drop_phantom_downstream now k m).1 in
  no_more_demand m m' /\ forall p, registered_at m' k p = None.
Proof.
  cbn zeta. unfold drop_phantom_downstream. cbn [fst].
  set (m1 := with_downstream _ m). set (n := match downstream_subscribers m !! k with Some _ => _ | None => _ end).
  assert (H1 : no_more_demand m m1).
  { unfold no_more_demand, registered_at. split_and!; [done| |done]. intros k' p t. unfold m1. cbn.
    destruct (decide (k' = k)) as [->|]; [by rewrite lookup_delete_eq|by rewrite lookup_delete_ne]. }
  set (m2 := if (0 <? n)%nat then maybe_record_abandonment now k m1 else m1).
  assert (H2 : no_more_demand m1 m2) by (unfold m2; case_match; [apply abandon_no_more|apply no_more_refl]).
  assert (H3 : no_more_demand m1 (with_phantoms (delete k (phantom_repair m2)) m2))
    by (eapply no_more_trans; [exact H2|by apply no_more_frame]).
  split; [by eapply no_more_trans|]. intros p. destruct (registered_at _ k p) as [t|] eqn:E; [|done].
  apply H3 in E. unfold registered_at, m1 in E. cbn in E. by rewrite lookup_delete_eq in E.
Qed.

Lemma access_no_more now ms k size a m m' r ts :
  record_contract_access now ms k size a m = Some (m', r, ts) -> no_more_demand m m'.
Proof.
  unfold record_contract_access. destruct (distance_and_demand k m) as [[d p]|]; [|done]. cbn [mbind option_bind].
  destruct (HC.record_access_with_demand _ _ _ _ _ _ _ _ _) as [c r1].
  pose proof (teardown_no_more (HC.evicted_in_use r1) (with_cache c m) []) as Ht.
  destruct (teardown_all _ _ _) as [m1 ts1]. intros [= <- _ _]. cbn [fst] in Ht.
  apply (no_more_trans m m1); [exact Ht|]. unfold on_storage, train. apply no_more_frame; by repeat case_match.
Qed.

Lemma sweep_no_more now axes m : no_more_demand m (sweep_expired_hosting_with_cost now axes m).1.1.
Proof.
  unfold sweep_expired_hosting_with_cost. destruct (HC.sweep_expired _ _ _ _ _) as [c ev].
  set (x := if bool_decide (axes = []) then _ else _). destruct x as [c' ev'].
  pose proof (teardown_no_more (map HC.key (List.filter HC.was_in_use ev')) (with_cache c' m) []) as Ht.
  destruct (teardown_all _ _ _) as [m1 ts1]. cbn [fst] in *.
  apply (no_more_trans m m1); [exact Ht|]. unfold on_storage. apply no_more_frame; by repeat case_match.
Qed.

Lemma complete_no_more now j k s m m' : complete_subscription_request now j k s m = Some m' -> no_more_demand m m'.
Proof.
  unfold complete_subscription_request. intros H. repeat case_match; simplify_option_eq; by apply no_more_frame.
Qed.

Lemma less_active m a :
  (forall k e, a !! k = Some e -> exists e0, active_subscriptions m !! k = Some e0 /\ expires_at e0 = expires_at e) ->
  no_more_demand m (with_active a m).
Proof.
  intros Ha. unfold no_more_demand, lease_until. split_and!; [|done..]. intros k t. cbn.
  rewrite !fmap_Some. intros (e & (e0 & H0 & E)%Ha & ->). eauto.
Qed.

Lemma tracker_no_more f m : no_more_demand m (on_tracker f m).
Proof. unfold on_tracker. apply no_more_frame; by case_match. Qed.

(** The calls that can add demand. *)
Definition starts_demand (o : op) : bool :=
  match o with
  | Subscribe _ | RenewLease _ | AddClient _ _ | AddDownstream _ _ | RenewDownstream _ _ => true
  | _ => false
  end.

Lemma step_no_more now o m m' : step now o m = Some m' -> starts_demand o = false -> no_more_demand m m'.
Proof.
  intros Hs Hd. destruct o; try done; cbn [step] in Hs; try (injection Hs as <-);
    try (by apply no_more_frame); try apply tracker_no_more.
  - apply less_active. intros k' e [_ H]%lookup_delete_Some. eauto.
  - unfold record_contract_update. case_match eqn:E; [|apply no_more_refl]. apply less_active. intros k' e'.
    intros [[<- <-]|[_ ?]]%lookup_insert_Some; eauto.
  - apply less_active. intros k' e [_ H]%lookup_delete_Some. eauto.
  - apply less_active. intros k' e [H _]%map_lookup_filter_Some. eauto.
  - apply remove_client_no_more.
  - apply disconnect_spec.
  - unfold remove_downstream_subscriber. destruct (downstream_subscribers m !! k) as [ps|] eqn:E; [|apply no_more_refl].
    case_bool_decide; [|apply no_more_refl]. eapply no_more_trans; [|apply abandon_no_more].
    apply (put_peers_no_more k ps); [done|apply delete_subseteq].
  - apply expire_loop_spec.
  - unfold reconcile_phantom_in_use.
    match goal with |- context [reconcile_loop now ?n ?ks ?f ?a ?m0] => destruct (reconcile_frame now n ks f a m0) as [ph ->] end.
    by apply no_more_frame.
  - apply drop_phantom_spec.
  - destruct (record_contract_access _ _ _ _ _ _) as [[[m1 r] ts]|] eqn:E; [|done].
    injection Hs as <-. by eapply access_no_more.
  - unfold mark_local_client_access, on_storage. apply no_more_frame; by repeat case_match.
  - unfold touch_hosting in Hs. destruct (distance_and_demand k m) as [[d p]|]; [|done]. cbn [mbind option_bind] in Hs.
    destruct (HC.touch_with_demand _ _ _ _) as [c r]. injection Hs as <-.
    unfold train. apply no_more_frame; by repeat case_match.
  - apply sweep_no_more.
  - by eapply complete_no_more.
  - unfold recompute_effective_budget. apply no_more_frame; by repeat case_match.
  - unfold seed_disk_tracker_if_absent. repeat case_match; try apply no_more_refl; apply tracker_no_more.
Qed.

Lemma lease_step now o m m' k t :
  step now o m = Some m' -> lease_until m' k = Some t ->
  (grants k o = true /\ t = now + SUBSCRIPTION_LEASE_DURATION) \/ (revokes k o = false /\ lease_until m k = Some t).
Proof.
  intros Hs Hl. destruct (starts_demand o) eqn:Es.
  - destruct o; try done; cbn [step] in Hs; injection Hs as <-; cbn [grants revokes];
      try (right; split; [done|]; revert Hl; unfold lease_until, add_downstream_subscriber, renew_downstream_subscriber;
           repeat case_match; done).
    + revert Hl. unfold subscribe, lease_until. case_match; cbn; (destruct (decide (k0 = k)) as [->|Hne];
        [rewrite lookup_insert_eq; intros [= <-]; left; split; [by apply bool_decide_eq_true|done]
        |rewrite lookup_insert_ne by done; by right]).
    + revert Hl. unfold renew_subscription, lease_until. case_match; cbn; [|by right].
      destruct (decide (k0 = k)) as [->|Hne].
      * rewrite lookup_insert_eq. intros [= <-]. left. split; [by apply bool_decide_eq_true|done].
      * rewrite lookup_insert_ne by done. by right.
  - right. split; [|by apply (step_no_more now o m m' Hs Es)].
    destruct o; try done; cbn [revokes step] in *; injection Hs as <-; apply bool_decide_eq_false; intros ->;
      revert Hl; unfold lease_until; cbn; by rewrite lookup_delete_eq.
Qed.

Lemma client_step now o m m' id c :
  step now o m = Some m' -> client_listed m' id c ->
  joins id c o = true \/ (leaves id c o = false /\ client_listed m id c).
Proof.
  intros Hs Hl. destruct (starts_demand o) eqn:Es.
  - destruct o; try done; cbn [step] in Hs; injection Hs as <-; cbn [joins leaves];
      try (right; split; [done|]; revert Hl; unfold client_listed, add_downstream_subscriber, renew_downstream_subscriber,
             subscribe, renew_subscription; repeat case_match; done).
    revert Hl. unfold client_listed, add_client_subscription. cbn. destruct (decide (id0 = id)) as [->|Hne].
    + rewrite lookup_insert_eq. cbn. rewrite elem_of_union, elem_of_singleton.
      intros [->|Hc]; [left; by apply bool_decide_eq_true|by right].
    + rewrite lookup_insert_ne by done. by right.
  - right. split; [|by apply (step_no_more now o m m' Hs Es)].
    destruct o; try done; cbn [leaves step] in *; injection Hs as <-; apply bool_decide_eq_false.
    + intros [-> ->]. apply remove_client_listed in Hl as [_ []]. done.
    + intros ->. by apply disconnect_spec in Hl.
Qed.

Lemma registered_insert m k ps k' p' :
  registered_at (with_downstream (<[k := ps]> (downstream_subscribers m)) m) k' p' =
  if decide (k = k') then ps !! p' else registered_at m k' p'.
Proof.
  unfold registered_at. cbn. case_decide as E; [subst|]; by rewrite ?lookup_insert_eq, ?lookup_insert_ne.
Qed.

Lemma register_spec now k0 p0 ps m k p t :
  default ∅ (downstream_subscribers m !! k0) = ps ->
  registered_at (with_downstream (<[k0 := <[p0 := now]> ps]> (downstream_subscribers m)) m) k p = Some t ->
  (bool_decide (k0 = k /\ p0 = p) = true /\ t = now) \/ registered_at m k p = Some t.
Proof.
  intros E. rewrite registered_insert. case_decide as Ek; [subst k0|by right].
  intros [[-> ->]|[_ H]]%lookup_insert_Some; [left; by rewrite bool_decide_eq_true|right].
  unfold registered_at. destruct (downstream_subscribers m !! k); cbn in *; by subst.
Qed.

Lemma put_peers_registered k peers m p : registered_at (put_peers k peers m) k p = peers !! p.
Proof.
  unfold put_peers, registered_at. cbn. case_bool_decide as E.
  - rewrite lookup_delete_eq, E. by rewrite lookup_empty.
  - by rewrite lookup_insert_eq.
Qed.

Lemma remove_downstream_gone now k p m : registered_at (remove_downstream_subscriber now k p m).1 k p = None.
Proof.
  destruct (registered_at _ k p) as [t|] eqn:E; [|done]. revert E. unfold remove_downstream_subscriber.
  destruct (downstream_subscribers m !! k) as [ps|] eqn:Ek; [|unfold registered_at; cbn; by rewrite Ek].
  case_bool_decide as Hp; cbn [fst].
  - intros E%abandon_no_more. by rewrite put_peers_registered, lookup_delete_eq in E.
  - unfold registered_at. rewrite Ek. cbn. intros E. destruct Hp. by exists t.
Qed.

Lemma registration_step now o m m' k p t :
  step now o m = Some m' -> registered_at m' k p = Some t ->
  (registers k p o = true /\ t = now) \/ (deregisters k p o = false /\ registered_at m k p = Some t).
Proof.
  intros Hs Hl. destruct (starts_demand o) eqn:Es.
  - destruct o; try done; cbn [step] in Hs; injection Hs as <-; cbn [registers deregisters];
      try (right; split; [done|]; revert Hl; unfold registered_at, add_client_subscription, subscribe, renew_subscription;
           repeat case_match; done).
    + revert Hl. unfold add_downstream_subscriber. case_match; cbn [fst].
      * rewrite registered_insert. unfold registered_at. case_decide; [subst|by right].
        intros Hl. right. split; [done|]. destruct (downstream_subscribers m !! k); [done|]. cbn in Hl. by rewrite lookup_empty in Hl.
      * intros [?|?]%register_spec; auto.
    + revert Hl. unfold renew_downstream_subscriber. destruct (downstream_subscribers m !! k0) as [ps|] eqn:E; [|by right].
      case_bool_decide; [|by right]. cbn [fst]. intros [?|?]%register_spec; auto. by rewrite E.
  - right. split; [|by apply (step_no_more now o m m' Hs Es)].
    destruct o; try done; cbn [deregisters step] in *; injection Hs as <-; apply bool_decide_eq_false.
    + intros [-> ->]. by rewrite remove_downstream_gone in Hl.
    + intros ->. rewrite (proj2 (drop_phantom_spec now k m)) in Hl. done.
Qed.

(** Where the demand of a manager came from. *)
Lemma demand_origin budget es m :
  run (with_time_source budget) es = Some m ->
  (forall k t, lease_until m k = Some t ->
     exists e, e ∈ since (revokes k) es /\ grants k e.2 = true /\ t = e.1 + SUBSCRIPTION_LEASE_DURATION) /\
  (forall k p t, registered_at m k p = Some t ->
     exists e, e ∈ since (deregisters k p) es /\ registers k p e.2 = true /\ t = e.1) /\
  (forall id c, client_listed m id c -> exists e, e ∈ since (leaves id c) es /\ joins id c e.2 = true).
Proof.
  revert m. induction es as [|[now o] es IH] using rev_ind; intros m Hm.
  { injection Hm as <-. split_and!; intros *; [done|done|]. unfold client_listed. cbn. by intros ?%elem_of_empty. }
  unfold run in *. rewrite foldl_app in Hm. cbn in Hm. destruct (foldl _ _ es) as [m0|]; [|done]. cbn in Hm.
  destruct (IH m0 eq_refl) as (Ha & Hd & Hc). split_and!.
  - intros k t [[Hg ->]|[Hr Hl]]%(lease_step _ _ _ _ _ _ Hm).
    + exists (now, o). split; [|done]. apply elem_of_since_snoc; [by destruct o|by right].
    + destruct (Ha k t Hl) as (e & He & H). exists e. split; [|done]. apply elem_of_since_snoc; [done|by left].
  - intros k p t [[Hg ->]|[Hr Hl]]%(registration_step _ _ _ _ _ _ _ Hm).
    + exists (now, o). split; [|done]. apply elem_of_since_snoc; [by destruct o|by right].
    + destruct (Hd k p t Hl) as (e & He & H). exists e. split; [|done]. apply elem_of_since_snoc; [done|by left].
  - intros id c [Hg|[Hr Hl]]%(client_step _ _ _ _ _ _ Hm).
    + exists (now, o). split; [|done]. apply elem_of_since_snoc; [by destruct o|by right].
    + destruct (Hc id c Hl) as (e & He & H). exists e. split; [|done]. apply elem_of_since_snoc; [done|by left].
Qed.

(** Demand has to be kept up.  In every reachable manager a live upstream lease
    goes back to a subscription or renewal of that contract less than eight minutes
    old that no unsubscription followed; and once the periodic expiry has run, a
    contract counts as in use only because of a client that subscribed to it and has
    neither unsubscribed nor disconnected since, or of a downstream peer that
    registered or renewed less than eight minutes ago and was not removed since. *)
Lemma demand_recent budget es m now k :
  run (with_time_source budget) es = Some m -> (forall s, downstream_order s ≡ₚ map fst (map_to_list s)) ->
  (is_subscribed now k m = true ->
     exists e, e ∈ since (revokes k) es /\ grants k e.2 = true /\ now < e.1 + SUBSCRIPTION_LEASE_DURATION) /\
  (contract_in_use k (expire_stale_downstream_subscribers now m).1 = true ->
     (exists c e, e ∈ since (leaves (key_id k) c) es /\ joins (key_id k) c e.2 = true) \/
     (exists p e, e ∈ since (deregisters k p) es /\ registers k p e.2 = true /\ now < e.1 + SUBSCRIPTION_LEASE_DURATION)).
Proof.
  intros Hm Hperm. destruct (demand_origin budget es m Hm) as (Ha & Hd & Hc). split.
  - unfold is_subscribed. destruct (active_subscriptions m !! k) as [l|] eqn:El; [|done]. intros Hlt.
    destruct (Ha k (expires_at l)) as (e & ? & ? & E); [unfold lease_until; by rewrite El|].
    exists e. split_and!; [done|done|]. to_props. lia.
  - unfold expire_stale_downstream_subscribers.
    destruct (expire_loop_spec now (downstream_order (downstream_subscribers m)) m []) as [Hn Hl].
    set (m' := (expire_downstream_loop _ _ _ _).1) in *.
    intros [Hu|Hu]%orb_true_iff; [left|right].
    + unfold has_client_subscriptions in Hu. destruct (client_subscriptions m' !! key_id k) as [s|] eqn:Es; [|done].
      apply negb_true_iff, bool_decide_eq_false, set_choose_L in Hu as [c Hin].
      exists c. apply Hc, Hn. unfold client_listed. by rewrite Es.
    + unfold has_downstream_subscribers in Hu. destruct (downstream_subscribers m' !! k) as [ps|] eqn:Es; [|done].
      apply negb_true_iff, bool_decide_eq_false, map_choose in Hu as (p & t & Hp).
      assert (Hr : registered_at m' k p = Some t) by (unfold registered_at; by rewrite Es).
      assert (Hk : k ∈ downstream_order (downstream_subscribers m)).
      { rewrite Hperm. apply elem_of_keys. apply Hn in Hr. unfold registered_at in Hr.
        destruct (downstream_subscribers m !! k); [by eauto|done]. }
      pose proof (Hl k p t Hk Hr) as Ht. destruct (Hd k p t (proj1 (proj2 Hn) k p t Hr)) as (e & ? & ? & ->).
      exists p, e. split_and!; [done|done|]. unfold lease_active, HC.saturating_duration_since in Ht. to_props. lia.
Qed.

(** ** Renewal follows demand *)





Section follows.
Hypothesis key_id_inj : forall k k', key_id k = key_id k' -> k = k'.
Hypothesis active_order_perm : forall s, active_order s ≡ₚ map fst (map_to_list s).
Hypothesis cache_order_perm : forall s, cache_order s ≡ₚ map fst (map_to_list s).



Hypothesis backoff_order_perm : forall b, backoff_order b ≡ₚ map_to_list b.
Hypothesis id_length : forall id, (length (id_bytes id) <= 32)%nat.

End follows.
End manager.

(** ** A small node *)

Section example.
Definition a_regression : D.IsotonicRegression unit := D.mkRegression tt (fun _ r => r) (fun _ r => r) (fun _ _ => None).
Definition no_bytes (_ : nat) : list Byte.byte := [].
Definition no_code (_ : nat) : list Z := [].
Definition keys_of {B} (s : gmap nat B) : list nat := map fst (map_to_list s).

Definition a_run := run (K:=nat) (I:=nat) (C:=nat) (P:=nat) no_bytes (fun k => k) no_code no_bytes (fun i _ => i)
  a_regression (fun x => x) keys_of keys_of map_to_list.

(** Contract 1, six bytes of a budget of ten, with a client and a lease. *)
Definition a_trace : list (Z * op (K:=nat) (I:=nat) (C:=nat) (P:=nat)) :=
  [(1, Access 100 1%nat 6 HC.Get); (2, AddClient 1%nat 7%nat); (3, Subscribe 1%nat); (4, AddDownstream 1%nat 9%nat)].
Definition a_node : HostingManager (K:=nat) (I:=nat) (C:=nat) (P:=nat) (R:=unit) :=
  default (with_time_source a_regression 10) (a_run (with_time_source a_regression 10) a_trace).

Lemma a_node_wf : wf 4 6 a_node.
Proof.
  destruct (run_wf (C:=nat) (P:=nat) no_bytes (fun k : nat => k) no_code no_bytes (fun i _ => i)
    a_regression (fun x => x) keys_of keys_of map_to_list (fun b => reflexivity _)
    (fun _ => ltac:(vm_compute; lia)) 0 0 (with_time_source a_regression 10) a_trace (manager_new_wf a_regression 0 10))
    as (m & Hm & Hwf); [done|repeat constructor; simpl; lia|vm_compute; done|].
  unfold a_node, a_run. rewrite Hm. exact Hwf.
Qed.

(** A downstream peer registers for contract 3, of which no state ever arrives: three sweeps an
    interval apart fetch it, the fourth does not. *)
Definition a_phantom : list (Z * op (K:=nat) (I:=nat) (C:=nat) (P:=nat)) :=
  (5, SetStorage (HS.mkStorage {[1%nat := 6]} ∅ false)) :: (5, AddDownstream 3%nat 9%nat) ::
  map (fun n => (10 + n * PHANTOM_REPAIR_COOLDOWN, Reconcile 4)) [0; 1; 2; 3].
Definition a_fetched : list nat := omap (fun a => match a with Fetch k => Some k | Drop _ => None end)
  (repairs no_bytes (fun k => k) no_code no_bytes (fun i _ => i) a_regression (fun x => x) keys_of keys_of map_to_list a_node a_phantom).
Example phantom_fetched_three_times : List.filter (Nat.eqb 3) a_fetched = [3; 3; 3]%nat.
Proof. vm_compute. reflexivity. Qed.


(** Hosting contract 2 evicts contract 1, which is in use. *)
Definition a_second_access := record_contract_access no_bytes (fun k : nat => k) no_code no_bytes a_regression
  (fun x => x) 5 200 2%nat 6 HC.Put a_node.

Lemma eviction_leaves_no_demand_witness :
  exists m r ts, a_second_access = Some (m, r, ts) /\ HC.evicted r = [(1%nat, 0)] /\
    contract_in_use (fun k => k) 1%nat a_node = true /\
    is_hosting_contract 1%nat m = false /\ contract_in_use (fun k => k) 1%nat m = false.
Proof.
  destruct a_second_access as [[[m r] ts]|] eqn:E; [|by vm_compute in E]. exists m, r, ts.
  assert (Er : HC.evicted r = [(1%nat, 0)]).
  { assert (H : (fun x => HC.evicted x.1.2) <$> a_second_access = Some [(1%nat, 0)]) by (vm_compute; reflexivity).
    rewrite E in H. by injection H. }
  destruct (eviction_leaves_no_demand no_bytes (fun k : nat => k) no_code no_bytes a_regression (fun x => x)
    5 6 200 2%nat 6 HC.Put [] a_node (wf_later 4 5 6 a_node ltac:(lia) a_node_wf)) as [H _]; [lia|done|].
  destruct (H m r ts E) as (He & _). rewrite Er in He. destruct (He 1%nat) as [H1 H2]; [left|].
  split_and!; try done.
Defined.


(** What decides a renewal beyond interest: contract 2 is not hosted and its client is not served;
    contract 1 is hosted, its lease has lapsed, and its only subscriber is a downstream peer;
    contract 4 has no subscriber at all and was read by a local client. *)
Definition renewals_of (es : list (Z * op (K:=nat) (I:=nat) (C:=nat) (P:=nat))) (now : Z) : option (list nat) :=
  contracts_needing_renewal (fun k => k) no_bytes keys_of keys_of now <$> a_run (with_time_source a_regression 10) es.
Example unhosted_not_renewed : renewals_of [(1, AddClient 2%nat 7%nat)] 2 = Some [].
Proof. vm_compute. reflexivity. Qed.
Example downstream_alone_not_renewed :
  renewals_of [(1, Access 100 1%nat 6 HC.Get); (2, AddDownstream 1%nat 9%nat)] 3 = Some [].
Proof. vm_compute. reflexivity. Qed.
Example local_read_renewed : renewals_of [(1, Access 100 4%nat 6 HC.Get); (2, MarkLocal 4%nat)] 3 = Some [4%nat].
Proof. vm_compute. reflexivity. Qed.

Lemma demand_recent_witness :
  is_subscribed 400 1%nat a_node = true /\
  exists e, e ∈ since (revokes 1%nat) a_trace /\ grants 1%nat e.2 = true /\ 400 < e.1 + SUBSCRIPTION_LEASE_DURATION.
Proof.
  assert (Hs : is_subscribed 400 1%nat a_node = true) by (vm_compute; reflexivity). split; [done|].
  apply (demand_recent no_bytes (fun k => k) no_code no_bytes (fun i _ => i) a_regression (fun x => x) keys_of keys_of
    map_to_list 10 a_trace a_node 400 1%nat); [|done|done].
  unfold a_node. destruct (a_run _ _) as [m|] eqn:E; [exact E|by vm_compute in E].
Defined.
End example.
End HostingManager.
