(* ===== verification/ContractStore.v ===== *)
(** * Contract code on disk

    Models [src/crates/core/src/wasm_runtime/contract_store.rs]: the WASM blobs of the
    contracts, one file per code hash, and the index from instances to code hashes.  The
    index exists twice, as a table of the database ([index], written by
    [store_contract_index] and its siblings of [contract/storages/redb.rs]) and in memory
    ([key_to_code_part]); both and the directory of blobs are shared by the executors of
    the pool.  Each executor has a code cache of its own.  [put_code] is the routing of a
    PUT between [store_contract] and [ensure_key_indexed] in
    [contract/executor/runtime/executor_impl.rs].

    Storing, indexing and removing run under the lock of the blobs, so each is one step.
    The encoding of a blob ([to_bytes_versioned], [load_versioned_from_path]) and the hash
    belong to another package and are parameters.  A call takes what the operating system
    and the database do to it as an argument.  The code cache is a third-party cache that
    may drop entries at any time, which is the step [CacheDrop].  The renaming of files
    with a legacy name at startup is left out. *)

From S2P Require Import Prelude.

Module ContractStore.

Section store.
Context {I H Code F : Type}.
Context `{eqI : EqDecision I, cntI : !Countable I, eqH : EqDecision H, cntH : !Countable H}.

(** [ContractCode::to_bytes_versioned] and [ContractCode::load_versioned_from_path]. *)
Variable to_bytes_versioned : Code -> option F.
Variable load_versioned : F -> option Code.

Record ContractKey := mkKey { id : I; code_hash : H }.

Record ContractStore := mkStore {
  files : gmap H F;
  index : gmap I H;
  key_to_code_part : gmap I H;
  contract_caches : gmap nat (gmap H Code);
}.

Definition cache_of (e : nat) (s : ContractStore) : gmap H Code := default ∅ (contract_caches s !! e).

Definition with_files (f : gmap H F) (s : ContractStore) : ContractStore :=
  mkStore f (index s) (key_to_code_part s) (contract_caches s).
Definition with_index (i m : gmap I H) (s : ContractStore) : ContractStore :=
  mkStore (files s) i m (contract_caches s).
Definition with_cache (e : nat) (c : gmap H Code) (s : ContractStore) : ContractStore :=
  mkStore (files s) (index s) (key_to_code_part s) (<[e := c]> (contract_caches s)).

Definition cache_insert (e : nat) (h : H) (c : Code) (s : ContractStore) : ContractStore :=
  with_cache e (<[h := c]> (cache_of e s)) s.

(** What happens to the creation and the writing of a file.  A write that fails leaves
    some bytes behind. *)
Inductive write_outcome := Written | CreateFails | WriteFails (left_behind : F).

(** [load_all_contract_index], when the database answers. *)
Definition new_with_shared_index (load_fails : bool) (s : ContractStore) : ContractStore :=
  if bool_decide (key_to_code_part s = ∅) then
    if load_fails then s else with_index (index s) (index s) s
  else s.

(** The process starts again: what was in memory is gone. *)
Definition restart (load_fails : bool) (s : ContractStore) : ContractStore :=
  new_with_shared_index load_fails (mkStore (files s) (index s) ∅ ∅).

Definition fetch_contract (e : nat) (k : ContractKey) (s : ContractStore) : ContractStore * option Code :=
  match key_to_code_part s !! id k with
  | None => (s, None)
  | Some indexed =>
      match cache_of e s !! code_hash k with
      | Some c => (s, Some c)
      | None =>
          match files s !! indexed ≫= load_versioned with
          | Some c => (cache_insert e indexed c s, Some c)
          | None => (s, None)
          end
      end
  end.

(** The answers are [true] for [Ok]. *)
Definition ensure_key_indexed (index_fails : bool) (k : ContractKey) (s : ContractStore) : ContractStore * bool :=
  match key_to_code_part s !! id k with
  | Some _ => (s, true)
  | None =>
      if index_fails then (s, false)
      else (with_index (<[id k := code_hash k]> (index s)) (<[id k := code_hash k]> (key_to_code_part s)) s, true)
  end.

Definition code_blob_stored (h : H) (s : ContractStore) : bool := bool_decide (is_Some (files s !! h)).

Definition store_contract (e : nat) (w : write_outcome) (index_fails : bool) (k : ContractKey) (code : Code)
    (s : ContractStore) : ContractStore * bool :=
  let h := code_hash k in
  if bool_decide (is_Some (cache_of e s !! h)) && code_blob_stored h s then ensure_key_indexed index_fails k s
  else
    match files s !! h ≫= load_versioned with
    | Some on_disk =>
        let '(s, ok) := ensure_key_indexed index_fails k s in
        if ok then (cache_insert e h on_disk s, true) else (s, false)
    | None =>
        match to_bytes_versioned code with
        | None => (s, false)
        | Some output =>
            match w with
            | CreateFails => (s, false)
            | WriteFails torn => (with_files (<[h := torn]> (files s)) s, false)
            | Written =>
                let s := with_files (<[h := output]> (files s)) s in
                if index_fails then (s, false)
                else
                  let s := with_index (<[id k := h]> (index s)) (<[id k := h]> (key_to_code_part s)) s in
                  (cache_insert e h code s, true)
            end
        end
    end.

Definition remove_contract (e : nat) (index_fails load_fails unlink_fails : bool) (k : ContractKey)
    (s : ContractStore) : ContractStore * bool :=
  let h := code_hash k in
  if index_fails then (s, false)
  else
    let s := with_index (delete (id k) (index s)) (delete (id k) (key_to_code_part s)) s in
    if load_fails then (s, false)
    else
      let code_still_referenced := existsb (fun x : I * H => bool_decide (x.2 = h)) (map_to_list (index s)) in
      if code_still_referenced then (s, true)
      else
        let s := with_cache e (delete h (cache_of e s)) s in
        if code_blob_stored h s then
          if unlink_fails then (s, false) else (with_files (delete h (files s)) s, true)
        else (s, true).

Definition code_hash_from_id (i : I) (s : ContractStore) : option H := key_to_code_part s !! i.

(** A PUT that carries the code. *)
Definition put_code (e : nat) (w : write_outcome) (index_fails : bool) (k : ContractKey) (code : Code)
    (s : ContractStore) : ContractStore * bool :=
  if negb (code_blob_stored (code_hash k) s) then store_contract e w index_fails k code s
  else ensure_key_indexed index_fails k s.

Inductive op :=
| Store (e : nat) (w : write_outcome) (index_fails : bool) (k : ContractKey) (code : Code)
| Put (e : nat) (w : write_outcome) (index_fails : bool) (k : ContractKey) (code : Code)
| Remove (e : nat) (index_fails load_fails unlink_fails : bool) (k : ContractKey)
| Fetch (e : nat) (k : ContractKey)
| CacheDrop (e : nat) (h : H)
| Restart (load_fails : bool).

Definition step (s : ContractStore) (o : op) : ContractStore :=
  match o with
  | Store e w f k c => (store_contract e w f k c s).1
  | Put e w f k c => (put_code e w f k c s).1
  | Remove e f1 f2 f3 k => (remove_contract e f1 f2 f3 k s).1
  | Fetch e k => (fetch_contract e k s).1
  | CacheDrop e h => with_cache e (delete h (cache_of e s)) s
  | Restart f => restart f s
  end.

Definition new : ContractStore := mkStore ∅ ∅ ∅ ∅.
Definition run (s : ContractStore) (os : list op) : ContractStore := foldl step s os.

(** ** What is indexed can be fetched *)

Section correct.
Variable hash : Code -> H.
(** The code hash an instance id was derived from. *)
Variable code_of : I -> H.
Hypothesis load_written : forall c f, to_bytes_versioned c = Some f -> load_versioned f = Some c.

Definition key_ok (k : ContractKey) : Prop := code_hash k = code_of (id k).

Definition whole (w : write_outcome) : Prop := match w with WriteFails _ => False | _ => True end.

(** The keys belong to the codes, and no write is torn. *)
Definition op_ok (o : op) : Prop :=
  match o with
  | Store _ w _ k c | Put _ w _ k c => key_ok k /\ hash c = code_hash k /\ whole w
  | Remove _ _ _ _ k | Fetch _ k => key_ok k
  | CacheDrop _ _ | Restart _ => True
  end.

Record inv (s : ContractStore) : Prop := {
  inv_memory : key_to_code_part s ⊆ index s;
  inv_indexed : forall i h, index s !! i = Some h -> h = code_of i /\ is_Some (files s !! h);
  inv_files : forall h f, files s !! h = Some f -> exists c, load_versioned f = Some c /\ hash c = h;
  inv_caches : forall e h c, cache_of e s !! h = Some c -> hash c = h;
}.

Lemma cache_of_insert e c s e' : cache_of e' (with_cache e c s) = if decide (e = e') then c else cache_of e' s.
Proof. unfold cache_of. cbn. case_decide as E; [subst|]; by rewrite ?lookup_insert_eq, ?lookup_insert_ne. Qed.

Lemma cache_insert_inv e h c s : inv s -> hash c = h -> inv (cache_insert e h c s).
Proof.
  intros [Hm Hi Hf Hc] Hh. split; [exact Hm|exact Hi|exact Hf|]. intros e' h' c'. unfold cache_insert. rewrite cache_of_insert.
  case_decide; [|by apply Hc]. intros [[<- <-]|[_ Hl]]%lookup_insert_Some; [done|by eapply Hc].
Qed.

Lemma cache_delete_inv e h s : inv s -> inv (with_cache e (delete h (cache_of e s)) s).
Proof.
  intros [Hm Hi Hf Hc]. split; [exact Hm|exact Hi|exact Hf|]. intros e' h' c'. rewrite cache_of_insert.
  case_decide; [|by apply Hc]. intros [_ Hl]%lookup_delete_Some. by eapply Hc.
Qed.

Lemma index_insert_inv k s :
  inv s -> key_ok k -> is_Some (files s !! code_hash k) ->
  inv (with_index (<[id k := code_hash k]> (index s)) (<[id k := code_hash k]> (key_to_code_part s)) s).
Proof.
  intros [Hm Hi Hf Hc] Hk Hs. split; [by apply insert_mono| |exact Hf|exact Hc]. intros i h. cbn.
  intros [[<- <-]|[_ Hl]]%lookup_insert_Some; [done|by apply Hi].
Qed.

Lemma index_delete_inv i s : inv s -> inv (with_index (delete i (index s)) (delete i (key_to_code_part s)) s).
Proof.
  intros [Hm Hi Hf Hc]. split; [by apply delete_mono| |exact Hf|exact Hc].
  intros j h. cbn. intros [_ Hl]%lookup_delete_Some. by apply Hi.
Qed.

Lemma file_insert_inv h c f s :
  inv s -> to_bytes_versioned c = Some f -> hash c = h -> inv (with_files (<[h := f]> (files s)) s).
Proof using load_written.
  intros [Hm Hi Hf Hc] Hw Hh. split; [exact Hm| | |exact Hc].
  - intros i h' Hl. destruct (Hi i h' Hl) as [-> Hs]. split; [done|]. cbn. destruct (decide (h = code_of i)) as [<-|].
    + rewrite lookup_insert_eq. eauto.
    + by rewrite lookup_insert_ne.
  - intros h' f'. cbn. intros [[<- <-]|[_ Hl]]%lookup_insert_Some; [|by apply Hf]. exists c. split; [|done].
    by apply load_written.
Qed.

(** Unlinking the blob of a code nothing in the database refers to. *)
Lemma file_delete_inv h s :
  inv s -> (forall i, index s !! i <> Some h) -> inv (with_files (delete h (files s)) s).
Proof.
  intros [Hm Hi Hf Hc] Hn. split; [exact Hm| | |exact Hc].
  - intros i h' Hl. destruct (Hi i h' Hl) as [E Hs]. split; [done|]. cbn. rewrite lookup_delete_ne; [done|].
    intros <-. by apply (Hn i).
  - intros h' f'. cbn. intros [_ Hl]%lookup_delete_Some. by apply Hf.
Qed.

Lemma ensure_inv f k s :
  inv s -> key_ok k -> is_Some (files s !! code_hash k) -> inv (ensure_key_indexed f k s).1.
Proof. intros Hs Hk Hf. unfold ensure_key_indexed. case_match; [done|]. case_match; [done|]. by apply index_insert_inv. Qed.

Lemma store_inv e w f k c s :
  inv s -> key_ok k -> hash c = code_hash k -> whole w -> inv (store_contract e w f k c s).1.
Proof using load_written.
  intros Hs Hk Hc Hw. unfold store_contract, code_blob_stored. case_match eqn:E1.
  { apply andb_true_iff in E1 as [_ E1%bool_decide_eq_true]. by apply ensure_inv. }
  destruct (files s !! code_hash k ≫= load_versioned) as [d|] eqn:E2.
  - apply bind_Some in E2 as (fl & E2 & El).
    pose proof (ensure_inv f k s Hs Hk (mk_is_Some _ _ E2)) as He. destruct (ensure_key_indexed f k s) as [s1 ok].
    destruct ok; [|done]. apply cache_insert_inv; [done|].
    destruct (inv_files _ Hs _ _ E2) as (c' & El' & <-). congruence.
  - destruct (to_bytes_versioned c) as [o|] eqn:Eo; [|done]. destruct w; [|done|done].
    assert (H1 : inv (with_files (<[code_hash k := o]> (files s)) s)) by (by apply (file_insert_inv _ c)).
    destruct f; [done|]. apply cache_insert_inv; [|done].
    apply (index_insert_inv k _ H1 Hk). cbn. rewrite lookup_insert_eq. eauto.
Qed.

Lemma remove_inv e f1 f2 f3 k s : inv s -> inv (remove_contract e f1 f2 f3 k s).1.
Proof.
  intros Hs. unfold remove_contract. destruct f1; [done|].
  pose proof (index_delete_inv (id k) s Hs) as H1. set (s1 := with_index _ _ s) in *. destruct f2; [done|].
  destruct (existsb _ _) eqn:Er; [done|]. pose proof (cache_delete_inv e (code_hash k) s1 H1) as H2.
  set (s2 := with_cache _ _ s1) in *. case_match; [|done]. destruct f3; [done|]. apply file_delete_inv; [done|].
  intros i Hi. apply not_true_iff_false in Er. apply Er, existsb_exists. exists (i, code_hash k).
  split; [|by apply bool_decide_eq_true]. by apply list_elem_of_In, elem_of_map_to_list.
Qed.

Lemma fetch_spec e k s :
  inv s -> key_ok k ->
  inv (fetch_contract e k s).1 /\
  match code_hash_from_id (id k) s with
  | Some h => h = code_hash k /\ exists c, (fetch_contract e k s).2 = Some c /\ hash c = h
  | None => (fetch_contract e k s).2 = None
  end.
Proof.
  intros Hs Hk. unfold fetch_contract, code_hash_from_id. destruct (key_to_code_part s !! id k) as [h|] eqn:Ei; [|done].
  destruct (inv_indexed _ Hs (id k) h) as [-> [fl Hf]]; [by eapply lookup_weaken, (inv_memory _ Hs)|].
  rewrite <- Hk in *. destruct (cache_of e s !! code_hash k) as [c|] eqn:Ec.
  - split; [done|]. split; [done|]. exists c. split; [done|]. by apply (inv_caches _ Hs e).
  - destruct (inv_files _ Hs _ _ Hf) as (c & El & Eh). rewrite Hf. cbn. rewrite El. split; [by apply cache_insert_inv|].
    split; [done|]. by exists c.
Qed.

Lemma code_step_inv s o : op_ok o -> inv s -> inv (step s o).
Proof using load_written.
  intros Ho Hs. destruct o; cbn [op_ok step] in *.
  - destruct Ho as (? & ? & ?). by apply store_inv.
  - destruct Ho as (? & ? & ?). unfold put_code. case_match eqn:E; [by apply store_inv|].
    apply ensure_inv; [done|done|]. by apply negb_false_iff, bool_decide_eq_true in E.
  - by apply remove_inv.
  - by apply fetch_spec.
  - by apply cache_delete_inv.
  - unfold restart, new_with_shared_index. cbn. destruct Hs as [_ Hi Hf _].
    destruct load_fails; split; try done; cbn; try apply map_empty_subseteq; intros ? ? ?; unfold cache_of; cbn; by rewrite lookup_empty.
Qed.

(** C13: the code of an instance is served exactly as long as the instance is indexed, by
    every executor alike.  After any sequence of stores, PUTs, removals, fetches, cache
    drops and restarts on any executors, whatever database, create and unlink failures
    they meet (only a write of a blob is not torn), a fetch by any executor of an indexed
    instance returns code with the right hash, and a fetch of any other instance returns
    nothing: removing an instance neither takes the shared blob from the others nor
    leaves a copy behind in another executor's cache. *)
Theorem code_served os e k :
  Forall op_ok os -> key_ok k ->
  match code_hash_from_id (id k) (run new os) with
  | Some h => h = code_hash k /\ exists c, (fetch_contract e k (run new os)).2 = Some c /\ hash c = h
  | None => (fetch_contract e k (run new os)).2 = None
  end.
Proof using load_written.
  intros Hos Hk. apply fetch_spec; [|done]. unfold run.
  assert (Hn : inv new) by (split; try done; intros ? ? ?; unfold cache_of; cbn; by rewrite lookup_empty).
  revert Hn. generalize new. induction Hos as [|o os Ho _ IH]; intros s Hs; [done|]. apply IH. by apply code_step_inv.
Qed.

(** A successful PUT indexes the instance, a successful removal takes it out, and
    neither touches another instance. *)
Lemma index_follows_calls e w f f1 f2 f3 k c s :
  ((put_code e w f k c s).2 = true -> is_Some (code_hash_from_id (id k) (put_code e w f k c s).1)) /\
  ((remove_contract e f1 f2 f3 k s).2 = true -> code_hash_from_id (id k) (remove_contract e f1 f2 f3 k s).1 = None) /\
  (forall i, i <> id k ->
     code_hash_from_id i (put_code e w f k c s).1 = code_hash_from_id i s /\
     code_hash_from_id i (remove_contract e f1 f2 f3 k s).1 = code_hash_from_id i s).
Proof.
  assert (He : forall s, ((ensure_key_indexed f k s).2 = true -> is_Some (code_hash_from_id (id k) (ensure_key_indexed f k s).1)) /\
    forall i, i <> id k -> code_hash_from_id i (ensure_key_indexed f k s).1 = code_hash_from_id i s).
  { intros s0. unfold ensure_key_indexed, code_hash_from_id. destruct (key_to_code_part s0 !! id k) eqn:E.
    - split; [|done]. intros _. cbn. rewrite E. eauto.
    - destruct f; [done|]. cbn. rewrite lookup_insert_eq. split; [by eauto|]. intros i Hi. by rewrite lookup_insert_ne. }
  assert (Hp : ((put_code e w f k c s).2 = true -> is_Some (code_hash_from_id (id k) (put_code e w f k c s).1)) /\
    forall i, i <> id k -> code_hash_from_id i (put_code e w f k c s).1 = code_hash_from_id i s).
  { unfold put_code, store_contract, code_blob_stored. specialize (He s). destruct (bool_decide (is_Some (files s !! code_hash k))) eqn:Eb;
      [exact He|]. cbn [negb]. rewrite andb_false_r. apply bool_decide_eq_false, eq_None_not_Some in Eb. rewrite Eb. cbn [mbind option_bind].
    destruct (to_bytes_versioned c); [|done]. destruct w; [|done|done]. destruct f; [done|].
    unfold code_hash_from_id. cbn. rewrite lookup_insert_eq. split; [by eauto|]. intros i Hi. by rewrite lookup_insert_ne. }
  assert (Hr : ((remove_contract e f1 f2 f3 k s).2 = true -> code_hash_from_id (id k) (remove_contract e f1 f2 f3 k s).1 = None) /\
    forall i, i <> id k -> code_hash_from_id i (remove_contract e f1 f2 f3 k s).1 = code_hash_from_id i s).
  { unfold remove_contract, code_hash_from_id. destruct f1; [done|]. destruct f2; [|case_match; [|case_match; [destruct f3|]]];
      cbn; rewrite lookup_delete_eq; (split; [done|]); intros i Hi; by rewrite lookup_delete_ne. }
  split_and!; [apply Hp|apply Hr|]. intros i Hi. split; [by apply Hp|by apply Hr].
Qed.
End correct.
End store.

(** ** Instances 1 and 2 share a code *)

Section example.
Definition shared : ContractKey (I:=nat) (H:=nat) := mkKey 1%nat 7%nat.
Definition other : ContractKey (I:=nat) (H:=nat) := mkKey 2%nat 7%nat.
Definition one_code (_ : nat) : nat := 7%nat.

(** Stored by executor 0, then put by executor 1 with other parameters, then removed. *)
Definition shared_run : list (op (I:=nat) (H:=nat) (Code:=nat) (F:=nat)) :=
  [Store 0 Written false shared 7; Put 1 Written false other 7; Fetch 1 other; Remove 0 false false false shared]%nat.

Definition shared_store : ContractStore (I:=nat) (H:=nat) (Code:=nat) (F:=nat) := run Some Some new shared_run.

Lemma code_served_witness :
  code_hash_from_id 2%nat shared_store = Some 7%nat /\ code_hash_from_id 1%nat shared_store = None /\
  (exists c, (fetch_contract Some 2%nat other shared_store).2 = Some c /\ c = 7%nat) /\
  (fetch_contract Some 1%nat shared shared_store).2 = None.
Proof.
  assert (E2 : code_hash_from_id 2%nat shared_store = Some 7%nat) by (vm_compute; reflexivity).
  assert (E1 : code_hash_from_id 1%nat shared_store = None) by (vm_compute; reflexivity).
  assert (Hok : Forall (op_ok (fun c => c) one_code) shared_run) by (repeat apply Forall_cons_2; try apply Forall_nil_2; done).
  assert (Hl : forall c f : nat, Some c = Some f -> Some f = Some c) by congruence.
  pose proof (code_served Some Some (fun c => c) one_code Hl shared_run 2%nat other Hok eq_refl) as H2.
  pose proof (code_served Some Some (fun c => c) one_code Hl shared_run 1%nat shared Hok eq_refl) as H1.
  fold shared_store in H1, H2. cbn [id other shared] in H1, H2. rewrite E2 in H2. rewrite E1 in H1. destruct H2 as [_ H2].
  split_and!; [exact E2|exact E1|exact H2|exact H1].
Defined.

(** A blob whose write failed half-way is taken for the code by every later PUT: it is
    indexed, answered with success, and can never be loaded. *)
Example torn_blob_is_never_repaired :
  let load f := if decide (f = 0)%nat then None else Some f in
  let s := run Some load new [Put 0 (WriteFails 0) false shared 7]%nat in
  (put_code Some load 0%nat Written false shared 7%nat s).2 = true /\
  (fetch_contract load 0%nat shared (put_code Some load 0%nat Written false shared 7%nat s).1).2 = None.
Proof. by vm_compute. Qed.
End example.
End ContractStore.
