(* ===== verification/ByteBoundedLru.v ===== *)
(** * The summary and delta caches of an executor

    Models [ByteBoundedLruCache] of [src/crates/core/src/contract/executor.rs] and the
    functions that size it.  It wraps the [lru] package, of which it uses the operations
    of [LruCache]; their documented behaviour is the class [LruLaws], in terms of the
    entries from the least to the most recently used.  The list instance at the end shows
    that the laws can be met. *)

From S2P Require Import Prelude.

Module ByteBoundedLru.

Definition remove_key {K V} `{EqDecision K} (k : K) (l : list (K * V)) : list (K * V) :=
  List.filter (fun x => negb (bool_decide (x.1 = k))) l.
Definition value_of {K V} `{EqDecision K} (k : K) (l : list (K * V)) : option V :=
  snd <$> find (fun x => bool_decide (x.1 = k)) l.

Lemma remove_not_in {K V} `{EqDecision K} (k : K) (l : list (K * V)) : k ∉ map fst l -> remove_key k l = l.
Proof.
  unfold remove_key. induction l as [|x l IH]; [done|]. cbn. intros [Hne Hk]%not_elem_of_cons.
  rewrite bool_decide_eq_false_2 by congruence. cbn. by rewrite IH.
Qed.

(** The operations of [lru::LruCache]. *)
Class LruCache (K V L : Type) := {
  lru_new : nat -> L;
  lru_entries : L -> list (K * V);
  lru_cap : L -> nat;
  lru_get : K -> L -> L * option V;
  lru_push : K -> V -> L -> L * option (K * V);
  lru_pop : L -> L * option (K * V);
  lru_resize : nat -> L -> L;
}.

(** [lru_ok] is the invariant of the package. *)
Class LruLaws (K V L : Type) `{EqDecision K} `{!LruCache K V L} := {
  lru_ok : L -> Prop;
  ok_new : forall n, (0 < n)%nat -> lru_ok (lru_new n) /\ lru_entries (lru_new n) = [] /\ lru_cap (lru_new n) = n;
  ok_keys : forall l, lru_ok l -> NoDup (map fst (lru_entries l)) /\ (length (lru_entries l) <= lru_cap l)%nat;
  ok_get : forall k l, lru_ok l ->
    lru_ok (lru_get k l).1 /\ lru_cap (lru_get k l).1 = lru_cap l /\
    (lru_get k l).2 = value_of k (lru_entries l) /\
    lru_entries (lru_get k l).1 =
      match value_of k (lru_entries l) with
      | Some v => remove_key k (lru_entries l) ++ [(k, v)]
      | None => lru_entries l
      end;
  ok_push : forall k v l, lru_ok l ->
    lru_ok (lru_push k v l).1 /\ lru_cap (lru_push k v l).1 = lru_cap l /\
    match value_of k (lru_entries l) with
    | Some old => (lru_push k v l).2 = Some (k, old) /\
                  lru_entries (lru_push k v l).1 = remove_key k (lru_entries l) ++ [(k, v)]
    | None =>
        if (length (lru_entries l) <? lru_cap l)%nat
        then (lru_push k v l).2 = None /\ lru_entries (lru_push k v l).1 = lru_entries l ++ [(k, v)]
        else (lru_push k v l).2 = head (lru_entries l) /\
             lru_entries (lru_push k v l).1 = tail (lru_entries l) ++ [(k, v)]
    end;
  ok_pop : forall l, lru_ok l ->
    lru_ok (lru_pop l).1 /\ lru_cap (lru_pop l).1 = lru_cap l /\ (lru_pop l).2 = head (lru_entries l) /\
    lru_entries (lru_pop l).1 = tail (lru_entries l);
  ok_resize : forall n l, lru_ok l -> (lru_cap l <= n)%nat ->
    lru_ok (lru_resize n l) /\ lru_cap (lru_resize n l) = n /\ lru_entries (lru_resize n l) = lru_entries l;
}.

(** ** Sizing *)

Definition SUMMARY_CACHE_COUNT_MIN : Z := 1024.
Definition SUMMARY_CACHE_COUNT_MARGIN : Z := 256.
Definition SUMMARY_CACHE_COUNT_MAX : Z := 65536.
Definition CACHE_ENTRY_OVERHEAD_BYTES : Z := 512.
Definition SUMMARY_CACHE_RAM_DIVISOR : Z := 64.
Definition SUMMARY_CACHE_MIN_BYTES : Z := 16 * 1024 * 1024.
Definition SUMMARY_CACHE_MAX_BYTES : Z := 32 * 1024 * 1024.
Definition DELTA_CACHE_RAM_DIVISOR : Z := 16.
Definition DELTA_CACHE_MIN_BYTES : Z := 8 * 1024 * 1024.
Definition DELTA_CACHE_MAX_BYTES : Z := 64 * 1024 * 1024.
Definition SUMMARY_CACHE_FALLBACK_TOTAL_RAM_BYTES : Z := 1024 * 1024 * 1024.

Definition clamp (lo hi x : Z) : Z := Z.max lo (Z.min hi x).
Definition next_power_of_two (x : Z) : Z := 2 ^ Z.log2_up x.

Definition summary_cache_count_target (hosted : Z) : Z :=
  Z.min (next_power_of_two (clamp SUMMARY_CACHE_COUNT_MIN SUMMARY_CACHE_COUNT_MAX
                              (sat_add64 hosted SUMMARY_CACHE_COUNT_MARGIN))) SUMMARY_CACHE_COUNT_MAX.

(** [total_ram] is what the operating system answers. *)
Definition summary_cache_budget_bytes (total_ram : option Z) : Z :=
  clamp SUMMARY_CACHE_MIN_BYTES SUMMARY_CACHE_MAX_BYTES
    (default SUMMARY_CACHE_FALLBACK_TOTAL_RAM_BYTES total_ram / SUMMARY_CACHE_RAM_DIVISOR).
Definition delta_cache_budget_bytes (total_ram : option Z) : Z :=
  clamp DELTA_CACHE_MIN_BYTES DELTA_CACHE_MAX_BYTES
    (default SUMMARY_CACHE_FALLBACK_TOTAL_RAM_BYTES total_ram / DELTA_CACHE_RAM_DIVISOR).

(** ** The cache *)

Section cache.
Context {K V L : Type} `{eqK : EqDecision K} `{lru : !LruCache K V L}.
Variable weigh : V -> Z.

Record ByteBoundedLruCache := mkCache { inner : L; total_bytes : Z; byte_budget : Z }.

Definition new (count_cap : nat) (budget : Z) : ByteBoundedLruCache :=
  mkCache (lru_new count_cap) 0 (Z.max budget 1).

Definition entry_weight (v : V) : Z := sat_add64 (weigh v) CACHE_ENTRY_OVERHEAD_BYTES.

Definition get (k : K) (c : ByteBoundedLruCache) : ByteBoundedLruCache * option V :=
  let '(l, v) := lru_get k (inner c) in (mkCache l (total_bytes c) (byte_budget c), v).

(** [fuel] is the number of entries, of which every turn takes one. *)
Fixpoint evict_loop (fuel : nat) (c : ByteBoundedLruCache) : ByteBoundedLruCache :=
  match fuel with
  | O => c
  | S fuel =>
      if (byte_budget c <? total_bytes c) && (1 <? length (lru_entries (inner c)))%nat then
        match lru_pop (inner c) with
        | (l, Some (_, evicted)) =>
            evict_loop fuel (mkCache l (sat_sub (total_bytes c) (entry_weight evicted)) (byte_budget c))
        | (l, None) => mkCache l (total_bytes c) (byte_budget c)
        end
      else c
  end.

Definition put (k : K) (v : V) (c : ByteBoundedLruCache) : ByteBoundedLruCache :=
  let added := entry_weight v in
  if byte_budget c <? added then c
  else
    let '(l, displaced) := lru_push k v (inner c) in
    let total := match displaced with
                 | Some (_, d) => sat_sub (total_bytes c) (entry_weight d)
                 | None => total_bytes c
                 end in
    let c := mkCache l (sat_add64 total added) (byte_budget c) in
    evict_loop (length (lru_entries (inner c))) c.

Definition cap (c : ByteBoundedLruCache) : nat := lru_cap (inner c).

Definition grow (n : nat) (c : ByteBoundedLruCache) : ByteBoundedLruCache :=
  if (n <=? cap c)%nat then c else mkCache (lru_resize n (inner c)) (total_bytes c) (byte_budget c).

(** What [ensure_cache_covers_hosted_set] does to each of the two caches. *)
Definition cover_hosted (hosted : Z) (c : ByteBoundedLruCache) : ByteBoundedLruCache :=
  let needed := Z.to_nat (summary_cache_count_target hosted) in
  if (cap c <? needed)%nat then grow needed c else c.

Inductive op := Get (k : K) | Put (k : K) (v : V) | CoverHosted (hosted : Z).

Definition step (c : ByteBoundedLruCache) (o : op) : ByteBoundedLruCache :=
  match o with Get k => (get k c).1 | Put k v => put k v c | CoverHosted n => cover_hosted n c end.
Definition run (c : ByteBoundedLruCache) (os : list op) : ByteBoundedLruCache := foldl step c os.

(** ** Bounds *)

Section correct.
Context `{laws : !LruLaws K V L}.
Hypothesis weigh_nonneg : forall v, 0 <= weigh v.

Definition entries (c : ByteBoundedLruCache) : list (K * V) := lru_entries (inner c).
Definition weight (l : list (K * V)) : Z := sumZ (fun x => entry_weight x.2) l.

Record ok (c : ByteBoundedLruCache) : Prop := {
  ok_inner : lru_ok (inner c);
  ok_total : total_bytes c = weight (entries c);
  ok_budget : weight (entries c) <= byte_budget c;
  ok_range : 2 * byte_budget c <= u64_max;
}.

Lemma entry_weight_pos v : 0 < entry_weight v.
Proof using weigh_nonneg. unfold entry_weight. pose proof (weigh_nonneg v). unfold CACHE_ENTRY_OVERHEAD_BYTES. int_lia. Qed.

Lemma entry_weight_nonneg l : 0 <= weight l.
Proof using weigh_nonneg. apply sumZ_nonneg. intros x _. pose proof (entry_weight_pos x.2). lia. Qed.

Lemma weight_remove k l v :
  NoDup (map fst l) -> value_of k l = Some v -> weight l = weight (remove_key k l) + entry_weight v.
Proof.
  unfold value_of, weight. induction l as [|[k' v'] l IH]; intros Hn Hv; [done|]. apply NoDup_cons in Hn as [Hk Hn].
  unfold remove_key in *. cbn [List.filter find fst snd map] in *. rewrite sumZ_cons.
  case_bool_decide as E; cbn [negb] in *.
  - injection Hv as <-. subst k'. cbn [snd]. pose proof (remove_not_in k l Hk) as Hr. unfold remove_key in Hr. rewrite Hr. lia.
  - rewrite sumZ_cons. cbn [snd]. rewrite (IH Hn Hv). lia.
Qed.

Lemma remove_absent k (l : list (K * V)) : value_of k l = None -> remove_key k l = l.
Proof.
  unfold value_of, remove_key. induction l as [|x l IH]; [done|]. cbn. case_bool_decide; [done|]. cbn. intros Hn. by rewrite IH.
Qed.

(** The byte backstop: it takes the least recently used entries, no more than it has to. *)
Lemma lru_evict_spec fuel c pre x :
  lru_ok (inner c) -> entries c = pre ++ [x] -> total_bytes c = weight (entries c) -> (length pre <= fuel)%nat ->
  entry_weight x.2 <= byte_budget c ->
  exists n, (n <= length pre)%nat /\
    lru_ok (inner (evict_loop fuel c)) /\ entries (evict_loop fuel c) = drop n (entries c) /\
    total_bytes (evict_loop fuel c) = weight (entries (evict_loop fuel c)) /\
    weight (entries (evict_loop fuel c)) <= byte_budget c /\ byte_budget (evict_loop fuel c) = byte_budget c /\
    cap (evict_loop fuel c) = cap c /\
    (forall j, (j < n)%nat -> byte_budget c < weight (drop j (entries c))).
Proof using weigh_nonneg laws.
  revert c pre. induction fuel as [|fuel IH]; intros c pre Hok He Ht Hf Hx.
  - destruct pre; [|simpl in Hf; lia]. exists 0%nat. cbn [evict_loop]. rewrite drop_0. rewrite He in *.
    split_and!; try done; [|lia]. unfold weight. rewrite app_nil_l, sumZ_cons, sumZ_nil. lia.
  - cbn [evict_loop]. fold (entries c). destruct ((byte_budget c <? total_bytes c) && (1 <? length (entries c))%nat) eqn:Eg.
    + apply andb_true_iff in Eg as [Eb El]. destruct pre as [|y pre]; [rewrite He in El; done|].
      destruct (ok_pop _ Hok) as (Hok' & Hc' & Hp & Hl). fold (entries c) in Hp, Hl. rewrite He in Hp, Hl. cbn in Hp, Hl.
      destruct (lru_pop (inner c)) as [l [[ky vy]|]] eqn:Epop; [|done]. cbn [fst snd] in *. injection Hp as <-.
      set (c' := mkCache _ _ _).
      assert (Hw : weight (entries c) = entry_weight vy + weight (entries c')).
      { unfold entries at 2. cbn [inner c']. rewrite Hl, He. unfold weight. cbn [app]. by rewrite sumZ_cons. }
      pose proof (entry_weight_nonneg (entries c')). pose proof (entry_weight_pos vy).
      destruct (IH c' pre) as (n & Hn & H1 & H2 & H3 & H4 & H5 & H6 & H7); [done|exact Hl| |simpl in Hf; lia|done|].
      { cbn [total_bytes c']. rewrite Ht. unfold sat_sub. lia. }
      exists (S n). assert (Hd : forall j, drop (S j) (entries c) = drop j (entries c')).
      { intros j. unfold entries at 2. cbn [inner c']. rewrite Hl, He. done. }
      split_and!; try done; [simpl; lia|by rewrite Hd|by unfold cap in *; rewrite H6|].
      intros [|j] Hj; [rewrite drop_0; to_props; lia|]. rewrite Hd. apply H7. lia.
    + exists 0%nat. rewrite drop_0. split_and!; try done; [lia| |lia].
      apply andb_false_iff in Eg as [Eb|El]; [to_props; lia|].
      rewrite He in *. rewrite length_app in El. simpl in El. destruct pre; [|apply Nat.ltb_ge in El; simpl in El; lia].
      unfold weight. rewrite app_nil_l, sumZ_cons, sumZ_nil. lia.
Qed.

(** The entries a new one joins: the old value of the key goes, and the least recently
    used entry when the cache is full. *)
Definition makes_room (k : K) (c : ByteBoundedLruCache) : list (K * V) :=
  if bool_decide (is_Some (value_of k (entries c))) || (length (entries c) <? cap c)%nat
  then remove_key k (entries c) else tail (entries c).

Lemma put_spec k v c :
  ok c -> entry_weight v <= byte_budget c ->
  exists n, (n <= length (makes_room k c))%nat /\ ok (put k v c) /\
    entries (put k v c) = drop n (makes_room k c) ++ [(k, v)] /\
    byte_budget (put k v c) = byte_budget c /\ cap (put k v c) = cap c /\
    (forall j, (j < n)%nat -> byte_budget c < weight (drop j (makes_room k c) ++ [(k, v)])).
Proof using weigh_nonneg laws.
  intros [Hok Ht Hb Hr] Hv. unfold put. rewrite (proj2 (Z.ltb_ge _ _)) by done.
  destruct (ok_push k v _ Hok) as (Hok' & Hcap & Hp). destruct (ok_keys _ Hok) as [Hnd _].
  destruct (lru_push k v (inner c)) as [l displaced]. cbn [fst snd] in *. fold (entries c) in Hp, Hnd.
  set (total := match displaced with Some _ => _ | None => _ end).
  assert (Hroom : lru_entries l = makes_room k c ++ [(k, v)] /\ total = weight (makes_room k c) /\
                  weight (makes_room k c) <= weight (entries c)).
  { unfold makes_room, total. pose proof (entry_weight_nonneg (remove_key k (entries c))).
    destruct (value_of k (entries c)) as [old|] eqn:Eo.
    - destruct Hp as [-> ->]. rewrite bool_decide_eq_true_2 by eauto. cbn [orb]. rewrite Ht.
      rewrite (weight_remove k _ old Hnd Eo). pose proof (entry_weight_pos old). unfold sat_sub. split_and!; [done|lia|lia].
    - rewrite bool_decide_eq_false_2 by (intros [? ?]; done). cbn [orb]. unfold cap. fold (entries c) in *.
      destruct (length (entries c) <? lru_cap (inner c))%nat.
      + destruct Hp as [-> ->]. rewrite remove_absent by done. done.
      + destruct Hp as [-> ->]. destruct (entries c) as [|[k0 v0] es] eqn:Ee; [done|]. cbn [head tail].
        rewrite Ht. unfold weight. rewrite sumZ_cons. cbn [snd]. pose proof (entry_weight_pos v0).
        pose proof (entry_weight_nonneg es). unfold weight in *. unfold sat_sub. split_and!; [done|lia|lia]. }
  destruct Hroom as (El & Etot & Hle). set (c' := mkCache l (sat_add64 total (entry_weight v)) (byte_budget c)).
  pose proof (entry_weight_nonneg (makes_room k c)). pose proof (entry_weight_pos v).
  assert (Hw : weight (entries c') = weight (makes_room k c) + entry_weight v).
  { unfold entries. cbn [inner c']. rewrite El. unfold weight. rewrite sumZ_app, sumZ_cons, sumZ_nil. cbn [snd]. lia. }
  destruct (lru_evict_spec (length (lru_entries (inner c'))) c' (makes_room k c) (k, v))
    as (n & Hn & H1 & H2 & H3 & H4 & H5 & H6 & H7); [done|done| | |done|].
  { rewrite Hw. cbn [total_bytes c']. rewrite Etot. unfold sat_add64. lia. }
  { cbn [inner c']. rewrite El, length_app. lia. }
  assert (Hd : forall j, (j <= length (makes_room k c))%nat -> drop j (entries c') = drop j (makes_room k c) ++ [(k, v)]).
  { intros j Hj. unfold entries. cbn [inner c']. by rewrite El, drop_app_le. }
  exists n. split_and!; [done| |by rewrite H2, Hd|done|by unfold cap in *; rewrite H6|].
  - split; [done|done|by rewrite H5|by rewrite H5].
  - intros j Hj. rewrite <- Hd by lia. by apply H7.
Qed.

Lemma get_ok k c : ok c -> ok (get k c).1.
Proof using laws.
  intros [Hok Ht Hb Hr]. unfold get. destruct (ok_get k _ Hok) as (Hok' & _ & _ & He). destruct (ok_keys _ Hok) as [Hnd _].
  destruct (lru_get k (inner c)) as [l v]. cbn [fst] in *.
  assert (Hw : weight (lru_entries l) = weight (entries c)).
  { rewrite He. fold (entries c). destruct (value_of k (entries c)) as [v'|] eqn:Ev; [|done].
    rewrite (weight_remove k (entries c) v' Hnd Ev). unfold weight. rewrite sumZ_app, sumZ_cons, sumZ_nil. cbn [snd]. lia. }
  split; unfold entries; cbn [inner total_bytes byte_budget]; [done|by rewrite Hw|by rewrite Hw|done].
Qed.

Lemma cover_ok n c : ok c -> ok (cover_hosted n c) /\ entries (cover_hosted n c) = entries c.
Proof using laws.
  intros Hc. unfold cover_hosted, grow, cap. case_match eqn:E1; [|done]. case_match eqn:E2; [done|].
  apply Nat.leb_gt in E2. destruct (ok_resize (Z.to_nat (summary_cache_count_target n)) _ (ok_inner _ Hc)) as (Hok & _ & He); [lia|].
  destruct Hc as [_ Ht Hb Hr]. split; [split|]; unfold entries in *; cbn [inner total_bytes byte_budget]; by rewrite ?He.
Qed.

Lemma step_ok c o : ok c -> ok (step c o).
Proof using weigh_nonneg laws.
  intros Hc. destruct o; cbn [step]; [by apply get_ok| |by apply cover_ok].
  destruct (Z.leb_spec (entry_weight v) (byte_budget c)) as [Hv|Hv].
  - by destruct (put_spec k v c Hc Hv) as (n & _ & ? & _).
  - unfold put. by rewrite (proj2 (Z.ltb_lt _ _)).
Qed.

Lemma lru_run_ok n budget os :
  (0 < n)%nat -> 2 * Z.max budget 1 <= u64_max -> ok (run (new n budget) os).
Proof using weigh_nonneg laws.
  intros Hn Hb. assert (Hnew : ok (new n budget)).
  { destruct (ok_new n Hn) as (Hok & He & _). split; unfold entries, weight; cbn [new inner total_bytes byte_budget];
      rewrite ?He, ?sumZ_nil; [done|done|lia|done]. }
  unfold run. revert Hnew. generalize (new n budget). induction os as [|o os IH]; intros c Hc; [done|]. apply IH. by apply step_ok.
Qed.

(** C26: the caches of summaries and deltas stay within their byte budget whatever the
    contracts produce.  After any sequence of look-ups, insertions and resizings, the
    running total is exactly the weight of the entries held, that weight is at most the
    budget, and there are at most as many entries as the count limit, one per key. *)
Theorem cache_within_budget n budget os :
  (0 < n)%nat -> 2 * Z.max budget 1 <= u64_max ->
  let c := run (new n budget) os in
  total_bytes c = weight (entries c) /\ total_bytes c <= byte_budget c /\
  (length (entries c) <= cap c)%nat /\ NoDup (map fst (entries c)).
Proof using weigh_nonneg laws.
  intros Hn Hb c. destruct (lru_run_ok n budget os Hn Hb) as [Hok Ht Hw _]. fold c in Hok, Ht, Hw.
  destruct (ok_keys _ Hok) as [Hnd Hl]. split_and!; [done|lia|done|done].
Qed.

(** An insertion into a reachable cache takes effect and sheds no more than it must.
    A value heavier than the whole budget leaves the cache as it was.  Any other becomes
    the most recently used entry, and what remains of the others are the most recently
    used of them: dropping one fewer would exceed the budget. *)
Lemma put_keeps_most_recent n budget os k v :
  (0 < n)%nat -> 2 * Z.max budget 1 <= u64_max ->
  let c := run (new n budget) os in
  (byte_budget c < entry_weight v -> put k v c = c) /\
  (entry_weight v <= byte_budget c ->
   (get k (put k v c)).2 = Some v /\
   exists d, (d <= length (makes_room k c))%nat /\ entries (put k v c) = drop d (makes_room k c) ++ [(k, v)] /\
     forall j, (j < d)%nat -> byte_budget c < weight (drop j (makes_room k c) ++ [(k, v)])).
Proof using weigh_nonneg laws.
  intros Hn Hb c. pose proof (lru_run_ok n budget os Hn Hb) as Hc. fold c in Hc. split.
  - intros Hv. unfold put. by rewrite (proj2 (Z.ltb_lt _ _)).
  - intros Hv. destruct (put_spec k v c Hc Hv) as (d & Hd & Hok & He & _ & _ & Hmin). split; [|by exists d].
    unfold get. destruct (ok_get k _ (ok_inner _ Hok)) as (_ & _ & Hg & _). destruct (ok_keys _ (ok_inner _ Hok)) as [Hnd _].
    destruct (lru_get k (inner (put k v c))) as [l o]. cbn [snd] in *. rewrite Hg. fold (entries (put k v c)) in *.
    rewrite He in *. rewrite map_app in Hnd. apply NoDup_app in Hnd as (_ & Hk & _). unfold value_of. clear -Hk.
    induction (drop d (makes_room k c)) as [|[k' v'] es IH]; cbn in *.
    + by rewrite bool_decide_eq_true_2.
    + rewrite bool_decide_eq_false_2; [apply IH|].
      * intros x Hx. apply Hk. by right.
      * intros ->. apply (Hk k); left.
Qed.

(** What a client relies on: a property of every entry survives. *)
Lemma get_forall (Q : K * V -> Prop) k c : ok c -> Forall Q (entries c) -> Forall Q (entries (get k c).1).
Proof using laws.
  intros Hc Hq. unfold get. destruct (ok_get k _ (ok_inner _ Hc)) as (_ & _ & _ & He).
  destruct (lru_get k (inner c)) as [l v]. unfold entries in *. cbn [fst inner] in *. rewrite He.
  destruct (value_of k _) as [v'|] eqn:Ev; [|done]. unfold value_of in Ev. apply fmap_Some in Ev as ([k' v''] & Ef & ->).
  apply find_some in Ef as [Hin E%bool_decide_eq_true]. cbn in E. subst k'. rewrite Forall_forall in Hq.
  apply Forall_app. split; [|apply Forall_singleton, Hq; by apply list_elem_of_In].
  apply Forall_forall. intros x Hx. apply Hq. unfold remove_key in Hx. apply list_elem_of_In, filter_In in Hx as [Hx _]. by apply list_elem_of_In.
Qed.

Lemma get_found (Q : K * V -> Prop) k c v : ok c -> Forall Q (entries c) -> (get k c).2 = Some v -> Q (k, v).
Proof using laws.
  intros Hc Hq. unfold get. destruct (ok_get k _ (ok_inner _ Hc)) as (_ & _ & Hg & _).
  destruct (lru_get k (inner c)) as [l o]. cbn [snd] in *. subst o. unfold value_of. intros ([k' v'] & Ef & ->)%fmap_Some.
  apply find_some in Ef as [Hin E%bool_decide_eq_true]. cbn in *. subst k'. rewrite Forall_forall in Hq. apply Hq. by apply list_elem_of_In.
Qed.

Lemma put_forall (Q : K * V -> Prop) k v c : ok c -> Forall Q (entries c) -> Q (k, v) -> Forall Q (entries (put k v c)).
Proof using weigh_nonneg laws.
  intros Hc Hq Hv. destruct (Z.leb_spec (entry_weight v) (byte_budget c)) as [Hw|Hw].
  - destruct (put_spec k v c Hc Hw) as (n & _ & _ & -> & _). apply Forall_app. split; [|by apply Forall_singleton].
    apply Forall_drop. unfold makes_room. case_match.
    + apply Forall_forall. intros x Hx. rewrite Forall_forall in Hq. apply Hq.
      unfold remove_key in Hx. apply list_elem_of_In, filter_In in Hx as [Hx _]. by apply list_elem_of_In.
    + destruct (entries c); [done|]. by apply Forall_cons in Hq as [_ ?].
  - unfold put. by rewrite (proj2 (Z.ltb_lt _ _)).
Qed.
End correct.
End cache.
Arguments ByteBoundedLruCache : clear implicits.

(** The count limit is a power of two between 1024 and 65536 that leaves room for the
    hosted contracts and a margin, as long as the upper limit does. *)
Lemma count_target_covers hosted :
  0 <= hosted <= u64_max ->
  1024 <= summary_cache_count_target hosted <= 65536 /\
  (exists e, 0 <= e /\ summary_cache_count_target hosted = 2 ^ e) /\
  (hosted + 256 <= 65536 -> hosted + 256 <= summary_cache_count_target hosted).
Proof.
  intros Hh. unfold summary_cache_count_target, next_power_of_two, SUMMARY_CACHE_COUNT_MAX, SUMMARY_CACHE_COUNT_MIN, SUMMARY_CACHE_COUNT_MARGIN.
  set (x := clamp 1024 65536 (sat_add64 hosted 256)).
  assert (Hx : 1024 <= x <= 65536) by (unfold x, clamp; lia).
  pose proof (Z.log2_up_spec x ltac:(lia)) as [_ Hup].
  assert (Hlo : 2 ^ 10 <= 2 ^ Z.log2_up x) by (apply Z.pow_le_mono_r; [lia|]; change 10 with (Z.log2_up 1024); apply Z.log2_up_le_mono; lia).
  assert (Hhi : 2 ^ Z.log2_up x <= 2 ^ 16) by (apply Z.pow_le_mono_r; [lia|]; change 16 with (Z.log2_up 65536); apply Z.log2_up_le_mono; lia).
  change (2 ^ 10) with 1024 in Hlo. change (2 ^ 16) with 65536 in Hhi. rewrite Z.min_l by lia. split_and!; [lia|lia| |].
  - exists (Z.log2_up x). split; [apply Z.log2_up_nonneg|done].
  - intros Hc. transitivity x; [|done]. unfold x, clamp. int_lia.
Qed.

(** ** The laws can be met *)

Section lists.
Context {K V : Type} `{eqK : EqDecision K}.

#[export] Instance list_lru : LruCache K V (list (K * V) * nat) := {|
  lru_new n := ([], n);
  lru_entries := fst;
  lru_cap := snd;
  lru_get k l := match value_of k l.1 with
                 | Some v => ((remove_key k l.1 ++ [(k, v)], l.2), Some v)
                 | None => (l, None)
                 end;
  lru_push k v l := match value_of k l.1 with
                    | Some old => ((remove_key k l.1 ++ [(k, v)], l.2), Some (k, old))
                    | None => if (length l.1 <? l.2)%nat then ((l.1 ++ [(k, v)], l.2), None)
                              else ((tail l.1 ++ [(k, v)], l.2), head l.1)
                    end;
  lru_pop l := ((tail l.1, l.2), head l.1);
  lru_resize n l := (l.1, n);
|}.

Lemma value_of_none k (l : list (K * V)) : value_of k l = None -> k ∉ map fst l.
Proof.
  unfold value_of. induction l as [|x l IH]; cbn; [intros _ ?%elem_of_nil; done|]. case_bool_decide; [done|].
  intros Hn%IH [->|?]%elem_of_cons; done.
Qed.

Lemma remove_key_spec k (l : list (K * V)) :
  NoDup (map fst l) ->
  NoDup (map fst (remove_key k l)) /\ (k ∉ map fst (remove_key k l)) /\
  (forall v, value_of k l = Some v -> length l = S (length (remove_key k l))).
Proof.
  unfold remove_key, value_of. induction l as [|[k' v'] l IH]; intros Hn.
  { split_and!; [done|intros ?%elem_of_nil; done|done]. }
  apply NoDup_cons in Hn as [Hk Hn]. destruct (IH Hn) as (H1 & H2 & H3). cbn [List.filter find fst map length].
  case_bool_decide as E; cbn [negb map fst].
  - subst k'. split_and!; [done|done|]. intros v _. pose proof (remove_not_in k l Hk) as Hr. unfold remove_key in Hr. by rewrite Hr.
  - split_and!.
    + apply NoDup_cons. split; [|done]. intros (x & -> & Hx)%list_elem_of_fmap. apply list_elem_of_In, filter_In in Hx as [Hx _].
      apply Hk, list_elem_of_fmap. exists x. split; [done|]. by apply list_elem_of_In.
    + intros [->|?]%elem_of_cons; done.
    + intros v Hv. cbn. by rewrite (H3 v Hv).
Qed.

Lemma snoc_nodup k v (l : list (K * V)) : NoDup (map fst l) -> k ∉ map fst l -> NoDup (map fst (l ++ [(k, v)])).
Proof.
  intros Hn Hk. rewrite map_app. apply NoDup_app. split_and!; [done| |apply NoDup_singleton].
  intros x Hx ->%list_elem_of_singleton. done.
Qed.

Definition list_ok (l : list (K * V) * nat) : Prop := NoDup (map fst l.1) /\ (length l.1 <= l.2)%nat /\ (0 < l.2)%nat.

Lemma list_push_ok k v l : list_ok l -> list_ok (lru_push k v l).1.
Proof.
  intros (Hn & Hl & Hc). destruct l as [l n]. cbn [fst snd] in *. unfold lru_push, list_lru, list_ok. cbn [fst snd].
  destruct (remove_key_spec k l Hn) as (H1 & H2 & H3).
  destruct (value_of k l) as [old|] eqn:E.
  - cbn [fst snd]. split_and!; [by apply snoc_nodup| |done]. rewrite length_app. cbn [length]. pose proof (H3 old eq_refl). lia.
  - apply value_of_none in E. destruct (Nat.ltb_spec (length l) n); cbn [fst snd]; (split_and!; [apply snoc_nodup| |done]); try done.
    + rewrite length_app. cbn. lia.
    + destruct l; [done|]. by apply NoDup_cons in Hn as [_ ?].
    + destruct l; [done|]. by apply not_elem_of_cons in E as [_ ?].
    + rewrite length_app. destruct l; cbn in *; lia.
Qed.

#[export] Instance list_lru_laws : LruLaws K V (list (K * V) * nat).
Proof.
  refine {| lru_ok := list_ok |}.
  - intros n Hn. split_and!; [|done|done]. split_and!; cbn; [apply NoDup_nil_2|lia|done].
  - by intros l (? & ? & _).
  - intros k [l n] (Hn & Hl & Hc). unfold lru_get, lru_entries, lru_cap, list_lru, list_ok. cbn [fst snd] in *.
    destruct (value_of k l) as [v|] eqn:E; cbn [fst snd]; [|by split_and!].
    destruct (remove_key_spec k l Hn) as (H1 & H2 & H3). split_and!; try done; [by apply snoc_nodup|].
    rewrite length_app. cbn [length]. pose proof (H3 v E). lia.
  - intros k v l Hl. split; [by apply list_push_ok|]. destruct l as [l n].
    unfold lru_push, lru_entries, lru_cap, list_lru. cbn [fst snd]. destruct (value_of k l); [done|].
    by destruct (length l <? n)%nat.
  - intros [l n] (Hn & Hl & Hc). cbn in *. split_and!; try done. destruct l as [|x l]; [by split_and!|].
    cbn in *. apply NoDup_cons in Hn as [_ ?]. split_and!; cbn; [done|lia|done].
  - intros n [l m] (Hn & Hl & Hc) Hle. cbn in *. split_and!; try done. split_and!; cbn; [done|lia|lia].
Defined.
End lists.

(** Values weigh what they are; room for two entries of 512 and 1000 bytes. *)
Definition small_run : list (op (K:=nat) (V:=Z)) := [Put 1%nat 0; Put 2%nat 488; Get 1%nat; Put 3%nat 100; CoverHosted 10].
Definition small_cache : ByteBoundedLruCache (list (nat * Z) * nat) := run (Z.max 0) (new 4 2000) small_run.

Lemma cache_within_budget_witness :
  entries (V:=Z) small_cache = [(1%nat, 0); (3%nat, 100)] /\ total_bytes small_cache = 1124 /\
  total_bytes small_cache <= byte_budget small_cache.
Proof.
  assert (He : entries (V:=Z) small_cache = [(1%nat, 0); (3%nat, 100)]) by (vm_compute; reflexivity).
  split; [exact He|].
  destruct (cache_within_budget (K:=nat) (V:=Z) (L:=list (nat * Z) * nat) (Z.max 0) ltac:(intros; lia) 4 2000 small_run) as (Ht & Hle & _);
    [lia|done|]. split; [|exact Hle].
  etransitivity; [exact Ht|]. change (run (Z.max 0) (new 4 2000) small_run) with small_cache. rewrite He. reflexivity.
Defined.

Lemma put_keeps_most_recent_witness :
  (get 5%nat (put (Z.max 0) 5%nat 300 small_cache)).2 = Some 300.
Proof.
  refine (proj1 (proj2 (put_keeps_most_recent (K:=nat) (V:=Z) (L:=list (nat * Z) * nat) (Z.max 0) ltac:(intros; lia) 4 2000
    small_run 5%nat 300 ltac:(lia) ltac:(done)) _)). done.
Defined.
End ByteBoundedLru.
