(* ===== verification/StateStore.v ===== *)
(** * Contract states, and the summaries computed from them

    Models [src/crates/core/src/wasm_runtime/state_store.rs] (the store of states with its
    cache and its change detector), the writes of delegates that go round it
    ([wasm_runtime/native_api.rs] with the callback installed in
    [contract/executor/runtime.rs]), and the two functions of
    [contract/executor/runtime/executor_impl.rs] that answer a peer with a summary or a
    delta, mostly from the caches of [ByteBoundedLru].

    The contract handler runs one event at a time, so each function is one step; the
    executors of the pool share the store and have caches of their own.  The database
    commits a transaction or fails without effect, which the arguments [reads_fail] and
    [writes_fail] say.  The caches of the store are third-party caches that may drop an
    entry at any time (the steps [CacheDrop] and [DetectorDrop]).  States, parameters,
    summaries and deltas are opaque; what the contract computes and the hash are
    parameters. *)

From S2P Require Import Prelude ByteBoundedLru.

Module StateStore.

Module BL := ByteBoundedLru.

Definition MAX_STATE_SIZE : Z := 50 * 1024 * 1024.

Section store.
Context {K V Pm Sm D : Type} `{eqK : EqDecision K, cntK : !Countable K}.
Variable size : V -> Z.
Variable state_hash : V -> Z.

Inductive StateStoreError := Any | MissingContract (k : K) | StateTooLarge (k : K) (size limit : Z).

(** [states] and [params] are the tables of the database. *)
Record StateStore := mkStore {
  states : gmap K V;
  params : gmap K Pm;
  state_mem_cache : option (gmap K V);
  state_hash_cache : gmap K Z;
}.

Definition new : StateStore := mkStore ∅ ∅ (Some ∅) ∅.
Definition new_uncached : StateStore := mkStore ∅ ∅ None ∅.

Definition with_state (k : K) (v : V) (s : StateStore) : StateStore :=
  mkStore (<[k := v]> (states s)) (params s) (state_mem_cache s) (state_hash_cache s).
Definition on_cache (f : gmap K V -> gmap K V) (s : StateStore) : StateStore :=
  mkStore (states s) (params s) (f <$> state_mem_cache s) (state_hash_cache s).
Definition on_detector (f : gmap K Z -> gmap K Z) (s : StateStore) : StateStore :=
  mkStore (states s) (params s) (state_mem_cache s) (f (state_hash_cache s)).

Definition cached (k : K) (s : StateStore) : option V := state_mem_cache s ≫= fun c => c !! k.

(** [StateCacheInvalidator::invalidate]. *)
Definition invalidate (k : K) (s : StateStore) : StateStore := on_detector (delete k) (on_cache (delete k) s).

Definition cached_state_hash (k : K) (s : StateStore) : option Z := state_hash_cache s !! k.
Definition cache_state_hash (k : K) (h : Z) (s : StateStore) : StateStore := on_detector (<[k := h]>) s.

(** The answers are [None] for [Ok]. *)
Definition update (reads_fail writes_fail : bool) (k : K) (v : V) (s : StateStore) : StateStore * option StateStoreError :=
  if MAX_STATE_SIZE <? size v then (s, Some (StateTooLarge k (size v) MAX_STATE_SIZE))
  else
    let missing :=
      match cached k s with
      | Some _ => None
      | None => if reads_fail then Some Any
                else match states s !! k with Some _ => None | None => Some (MissingContract k) end
      end in
    match missing with
    | Some e => (s, Some e)
    | None =>
        if writes_fail then (s, Some Any)
        else (on_cache (<[k := v]>) (on_detector (delete k) (with_state k v s)), None)
    end.

Definition store (writes_fail params_fail : bool) (k : K) (v : V) (p : Pm) (s : StateStore)
    : StateStore * option StateStoreError :=
  if MAX_STATE_SIZE <? size v then (s, Some (StateTooLarge k (size v) MAX_STATE_SIZE))
  else if writes_fail then (s, Some Any)
  else
    let s := on_cache (delete k) (on_detector (delete k) (with_state k v s)) in
    if params_fail then (s, Some Any)
    else
      let s := mkStore (states s) (<[k := p]> (params s)) (state_mem_cache s) (state_hash_cache s) in
      (on_cache (<[k := v]>) s, None).

Definition get (reads_fail : bool) (k : K) (s : StateStore) : StateStoreError + V :=
  match cached k s with
  | Some v => inr v
  | None => if reads_fail then inl Any
            else match states s !! k with Some v => inr v | None => inl (MissingContract k) end
  end.

(** The removal deletes the state and the parameters in one transaction. *)
Definition delete_state (writes_fail : bool) (k : K) (s : StateStore) : StateStore * option StateStoreError :=
  let s := on_detector (delete k) (on_cache (delete k) s) in
  if writes_fail then (s, Some Any)
  else (mkStore (delete k (states s)) (delete k (params s)) (state_mem_cache s) (state_hash_cache s), None).

Definition get_params (reads_fail : bool) (k : K) (s : StateStore) : StateStoreError + option Pm :=
  if reads_fail then inl Any else inr (params s !! k).

Definition ensure_params (writes_fail : bool) (k : K) (p : Pm) (s : StateStore) : StateStore * option StateStoreError :=
  if writes_fail then (s, Some Any)
  else (mkStore (states s) (<[k := p]> (params s)) (state_mem_cache s) (state_hash_cache s), None).

(** A delegate writes to the database itself, once [admitted]; the callback then
    invalidates.  The answer is [true] for [Ok]. *)
Definition put_contract_state_sync (admitted writes_fail : bool) (k : K) (v : V) (s : StateStore) : StateStore * bool :=
  if negb admitted then (s, false)
  else if writes_fail then (s, false)
  else (invalidate k (with_state k v s), true).

Definition update_contract_state_sync (admitted writes_fail : bool) (k : K) (v : V) (s : StateStore) : StateStore * bool :=
  if negb admitted then (s, false)
  else if writes_fail then (s, false)
  else match states s !! k with
       | Some _ => (invalidate k (with_state k v s), true)
       | None => (s, false)
       end.

(** ** Summaries and deltas *)

Context {LS LD : Type}.
Context `{lruS : !BL.LruCache K (Z * Sm) LS} `{lruD : !BL.LruCache (K * Z * Z) D LD}.
Variable summary_len : Sm -> Z.
Variable delta_len : D -> Z.
Variable summary_hash : Sm -> Z.
(** What the contract computes; [None] is an execution error. *)
Variable summarize_state : K -> Pm -> V -> option Sm.
Variable get_state_delta : K -> Pm -> V -> Sm -> option D.

Inductive ExecutorError := StoreError | StateNotFound | ParametersNotFound | ExecutionError.

Record Executor := mkExecutor {
  summary_cache : BL.ByteBoundedLruCache LS;
  delta_cache : BL.ByteBoundedLruCache LD;
}.

Definition new_executor (total_ram : option Z) : Executor := mkExecutor
  (BL.new (Z.to_nat BL.SUMMARY_CACHE_COUNT_MIN) (BL.summary_cache_budget_bytes total_ram))
  (BL.new (Z.to_nat BL.SUMMARY_CACHE_COUNT_MIN) (BL.delta_cache_budget_bytes total_ram)).

Definition weigh_summary (x : Z * Sm) : Z := summary_len x.2.

Definition ensure_cache_covers_hosted_set (hosted : Z) (e : Executor) : Executor :=
  mkExecutor (BL.cover_hosted hosted (summary_cache e)) (BL.cover_hosted hosted (delta_cache e)).

(** [bridged_fetch_contract] without the code. *)
Definition fetch_state (reads_fail : bool) (k : K) (s : StateStore) : ExecutorError + V :=
  match get reads_fail k s with
  | inr v => inr v
  | inl (MissingContract _) => inl StateNotFound
  | inl _ => inl StoreError
  end.

Definition fetch_params (reads_fail : bool) (k : K) (s : StateStore) : ExecutorError + Pm :=
  match get_params reads_fail k s with
  | inr (Some p) => inr p
  | inr None => inl ParametersNotFound
  | inl _ => inl StoreError
  end.

(** The cached summary, if it was computed from a state with hash [h]. *)
Definition lookup_summary (k : K) (h : Z) (e : Executor) : Executor * option Sm :=
  let '(c, found) := BL.get k (summary_cache e) in
  (mkExecutor c (delta_cache e),
   match found with Some (cached_hash, sm) => if cached_hash =? h then Some sm else None | None => None end).

Definition lookup_delta (k : K * Z * Z) (e : Executor) : Executor * option D :=
  let '(c, found) := BL.get k (delta_cache e) in (mkExecutor (summary_cache e) c, found).

(** The slow path, with the state loaded. *)
Definition compute_summary (reads_fail : bool) (k : K) (v : V) (e : Executor) (s : StateStore)
    : Executor * StateStore * (ExecutorError + Sm) :=
  let h := state_hash v in
  let s := cache_state_hash k h s in
  let '(e, found) := lookup_summary k h e in
  match found with
  | Some sm => (e, s, inr sm)
  | None =>
      match fetch_params reads_fail k s with
      | inl err => (e, s, inl err)
      | inr p =>
          match summarize_state k p v with
          | None => (e, s, inl ExecutionError)
          | Some sm => (mkExecutor (BL.put weigh_summary k (h, sm) (summary_cache e)) (delta_cache e), s, inr sm)
          end
      end
  end.

Definition bridged_summarize_contract_state (reads_fail : bool) (hosted : Z) (k : K) (e : Executor) (s : StateStore)
    : Executor * StateStore * (ExecutorError + Sm) :=
  let e := ensure_cache_covers_hosted_set hosted e in
  let '(e, fast) := match cached_state_hash k s with Some h => lookup_summary k h e | None => (e, None) end in
  match fast with
  | Some sm => (e, s, inr sm)
  | None =>
      match fetch_state reads_fail k s with
      | inl err => (e, s, inl err)
      | inr v => compute_summary reads_fail k v e s
      end
  end.

Definition compute_delta (reads_fail : bool) (k : K) (their_summary : Sm) (v : V) (e : Executor) (s : StateStore)
    : Executor * StateStore * (ExecutorError + D) :=
  let h := state_hash v in
  let s := cache_state_hash k h s in
  let cache_key := (k, h, summary_hash their_summary) in
  let '(e, found) := lookup_delta cache_key e in
  match found with
  | Some d => (e, s, inr d)
  | None =>
      match fetch_params reads_fail k s with
      | inl err => (e, s, inl err)
      | inr p =>
          match get_state_delta k p v their_summary with
          | None => (e, s, inl ExecutionError)
          | Some d => (mkExecutor (summary_cache e) (BL.put delta_len cache_key d (delta_cache e)), s, inr d)
          end
      end
  end.

Definition bridged_get_contract_state_delta (reads_fail : bool) (hosted : Z) (k : K) (their_summary : Sm)
    (e : Executor) (s : StateStore) : Executor * StateStore * (ExecutorError + D) :=
  let e := ensure_cache_covers_hosted_set hosted e in
  let '(e, fast) :=
    match cached_state_hash k s with
    | Some h => lookup_delta (k, h, summary_hash their_summary) e
    | None => (e, None)
    end in
  match fast with
  | Some d => (e, s, inr d)
  | None =>
      match fetch_state reads_fail k s with
      | inl err => (e, s, inl err)
      | inr v => compute_delta reads_fail k their_summary v e s
      end
  end.

(** ** The pool *)

Record Pool := mkPool { shared : StateStore; executors : gmap nat Executor }.

Inductive op :=
| Update (reads_fail writes_fail : bool) (k : K) (v : V)
| Store (writes_fail params_fail : bool) (k : K) (v : V) (p : Pm)
| Delete (writes_fail : bool) (k : K)
| EnsureParams (writes_fail : bool) (k : K) (p : Pm)
| DelegatePut (admitted writes_fail : bool) (k : K) (v : V)
| DelegateUpdate (admitted writes_fail : bool) (k : K) (v : V)
| CacheDrop (k : K) | DetectorDrop (k : K)
| Spawn (i : nat) (total_ram : option Z)
| Summarize (i : nat) (reads_fail : bool) (hosted : Z) (k : K)
| Delta (i : nat) (reads_fail : bool) (hosted : Z) (k : K) (their_summary : Sm).

Definition on_store (f : StateStore -> StateStore) (p : Pool) : Pool := mkPool (f (shared p)) (executors p).

Definition step (p : Pool) (o : op) : Pool :=
  match o with
  | Update rf wf k v => on_store (fun s => (update rf wf k v s).1) p
  | Store wf pf k v pm => on_store (fun s => (store wf pf k v pm s).1) p
  | Delete wf k => on_store (fun s => (delete_state wf k s).1) p
  | EnsureParams wf k pm => on_store (fun s => (ensure_params wf k pm s).1) p
  | DelegatePut a wf k v => on_store (fun s => (put_contract_state_sync a wf k v s).1) p
  | DelegateUpdate a wf k v => on_store (fun s => (update_contract_state_sync a wf k v s).1) p
  | CacheDrop k => on_store (on_cache (delete k)) p
  | DetectorDrop k => on_store (on_detector (delete k)) p
  | Spawn i ram => mkPool (shared p) (<[i := new_executor ram]> (executors p))
  | Summarize i rf hosted k =>
      match executors p !! i with
      | Some e => let '(e, s, _) := bridged_summarize_contract_state rf hosted k e (shared p) in
                  mkPool s (<[i := e]> (executors p))
      | None => p
      end
  | Delta i rf hosted k sm =>
      match executors p !! i with
      | Some e => let '(e, s, _) := bridged_get_contract_state_delta rf hosted k sm e (shared p) in
                  mkPool s (<[i := e]> (executors p))
      | None => p
      end
  end.
Definition run (p : Pool) (os : list op) : Pool := foldl step p os.

(** What an operation may write to the table of states, and the summary a peer sends. *)
Definition writes (o : op) : option (K * V) :=
  match o with
  | Update _ _ k v | Store _ _ k v _ | DelegatePut _ _ k v | DelegateUpdate _ _ k v => Some (k, v)
  | _ => None
  end.
Definition asks (o : op) : option (K * Sm) :=
  match o with Delta _ _ _ k sm => Some (k, sm) | _ => None end.

(** No two of the values that a contract is given in [l] have the same hash. *)
Definition no_collision {A} (hash : A -> Z) (l : list (K * A)) : Prop :=
  forall k a a', (k, a) ∈ l -> (k, a') ∈ l -> hash a = hash a' -> a = a'.

Definition start (uncached : bool) : Pool := mkPool (if uncached then new_uncached else new) ∅.

(** ** The store *)

(** The cache holds committed states, and the detector their hashes. *)
Record coherent (s : StateStore) : Prop := {
  co_cache : forall k v, cached k s = Some v -> states s !! k = Some v;
  co_detector : forall k h, state_hash_cache s !! k = Some h -> exists v, states s !! k = Some v /\ state_hash v = h;
}.

Lemma cached_on_cache f k s : cached k (on_cache f s) = state_mem_cache s ≫= fun c => f c !! k.
Proof. unfold cached, on_cache. cbn. by destruct (state_mem_cache s). Qed.

(** A write of [k] whose detector entry goes and whose cache entry goes or follows. *)
Lemma write_coherent k v s s' :
  coherent s -> states s' = <[k := v]> (states s) ->
  (forall k', cached k' s' = if decide (k' = k) then cached k' s' else cached k' s) ->
  (cached k s' = None \/ cached k s' = Some v) -> state_hash_cache s' = delete k (state_hash_cache s) -> coherent s'.
Proof.
  intros [Hc Hd] Es Hother Hk Eh. split.
  - intros k' v' Hv. rewrite Es. destruct (decide (k' = k)) as [->|Hne].
    + rewrite lookup_insert_eq. destruct Hk as [Hk|Hk]; congruence.
    + rewrite lookup_insert_ne by done. apply Hc. rewrite Hother in Hv. by rewrite decide_False in Hv.
  - intros k' h. rewrite Eh, Es. intros [Hne Hl]%lookup_delete_Some. rewrite lookup_insert_ne by done. by apply Hd.
Qed.

Lemma cached_insert k v k' s :
  cached k' (on_cache (<[k := v]>) s) =
  if decide (k' = k) then (match state_mem_cache s with Some _ => Some v | None => None end) else cached k' s.
Proof.
  rewrite cached_on_cache. unfold cached. destruct (state_mem_cache s) as [c|]; cbn; [|by case_decide].
  case_decide as E; [subst|]; by rewrite ?lookup_insert_eq, ?lookup_insert_ne.
Qed.

Lemma cached_delete k k' s : cached k' (on_cache (delete k) s) = if decide (k' = k) then None else cached k' s.
Proof.
  rewrite cached_on_cache. unfold cached. destruct (state_mem_cache s) as [c|]; cbn; [|by case_decide].
  case_decide as E; [subst|]; by rewrite ?lookup_delete_eq, ?lookup_delete_ne.
Qed.

Lemma drop_coherent k s : coherent s -> coherent (on_cache (delete k) s) /\ coherent (on_detector (delete k) s).
Proof.
  intros [Hc Hd]. split; split; try done.
  - intros k' v. rewrite cached_delete. case_decide; [done|]. apply Hc.
  - intros k' h. cbn. intros [_ Hl]%lookup_delete_Some. by apply Hd.
Qed.

Lemma update_coherent rf wf k v s : coherent s -> coherent (update rf wf k v s).1.
Proof.
  intros Hs. unfold update. case_match; [done|]. case_match; [done|]. destruct wf; [done|]. cbn [fst].
  apply (write_coherent k v s); try done.
  - intros k'. rewrite cached_insert. case_decide; done.
  - rewrite cached_insert, decide_True by done. cbn. destruct (state_mem_cache s); auto.
Qed.

Lemma store_coherent wf pf k v pm s : coherent s -> coherent (store wf pf k v pm s).1.
Proof.
  intros Hs. unfold store. case_match; [done|]. destruct wf; [done|].
  assert (H1 : coherent (on_cache (delete k) (on_detector (delete k) (with_state k v s)))).
  { apply (write_coherent k v s); try done.
    - intros k'. rewrite cached_delete. case_decide; done.
    - left. by rewrite cached_delete, decide_True. }
  destruct pf; [done|]. cbn [fst]. apply (write_coherent k v s); try done.
  - intros k'. rewrite cached_insert. case_decide; [done|]. unfold cached. cbn. destruct (state_mem_cache s); [|done].
    cbn. by rewrite lookup_delete_ne.
  - rewrite cached_insert, decide_True by done. cbn. destruct (state_mem_cache s); cbn; auto.
Qed.

Lemma delete_coherent wf k s : coherent s -> coherent (delete_state wf k s).1.
Proof.
  intros Hs. unfold delete_state. set (s1 := on_detector _ _).
  assert (H1 : coherent s1) by (apply drop_coherent, drop_coherent, Hs). destruct wf; [done|].
  destruct H1 as [Hc Hd]. split; cbn [fst states params state_hash_cache].
  - intros k' v Hv. assert (Hv' : cached k' s1 = Some v) by exact Hv. assert (Hne : k' <> k).
    { intros ->. unfold s1, cached in Hv'. cbn in Hv'. destruct (state_mem_cache s); [|done]. cbn in Hv'. by rewrite lookup_delete_eq in Hv'. }
    rewrite lookup_delete_ne by done. by apply Hc.
  - intros k' h Hh. assert (Hne : k' <> k) by (intros ->; unfold s1 in Hh; cbn in Hh; by rewrite lookup_delete_eq in Hh).
    rewrite lookup_delete_ne by done. by apply Hd.
Qed.

Lemma invalidate_coherent k v s : coherent s -> coherent (invalidate k (with_state k v s)).
Proof.
  intros Hs. apply (write_coherent k v s); try done.
  - intros k'. unfold invalidate. change (cached k' (on_detector (delete k) (on_cache (delete k) (with_state k v s))))
      with (cached k' (on_cache (delete k) (with_state k v s))). rewrite cached_delete. case_decide; done.
  - left. change (cached k (invalidate k (with_state k v s))) with (cached k (on_cache (delete k) (with_state k v s))).
    by rewrite cached_delete, decide_True.
Qed.

Lemma get_right rf k s v : coherent s -> get rf k s = inr v -> states s !! k = Some v.
Proof.
  intros Hs. unfold get. destruct (cached k s) eqn:E; [intros [= <-]; by apply Hs|]. destruct rf; [done|]. by case_match; intros [= <-].
Qed.

Lemma get_complete k s v : coherent s -> states s !! k = Some v -> get false k s = inr v.
Proof.
  intros Hs Hv. unfold get. destruct (cached k s) eqn:E; [|by rewrite Hv]. apply (co_cache _ Hs) in E. congruence.
Qed.

Lemma fetch_state_spec rf k s :
  coherent s ->
  (forall v, fetch_state rf k s = inr v -> states s !! k = Some v) /\
  (forall v, rf = false -> states s !! k = Some v -> fetch_state rf k s = inr v).
Proof.
  intros Hs. unfold fetch_state. split.
  - intros v. destruct (get rf k s) as [[]|v'] eqn:E; try done. intros [= <-]. by apply (get_right rf).
  - intros v -> Hv. by rewrite (get_complete k s v).
Qed.

(** What a call leaves of the store: the tables are untouched. *)
Definition same_tables (s s' : StateStore) : Prop := states s' = states s /\ params s' = params s.

Lemma note_hash_coherent k v s :
  coherent s -> states s !! k = Some v -> coherent (cache_state_hash k (state_hash v) s).
Proof.
  intros [Hc Hd] Hv. split; [exact Hc|]. intros k' h. cbn.
  intros [[<- <-]|[_ Hl]]%lookup_insert_Some; [by exists v|by apply Hd].
Qed.

(** The store after an answer, whatever the caches of the executor hold. *)
Lemma summarize_store rf hosted k e s :
  coherent s -> coherent (bridged_summarize_contract_state rf hosted k e s).1.2 /\
  same_tables s (bridged_summarize_contract_state rf hosted k e s).1.2.
Proof.
  intros Hs. unfold bridged_summarize_contract_state. set (x := match cached_state_hash k s with Some _ => _ | None => _ end).
  destruct x as [e1 [sm|]]; [by split|]. destruct (fetch_state rf k s) as [err|v] eqn:E; [by split|].
  pose proof (note_hash_coherent k v s Hs (proj1 (fetch_state_spec rf k s Hs) v E)) as H.
  unfold compute_summary. destruct (lookup_summary k (state_hash v) e1) as [e2 [sm|]]; [by split|].
  destruct (fetch_params rf k _); [by split|]. by destruct (summarize_state k _ v).
Qed.

Lemma delta_store rf hosted k sm e s :
  coherent s -> coherent (bridged_get_contract_state_delta rf hosted k sm e s).1.2 /\
  same_tables s (bridged_get_contract_state_delta rf hosted k sm e s).1.2.
Proof.
  intros Hs. unfold bridged_get_contract_state_delta. set (x := match cached_state_hash k s with Some _ => _ | None => _ end).
  destruct x as [e1 [d|]]; [by split|]. destruct (fetch_state rf k s) as [err|v] eqn:E; [by split|].
  pose proof (note_hash_coherent k v s Hs (proj1 (fetch_state_spec rf k s Hs) v E)) as H.
  unfold compute_delta. destruct (lookup_delta _ e1) as [e2 [d|]]; [by split|].
  destruct (fetch_params rf k _); [by split|]. by destruct (get_state_delta k _ v sm).
Qed.

Lemma step_coherent p o : coherent (shared p) -> coherent (shared (step p o)).
Proof.
  intros Hs. destruct o; cbn [step on_store shared].
  - by apply update_coherent.
  - by apply store_coherent.
  - by apply delete_coherent.
  - unfold ensure_params. destruct writes_fail; [done|]. destruct Hs as [Hc Hd]. by split.
  - unfold put_contract_state_sync. destruct admitted, writes_fail; try done. by apply invalidate_coherent.
  - unfold update_contract_state_sync. destruct admitted, writes_fail; try done. cbn.
    case_match; [by apply invalidate_coherent|done].
  - by apply drop_coherent.
  - by apply drop_coherent.
  - done.
  - destruct (executors p !! i) as [e|]; [|done]. pose proof (summarize_store reads_fail hosted k e _ Hs) as [H _].
    by destruct (bridged_summarize_contract_state _ _ _ _ _) as [[e' s'] r].
  - destruct (executors p !! i) as [e|]; [|done]. pose proof (delta_store reads_fail hosted k their_summary e _ Hs) as [H _].
    by destruct (bridged_get_contract_state_delta _ _ _ _ _ _) as [[e' s'] r].
Qed.

Lemma run_coherent uncached os : coherent (shared (run (start uncached) os)).
Proof.
  assert (H0 : coherent (shared (start uncached))) by (by destruct uncached).
  unfold run. revert H0. generalize (start uncached). induction os as [|o os IH]; intros p Hp; [done|].
  apply IH. by apply step_coherent.
Qed.

(** What a step adds to the tables. *)
Lemma step_tables p o k :
  coherent (shared p) ->
  (forall v, states (shared (step p o)) !! k = Some v -> states (shared p) !! k = Some v \/ writes o = Some (k, v)) /\
  (forall pm, params (shared (step p o)) !! k = Some pm -> params (shared p) !! k = Some pm \/
     (exists wf pf v, o = Store wf pf k v pm) \/ exists wf, o = EnsureParams wf k pm).
Proof.
  intros Hs. destruct o as [rf wf k' v'|wf pf k' v' p'|wf k'|wf k' p'|a wf k' v'|a wf k' v'| | | |i rf hosted k'|i rf hosted k' sm];
    cbn [step on_store shared writes]; try (by split; left).
  - unfold update. repeat case_match; try (by split; left); cbn;
      (split; [intros ? [[-> ->]|[_ ?]]%lookup_insert_Some|]; auto).
  - unfold store. repeat (case_match; try (by split; left)); cbn; (split; [intros ? [[-> ->]|[_ ?]]%lookup_insert_Some; auto|]); [by left|].
    intros pm [[-> ->]|[_ ?]]%lookup_insert_Some; [right|by left]. left. by exists false, false, v'.
  - unfold delete_state. destruct wf; [by split; left|]. cbn. split; intros ? [_ ?]%lookup_delete_Some; by left.
  - unfold ensure_params. destruct wf; [by split; left|]. cbn. split; [by left|].
    intros pm [[-> ->]|[_ ?]]%lookup_insert_Some; [right|by left]. right. by exists false.
  - unfold put_contract_state_sync. destruct a, wf; try (by split; left). cbn.
    split; [intros ? [[-> ->]|[_ ?]]%lookup_insert_Some|]; auto.
  - unfold update_contract_state_sync. destruct a, wf; try (by split; left). cbn. case_match; [|by split; left]. cbn.
    split; [intros ? [[-> ->]|[_ ?]]%lookup_insert_Some|]; auto.
  - destruct (executors p !! i) as [e|]; [|by split; left]. destruct (summarize_store rf hosted k' e _ Hs) as [_ [E1 E2]].
    destruct (bridged_summarize_contract_state _ _ _ _ _) as [[e' s'] r]. cbn in *. rewrite E1, E2. by split; left.
  - destruct (executors p !! i) as [e|]; [|by split; left]. destruct (delta_store rf hosted k' sm e _ Hs) as [_ [E1 E2]].
    destruct (bridged_get_contract_state_delta _ _ _ _ _ _) as [[e' s'] r]. cbn in *. rewrite E1, E2. by split; left.
Qed.

(** C21: the cached store is the store.  After any sequence of calls a read returns what the
    database holds: a hit in the cache is the committed state, a miss is the committed
    state or its absence, and only a miss can meet a failing database. *)
Theorem reads_see_the_database uncached os rf k :
  let s := shared (run (start uncached) os) in
  get rf k s =
    match states s !! k with
    | Some v => if rf && negb (bool_decide (is_Some (cached k s))) then inl Any else inr v
    | None => if rf then inl Any else inl (MissingContract k)
    end.
Proof.
  intros s. pose proof (run_coherent uncached os) as Hs. fold s in Hs. unfold get.
  destruct (cached k s) as [v|] eqn:E.
  - rewrite (co_cache _ Hs k v E), bool_decide_eq_true_2 by eauto. by rewrite andb_false_r.
  - rewrite bool_decide_eq_false_2 by (intros [? ?]; done). rewrite andb_true_r. by destruct rf, (states s !! k).
Qed.

(** ** Nothing stale is served *)

Section correct.
Context `{lawsS : !BL.LruLaws K (Z * Sm) LS} `{lawsD : !BL.LruLaws (K * Z * Z) D LD}.
Hypothesis summary_len_nonneg : forall sm, 0 <= summary_len sm.
Hypothesis delta_len_nonneg : forall d, 0 <= delta_len d.
(** A contract key is made from the parameters. *)
Variable params_of : K -> Pm.

Definition op_ok (o : op) : Prop :=
  match o with Store _ _ k _ p | EnsureParams _ k p => p = params_of k | _ => True end.

(** The states written and the summaries sent, of which no two of one contract collide. *)
Section seen.
Variables (written : list (K * V)) (asked : list (K * Sm)).
Hypothesis states_differ : no_collision state_hash written.
Hypothesis summaries_differ : no_collision summary_hash asked.

Record store_ok (s : StateStore) : Prop := {
  so_coherent :> coherent s;
  so_written : forall k v, states s !! k = Some v -> (k, v) ∈ written;
  so_params : forall k p, params s !! k = Some p -> p = params_of k;
}.

Definition summary_right (x : K * (Z * Sm)) : Prop :=
  forall v, (x.1, v) ∈ written -> state_hash v = x.2.1 -> summarize_state x.1 (params_of x.1) v = Some x.2.2.
Definition delta_right (x : K * Z * Z * D) : Prop :=
  forall v sm, (x.1.1.1, v) ∈ written -> (x.1.1.1, sm) ∈ asked -> state_hash v = x.1.1.2 -> summary_hash sm = x.1.2 ->
    get_state_delta x.1.1.1 (params_of x.1.1.1) v sm = Some x.2.

Record executor_ok (e : Executor) : Prop := {
  eo_summaries : BL.ok weigh_summary (summary_cache e);
  eo_deltas : BL.ok delta_len (delta_cache e);
  eo_summary_right : Forall summary_right (BL.entries (summary_cache e));
  eo_delta_right : Forall delta_right (BL.entries (delta_cache e));
}.

Lemma weigh_summary_nonneg x : 0 <= weigh_summary x.
Proof using summary_len_nonneg. apply summary_len_nonneg. Qed.

Lemma cover_executor_ok hosted e : executor_ok e -> executor_ok (ensure_cache_covers_hosted_set hosted e).
Proof using lawsS lawsD.
  intros [H1 H2 H3 H4]. destruct (BL.cover_ok weigh_summary hosted _ H1) as [H1' E1].
  destruct (BL.cover_ok delta_len hosted _ H2) as [H2' E2]. split; cbn; [done|done|by rewrite E1|by rewrite E2].
Qed.

Lemma lookup_summary_ok k h e :
  executor_ok e ->
  executor_ok (lookup_summary k h e).1 /\
  forall sm v, (lookup_summary k h e).2 = Some sm -> (k, v) ∈ written -> state_hash v = h -> summarize_state k (params_of k) v = Some sm.
Proof using lawsS.
  intros [H1 H2 H3 H4]. unfold lookup_summary. pose proof (BL.get_ok weigh_summary k _ H1) as Ho.
  pose proof (BL.get_forall weigh_summary summary_right k _ H1 H3) as Hf.
  pose proof (fun v => BL.get_found weigh_summary summary_right k _ v H1 H3) as Hr.
  destruct (BL.get k (summary_cache e)) as [c found]. cbn [fst snd] in *. split; [by split|].
  intros sm v Hs Hv Hh. destruct found as [[h' sm']|]; [|done]. destruct (h' =? h) eqn:E; [|done]. injection Hs as <-.
  apply Z.eqb_eq in E as ->. by apply (Hr _ eq_refl v).
Qed.

Lemma lookup_delta_ok k e :
  executor_ok e ->
  executor_ok (lookup_delta k e).1 /\ forall d, (lookup_delta k e).2 = Some d -> delta_right (k, d).
Proof using lawsD.
  intros [H1 H2 H3 H4]. unfold lookup_delta. pose proof (BL.get_ok delta_len k _ H2) as Ho.
  pose proof (BL.get_forall delta_len delta_right k _ H2 H4) as Hf.
  pose proof (fun v => BL.get_found delta_len delta_right k _ v H2 H4) as Hr.
  destruct (BL.get k (delta_cache e)) as [c found]. cbn [fst snd] in *. split; [by split|]. intros d ->. by apply Hr.
Qed.

Lemma put_summary_ok k h sm e :
  executor_ok e -> summary_right (k, (h, sm)) ->
  executor_ok (mkExecutor (BL.put weigh_summary k (h, sm) (summary_cache e)) (delta_cache e)).
Proof using lawsS summary_len_nonneg.
  intros [H1 H2 H3 H4] Hr. split; cbn; [|done| |done].
  - apply (BL.step_ok weigh_summary weigh_summary_nonneg (summary_cache e) (BL.Put k (h, sm)) H1).
  - by apply (BL.put_forall weigh_summary weigh_summary_nonneg).
Qed.

Lemma put_delta_ok k d e :
  executor_ok e -> delta_right (k, d) ->
  executor_ok (mkExecutor (summary_cache e) (BL.put delta_len k d (delta_cache e))).
Proof using lawsD delta_len_nonneg.
  intros [H1 H2 H3 H4] Hr. split; cbn; [done| |done|].
  - apply (BL.step_ok delta_len delta_len_nonneg (delta_cache e) (BL.Put k d) H2).
  - by apply (BL.put_forall delta_len delta_len_nonneg).
Qed.

Lemma new_executor_ok ram : executor_ok (new_executor ram).
Proof using lawsS lawsD summary_len_nonneg delta_len_nonneg.
  assert (Hc : forall lo hi x, 0 < lo -> lo <= hi -> 2 * hi <= u64_max -> 2 * Z.max (BL.clamp lo hi x) 1 <= u64_max)
    by (intros; unfold BL.clamp; lia).
  assert (Hn : (0 < Z.to_nat BL.SUMMARY_CACHE_COUNT_MIN)%nat) by (unfold BL.SUMMARY_CACHE_COUNT_MIN; lia).
  split; unfold new_executor; cbn [summary_cache delta_cache].
  - refine (BL.lru_run_ok weigh_summary weigh_summary_nonneg _ _ [] Hn _). unfold BL.summary_cache_budget_bytes. by apply Hc.
  - refine (BL.lru_run_ok delta_len delta_len_nonneg _ _ [] Hn _). unfold BL.delta_cache_budget_bytes. by apply Hc.
  - unfold BL.entries, BL.new. cbn [BL.inner]. by rewrite (proj1 (proj2 (BL.ok_new _ Hn))).
  - unfold BL.entries, BL.new. cbn [BL.inner]. by rewrite (proj1 (proj2 (BL.ok_new _ Hn))).
Qed.

Lemma fetch_params_right rf k s p : store_ok s -> fetch_params rf k s = inr p -> p = params_of k.
Proof.
  intros Hs. unfold fetch_params, get_params. destruct rf; [done|]. destruct (params s !! k) eqn:E; [|done].
  intros [= <-]. by apply (so_params _ Hs k).
Qed.

Lemma compute_summary_spec rf k v e s :
  store_ok s -> executor_ok e -> states s !! k = Some v ->
  let '(e', _, r) := compute_summary rf k v e s in
  executor_ok e' /\
  (forall sm, r = inr sm -> summarize_state k (params_of k) v = Some sm) /\
  (forall sm, rf = false -> is_Some (params s !! k) -> summarize_state k (params_of k) v = Some sm -> r = inr sm).
Proof using lawsS states_differ summary_len_nonneg.
  intros Hs He Hv. pose proof (so_written _ Hs k v Hv) as Hw. unfold compute_summary.
  set (s' := cache_state_hash k (state_hash v) s) in *. destruct (lookup_summary_ok k (state_hash v) e He) as [He' Hfound].
  destruct (lookup_summary k (state_hash v) e) as [e1 [sm|]]; cbn [fst snd] in *.
  { pose proof (Hfound sm v eq_refl Hw eq_refl) as E. split_and!; try done; intros sm'; [by intros [= <-]|].
    intros _ _ E'. congruence. }
  change (fetch_params rf k s') with (fetch_params rf k s). destruct (fetch_params rf k s) as [err|p] eqn:Ep.
  { split_and!; try done. intros sm -> [p Hp] _. unfold fetch_params, get_params in Ep. by rewrite Hp in Ep. }
  apply (fetch_params_right rf k s p Hs) in Ep as ->. destruct (summarize_state k (params_of k) v) as [sm|] eqn:E.
  - split_and!; try (by intros sm' [= <-]); try (by intros sm' _ _ [= <-]).
    apply put_summary_ok; [done|]. intros v' Hw' Hv'. cbn in Hw', Hv'. by rewrite (states_differ k v' v Hw' Hw Hv').
  - by split_and!.
Qed.

Lemma compute_delta_spec rf k sm v e s :
  store_ok s -> executor_ok e -> states s !! k = Some v -> (k, sm) ∈ asked ->
  let '(e', _, r) := compute_delta rf k sm v e s in
  executor_ok e' /\
  (forall d, r = inr d -> get_state_delta k (params_of k) v sm = Some d) /\
  (forall d, rf = false -> is_Some (params s !! k) -> get_state_delta k (params_of k) v sm = Some d -> r = inr d).
Proof using lawsD states_differ summaries_differ delta_len_nonneg.
  intros Hs He Hv Ha. pose proof (so_written _ Hs k v Hv) as Hw. unfold compute_delta.
  set (s' := cache_state_hash k (state_hash v) s) in *.
  destruct (lookup_delta_ok (k, state_hash v, summary_hash sm) e He) as [He' Hfound].
  destruct (lookup_delta (k, state_hash v, summary_hash sm) e) as [e1 [d|]]; cbn [fst snd] in *.
  { pose proof (Hfound d eq_refl v sm Hw Ha eq_refl eq_refl) as E. cbn in E. split_and!; try done; intros d'; [by intros [= <-]|].
    intros _ _ E'. congruence. }
  change (fetch_params rf k s') with (fetch_params rf k s). destruct (fetch_params rf k s) as [err|p] eqn:Ep.
  { split_and!; try done. intros d -> [p Hp] _. unfold fetch_params, get_params in Ep. by rewrite Hp in Ep. }
  apply (fetch_params_right rf k s p Hs) in Ep as ->. destruct (get_state_delta k (params_of k) v sm) as [d|] eqn:E.
  - split_and!; try (by intros d' [= <-]); try (by intros d' _ _ [= <-]).
    apply put_delta_ok; [done|]. intros v' sm' Hw' Ha' Hv' Hsm'. cbn in *.
    by rewrite (states_differ k v' v Hw' Hw Hv'), (summaries_differ k sm' sm Ha' Ha Hsm').
  - by split_and!.
Qed.

Definition fresh_summary (k : K) (s : StateStore) (sm : Sm) : Prop :=
  exists v, states s !! k = Some v /\ summarize_state k (params_of k) v = Some sm.
Definition fresh_delta (k : K) (their_summary : Sm) (s : StateStore) (d : D) : Prop :=
  exists v, states s !! k = Some v /\ get_state_delta k (params_of k) v their_summary = Some d.

(** An answer is fresh, and there is one if the database can be read and has the state and
    its parameters. *)
Definition answers {R} (k : K) (rf : bool) (fresh : StateStore -> R -> Prop) (s : StateStore) (x : ExecutorError + R) : Prop :=
  (forall r, x = inr r -> fresh s r) /\
  (forall r, rf = false -> is_Some (params s !! k) -> fresh s r -> x = inr r).

Lemma summarize_right rf hosted k e s :
  store_ok s -> executor_ok e ->
  executor_ok (bridged_summarize_contract_state rf hosted k e s).1.1 /\
  answers k rf (fresh_summary k) s (bridged_summarize_contract_state rf hosted k e s).2.
Proof using lawsS lawsD states_differ summary_len_nonneg.
  intros Hs He. unfold bridged_summarize_contract_state. apply (cover_executor_ok hosted) in He.
  set (e0 := ensure_cache_covers_hosted_set hosted e) in *. set (x := match cached_state_hash k s with Some _ => _ | None => _ end).
  assert (Hx : executor_ok x.1 /\ forall sm, x.2 = Some sm -> fresh_summary k s sm).
  { unfold x. destruct (cached_state_hash k s) as [h|] eqn:Eh; [|done].
    destruct (co_detector _ Hs k h Eh) as (v & Hv & Ev). destruct (lookup_summary_ok k h e0 He) as [H1 H2].
    split; [done|]. intros sm Hsm. exists v. split; [done|]. apply H2; [done|by apply (so_written _ Hs)|done]. }
  destruct x as [e1 [sm|]]; cbn [fst snd] in Hx; destruct Hx as [He1 Hf].
  { destruct (Hf sm eq_refl) as (v & Hv & E). unfold answers. cbn [fst snd].
    split_and!; [done|intros r [= <-]; by exists v|]. intros r _ _ (v' & Hv' & E'). congruence. }
  destruct (fetch_state_spec rf k s Hs) as [Hr Hc]. destruct (fetch_state rf k s) as [err|v] eqn:Ef.
  { unfold answers. cbn [fst snd]. split_and!; try done. intros r Hrf _ (v & Hv & _). by specialize (Hc v Hrf Hv). }
  pose proof (Hr v eq_refl) as Hv. pose proof (compute_summary_spec rf k v e1 s Hs He1 Hv) as H.
  destruct (compute_summary rf k v e1 s) as [[e' s'] r]. destruct H as (H1 & H4 & H5). unfold answers. cbn [fst snd].
  split_and!; [done|intros sm E; exists v; by auto|]. intros sm Hrf Hp (v' & Hv' & E). apply H5; [done|done|]. congruence.
Qed.

Lemma delta_call_right rf hosted k sm e s :
  store_ok s -> executor_ok e -> (k, sm) ∈ asked ->
  executor_ok (bridged_get_contract_state_delta rf hosted k sm e s).1.1 /\
  answers k rf (fresh_delta k sm) s (bridged_get_contract_state_delta rf hosted k sm e s).2.
Proof using lawsS lawsD states_differ summaries_differ delta_len_nonneg.
  intros Hs He Ha. unfold bridged_get_contract_state_delta. apply (cover_executor_ok hosted) in He.
  set (e0 := ensure_cache_covers_hosted_set hosted e) in *. set (x := match cached_state_hash k s with Some _ => _ | None => _ end).
  assert (Hx : executor_ok x.1 /\ forall d, x.2 = Some d -> fresh_delta k sm s d).
  { unfold x. destruct (cached_state_hash k s) as [h|] eqn:Eh; [|done].
    destruct (co_detector _ Hs k h Eh) as (v & Hv & Ev). destruct (lookup_delta_ok (k, h, summary_hash sm) e0 He) as [H1 H2].
    split; [done|]. intros d Hd. exists v. split; [done|]. apply (H2 d Hd v sm); [by apply (so_written _ Hs)|done|done|done]. }
  destruct x as [e1 [d|]]; cbn [fst snd] in Hx; destruct Hx as [He1 Hf].
  { destruct (Hf d eq_refl) as (v & Hv & E). unfold answers. cbn [fst snd].
    split_and!; [done|intros r [= <-]; by exists v|]. intros r _ _ (v' & Hv' & E'). congruence. }
  destruct (fetch_state_spec rf k s Hs) as [Hr Hc]. destruct (fetch_state rf k s) as [err|v] eqn:Ef.
  { unfold answers. cbn [fst snd]. split_and!; try done. intros r Hrf _ (v & Hv & _). by specialize (Hc v Hrf Hv). }
  pose proof (Hr v eq_refl) as Hv. pose proof (compute_delta_spec rf k sm v e1 s Hs He1 Hv Ha) as H.
  destruct (compute_delta rf k sm v e1 s) as [[e' s'] r]. destruct H as (H1 & H4 & H5). unfold answers. cbn [fst snd].
  split_and!; [done|intros d E; exists v; by auto|]. intros d Hrf Hp (v' & Hv' & E). apply H5; [done|done|]. congruence.
Qed.

Definition pool_ok (p : Pool) : Prop := store_ok (shared p) /\ map_Forall (fun _ e => executor_ok e) (executors p).

Definition known (o : op) : Prop :=
  (forall x, writes o = Some x -> x ∈ written) /\ (forall x, asks o = Some x -> x ∈ asked).

Lemma step_store_ok p o : op_ok o -> known o -> store_ok (shared p) -> store_ok (shared (step p o)).
Proof.
  intros Ho [Hw _] [Hc Hv Hp]. split; [by apply step_coherent|..].
  - intros k v [?|?]%(proj1 (step_tables p o k Hc)); [by apply Hv|by apply Hw].
  - intros k pm [?|[(wf & pf & v & ->)|(wf & ->)]]%(proj2 (step_tables p o k Hc)); [by apply Hp|done|done].
Qed.

Lemma pool_step_ok p o : op_ok o -> known o -> pool_ok p -> pool_ok (step p o).
Proof using lawsS lawsD states_differ summaries_differ summary_len_nonneg delta_len_nonneg.
  intros Ho Hk [Hs He]. split; [by apply step_store_ok|]. destruct o; cbn [step on_store executors] in *; try done.
  - apply map_Forall_insert_2; [apply new_executor_ok|done].
  - destruct (executors p !! i) as [e|] eqn:Ei; [|done].
    pose proof (summarize_right reads_fail hosted k e _ Hs (He i e Ei)) as (H1 & _).
    destruct (bridged_summarize_contract_state _ _ _ _ _) as [[e' s'] r]. by apply map_Forall_insert_2.
  - destruct (executors p !! i) as [e|] eqn:Ei; [|done].
    pose proof (delta_call_right reads_fail hosted k their_summary e _ Hs (He i e Ei) (proj2 Hk _ eq_refl)) as (H1 & _).
    destruct (bridged_get_contract_state_delta _ _ _ _ _ _) as [[e' s'] r]. by apply map_Forall_insert_2.
Qed.

Lemma pool_run_ok uncached os : Forall op_ok os -> Forall known os -> pool_ok (run (start uncached) os).
Proof using lawsS lawsD states_differ summaries_differ summary_len_nonneg delta_len_nonneg.
  intros Hos Hk. assert (H0 : pool_ok (start uncached)).
  { split; [|apply map_Forall_empty]. split; [by destruct uncached|..]; intros k x; destruct uncached; cbn; by rewrite lookup_empty. }
  unfold run. revert H0. generalize (start uncached). induction Hos as [|o os Ho _ IH]; intros p Hp; [done|].
  inversion_clear Hk. apply IH; [done|]. by apply pool_step_ok.
Qed.
End seen.

Lemma known_omap (os : list op) sm : Forall (known (omap writes os) (omap asks os ++ sm)) os.
Proof.
  apply Forall_forall. intros o Ho. split; intros x Hx.
  - apply list_elem_of_omap. by exists o.
  - apply elem_of_app. left. apply list_elem_of_omap. by exists o.
Qed.

(** C19: no peer is answered from a stale state.  The caches find a state and a summary by
    their 64-bit hashes, so suppose that no two states written for the same contract have
    the same hash, and no two summaries that peers sent for it.  Then after any sequence of
    stores, updates, deletions and delegate writes, with any failures of the database, drops
    from the caches, and earlier answers by any executor, the summary an executor
    returns is the one the contract computes for the state now on disk, and the delta
    the one for that state and the peer's summary; and when the database can be read, the
    state and its parameters are there and the contract answers, then so does the
    executor. *)
Theorem answers_are_fresh uncached os i e rf hosted k sm :
  Forall op_ok os ->
  no_collision state_hash (omap writes os) -> no_collision summary_hash (omap asks os ++ [(k, sm)]) ->
  let p := run (start uncached) os in executors p !! i = Some e ->
  answers k rf (fresh_summary k) (shared p) (bridged_summarize_contract_state rf hosted k e (shared p)).2 /\
  answers k rf (fresh_delta k sm) (shared p) (bridged_get_contract_state_delta rf hosted k sm e (shared p)).2.
Proof using lawsS lawsD summary_len_nonneg delta_len_nonneg.
  intros Hos Hv Hsm p Hi.
  destruct (pool_run_ok _ _ Hv Hsm uncached os Hos (known_omap os _)) as [Hs He]. fold p in Hs, He. split.
  - by apply (summarize_right _ _ Hv rf hosted k e _ Hs (He i e Hi)).
  - apply (delta_call_right _ _ Hv Hsm rf hosted k sm e _ Hs (He i e Hi)). apply elem_of_app. right. by left.
Qed.

End correct.
End store.

(** ** A contract that summarises a state by its successor *)

Section example.
Definition same (x : Z) : Z := x.
Definition short_hash (x : Z) : Z := x mod 16.
Definition no_len (_ : Z) : Z := 0.
Definition a_summary (_ _ : nat) (v : Z) : option Z := Some (v + 1).
Definition a_delta (_ _ : nat) (v sm : Z) : option Z := Some (v - sm).
Definition no_params (_ : nat) : nat := 0%nat.
Abbreviation summaries := (list (nat * (Z * Z)) * nat)%type (only parsing).
Abbreviation deltas := (list (nat * Z * Z * Z) * nat)%type (only parsing).
#[local] Existing Instances BL.list_lru BL.list_lru_laws.

(** Stored as 5 and summarised; then a delegate writes 8. *)
Definition a_trace : list (op (K:=nat) (V:=Z) (Pm:=nat) (Sm:=Z)) :=
  [Spawn 0 None; Store false false 1%nat 5 0%nat; Summarize 0 false 10 1%nat; Summarize 0 false 10 1%nat;
   DelegatePut true false 1%nat 8].
Definition a_pool : Pool (K:=nat) (V:=Z) (Pm:=nat) (LS:=summaries) (LD:=deltas) :=
  run same short_hash no_len no_len short_hash a_summary a_delta (start false) a_trace.

Lemma a_trace_no_collision :
  no_collision short_hash (omap writes a_trace) /\ no_collision short_hash (omap asks a_trace ++ [(1%nat, 6)]).
Proof.
  change (omap writes a_trace) with [(1%nat, 5); (1%nat, 8)]. change (omap asks a_trace ++ [(1%nat, 6)]) with [(1%nat, 6)].
  split; intros k v v' H H' E; rewrite ?elem_of_cons, elem_of_nil in H, H'; destruct_or?; simplify_eq; done || by vm_compute in E.
Qed.

Lemma answers_are_fresh_witness :
  exists e, executors a_pool !! 0%nat = Some e /\
    (bridged_summarize_contract_state short_hash no_len a_summary false 10 1%nat e (shared a_pool)).2 = inr 9 /\
    (bridged_get_contract_state_delta short_hash no_len short_hash a_delta false 10 1%nat 6 e (shared a_pool)).2 = inr 2.
Proof.
  destruct (executors a_pool !! 0%nat) as [e|] eqn:E; [|by vm_compute in E]. exists e. split; [done|].
  assert (Hs : states (shared a_pool) !! 1%nat = Some 8) by (vm_compute; reflexivity).
  assert (Hp : is_Some (params (shared a_pool) !! 1%nat)) by (exists 0%nat; vm_compute; reflexivity).
  destruct (answers_are_fresh (LS:=summaries) (LD:=deltas) same short_hash no_len no_len short_hash a_summary a_delta
    (fun _ => Z.le_refl 0) (fun _ => Z.le_refl 0) no_params
    false a_trace 0%nat e false 10 1%nat 6 ltac:(repeat apply Forall_cons_2; try apply Forall_nil_2; done)
    (proj1 a_trace_no_collision) (proj2 a_trace_no_collision) E)
    as [(_ & Hsum) (_ & Hdel)].
  split; [exact (Hsum 9 eq_refl Hp (ex_intro _ 8 (conj Hs eq_refl)))|exact (Hdel 2 eq_refl Hp (ex_intro _ 8 (conj Hs eq_refl)))].
Defined.

(** A state over the limit is refused by [store] and [update], and written by a delegate. *)
Example delegate_write_has_no_size_limit :
  let s := new (K:=nat) (V:=Z) (Pm:=nat) in
  let v := MAX_STATE_SIZE + 1 in
  (store same false false 1%nat v 0%nat s).2 = Some (StateTooLarge 1%nat v MAX_STATE_SIZE) /\
  states (put_contract_state_sync true false 1%nat v s).1 !! 1%nat = Some v.
Proof. by vm_compute. Qed.

(** Two states with the same hash: the second is answered with the summary of the first. *)
Example colliding_states_share_a_summary :
  let p := run same (fun _ => 0) no_len no_len same a_summary a_delta (start false)
             [Spawn 0 None; Store false false 1%nat 5 0%nat; Summarize 0 false 10 1%nat; Update false false 1%nat 8]
           : Pool (K:=nat) (V:=Z) (Pm:=nat) (LS:=summaries) (LD:=deltas) in
  (fun e => (bridged_summarize_contract_state (fun _ => 0) no_len a_summary false 10 1%nat e (shared p)).2)
    <$> executors p !! 0%nat = Some (inr 6).
Proof. by vm_compute. Qed.
End example.
End StateStore.
