(* ===== verification/Reclamation.v ===== *)
(** * Reclaiming evicted contracts

    Models how the disk space of evicted contracts is reclaimed, across the hosting
    manager ([HostingManager.v]), the state tables ([HostingStore.v]), the code store
    ([ContractStore.v]) and the contract handler:
    - [src/crates/core/src/ring.rs]: [commit_state_write] and the sweep task;
    - [operations.rs]: [reclaim_evicted_contract];
    - [contract.rs]: the refusal of an [EvictContract] event;
    - [contract/executor/runtime/pool.rs]: [remove_contract], and in [contract_ops.rs]
      [reclaim_contract_storage];
    - the storing half of a PUT ([operations/put/op_ctx_task.rs]) and of a GET.

    The drivers, the sweep and the contract handler are concurrent tasks.  The handler
    takes one event at a time, so writes and removals never overlap; a removal waits
    for an executor between its guards and the deletion, and everything else can happen
    there ([BeginRemove], [FinishRemove]).  What a task still has to do is part of the
    node: evictions to pass on, contracts written and not hosted yet.  The fair queue
    may deliver events in any order and refuse any of them.  A PUT is one that was
    admitted and validated ([Upsert.v] models what comes before); the writes of delegates,
    which no driver hosts, are left out.  A step that does not apply leaves the node as it is; [None]
    is a panic of the manager. *)

From S2P Require Import Prelude Ordering F64 Location Demand Backoff HostingCache DiskUsage HostingStore HostingManager ContractStore.

Module Reclamation.

Module HC := HostingCache.
Module HS := HostingStore.
Module HM := HostingManager.
Module CS := ContractStore.

#[local] Open Scope Z_scope.

Inductive ReclaimOutcome := Full | Partial.

Section node.
Context {K I C P R Code F : Type}.
Context `{eqK : EqDecision K, cntK : !Countable K, eqI : EqDecision I, cntI : !Countable I}.
Context `{eqC : EqDecision C, cntC : !Countable C, eqP : EqDecision P, cntP : !Countable P}.
Variable key_bytes : K -> list Byte.byte.
Variable key_id : K -> I.
Variable key_code : K -> list Z.
Variable id_bytes : I -> list Byte.byte.
Variable from_id_and_code : I -> list Z -> K.
Variable reg : HM.D.IsotonicRegression R.
Variable exp : f64 -> f64.
Variable active_order : gmap K HM.SubscriptionLease -> list K.
Variable downstream_order : gmap K (gmap P Z) -> list K.
Variable backoff_order : gmap K HM.B.BackoffEntry -> list (K * HM.B.BackoffEntry).
Variable load_versioned : F -> option Code.
Variable to_bytes_versioned : Code -> option F.

Abbreviation Manager := (HM.HostingManager (K:=K) (I:=I) (C:=C) (P:=P) (R:=R)) (only parsing).
Abbreviation CodeStore := (CS.ContractStore (I:=I) (H:=list Z) (Code:=Code) (F:=F)) (only parsing).
Abbreviation manager_step := (HM.step key_bytes key_id key_code id_bytes from_id_and_code reg exp active_order
  downstream_order backoff_order) (only parsing).

Record Node := mkNode {
  manager : Manager;
  code_store : CodeStore;
  evictions : list (K * Z);
  events : list (K * Z);
  written : list K;
  deleting : option K;
}.

Definition with_manager (m : Manager) (n : Node) : Node :=
  mkNode m (code_store n) (evictions n) (events n) (written n) (deleting n).

Definition code_key (k : K) : CS.ContractKey (I:=I) (H:=list Z) := CS.mkKey (key_id k) (key_code k).

(** ** Writing a state *)

Definition commit_state_write (k : K) (size : Z) (m : Manager) : Manager :=
  let '(m, new_gen) := HM.bump_state_generation k m in
  HM.record_state_write k size (HM.refresh_cache_generation k new_gen m).

(** The database write; [None] when the database fails. *)
Definition store_row (now_ms : Z) (k : K) (size : Z) (m : Manager) : option Manager :=
  s ← HM.storage m;
  s ← HS.store_state now_ms (key_id k) size (key_code k) s;
  Some (HM.with_store (Some s) m).

(** The database write and its commit. *)
Definition write_state (now_ms : Z) (k : K) (size : Z) (m : Manager) : option Manager :=
  m ← store_row now_ms k size m; Some (commit_state_write k size m).

(** The handler's half of a PUT: code, then state, then parameters; when the parameters
    cannot be written the state stays and is not committed.  The driver has still to host
    the contract.  The answer: whether the state was committed. *)
Definition put_state (e : nat) (w : CS.write_outcome) (index_fails params_fail : bool) (now_ms : Z) (k : K) (code : Code)
    (size : Z) (n : Node) : Node * bool :=
  match deleting n with
  | Some _ => (n, false)
  | None =>
      let '(c, stored) := CS.put_code to_bytes_versioned load_versioned e w index_fails (code_key k) code (code_store n) in
      match if stored then store_row now_ms k size (manager n) else None with
      | Some m =>
          if params_fail then (mkNode m c (evictions n) (events n) (written n) None, false)
          else (mkNode (commit_state_write k size m) c (evictions n) (events n) (written n ++ [k]) None, true)
      | None => (mkNode (manager n) c (evictions n) (events n) (written n) None, false)
      end
  end.

(** An UPDATE of a stored contract. *)
Definition update_state (now_ms : Z) (k : K) (size : Z) (n : Node) : Node * bool :=
  match deleting n with
  | Some _ => (n, false)
  | None =>
      match s ← HM.storage (manager n); HS.get_state_size (key_id k) s with
      | Some (Some _) =>
          match write_state now_ms k size (manager n) with
          | Some m => (with_manager m n, true)
          | None => (n, false)
          end
      | _ => (n, false)
      end
  end.

(** ** Evicting *)

(** [host_contract] of a PUT or [record_get_access] of a GET, whose driver then holds
    what was evicted. *)
Definition host (now now_ms : Z) (k : K) (size : Z) (a : HC.AccessType) (n : Node) : option Node :=
  '(m, result, _) ← HM.record_contract_access key_bytes key_id key_code id_bytes reg exp now now_ms k size a (manager n);
  Some (mkNode m (code_store n) (evictions n ++ HC.evicted result) (events n)
          (filter (fun k' => k' <> k) (written n)) (deleting n)).

(** The sweep: evict, unsubscribe, and hold what expired. *)
Definition sweep (now : Z) (axes : list (HC.CostAxisPressure (I:=I))) (n : Node) : Node :=
  let '(m, expired, _) := HM.sweep_expired_hosting_with_cost key_bytes key_id now axes (manager n) in
  mkNode (foldl (fun m x => HM.unsubscribe x.1 m) m expired) (code_store n) (evictions n ++ expired) (events n)
    (written n) (deleting n).

(** The end of the sweep: every pending reclamation is tried again, and stays pending. *)
Definition retry_pending (n : Node) : Node :=
  mkNode (manager n) (code_store n) (evictions n ++ HM.pending_reclamation_snapshot (manager n)) (events n)
    (written n) (deleting n).

Definition reclaim_evicted_contract (k : K) (expected_generation : Z) (n : Node) : Node :=
  if HM.contract_in_use key_id k (manager n) then
    with_manager (HM.pending_reclamation_add k expected_generation (manager n)) n
  else mkNode (manager n) (code_store n) (evictions n) (events n ++ [(k, expected_generation)]) (written n) (deleting n).

(** A task passes on the [i]-th eviction it holds. *)
Definition emit (i : nat) (n : Node) : Node :=
  match evictions n !! i with
  | Some (k, g) =>
      reclaim_evicted_contract k g
        (mkNode (manager n) (code_store n) (delete i (evictions n)) (events n) (written n) (deleting n))
  | None => n
  end.

(** The fair queue refuses the [i]-th event. *)
Definition track_pending_reclamation_if_evict (i : nat) (n : Node) : Node :=
  match events n !! i with
  | Some (k, g) =>
      mkNode (HM.pending_reclamation_add k g (manager n)) (code_store n) (evictions n) (delete i (events n)) (written n)
        (deleting n)
  | None => n
  end.

(** ** Removing *)

(** The guards of [remove_contract]; [true] when the deletion goes on. *)
Definition remove_guards (k : K) (expected_generation : Z) (m : Manager) : Manager * bool :=
  if HM.is_hosting_contract k m then (HM.pending_reclamation_remove k m, false)
  else if HM.contract_in_use key_id k m then (HM.pending_reclamation_add k expected_generation m, false)
  else
    let current_generation := HM.generation_of k m in
    if current_generation =? expected_generation then (m, true)
    else if HM.is_hosting_contract k m then (HM.pending_reclamation_remove k m, false)
    else (HM.pending_reclamation_add k current_generation m, false).

(** The handler takes the [i]-th event. *)
Definition begin_remove (i : nat) (n : Node) : Node :=
  match deleting n, events n !! i with
  | None, Some (k, g) =>
      let '(m, go) := remove_guards k g (manager n) in
      mkNode m (code_store n) (evictions n) (delete i (events n)) (written n) (if go then Some k else None)
  | _, _ => n
  end.

(** Deletes state and code; [None] when both fail. *)
Definition reclaim_contract_storage (e : nat) (index_fails load_fails unlink_fails : bool) (k : K) (m : Manager)
    (c : CodeStore) : Manager * CodeStore * option ReclaimOutcome :=
  let '(m, state_ok) :=
    match s ← HM.storage m; HS.remove_state (key_id k) s with
    | Some s => (HM.record_state_removed k (HM.with_store (Some s) m), true)
    | None => (m, false)
    end in
  let '(c, code_ok) := CS.remove_contract e index_fails load_fails unlink_fails (code_key k) c in
  (m, c, if negb state_ok && negb code_ok then None else if state_ok && code_ok then Some Full else Some Partial).

(** The rest of [remove_contract], once an executor is free. *)
Definition finish_remove (e : nat) (index_fails load_fails unlink_fails : bool) (n : Node) : Node * option ReclaimOutcome :=
  match deleting n with
  | None => (n, None)
  | Some k =>
      let '(m, c, outcome) := reclaim_contract_storage e index_fails load_fails unlink_fails k (manager n) (code_store n) in
      let m := match outcome with
               | Some Full => HM.pending_reclamation_remove k (HM.forget_state_generation k m)
               | Some Partial | None => HM.pending_reclamation_add k (HM.generation_of k m) m
               end in
      (mkNode m c (evictions n) (events n) (written n) None, outcome)
  end.

(** ** The node *)

(** The manager's operations that neither evict, write nor reclaim. *)
Definition bookkeeping (o : HM.op (K:=K) (I:=I) (C:=C) (P:=P)) : bool :=
  match o with
  | HM.Access _ _ _ _ | HM.SweepHosting _ | HM.BumpGeneration _ | HM.ForgetGeneration _ | HM.RefreshGeneration _ _
  | HM.SetStorage _ | HM.ClearStorage | HM.PendingAdd _ _ | HM.PendingRemove _ => false
  | _ => true
  end.

Definition database_fails (b : bool) (m : Manager) : Manager :=
  match HM.storage m with
  | Some s => HM.with_store (Some (HS.mkStorage (HS.states s) (HS.metadata s) b)) m
  | None => m
  end.

Inductive op :=
| Manage (o : HM.op (K:=K) (I:=I) (C:=C) (P:=P))
| PutState (e : nat) (w : CS.write_outcome (F:=F)) (index_fails params_fail : bool) (now_ms : Z) (k : K) (code : Code) (size : Z)
| UpdateState (now_ms : Z) (k : K) (size : Z)
| Host (now_ms : Z) (k : K) (size : Z) (a : HC.AccessType)
| Sweep (axes : list (HC.CostAxisPressure (I:=I)))
| RetryPending
| Emit (i : nat)
| Refuse (i : nat)
| BeginRemove (i : nat)
| FinishRemove (e : nat) (index_fails load_fails unlink_fails : bool)
| DatabaseFails (b : bool).

Definition step (now : Z) (o : op) (n : Node) : option Node :=
  match o with
  | Manage o => if bookkeeping o then (fun m => with_manager m n) <$> manager_step now o (manager n) else Some n
  | PutState e w f pf ms k code size => Some (put_state e w f pf ms k code size n).1
  | UpdateState ms k size => Some (update_state ms k size n).1
  | Host ms k size a => host now ms k size a n
  | Sweep axes => Some (sweep now axes n)
  | RetryPending => Some (retry_pending n)
  | Emit i => Some (emit i n)
  | Refuse i => Some (track_pending_reclamation_if_evict i n)
  | BeginRemove i => Some (begin_remove i n)
  | FinishRemove e f1 f2 f3 => Some (finish_remove e f1 f2 f3 n).1
  | DatabaseFails b => Some (with_manager (database_fails b (manager n)) n)
  end.

Definition run (n : Node) (es : list (Z * op)) : option Node :=
  foldl (fun n e => n ← n; step e.1 e.2 n) (Some n) es.

Definition start (budget : Z) : Node :=
  mkNode (HM.set_storage (HS.mkStorage ∅ ∅ false) (HM.with_time_source reg budget)) CS.new [] [] [] None.

(** ** What a step leaves alone *)

Definition write_generations (m : Manager) : gmap K Z := HC.write_generation <$> HC.contracts (HM.hosting_cache m).
Definition states_of (m : Manager) : gmap I Z := match HM.storage m with Some s => HS.states s | None => ∅ end.

(** The part of the manager reclamation depends on. *)
Definition view (m : Manager) : gmap K Z * gmap K Z * gmap K Z * gmap I Z :=
  (write_generations m, HM.state_generation m, HM.pending_reclamation m, states_of m).

Lemma entry_generation_kept (w : gmap K HC.HostedContract) k e e' :
  w !! k = Some e -> HC.write_generation e' = HC.write_generation e ->
  HC.write_generation <$> <[k := e']> w = HC.write_generation <$> w.
Proof. intros Hk He. rewrite fmap_insert, He. apply insert_id. by rewrite lookup_fmap, Hk. Qed.

Lemma abandon_view now k m : view (HM.maybe_record_abandonment key_id now k m) = view m.
Proof.
  unfold HM.maybe_record_abandonment. destruct (negb _); [|done]. unfold view, write_generations. cbn.
  f_equal. f_equal. f_equal. unfold HC.record_abandonment.
  destruct (HC.contracts _ !! k) as [e|] eqn:Ek; [|done]. destruct (HC.abandoned_at e); [done|].
  cbn. by apply (entry_generation_kept _ k e).
Qed.

Lemma remove_client_view id c m : view (HM.remove_client_subscription id c m).1 = view m.
Proof. unfold HM.remove_client_subscription. destruct (HM.client_subscriptions m !! id); [|done]. by case_bool_decide. Qed.

Lemma remove_client_loop_view now c ids out m :
  view (HM.remove_client_loop key_id active_order now c ids out m).1 = view m.
Proof.
  revert out m. induction ids as [|id ids IH]; intros out m; [done|]. cbn.
  destruct (find _ _) as [k|]; rewrite IH, ?abandon_view; apply remove_client_view.
Qed.

Lemma expire_downstream_loop_view now ks m out :
  view (HM.expire_downstream_loop key_id now ks m out).1 = view m.
Proof.
  revert m out. induction ks as [|k ks IH]; intros m out; [done|]. cbn.
  unfold HM.expire_downstream_of. destruct (HM.downstream_subscribers m !! k) as [ps|]; [|apply IH].
  rewrite IH. case_bool_decide; [by rewrite abandon_view|done].
Qed.

Lemma reconcile_loop_view now mx ks f acts m : view (HM.reconcile_loop key_id now mx ks f acts m).1 = view m.
Proof.
  revert f acts m. induction ks as [|k ks IH]; intros f acts m; [done|]. cbn.
  assert (H : view (HM.reconcile_phantom key_id now mx k f m).1.1 = view m)
    by (unfold HM.reconcile_phantom; repeat case_match; done).
  destruct (HM.reconcile_phantom _ _ _ _ _ _) as [[m' f'] a]. rewrite IH. exact H.
Qed.

Lemma tracker_view f m : view (HM.on_tracker f m) = view m.
Proof. unfold HM.on_tracker. by destruct (HM.disk_tracker m). Qed.

Lemma storage_view f m : (forall s, HS.states (f s) = HS.states s) -> view (HM.on_storage f m) = view m.
Proof.
  intros Hf. unfold HM.on_storage. destruct (HM.storage m) as [s|] eqn:Es; [|done].
  unfold view, states_of, write_generations. cbn. by rewrite Es, Hf.
Qed.

Lemma cache_view c m :
  HC.write_generation <$> HC.contracts c = write_generations m -> view (HM.with_cache c m) = view m.
Proof. intros H. unfold view, write_generations in *. cbn. by rewrite H. Qed.

Lemma mark_local_view now k m : view (HM.mark_local_client_access key_id now k m) = view m.
Proof.
  assert (H : view (HM.with_cache (HC.mark_local_client_access now k (HM.hosting_cache m)) m) = view m).
  { apply cache_view. unfold HC.mark_local_client_access. destruct (HC.contracts _ !! k) as [e|] eqn:Ek; [|done].
    cbn. by apply (entry_generation_kept _ k e). }
  unfold HM.mark_local_client_access. destruct (HC.has_local_client_access _ _); [exact H|].
  rewrite storage_view; [exact H|]. intros s. unfold HS.get_hosting_metadata, HS.store_hosting_metadata.
  destruct (HS.failing s) eqn:Ef; [done|]. by destruct (HS.metadata s !! key_id k).
Qed.

Lemma train_view d r m : view (HM.train reg d r m) = view m.
Proof. unfold HM.train. destruct d, r; done. Qed.

Lemma touch_view now k m m' : HM.touch_hosting key_id id_bytes reg exp now k m = Some m' -> view m' = view m.
Proof.
  unfold HM.touch_hosting. destruct (HM.distance_and_demand _ _ _ _ _ _) as [[d dem]|]; [|done]. cbn [mbind option_bind].
  destruct (HC.touch_with_demand now k dem (HM.hosting_cache m)) as [c r] eqn:Et. intros [= <-].
  rewrite train_view. apply cache_view. unfold HC.touch_with_demand in Et. cbn in Et.
  destruct (HC.contracts (HM.hosting_cache m) !! k) as [e|] eqn:Ek; injection Et as <- _; [|done].
  by apply (entry_generation_kept _ k e).
Qed.

Lemma remove_downstream_view now k p m : view (HM.remove_downstream_subscriber key_id now k p m).1 = view m.
Proof.
  unfold HM.remove_downstream_subscriber. destruct (HM.downstream_subscribers m !! k); [|done].
  case_bool_decide; [|done]. apply (abandon_view now k (HM.put_peers k _ m)).
Qed.

Lemma drop_phantom_view now k m : view (HM.drop_phantom_downstream key_id now k m).1 = view m.
Proof.
  unfold HM.drop_phantom_downstream. destruct (0 <? _)%nat; [|done].
  etransitivity; [|exact (abandon_view now k (HM.with_downstream (delete k (HM.downstream_subscribers m)) m))]. done.
Qed.

Lemma bookkeeping_view now o m m' : manager_step now o m = Some m' -> bookkeeping o = true -> view m' = view m.
Proof.
  destruct o; cbn; intros Hs Hb; try discriminate Hb; try (injection Hs as <-); try reflexivity.
  all: try (by apply tracker_view).
  - unfold HM.subscribe. by destruct (HM.active_subscriptions m !! k).
  - unfold HM.renew_subscription. by destruct (HM.active_subscriptions m !! k).
  - unfold HM.record_contract_update. by destruct (HM.active_subscriptions m !! k).
  - apply remove_client_view.
  - apply remove_client_loop_view.
  - unfold HM.add_downstream_subscriber. by destruct (_ && _).
  - unfold HM.renew_downstream_subscriber. destruct (HM.downstream_subscribers m !! k); [|done]. by case_bool_decide.
  - apply remove_downstream_view.
  - apply expire_downstream_loop_view.
  - unfold HM.reconcile_phantom_in_use. by rewrite reconcile_loop_view.
  - exact (drop_phantom_view now k m).
  - apply mark_local_view.
  - by apply (touch_view now k).
  - unfold HM.complete_subscription_request in Hs. destruct success; [by injection Hs as <-|].
    destruct (HM.B.record_failure _ _ _ _ _); [by injection Hs as <-|done].
  - unfold HM.recompute_effective_budget. by destruct (HM.seeded_tracker m).
  - unfold HM.seed_disk_tracker_if_absent. repeat case_match; try done. apply tracker_view.
Qed.

(** ** What an eviction reports *)

(** From [w] to [w'] exactly the contracts of [ev] go, each with its own generation. *)
Definition sheds (ev : list (K * Z)) (w w' : gmap K Z) : Prop :=
  Forall (fun x => w !! x.1 = Some x.2) ev /\ forall k, w' !! k = if decide (k ∈ ev.*1) then None else w !! k.

Lemma sheds_nil w : sheds [] w w.
Proof. split; [done|]. intros k. case_decide; [by apply not_elem_of_nil in H|done]. Qed.

Lemma sheds_app ev1 ev2 w w1 w2 : sheds ev1 w w1 -> sheds ev2 w1 w2 -> sheds (ev1 ++ ev2) w w2.
Proof.
  intros [F1 L1] [F2 L2]. split.
  - apply Forall_app. split; [done|]. eapply Forall_impl; [exact F2|]. intros [k g]. cbn. rewrite L1. by case_decide.
  - intros k. rewrite L2, L1, fmap_app. repeat case_decide; try done; set_solver.
Qed.

Lemma sheds_one k g w : w !! k = Some g -> sheds [(k, g)] w (delete k w).
Proof.
  intros Hk. split; [by repeat constructor|]. intros k'. cbn. case_decide as H.
  - apply list_elem_of_singleton in H as ->. apply lookup_delete_eq.
  - rewrite lookup_delete_ne; [done|]. intros ->. apply H. left.
Qed.

Abbreviation reported := (map (fun e : HC.EvictedContract (K:=K) => (HC.key e, HC.evicted_generation e))) (only parsing).
Abbreviation gens c := (HC.write_generation <$> HC.contracts c) (only parsing).

Lemma evict_loop_sheds p now cands c acc :
  exists ev : list (HC.EvictedContract (K:=K)), (HC.evict_loop p now cands c acc).2 = acc ++ ev /\ sheds (reported ev) (gens c) (gens (HC.evict_loop p now cands c acc).1).
Proof.
  revert c acc. induction cands as [|[[[k l] d] r] cands IH]; intros c acc; cbn.
  { exists []. split; [by rewrite app_nil_r|apply sheds_nil]. }
  destruct (_ <=? _); [exists []; split; [by rewrite app_nil_r|apply sheds_nil]|].
  destruct (HC.contracts c !! k) as [e|] eqn:Ek; [|apply IH].
  match goal with |- context [HC.evict_loop p now cands ?c' (acc ++ [?x])] => destruct (IH c' (acc ++ [x])) as (ev & -> & Hs); exists (x :: ev) end.
  split; [by rewrite <- app_assoc|]. eapply (sheds_app [_]); [|exact Hs]. cbn. rewrite fmap_delete.
  apply sheds_one. by rewrite lookup_fmap, Ek.
Qed.

Lemma cost_loop_sheds offs c acc :
  exists ev : list (HC.EvictedContract (K:=K)), (HC.cost_evict_loop offs c acc).2 = acc ++ ev /\ sheds (reported ev) (gens c) (gens (HC.cost_evict_loop offs c acc).1).
Proof.
  revert c acc. induction offs as [|[k r] offs IH]; intros c acc; cbn.
  { exists []. split; [by rewrite app_nil_r|apply sheds_nil]. }
  destruct (HC.contracts c !! k) as [e|] eqn:Ek; [|apply IH].
  match goal with |- context [HC.cost_evict_loop offs ?c' (acc ++ [?x])] => destruct (IH c' (acc ++ [x])) as (ev & -> & Hs); exists (x :: ev) end.
  split; [by rewrite <- app_assoc|]. eapply (sheds_app [_]); [|exact Hs]. cbn. rewrite fmap_delete.
  apply sheds_one. by rewrite lookup_fmap, Ek.
Qed.

Lemma cost_pressure_sheds now counts axes c acc :
  exists ev : list (HC.EvictedContract (K:=K)), (HC.evict_cost_pressure_loop key_bytes key_id now counts axes c acc).2 = acc ++ ev /\ sheds (reported ev) (gens c) (gens (HC.evict_cost_pressure_loop key_bytes key_id now counts axes c acc).1).
Proof.
  revert c acc. induction axes as [|a axes IH]; intros c acc; cbn.
  { exists []. split; [by rewrite app_nil_r|apply sheds_nil]. }
  destruct (HC.axis_under_pressure a); [|apply IH].
  set (offs := sort_by _ _). destruct (cost_loop_sheds offs c acc) as (ev1 & H1 & S1).
  destruct (HC.cost_evict_loop offs c acc) as [c' acc']. cbn in H1, S1. subst acc'.
  destruct (IH c' (acc ++ ev1)) as (ev2 & -> & S2). exists (ev1 ++ ev2). rewrite app_assoc. split; [done|].
  rewrite map_app. by eapply sheds_app.
Qed.

Lemma over_budget_sheds now counts p prot c :
  sheds (reported (HC.evict_over_budget key_bytes now counts p prot c).2) (gens c)
    (gens (HC.evict_over_budget key_bytes now counts p prot c).1).
Proof.
  unfold HC.evict_over_budget, HC.evict_over_budget_in. destruct (_ <=? _); [apply sheds_nil|].
  destruct (evict_loop_sheds p now (sort_by (HC.victim_order key_bytes) (HC.candidates_of counts p prot (map_to_list (HC.contracts c)))) c [])
    as (ev & -> & H). exact H.
Qed.

Lemma evict_loop_spares p now cands (c : HC.HostingCache (K:=K)) acc k :
  (forall l d r, (k, l, d, r) ∉ cands) -> HC.contracts (HC.evict_loop p now cands c acc).1 !! k = HC.contracts c !! k.
Proof.
  revert c acc. induction cands as [|[[[k' l] d] r] cands IH]; intros c acc Hk; cbn; [done|].
  assert (Hk' : forall l d r, (k, l, d, r) ∉ cands) by (intros l' d' r' H; apply (Hk l' d' r'); by right).
  destruct (_ <=? _); [done|]. destruct (HC.contracts c !! k') as [e|]; [|by apply IH].
  rewrite IH by done. cbn. apply lookup_delete_ne. intros ->. apply (Hk l d r). left.
Qed.

Lemma newcomer_spared now counts k c :
  HC.contracts (HC.evict_over_budget key_bytes now counts HC.AtCapacity (Some k) c).1 !! k = HC.contracts c !! k.
Proof.
  unfold HC.evict_over_budget, HC.evict_over_budget_in. destruct (_ <=? _); [done|].
  apply evict_loop_spares. intros l d r. rewrite sort_by_perm, HC.elem_of_candidates. intros (e & _ & He & _).
  unfold HC.eligible in He. by rewrite bool_decide_true in He.
Qed.

Lemma teardown_view ks m out : view (HM.teardown_all key_id ks m out).1 = view m.
Proof. revert m out. induction ks as [|k ks IH]; intros m out; [done|]. cbn. by rewrite IH. Qed.

Lemma remove_metadata_states ev s : HS.states (HM.remove_metadata key_id ev s) = HS.states s.
Proof.
  revert s. induction ev as [|x ev IH]; intros s; [done|].
  change (HS.states (HM.remove_metadata key_id ev (HS.remove_hosting_metadata (key_id x.1) s)) = HS.states s).
  rewrite IH. unfold HS.remove_hosting_metadata. by destruct (HS.failing s).
Qed.

Lemma unsubscribe_view ev m : view (foldl (fun m (x : K * Z) => HM.unsubscribe x.1 m) m ev) = view m.
Proof. revert m. induction ev as [|x ev IH]; intros m; [done|]. cbn. by rewrite IH. Qed.

(** The manager after an eviction of [ev] from the generations [w]. *)
Definition evicted_view (ev : list (K * Z)) (w : gmap K Z) (m m' : Manager) : Prop :=
  sheds ev w (write_generations m') /\ HM.state_generation m' = HM.state_generation m /\
  HM.pending_reclamation m' = HM.pending_reclamation m /\ states_of m' = states_of m.

Lemma evicted_view_of ev w m m0 m' :
  view m' = view m0 -> HM.state_generation m0 = HM.state_generation m ->
  HM.pending_reclamation m0 = HM.pending_reclamation m -> HM.storage m0 = HM.storage m ->
  sheds ev w (write_generations m0) -> evicted_view ev w m m'.
Proof.
  intros [= Hw Hg Hp Hs] Eg Ep Es Hsh. unfold evicted_view. rewrite Hw, Hg, Hp, Hs, Eg, Ep.
  unfold states_of. by rewrite Es.
Qed.

Lemma access_view now ms k size a m m' r ts :
  HM.record_contract_access key_bytes key_id key_code id_bytes reg exp now ms k size a m = Some (m', r, ts) ->
  evicted_view (HC.evicted r) (<[k := HM.generation_of k m]> (write_generations m)) m m' /\
  is_Some (write_generations m' !! k).
Proof.
  unfold HM.record_contract_access. destruct (HM.distance_and_demand _ _ _ _ _ _) as [[d dem]|]; [|done]. cbn [mbind option_bind].
  destruct (HC.record_access_with_demand _ _ _ _ _ _ _ _ _) as [c r'] eqn:Ea.
  pose proof (teardown_view (HC.evicted_in_use r') (HM.with_cache c m) []) as Ht.
  destruct (HM.teardown_all _ _ _ _) as [m1 ts1]. cbn [fst] in Ht. intros [= <- <- <-].
  assert (Hc : sheds (HC.evicted r') (<[k := HM.generation_of k m]> (write_generations m)) (gens c) /\ is_Some (gens c !! k)).
  { unfold HC.record_access_with_demand in Ea. cbn in Ea. destruct (HC.contracts (HM.hosting_cache m) !! k) as [e|] eqn:Ek.
    - injection Ea as <- <-. cbn. rewrite fmap_insert, lookup_insert_eq. split; [apply sheds_nil|done].
    - match type of Ea with context [HC.evict_over_budget _ _ _ _ _ ?c0] =>
        pose proof (over_budget_sheds now (HM.local_and_downstream_counts key_id m) HC.AtCapacity (Some k) c0) as Hs;
        pose proof (newcomer_spared now (HM.local_and_downstream_counts key_id m) k c0) as Hn end.
      destruct (HC.evict_over_budget _ _ _ _ _ _) as [c1 out]. injection Ea as <- <-. cbn in Hs, Hn |- *.
      rewrite fmap_insert in Hs. rewrite lookup_insert_eq in Hn. rewrite lookup_fmap, Hn. by split. }
  match goal with |- evicted_view _ _ _ ?mm /\ _ => assert (Hv : view mm = view (HM.with_cache c m)) end.
  { rewrite storage_view; [by rewrite train_view|]. intros s. rewrite remove_metadata_states.
    unfold HS.store_hosting_metadata. by destruct (HS.failing s). }
  split.
  - eapply evicted_view_of; [exact Hv|done|done|done|]. apply Hc.
  - injection Hv as Hw _ _ _. rewrite Hw. apply Hc.
Qed.

Lemma sweep_view now axes m :
  let x := HM.sweep_expired_hosting_with_cost key_bytes key_id now axes m in
  evicted_view x.1.2 (write_generations m) m x.1.1.
Proof.
  unfold HM.sweep_expired_hosting_with_cost, HC.sweep_expired.
  pose proof (over_budget_sheds now (HM.local_and_downstream_counts key_id m) HC.AtCapacity None (HM.hosting_cache m)) as H1.
  destruct (HC.evict_over_budget _ _ _ _ _ _) as [c ev]. cbn [fst snd] in H1.
  set (x := if bool_decide (axes = []) then _ else _).
  assert (H2 : sheds (reported x.2) (write_generations m) (gens x.1)).
  { unfold x. case_bool_decide; [done|]. unfold HC.evict_cost_pressure.
    destruct (cost_pressure_sheds now (HM.local_and_downstream_counts key_id m) axes c []) as (ev2 & E2 & H2).
    destruct (HC.evict_cost_pressure_loop _ _ _ _ _ _ _) as [c2 more]. cbn in E2, H2 |- *. subst more.
    rewrite map_app. by eapply sheds_app. }
  destruct x as [c' ev']. cbn [fst snd] in H2.
  pose proof (teardown_view (map HC.key (List.filter HC.was_in_use ev')) (HM.with_cache c' m) []) as Ht.
  destruct (HM.teardown_all _ _ _ _) as [m1 ts]. cbn [fst snd] in *.
  eapply (evicted_view_of _ _ _ (HM.with_cache c' m)); [|done|done|done|exact H2].
  case_bool_decide; [done|]. rewrite storage_view; [done|]. apply remove_metadata_states.
Qed.

(** ** Claims *)

(** Generation [g] of contract [k] is hosted, or named by a reclamation under way. *)
Definition claims (n : Node) (k : K) (g : Z) : Prop :=
  write_generations (manager n) !! k = Some g \/ HM.pending_reclamation (manager n) !! k = Some g \/
  (k, g) ∈ evictions n \/ (k, g) ∈ events n.

Abbreviation generation n k := (HM.generation_of k (manager n)) (only parsing).

Lemma hosting_iff k m : HM.is_hosting_contract k m = true <-> is_Some (write_generations m !! k).
Proof.
  unfold HM.is_hosting_contract, HC.contains, write_generations. rewrite bool_decide_eq_true, lookup_fmap, fmap_is_Some. done.
Qed.

Definition next_generation (k : K) (m : Manager) : Z :=
  match HM.state_generation m !! k with Some g => sat_add64 g 1 | None => 1 end.

Lemma commit_view k size m :
  view (commit_state_write k size m) =
  (if decide (is_Some (write_generations m !! k)) then <[k := next_generation k m]> (write_generations m)
   else write_generations m,
   <[k := next_generation k m]> (HM.state_generation m), HM.pending_reclamation m, states_of m).
Proof.
  unfold commit_state_write, HM.bump_state_generation, HM.record_state_write. rewrite tracker_view.
  unfold view, write_generations at 1. cbn -[HC.refresh_entry_generation]. f_equal. f_equal. f_equal.
  unfold HC.refresh_entry_generation, write_generations. rewrite lookup_fmap.
  destruct (HC.contracts (HM.hosting_cache m) !! k) as [e|]; cbn; [|by case_decide as H; [destruct H|]].
  by rewrite decide_True, fmap_insert by done.
Qed.

Lemma store_row_view ms k size m m' :
  store_row ms k size m = Some m' ->
  view m' = (write_generations m, HM.state_generation m, HM.pending_reclamation m, <[key_id k := size]> (states_of m)).
Proof.
  unfold store_row. destruct (HM.storage m) as [s|] eqn:Es; [|done]. cbn [mbind option_bind].
  unfold HS.store_state. destruct (HS.failing s); [done|]. cbn [mbind option_bind]. intros [= <-].
  unfold view, states_of. by rewrite Es.
Qed.

Lemma write_state_view ms k size m m' :
  write_state ms k size m = Some m' ->
  view m' = (if decide (is_Some (write_generations m !! k)) then <[k := next_generation k m]> (write_generations m)
             else write_generations m,
             <[k := next_generation k m]> (HM.state_generation m), HM.pending_reclamation m,
             <[key_id k := size]> (states_of m)).
Proof.
  unfold write_state. destruct (store_row ms k size m) as [m1|] eqn:Er; [|done]. cbn [mbind option_bind]. intros [= <-].
  rewrite commit_view. apply store_row_view in Er. injection Er as Hw Hs Hp Hst.
  unfold next_generation. by rewrite Hw, Hs, Hp, Hst.
Qed.

Lemma next_generation_grows k m :
  0 <= HM.generation_of k m < u64_max -> next_generation k m = HM.generation_of k m + 1.
Proof. unfold next_generation, HM.generation_of. destruct (HM.state_generation m !! k); cbn; [|lia]. int_lia. Qed.

Lemma reclaim_view e f1 f2 f3 k m c m' c' o :
  reclaim_contract_storage e f1 f2 f3 k m c = (m', c', o) ->
  exists st, view m' = (write_generations m, HM.state_generation m, HM.pending_reclamation m, st) /\
    (st = states_of m \/ st = delete (key_id k) (states_of m)) /\ (o = Some Full -> st = delete (key_id k) (states_of m)).
Proof.
  unfold reclaim_contract_storage. destruct (CS.remove_contract _ _ _ _ _ _) as [c1 ok].
  destruct (HM.storage m) as [s|] eqn:Es; cbn [mbind option_bind].
  2: { intros [= <- _ Ho]. exists (states_of m). split; [done|]. split; [by left|]. intros ->. by destruct ok. }
  unfold HS.remove_state. destruct (HS.failing s) eqn:Ef.
  { intros [= <- _ Ho]. exists (states_of m). split; [done|]. split; [by left|]. intros ->. by destruct ok. }
  intros [= <- _ Ho]. exists (delete (key_id k) (states_of m)). split; [|by split; [right|]].
  unfold HM.record_state_removed. rewrite tracker_view. unfold view, states_of. by rewrite Es.
Qed.

Definition resets (k : K) (o : op) (n : Node) : bool :=
  match o with
  | FinishRemove e f1 f2 f3 =>
      match deleting n, (finish_remove e f1 f2 f3 n).2 with
      | Some k', Some Full => bool_decide (k' = k)
      | _, _ => false
      end
  | _ => false
  end.

(** The step stores and commits a new state of [k]. *)
Definition writes (k : K) (o : op) (n : Node) : bool :=
  match o with
  | PutState e w f pf ms k' code size => bool_decide (k' = k) && (put_state e w f pf ms k' code size n).2
  | UpdateState ms k' size => bool_decide (k' = k) && (update_state ms k' size n).2
  | _ => false
  end.

(** How the generations and claims of [k] may move in a step. *)
Definition moves (k : K) (wrote : bool) (n n' : Node) : Prop :=
  generation n' k = generation n k + (if wrote then 1 else 0) /\
  forall g, claims n' k g -> claims n k g \/ g = generation n' k.

Lemma generation_view (m m' : Manager) k : HM.state_generation m' = HM.state_generation m -> HM.generation_of k m' = HM.generation_of k m.
Proof. unfold HM.generation_of. by intros ->. Qed.

Lemma moves_intro k n n' :
  HM.state_generation (manager n') !! k = HM.state_generation (manager n) !! k ->
  (forall g, claims n' k g -> claims n k g \/ g = generation n k) -> moves k false n n'.
Proof.
  intros Hs Hc. assert (Hg : generation n' k = generation n k) by (unfold HM.generation_of; by rewrite Hs).
  unfold moves. rewrite Hg. split; [lia|done].
Qed.

Lemma in_rest {A} i (l : list A) x y : l !! i = Some x -> y ∈ l <-> y = x \/ y ∈ delete i l.
Proof. intros H. rewrite (delete_Permutation _ _ _ H), elem_of_cons at 1. done. Qed.

Lemma moves_write k k' n n' m' ms size :
  write_state ms k' size (manager n) = Some m' -> 0 <= generation n k < u64_max ->
  manager n' = m' -> evictions n' = evictions n -> events n' = events n -> moves k (bool_decide (k' = k)) n n'.
Proof.
  intros Hw Hg Hm Hev He. unfold moves, claims. rewrite Hm, Hev, He. apply write_state_view in Hw; injection Hw as Hw Hs Hp _.
  assert (Hgen : HM.generation_of k m' = generation n k + (if bool_decide (k' = k) then 1 else 0)).
  { unfold HM.generation_of at 1. rewrite Hs. case_bool_decide as H; [subst|rewrite lookup_insert_ne by done; unfold HM.generation_of; lia].
    rewrite lookup_insert_eq. by apply next_generation_grows. }
  split; [done|]. intros g Hc. rewrite Hw, Hp in Hc.
  destruct Hc as [Hc|Hc]; [|auto]. case_decide as Hd; [|auto].
  destruct (decide (k' = k)) as [->|Hne]; [|rewrite lookup_insert_ne in Hc by done; auto].
  rewrite lookup_insert_eq in Hc. injection Hc as <-. right.
  rewrite Hgen, bool_decide_true by done. by apply next_generation_grows.
Qed.

Lemma pending_add_claims k g0 (m : Manager) k' g :
  HM.pending_reclamation (HM.pending_reclamation_add k' g0 m) !! k = Some g ->
  (k' = k /\ g = g0) \/ HM.pending_reclamation m !! k = Some g.
Proof. cbn. intros [[-> <-]|[_ ?]]%lookup_insert_Some; auto. Qed.

Lemma pending_remove_claims (m : Manager) k k' g :
  HM.pending_reclamation (HM.pending_reclamation_remove k' m) !! k = Some g -> HM.pending_reclamation m !! k = Some g.
Proof. cbn. by intros [_ ?]%lookup_delete_Some. Qed.

Lemma emit_moves k i n : moves k false n (emit i n).
Proof.
  unfold emit. destruct (evictions n !! i) as [[k0 g0]|] eqn:Ei; [|apply moves_intro; auto].
  pose proof (fun y => in_rest i _ _ y Ei) as Hin. unfold reclaim_evicted_contract.
  destruct (HM.contract_in_use _ _ _); (apply moves_intro; [done|]); intros g; unfold claims; cbn [manager evictions events with_manager].
  - intros [?|[Hp|[?|?]]]; [auto| |left; right; right; left; apply Hin; auto|auto].
    apply pending_add_claims in Hp as [[-> ->]|?]; [|auto]. left. right. right. left. apply Hin. auto.
  - intros [?|[?|[?|He]]]; [auto|auto|left; right; right; left; apply Hin; auto|].
    apply elem_of_app in He as [?|He]; [auto|]. apply list_elem_of_singleton in He as [= -> ->].
    left. right. right. left. apply Hin. auto.
Qed.

Lemma refuse_moves k i n : moves k false n (track_pending_reclamation_if_evict i n).
Proof.
  unfold track_pending_reclamation_if_evict. destruct (events n !! i) as [[k0 g0]|] eqn:Ei; [|apply moves_intro; auto].
  pose proof (fun y => in_rest i _ _ y Ei) as Hin.
  apply moves_intro; [done|]. intros g. unfold claims. cbn [manager evictions events].
  intros [?|[Hp|[?|?]]]; [auto| |auto|left; right; right; right; apply Hin; auto].
  apply pending_add_claims in Hp as [[-> ->]|?]; [|auto]. left. right. right. right. apply Hin. auto.
Qed.

Lemma guards_pending k g0 m m' go k' g :
  remove_guards k g0 m = (m', go) -> HM.pending_reclamation m' !! k' = Some g ->
  HM.pending_reclamation m !! k' = Some g \/ (k' = k /\ (g = g0 \/ g = HM.generation_of k m)).
Proof.
  unfold remove_guards. destruct (HM.is_hosting_contract k m).
  { intros [= <- _] Hp%pending_remove_claims. auto. }
  destruct (HM.contract_in_use _ _ _); [|destruct (_ =? _)]; intros [= <- _]; [| |]; intros Hp; [|auto|];
    apply pending_add_claims in Hp as [[-> ->]|?]; auto.
Qed.

Lemma guards_same k g0 m m' go :
  remove_guards k g0 m = (m', go) ->
  write_generations m' = write_generations m /\ HM.state_generation m' = HM.state_generation m /\ states_of m' = states_of m.
Proof.
  unfold remove_guards. repeat case_match; by intros [= <- _].
Qed.

Lemma begin_moves k i n : moves k false n (begin_remove i n).
Proof.
  unfold begin_remove. destruct (deleting n) eqn:Ed; [apply moves_intro; auto|].
  destruct (events n !! i) as [[k0 g0]|] eqn:Ei; [|apply moves_intro; auto].
  pose proof (fun y => in_rest i _ _ y Ei) as Hin. destruct (remove_guards k0 g0 (manager n)) as [m go] eqn:Eg.
  destruct (guards_same _ _ _ _ _ Eg) as (Hw & Hs & _).
  apply moves_intro; [by cbn; rewrite Hs|]. intros g. unfold claims. cbn [manager evictions events]. rewrite Hw.
  intros [?|[H|[?|?]]]; [auto| |auto|left; right; right; right; apply Hin; auto].
  destruct (guards_pending _ _ _ _ _ k g Eg H) as [?|[-> [-> | ->]]]; [auto| |auto]. left. right. right. right. apply Hin. auto.
Qed.

Lemma finish_moves k e f1 f2 f3 n :
  resets k (FinishRemove e f1 f2 f3) n = false -> moves k false n (finish_remove e f1 f2 f3 n).1.
Proof.
  unfold resets, finish_remove. destruct (deleting n) as [k0|]; [|intros _; apply moves_intro; auto].
  destruct (reclaim_contract_storage _ _ _ _ _ _ _) as [[m c] o] eqn:Er.
  destruct (reclaim_view _ _ _ _ _ _ _ _ _ _ Er) as (st & [= Hw Hs Hp _] & _). cbn [fst snd]. intros Hr.
  assert (Hk : o = Some Full -> k0 <> k) by (intros ->; by apply bool_decide_eq_false in Hr).
  destruct o as [[]|]; (apply moves_intro; [cbn; rewrite Hs|]).
  1: by rewrite lookup_delete_ne by (by apply Hk).
  2, 4: done.
  all: intros g; unfold claims; cbn [manager evictions events].
  - change (write_generations (HM.pending_reclamation_remove k0 (HM.forget_state_generation k0 m))) with (write_generations m).
    rewrite Hw. intros [?|[H|?]]; [auto| |auto]. apply pending_remove_claims in H. cbn in H. rewrite Hp in H. auto.
  - change (write_generations (HM.pending_reclamation_add k0 (HM.generation_of k0 m) m)) with (write_generations m).
    rewrite Hw. intros [?|[H|?]]; [auto| |auto]. apply pending_add_claims in H as [[-> ->]|H]; [|rewrite Hp in H; auto].
    right. by apply generation_view.
  - change (write_generations (HM.pending_reclamation_add k0 (HM.generation_of k0 m) m)) with (write_generations m).
    rewrite Hw. intros [?|[H|?]]; [auto| |auto]. apply pending_add_claims in H as [[-> ->]|H]; [|rewrite Hp in H; auto].
    right. by apply generation_view.
Qed.

Lemma evicted_moves k n n' ev w :
  evicted_view ev w (manager n) (manager n') -> evictions n' = evictions n ++ ev -> events n' = events n ->
  (forall g, w !! k = Some g -> claims n k g \/ g = generation n k) -> moves k false n n'.
Proof.
  intros ([Hf Hw] & Hs & Hp & _) Hev He Hk. apply moves_intro; [by rewrite Hs|].
  intros g. unfold claims at 1. rewrite Hw, Hp, Hev, He. case_decide; intros [H'|[?|[H'|?]]]; try done; try (left; unfold claims; by auto).
  2: by apply Hk.
  all: apply elem_of_app in H' as [?|H']; [left; unfold claims; by auto|].
  all: apply Hk; rewrite Forall_forall in Hf; exact (Hf (k, g) H').
Qed.

Lemma step_moves now o n n' k :
  step now o n = Some n' -> resets k o n = false -> 0 <= generation n k < u64_max -> moves k (writes k o n) n n'.
Proof.
  intros Hs Hr Hg. destruct o; cbn [step writes] in *; try (injection Hs as <-).
  - destruct (bookkeeping o) eqn:Eb; [|injection Hs as <-; apply moves_intro; auto].
    destruct (manager_step now o (manager n)) as [m|] eqn:Em; [|done]. injection Hs as <-.
    pose proof (bookkeeping_view now o _ _ Em Eb) as [= Hw Hsg Hp _].
    apply moves_intro; [by cbn; rewrite Hsg|]. intros g. unfold claims. cbn. rewrite Hw, Hp. auto.
  - unfold put_state. destruct (deleting n); [rewrite andb_false_r; apply moves_intro; auto|].
    destruct (CS.put_code _ _ _ _ _ _ _ _) as [c ok].
    destruct (if ok then _ else _) as [m|] eqn:Ew; cbn [snd]; [|rewrite andb_false_r; apply moves_intro; auto].
    destruct ok; [|done]. destruct params_fail; cbn [snd].
    + rewrite andb_false_r. apply store_row_view in Ew. injection Ew as Hw Hs Hp _.
      apply moves_intro; [by cbn; rewrite Hs|]. intros g. unfold claims. cbn. rewrite Hw, Hp. auto.
    + rewrite andb_true_r. apply (moves_write k k0 n _ (commit_state_write k0 size m) now_ms size); try done.
      unfold write_state. by rewrite Ew.
  - unfold update_state. destruct (deleting n) eqn:Ed; [rewrite andb_false_r; apply moves_intro; auto|].
    destruct (s ← HM.storage (manager n); HS.get_state_size (key_id k0) s) as [[z|]|]; try (rewrite andb_false_r; apply moves_intro; by auto).
    destruct (write_state _ _ _ _) as [m|] eqn:Ew; cbn [snd]; [|rewrite andb_false_r; apply moves_intro; auto].
    rewrite andb_true_r. by apply (moves_write k k0 n _ m now_ms size).
  - unfold host in Hs. destruct (HM.record_contract_access _ _ _ _ _ _ _ _ _ _ _ _) as [[[m r] ts]|] eqn:Ea; [|done].
    injection Hs as <-. destruct (access_view _ _ _ _ _ _ _ _ _ Ea) as [Hv _].
    eapply evicted_moves; [exact Hv|done|done|]. intros g [[-> <-]|[_ H]]%lookup_insert_Some; [auto|left; by left].
  - unfold sweep. pose proof (sweep_view now axes (manager n)) as Hv.
    destruct (HM.sweep_expired_hosting_with_cost _ _ _ _ _) as [[m ex] ts]. cbn [fst snd] in Hv.
    apply (evicted_moves k n _ ex (write_generations (manager n))); [|done|done|intros g H; left; by left].
    destruct Hv as (Hw & Hsg & Hp & Hst). pose proof (unsubscribe_view ex m) as [= Ew Esg Ep Est].
    unfold evicted_view. cbn. by rewrite Ew, Esg, Ep, Est.
  - apply moves_intro; [done|]. intros g. unfold claims. cbn. rewrite elem_of_app.
    intros [?|[?|[[?|H]|?]]]; auto. apply elem_of_map_to_list in H. auto.
  - apply emit_moves.
  - apply refuse_moves.
  - apply begin_moves.
  - by apply finish_moves.
  - apply moves_intro; [|intros g]; unfold claims, database_fails; cbn; destruct (HM.storage (manager n)); auto.
Qed.

(** ** Stale evictions *)

Fixpoint unreset (k : K) (n : Node) (es : list (Z * op)) : bool :=
  match es with
  | [] => true
  | e :: es =>
      negb (resets k e.2 n) && match step e.1 e.2 n with Some n' => unreset k n' es | None => true end
  end.

Lemma node_run_cons n e es : run n (e :: es) = step e.1 e.2 n ≫= fun n' => run n' es.
Proof. unfold run. cbn. destruct (step e.1 e.2 n) as [n'|]; [done|]. by induction es. Qed.

Lemma run_app n es1 es2 n1 : run n es1 = Some n1 -> run n (es1 ++ es2) = run n1 es2.
Proof. intros H. unfold run in *. by rewrite foldl_app, H. Qed.

Lemma unreset_app k n es1 es2 n1 :
  run n es1 = Some n1 -> unreset k n (es1 ++ es2) = unreset k n es1 && unreset k n1 es2.
Proof.
  revert n. induction es1 as [|e es1 IH]; intros n; [by intros [= <-]|]. rewrite node_run_cons. cbn.
  destruct (step e.1 e.2 n) as [n'|]; [|done]. cbn. intros H. by rewrite (IH n' H), andb_assoc.
Qed.

Lemma run_moves k n es n' :
  run n es = Some n' -> unreset k n es = true -> 0 <= generation n k -> generation n k + Z.of_nat (length es) <= u64_max ->
  generation n k <= generation n' k <= generation n k + Z.of_nat (length es) /\
  ((forall g, claims n k g -> g <= generation n k) -> forall g, claims n' k g -> g <= generation n' k).
Proof.
  revert n. induction es as [|e es IH]; intros n; [intros [= <-]; split; [lia|done]|].
  rewrite node_run_cons. cbn [unreset length]. destruct (step e.1 e.2 n) as [n1|] eqn:Es; [|done]. cbn [mbind option_bind].
  intros Hr [Hu1 Hu]%andb_prop Hg Hl. apply negb_true_iff in Hu1.
  destruct (step_moves _ _ _ _ k Es Hu1 ltac:(lia)) as [Hgen Hc].
  assert (Hd : 0 <= (if writes k e.2 n then 1 else 0) <= 1) by (destruct (writes k e.2 n); lia).
  destruct (IH n1 Hr Hu ltac:(lia) ltac:(lia)) as [H1 H2]. split; [lia|].
  intros Hb. apply H2. intros g [Hcl|H]%Hc; [apply Hb in Hcl|]; lia.
Qed.

Lemma start_no_claims budget k g : ~ claims (start budget) k g.
Proof.
  unfold claims, write_generations. cbn. rewrite fmap_empty, !lookup_empty.
  intros [?|[?|[H|H]]]; try done; by apply not_elem_of_nil in H.
Qed.

Lemma begin_stale i n k g :
  events n !! i = Some (k, g) -> generation n k <> g ->
  deleting (begin_remove i n) = deleting n /\ states_of (manager (begin_remove i n)) = states_of (manager n).
Proof.
  intros Hi Hg. unfold begin_remove. destruct (deleting n) eqn:Ed; [by rewrite Ed|]. rewrite Hi.
  destruct (remove_guards k g (manager n)) as [m go] eqn:Er. destruct (guards_same _ _ _ _ _ Er) as (_ & _ & Hs).
  cbn. split; [|done]. destruct go; [|done]. exfalso. unfold remove_guards in Er.
  repeat case_match; simplify_eq. to_props. lia.
Qed.

(** C18: an eviction never deletes a state written after it was decided.  Let a contract be evicted,
    pending or hosted at generation [g] when a PUT or an UPDATE stores a new state of it.  Whatever
    the tasks do afterwards, in any order and with any failures, handling the removal event of
    generation [g] deletes nothing, as long as the contract's storage is not fully reclaimed (which
    restarts its generations) and fewer than 2^64 steps were taken. *)
Theorem stale_eviction_deletes_nothing budget es1 now o es2 k g n1 n2 n i :
  run (start budget) es1 = Some n1 -> claims n1 k g ->
  step now o n1 = Some n2 -> writes k o n1 = true -> run n2 es2 = Some n ->
  unreset k (start budget) (es1 ++ (now, o) :: es2) = true ->
  Z.of_nat (length (es1 ++ (now, o) :: es2)) <= u64_max ->
  events n !! i = Some (k, g) ->
  deleting (begin_remove i n) = deleting n /\ states_of (manager (begin_remove i n)) = states_of (manager n).
Proof.
  intros H1 Hc Ho Hw H2 Hu Hl Hi. rewrite (unreset_app _ _ _ _ _ H1) in Hu. apply andb_prop in Hu as [Hu1 Hu].
  cbn in Hu. rewrite Ho in Hu. apply andb_prop in Hu as [Huo Hu2]. apply negb_true_iff in Huo.
  rewrite length_app in Hl. cbn [length] in Hl. assert (H0 : generation (start budget) k = 0) by done.
  destruct (run_moves k _ _ _ H1 Hu1 ltac:(lia) ltac:(lia)) as [G1 C1].
  assert (Hgk : g <= generation n1 k) by (apply C1; [intros g' H; by apply start_no_claims in H|done]).
  destruct (step_moves _ _ _ _ k Ho Huo ltac:(lia)) as [G2 _]. rewrite Hw in G2.
  destruct (run_moves k _ _ _ H2 Hu2 ltac:(lia) ltac:(lia)) as [G3 _].
  apply (begin_stale i n k g Hi). lia.
Qed.

(** ** Nothing on disk is forgotten *)

(** The node hosts [k], is about to, or has a reclamation of it under way. *)
Definition tracked (n : Node) (k : K) : Prop :=
  HM.is_hosting_contract k (manager n) = true \/ k ∈ written n \/ deleting n = Some k \/
  is_Some (HM.pending_reclamation (manager n) !! k) \/ k ∈ (evictions n).*1 \/ k ∈ (events n).*1.

Lemma elem_of_firsts {A B} (l : list (A * B)) a : a ∈ l.*1 <-> exists b, (a, b) ∈ l.
Proof.
  rewrite list_elem_of_fmap. split; [intros ([a' b] & -> & ?); by exists b|]. intros [b ?]. by exists (a, b).
Qed.

Lemma tracked_iff n k : tracked n k <-> (exists g, claims n k g) \/ k ∈ written n \/ deleting n = Some k.
Proof.
  unfold tracked, claims. rewrite hosting_iff, !elem_of_firsts. unfold is_Some. split.
  - intros [[g ?]|[?|[?|[[g ?]|[[g ?]|[g ?]]]]]]; auto; left; exists g; auto.
  - intros [[g [?|[?|[?|?]]]]|[?|?]]; eauto 8.
Qed.

(** What a step may do to the tracking of the states on disk. *)
Definition keeps (n n' : Node) : Prop :=
  (forall id, is_Some (states_of (manager n') !! id) ->
     is_Some (states_of (manager n) !! id) \/ exists k, key_id k = id /\ tracked n' k) /\
  forall k, tracked n k -> tracked n' k \/ states_of (manager n') !! key_id k = None.

Lemma keeps_same n n' :
  states_of (manager n') = states_of (manager n) -> (forall k, tracked n k -> tracked n' k) -> keeps n n'.
Proof. intros Hs Ht. split; [rewrite Hs|]; auto. Qed.

Lemma keeps_lists n n' :
  view (manager n') = view (manager n) ->
  written n' = written n -> deleting n' = deleting n ->
  (forall x, x ∈ evictions n \/ x ∈ events n -> x ∈ evictions n' \/ x ∈ events n') -> keeps n n'.
Proof.
  intros [= Hw Hs Hp Hst] Hwr Hd Hx. apply keeps_same; [done|]. intros k. rewrite !tracked_iff, Hwr, Hd.
  intros [[g Hc]|?]; [|auto]. left. exists g. unfold claims in *. rewrite Hw, Hp.
  destruct Hc as [?|[?|Hc]]; [auto|auto|]. destruct (Hx _ Hc); auto.
Qed.

Lemma pending_add_tracked k g (m : Manager) : is_Some (HM.pending_reclamation (HM.pending_reclamation_add k g m) !! k).
Proof. cbn. by rewrite lookup_insert_eq. Qed.

(** An eviction or event of [k0] turned into a pending reclamation. *)
Lemma keeps_pending n n' k0 g0 :
  manager n' = HM.pending_reclamation_add k0 g0 (manager n) -> written n' = written n ->
  (forall k, deleting n = Some k -> deleting n' = Some k \/ k = k0) ->
  (forall x, x ∈ evictions n \/ x ∈ events n -> x.1 = k0 \/ x ∈ evictions n' \/ x ∈ events n') -> keeps n n'.
Proof.
  intros Hm Hwr Hd Hx. apply keeps_same; [by rewrite Hm|]. intros k.
  destruct (decide (k = k0)) as [->|Hne].
  { intros _. right. right. right. left. rewrite Hm. apply pending_add_tracked. }
  rewrite !tracked_iff, Hwr. intros [[g Hc]|[?|Hk]]; [|auto|destruct (Hd k Hk); auto; done].
  left. exists g. unfold claims in *. rewrite Hm. cbn. rewrite lookup_insert_ne by done.
  destruct Hc as [?|[?|Hc]]; [auto|auto|]. destruct (Hx _ Hc) as [?|[?|?]]; auto. done.
Qed.

Lemma emit_keeps i n : keeps n (emit i n).
Proof.
  unfold emit. destruct (evictions n !! i) as [[k0 g0]|] eqn:Ei; [|by apply keeps_lists].
  pose proof (fun y => in_rest i _ _ y Ei) as Hin. unfold reclaim_evicted_contract.
  destruct (HM.contract_in_use _ _ _).
  - eapply keeps_pending; [done|done|auto|]. intros x. cbn. rewrite Hin. intros [[-> |?]|?]; auto.
  - apply keeps_lists; [done..|]. intros x. cbn. rewrite Hin, elem_of_app. intros [[-> |?]|?]; auto.
    right. right. left.
Qed.

Lemma refuse_keeps i n : keeps n (track_pending_reclamation_if_evict i n).
Proof.
  unfold track_pending_reclamation_if_evict. destruct (events n !! i) as [[k0 g0]|] eqn:Ei; [|by apply keeps_lists].
  eapply keeps_pending; [done|done|auto|]. intros x. cbn. rewrite (in_rest i _ _ x Ei). intros [?|[-> |?]]; auto.
Qed.

Lemma begin_keeps i n : keeps n (begin_remove i n).
Proof.
  unfold begin_remove. destruct (deleting n) eqn:Ed; [by apply keeps_lists|].
  destruct (events n !! i) as [[k0 g0]|] eqn:Ei; [|by apply keeps_lists].
  pose proof (fun y => in_rest i _ _ y Ei) as Hin. unfold remove_guards.
  assert (Hp : forall g, keeps n (mkNode (HM.pending_reclamation_add k0 g (manager n)) (code_store n) (evictions n)
    (delete i (events n)) (written n) None)).
  { intros g. eapply keeps_pending; [done|done|by rewrite Ed|]. intros x. cbn. rewrite Hin. intros [?|[-> |?]]; auto. }
  destruct (HM.is_hosting_contract k0 (manager n)) eqn:Eh; [|destruct (HM.contract_in_use _ _ _); [apply Hp|]].
  2: destruct (_ =? _); [|apply Hp].
  all: apply keeps_same; [done|]; intros k Ht; destruct (decide (k = k0)) as [-> |Hne]; [by (left + (right; right; left))|].
  all: rewrite tracked_iff in *; cbn [written deleting]; rewrite Ed in Ht.
  all: destruct Ht as [[g Hc]|[?|?]]; [|auto|done]; left; exists g; unfold claims in *; cbn; rewrite Hin in Hc.
  - rewrite lookup_delete_ne by done. destruct Hc as [?|[?|[?|[[= ? ?]|?]]]]; auto. done.
  - destruct Hc as [?|[?|[?|[[= ? ?]|?]]]]; auto. done.
Qed.

Lemma finish_keeps e f1 f2 f3 n : keeps n (finish_remove e f1 f2 f3 n).1.
Proof.
  unfold finish_remove. destruct (deleting n) as [k0|] eqn:Ed; [|by apply keeps_lists].
  destruct (reclaim_contract_storage _ _ _ _ _ _ _) as [[m c] o] eqn:Er.
  destruct (reclaim_view _ _ _ _ _ _ _ _ _ _ Er) as (st & [= Hw Hs Hp Hst] & Hor & Hfull). cbn [fst].
  assert (Hsub : forall id, is_Some (states_of m !! id) -> is_Some (states_of (manager n) !! id)).
  { intros id [z Hz]. rewrite Hst in Hz. destruct Hor as [-> | ->]; [by eexists|]. apply lookup_delete_Some in Hz as [_ ?]. by eexists. }
  assert (Hk : forall k g, k <> k0 -> claims n k g -> write_generations m !! k = Some g \/ HM.pending_reclamation m !! k = Some g
    \/ (k, g) ∈ evictions n \/ (k, g) ∈ events n) by (intros k g _; unfold claims; by rewrite Hw, Hp).
  destruct o as [[]|]; (split; [intros id Hid; left; apply Hsub; exact Hid|]); intros k Ht;
    destruct (decide (k = k0)) as [-> |Hne].
  1: { right. cbn. change (states_of m !! key_id k0 = None). rewrite Hst, Hfull by done. apply lookup_delete_eq. }
  2, 4: left; right; right; right; left; apply pending_add_tracked.
  all: left; rewrite tracked_iff in *; rewrite Ed in Ht; cbn [written deleting].
  all: destruct Ht as [[g Hc]|[?|[= ?]]]; [|auto|done]; left; exists g; apply Hk in Hc; [|done].
  all: unfold claims; cbn; rewrite ?lookup_delete_ne, ?lookup_insert_ne by done; exact Hc.
Qed.

(** A write leaves the hosted set and the reclamations alone. *)
Lemma write_keeps n n' m ms k0 size :
  write_state ms k0 size (manager n) = Some m -> manager n' = m ->
  evictions n' = evictions n -> events n' = events n -> deleting n' = deleting n -> (forall k, k ∈ written n -> k ∈ written n') ->
  is_Some (states_of (manager n) !! key_id k0) \/ k0 ∈ written n' -> keeps n n'.
Proof.
  intros Hw%write_state_view Hm Hev He Hd Hwr Hk. subst m. injection Hw as Hw _ Hp Hst. split.
  - intros id. rewrite Hst. intros [z [[<- _]|[_ Hz]]%lookup_insert_Some]; [|left; by exists z].
    destruct Hk as [?|Hk]; [by left|right]. exists k0. split; [done|]. by right; left.
  - intros k Ht. left. unfold tracked in *. rewrite hosting_iff in *. rewrite Hp, Hev, He, Hd, Hw.
    destruct Ht as [Hh|[?|Ht]]; [|auto|auto]. left. case_decide; [|done].
    destruct (decide (k = k0)) as [-> |]; [by rewrite lookup_insert_eq|by rewrite lookup_insert_ne].
Qed.

Lemma evicted_keeps n n' ev w :
  evicted_view ev w (manager n) (manager n') -> evictions n' = evictions n ++ ev -> events n' = events n ->
  deleting n' = deleting n -> (forall k, is_Some (write_generations (manager n) !! k) -> is_Some (w !! k)) ->
  (forall k, k ∈ written n -> k ∈ written n' \/ is_Some (write_generations (manager n') !! k)) -> keeps n n'.
Proof.
  intros ([_ Hw] & _ & Hp & Hst) Hev He Hd Hsub Hwr. apply keeps_same; [done|]. intros k Ht.
  unfold tracked in *. rewrite hosting_iff in *. rewrite Hp, Hev, He, Hd, fmap_app, elem_of_app.
  destruct Ht as [Hh|[Hk|[?|[?|[?|?]]]]]; [|destruct (Hwr k Hk); by auto|by auto 8..].
  apply Hsub in Hh. rewrite Hw. case_decide; [by auto 8|by auto].
Qed.

(** No write of parameters fails. *)
Definition params_written (o : op) : bool := match o with PutState _ _ _ params_fail _ _ _ _ => negb params_fail | _ => true end.

Lemma node_step_keeps now o n n' : step now o n = Some n' -> params_written o = true -> keeps n n'.
Proof.
  intros Hs Ho. destruct o; cbn [step] in Hs; try (injection Hs as <-).
  - destruct (bookkeeping o) eqn:Eb; [|injection Hs as <-; by apply keeps_lists].
    destruct (manager_step now o (manager n)) as [m|] eqn:Em; [|done]. injection Hs as <-.
    apply keeps_lists; try done. by apply (bookkeeping_view now o).
  - unfold put_state. destruct (deleting n) eqn:Ed; [by apply keeps_lists|].
    destruct (CS.put_code _ _ _ _ _ _ _ _) as [c ok].
    destruct (if ok then _ else _) as [m|] eqn:Ew; cbn [fst]; [|by apply keeps_lists].
    destruct ok; [|done]. destruct params_fail; [done|].
    apply (write_keeps n _ (commit_state_write k size m) now_ms k size); try done; cbn; [|set_solver..].
    unfold write_state. by rewrite Ew.
  - unfold update_state. destruct (deleting n) eqn:Ed; [by apply keeps_lists|].
    destruct (s ← HM.storage (manager n); HS.get_state_size (key_id k) s) as [[z|]|] eqn:Ez; try by apply keeps_lists.
    destruct (write_state _ _ _ _) as [m|] eqn:Ew; cbn [fst]; [|by apply keeps_lists].
    apply (write_keeps n _ m now_ms k size); try done. left. unfold states_of.
    destruct (HM.storage (manager n)) as [s|]; [|done]. cbn in Ez. unfold HS.get_state_size in Ez.
    destruct (HS.failing s); [done|]. injection Ez as Ez. by exists z.
  - unfold host in Hs. destruct (HM.record_contract_access _ _ _ _ _ _ _ _ _ _ _ _) as [[[m r] ts]|] eqn:Ea; [|done].
    injection Hs as <-. destruct (access_view _ _ _ _ _ _ _ _ _ Ea) as [Hv Hk].
    eapply evicted_keeps; [exact Hv|done..| |]; cbn.
    + intros k' [g Hg]. destruct (decide (k' = k)) as [-> |]; [by rewrite lookup_insert_eq|by rewrite lookup_insert_ne].
    + intros k' Hk'. destruct (decide (k' = k)) as [-> |]; [by right|left]. by apply list_elem_of_filter.
  - unfold sweep. pose proof (sweep_view now axes (manager n)) as Hv.
    destruct (HM.sweep_expired_hosting_with_cost _ _ _ _ _) as [[m ex] ts]. cbn [fst snd] in Hv.
    apply (evicted_keeps n _ ex (write_generations (manager n))); try done; [|by auto].
    destruct Hv as (Hw & Hsg & Hp & Hst). pose proof (unsubscribe_view ex m) as [= Ew Esg Ep Est].
    unfold evicted_view. cbn. by rewrite Ew, Esg, Ep, Est.
  - apply keeps_lists; [done..|]. intros x. cbn. rewrite elem_of_app. intros [?|?]; auto.
  - apply emit_keeps.
  - apply refuse_keeps.
  - apply begin_keeps.
  - apply finish_keeps.
  - apply keeps_lists; try done. unfold database_fails. cbn.
    destruct (HM.storage (manager n)) as [s|] eqn:E; [|done]. unfold view, states_of. cbn. by rewrite E.
Qed.

(** C17: no state on disk is ever forgotten.  In every run of the node - PUTs, UPDATEs, accesses that
    evict, sweeps, refused and reordered removal events, clients and peers coming and going, database
    and file-system failures at any point - a contract whose state is on disk is hosted, or was just
    written and waits to be hosted, or a reclamation of it is under way: held by the task that evicted
    it, queued for the contract handler, being deleted, or pending for the next sweep.  The one
    exception is a PUT whose state is written and whose parameters are not. *)
Theorem stored_state_is_tracked budget es n id :
  run (start budget) es = Some n -> Forall (fun e => params_written e.2 = true) es -> is_Some (states_of (manager n) !! id) ->
  exists k, key_id k = id /\ tracked n k.
Proof.
  enough (H : forall n0 es, (forall id, is_Some (states_of (manager n0) !! id) -> exists k, key_id k = id /\ tracked n0 k) ->
    Forall (fun e => params_written e.2 = true) es -> run n0 es = Some n -> forall id, is_Some (states_of (manager n) !! id) -> exists k, key_id k = id /\ tracked n k).
  { intros Hr Hok. apply (H (start budget) es); [|done..]. intros id' Hid. cbn in Hid. rewrite lookup_empty in Hid. by destruct Hid. }
  clear. intros n0 es. revert n0. induction es as [|e es IH]; intros n0 Hinv Hok; [by intros [= <-]|].
  apply Forall_cons in Hok as [Ho Hok]. rewrite node_run_cons.
  destruct (step e.1 e.2 n0) as [n1|] eqn:Es; [|done]. apply (IH n1); [|done].
  destruct (node_step_keeps _ _ _ _ Es Ho) as [Hnew Hold]. intros id Hid.
  destruct (Hnew id Hid) as [H|?]; [|done]. destruct (Hinv id H) as (k & <- & Hk).
  exists k. split; [done|]. destruct (Hold k Hk) as [?|Hn]; [done|]. rewrite Hn in Hid. by destruct Hid.
Qed.

(** ** Pending reclamations complete *)

(** What is left of [k] on disk: no state, no index entry, and no blob either, unless another
    instance has the same code. *)
Definition code_clear (k : K) (c : CodeStore) : Prop :=
  CS.index c !! key_id k = None /\ CS.key_to_code_part c !! key_id k = None /\
  (CS.code_blob_stored (key_code k) c = false \/ exists id, CS.index c !! id = Some (key_code k)).
Definition reclaimed (k : K) (n : Node) : Prop :=
  states_of (manager n) !! key_id k = None /\ code_clear k (code_store n).

(** The index names the code of [k] for [k]. *)
Definition own_code (k : K) (c : CodeStore) : bool :=
  match CS.index c !! key_id k with Some h => bool_decide (h = key_code k) | None => true end.

Lemma remove_clears (e : nat) (k : K) (c : CodeStore) :
  (CS.remove_contract e false false false (code_key k) c).2 = true /\
  code_clear k (CS.remove_contract e false false false (code_key k) c).1.
Proof.
  unfold CS.remove_contract, code_clear. cbn [CS.id CS.code_hash code_key]. cbn zeta. destruct (existsb _ _) eqn:Ex.
  - apply existsb_exists in Ex as ([id h] & Hin & Hh). apply list_elem_of_In, elem_of_map_to_list in Hin.
    apply bool_decide_eq_true in Hh. cbn in Hin, Hh |- *. subst h. rewrite !lookup_delete_eq. split_and!; eauto.
  - destruct (CS.code_blob_stored _ _) eqn:Eb; cbn in *; rewrite !lookup_delete_eq; split_and!; try done; left; [|done].
    unfold CS.code_blob_stored. cbn. by rewrite lookup_delete_eq.
Qed.

(** Removing the code of another contract keeps [k] clear. *)
Lemma remove_keeps_clear (e : nat) (k k' : K) (c : CodeStore) :
  own_code k' c = true -> code_clear k c -> code_clear k (CS.remove_contract e false false false (code_key k') c).1.
Proof.
  intros Ho (Hi & Hm & Hb). unfold CS.remove_contract. cbn [CS.id CS.code_hash code_key]. cbn zeta.
  set (c1 := CS.with_index _ _ c).
  assert (H1 : CS.index c1 !! key_id k = None /\ CS.key_to_code_part c1 !! key_id k = None)
    by (cbn; rewrite !lookup_delete_None; auto).
  destruct (decide (key_code k' = key_code k)) as [Ek|Ek].
  - pose proof (remove_clears e k' c) as [_ (_ & _ & H3)]. unfold CS.remove_contract in H3.
    cbn [CS.id CS.code_hash code_key] in H3. cbn zeta in H3. fold c1 in H3. rewrite Ek in *.
    split_and!; [destruct (existsb _ _); [apply H1|]; destruct (CS.code_blob_stored _ _); apply H1..|exact H3].
  - assert (H2 : CS.code_blob_stored (key_code k) c1 = false \/ exists id, CS.index c1 !! id = Some (key_code k)).
    { destruct Hb as [?|[id Hid]]; [by left|right]. exists id. cbn. rewrite lookup_delete_ne; [done|]. intros <-.
      unfold own_code in Ho. rewrite Hid in Ho. by apply bool_decide_eq_true in Ho. }
    destruct (existsb _ _); [split_and!; [apply H1..|exact H2]|].
    destruct (CS.code_blob_stored (key_code k') _); [|split_and!; [apply H1..|exact H2]]. split_and!; [apply H1..|]. destruct H2 as [H2|H2]; [left|by right]. revert H2. unfold CS.code_blob_stored.
    rewrite !bool_decide_eq_false. cbn. by rewrite lookup_delete_ne.
Qed.

(** So does a PUT of another contract that meets no failure. *)
Lemma put_keeps_clear (e : nat) (k k' : K) (code : Code) (c : CodeStore) :
  key_id k' <> key_id k -> own_code k' c = true -> code_clear k c ->
  code_clear k (CS.put_code to_bytes_versioned load_versioned e CS.Written false (code_key k') code c).1.
Proof.
  intros Hne Ho (Hi & Hm & Hb). unfold CS.put_code. cbn [CS.code_hash code_key].
  destruct (CS.code_blob_stored (key_code k') c) eqn:Eb; cbn [negb].
  - unfold CS.ensure_key_indexed. cbn [CS.id CS.code_hash code_key].
    destruct (CS.key_to_code_part c !! key_id k') eqn:Ek; [by split_and!|].
    unfold code_clear. cbn. rewrite !lookup_insert_ne by done. split_and!; [done..|].
    destruct Hb as [?|[id Hid]]; [by left|right]. exists id. destruct (decide (id = key_id k')) as [->|].
    + unfold own_code in Ho. rewrite Hid in Ho. apply bool_decide_eq_true in Ho as ->. apply lookup_insert_eq.
    + by rewrite lookup_insert_ne.
  - unfold CS.store_contract. cbn [CS.id CS.code_hash code_key]. rewrite Eb, andb_false_r.
    apply bool_decide_eq_false, eq_None_not_Some in Eb. rewrite Eb. cbn [mbind option_bind].
    destruct (to_bytes_versioned code) as [o|]; [|by split_and!]. unfold code_clear. cbn. rewrite !lookup_insert_ne by done.
    split_and!; [done..|]. destruct (decide (key_code k' = key_code k)) as [<-|Ek].
    + right. exists (key_id k'). apply lookup_insert_eq.
    + destruct Hb as [Hb|[id Hid]]; [left|right].
      * revert Hb. unfold CS.code_blob_stored. rewrite !bool_decide_eq_false. cbn. by rewrite lookup_insert_ne.
      * exists id. rewrite lookup_insert_ne; [done|]. intros <-. unfold own_code in Ho. rewrite Hid in Ho.
        by apply bool_decide_eq_true in Ho.
Qed.

(** [o] leaves [k] alone and meets no failure: [k] is not hosted, used or written, the queue
    does not refuse its events, and the database and the file system answer. *)
Definition storage_answers (m : Manager) : bool :=
  match HM.storage m with Some s => negb (HS.failing s) | None => false end.
Definition calm (k : K) (o : op) (n : Node) : bool :=
  negb (HM.is_hosting_contract k (manager n)) && negb (HM.contract_in_use key_id k (manager n)) &&
  match o with
  | PutState _ w f _ _ k' _ _ =>
      negb (bool_decide (key_id k' = key_id k)) && own_code k' (code_store n) &&
      match w with CS.Written => negb f | _ => false end
  | UpdateState _ k' _ => negb (bool_decide (key_id k' = key_id k))
  | Host _ k' _ _ => negb (bool_decide (k' = k))
  | Refuse i => match events n !! i with Some x => negb (bool_decide (x.1 = k)) | None => true end
  | FinishRemove _ f1 f2 f3 =>
      negb f1 && negb f2 && negb f3 &&
      match deleting n with Some k' => own_code k' (code_store n) && storage_answers (manager n) | None => true end
  | _ => true
  end.

Definition is_retry (o : op) : bool := match o with RetryPending => true | _ => false end.
Definition queued (n : Node) (k : K) (g : Z) : Prop := (k, g) ∈ evictions n \/ (k, g) ∈ events n.
Abbreviation pending n k := (HM.pending_reclamation (manager n) !! k) (only parsing).

(** What a calm step does about [k]: nothing but the sweep's retry, or the handler takes one of its
    events, or its deletion ends. *)
Definition frame (k : K) (o : op) (n n' : Node) : Prop :=
  pending n' k = pending n k /\ generation n' k = generation n k /\ (deleting n' = Some k <-> deleting n = Some k) /\
  (forall g, queued n' k g <-> queued n k g \/ (is_retry o = true /\ pending n k = Some g)) /\
  (reclaimed k n -> reclaimed k n').
Definition taken (k : K) (n n' : Node) : Prop :=
  exists g, queued n k g /\ deleting n = None /\ generation n' k = generation n k /\ (reclaimed k n -> reclaimed k n') /\
    (forall g', queued n' k g' -> queued n k g') /\ (forall g', queued n k g' -> queued n' k g' \/ g' = g) /\
    ((g = generation n k /\ deleting n' = Some k /\ pending n' k = pending n k) \/
     (g <> generation n k /\ deleting n' = None /\ pending n' k = Some (generation n k))).
Definition finished (k : K) (n n' : Node) : Prop :=
  deleting n = Some k /\ deleting n' = None /\ pending n' k = None /\ generation n' k = 0 /\ reclaimed k n' /\
  (forall g, queued n' k g <-> queued n k g).

Lemma frame_intro k o n n' :
  pending n' k = pending n k -> HM.state_generation (manager n') !! k = HM.state_generation (manager n) !! k ->
  (deleting n' = Some k <-> deleting n = Some k) -> (reclaimed k n -> reclaimed k n') ->
  is_retry o = false -> (forall g, queued n' k g <-> queued n k g) -> frame k o n n'.
Proof.
  intros Hp Hg Hd Hr Ho Hq. split_and!; try done; try apply Hd; [unfold HM.generation_of; by rewrite Hg|].
  intros g. rewrite Hq, Ho. naive_solver.
Qed.

Lemma frame_view k o n n' :
  view (manager n') = view (manager n) -> code_store n' = code_store n -> deleting n' = deleting n ->
  is_retry o = false -> (forall g, queued n' k g <-> queued n k g) -> frame k o n n'.
Proof.
  intros [= _ Hs Hp Hst] Hc Hd Ho Hq. apply frame_intro; try done; [by rewrite Hp|by rewrite Hs|by rewrite Hd|].
  unfold reclaimed. by rewrite Hst, Hc.
Qed.

Lemma evicted_frame k o n n' ev w :
  evicted_view ev w (manager n) (manager n') -> w !! k = None -> evictions n' = evictions n ++ ev -> events n' = events n ->
  code_store n' = code_store n -> deleting n' = deleting n -> is_retry o = false -> frame k o n n'.
Proof.
  intros ([Hf _] & Hs & Hp & Hst) Hk Hev He Hc Hd Ho. apply frame_intro; try done; [by rewrite Hp|by rewrite Hs|by rewrite Hd| |].
  - unfold reclaimed. by rewrite Hst, Hc.
  - intros g. unfold queued. rewrite Hev, He, elem_of_app. split; [|naive_solver].
    intros [[?|Hx]|?]; auto. rewrite Forall_forall in Hf. apply Hf in Hx. cbn in Hx. congruence.
Qed.

Lemma unhosted_generation k m : HM.is_hosting_contract k m = false -> write_generations m !! k = None.
Proof. intros H. apply eq_None_not_Some. by rewrite <- hosting_iff, H. Qed.

Lemma begin_calm k i n :
  HM.is_hosting_contract k (manager n) = false -> HM.contract_in_use key_id k (manager n) = false ->
  frame k (BeginRemove i) n (begin_remove i n) \/ taken k n (begin_remove i n).
Proof.
  intros Hh Hu. unfold begin_remove. destruct (deleting n) eqn:Ed; [left; by apply frame_view|].
  destruct (events n !! i) as [[k0 g0]|] eqn:Ei; [|left; by apply frame_view].
  pose proof (fun y => in_rest i _ _ y Ei) as Hin. destruct (remove_guards k0 g0 (manager n)) as [m go] eqn:Eg.
  destruct (guards_same _ _ _ _ _ Eg) as (Hw & Hs & Hst). destruct (decide (k0 = k)) as [->|Hne]; [right|left].
  - exists g0. unfold queued. cbn [manager deleting evictions events]. split_and!; try done.
    + right. apply Hin. by left.
    + by apply generation_view.
    + unfold reclaimed. cbn. by rewrite Hst.
    + intros g [?|?]; [by left|right]. apply Hin. by right.
    + intros g [?|[[= ->]|?]%Hin]; auto.
    + unfold remove_guards in Eg. rewrite Hh, Hu in Eg. destruct (Z.eqb_spec (generation n k) g0) as [<-|Hg];
        injection Eg as <- <-; [by left|right]. split_and!; try done. apply lookup_insert_eq.
  - apply frame_intro; cbn; try done; [|by rewrite Hs| | |].
    + unfold remove_guards in Eg. repeat case_match; injection Eg as <- <-; cbn; by rewrite ?lookup_delete_ne, ?lookup_insert_ne.
    + rewrite Ed. destruct go; naive_solver.
    + unfold reclaimed. cbn. by rewrite Hst.
    + intros g. unfold queued. cbn. rewrite (Hin (k, g)). naive_solver.
Qed.

Lemma finish_calm k e n :
  match deleting n with Some k' => own_code k' (code_store n) && storage_answers (manager n) | None => true end = true ->
  let n' := (finish_remove e false false false n).1 in
  frame k (FinishRemove e false false false) n n' \/ finished k n n'.
Proof.
  unfold finish_remove. destruct (deleting n) as [k0|] eqn:Ed; [|left; by apply frame_view].
  intros [Ho Hst]%andb_true_iff. unfold storage_answers in Hst. destruct (HM.storage (manager n)) as [s|] eqn:Es; [|done].
  apply negb_true_iff in Hst. destruct (reclaim_contract_storage _ _ _ _ _ _ _) as [[m c] o] eqn:Er.
  destruct (reclaim_view _ _ _ _ _ _ _ _ _ _ Er) as (st & [= Hw Hs Hp Hm] & _ & Hfull).
  destruct (remove_clears e k0 (code_store n)) as [Hok Hc].
  pose proof (remove_keeps_clear e k k0 (code_store n) Ho) as Hk.
  unfold reclaim_contract_storage in Er. rewrite Es in Er. cbn [mbind option_bind] in Er. unfold HS.remove_state in Er.
  rewrite Hst in Er. destruct (CS.remove_contract _ _ _ _ _ _) as [c' ok]. cbn [fst snd] in Hok, Hc, Hk. subst ok.
  cbn in Er. apply pair_eq in Er as [Er <-]. apply pair_eq in Er as [_ <-]. rewrite (Hfull eq_refl) in Hm.
  cbn [fst]. destruct (decide (k0 = k)) as [->|Hne]; [right|left].
  - split_and!; cbn; try done; [by rewrite lookup_delete_eq|unfold HM.generation_of; cbn; by rewrite lookup_delete_eq|].
    split; [|exact Hc]. change (states_of m !! key_id k = None). rewrite Hm. apply lookup_delete_eq.
  - apply frame_intro; cbn; try done; [by rewrite lookup_delete_ne, Hp|by rewrite lookup_delete_ne, Hs|rewrite Ed; naive_solver|].
    intros [H1 H2]. split; [|by apply Hk]. change (states_of m !! key_id k = None). rewrite Hm.
    apply lookup_delete_None. auto.
Qed.

Lemma store_row_frame ms k k' size (m m' : Manager) :
  store_row ms k' size m = Some m' -> key_id k' <> key_id k ->
  HM.pending_reclamation m' = HM.pending_reclamation m /\ HM.state_generation m' = HM.state_generation m /\
  states_of m' !! key_id k = states_of m !! key_id k.
Proof. intros [= _ Hs Hp Hst]%store_row_view Hne. rewrite Hst, lookup_insert_ne by done. done. Qed.

(** The row is written; it is committed or not. *)
Lemma commit_frame k k' o size n n' m :
  key_id k' <> key_id k -> (exists ms, store_row ms k' size (manager n) = Some m) ->
  manager n' = m \/ manager n' = commit_state_write k' size m ->
  (code_clear k (code_store n) -> code_clear k (code_store n')) -> evictions n' = evictions n -> events n' = events n ->
  deleting n' = deleting n -> is_retry o = false -> frame k o n n'.
Proof.
  intros Hne [ms Hm] Hn Hc Hev He Hd Ho. destruct (store_row_frame ms k k' size _ _ Hm Hne) as (Hp & Hs & Hst).
  assert (Hk : k' <> k) by congruence.
  assert (H : pending n' k = pending n k /\ HM.state_generation (manager n') !! k = HM.state_generation (manager n) !! k /\
    states_of (manager n') !! key_id k = states_of (manager n) !! key_id k).
  { destruct Hn as [-> | ->]; [by rewrite Hp, Hs|]. pose proof (commit_view k' size m) as [= _ Hs' Hp' Hst'].
    by rewrite Hs', Hp', Hst', lookup_insert_ne, Hs, Hp. }
  destruct H as (H1 & H2 & H3). apply frame_intro; try done; [by rewrite Hd| |unfold queued; by rewrite Hev, He].
  unfold reclaimed. rewrite H3. naive_solver.
Qed.

Lemma calm_step now o n n' k :
  step now o n = Some n' -> calm k o n = true -> frame k o n n' \/ taken k n n' \/ finished k n n'.
Proof.
  unfold calm. intros Hs Hc. rewrite !andb_true_iff, !negb_true_iff in Hc. destruct Hc as [[Hh Hu] Hc].
  destruct o; cbn [step] in Hs; try (apply (inj Some) in Hs as <-).
  - left. destruct (bookkeeping o) eqn:Eb; [|apply (inj Some) in Hs as <-; by apply frame_view].
    destruct (manager_step now o (manager n)) as [m|] eqn:Em; [|done]. apply (inj Some) in Hs as <-.
    apply frame_view; try done. by apply (bookkeeping_view now o).
  - left. rewrite !andb_true_iff, negb_true_iff, bool_decide_eq_false in Hc. destruct Hc as [[Hne Ho] Hw].
    destruct w; try done. apply negb_true_iff in Hw as ->. unfold put_state.
    destruct (deleting n) eqn:Ed; [by apply frame_view|].
    pose proof (put_keeps_clear e k k0 code (code_store n) Hne Ho) as Hclear.
    destruct (CS.put_code _ _ _ _ _ _ _ _) as [c ok]. cbn [fst] in Hclear.
    destruct (if ok then _ else _) as [m|] eqn:Ew.
    + destruct ok; [|done]. destruct params_fail; (eapply (commit_frame k k0 _ size n _ m); [done|by eexists|by (left + right)|done..]).
    + apply frame_intro; try done; [by rewrite Ed|]. intros [H1 H2]. split; [done|by apply Hclear].
  - left. apply negb_true_iff, bool_decide_eq_false in Hc. unfold update_state.
    destruct (deleting n) eqn:Ed; [by apply frame_view|].
    destruct (s ← HM.storage (manager n); HS.get_state_size (key_id k0) s) as [[z|]|]; try by apply frame_view.
    unfold write_state. destruct (store_row now_ms k0 size (manager n)) as [m|] eqn:Ew; [|by apply frame_view].
    eapply (commit_frame k k0 _ size n _ m); [done|by eexists|by right|done..].
  - left. apply negb_true_iff, bool_decide_eq_false in Hc. unfold host in Hs.
    destruct (HM.record_contract_access _ _ _ _ _ _ _ _ _ _ _ _) as [[[m r] ts]|] eqn:Ea; [|done].
    apply (inj Some) in Hs as <-. destruct (access_view _ _ _ _ _ _ _ _ _ Ea) as [Hv _].
    eapply evicted_frame; [exact Hv| |done..]. rewrite lookup_insert_ne by done. by apply unhosted_generation.
  - left. unfold sweep. pose proof (sweep_view now axes (manager n)) as Hv.
    destruct (HM.sweep_expired_hosting_with_cost _ _ _ _ _) as [[m ex] ts]. cbn [fst snd] in Hv.
    apply (evicted_frame k _ n _ ex (write_generations (manager n))); try done; [|by apply unhosted_generation].
    destruct Hv as (Hw & Hsg & Hp & Hst). pose proof (unsubscribe_view ex m) as [= Ew Esg Ep Est].
    unfold evicted_view. cbn. by rewrite Ew, Esg, Ep, Est.
  - left. split_and!; try done. intros g. unfold queued, retry_pending, HM.pending_reclamation_snapshot. cbn.
    rewrite elem_of_app, elem_of_map_to_list. naive_solver.
  - left. unfold emit. destruct (evictions n !! i) as [[k0 g0]|] eqn:Ei; [|by apply frame_view].
    pose proof (fun y => in_rest i _ _ y Ei) as Hin. unfold reclaim_evicted_contract. cbn [manager].
    destruct (HM.contract_in_use key_id k0 (manager n)) eqn:Eu.
    + assert (Hne : k0 <> k) by (intros ->; congruence). apply frame_intro; cbn; try done; [by rewrite lookup_insert_ne|].
      intros g. unfold queued. cbn. rewrite (Hin (k, g)). naive_solver.
    + apply frame_view; try done. intros g. unfold queued. cbn. rewrite (Hin (k, g)), elem_of_app, list_elem_of_singleton. naive_solver.
  - left. unfold track_pending_reclamation_if_evict. destruct (events n !! i) as [[k0 g0]|] eqn:Ei; [|by apply frame_view].
    apply negb_true_iff, bool_decide_eq_false in Hc. cbn in Hc. pose proof (fun y => in_rest i _ _ y Ei) as Hin.
    apply frame_intro; cbn; try done; [by rewrite lookup_insert_ne|]. intros g. unfold queued. cbn. rewrite (Hin (k, g)). naive_solver.
  - destruct (begin_calm k i n Hh Hu); auto.
  - rewrite !andb_true_iff, !negb_true_iff in Hc. destruct Hc as [[[-> ->] ->] Hc]. destruct (finish_calm k e n Hc); auto.
  - left. apply frame_view; try done. unfold database_fails. cbn.
    destruct (HM.storage (manager n)) as [s|] eqn:E; [|done]. unfold view, states_of. cbn. by rewrite E.
Qed.

Fixpoint calm_run (k : K) (n : Node) (es : list (Z * op)) : bool :=
  match es with
  | [] => true
  | e :: es => calm k e.2 n && match step e.1 e.2 n with Some n' => calm_run k n' es | None => true end
  end.

(** No task holds an eviction of [k], the handler has no event of it, and is not deleting it. *)
Definition drained (k : K) (n : Node) : bool :=
  negb (bool_decide (deleting n = Some k)) && negb (bool_decide (k ∈ (evictions n).*1)) &&
  negb (bool_decide (k ∈ (events n).*1)).

(** A run that leaves [k] alone, in which the sweep retries at least once, and after which all
    that was queued about [k] has been handled. *)
Definition period (k : K) (n : Node) (es : list (Z * op)) (n' : Node) : Prop :=
  run n es = Some n' /\ calm_run k n es = true /\ existsb (fun e => is_retry e.2) es = true /\ drained k n' = true.

Lemma drained_spec k n : drained k n = true -> deleting n <> Some k /\ forall g, ~ queued n k g.
Proof.
  unfold drained, queued. rewrite !andb_true_iff, !negb_true_iff, !bool_decide_eq_false, !elem_of_firsts. naive_solver.
Qed.

(** An invariant of calm runs, told whether the sweep has retried. *)
Lemma calm_run_ind k (J : bool -> Node -> Prop) :
  (forall h o n n', J h n -> frame k o n n' \/ taken k n n' \/ finished k n n' -> J (h || is_retry o) n') ->
  forall es h n n', J h n -> run n es = Some n' -> calm_run k n es = true -> J (h || existsb (fun e => is_retry e.2) es) n'.
Proof.
  intros Hstep es. induction es as [|e es IH]; intros h n n' HJ; [intros [= <-] _; by rewrite orb_false_r|].
  rewrite node_run_cons. cbn [calm_run existsb]. destruct (step e.1 e.2 n) as [n1|] eqn:Es; [|done]. cbn [mbind option_bind].
  intros Hr [Hc Hcr]%andb_true_iff. rewrite orb_assoc. apply (IH (h || is_retry e.2) n1 n'); try done. apply (Hstep h e.2 n n1); [done|].
  by apply (calm_step e.1).
Qed.

(** Deleted, and at most an entry of the generation zero is left. *)
Definition gone (k : K) (n : Node) : Prop :=
  reclaimed k n /\ generation n k = 0 /\ (pending n k = None \/ pending n k = Some 0).

Lemma gone_step k o n n' : gone k n -> frame k o n n' \/ taken k n n' \/ finished k n n' -> gone k n'.
Proof.
  intros (Hr & Hg & Hp) [(F1 & F2 & _ & _ & F5)|[(g & _ & _ & T1 & T2 & _ & _ & T3)|(_ & _ & D1 & D2 & D3 & _)]]; unfold gone.
  - rewrite F1, F2. auto.
  - rewrite T1, Hg in *. split; [auto|]. split; [done|]. destruct T3 as [(_ & _ & ->)|(_ & _ & ->)]; auto.
  - auto.
Qed.

Lemma finished_gone k n n' : finished k n n' -> gone k n'.
Proof. intros (_ & _ & ? & ? & ? & _). unfold gone. auto. Qed.

(** In the first period the entry gets the current generation. *)
Definition first_inv (k : K) (h : bool) (n : Node) : Prop :=
  gone k n \/ deleting n = Some k \/ pending n k = Some (generation n k) \/
  (is_Some (pending n k) /\ (h = true -> exists g, queued n k g)).

Lemma first_step k h o n n' :
  first_inv k h n -> frame k o n n' \/ taken k n n' \/ finished k n n' -> first_inv k (h || is_retry o) n'.
Proof.
  intros HJ Hs. destruct HJ as [Hg|HJ]; [left; exact (gone_step k o n n' Hg Hs)|]. unfold first_inv.
  destruct Hs as [(F1 & F2 & F3 & F4 & F5)|[(g & Hq & Hn & T1 & _ & _ & _ & T3)|Hf]]; [| |left; exact (finished_gone k n n' Hf)].
  - right. rewrite F1, F2, F3. destruct HJ as [?|[?|[[g Hp] Hh]]]; [auto..|]. do 2 right. split; [by exists g|].
    intros [?|Ho]%orb_true_iff; [destruct (Hh H) as [g' ?]; exists g'|exists g]; apply F4; auto.
  - right. rewrite T1. destruct T3 as [(_ & ? & _)|(_ & _ & ?)]; auto.
Qed.

(** In the second it is deleted. *)
Definition second_inv (k : K) (h : bool) (n : Node) : Prop :=
  gone k n \/ deleting n = Some k \/
  (pending n k = Some (generation n k) /\ (forall g, queued n k g -> g = generation n k) /\
   (h = true -> exists g, queued n k g)).

Lemma second_step k h o n n' :
  second_inv k h n -> frame k o n n' \/ taken k n n' \/ finished k n n' -> second_inv k (h || is_retry o) n'.
Proof.
  intros HJ Hs. destruct HJ as [Hg|HJ]; [left; exact (gone_step k o n n' Hg Hs)|]. unfold second_inv.
  destruct Hs as [(F1 & F2 & F3 & F4 & F5)|[(g & Hq & Hn & T1 & _ & _ & _ & T3)|Hf]]; [| |left; exact (finished_gone k n n' Hf)].
  - right. rewrite F1, F2, F3. destruct HJ as [?|(Hp & Hall & Hh)]; [auto|]. right. split_and!; [done|..].
    + intros g [?|[_ Hg]]%F4; [auto|congruence].
    + intros [?|Ho]%orb_true_iff; [destruct (Hh H) as [g' ?]; exists g'|eexists]; apply F4; eauto.
  - right. destruct HJ as [?|(Hp & Hall & Hh)]; [congruence|]. destruct T3 as [(_ & ? & _)|(Hne & _)]; [auto|].
    by apply Hall in Hq.
Qed.

(** In the third the entry itself goes. *)
Definition third_inv (k : K) (h : bool) (n : Node) : Prop :=
  gone k n /\ (forall g, queued n k g -> g = 0) /\
  (pending n k = None \/ (h = true -> deleting n = Some k \/ exists g, queued n k g)).

Lemma third_step k h o n n' :
  third_inv k h n -> frame k o n n' \/ taken k n n' \/ finished k n n' -> third_inv k (h || is_retry o) n'.
Proof.
  intros (Hg & Hall & Hh) Hs. split; [exact (gone_step k o n n' Hg Hs)|]. destruct Hg as (_ & Hgen & Hp).
  destruct Hs as [(F1 & F2 & F3 & F4 & _)|[(g & Hq & Hn & T1 & _ & T4 & _ & T3)|(_ & _ & D1 & _ & _ & D5)]].
  - split; [intros g [?|[_ E]]%F4; [auto|destruct Hp; congruence]|]. rewrite F1, F3. destruct Hh as [?|Hh]; [auto|].
    destruct Hp as [?|Hp]; [auto|]. right. intros [H|Ho]%orb_true_iff.
    + destruct (Hh H) as [?|[g ?]]; [auto|]. right. exists g. apply F4. auto.
    + right. exists 0. apply F4. auto.
  - split; [auto|]. right. intros _. left. destruct T3 as [(_ & ? & _)|(Hne & _)]; [done|]. rewrite Hgen in Hne.
    by apply Hall in Hq.
  - split; [intros g ?%D5; auto|by left].
Qed.

(** C20: a pending reclamation completes, on every schedule that is fair to it.  Call a period a run of
    any steps of the tasks in which the contract is neither hosted, used nor written, the queue does
    not refuse its events, the database and the file system answer, the sweep retries at least once,
    and at the end everything queued about the contract has been handled.  After two periods neither
    the contract's state nor its index entries are left, nor its code on disk unless another instance
    has the same code, even when the contract was written again after it was queued; after a third
    one there is no retry entry either. *)
Theorem pending_is_reclaimed k g n es1 n1 es2 n2 :
  pending n k = Some g -> period k n es1 n1 -> period k n1 es2 n2 ->
  reclaimed k n2 /\ forall es3 n3, period k n2 es3 n3 -> reclaimed k n3 /\ pending n3 k = None.
Proof.
  intros Hp (R1 & C1 & H1 & [D1 Q1]%drained_spec) (R2 & C2 & H2 & [D2 Q2]%drained_spec).
  assert (J1 : first_inv k (false || true) n1).
  { rewrite <- H1. apply (calm_run_ind k (first_inv k) (first_step k) es1 false n); try done. do 3 right. by split. }
  assert (J1' : gone k n1 \/ pending n1 k = Some (generation n1 k)).
  { destruct J1 as [?|[?|[?|[_ H]]]]; [auto|done|auto|]. destruct (H eq_refl) as [g' Hq]. by apply Q1 in Hq. }
  assert (J2 : second_inv k (false || true) n2).
  { rewrite <- H2. apply (calm_run_ind k (second_inv k) (second_step k) es2 false n1); try done.
    destruct J1' as [?|?]; [by left|]. do 2 right. split_and!; [done| |done]. intros g' Hq. by apply Q1 in Hq. }
  assert (Hgone : gone k n2).
  { destruct J2 as [?|[?|(_ & _ & H)]]; [done..|]. destruct (H eq_refl) as [g' Hq]. by apply Q2 in Hq. }
  split; [apply Hgone|]. intros es3 n3 (R3 & C3 & H3 & [D3 Q3]%drained_spec).
  assert (J3 : third_inv k (false || true) n3).
  { rewrite <- H3. apply (calm_run_ind k (third_inv k) (third_step k) es3 false n2); try done.
    split_and!; [done| |by right]. intros g' Hq. by apply Q2 in Hq. }
  destruct J3 as (G3 & _ & [?|H]); [by split; [apply G3|]|]. destruct (H eq_refl) as [?|[g' Hq]]; [done|]. by apply Q3 in Hq.
Qed.

End node.

(** ** A small node *)

Section example.
Abbreviation a_op := (op (K:=nat) (I:=nat) (C:=nat) (P:=nat) (Code:=nat) (F:=nat)) (only parsing).

Abbreviation a_step := (step (K:=nat) (I:=nat) (C:=nat) (P:=nat) (Code:=nat) (F:=nat) HM.no_bytes (fun k => k) HM.no_code
  HM.no_bytes (fun i _ => i) HM.a_regression (fun x => x) HM.keys_of HM.keys_of map_to_list Some Some) (only parsing).
Abbreviation a_run := (run (K:=nat) (I:=nat) (C:=nat) (P:=nat) (Code:=nat) (F:=nat) HM.no_bytes (fun k => k) HM.no_code
  HM.no_bytes (fun i _ => i) HM.a_regression (fun x => x) HM.keys_of HM.keys_of map_to_list Some Some) (only parsing).
Abbreviation a_node := (Node (K:=nat) (I:=nat) (C:=nat) (P:=nat) (R:=unit) (Code:=nat) (F:=nat)) (only parsing).
Abbreviation a_start := (start HM.a_regression 10 : a_node) (only parsing).

Definition put (k : nat) : a_op := PutState 0 CS.Written false false 100 k k 6.

(** Contract 2 takes the place of contract 1, whose removal is queued. *)
Definition evicted_trace : list (Z * a_op) :=
  [(1, put 1); (2, Host 100 1%nat 6 HC.Put); (3, put 2); (4, Host 100 2%nat 6 HC.Put); (5, Emit 0)].
Definition evicted_node : a_node := default a_start (a_run a_start evicted_trace).
Definition rewrite_1 : a_op := UpdateState 200 1%nat 5.
Definition rewritten_node : a_node := default a_start (a_step 6 rewrite_1 evicted_node).

Lemma evicted_node_run : a_run a_start evicted_trace = Some evicted_node.
Proof. unfold evicted_node. destruct (a_run a_start evicted_trace) eqn:E; [done|]. by vm_compute in E. Qed.

Lemma evicted_node_event : events evicted_node = [(1%nat, 1)].
Proof. vm_compute. reflexivity. Qed.

Lemma rewritten_node_step : a_step 6 rewrite_1 evicted_node = Some rewritten_node.
Proof. unfold rewritten_node. destruct (a_step 6 rewrite_1 evicted_node) eqn:E; [done|]. by vm_compute in E. Qed.

Lemma stale_eviction_deletes_nothing_witness :
  deleting (begin_remove (fun k => k) 0 rewritten_node) = None /\
  states_of (manager (begin_remove (fun k => k) 0 rewritten_node)) !! 1%nat = Some 5.
Proof.
  assert (He : events rewritten_node !! 0%nat = Some (1%nat, 1)) by (vm_compute; reflexivity).
  assert (Hd : deleting rewritten_node = None) by (vm_compute; reflexivity).
  assert (Hs : states_of (manager rewritten_node) !! 1%nat = Some 5) by (vm_compute; reflexivity).
  assert (Hc : claims evicted_node 1%nat 1).
  { right. right. right. rewrite evicted_node_event. left. }
  destruct (stale_eviction_deletes_nothing (K:=nat) (I:=nat) (C:=nat) (P:=nat) (Code:=nat) (F:=nat) HM.no_bytes (fun k => k)
    HM.no_code HM.no_bytes (fun i _ => i) HM.a_regression (fun x => x) HM.keys_of HM.keys_of map_to_list Some Some
    10 evicted_trace 6 rewrite_1 [] 1%nat 1 evicted_node rewritten_node rewritten_node 0 evicted_node_run Hc rewritten_node_step
    ltac:(vm_compute; reflexivity) eq_refl ltac:(vm_compute; reflexivity) ltac:(vm_compute; discriminate) He) as [H1 H2].
  rewrite H1, H2. by split.
Defined.

Lemma stored_state_is_tracked_witness : exists k, k = 1%nat /\ tracked evicted_node k.
Proof.
  assert (Hs : states_of (manager evicted_node) !! 1%nat = Some 6) by (vm_compute; reflexivity).
  exact (stored_state_is_tracked (K:=nat) (I:=nat) (C:=nat) (P:=nat) (Code:=nat) (F:=nat) HM.no_bytes (fun k => k)
    HM.no_code HM.no_bytes (fun i _ => i) HM.a_regression (fun x => x) HM.keys_of HM.keys_of map_to_list Some Some
    10 evicted_trace evicted_node 1%nat evicted_node_run ltac:(repeat constructor) (ex_intro _ 6 Hs)).
Defined.

(** The fair queue refuses the event: the contract is pending. *)
Definition pending_node : a_node := track_pending_reclamation_if_evict 0 rewritten_node.

(** The sweep retries and the handler takes the event of generation 1, which is stale; the second
    sweep emits the entry twice, and the second copy finds the contract deleted and its generations
    restarted. *)
Definition first_period : list (Z * a_op) := [(7, RetryPending); (8, Emit 0); (9, BeginRemove 0)].
Definition second_period : list (Z * a_op) :=
  [(10, RetryPending); (11, RetryPending); (12, Emit 0); (13, Emit 0); (14, BeginRemove 0);
   (15, FinishRemove 0 false false false); (16, BeginRemove 0)].
Definition third_period : list (Z * a_op) :=
  [(17, RetryPending); (18, Emit 0); (19, BeginRemove 0); (20, FinishRemove 0 false false false)].
Definition after (n : a_node) (es : list (Z * a_op)) : a_node := default n (a_run n es).
Definition node_1 : a_node := after pending_node first_period.
Definition node_2 : a_node := after node_1 second_period.
Definition node_3 : a_node := after node_2 third_period.

Example left_after_each_period :
  map (fun n : a_node => (states_of (manager n) !! 1%nat, HM.pending_reclamation (manager n) !! 1%nat)) [node_1; node_2; node_3]
  = [(Some 5, Some 2); (None, Some 0); (None, None)].
Proof. vm_compute. reflexivity. Qed.

Lemma pending_is_reclaimed_witness :
  states_of (manager node_2) !! 1%nat = None /\ HM.pending_reclamation (manager node_3) !! 1%nat = None.
Proof.
  assert (Hp : HM.pending_reclamation (manager pending_node) !! 1%nat = Some 1) by (vm_compute; reflexivity).
  assert (Hperiod : forall n es, a_run n es = Some (after n es) <-> is_Some (a_run n es)).
  { intros n es. unfold after. destruct (a_run n es); split; try done; by intros [? ?]. }
  destruct (pending_is_reclaimed (K:=nat) (I:=nat) (C:=nat) (P:=nat) (Code:=nat) (F:=nat) HM.no_bytes (fun k => k)
    HM.no_code HM.no_bytes (fun i _ => i) HM.a_regression (fun x => x) HM.keys_of HM.keys_of map_to_list Some Some
    1%nat 1 pending_node first_period node_1 second_period node_2 Hp) as [[Hs _] H].
  - split_and!; [apply Hperiod; vm_compute; eauto|vm_compute; reflexivity..].
  - split_and!; [apply Hperiod; vm_compute; eauto|vm_compute; reflexivity..].
  - split; [exact Hs|]. apply (H third_period node_3). split_and!; [apply Hperiod; vm_compute; eauto|vm_compute; reflexivity..].
Defined.

(** A full reclamation restarts the generations.  The removal of contract 1 is refused, and two
    sweeps emit it twice; the first event reclaims it.  A new PUT gets generation 1 again, and the
    second event deletes the state it has just stored, before the PUT's driver hosts it. *)
Example duplicate_event_deletes_new_state :
  (fun n => (states_of (manager n) !! 1%nat, HM.is_hosting_contract 1%nat (manager n))) <$>
    a_run evicted_node
      [(6, Refuse 0); (7, RetryPending); (8, Emit 0); (9, RetryPending); (10, Emit 0);
       (11, BeginRemove 0); (12, FinishRemove 0 false false false); (13, put 1);
       (14, BeginRemove 0); (15, FinishRemove 0 false false false); (16, Host 300 1%nat 6 HC.Put)]
  = Some (None, true).
Proof. vm_compute. reflexivity. Qed.

(** The parameters of a first PUT cannot be written: its state is on disk and nothing knows of it. *)
Example failed_parameters_orphan_state :
  (fun n => (states_of (manager n) !! 1%nat, HM.is_hosting_contract 1%nat (manager n), written n,
             HM.pending_reclamation (manager n) !! 1%nat, HM.generation_of 1%nat (manager n))) <$>
    a_run a_start [(1, PutState 0 CS.Written false true 100 1%nat 1%nat 6)]
  = Some (Some 6, false, [], None, 0).
Proof. vm_compute. reflexivity. Qed.

(** A client subscribes while the removal waits for an executor: the state goes all the same. *)
Example subscriber_loses_state :
  (fun n => (states_of (manager n) !! 1%nat, HM.contract_in_use (fun k => k) 1%nat (manager n))) <$>
    a_run evicted_node
      [(6, BeginRemove 0); (7, Manage (HM.AddClient 1%nat 9%nat)); (8, FinishRemove 0 false false false)]
  = Some (None, true).
Proof. vm_compute. reflexivity. Qed.

End example.

End Reclamation.
