(* ===== verification/InitTracker.v ===== *)
(** * Contracts being initialised

    Models [src/crates/core/src/contract/executor/init_tracker.rs]: which contracts an
    executor is initialising, and the operations queued behind each.  Times are
    nanoseconds of the caller's clock.  The payload of a queued operation is opaque. *)

From S2P Require Import Prelude.

Module InitTracker.

#[local] Open Scope Z_scope.

Definition STALE_INIT_THRESHOLD : Z := from_secs 30.
Definition MAX_QUEUED_OPS_PER_CONTRACT : nat := 100.
Definition MAX_CONCURRENT_INITIALIZATIONS : nat := 50.

Section tracker.
Context {K O : Type} `{eqK : EqDecision K, cntK : !Countable K}.

Record QueuedOperation := mkQueued { operation : O; queued_at_nanos : Z }.
Record InitState := mkInit { queued_ops : list QueuedOperation; started_at_nanos : Z }.

Inductive InitCheckResult := NotInitializing | Queued (queue_size : nat) | QueueFull | PutDuringInit.

Record StaleInitInfo := mkStale { stale_key : K; age : Z; dropped_ops : nat }.

(** The tracker is its map of states. *)
Abbreviation ContractInitTracker := (gmap K InitState) (only parsing).

Definition new : ContractInitTracker := ∅.

Definition check_and_maybe_queue (k : K) (has_code : bool) (o : O) (now_nanos : Z) (t : ContractInitTracker)
    : ContractInitTracker * InitCheckResult :=
  match t !! k with
  | None => (t, NotInitializing)
  | Some s =>
      if has_code then (t, PutDuringInit)
      else if (MAX_QUEUED_OPS_PER_CONTRACT <=? length (queued_ops s))%nat then (t, QueueFull)
      else
        let queue := queued_ops s ++ [mkQueued o now_nanos] in
        (<[k := mkInit queue (started_at_nanos s)]> t, Queued (length queue))
  end.

Definition is_initializing (k : K) (t : ContractInitTracker) : bool := bool_decide (is_Some (t !! k)).

(** [None] is [TooManyConcurrentInits]. *)
Definition start_initialization (k : K) (now_nanos : Z) (t : ContractInitTracker) : option ContractInitTracker :=
  if (MAX_CONCURRENT_INITIALIZATIONS <=? size t)%nat then None
  else Some (<[k := mkInit [] now_nanos]> t).

(** The answer: the queue and how long the initialisation took. *)
Definition complete_initialization (k : K) (now_nanos : Z) (t : ContractInitTracker)
    : ContractInitTracker * option (list QueuedOperation * Z) :=
  (delete k t, (fun s => (queued_ops s, sat_sub now_nanos (started_at_nanos s))) <$> t !! k).

Definition fail_initialization (k : K) (t : ContractInitTracker) : ContractInitTracker * option nat :=
  (delete k t, (fun s => length (queued_ops s)) <$> t !! k).

Definition queued_count (k : K) (t : ContractInitTracker) : nat :=
  match t !! k with Some s => length (queued_ops s) | None => 0 end.

Definition is_stale (max_age now_nanos : Z) (s : InitState) : bool :=
  max_age <? sat_sub now_nanos (started_at_nanos s).

Definition cleanup_stale_initializations (max_age now_nanos : Z) (t : ContractInitTracker)
    : ContractInitTracker * list StaleInitInfo :=
  (filter (fun x => is_stale max_age now_nanos x.2 = false) t,
   map (fun x : K * InitState => mkStale x.1 (sat_sub now_nanos (started_at_nanos x.2)) (length (queued_ops x.2)))
     (List.filter (fun x => is_stale max_age now_nanos x.2) (map_to_list t))).

(** ** Bounds *)

Record bounded (t : ContractInitTracker) : Prop := {
  inits_bounded : (size t <= MAX_CONCURRENT_INITIALIZATIONS)%nat;
  queues_bounded : map_Forall (fun _ s => (length (queued_ops s) <= MAX_QUEUED_OPS_PER_CONTRACT)%nat) t;
}.

Lemma bounded_new : bounded new.
Proof. split; [vm_compute; lia|apply map_Forall_empty]. Qed.

Lemma bounded_delete k t : bounded t -> bounded (delete k t).
Proof.
  intros [Hs Hq]. split; [|by apply map_Forall_delete].
  destruct (t !! k) as [s|] eqn:E; [|by rewrite delete_id].
  rewrite map_size_delete, E. lia.
Qed.

Lemma bounded_cleanup a now t : bounded t -> bounded (cleanup_stale_initializations a now t).1.
Proof.
  intros [Hs Hq]. split; cbn.
  - etrans; [|exact Hs]. apply map_subseteq_size, map_filter_subseteq.
  - intros k s Hk. apply map_lookup_filter_Some in Hk as [Hk _]. by apply (Hq k).
Qed.

Lemma bounded_check k b o now t : bounded t -> bounded (check_and_maybe_queue k b o now t).1.
Proof.
  intros [Hs Hq]. unfold check_and_maybe_queue. destruct (t !! k) as [s|] eqn:E; [|done]. destruct b; [done|].
  case_match eqn:El; [done|]. split; cbn.
  - rewrite map_size_insert, E. done.
  - apply map_Forall_insert_2; [|done]. cbn. rewrite length_app. cbn. apply Nat.leb_gt in El. lia.
Qed.

Lemma bounded_start k now t t' : start_initialization k now t = Some t' -> bounded t -> bounded t'.
Proof.
  unfold start_initialization. case_match eqn:El; [done|]. apply Nat.leb_gt in El. intros [= <-] [Hs Hq]. split.
  - rewrite map_size_insert. destruct (t !! k); cbn; lia.
  - apply map_Forall_insert_2; [cbn; lia|done].
Qed.

End tracker.

#[global] Arguments InitState : clear implicits.
#[global] Arguments QueuedOperation : clear implicits.

End InitTracker.
