(* ===== verification/Upsert.v ===== *)
(** * Storing and merging contract states

    Models [bridged_upsert_contract_state_inner] of
    [src/crates/core/src/contract/executor/runtime/executor_impl.rs], the function every
    PUT and UPDATE of a contract goes through, with what it calls there: the resolution of
    related contracts, validation, the merge and its recovery from a corrupted state, the
    commit, and the operations queued while a contract is initialised.  It composes the
    state store ([StateStore.v]), the code store ([ContractStore.v]) and the initialisation
    tracker ([InitTracker.v]).

    An executor runs one call at a time, so a call is one step; the executors share the
    stores, the recovery guard and the set of broken contracts, and have trackers of their
    own.  The contract is a parameter: what [validate_state] and [update_state] answer,
    [None] for an execution error.  What the environment decides during a call is in [Env]:
    the failures of the database and the file system, the admission of the disk budget, the
    answers of the network, and what the idempotency probes find.  The iteration order of
    the related contracts is that of the map. *)

From S2P Require Import Prelude ByteBoundedLru StateStore ContractStore InitTracker.

Module Upsert.

Module SS := StateStore.
Module CS := ContractStore.
Module IT := InitTracker.

#[local] Open Scope Z_scope.

Definition MAX_RELATED_CONTRACTS_PER_REQUEST : nat := 10.

Section upsert.
Context {K I H V Dl Pm Code F : Type}.
Context `{eqK : EqDecision K, cntK : !Countable K, eqI : EqDecision I, cntI : !Countable I}.
Context `{eqH : EqDecision H, cntH : !Countable H, eqV : EqDecision V}.
Variable key_id : K -> I.
Variable key_hash : K -> H.
Variable from_id_and_code : I -> H -> K.
Variable size : V -> Z.
Variable container_key : Code -> K.
Variable container_params : Code -> Pm.
Variable to_bytes_versioned : Code -> option F.
Variable load_versioned : F -> option Code.

(** [RelatedContracts]: the states supplied, some of them only named. *)
Abbreviation Related := (gmap I (option V)) (only parsing).

Inductive UpdateData := State (v : V) | Delta (d : Dl) | RelatedState (related_to : I) (v : V).
Inductive ValidateResult := Valid | Invalid | RequestRelated (ids : list I).

Variable validate_state : K -> Pm -> V -> Related -> option ValidateResult.
(** The new state, if any, and the contracts required. *)
Variable update_state : K -> Pm -> V -> list UpdateData -> option (option V * list I).

Inductive ExecutorError :=
| KeyMismatch | BeingInitialized | ContractQueueFull | MissingParameters | DiskBudgetExceeded | MissingContract | TooBusy
| StateTooLarge | InvalidPut | InvalidUpdate | Execution | RelatedRefused | DeferRelated (missing : list I)
| MissingRelated | RelatedTimeout | StoreError | InternalError.

(** [CurrentWon] is an answer of the test executors only. *)
Inductive UpsertResult := NoChange | Updated (v : V) | CurrentWon (v : V).

Record Env := mkEnv {
  executor : nat; now : Z;
  params_write_fails : bool; params_read_fails : bool;
  admits_wasm : bool; blob_write : CS.write_outcome (F:=F); index_fails : bool;
  remove_fails : bool * bool * bool;
  first_read_fails : bool; second_read_fails : bool;
  admits_state : bool; admits_update : bool; state_write_fails : bool; store_params_fails : bool;
  related_read_fails : I -> bool; network : I -> option V; related_timeout : bool;
  identity_probe_flags : bool; merge_probe_flags : bool;
}.

(** A queued operation: its update and its related contracts. *)
Abbreviation queued_op := ((V + Dl) * gmap I (option V))%type (only parsing).

Record World := mkWorld {
  store : SS.StateStore (K:=K) (V:=V) (Pm:=Pm);
  codes : CS.ContractStore (I:=I) (H:=H) (Code:=Code) (F:=F);
  trackers : gmap nat (gmap K (IT.InitState queued_op));
  recovery_guard : gset K;
  broken : gset K;
  committed : list (K * Z);
}.

Definition with_store (s : SS.StateStore (K:=K) (V:=V) (Pm:=Pm)) (w : World) : World :=
  mkWorld s (codes w) (trackers w) (recovery_guard w) (broken w) (committed w).
Definition with_codes (c : CS.ContractStore (I:=I) (H:=H) (Code:=Code) (F:=F)) (w : World) : World :=
  mkWorld (store w) c (trackers w) (recovery_guard w) (broken w) (committed w).
Definition with_tracker (e : nat) (t : gmap K (IT.InitState queued_op)) (w : World) : World :=
  mkWorld (store w) (codes w) (<[e := t]> (trackers w)) (recovery_guard w) (broken w) (committed w).
Definition with_guard (g : gset K) (w : World) : World :=
  mkWorld (store w) (codes w) (trackers w) g (broken w) (committed w).
Definition with_broken (b : gset K) (w : World) : World :=
  mkWorld (store w) (codes w) (trackers w) (recovery_guard w) b (committed w).

Definition tracker (e : nat) (w : World) : gmap K (IT.InitState queued_op) := default ∅ (trackers w !! e).

Definition code_key (k : K) : CS.ContractKey (I:=I) (H:=H) := CS.mkKey (key_id k) (key_hash k).

(** ** Related contracts *)

Definition bridged_lookup_key (id : I) (w : World) : option K :=
  (fun h => from_id_and_code id h) <$> CS.code_hash_from_id id (codes w).

(** The local state of a related contract. *)
Definition local_state (env : Env) (id : I) (w : World) : option V :=
  k ← bridged_lookup_key id w;
  match SS.get (related_read_fails env id) k (store w) with inr v => Some v | inl _ => None end.

Definition unique_ids (ids : list I) : list I := elements (list_to_set ids : gset I).

(** The guards on a request for related contracts; [None] lets it pass. *)
Definition refuse_related (k : K) (ids : list I) : option ExecutorError :=
  if bool_decide (ids = []) then Some RelatedRefused
  else if bool_decide (key_id k ∈ ids) then Some RelatedRefused
  else if (MAX_RELATED_CONTRACTS_PER_REQUEST <? length (unique_ids ids))%nat then Some RelatedRefused
  else None.

(** Looks every id up; the ids not found, or the states found. *)
Definition resolve (lookup : I -> option V) (ids : list I) : list I + list (I * V) :=
  let missing := List.filter (fun id => bool_decide (lookup id = None)) ids in
  if bool_decide (missing = []) then inr (omap (fun id => (fun v => (id, v)) <$> lookup id) ids) else inl missing.

Definition local_or_network (env : Env) (w : World) (id : I) : option V :=
  match local_state env id w with Some v => Some v | None => network env id end.

Definition supplied (related : Related) (id : I) : option V := mjoin (related !! id).

Definition supplied_or_local (env : Env) (w : World) (related : Related) (id : I) : option V :=
  match supplied related id with Some v => Some v | None => local_state env id w end.

Definition fetch_related_for_validation (env : Env) (defer : bool) (k : K) (p : Pm) (v : V) (initial : Related)
    (w : World) : ExecutorError + ValidateResult :=
  match validate_state k p v initial with
  | None => inl Execution
  | Some Valid => inr Valid
  | Some Invalid => inr Invalid
  | Some (RequestRelated ids) =>
      match refuse_related k ids with
      | Some err => inl err
      | None =>
          let fetched :=
            if defer then
              match resolve (supplied_or_local env w initial) (unique_ids ids) with
              | inl missing => inl (DeferRelated missing)
              | inr found => inr found
              end
            else if related_timeout env then inl RelatedTimeout
            else match resolve (local_or_network env w) (unique_ids ids) with
                 | inl _ => inl MissingRelated
                 | inr found => inr found
                 end in
          match fetched with
          | inl err => inl err
          | inr found =>
              let populated := (Some <$> list_to_map found) ∪ filter (fun x => is_Some x.2) initial in
              match validate_state k p v populated with
              | None => inl Execution
              | Some (RequestRelated _) => inl RelatedRefused
              | Some r => inr r
              end
          end
      end
  end.

(** ** Merging *)

(** The merged state, or the contracts the contract requires. *)
Definition attempt_state_update (k : K) (p : Pm) (current : V) (updates : list UpdateData) : ExecutorError + (V + list I) :=
  match update_state k p current updates with
  | None => inl Execution
  | Some (None, []) => inr (inl current)
  | Some (None, related) => inr (inr related)
  | Some (Some v, _) => inr (inl v)
  end.

(** The states of the contracts [update_state] requires, as further updates. *)
Definition fetch_required (env : Env) (defer : bool) (k : K) (ids : list I) (w : World) : ExecutorError + list UpdateData :=
  match refuse_related k ids with
  | Some err => inl err
  | None =>
      match resolve (if defer then fun id => local_state env id w else local_or_network env w) (unique_ids ids) with
      | inl missing => inl (if defer then DeferRelated missing else MissingRelated)
      | inr found => inr (map (fun x => RelatedState x.1 x.2) found)
      end
  end.

Definition merge_with_required (env : Env) (defer : bool) (k : K) (p : Pm) (current : V) (updates : list UpdateData)
    (ids : list I) (w : World) : ExecutorError + V :=
  match fetch_required env defer k ids w with
  | inl err => inl err
  | inr fetched =>
      match attempt_state_update k p current (updates ++ fetched) with
      | inl err => inl err
      | inr (inl v) => inr v
      | inr (inr []) => inl InternalError
      | inr (inr (_ :: _)) => inl MissingRelated
      end
  end.

(** A failed merge: a validated full state replaces a local state that is itself invalid,
    once.  The answer [true] says that it was recovered. *)
Definition recover (k : K) (p : Pm) (current : V) (incoming : option V) (related : Related) (merge_err : ExecutorError)
    (w : World) : World * (ExecutorError + V * bool) :=
  match incoming with
  | None => (w, inl merge_err)
  | Some v =>
      let local_valid := match validate_state k p current related with Some Valid => true | _ => false end in
      if local_valid then (w, inl merge_err)
      else if bool_decide (k ∈ recovery_guard w) then (w, inl merge_err)
      else (with_guard ({[k]} ∪ recovery_guard w) w, inr (v, true))
  end.

Definition merge (env : Env) (defer : bool) (k : K) (p : Pm) (current : V) (incoming : option V) (related : Related)
    (updates : list UpdateData) (w : World) : World * (ExecutorError + V * bool) :=
  match attempt_state_update k p current updates with
  | inr (inl v) => (w, inr (v, false))
  | inr (inr ids) =>
      (w, match merge_with_required env defer k p current updates ids w with inl err => inl err | inr v => inr (v, false) end)
  | inl merge_err => recover k p current incoming related merge_err w
  end.

(** ** Committing *)

(** [Ring::commit_state_write] is the entry in [committed].  [None] is [Ok]. *)
Definition commit_state_update (env : Env) (k : K) (v : V) (w : World) : World * option ExecutorError :=
  if bool_decide (k ∈ broken w) then (w, None)
  else if SS.MAX_STATE_SIZE <? size v then (w, Some StateTooLarge)
  else if negb (admits_update env) then (w, Some DiskBudgetExceeded)
  else
    match SS.update size (second_read_fails env) (state_write_fails env) k v (store w) with
    | (s, Some _) => (with_store s w, Some StoreError)
    | (s, None) =>
        (mkWorld s (codes w) (trackers w) (recovery_guard w) (broken w) (committed w ++ [(k, size v)]), None)
    end.

Definition all_state (updates : list UpdateData) : bool :=
  negb (bool_decide (updates = [])) && forallb (fun u => match u with State _ => true | _ => false end) updates.

(** The end of an upsert: validate the merged state and commit it when it changed. *)
Definition commit_merged (env : Env) (defer : bool) (k : K) (p : Pm) (current updated : V) (related : Related)
    (updates : list UpdateData) (w : World) : World * (ExecutorError + UpsertResult) :=
  match fetch_related_for_validation env defer k p updated related w with
  | inl err => (w, inl err)
  | inr Invalid | inr (RequestRelated _) => (w, inl InvalidUpdate)
  | inr Valid =>
      if bool_decide (updated = current) then (w, inr NoChange)
      else
        let w := if negb (bool_decide (k ∈ broken w)) && all_state updates && merge_probe_flags env
                 then with_broken ({[k]} ∪ broken w) w else w in
        if bool_decide (k ∈ broken w) then (w, inr NoChange)
        else match commit_state_update env k updated w with
             | (w, Some err) => (w, inl err)
             | (w, None) => (w, inr (Updated updated))
             end
  end.

(** The merge of an update into the stored state. *)
Definition upsert_existing (env : Env) (defer : bool) (k : K) (p : Pm) (update : V + Dl) (related : Related) (w : World)
    : World * (ExecutorError + UpsertResult) :=
  match SS.get (second_read_fails env) k (store w) with
  | inl (SS.MissingContract _) => (w, inl MissingContract)
  | inl _ => (w, inl StoreError)
  | inr current =>
      let incoming := match update with inl v => Some v | inr _ => None end in
      let updates := (match update with inl v => State v | inr d => Delta d end)
                       :: map (fun x => RelatedState x.1 x.2) (map_to_list (omap id related)) in
      if bool_decide (incoming = Some current) then
        (if negb (bool_decide (k ∈ broken w)) && identity_probe_flags env then with_broken ({[k]} ∪ broken w) w else w,
         inr NoChange)
      else
        match merge env defer k p current incoming related updates w with
        | (w, inl err) => (w, inl err)
        | (w, inr (updated, recovered)) =>
            let w := if bool_decide (is_Some incoming) && negb recovered then with_guard (recovery_guard w ∖ {[k]}) w else w in
            commit_merged env defer k p current updated related updates w
        end
  end.

(** ** New contracts *)

Definition fail_initialization (env : Env) (k : K) (w : World) : World :=
  with_tracker (executor env) (IT.fail_initialization k (tracker (executor env) w)).1 w.

(** Removes the code this call stored. *)
Definition rollback (env : Env) (k : K) (remove_if_fail : bool) (w : World) : World :=
  if remove_if_fail then
    let '(f1, f2, f3) := remove_fails env in
    with_codes (CS.remove_contract (executor env) f1 f2 f3 (code_key k) (codes w)).1 w
  else w.

(** Stores or indexes the code.  The answer: whether to remove it on failure, and whether
    it was provided. *)
Definition prepare_code (env : Env) (k : K) (code : option Code) (w : World) : World * (ExecutorError + bool * bool) :=
  if negb (CS.code_blob_stored (key_hash k) (codes w)) then
    match code with
    | None => (w, inl MissingContract)
    | Some c =>
        if negb (admits_wasm env) then (w, inl DiskBudgetExceeded)
        else
          let '(cs, ok) := CS.store_contract to_bytes_versioned load_versioned (executor env) (blob_write env)
                             (index_fails env) (code_key k) c (codes w) in
          (with_codes cs w, if ok then inr (true, true) else inl StoreError)
    end
  else
    match code with
    | None => (w, inr (false, false))
    | Some _ =>
        let '(cs, ok) := CS.ensure_key_indexed (index_fails env) (code_key k) (codes w) in
        (with_codes cs w, if ok then inr (false, true) else inl StoreError)
    end.

(** The operations queued during the initialisation, one after the other. *)
Fixpoint replay (env : Env) (k : K) (p : Pm) (ops : list (IT.QueuedOperation queued_op)) (current : V) (w : World) : World :=
  match ops with
  | [] => w
  | o :: ops =>
      let '(update, related) := IT.operation o in
      match attempt_state_update k p current [match update with inl v => State v | inr d => Delta d end] with
      | inr (inl new_state) =>
          let valid := match validate_state k p new_state related with Some Valid => true | _ => false end in
          if valid && negb (bool_decide (new_state = current)) then
            match commit_state_update env k new_state w with
            | (w, None) => replay env k p ops new_state w
            | (w, Some _) => replay env k p ops current w
            end
          else replay env k p ops current w
      | _ => replay env k p ops current w
      end
  end.

(** The first state of a contract, already validated. *)
Definition install_initial (env : Env) (k : K) (p : Pm) (v : V) (remove_if_fail : bool) (w : World)
    : World * (ExecutorError + UpsertResult) :=
  if negb (admits_state env) then (fail_initialization env k (rollback env k remove_if_fail w), inl DiskBudgetExceeded)
  else
    match SS.store size (state_write_fails env) (store_params_fails env) k v p (store w) with
    | (s, Some _) => (with_store s w, inl StoreError)
    | (s, None) =>
        let w := mkWorld s (codes w) (trackers w) (recovery_guard w) (broken w) (committed w ++ [(k, size v)]) in
        let '(t, completed) := IT.complete_initialization k (now env) (tracker (executor env) w) in
        let w := with_tracker (executor env) t w in
        (match completed with Some (ops, _) => replay env k p ops v w | None => w end, inr (Updated v))
    end.

(** A full state: checks, validation, and the first installation or the merge. *)
Definition upsert_full (env : Env) (defer : bool) (k : K) (p : Pm) (v : V) (related : Related) (is_new remove_if_fail : bool)
    (w : World) : World * (ExecutorError + UpsertResult) :=
  if SS.MAX_STATE_SIZE <? size v then (rollback env k remove_if_fail w, inl StateTooLarge)
  else
    match fetch_related_for_validation env defer k p v related w with
    | inl err => (fail_initialization env k (rollback env k remove_if_fail w), inl err)
    | inr Valid =>
        if is_new then install_initial env k p v remove_if_fail w else upsert_existing env defer k p (inl v) related w
    | inr Invalid => (fail_initialization env k w, inl InvalidPut)
    | inr (RequestRelated _) => (fail_initialization env k w, inl RelatedRefused)
    end.

(** The parameters: of the container, which are then stored, or the stored ones. *)
Definition load_params (env : Env) (k : K) (code : option Code) (w : World) : World * (ExecutorError + Pm) :=
  match code with
  | Some c =>
      (with_store (SS.ensure_params (params_write_fails env) k (container_params c) (store w)).1 w, inr (container_params c))
  | None =>
      (w, match SS.get_params (params_read_fails env) k (store w) with
          | inl _ => inl StoreError
          | inr None => inl MissingParameters
          | inr (Some p) => inr p
          end)
  end.

(** Everything after the parameters. *)
Definition upsert_with (env : Env) (defer : bool) (k : K) (p : Pm) (update : V + Dl) (related : Related) (code : option Code)
    (w : World) : World * (ExecutorError + UpsertResult) :=
  match prepare_code env k code w with
  | (w, inl err) => (w, inl err)
  | (w, inr (remove_if_fail, contract_was_provided)) =>
      let is_new := match SS.get (first_read_fails env) k (store w) with inl _ => true | inr _ => false end in
      let started :=
        if remove_if_fail && is_new && contract_was_provided then
          IT.start_initialization k (now env) (tracker (executor env) w)
        else Some (tracker (executor env) w) in
      match started with
      | None => (rollback env k true w, inl TooBusy)
      | Some t =>
          let w := with_tracker (executor env) t w in
          match update with
          | inl v => upsert_full env defer k p v related is_new remove_if_fail w
          | inr d => upsert_existing env defer k p (inr d) related w
          end
      end
  end.

Definition bridged_upsert_contract_state_inner (env : Env) (defer : bool) (k : K) (update : V + Dl) (related : Related)
    (code : option Code) (w : World) : World * (ExecutorError + UpsertResult) :=
  let keyed := match code with
               | Some c => if bool_decide (key_id k = key_id (container_key c)) then Some (container_key c) else None
               | None => Some k
               end in
  match keyed with
  | None => (w, inl KeyMismatch)
  | Some k =>
      let e := executor env in
      let '(t, _) := IT.cleanup_stale_initializations IT.STALE_INIT_THRESHOLD (now env) (tracker e w) in
      let '(t, checked) := IT.check_and_maybe_queue k (bool_decide (is_Some code)) (update, related) (now env) t in
      let w := with_tracker e t w in
      match checked with
      | IT.PutDuringInit => (w, inl BeingInitialized)
      | IT.QueueFull => (w, inl ContractQueueFull)
      | IT.Queued _ => (w, inr NoChange)
      | IT.NotInitializing =>
          match load_params env k code w with
          | (w, inl err) => (w, inl err)
          | (w, inr p) => upsert_with env defer k p update related code w
          end
      end
  end.

(** ** Sequences of calls *)

(** A call of an executor, or the reclamation of an evicted contract. *)
Inductive op :=
| Upsert (env : Env) (defer : bool) (k : K) (update : V + Dl) (related : Related) (code : option Code)
| Reclaim (e : nat) (state_fails index_fails load_fails unlink_fails : bool) (k : K).

Definition step (w : World) (o : op) : World :=
  match o with
  | Upsert env defer k update related code => (bridged_upsert_contract_state_inner env defer k update related code w).1
  | Reclaim e fs f1 f2 f3 k =>
      with_codes (CS.remove_contract e f1 f2 f3 (code_key k) (codes w)).1
        (with_store (SS.delete_state fs k (store w)).1 w)
  end.

Definition run (w : World) (os : list op) : World := foldl step w os.

Definition start (uncached : bool) : World :=
  mkWorld (if uncached then SS.new_uncached else SS.new) CS.new ∅ ∅ ∅ [].

Abbreviation states w := (SS.states (store w)) (only parsing).

(** ** Only validated states are stored *)

Section validated.
Variable params_of : K -> Pm.

(** The key is a hash of the code and the parameters. *)
Definition op_ok (o : op) : Prop :=
  match o with Upsert _ _ _ _ _ (Some c) => container_params c = params_of (container_key c) | _ => True end.

Definition validated (k : K) (v : V) : Prop :=
  size v <= SS.MAX_STATE_SIZE /\ exists related, validate_state k (params_of k) v related = Some Valid.

Record sound (w : World) : Prop := {
  sound_states : map_Forall validated (states w);
  sound_params : map_Forall (fun k p => p = params_of k) (SS.params (store w));
}.

Lemma fetch_related_valid env defer k p v related w :
  fetch_related_for_validation env defer k p v related w = inr Valid -> exists r, validate_state k p v r = Some Valid.
Proof.
  unfold fetch_related_for_validation. destruct (validate_state k p v related) as [[]|] eqn:E; try done; [by eexists|].
  destruct (refuse_related k ids); [done|].
  destruct (if defer then _ else _) as [|found]; [done|]. 
  match goal with |- context [validate_state k p v (?a ∪ ?b)] => destruct (validate_state k p v (a ∪ b)) as [[]|] eqn:E2 end; try done.
  by eexists.
Qed.

Lemma fetch_related_decides env defer k p v related w ids :
  fetch_related_for_validation env defer k p v related w <> inr (RequestRelated ids).
Proof.
  unfold fetch_related_for_validation. destruct (validate_state k p v related) as [[]|]; try done.
  destruct (refuse_related k _); [done|]. destruct (if defer then _ else _); [done|].
  by match goal with |- context [validate_state k p v (?a ∪ ?b)] => destruct (validate_state k p v (a ∪ b)) as [[]|] end.
Qed.

(** A step that writes at most the validated state [v] of [k]. *)
Lemma sound_frame w w' : store w' = store w -> sound w -> sound w'.
Proof. intros Hs [H1 H2]. by split; rewrite Hs. Qed.

Lemma sound_if (b : bool) w1 w2 : sound w1 -> sound w2 -> sound (if b then w1 else w2).
Proof. by destruct b. Qed.

Lemma sound_update rf wf k v w w' :
  store w' = (SS.update size rf wf k v (store w)).1 ->
  (exists r, validate_state k (params_of k) v r = Some Valid) -> sound w -> sound w'.
Proof.
  intros Hs Hv [H1 H2]. unfold SS.update in Hs. destruct (SS.MAX_STATE_SIZE <? size v) eqn:El; [by eapply sound_frame|].
  apply Z.ltb_ge in El.
  repeat case_match; try (by eapply sound_frame); split; rewrite Hs; cbn; try done; by apply map_Forall_insert_2.
Qed.

Lemma sound_commit env k v w :
  (exists r, validate_state k (params_of k) v r = Some Valid) -> sound w -> sound (commit_state_update env k v w).1.
Proof.
  intros Hv Hw. unfold commit_state_update. case_bool_decide; [done|]. destruct (_ <? _); [done|]. destruct (negb _); [done|].
  destruct (SS.update _ _ _ _ _ _) as [s [e|]] eqn:E; (eapply sound_update; [|exact Hv|exact Hw]); cbn; by rewrite E.
Qed.

Lemma sound_replay env k ops current w : sound w -> sound (replay env k (params_of k) ops current w).
Proof.
  revert current w. induction ops as [|o ops IH]; intros current w Hw; [done|]. cbn.
  destruct (IT.operation o) as [u r]. destruct (attempt_state_update _ _ _ _) as [|[v|]]; try by apply IH.
  destruct (validate_state k (params_of k) v r) as [[]|] eqn:Ev; cbn; try by apply IH.
  case_bool_decide; cbn; [by apply IH|].
  pose proof (sound_commit env k v w (ex_intro _ r Ev) Hw) as Hc.
  by destruct (commit_state_update env k v w) as [w' [e|]]; apply IH.
Qed.

Lemma sound_install env k v b w :
  (exists r, validate_state k (params_of k) v r = Some Valid) -> sound w -> sound (install_initial env k (params_of k) v b w).1.
Proof.
  intros Hv [H1 H2]. unfold install_initial. destruct (negb _).
  { unfold fail_initialization, rollback. cbn. destruct b; [destruct (remove_fails env) as [[]]|]; by split. }
  assert (Hs : forall s e, SS.store size (state_write_fails env) (store_params_fails env) k v (params_of k) (store w) = (s, e) ->
    map_Forall validated (SS.states s) /\ map_Forall (fun k p => p = params_of k) (SS.params s)).
  { unfold SS.store. destruct (SS.MAX_STATE_SIZE <? size v) eqn:El; [by intros s e [= <- _]|]. apply Z.ltb_ge in El.
    destruct (state_write_fails env); [by intros s e [= <- _]|].
    destruct (store_params_fails env); intros s e [= <- _]; cbn; (split; [by apply map_Forall_insert_2|]); [done|by apply map_Forall_insert_2]. }
  destruct (SS.store _ _ _ _ _ _ _) as [s [e|]]; destruct (Hs _ _ eq_refl) as [Hs1 Hs2]; [by split|].
  cbn. destruct (_ !! k) as [i|]; cbn; [apply sound_replay|]; by split.
Qed.

Lemma sound_existing env defer k u related w : sound w -> sound (upsert_existing env defer k (params_of k) u related w).1.
Proof.
  intros Hw. unfold upsert_existing. destruct (SS.get _ _ _) as [[]|cur]; try done.
  case_bool_decide; [eapply sound_frame; [|exact Hw]; cbn; by destruct (_ && _)|].
  destruct (merge _ _ _ _ _ _ _ _ w) as [w1 r] eqn:Em.
  assert (H1 : store w1 = store w).
  { unfold merge, recover in Em. repeat case_match; by simplify_eq. }
  destruct r as [err|[v b]]; [by eapply sound_frame|].
  set (w2 := if _ && _ then _ else w1). assert (H2 : sound w2) by (apply sound_if; by eapply sound_frame). clearbody w2.
  unfold commit_merged. destruct (fetch_related_for_validation _ _ _ _ _ _ _) as [err|[]] eqn:Ef; try done.
  apply fetch_related_valid in Ef. case_bool_decide; [done|]. set (w3 := if _ && _ then _ else w2).
  assert (Hw3 : sound w3) by (apply sound_if; [by apply (sound_frame w2)|done]).
  case_bool_decide; [done|]. pose proof (sound_commit env k v w3 Ef Hw3) as Hc.
  by destruct (commit_state_update env k v w3) as [w4 [e|]].
Qed.

Lemma sound_upsert_with env defer k u related code w :
  sound w -> sound (upsert_with env defer k (params_of k) u related code w).1.
Proof.
  intros Hw. unfold upsert_with.
  destruct (prepare_code env k code w) as [w1 r] eqn:Ep.
  assert (H1 : sound w1).
  { apply (sound_frame w); [|done]. unfold prepare_code in Ep. repeat case_match; by simplify_eq. }
  destruct r as [err|[rm pr]]; [done|]. destruct (if rm && _ && _ then _ else _) as [t|].
  2: { eapply sound_frame; [|exact H1]. unfold rollback. by destruct (remove_fails env) as [[]]. }
  set (w2 := with_tracker _ _ _). assert (H2 : sound w2) by by apply (sound_frame w1).
  destruct u as [v|d]; [|by apply sound_existing]. unfold upsert_full.
  destruct (_ <? _).
  { eapply sound_frame; [|exact H2]. unfold rollback. destruct rm; [|done]. by destruct (remove_fails env) as [[]]. }
  destruct (fetch_related_for_validation _ _ _ _ _ _ _) as [err|[]] eqn:Ef; try by apply (sound_frame w2).
  - eapply sound_frame; [|exact H2]. unfold fail_initialization, rollback. destruct rm; [|done]. by destruct (remove_fails env) as [[]].
  - apply fetch_related_valid in Ef. destruct (SS.get _ _ _); [by apply sound_install|by apply sound_existing].
Qed.

Lemma sound_step w o : op_ok o -> sound w -> sound (step w o).
Proof.
  intros Ho Hw. destruct o; cbn.
  - unfold bridged_upsert_contract_state_inner.
    set (keyed := match code with Some _ => _ | None => _ end). destruct keyed as [k'|] eqn:Ek; [|done]. unfold keyed in Ek.
    destruct (IT.cleanup_stale_initializations _ _ _) as [t l]. destruct (IT.check_and_maybe_queue _ _ _ _ _) as [t' c].
    set (w1 := with_tracker _ _ _). assert (H1 : sound w1) by by apply (sound_frame w).
    destruct c; try done. unfold load_params. destruct code as [c|].
    + case_bool_decide; [|done]. injection Ek as <-. cbn in Ho. rewrite Ho. apply sound_upsert_with.
      destruct H1 as [Hs Hp]. unfold SS.ensure_params. destruct (params_write_fails env); [done|].
      split; cbn; [done|]. by apply map_Forall_insert_2.
    + destruct (SS.get_params _ _ _) as [|[p|]] eqn:Eg; try done. unfold SS.get_params in Eg.
      destruct (params_read_fails env); [done|]. injection Eg as Eg. apply (sound_params _ H1) in Eg as ->.
      by apply sound_upsert_with.
  - destruct Hw as [H1 H2]. unfold SS.delete_state. destruct state_fails; [by split|].
    split; cbn; by apply map_Forall_delete.
Qed.

(** C14: only validated states are stored.  Whatever PUTs and UPDATEs the executors process, in any
    order, with any failures of the database, the file system and the network, and with any
    operations queued behind an initialisation: a state in the database was accepted by its
    contract's [validate_state], with the contract's own parameters and some related contracts,
    and is not larger than the limit. *)
Theorem stored_states_validated uncached os :
  Forall op_ok os -> map_Forall validated (states (run (start uncached) os)).
Proof.
  intros Ho. apply sound_states. assert (Hs : sound (start uncached)).
  { split; cbn; destruct uncached; cbn; apply map_Forall_empty. }
  revert Hs. generalize (start uncached). induction Ho as [|o os Ho _ IH]; intros w Hw; [done|].
  cbn. by apply IH, sound_step.
Qed.
End validated.

(** ** What an answer means *)

Definition unchanged (w w' : World) : Prop := states w' = states w /\ committed w' = committed w.

(** The state [v] of [k] was written and committed. *)
Definition wrote (k : K) (v : V) (w w' : World) : Prop :=
  states w' = <[k := v]> (states w) /\ committed w' = committed w ++ [(k, size v)].

Definition answer_holds (k : K) (update : V + Dl) (w w' : World) (r : ExecutorError + UpsertResult) : Prop :=
  match r with
  | inr (Updated v) => wrote k v w w'
  | inr NoChange | inr (CurrentWon _) => unchanged w w'
  | inl StoreError =>
      unchanged w w' \/ exists v, update = inl v /\ states w' = <[k := v]> (states w) /\ committed w' = committed w
  | inl _ => unchanged w w'
  end.

Lemma unchanged_refl w : unchanged w w.
Proof. done. Qed.

Lemma answer_unchanged k u w w' r :
  unchanged w w' -> match r with inr (Updated _) => False | _ => True end -> answer_holds k u w w' r.
Proof. destruct r as [[]|[]]; cbn; auto; done. Qed.

(** The answer carries over to a world with the same states and commits. *)
Lemma answer_from k u w0 w w' r : unchanged w0 w -> answer_holds k u w w' r -> answer_holds k u w0 w' r.
Proof.
  intros [Hs Hc]. unfold answer_holds, wrote, unchanged. rewrite Hs, Hc. destruct r as [[]|[]]; done.
Qed.

Lemma rollback_unchanged env k b w : unchanged w (rollback env k b w).
Proof. unfold rollback. destruct b; [|done]. by destruct (remove_fails env) as [[]]. Qed.

Lemma commit_effect env k v w :
  k ∉ broken w ->
  match commit_state_update env k v w with (w', None) => wrote k v w w' | (w', Some _) => unchanged w w' end.
Proof.
  intros Hb. unfold commit_state_update. rewrite bool_decide_false by done. destruct (_ <? _) eqn:El; [done|].
  destruct (negb _); [done|]. unfold SS.update. rewrite El. repeat case_match; simplify_eq; done.
Qed.

Lemma merged_answer env defer k p current updated related updates u w :
  let x := commit_merged env defer k p current updated related updates w in answer_holds k u w x.1 x.2.
Proof.
  unfold commit_merged. destruct (fetch_related_for_validation _ _ _ _ _ _ _) as [err|[]]; try by apply answer_unchanged.
  case_bool_decide; [by apply answer_unchanged|]. set (w1 := if _ && _ then _ else w).
  assert (Hu : unchanged w w1) by (unfold w1; by destruct (_ && _)).
  case_bool_decide as Hb; [by apply answer_unchanged|]. pose proof (commit_effect env k updated w1 Hb) as Hc.
  destruct (commit_state_update env k updated w1) as [w2 [err|]].
  - apply (answer_from k u w w1 _ (inl err)); [done|]. by apply answer_unchanged.
  - by apply (answer_from _ u _ w1 _ (inr (Updated updated))).
Qed.

Lemma existing_answer env defer k p u related w :
  let x := upsert_existing env defer k p u related w in answer_holds k u w x.1 x.2.
Proof.
  unfold upsert_existing. destruct (SS.get _ _ _) as [[]|current]; try by apply answer_unchanged.
  set (updates := _ :: _). case_bool_decide; [apply answer_unchanged; [by destruct (_ && _)|done]|].
  destruct (merge _ _ _ _ _ _ _ _ w) as [w1 r] eqn:Em.
  assert (Hu : unchanged w w1) by (unfold merge, recover in Em; repeat case_match; by simplify_eq).
  destruct r as [err|[v b]]; [by apply answer_unchanged|]. set (w2 := if _ && _ then _ else w1).
  apply (answer_from _ _ _ w2); [unfold w2; by destruct (_ && _)|]. apply merged_answer.
Qed.

Lemma install_answer env k p v b u w :
  IT.queued_count k (tracker (executor env) w) = 0%nat -> u = inl v ->
  let x := install_initial env k p v b w in answer_holds k u w x.1 x.2.
Proof.
  intros Hq ->. unfold install_initial. destruct (negb _).
  { apply answer_unchanged; [|done]. destruct (rollback_unchanged env k b w). by split. }
  unfold SS.store. destruct (_ <? _); [by apply answer_unchanged|]. destruct (state_write_fails env); [by apply answer_unchanged|].
  destruct (store_params_fails env); [right; by exists v|].
  unfold IT.queued_count in Hq. cbn. change (tracker (executor env) (mkWorld _ _ (trackers w) _ _ _)) with (tracker (executor env) w).
  destruct (tracker (executor env) w !! k) as [i|]; cbn; [|done]. by apply nil_length_inv in Hq as ->.
Qed.

Lemma prepare_unchanged env k code w : let w' := (prepare_code env k code w).1 in unchanged w w' /\ trackers w' = trackers w.
Proof. unfold prepare_code. repeat case_match; by simplify_eq. Qed.

Lemma tracker_insert e t w : tracker e (with_tracker e t w) = t.
Proof. unfold tracker. cbn. by rewrite lookup_insert_eq. Qed.

Lemma upsert_with_answer env defer k p u related code w :
  tracker (executor env) w !! k = None ->
  let x := upsert_with env defer k p u related code w in answer_holds k u w x.1 x.2.
Proof.
  intros Hk. unfold upsert_with. destruct (prepare_unchanged env k code w) as [Hu Ht].
  destruct (prepare_code env k code w) as [w1 [err|[rm pr]]]; cbn [fst] in *; [by apply answer_unchanged|].
  assert (Hk1 : tracker (executor env) w1 !! k = None) by (unfold tracker; by rewrite Ht).
  set (st := if rm && _ && pr then _ else _). set (is_new := match SS.get _ _ _ with inl _ => true | inr _ => false end).
  destruct st as [t|] eqn:Et.
  2: { apply answer_unchanged; [|done]. destruct Hu, (rollback_unchanged env k true w1). split; by etransitivity. }
  apply (answer_from k u w w1); [done|]. set (w2 := with_tracker (executor env) t w1).
  assert (Hq : IT.queued_count k (tracker (executor env) w2) = 0%nat).
  { unfold w2. rewrite tracker_insert. unfold st, IT.start_initialization, IT.queued_count in *.
    destruct (rm && _ && pr); [destruct (_ <=? _)%nat; [done|]|]; injection Et as <-; [by rewrite lookup_insert_eq|by rewrite Hk1]. }
  apply (answer_from k u w1 w2); [done|]. destruct u as [v|d]; [|apply existing_answer]. unfold upsert_full.
  destruct (_ <? _); [apply answer_unchanged; [apply rollback_unchanged|done]|].
  destruct (fetch_related_for_validation _ _ _ _ _ _ _) as [err|[]]; try by apply answer_unchanged.
  - apply answer_unchanged; [|done]. destruct (rollback_unchanged env k rm w2). by split.
  - destruct is_new; [by apply install_answer|apply existing_answer].
Qed.

(** The contract an upsert is about. *)
Definition upsert_key (k : K) (code : option Code) : K := match code with Some c => container_key c | None => k end.

(** C15: the answer of a PUT or UPDATE tells what happened to the database.  [Updated v]: the contract's
    state is now [v], nothing else changed, and the write was committed to the ring exactly once.
    [NoChange], or an error other than a failing store: no state changed and nothing was committed.
    A failing store changes nothing either, except that the parameters of a first state may fail
    after the state itself was written.  In particular nothing is ever replayed from the queue
    behind an initialisation. *)
Theorem upsert_answer_exact env defer k update related code w :
  let x := bridged_upsert_contract_state_inner env defer k update related code w in
  answer_holds (upsert_key k code) update w x.1 x.2.
Proof.
  unfold bridged_upsert_contract_state_inner.
  set (keyed := match code with Some _ => _ | None => _ end). destruct keyed as [k'|] eqn:Ek; [|by apply answer_unchanged].
  assert (Hk : upsert_key k code = k').
  { unfold keyed in Ek. destruct code; cbn; [case_bool_decide; [|done]|]; by injection Ek. }
  rewrite Hk. destruct (IT.cleanup_stale_initializations _ _ _) as [t l].
  destruct (IT.check_and_maybe_queue _ _ _ _ _) as [t' c] eqn:Ec. set (w1 := with_tracker _ _ _).
  destruct c; try by apply answer_unchanged.
  assert (Hn : tracker (executor env) w1 !! k' = None).
  { unfold w1. rewrite tracker_insert. unfold IT.check_and_maybe_queue in Ec. repeat case_match; by simplify_eq. }
  unfold load_params. destruct code as [c|].
  - apply (answer_from _ _ w (with_store (SS.ensure_params (params_write_fails env) k' (container_params c) (store w1)).1 w1)).
    { unfold SS.ensure_params. by destruct (params_write_fails env). }
    by apply upsert_with_answer.
  - destruct (SS.get_params _ _ _) as [|[p|]]; try by apply answer_unchanged.
    apply (answer_from _ _ w w1); [done|]. by apply upsert_with_answer.
Qed.

(** ** A refused PUT *)

(** Nothing is stored for [k]: it is its first PUT.  Its code may be there already, for another
    instance; the index never names a code that is not. *)
Record absent (k : K) (w : World) : Prop := {
  no_state : SS.get false k (store w) = inl (SS.MissingContract k);
  no_entry : CS.index (codes w) !! key_id k = None;
  no_index : CS.key_to_code_part (codes w) !! key_id k = None;
  unshared : CS.code_blob_stored (key_hash k) (codes w) = false ->
             map_Forall (fun _ h => h <> key_hash k) (CS.index (codes w));
}.

(** The directory of blobs, the index table and the index in memory. *)
Definition code_is (files : gmap H F) (index memory : gmap I H) (w : World) : Prop :=
  CS.files (codes w) = files /\ CS.index (codes w) = index /\ CS.key_to_code_part (codes w) = memory.

Definition same_code (w w' : World) : Prop :=
  code_is (CS.files (codes w)) (CS.index (codes w)) (CS.key_to_code_part (codes w)) w'.
Definition indexed_code (k : K) (files : gmap H F) (w w' : World) : Prop :=
  code_is files (<[key_id k := key_hash k]> (CS.index (codes w))) (<[key_id k := key_hash k]> (CS.key_to_code_part (codes w))) w'.

(** Everything but the code and the trackers. *)
Definition same_rest (w w' : World) : Prop :=
  store w' = store w /\ recovery_guard w' = recovery_guard w /\ broken w' = broken w /\ committed w' = committed w.

Lemma rollback_rest env k b w : same_rest w (rollback env k b w) /\ trackers (rollback env k b w) = trackers w.
Proof. unfold rollback. destruct b; [|done]. by destruct (remove_fails env) as [[]]. Qed.

Lemma store_first env k c w cs :
  CS.code_blob_stored (key_hash k) (codes w) = false ->
  CS.store_contract to_bytes_versioned load_versioned (executor env) (blob_write env) (index_fails env) (code_key k) c (codes w)
    = (cs, true) ->
  exists output, to_bytes_versioned c = Some output /\
    indexed_code k (<[key_hash k := output]> (CS.files (codes w))) w (with_codes cs w).
Proof.
  intros Hb Hs. unfold CS.store_contract in Hs. cbn [CS.code_hash CS.id code_key] in Hs. rewrite Hb, andb_false_r in Hs.
  apply bool_decide_eq_false, eq_None_not_Some in Hb. rewrite Hb in Hs. cbn in Hs.
  destruct (to_bytes_versioned c) as [o|]; [|done]. destruct (blob_write env); try done. destruct (index_fails env); [done|].
  injection Hs as <-. by exists o.
Qed.

Lemma rollback_first env k output w w1 :
  absent k w -> remove_fails env = (false, false, false) -> CS.code_blob_stored (key_hash k) (codes w) = false ->
  indexed_code k (<[key_hash k := output]> (CS.files (codes w))) w w1 -> same_code w (rollback env k true w1).
Proof.
  intros Ha Hf Hb (E1 & E2 & E3). pose proof (unshared _ _ Ha Hb) as Hu.
  apply bool_decide_eq_false, eq_None_not_Some in Hb.
  unfold rollback, same_code, code_is. rewrite Hf. unfold CS.remove_contract. cbn. rewrite E2, E3.
  rewrite (delete_insert_id _ _ _ (no_entry _ _ Ha)), (delete_insert_id _ _ _ (no_index _ _ Ha)). destruct (existsb _ _) eqn:Ex.
  - apply existsb_exists in Ex as ([i h] & Hin & Hh). apply list_elem_of_In, elem_of_map_to_list in Hin.
    apply Hu in Hin. apply bool_decide_eq_true in Hh. done.
  - unfold CS.code_blob_stored. cbn. rewrite E1, lookup_insert_eq, bool_decide_true by done. cbn.
    split_and!; [by apply delete_insert_id|done|done].
Qed.

Lemma fetch_related_error env defer k p v related w err :
  fetch_related_for_validation env defer k p v related w = inl err ->
  match err with Execution | RelatedRefused | DeferRelated _ | RelatedTimeout | MissingRelated => True | _ => False end.
Proof.
  unfold fetch_related_for_validation, refuse_related, resolve. intros E.
  repeat (case_match; simplify_eq; try done).
Qed.

(** How the first installation of a state fails. *)
Lemma first_install_refused env defer k p v related rm w w' err :
  upsert_full env defer k p v related true rm w = (w', inl err) -> err <> StoreError ->
  match err with
  | KeyMismatch | BeingInitialized => False
  | InvalidPut => w' = fail_initialization env k w
  | StateTooLarge => w' = rollback env k rm w
  | _ => w' = fail_initialization env k (rollback env k rm w)
  end.
Proof.
  unfold upsert_full. destruct (_ <? _); [by intros [= <- <-]|].
  destruct (fetch_related_for_validation _ _ _ _ _ _ _) as [e|[]] eqn:Ef; [|..|by intros [= <- <-]|].
  - intros [= <- <-]. apply fetch_related_error in Ef. by destruct e.
  - unfold install_initial. destruct (negb _); [by intros [= <- <-]|].
    destruct (SS.store _ _ _ _ _ _ _) as [s [e|]]; [by intros [= <- <-]|]. by destruct (IT.complete_initialization _ _ _).
  - by apply fetch_related_decides in Ef.
Qed.

(** The errors of the checks before anything is done. *)
Definition early (err : ExecutorError) : bool := match err with KeyMismatch | BeingInitialized => true | _ => false end.
Definition is_invalid (err : ExecutorError) : bool := match err with InvalidPut => true | _ => false end.
Definition is_too_large (err : ExecutorError) : bool := match err with StateTooLarge => true | _ => false end.

(** What a refused first PUT of the container [c] as [k] leaves behind. *)
Definition leftovers (k : K) (c : Code) (err : ExecutorError) (shared : bool) (w w' : World) (pending : bool) : Prop :=
  (if shared then indexed_code k (CS.files (codes w)) w w'
   else if is_invalid err then
     exists output, to_bytes_versioned c = Some output /\ indexed_code k (<[key_hash k := output]> (CS.files (codes w))) w w'
   else same_code w w') /\
  pending = negb shared && is_too_large err.

Lemma fail_rest env k w : same_rest w (fail_initialization env k w) /\ codes (fail_initialization env k w) = codes w /\
  tracker (executor env) (fail_initialization env k w) !! k = None.
Proof. unfold fail_initialization. rewrite tracker_insert. split_and!; try done. cbn. apply lookup_delete_eq. Qed.

Lemma rest_trans w1 w2 w3 : same_rest w1 w2 -> same_rest w2 w3 -> same_rest w1 w3.
Proof. intros (A1 & B1 & C1 & D1) (A2 & B2 & C2 & D2). split_and!; congruence. Qed.

Lemma code_is_eq f i m w w' : codes w' = codes w -> code_is f i m w -> code_is f i m w'.
Proof. unfold code_is. by intros ->. Qed.

Lemma first_read_new env k w : SS.get false k (store w) = inl (SS.MissingContract k) ->
  match SS.get (first_read_fails env) k (store w) with inl _ => true | inr _ => false end = true.
Proof. unfold SS.get. destruct (SS.cached k (store w)); [done|].
  by destruct (first_read_fails env), (SS.states (store w) !! k). Qed.

(** The code is there already: only the index entry is new, and it stays. *)
Lemma shared_put_refused env defer k p v related c w w' err :
  absent k w -> CS.code_blob_stored (key_hash k) (codes w) = true -> tracker (executor env) w !! k = None ->
  upsert_with env defer k p (inl v) related (Some c) w = (w', inl err) -> err <> StoreError ->
  early err = false /\ same_rest w w' /\ leftovers k c err true w w' (bool_decide (is_Some (tracker (executor env) w' !! k))).
Proof.
  intros Ha Hb Hk Hr He. unfold upsert_with, prepare_code in Hr. rewrite Hb in Hr. cbn [negb] in Hr.
  unfold CS.ensure_key_indexed in Hr. cbn [CS.id CS.code_hash code_key] in Hr. rewrite (no_index _ _ Ha) in Hr.
  destruct (index_fails env); [injection Hr as <- <-; done|].
  rewrite (first_read_new env k) in Hr by apply Ha. cbn [andb] in Hr.
  set (w1 := with_codes _ w) in Hr. set (w2 := with_tracker _ _ w1) in Hr.
  assert (H2 : same_rest w w2 /\ indexed_code k (CS.files (codes w)) w w2 /\ tracker (executor env) w2 !! k = None).
  { split_and!; try done. unfold w2. by rewrite tracker_insert. }
  destruct H2 as (R2 & C2 & T2). apply first_install_refused in Hr; [|done]. cbn [rollback] in Hr.
  destruct (fail_rest env k w2) as (R3 & C3 & T3). unfold leftovers. cbn [negb andb].
  assert (Hd : early err = false /\ (w' = w2 \/ w' = fail_initialization env k w2)) by (destruct err; auto; done).
  destruct Hd as [Hearly [-> | ->]]; (split; [done|]).
  - split_and!; try apply R2; try apply C2. by rewrite T2.
  - split_and!; try (by eapply rest_trans); try (by eapply code_is_eq). by rewrite T3.
Qed.

(** The code is new: it is removed again, unless the state is invalid. *)
Lemma unshared_put_refused env defer k p v related c w w' err :
  absent k w -> remove_fails env = (false, false, false) -> CS.code_blob_stored (key_hash k) (codes w) = false ->
  tracker (executor env) w !! k = None ->
  upsert_with env defer k p (inl v) related (Some c) w = (w', inl err) -> err <> StoreError ->
  early err = false /\ same_rest w w' /\ leftovers k c err false w w' (bool_decide (is_Some (tracker (executor env) w' !! k))).
Proof.
  intros Ha Hf Hb Hk Hr He. unfold upsert_with, prepare_code in Hr. rewrite Hb in Hr. cbn [negb] in Hr.
  destruct (admits_wasm env); cbn [negb] in Hr; [|injection Hr as <- <-; unfold leftovers; by rewrite Hk].
  destruct (CS.store_contract _ _ _ _ _ _ _ _) as [cs ok] eqn:Es. destruct ok; [|injection Hr as <- <-; done].
  destruct (store_first env k c w cs Hb Es) as (o & Eo & Hc).
  rewrite (first_read_new env k) in Hr by apply Ha. cbn [andb] in Hr. set (w1 := with_codes cs w) in *.
  destruct (IT.start_initialization _ _ _) as [t|] eqn:Et.
  2: { apply pair_eq in Hr as [<- [= <-]]. destruct (rollback_rest env k true w1) as [R T]. unfold leftovers, tracker. rewrite T.
       change (default ∅ _) with (tracker (executor env) w). rewrite Hk.
       split_and!; try apply R; try done; by apply (rollback_first env k o w w1). }
  set (w2 := with_tracker _ t w1) in Hr. apply first_install_refused in Hr; [|done].
  destruct (rollback_rest env k true w2) as [R2 T2].
  assert (S2 : same_code w (rollback env k true w2)) by (by apply (rollback_first env k o w w2)).
  destruct (fail_rest env k w2) as (R3 & C3 & T3), (fail_rest env k (rollback env k true w2)) as (R4 & C4 & T4).
  assert (Ht : is_Some (tracker (executor env) (rollback env k true w2) !! k)).
  { unfold tracker. rewrite T2. change (default ∅ _) with (tracker (executor env) w2). unfold w2. rewrite tracker_insert.
    unfold IT.start_initialization in Et. destruct (_ <=? _)%nat; [done|]. injection Et as <-. rewrite lookup_insert_eq. eauto. }
  assert (Hd : early err = false /\ ((is_invalid err = true /\ is_too_large err = false /\ w' = fail_initialization env k w2) \/
    (is_invalid err = false /\ is_too_large err = true /\ w' = rollback env k true w2) \/
    (is_invalid err = false /\ is_too_large err = false /\ w' = fail_initialization env k (rollback env k true w2))))
    by (destruct err; cbn; auto 6; done).
  unfold leftovers. destruct Hd as [Hearly [(-> & -> & ->)|[(-> & -> & ->)|(-> & -> & ->)]]]; (split; [done|]).
  - split_and!; try apply R3; [|by rewrite T3]. exists o. split; [done|]. by eapply code_is_eq.
  - split_and!; try apply R2; try apply S2. by rewrite bool_decide_true.
  - split_and!; try apply (rest_trans _ _ _ R2 R4); try (by eapply code_is_eq). by rewrite T4.
Qed.

(** C16: what a refused first PUT leaves behind.  Let the first PUT of a contract fail, with removals that
    succeed and an error other than a failing store.  No state is stored or committed.  If the code was
    new, it is gone again from disk and index after any error - the disk budget, too many
    initialisations, an execution error of the contract, related contracts that are refused, missing,
    deferred or late, an oversized state - except an invalid state, after which blob and index entry
    stay.  If another instance had brought the code, the index entry of this one stays after every
    error.  The contract is left initialising after an oversized state with new code, and otherwise
    not.  And the row of the contract's parameters stays, whatever the error, unless its write failed.
    Only a key that does not match and a contract being initialised are refused before anything is
    touched. *)
Theorem refused_put_leftovers env defer k v related c w w' err :
  let k' := container_key c in
  absent k' w -> remove_fails env = (false, false, false) ->
  bridged_upsert_contract_state_inner env defer k (inl v) related (Some c) w = (w', inl err) -> err <> StoreError ->
  states w' = states w /\ committed w' = committed w /\ recovery_guard w' = recovery_guard w /\ broken w' = broken w /\
  SS.params (store w') = (if early err || params_write_fails env then SS.params (store w)
                          else <[k' := container_params c]> (SS.params (store w))) /\
  (if early err then same_code w w'
   else leftovers k' c err (CS.code_blob_stored (key_hash k') (codes w)) w w'
          (bool_decide (is_Some (tracker (executor env) w' !! k')))).
Proof.
  cbn zeta. intros Ha Hf Hr He. unfold bridged_upsert_contract_state_inner in Hr.
  case_bool_decide; [|by injection Hr as <- <-].
  destruct (IT.cleanup_stale_initializations _ _ _) as [t l].
  destruct (IT.check_and_maybe_queue _ _ _ _ _) as [t' ch] eqn:Ec.
  assert (Hq : ch = IT.NotInitializing /\ t' !! container_key c = None \/ ch = IT.PutDuringInit).
  { clear Hr. unfold IT.check_and_maybe_queue in Ec. rewrite bool_decide_true in Ec by done. case_match; simplify_eq; auto. }
  destruct Hq as [[-> Hk] | ->]; [|by injection Hr as <- <-]. cbn [load_params] in Hr.
  match type of Hr with upsert_with _ _ _ _ _ _ _ ?x = _ => set (w1 := x) in Hr end.
  assert (Ha1 : absent (container_key c) w1).
  { destruct Ha as [Hs ? ? ?]. split; try done. unfold w1, SS.ensure_params, SS.get, SS.cached in *. by destruct (params_write_fails env). }
  assert (Ht1 : tracker (executor env) w1 !! container_key c = None) by (unfold w1, tracker; cbn; by rewrite lookup_insert_eq).
  assert (H1 : early err = false /\ same_rest w1 w' /\ leftovers (container_key c) c err
      (CS.code_blob_stored (key_hash (container_key c)) (codes w)) w1 w' (bool_decide (is_Some (tracker (executor env) w' !! container_key c)))).
  { change (codes w) with (codes w1). destruct (CS.code_blob_stored _ _) eqn:Eb; [by eapply shared_put_refused|by eapply unshared_put_refused]. }
  destruct H1 as (-> & (R1 & R2 & R3 & R4) & Hl). cbn [orb]. rewrite R1, R2, R3, R4. clear Hr.
  split_and!; try done; unfold w1, SS.ensure_params; cbn; by destruct (params_write_fails env).
Qed.

(** ** The initialisation trackers stay bounded *)

Definition trackers_ok (w : World) : Prop := forall e, IT.bounded (tracker e w).

Lemma trackers_frame w w' : trackers w' = trackers w -> trackers_ok w -> trackers_ok w'.
Proof. intros Ht Hw e. unfold tracker. rewrite Ht. apply Hw. Qed.

Lemma trackers_set e t w : IT.bounded t -> trackers_ok w -> trackers_ok (with_tracker e t w).
Proof.
  intros Ht Hw e'. unfold tracker. cbn. destruct (decide (e = e')) as [<-|]; [by rewrite lookup_insert_eq|].
  rewrite lookup_insert_ne by done. apply Hw.
Qed.

Lemma commit_trackers env k v w : trackers (commit_state_update env k v w).1 = trackers w.
Proof. unfold commit_state_update. repeat case_match; done. Qed.

Lemma replay_trackers env k p ops current w : trackers (replay env k p ops current w) = trackers w.
Proof.
  revert current w. induction ops as [|o ops IH]; intros current w; [done|]. cbn. destruct (IT.operation o) as [u r].
  destruct (attempt_state_update _ _ _ _) as [|[v|]]; try apply IH. destruct (_ && _); [|apply IH].
  pose proof (commit_trackers env k v w). destruct (commit_state_update env k v w) as [w' [e|]]; rewrite IH; done.
Qed.

Lemma existing_trackers env defer k p u related w : trackers (upsert_existing env defer k p u related w).1 = trackers w.
Proof.
  unfold upsert_existing. destruct (SS.get _ _ _) as [[]|current]; try done. case_bool_decide; [by destruct (_ && _)|].
  destruct (merge _ _ _ _ _ _ _ _ w) as [w1 r] eqn:Em.
  assert (Hu : trackers w1 = trackers w) by (unfold merge, recover in Em; repeat case_match; by simplify_eq).
  destruct r as [err|[v b]]; [done|]. set (w2 := if _ && _ then _ else w1).
  assert (H2 : trackers w2 = trackers w) by (unfold w2; by destruct (_ && _)). rewrite <- H2. clearbody w2.
  unfold commit_merged. destruct (fetch_related_for_validation _ _ _ _ _ _ _) as [|[]]; try done. case_bool_decide; [done|].
  set (w3 := if _ && _ then _ else w2). assert (Ht : trackers w3 = trackers w2) by (unfold w3; by destruct (_ && _)).
  case_bool_decide; [done|]. rewrite <- Ht, <- (commit_trackers env k v w3).
  by destruct (commit_state_update env k v w3) as [w4 [e|]].
Qed.

Lemma fail_trackers env k b w : trackers_ok w -> trackers_ok (fail_initialization env k (rollback env k b w)).
Proof.
  intros Hw. assert (Hr : trackers_ok (rollback env k b w)).
  { eapply trackers_frame; [|exact Hw]. unfold rollback. destruct b; [|done]. by destruct (remove_fails env) as [[]]. }
  apply trackers_set; [|done]. by apply IT.bounded_delete.
Qed.

Lemma upsert_with_trackers env defer k p u related code w :
  trackers_ok w -> trackers_ok (upsert_with env defer k p u related code w).1.
Proof.
  intros Hw. unfold upsert_with. destruct (prepare_unchanged env k code w) as [_ Ht].
  destruct (prepare_code env k code w) as [w1 [err|[rm pr]]]; cbn [fst] in *; [by eapply trackers_frame|].
  assert (H1 : trackers_ok w1) by by eapply trackers_frame. set (st := if rm && _ && pr then _ else _).
  destruct st as [t|] eqn:Et.
  2: { eapply trackers_frame; [|exact H1]. unfold rollback. by destruct (remove_fails env) as [[]]. }
  set (w2 := with_tracker _ t w1). assert (H2 : trackers_ok w2).
  { apply trackers_set; [|done]. unfold st in Et. destruct (rm && _ && pr); [by eapply IT.bounded_start|injection Et as <-; apply H1]. }
  destruct u as [v|d]; [|by eapply trackers_frame; [apply existing_trackers|]]. unfold upsert_full.
  destruct (_ <? _).
  { eapply trackers_frame; [|exact H2]. unfold rollback. destruct rm; [|done]. by destruct (remove_fails env) as [[]]. }
  destruct (fetch_related_for_validation _ _ _ _ _ _ _) as [err|[]]; [by apply fail_trackers| |by apply (fail_trackers env k false)..].
  destruct (SS.get _ _ _); [|by eapply trackers_frame; [apply existing_trackers|]].
  unfold install_initial. destruct (negb _); [by apply fail_trackers|]. destruct (SS.store _ _ _ _ _ _ _) as [s' [e'|]]; [done|].
  cbn. set (w3 := with_tracker _ _ _). assert (Hw3 : trackers_ok w3) by (apply trackers_set; [apply IT.bounded_delete, (H2 (executor env))|exact H2]).
  destruct (_ !! k); cbn; [|done]. eapply trackers_frame; [apply replay_trackers|done].
Qed.

Lemma initializations_bounded uncached os e : IT.bounded (tracker e (run (start uncached) os)).
Proof.
  revert e. change (trackers_ok (run (start uncached) os)). assert (Hs : trackers_ok (start uncached)).
  { intros e. unfold tracker. cbn. rewrite lookup_empty. apply IT.bounded_new. }
  revert Hs. generalize (start uncached). induction os as [|o os IH]; intros w Hw; [done|]. cbn. apply IH. destruct o; [|done].
  cbn. unfold bridged_upsert_contract_state_inner.
  set (keyed := match code with Some _ => _ | None => _ end). destruct keyed as [k'|]; [|done].
  pose proof (IT.bounded_cleanup IT.STALE_INIT_THRESHOLD (now env) _ (Hw (executor env))) as Hc.
  destruct (IT.cleanup_stale_initializations _ _ _) as [t l].
  pose proof (IT.bounded_check k' (bool_decide (is_Some code)) (update, related) (now env) t Hc) as Hd.
  destruct (IT.check_and_maybe_queue _ _ _ _ _) as [t' c]. set (w1 := with_tracker _ _ _).
  assert (H1 : trackers_ok w1) by by apply trackers_set.
  destruct c; try done. unfold load_params. destruct code as [c|]; [by apply upsert_with_trackers|].
  destruct (SS.get_params _ _ _) as [|[p|]]; try done. by apply upsert_with_trackers.
Qed.

End upsert.

(** ** A small executor *)

Section example.
(** Negative states are invalid, 7 needs contract 9; a full state is merged by maximum, a
    delta is added. *)
Definition a_validate (_ _ : nat) (v : Z) (related : gmap nat (option Z)) : option (ValidateResult (I:=nat)) :=
  if v <? 0 then Some Invalid
  else if (v =? 7) && bool_decide (related !! 9%nat = None) then Some (RequestRelated [9%nat]) else Some Valid.

Definition a_update (_ _ : nat) (v : Z) (us : list (UpdateData (I:=nat) (V:=Z) (Dl:=Z))) : option (option Z * list nat) :=
  match us with
  | State n :: _ => Some (Some (Z.max v n), [])
  | Delta d :: _ => Some (Some (v + d), [])
  | _ => None
  end.

Definition an_env (t : Z) : Env (I:=nat) (V:=Z) (F:=nat) :=
  mkEnv 0 t false false true CS.Written false (false, false, false) false false true true false false
    (fun _ => false) (fun _ => None) false false false.

Abbreviation same := (fun x => x) (only parsing).
Abbreviation a_step := (step (K:=nat) (I:=nat) (H:=nat) (V:=Z) (Dl:=Z) (Pm:=nat) (Code:=nat) (F:=nat) same same (fun i _ => i)
  same same (fun _ => 0%nat) Some Some a_validate a_update) (only parsing).
Abbreviation a_run := (run (K:=nat) (I:=nat) (H:=nat) (V:=Z) (Dl:=Z) (Pm:=nat) (Code:=nat) (F:=nat) same same (fun i _ => i)
  same same (fun _ => 0%nat) Some Some a_validate a_update) (only parsing).
Abbreviation a_call := (bridged_upsert_contract_state_inner (K:=nat) (I:=nat) (H:=nat) (V:=Z) (Dl:=Z) (Pm:=nat) (Code:=nat) (F:=nat)
  same same (fun i _ => i) same same (fun _ => 0%nat) Some Some a_validate a_update) (only parsing).
Abbreviation a_world := (World (K:=nat) (I:=nat) (H:=nat) (V:=Z) (Dl:=Z) (Pm:=nat) (Code:=nat) (F:=nat)) (only parsing).

Definition put_1 (t v : Z) : op (K:=nat) (I:=nat) (V:=Z) (Dl:=Z) (Code:=nat) (F:=nat) :=
  Upsert (an_env t) true 1%nat (inl v) ∅ (Some 1%nat).
Definition update_1 (t d : Z) : op (K:=nat) (I:=nat) (V:=Z) (Dl:=Z) (Code:=nat) (F:=nat) :=
  Upsert (an_env t) true 1%nat (inr d) ∅ None.

Definition merged_world : a_world := a_run (start false) [put_1 1 5; update_1 2 3; put_1 3 6].

Lemma stored_states_validated_witness :
  SS.states (store merged_world) !! 1%nat = Some 8 /\
  exists related, a_validate 1%nat 0%nat 8 related = Some Valid.
Proof.
  assert (Hs : SS.states (store merged_world) !! 1%nat = Some 8) by (vm_compute; reflexivity).
  split; [exact Hs|].
  exact (proj2 (stored_states_validated (K:=nat) (I:=nat) (H:=nat) (V:=Z) (Dl:=Z) (Pm:=nat) (Code:=nat) (F:=nat) same same
    (fun i _ => i) same same (fun _ => 0%nat) Some Some a_validate a_update (fun _ => 0%nat) false
    [put_1 1 5; update_1 2 3; put_1 3 6] ltac:(repeat constructor) 1%nat 8 Hs)).
Defined.

(** The first PUT needs contract 9, which is not here. *)
Definition deferred : a_world * (ExecutorError (I:=nat) + UpsertResult (V:=Z)) :=
  a_call (an_env 1) true 1%nat (inl 7) ∅ (Some 1%nat) (start false).

Lemma refused_put_leftovers_witness :
  deferred.2 = inl (DeferRelated [9%nat]) /\ CS.code_hash_from_id 1%nat (codes deferred.1) = None /\
  tracker 0 deferred.1 !! 1%nat = None /\ SS.params (store deferred.1) !! 1%nat = Some 0%nat.
Proof.
  assert (Hr : deferred.2 = inl (DeferRelated [9%nat])) by (vm_compute; reflexivity). split; [exact Hr|].
  assert (Ha : absent (K:=nat) (I:=nat) (H:=nat) (V:=Z) (Dl:=Z) (Pm:=nat) (Code:=nat) (F:=nat) same same 1%nat (start false)).
  { split; [vm_compute; reflexivity..|intros _; apply map_Forall_empty]. }
  assert (Hd : deferred = (deferred.1, inl (DeferRelated [9%nat]))) by (rewrite <- Hr; by destruct deferred).
  destruct (refused_put_leftovers (K:=nat) (I:=nat) (H:=nat) (V:=Z) (Dl:=Z) (Pm:=nat) (Code:=nat) (F:=nat) same same
    (fun i _ => i) same same (fun _ => 0%nat) Some Some a_validate a_update (an_env 1) true 1%nat 7 ∅ 1%nat (start false)
    deferred.1 (DeferRelated [9%nat]) Ha eq_refl Hd) as (_ & _ & _ & _ & Hp & (_ & _ & Hc) & Ht); [discriminate|].
  split_and!.
  - unfold CS.code_hash_from_id. rewrite Hc. vm_compute. reflexivity.
  - apply bool_decide_eq_false, eq_None_not_Some in Ht. exact Ht.
  - rewrite Hp. vm_compute. reflexivity.
Defined.

(** An oversized first PUT leaves the contract initialising.  For thirty seconds its executor
    refuses every PUT of it, and answers an UPDATE as if it changed nothing; the update queued
    is dropped, not applied. *)
Example oversized_put_blocks_contract :
  let big := 60 * 1024 * 1024 in
  let secs n := n * 1000000000 in
  let '(w, r1) := a_call (an_env 0) true 1%nat (inl big) ∅ (Some 1%nat) (start false) in
  let '(w, r2) := a_call (an_env (secs 1)) true 1%nat (inl 5) ∅ (Some 1%nat) w in
  let '(w, r3) := a_call (an_env (secs 2)) true 1%nat (inr 3) ∅ None w in
  let '(w, r4) := a_call (an_env (secs 31)) true 1%nat (inl 5) ∅ (Some 1%nat) w in
  (r1, r2, r3, r4, SS.states (store w) !! 1%nat)
  = (inl StateTooLarge, inl BeingInitialized, inr NoChange, inr (Updated 5), Some 5).
Proof. vm_compute. reflexivity. Qed.

(** A first PUT whose state is invalid leaves its code on disk and in the index. *)
Example invalid_put_keeps_code :
  let '(w, r) := a_call (an_env 0) true 1%nat (inl (-1)) ∅ (Some 1%nat) (start false) in
  (r, CS.code_hash_from_id 1%nat (codes w), CS.code_blob_stored 1%nat (codes w)) = (inl InvalidPut, Some 1%nat, true).
Proof. vm_compute. reflexivity. Qed.

(** Instance 3 shares the code of instance 2; its refused first PUT stays in the index. *)
Example shared_code_stays_indexed :
  let hash (k : nat) := match k with 3 => 2 | _ => k end%nat in
  let call := bridged_upsert_contract_state_inner (K:=nat) (I:=nat) (H:=nat) (V:=Z) (Dl:=Z) (Pm:=nat) (Code:=nat) (F:=nat)
    same hash (fun i _ => i) same same (fun _ => 0%nat) Some Some a_validate a_update in
  let '(w, _) := call (an_env 0) true 2%nat (inl 5) ∅ (Some 2%nat) (start false) in
  let '(w, r) := call (an_env 1) true 3%nat (inl 7) ∅ (Some 3%nat) w in
  (r, CS.code_hash_from_id 3%nat (codes w), SS.params (store w) !! 3%nat, SS.states (store w) !! 3%nat)
  = (inl (DeferRelated [9%nat]), Some 2%nat, Some 0%nat, None).
Proof. vm_compute. reflexivity. Qed.

End example.

End Upsert.
