(* ===== verification/Interest.v ===== *)
(** * Which peers are interested in which contracts

    Models [InterestManager] of [src/crates/core/src/ring/interest.rs]: the peers
    interested in a contract with the summary of the state each is known to hold, the
    reverse index by peer, the node's own reasons to care about a contract, the hash
    index that connection-time discovery uses, and the deferred removals of peers that
    disconnected.

    The type [K] is [ContractKey] and [P] is [PeerKey]; [id_bytes] and [peer_bytes] give
    their bytes.  Summaries are byte strings.  The clock is an argument.  Each call here
    runs alone; [InterestRaces.v] interleaves them.  [DeltaSync.v] models the delta cache
    and the resynchronisation throttle, which share nothing with these maps.

    [Spec] is what the maps are for: one flat table of tracked pairs.  The manager
    implements it ([interest_refines]), and its indexes agree with it at all times
    ([interest_indexes_exact]). *)

From S2P Require Import Prelude Ordering.

Module Interest.

#[local] Open Scope Z_scope.

Definition INTEREST_HEARTBEAT_INTERVAL : Z := from_secs 300.
Definition INTEREST_TTL : Z := from_secs (300 * 4).
Definition MAX_INTERESTED_PEERS_PER_CONTRACT : Z := 512.
Definition INTEREST_DISCONNECT_GRACE_PERIOD : Z := from_secs 90.
Definition SUMMARY_NOTIFY_INTERVAL : Z := from_millis 100.

Abbreviation Summary := (list Byte.byte) (only parsing).

(** ** One peer's interest *)

Inductive SummaryMissingReason :=
| NeverPopulated
| ClearedByNoneReport
| ClearedByResync
| ClearedByDeltaApplyFailure.

Record PeerInterest := mkInterest {
  summary : option Summary;
  summary_absence : SummaryMissingReason;
  last_refreshed : Z;
  is_upstream : bool;
}.

Definition interest_new (s : option Summary) (upstream : bool) (now : Z) : PeerInterest :=
  mkInterest s NeverPopulated now upstream.

Definition refresh (now : Z) (i : PeerInterest) : PeerInterest :=
  mkInterest (summary i) (summary_absence i) now (is_upstream i).

Definition is_expired_at (now : Z) (i : PeerInterest) : bool :=
  INTEREST_TTL <? sat_sub now (last_refreshed i).

Definition summary_missing_reason (i : PeerInterest) : option SummaryMissingReason :=
  match summary i with None => Some (summary_absence i) | Some _ => None end.

Definition set_summary (s : Summary) (now : Z) (i : PeerInterest) : PeerInterest :=
  refresh now (mkInterest (Some s) (summary_absence i) (last_refreshed i) (is_upstream i)).

Definition clear_summary (r : SummaryMissingReason) (now : Z) (i : PeerInterest) : PeerInterest :=
  refresh now (mkInterest None r (last_refreshed i) (is_upstream i)).

(** ** The node's own interest *)

Record LocalInterest := mkLocal {
  hosting : bool;
  local_client_count : Z;
  downstream_subscriber_count : Z;
}.

Definition local_default : LocalInterest := mkLocal false 0 0.

Definition is_interested (l : LocalInterest) : bool :=
  hosting l || (0 <? local_client_count l) || (0 <? downstream_subscriber_count l).

Definition add_client (l : LocalInterest) : LocalInterest * bool :=
  let was_first := local_client_count l =? 0 in
  (mkLocal (hosting l) (local_client_count l +w64 1) (downstream_subscriber_count l),
   was_first && negb (hosting l) && (downstream_subscriber_count l =? 0)).

Definition remove_client (l : LocalInterest) : LocalInterest * bool :=
  let l := mkLocal (hosting l) (sat_sub (local_client_count l) 1) (downstream_subscriber_count l) in
  (l, negb (is_interested l)).

Definition add_downstream (l : LocalInterest) : LocalInterest * bool :=
  let was_first := (downstream_subscriber_count l =? 0) && (local_client_count l =? 0) && negb (hosting l) in
  (mkLocal (hosting l) (local_client_count l) (downstream_subscriber_count l +w64 1), was_first).

Definition remove_downstream (l : LocalInterest) : LocalInterest * bool :=
  let l := mkLocal (hosting l) (local_client_count l) (sat_sub (downstream_subscriber_count l) 1) in
  (l, negb (is_interested l)).

Definition set_hosting (h : bool) (l : LocalInterest) : LocalInterest * bool :=
  let l' := mkLocal h (local_client_count l) (downstream_subscriber_count l) in
  (l', negb (Bool.eqb (is_interested l) (is_interested l'))).

(** The two halves of [register_local_hosting] and [unregister_local_hosting]. *)
Definition start_hosting (l : LocalInterest) : LocalInterest * bool :=
  (mkLocal true (local_client_count l) (downstream_subscriber_count l), negb (is_interested l)).
Definition stop_hosting (l : LocalInterest) : LocalInterest * bool :=
  let l := mkLocal false (local_client_count l) (downstream_subscriber_count l) in
  (l, negb (is_interested l)).

(** ** The manager *)

Definition FNV_OFFSET : Z := 2166136261.
Definition FNV_PRIME : Z := 16777619.

Section manager.
Context {K P : Type} `{eqK : EqDecision K, cntK : !Countable K, eqP : EqDecision P, cntP : !Countable P}.
Variable id_bytes : K -> list Byte.byte.
Variable peer_bytes : P -> list Byte.byte.

(** Iteration orders of the maps. *)
Variable contracts_order : gset K -> list K.
Variable pending_order : gmap P Z -> list (P * Z).
Variable interested_order : gmap K (gmap P PeerInterest) -> list (K * gmap P PeerInterest).
Variable peers_order : gmap P PeerInterest -> list (P * PeerInterest).
Variable index_order : gmap Z (list K) -> list (Z * list K).

Definition contract_hash (c : K) : Z :=
  foldl (fun hash b => wrap32 (Z.lxor hash (byte_val b) * FNV_PRIME)) FNV_OFFSET (id_bytes c).

Record InterestManager := mkManager {
  interested_peers : gmap K (gmap P PeerInterest);
  peer_contracts : gmap P (gset K);
  local_interests : gmap K LocalInterest;
  contract_hash_index : gmap Z (list K);
  summary_notify_timestamps : gmap K Z;
  pending_removals : gmap P Z;
}.

Definition new : InterestManager := mkManager ∅ ∅ ∅ ∅ ∅ ∅.

Definition with_peers x (m : InterestManager) :=
  mkManager x (peer_contracts m) (local_interests m) (contract_hash_index m) (summary_notify_timestamps m) (pending_removals m).
Definition with_contracts x (m : InterestManager) :=
  mkManager (interested_peers m) x (local_interests m) (contract_hash_index m) (summary_notify_timestamps m) (pending_removals m).
Definition with_local x (m : InterestManager) :=
  mkManager (interested_peers m) (peer_contracts m) x (contract_hash_index m) (summary_notify_timestamps m) (pending_removals m).
Definition with_index x (m : InterestManager) :=
  mkManager (interested_peers m) (peer_contracts m) (local_interests m) x (summary_notify_timestamps m) (pending_removals m).
Definition with_notify x (m : InterestManager) :=
  mkManager (interested_peers m) (peer_contracts m) (local_interests m) (contract_hash_index m) x (pending_removals m).
Definition with_pending x (m : InterestManager) :=
  mkManager (interested_peers m) (peer_contracts m) (local_interests m) (contract_hash_index m) (summary_notify_timestamps m) x.

(** *** The hash index *)

Definition index_contract_hash (c : K) (m : InterestManager) : InterestManager :=
  let hash := contract_hash c in
  let entry := default [] (contract_hash_index m !! hash) in
  with_index (<[hash := if bool_decide (c ∈ entry) then entry else entry ++ [c]]> (contract_hash_index m)) m.

Definition unindex_contract_hash (c : K) (m : InterestManager) : InterestManager :=
  let hash := contract_hash c in
  match contract_hash_index m !! hash with
  | Some entry =>
      let entry := List.filter (fun c' => negb (bool_decide (c' = c))) entry in
      with_index (match entry with
                  | [] => delete hash (contract_hash_index m)
                  | _ => <[hash := entry]> (contract_hash_index m)
                  end) m
  | None => m
  end.

Definition has_local_interest (c : K) (m : InterestManager) : bool :=
  match local_interests m !! c with Some l => is_interested l | None => false end.

Definition cleanup_contract_if_no_interest (c : K) (m : InterestManager) : InterestManager :=
  if negb (bool_decide (is_Some (interested_peers m !! c))) && negb (has_local_interest c m) then
    let m := unindex_contract_hash c m in
    with_notify (delete c (summary_notify_timestamps m)) m
  else m.

Definition lookup_by_hash (hash : Z) (m : InterestManager) : list K :=
  default [] (contract_hash_index m !! hash).

Definition get_all_interest_hashes (m : InterestManager) : list Z :=
  sort_by Z.compare (map fst (index_order (contract_hash_index m))).

Definition by_id_bytes (a b : K) : comparison := bytes_cmp (id_bytes a) (id_bytes b).
Definition by_peer_bytes (a b : P) : comparison := bytes_cmp (peer_bytes a) (peer_bytes b).

Definition get_matching_contracts (hashes : list Z) (m : InterestManager) : list K :=
  sort_by by_id_bytes
    (concat (map snd (List.filter (fun e => bool_decide (e.1 ∈ hashes)) (index_order (contract_hash_index m))))).

(** *** Peers *)

(** The writes of [register_peer_interest] and [upsert_peer_summary]: the entry, the reverse
    index, the hash index. *)
Definition track_peer (c : K) (p : P) (i : PeerInterest) (m : InterestManager) : InterestManager :=
  let entry := default ∅ (interested_peers m !! c) in
  let m := with_peers (<[c := <[p := i]> entry]> (interested_peers m)) m in
  let m := with_contracts (<[p := {[c]} ∪ default ∅ (peer_contracts m !! p)]> (peer_contracts m)) m in
  index_contract_hash c m.

Definition register_peer_interest (now : Z) (c : K) (p : P) (s : option Summary) (upstream : bool)
    (m : InterestManager) : InterestManager * bool :=
  let entry := default ∅ (interested_peers m !! c) in
  let is_new := negb (bool_decide (is_Some (entry !! p))) in
  if is_new && (MAX_INTERESTED_PEERS_PER_CONTRACT <=? Z.of_nat (size entry))
  then (with_peers (<[c := entry]> (interested_peers m)) m, false)
  else (track_peer c p (interest_new s upstream now) m, is_new).

(** The reverse index when a pair is dropped. *)
Definition drop_contract (c : K) (p : P) (m : InterestManager) : InterestManager :=
  match peer_contracts m !! p with
  | Some cs =>
      let cs := cs ∖ {[c]} in
      with_contracts (if bool_decide (cs = ∅) then delete p (peer_contracts m)
                      else <[p := cs]> (peer_contracts m)) m
  | None => m
  end.

Definition remove_peer_interest (c : K) (p : P) (m : InterestManager) : InterestManager * bool :=
  match interested_peers m !! c with
  | Some entry =>
      let removed := bool_decide (is_Some (entry !! p)) in
      let entry := delete p entry in
      let m := with_peers (<[c := entry]> (interested_peers m)) m in
      let m := if removed then drop_contract c p m else m in
      let m :=
        if bool_decide (entry = ∅)
        then cleanup_contract_if_no_interest c (with_peers (delete c (interested_peers m)) m)
        else m in
      (m, removed)
  | None => (m, false)
  end.

(** [get_mut] on the contract, then on the peer. *)
Definition modify_interest (f : PeerInterest -> PeerInterest) (c : K) (p : P) (m : InterestManager) : InterestManager :=
  match interested_peers m !! c with
  | Some entry =>
      match entry !! p with
      | Some i => with_peers (<[c := <[p := f i]> entry]> (interested_peers m)) m
      | None => m
      end
  | None => m
  end.

Definition update_peer_summary (now : Z) (c : K) (p : P) (s : Summary) (m : InterestManager) : InterestManager :=
  modify_interest (set_summary s now) c p m.

Definition clear_peer_summary (now : Z) (c : K) (p : P) (r : SummaryMissingReason) (m : InterestManager) : InterestManager :=
  modify_interest (clear_summary r now) c p m.

Definition refresh_peer_interest (now : Z) (c : K) (p : P) (m : InterestManager) : InterestManager :=
  modify_interest (refresh now) c p m.

Definition upsert_peer_summary (now : Z) (c : K) (p : P) (s : Summary) (m : InterestManager) : InterestManager * bool :=
  let entry := default ∅ (interested_peers m !! c) in
  match entry !! p with
  | Some i => (with_peers (<[c := <[p := set_summary s now i]> entry]> (interested_peers m)) m, true)
  | None =>
      if MAX_INTERESTED_PEERS_PER_CONTRACT <=? Z.of_nat (size entry)
      then (with_peers (<[c := entry]> (interested_peers m)) m, false)
      else (track_peer c p (interest_new (Some s) false now) m, true)
  end.

Definition get_interested_peers (c : K) (m : InterestManager) : list (P * PeerInterest) :=
  sort_by (fun a b => by_peer_bytes a.1 b.1)
    (match interested_peers m !! c with Some entry => peers_order entry | None => [] end).

Definition get_peer_interest (c : K) (p : P) (m : InterestManager) : option PeerInterest :=
  entry ← interested_peers m !! c; entry !! p.

Definition get_contracts_for_peer (p : P) (m : InterestManager) : gset K := default ∅ (peer_contracts m !! p).

Definition get_peer_summary (c : K) (p : P) (m : InterestManager) : option Summary :=
  entry ← interested_peers m !! c; i ← entry !! p; summary i.

Definition should_send_summary_notification (now : Z) (c : K) (m : InterestManager) : InterestManager * bool :=
  let last := default (now - SUMMARY_NOTIFY_INTERVAL - from_millis 1) (summary_notify_timestamps m !! c) in
  if SUMMARY_NOTIFY_INTERVAL <=? sat_sub now last
  then (with_notify (<[c := now]> (summary_notify_timestamps m)) m, true)
  else (with_notify (<[c := last]> (summary_notify_timestamps m)) m, false).

(** *** Disconnects *)

Fixpoint remove_contracts (cs : list K) (p : P) (m : InterestManager) : InterestManager * Z :=
  match cs with
  | [] => (m, 0)
  | c :: cs =>
      let '(m, removed) := remove_peer_interest c p m in
      let '(m, count) := remove_contracts cs p m in
      (m, (if removed then 1 else 0) + count)
  end.

Definition remove_all_peer_interests (p : P) (m : InterestManager) : InterestManager * Z :=
  remove_contracts (match peer_contracts m !! p with Some cs => contracts_order cs | None => [] end) p m.

Definition schedule_deferred_removal (now : Z) (p : P) (m : InterestManager) : InterestManager :=
  with_pending (<[p := now + INTEREST_DISCONNECT_GRACE_PERIOD]> (pending_removals m)) m.

Definition cancel_deferred_removal (p : P) (m : InterestManager) : InterestManager * bool :=
  (with_pending (delete p (pending_removals m)) m, bool_decide (is_Some (pending_removals m !! p))).

Fixpoint execute_loop (ps : list P) (m : InterestManager) : InterestManager * Z :=
  match ps with
  | [] => (m, 0)
  | p :: ps =>
      match pending_removals m !! p with
      | Some _ =>
          let m := with_pending (delete p (pending_removals m)) m in
          let '(m, _) := remove_all_peer_interests p m in
          let '(m, executed) := execute_loop ps m in
          (m, 1 + executed)
      | None => execute_loop ps m
      end
  end.

Definition execute_pending_removals (now : Z) (m : InterestManager) : InterestManager * Z :=
  execute_loop (map fst (List.filter (fun e => e.2 <=? now) (pending_order (pending_removals m)))) m.

Definition expired_in (now : Z) (e : K * gmap P PeerInterest) : list (K * P) :=
  map (pair e.1)
    (sort_by by_peer_bytes (map fst (List.filter (fun x => is_expired_at now x.2) (peers_order e.2)))).

Definition expired_interests (now : Z) (m : InterestManager) : list (K * P) :=
  concat (map (expired_in now) (sort_by (fun a b => by_id_bytes a.1 b.1) (interested_order (interested_peers m)))).

Definition sweep_expired_interests (now : Z) (m : InterestManager) : InterestManager * list (K * P) :=
  let expired := expired_interests now m in
  (foldl (fun m e => (remove_peer_interest e.1 e.2 m).1) m expired, expired).

(** One turn of [sweep_task]. *)
Definition sweep_turn (now : Z) (m : InterestManager) : InterestManager * list (K * P) :=
  sweep_expired_interests now (execute_pending_removals now m).1.

(** *** Local interest *)

(** The guarded part of the four additions: the entry or its default changed, then the
    contract indexed. *)
Definition add_local (f : LocalInterest -> LocalInterest * bool) (c : K) (m : InterestManager) : InterestManager * bool :=
  let '(l, became) := f (default local_default (local_interests m !! c)) in
  (index_contract_hash c (with_local (<[c := l]> (local_interests m)) m), became).

Definition remove_local (f : LocalInterest -> LocalInterest * bool) (c : K) (m : InterestManager) : InterestManager * bool :=
  match local_interests m !! c with
  | Some l =>
      let '(l, lost) := f l in
      if lost then (cleanup_contract_if_no_interest c (with_local (delete c (local_interests m)) m), true)
      else (with_local (<[c := l]> (local_interests m)) m, false)
  | None => (m, false)
  end.

Definition register_local_interest (c : K) (m : InterestManager) : InterestManager :=
  (add_local (fun l => (l, false)) c m).1.
Definition register_local_hosting := add_local start_hosting.
Definition unregister_local_hosting := remove_local stop_hosting.
Definition add_local_client := add_local add_client.
Definition remove_local_client := remove_local remove_client.
Definition add_downstream_subscriber := add_local add_downstream.
Definition remove_downstream_subscriber := remove_local remove_downstream.

Definition remove_evicted_in_use (c : K) (downstream_peers : list P) (local_client_count : nat)
    (m : InterestManager) : InterestManager :=
  let m := foldl (fun m p => (remove_downstream_subscriber c (remove_peer_interest c p m).1).1) m downstream_peers in
  Nat.iter local_client_count (fun m => (remove_local_client c m).1) m.

(** [f] is the caller's closure; only tests call this. *)
Definition with_local_interest {R} (f : LocalInterest -> LocalInterest * R) (c : K) (m : InterestManager) : InterestManager * R :=
  let '(l, r) := f (default local_default (local_interests m !! c)) in (with_local (<[c := l]> (local_interests m)) m, r).

Definition cleanup_local_interest (c : K) (m : InterestManager) : InterestManager :=
  match local_interests m !! c with
  | Some l => if is_interested l then m else with_local (delete c (local_interests m)) m
  | None => m
  end.

(** ** Traces *)

Inductive Op :=
| RegisterPeerInterest (c : K) (p : P) (s : option Summary) (upstream : bool)
| RemovePeerInterest (c : K) (p : P)
| UpdatePeerSummary (c : K) (p : P) (s : Summary)
| ClearPeerSummary (c : K) (p : P) (r : SummaryMissingReason)
| UpsertPeerSummary (c : K) (p : P) (s : Summary)
| RefreshPeerInterest (c : K) (p : P)
| ShouldSendSummaryNotification (c : K)
| RemoveAllPeerInterests (p : P)
| ScheduleDeferredRemoval (p : P)
| CancelDeferredRemoval (p : P)
| ExecutePendingRemovals
| SweepExpiredInterests
| RegisterLocalHosting (c : K)
| UnregisterLocalHosting (c : K)
| AddLocalClient (c : K)
| RemoveLocalClient (c : K)
| AddDownstreamSubscriber (c : K)
| RemoveDownstreamSubscriber (c : K)
| RemoveEvictedInUse (c : K) (downstream_peers : list P) (clients : nat).

Inductive Answer := AUnit | ABool (b : bool) | ACount (n : Z) | APairs (l : gset (K * P)).

Definition bool_answer {S} (x : S * bool) : S * Answer := (x.1, ABool x.2).
Definition count_answer {S} (x : S * Z) : S * Answer := (x.1, ACount x.2).

(** The answer of the notification throttle is left out: it is not a function of the
    interests ([summary_notifications_spaced]). *)
Definition step (m : InterestManager) (e : Z * Op) : InterestManager * Answer :=
  let now := e.1 in
  match e.2 with
  | RegisterPeerInterest c p s up => bool_answer (register_peer_interest now c p s up m)
  | RemovePeerInterest c p => bool_answer (remove_peer_interest c p m)
  | UpdatePeerSummary c p s => (update_peer_summary now c p s m, AUnit)
  | ClearPeerSummary c p r => (clear_peer_summary now c p r m, AUnit)
  | UpsertPeerSummary c p s => bool_answer (upsert_peer_summary now c p s m)
  | RefreshPeerInterest c p => (refresh_peer_interest now c p m, AUnit)
  | ShouldSendSummaryNotification c => ((should_send_summary_notification now c m).1, AUnit)
  | RemoveAllPeerInterests p => count_answer (remove_all_peer_interests p m)
  | ScheduleDeferredRemoval p => (schedule_deferred_removal now p m, AUnit)
  | CancelDeferredRemoval p => bool_answer (cancel_deferred_removal p m)
  | ExecutePendingRemovals => count_answer (execute_pending_removals now m)
  | SweepExpiredInterests =>
      let '(m, expired) := sweep_expired_interests now m in (m, APairs (list_to_set expired))
  | RegisterLocalHosting c => bool_answer (register_local_hosting c m)
  | UnregisterLocalHosting c => bool_answer (unregister_local_hosting c m)
  | AddLocalClient c => bool_answer (add_local_client c m)
  | RemoveLocalClient c => bool_answer (remove_local_client c m)
  | AddDownstreamSubscriber c => bool_answer (add_downstream_subscriber c m)
  | RemoveDownstreamSubscriber c => bool_answer (remove_downstream_subscriber c m)
  | RemoveEvictedInUse c ps n => (remove_evicted_in_use c ps n m, AUnit)
  end.

(** The state after a trace, and the answers in order. *)
Definition run_with {S} (st : S -> Z * Op -> S * Answer) (s : S) (es : list (Z * Op)) : S * list Answer :=
  foldl (fun acc e => let '(s, a) := st acc.1 e in (s, acc.2 ++ [a])) (s, []) es.

Definition run := run_with step.

(** ** The specification

    One table of tracked pairs, the reasons the node itself has, and the deadlines of
    disconnected peers. *)

Record Spec := mkSpec {
  tracked : gmap (K * P) PeerInterest;
  reasons : gmap K LocalInterest;
  deadlines : gmap P Z;
}.

Definition spec_new : Spec := mkSpec ∅ ∅ ∅.

Definition peers_of (c : K) (t : gmap (K * P) PeerInterest) : gmap (K * P) PeerInterest :=
  filter (fun e => e.1.1 = c) t.

Definition room (c : K) (t : gmap (K * P) PeerInterest) : bool :=
  Z.of_nat (size (peers_of c t)) <? MAX_INTERESTED_PEERS_PER_CONTRACT.

Definition set_tracked (t : gmap (K * P) PeerInterest) (s : Spec) : Spec := mkSpec t (reasons s) (deadlines s).

(** A new pair is admitted while the contract has room; a known one is replaced. *)
Definition spec_put (c : K) (p : P) (i : PeerInterest) (s : Spec) : Spec * bool :=
  match tracked s !! (c, p) with
  | Some _ => (set_tracked (<[(c, p) := i]> (tracked s)) s, false)
  | None => if room c (tracked s) then (set_tracked (<[(c, p) := i]> (tracked s)) s, true) else (s, false)
  end.

Definition spec_alter (f : PeerInterest -> PeerInterest) (c : K) (p : P) (s : Spec) : Spec :=
  set_tracked (alter f (c, p) (tracked s)) s.

(** The reasons for a contract changed; a contract without a reason is not listed.  The
    answer tells whether the node started, or stopped, being interested. *)
Definition spec_reason (f : LocalInterest -> LocalInterest) (c : K) (s : Spec) : Spec :=
  let l := f (default local_default (reasons s !! c)) in
  mkSpec (tracked s) (if is_interested l then <[c := l]> (reasons s) else delete c (reasons s)) (deadlines s).

Definition interested (c : K) (s : Spec) : bool := bool_decide (is_Some (reasons s !! c)).

Definition spec_add (f : LocalInterest -> LocalInterest) (c : K) (s : Spec) : Spec * Answer :=
  (spec_reason f c s, ABool (negb (interested c s))).
Definition spec_remove (f : LocalInterest -> LocalInterest) (c : K) (s : Spec) : Spec * Answer :=
  (spec_reason f c s, ABool (interested c s && negb (interested c (spec_reason f c s)))).

Definition plus_clients (n : Z) (l : LocalInterest) : LocalInterest :=
  mkLocal (hosting l) (Z.max 0 (local_client_count l + n)) (downstream_subscriber_count l).
Definition plus_downstream (n : Z) (l : LocalInterest) : LocalInterest :=
  mkLocal (hosting l) (local_client_count l) (Z.max 0 (downstream_subscriber_count l + n)).
Definition with_hosting (h : bool) (l : LocalInterest) : LocalInterest :=
  mkLocal h (local_client_count l) (downstream_subscriber_count l).

Definition spec_step (s : Spec) (e : Z * Op) : Spec * Answer :=
  let now := e.1 in
  match e.2 with
  | RegisterPeerInterest c p sm up => bool_answer (spec_put c p (interest_new sm up now) s)
  | RemovePeerInterest c p =>
      (set_tracked (delete (c, p) (tracked s)) s, ABool (bool_decide (is_Some (tracked s !! (c, p)))))
  | UpdatePeerSummary c p sm => (spec_alter (set_summary sm now) c p s, AUnit)
  | ClearPeerSummary c p r => (spec_alter (clear_summary r now) c p s, AUnit)
  | UpsertPeerSummary c p sm =>
      match tracked s !! (c, p) with
      | Some i => (spec_alter (set_summary sm now) c p s, ABool true)
      | None => bool_answer (spec_put c p (interest_new (Some sm) false now) s)
      end
  | RefreshPeerInterest c p => (spec_alter (refresh now) c p s, AUnit)
  | ShouldSendSummaryNotification _ => (s, AUnit)
  | RemoveAllPeerInterests p =>
      (set_tracked (filter (fun e => e.1.2 <> p) (tracked s)) s,
       ACount (Z.of_nat (size (filter (fun e : K * P * PeerInterest => e.1.2 = p) (tracked s)))))
  | ScheduleDeferredRemoval p =>
      (mkSpec (tracked s) (reasons s) (<[p := now + INTEREST_DISCONNECT_GRACE_PERIOD]> (deadlines s)), AUnit)
  | CancelDeferredRemoval p =>
      (mkSpec (tracked s) (reasons s) (delete p (deadlines s)), ABool (bool_decide (is_Some (deadlines s !! p))))
  | ExecutePendingRemovals =>
      let due := filter (fun e => e.2 <= now) (deadlines s) in
      (mkSpec (filter (fun e => due !! e.1.2 = None) (tracked s)) (reasons s)
              (filter (fun e => now < e.2) (deadlines s)), ACount (Z.of_nat (size due)))
  | SweepExpiredInterests =>
      (set_tracked (filter (fun e => is_expired_at now e.2 = false) (tracked s)) s,
       APairs (dom (filter (fun e : K * P * PeerInterest => is_expired_at now e.2 = true) (tracked s))))
  | RegisterLocalHosting c => spec_add (with_hosting true) c s
  | UnregisterLocalHosting c => spec_remove (with_hosting false) c s
  | AddLocalClient c => spec_add (plus_clients 1) c s
  | RemoveLocalClient c => spec_remove (plus_clients (-1)) c s
  | AddDownstreamSubscriber c => spec_add (plus_downstream 1) c s
  | RemoveDownstreamSubscriber c => spec_remove (plus_downstream (-1)) c s
  | RemoveEvictedInUse c ps n =>
      (set_tracked (filter (fun e => e.1.1 = c -> e.1.2 ∉ ps) (tracked s))
         (spec_reason (fun l => plus_clients (- Z.of_nat n) (plus_downstream (- Z.of_nat (length ps)) l)) c s), AUnit)
  end.

Definition spec_run := run_with spec_step.

(** What the maps of the manager stand for. *)
Definition abs (m : InterestManager) : Spec :=
  mkSpec (map_uncurry (M1 := gmap K) (M2 := gmap P) (M12 := gmap (K * P)) (interested_peers m)) (local_interests m) (pending_removals m).

(** ** Well-formedness *)

Definition indexed (m : InterestManager) (c : K) : Prop := c ∈ lookup_by_hash (contract_hash c) m.

(** No bucket of the hash index is empty, repeats a contract or holds one of another hash. *)
Definition buckets_ok (m : InterestManager) : Prop :=
  forall h cs, contract_hash_index m !! h = Some cs ->
    cs <> [] /\ NoDup cs /\ forall c, c ∈ cs -> contract_hash c = h.

(** [n] bounds the counters of the local interests. *)
Record wf (n : Z) (m : InterestManager) : Prop := {
  wf_buckets : buckets_ok m;
  wf_indexed c : indexed m c <-> is_Some (interested_peers m !! c) \/ is_Some (local_interests m !! c);
  wf_peers c ps : interested_peers m !! c = Some ps ->
    ps <> ∅ /\ Z.of_nat (size ps) <= MAX_INTERESTED_PEERS_PER_CONTRACT;
  wf_contracts p cs : peer_contracts m !! p = Some cs -> cs <> ∅;
  wf_reverse c p : c ∈ get_contracts_for_peer p m <-> is_Some (get_peer_interest c p m);
  wf_local c l : local_interests m !! c = Some l ->
    is_interested l = true /\ 0 <= local_client_count l <= n /\ 0 <= downstream_subscriber_count l <= n;
}.

Lemma interest_wf_new : wf 0 new.
Proof.
  split; unfold buckets_ok, indexed, lookup_by_hash, get_contracts_for_peer, get_peer_interest; cbn.
  - intros h cs. by rewrite lookup_empty.
  - intros c. rewrite !lookup_empty. cbn. split; [by intros ?%not_elem_of_nil|by intros [[]|[]]].
  - intros c ps. by rewrite lookup_empty.
  - intros p cs. by rewrite lookup_empty.
  - intros c p. rewrite !lookup_empty. cbn. split; [set_solver|by intros []].
  - intros c l. by rewrite lookup_empty.
Qed.

Lemma wf_mono n n' m : n <= n' -> wf n m -> wf n' m.
Proof. intros Hn []. split; try done. intros c l Hl. destruct (wf_local0 c l Hl) as (? & ? & ?). split_and!; [done|lia..]. Qed.

(** *** The hash index *)

Lemma index_spec c m :
  buckets_ok m ->
  buckets_ok (index_contract_hash c m) /\ forall c', indexed (index_contract_hash c m) c' <-> c' = c \/ indexed m c'.
Proof.
  intros Hb. unfold index_contract_hash, indexed, lookup_by_hash. cbn.
  set (h := contract_hash c). set (e := default [] (contract_hash_index m !! h)).
  assert (He : NoDup e /\ forall c', c' ∈ e -> contract_hash c' = h).
  { unfold e. destruct (contract_hash_index m !! h) as [cs|] eqn:E; cbn; [by destruct (Hb _ _ E)|].
    split; [constructor|by intros c' ?%not_elem_of_nil]. }
  destruct He as [Hn Hh]. split.
  - intros h' cs. cbn. intros [[<- <-]|[Hne Hl]]%lookup_insert_Some; [|by apply (Hb h')].
    case_bool_decide as Hc; [split; [by intros ->; apply not_elem_of_nil in Hc|done]|].
    split_and!; [apply snoc_not_nil|apply NoDup_app; split_and!; [done|set_solver|apply NoDup_singleton]|].
    intros c' [? | ->%list_elem_of_singleton]%elem_of_app; [by apply Hh|done].
  - intros c'. destruct (decide (h = contract_hash c')) as [Heq|Hne].
    + rewrite <- Heq, lookup_insert_eq. cbn. fold e. case_bool_decide; set_solver.
    + rewrite lookup_insert_ne by done. split; [by right|]. by intros [-> |].
Qed.

Lemma unindex_spec c m :
  buckets_ok m ->
  buckets_ok (unindex_contract_hash c m) /\ forall c', indexed (unindex_contract_hash c m) c' <-> c' <> c /\ indexed m c'.
Proof.
  intros Hb. unfold unindex_contract_hash, indexed, lookup_by_hash.
  destruct (contract_hash_index m !! contract_hash c) as [e|] eqn:E.
  2: { split; [done|]. intros c'. split; [|by intros []]. intros Hc. split; [|done]. intros ->.
       rewrite E in Hc. by apply not_elem_of_nil in Hc. }
  set (f := fun c' => negb (bool_decide (c' = c))).
  assert (Hf : forall c', c' ∈ List.filter f e <-> c' <> c /\ c' ∈ e).
  { intros c'. rewrite !list_elem_of_In, filter_In. unfold f. rewrite negb_true_iff, bool_decide_eq_false. tauto. }
  destruct (Hb _ _ E) as (He & Hn & Hh).
  assert (Hl : forall c', contract_hash c' = contract_hash c -> c' ∈ default [] (contract_hash_index m !! contract_hash c') <-> c' ∈ e).
  { intros c' ->. by rewrite E. }
  assert (Hnd : NoDup (List.filter f e)).
  { apply NoDup_ListNoDup, List.NoDup_filter, NoDup_ListNoDup. done. }
  destruct (List.filter f e) as [|x xs] eqn:Ex; cbn; split.
  - intros h cs. cbn. intros [_ Hcs]%lookup_delete_Some. by apply (Hb h).
  - intros c'. destruct (decide (contract_hash c' = contract_hash c)) as [Hq|Hq].
    + rewrite (Hl c' Hq), <- Hf, Hq, lookup_delete_eq. done.
    + rewrite lookup_delete_ne by done. split; [|by intros []]. intros ?. split; [by intros ->|done].
  - intros h cs. cbn. intros [[<- <-]|[_ Hcs]]%lookup_insert_Some; [|by apply (Hb h)].
    split_and!; [done..|]. intros c' Hc'. apply Hh. by apply Hf.
  - intros c'. destruct (decide (contract_hash c' = contract_hash c)) as [Hq|Hq].
    + rewrite (Hl c' Hq), <- Hf, Hq, lookup_insert_eq. done.
    + rewrite lookup_insert_ne by done. split; [|by intros []]. intros ?. split; [by intros ->|done].
Qed.

(** The cleanup touches the hash index and the notification times only. *)
Definition same_maps (m m' : InterestManager) : Prop :=
  interested_peers m' = interested_peers m /\ peer_contracts m' = peer_contracts m /\
  local_interests m' = local_interests m /\ pending_removals m' = pending_removals m.

Lemma unindex_maps c m : same_maps m (unindex_contract_hash c m).
Proof. unfold same_maps, unindex_contract_hash. case_match; done. Qed.

Lemma cleanup_maps c m : same_maps m (cleanup_contract_if_no_interest c m).
Proof. unfold cleanup_contract_if_no_interest. case_match; [|done]. apply unindex_maps. Qed.

Lemma index_cleanup_spec c m :
  buckets_ok m ->
  buckets_ok (cleanup_contract_if_no_interest c m) /\
  forall c', indexed (cleanup_contract_if_no_interest c m) c' <->
    indexed m c' /\ (c' = c -> is_Some (interested_peers m !! c) \/ has_local_interest c m = true).
Proof.
  intros Hb. unfold cleanup_contract_if_no_interest. destruct (unindex_spec c m Hb) as [Hb' Hi].
  case_match eqn:E; to_props; (split; [done|]); intros c'.
  - rewrite (Hi c' : indexed (with_notify _ _) c' <-> _).
    destruct (has_local_interest c m); [done|]. split; [intros [? ?]; split; done|].
    intros [? Hc]. split; [|done]. intros ->. by destruct (Hc eq_refl).
  - split; [|by intros []]. intros Hc. split; [done|]. intros ->.
    apply andb_false_iff in E as [E|E]; to_props; [left|right]; done.
Qed.

(** *** The pairs *)

Definition pair_update (c : K) (p : P) (v : option PeerInterest) (m m' : InterestManager) : Prop :=
  forall c' p', get_peer_interest c' p' m' = if decide ((c', p') = (c, p)) then v else get_peer_interest c' p' m.

Definition rest_same (m m' : InterestManager) : Prop :=
  local_interests m' = local_interests m /\ pending_removals m' = pending_removals m.

Lemma get_insert_entry c p i m :
  pair_update c p (Some i) m (with_peers (<[c := <[p := i]> (default ∅ (interested_peers m !! c))]> (interested_peers m)) m).
Proof.
  intros c' p'. unfold get_peer_interest. cbn. case_decide as Hd; simplify_eq/=.
  - rewrite lookup_insert_eq. cbn. by rewrite lookup_insert_eq.
  - destruct (decide (c' = c)) as [-> |]; [|by rewrite lookup_insert_ne by done].
    rewrite lookup_insert_eq. cbn. rewrite lookup_insert_ne by (intros ->; done).
    destruct (interested_peers m !! c); [done|]. apply lookup_empty.
Qed.

(** Writing one entry keeps the table within the cap and without empty rows. *)
Lemma entry_insert_ok c p (i : PeerInterest) m :
  (forall c ps, interested_peers m !! c = Some ps -> ps <> ∅ /\ Z.of_nat (size ps) <= MAX_INTERESTED_PEERS_PER_CONTRACT) ->
  is_Some (get_peer_interest c p m) \/ Z.of_nat (size (default ∅ (interested_peers m !! c))) < MAX_INTERESTED_PEERS_PER_CONTRACT ->
  <[p := i]> (default ∅ (interested_peers m !! c)) <> ∅ /\
  Z.of_nat (size (<[p := i]> (default ∅ (interested_peers m !! c)))) <= MAX_INTERESTED_PEERS_PER_CONTRACT.
Proof.
  intros Hw Hroom. split; [apply insert_non_empty|]. unfold get_peer_interest in Hroom.
  destruct (default ∅ (interested_peers m !! c) !! p) eqn:Ep.
  - rewrite map_size_insert_Some by done. destruct (interested_peers m !! c) as [ps|] eqn:Ec; [by apply (Hw c)|].
    cbn in Ep. by rewrite lookup_empty in Ep.
  - rewrite map_size_insert_None by done. destruct Hroom as [[i' Hi]|]; [|lia].
    destruct (interested_peers m !! c); cbn in *; [congruence|done].
Qed.

Lemma track_spec n c p i m :
  wf n m ->
  is_Some (get_peer_interest c p m) \/ Z.of_nat (size (default ∅ (interested_peers m !! c))) < MAX_INTERESTED_PEERS_PER_CONTRACT ->
  wf n (track_peer c p i m) /\ pair_update c p (Some i) m (track_peer c p i m) /\ rest_same m (track_peer c p i m).
Proof.
  intros Hw Hroom. pose proof (get_insert_entry c p i m) as Hg.
  pose proof (entry_insert_ok c p i m (wf_peers _ _ Hw) Hroom) as He.
  unfold track_peer. set (m1 := with_peers _ m) in *. set (m2 := with_contracts _ m1).
  destruct (index_spec c m2 (wf_buckets _ _ Hw : buckets_ok m2)) as [Hb Hi].
  split; [|split; [exact Hg|done]]. split; [done|..].
  - intros c'. rewrite Hi. change (indexed m2 c') with (indexed m c'). rewrite (wf_indexed _ _ Hw c').
    cbn. destruct (decide (c' = c)) as [-> |Hne]; [rewrite lookup_insert_eq|rewrite lookup_insert_ne by done].
    + split; [by left|by left].
    + naive_solver.
  - intros c' ps. cbn. intros [[<- <-]|[_ Hps]]%lookup_insert_Some; [done|by apply (wf_peers _ _ Hw c')].
  - intros p' cs. cbn. intros [[<- <-]|[_ Hcs]]%lookup_insert_Some; [set_solver|by apply (wf_contracts _ _ Hw p')].
  - intros c' p'. rewrite (Hg c' p' : get_peer_interest c' p' (index_contract_hash c m2) = _).
    pose proof (wf_reverse _ _ Hw c' p') as Hr. unfold get_contracts_for_peer in *. cbn.
    destruct (decide (p' = p)) as [-> |Hp]; [rewrite lookup_insert_eq|rewrite lookup_insert_ne by done]; cbn.
    + rewrite elem_of_union, elem_of_singleton, Hr. case_decide; simplify_eq; naive_solver.
    + rewrite decide_False by congruence. done.
  - apply (wf_local _ _ Hw).
Qed.

Lemma drop_contract_spec c p m :
  (forall p cs, peer_contracts m !! p = Some cs -> cs <> ∅) ->
  (forall p' cs, peer_contracts (drop_contract c p m) !! p' = Some cs -> cs <> ∅) /\
  (forall c' p', c' ∈ get_contracts_for_peer p' (drop_contract c p m) <->
                 c' ∈ get_contracts_for_peer p' m /\ (c', p') <> (c, p)).
Proof.
  intros Hne. unfold drop_contract, get_contracts_for_peer. destruct (peer_contracts m !! p) as [cs|] eqn:E.
  2: { split; [done|]. intros c' p'. split; [|by intros []]. intros Hc. split; [done|]. intros [= -> ->]. rewrite E in Hc. set_solver. }
  case_bool_decide as Hcs; cbn; split.
  - intros p' cs' [_ H]%lookup_delete_Some. by apply (Hne p').
  - intros c' p'. destruct (decide (p' = p)) as [-> |Hp]; [rewrite lookup_delete_eq, E|rewrite lookup_delete_ne by done]; cbn.
    + set_unfold. split; [done|]. intros [Hc Hq]. apply (Hcs c'). split; [done|]. intros ->. done.
    + naive_solver.
  - intros p' cs' [[<- <-]|[_ H]]%lookup_insert_Some; [done|by apply (Hne p')].
  - intros c' p'. destruct (decide (p' = p)) as [-> |Hp]; [rewrite lookup_insert_eq, E|rewrite lookup_insert_ne by done]; cbn.
    + rewrite elem_of_difference, elem_of_singleton. naive_solver.
    + naive_solver.
Qed.

Lemma get_delete_entry c p entry m :
  interested_peers m !! c = Some entry ->
  pair_update c p None m
    (with_peers (if bool_decide (delete p entry = ∅) then delete c (<[c := delete p entry]> (interested_peers m))
                 else <[c := delete p entry]> (interested_peers m)) m).
Proof.
  intros Hc c' p'. unfold get_peer_interest. cbn. case_bool_decide as Hemp.
  - rewrite delete_insert_eq. destruct (decide (c' = c)) as [-> |Hne].
    + rewrite lookup_delete_eq, Hc. cbn. case_decide as Hd; [done|].
      rewrite <- (lookup_delete_ne entry p p') by (intros ->; done). by rewrite Hemp, lookup_empty.
    + rewrite lookup_delete_ne, decide_False by congruence. done.
  - destruct (decide (c' = c)) as [-> |Hne].
    + rewrite lookup_insert_eq, Hc. cbn. case_decide; simplify_eq; [by rewrite lookup_delete_eq|].
      by rewrite lookup_delete_ne by (intros ->; done).
    + rewrite lookup_insert_ne, decide_False by congruence. done.
Qed.

Lemma has_local_interest_spec n c m : wf n m -> has_local_interest c m = true <-> is_Some (local_interests m !! c).
Proof.
  intros Hw. unfold has_local_interest. destruct (local_interests m !! c) as [l|] eqn:E; [|split; [done|by intros []]].
  split; [done|]. intros _. by destruct (wf_local _ _ Hw c l E).
Qed.

(** The pair and its reverse entry gone, the rest as it was: what [remove_peer_interest]
    does before the cleanup. *)
Lemma drop_pair_maps c p entry m :
  interested_peers m !! c = Some entry -> is_Some (entry !! p) ->
  exists m1, pair_update c p None m m1 /\ rest_same m m1 /\
    contract_hash_index m1 = contract_hash_index m /\ peer_contracts m1 = peer_contracts (drop_contract c p m) /\
    interested_peers m1 = (if bool_decide (delete p entry = ∅) then delete c (interested_peers m)
                           else <[c := delete p entry]> (interested_peers m)) /\
    (remove_peer_interest c p m).1 = if bool_decide (delete p entry = ∅) then cleanup_contract_if_no_interest c m1 else m1.
Proof.
  intros Hc Hp. pose proof (get_delete_entry c p entry m Hc) as Hg.
  exists (with_contracts (peer_contracts (drop_contract c p m))
            (with_peers (if bool_decide (delete p entry = ∅) then delete c (<[c := delete p entry]> (interested_peers m))
                         else <[c := delete p entry]> (interested_peers m)) m)).
  split_and!; [exact Hg|done|done|done|cbn; case_bool_decide; [by rewrite delete_insert_eq|done]|].
  unfold remove_peer_interest. rewrite Hc, (bool_decide_eq_true_2 (is_Some (entry !! p))) by done.
  unfold drop_contract. cbn. destruct (peer_contracts m !! p); case_bool_decide; done.
Qed.

Lemma remove_untracked n c p m : wf n m -> get_peer_interest c p m = None -> remove_peer_interest c p m = (m, false).
Proof.
  intros Hw. unfold get_peer_interest, remove_peer_interest. destruct (interested_peers m !! c) as [entry|] eqn:Ec; [|done].
  cbn. intros Eg. rewrite Eg, (bool_decide_eq_false_2 (is_Some None)) by (by intros []). rewrite delete_id by done.
  rewrite bool_decide_eq_false_2 by (by apply (wf_peers _ _ Hw c)). rewrite insert_id by done. by destruct m.
Qed.

Lemma remove_pair_spec n c p m :
  wf n m ->
  wf n (remove_peer_interest c p m).1 /\ pair_update c p None m (remove_peer_interest c p m).1 /\
  rest_same m (remove_peer_interest c p m).1 /\
  (remove_peer_interest c p m).2 = bool_decide (is_Some (get_peer_interest c p m)).
Proof.
  intros Hw. destruct (get_peer_interest c p m) as [i|] eqn:Eg.
  2: { rewrite (remove_untracked n) by done. cbn. split_and!; [done| |done..]. intros c' p'. case_decide; [|done]. by simplify_eq. }
  unfold get_peer_interest in Eg.
  destruct (interested_peers m !! c) as [entry|] eqn:Ec; [|done]. cbn in Eg.
  destruct (drop_pair_maps c p entry m Ec ltac:(by exists i)) as (m1 & Hg & [Hl Hpd] & Hx & Hpc & Hip & Hr).
  assert (Ha : (remove_peer_interest c p m).2 = true).
  { unfold remove_peer_interest. rewrite Ec, Eg. done. }
  destruct (drop_contract_spec c p m (wf_contracts _ _ Hw)) as [Hd1 Hd2].
  assert (Hb1 : buckets_ok m1) by (unfold buckets_ok; rewrite Hx; apply (wf_buckets _ _ Hw)).
  destruct (index_cleanup_spec c m1 Hb1) as [Hb2 Hi2]. destruct (cleanup_maps c m1) as (C1 & C2 & C3 & C4).
  set (m' := (remove_peer_interest c p m).1) in *.
  assert (M : interested_peers m' = interested_peers m1 /\ peer_contracts m' = peer_contracts m1 /\
              local_interests m' = local_interests m1 /\ pending_removals m' = pending_removals m1 /\ buckets_ok m').
  { rewrite Hr. case_bool_decide; done. }
  destruct M as (M1 & M2 & M3 & M4 & M5).
  split_and!; [split|intros c' p'; unfold get_peer_interest; rewrite M1; apply Hg|split; congruence|done].
  - done.
  - intros c'. rewrite M1, M3, Hl.
    assert (Hm1 : indexed m1 c' <-> is_Some (interested_peers m !! c') \/ is_Some (local_interests m !! c')).
    { rewrite <- (wf_indexed _ _ Hw). unfold indexed, lookup_by_hash. by rewrite Hx. }
    rewrite Hr, Hip. case_bool_decide as He.
    + rewrite Hi2, Hm1. assert (has_local_interest c m1 = has_local_interest c m) as -> by (unfold has_local_interest; by rewrite Hl).
      rewrite (has_local_interest_spec n c m Hw), Hip, lookup_delete_eq.
      destruct (decide (c' = c)) as [-> |Hne]; [rewrite lookup_delete_eq|rewrite lookup_delete_ne by done; naive_solver].
      pose proof (is_Some_None (A := gmap P PeerInterest)). rewrite Ec. naive_solver.
    + rewrite Hm1. destruct (decide (c' = c)) as [-> |Hne]; [rewrite lookup_insert_eq, Ec|by rewrite lookup_insert_ne]. naive_solver.
  - intros c' ps. rewrite M1, Hip. destruct (wf_peers _ _ Hw c entry Ec) as [_ Hs]. case_bool_decide as He.
    + intros [_ Hq]%lookup_delete_Some. by apply (wf_peers _ _ Hw c').
    + intros [[<- <-]|[_ Hq]]%lookup_insert_Some; [|by apply (wf_peers _ _ Hw c')]. split; [done|].
      pose proof (map_size_delete_Some p entry ltac:(by exists i)). lia.
  - intros p' cs. rewrite M2, Hpc. apply Hd1.
  - intros c' p'. assert (get_peer_interest c' p' m' = get_peer_interest c' p' m1) as -> by (unfold get_peer_interest; by rewrite M1).
    assert (get_contracts_for_peer p' m' = get_contracts_for_peer p' (drop_contract c p m)) as ->
      by (unfold get_contracts_for_peer; by rewrite M2, Hpc).
    rewrite Hd2, (wf_reverse _ _ Hw c' p'), Hg.
    case_decide; [naive_solver|tauto].
  - intros c' l. rewrite M3, Hl. apply (wf_local _ _ Hw).
Qed.

Lemma modify_spec n f c p m :
  wf n m ->
  wf n (modify_interest f c p m) /\ pair_update c p (f <$> get_peer_interest c p m) m (modify_interest f c p m) /\
  rest_same m (modify_interest f c p m).
Proof.
  intros Hw. unfold modify_interest. destruct (get_peer_interest c p m) as [i|] eqn:Eg; pose proof Eg as Eg'; unfold get_peer_interest in Eg.
  - destruct (interested_peers m !! c) as [entry|] eqn:Ec; [|done]. cbn in Eg. rewrite Eg.
    pose proof (get_insert_entry c p (f i) m) as Hg. rewrite Ec in Hg. cbn [default id] in Hg.
    split_and!; [|exact Hg|done].
    pose proof (entry_insert_ok c p (f i) m (wf_peers _ _ Hw) ltac:(left; by exists i)) as He. rewrite Ec in He.
    split; [apply (wf_buckets _ _ Hw)|..|apply (wf_contracts _ _ Hw)| |apply (wf_local _ _ Hw)].
    + intros c'. rewrite (wf_indexed _ _ Hw c' : indexed (with_peers _ m) c' <-> _). cbn.
      destruct (decide (c' = c)) as [-> |]; [rewrite lookup_insert_eq, Ec|by rewrite lookup_insert_ne]. split; (intros _; by left).
    + intros c' ps. cbn. intros [[<- <-]|[_ Hq]]%lookup_insert_Some; [done|by apply (wf_peers _ _ Hw c')].
    + intros c' p'. rewrite (wf_reverse _ _ Hw c' p' : c' ∈ get_contracts_for_peer p' (with_peers _ m) <-> _), (Hg c' p').
      case_decide; [|done]. simplify_eq. rewrite Eg'. split; by eexists.
  - assert (match interested_peers m !! c with
            | Some entry => match entry !! p with
                            | Some i => with_peers (<[c := <[p := f i]> entry]> (interested_peers m)) m | None => m end
            | None => m end = m) as ->.
    { destruct (interested_peers m !! c) as [entry|]; [|done]. cbn in Eg. by rewrite Eg. }
    split_and!; [done| |done]. intros c' p'. case_decide; [|done]. by simplify_eq.
Qed.

(** *** Local interest *)

Definition peers_same (m m' : InterestManager) : Prop :=
  interested_peers m' = interested_peers m /\ peer_contracts m' = peer_contracts m /\ pending_removals m' = pending_removals m.

(** A record of reasons that is interested and whose counters are at most [n]. *)
Definition local_ok (n : Z) (l : LocalInterest) : Prop :=
  is_interested l = true /\ 0 <= local_client_count l <= n /\ 0 <= downstream_subscriber_count l <= n.

Lemma add_local_spec n n' f c m :
  wf n m -> n <= n' -> local_ok n' (f (default local_default (local_interests m !! c))).1 ->
  wf n' (add_local f c m).1 /\ peers_same m (add_local f c m).1 /\
  local_interests (add_local f c m).1 = <[c := (f (default local_default (local_interests m !! c))).1]> (local_interests m) /\
  (add_local f c m).2 = (f (default local_default (local_interests m !! c))).2.
Proof.
  intros Hw Hn Hl. unfold add_local. destruct (f _) as [l b]. cbn [fst snd] in *.
  set (m1 := with_local _ m). destruct (index_spec c m1 (wf_buckets _ _ Hw : buckets_ok m1)) as [Hb Hi].
  split_and!; [|done..]. split; [done|..|apply (wf_contracts _ _ Hw)|apply (wf_reverse _ _ Hw)|].
  - intros c'. rewrite Hi, (wf_indexed _ _ Hw c' : indexed m1 c' <-> _). cbn.
    destruct (decide (c' = c)) as [-> |]; [rewrite lookup_insert_eq|rewrite lookup_insert_ne by done; naive_solver].
    split; [by right|by left].
  - apply (wf_peers _ _ Hw).
  - intros c' l'. cbn. intros [[<- <-]|[_ Hq]]%lookup_insert_Some; [done|].
    destruct (wf_local _ _ Hw c' l' Hq) as (? & ? & ?). split_and!; [done|lia..].
Qed.

(** A removal changes the reasons of a listed contract and unlists it when none is left. *)
Definition removed_reason (l : option LocalInterest) (f : LocalInterest -> LocalInterest * bool) : option LocalInterest :=
  l ← l; if (f l).2 then None else Some (f l).1.

Lemma remove_local_spec n f c m :
  wf n m -> (forall l, (f l).2 = negb (is_interested (f l).1)) ->
  (forall l, local_interests m !! c = Some l ->
     0 <= local_client_count (f l).1 <= n /\ 0 <= downstream_subscriber_count (f l).1 <= n) ->
  wf n (remove_local f c m).1 /\ peers_same m (remove_local f c m).1 /\
  (forall c', local_interests (remove_local f c m).1 !! c' =
     if decide (c' = c) then removed_reason (local_interests m !! c) f else local_interests m !! c') /\
  (remove_local f c m).2 = bool_decide (is_Some (local_interests m !! c) /\ removed_reason (local_interests m !! c) f = None).
Proof.
  intros Hw Hf Hc. unfold remove_local, removed_reason. destruct (local_interests m !! c) as [l|] eqn:El.
  2: { cbn [fst snd]. split_and!; [done..| |]; [|by rewrite bool_decide_eq_false_2 by (by intros [[] _])].
       intros c'. by case_decide as Hd; [rewrite Hd|]. }
  specialize (Hc l eq_refl). specialize (Hf l). change (Some l ≫= ?g) with (g l). cbn beta. destruct (f l) as [l' b]. cbn [fst snd] in *. subst b.
  destruct (is_interested l') eqn:Ei; cbn [negb fst snd].
  - split_and!; [|done| |by rewrite bool_decide_eq_false_2 by (by intros [_ [=]])].
    2: { intros c'. cbn [local_interests with_local]. case_decide as Hd; [by rewrite Hd, lookup_insert_eq|by rewrite lookup_insert_ne by done]. }
    split; [apply (wf_buckets _ _ Hw)| |apply (wf_peers _ _ Hw)|apply (wf_contracts _ _ Hw)|apply (wf_reverse _ _ Hw)|].
    + intros c'. rewrite (wf_indexed _ _ Hw c' : indexed (with_local _ m) c' <-> _). cbn.
      destruct (decide (c' = c)) as [-> |]; [rewrite lookup_insert_eq, El|by rewrite lookup_insert_ne]. split; (intros _; by right).
    + intros c' l2. cbn. intros [[<- <-]|[_ Hq]]%lookup_insert_Some; [done|by apply (wf_local _ _ Hw c')].
  - set (m1 := with_local _ m). destruct (index_cleanup_spec c m1 (wf_buckets _ _ Hw : buckets_ok m1)) as [Hb Hi].
    destruct (cleanup_maps c m1) as (C1 & C2 & C3 & C4).
    split_and!; [|done| |by rewrite bool_decide_eq_true_2 by (split; by eexists)].
    2: { intros c'. rewrite C3. cbn. case_decide as Hd; [by rewrite Hd, lookup_delete_eq|by rewrite lookup_delete_ne by done]. }
    split; [done|..].
    + intros c'. rewrite Hi, C1, C3, (wf_indexed _ _ Hw c' : indexed m1 c' <-> _).
      assert (has_local_interest c m1 = false) as -> by (unfold has_local_interest; cbn; by rewrite lookup_delete_eq).
      cbn. pose proof (is_Some_None (A := LocalInterest)).
      destruct (decide (c' = c)) as [-> |]; [rewrite lookup_delete_eq|rewrite lookup_delete_ne by done]; naive_solver.
    + intros c' ps. rewrite C1. apply (wf_peers _ _ Hw).
    + intros p cs. rewrite C2. apply (wf_contracts _ _ Hw).
    + intros c' p. unfold get_contracts_for_peer, get_peer_interest. rewrite C1, C2. apply (wf_reverse _ _ Hw).
    + intros c' l2. rewrite C3. cbn. intros [_ Hq]%lookup_delete_Some. by apply (wf_local _ _ Hw c').
Qed.

(** ** Refinement *)

Lemma tracked_lookup m c p : tracked (abs m) !! (c, p) = get_peer_interest c p m.
Proof. apply (lookup_map_uncurry (M1 := gmap K) (M2 := gmap P) (MC := gmap (K * P))). Qed.

(** Two managers with the same pairs and the same rest stand for the same specification. *)
Lemma abs_ext m' t m :
  (forall c p, get_peer_interest c p m' = t !! (c, p)) -> rest_same m m' -> abs m' = set_tracked t (abs m).
Proof.
  intros Ht [Hl Hp]. unfold set_tracked, abs. cbn. rewrite Hl, Hp. f_equal.
  apply map_eq. intros [c p]. rewrite <- Ht. apply tracked_lookup.
Qed.

Lemma abs_update c p v m m' :
  pair_update c p v m m' -> rest_same m m' -> abs m' = set_tracked (partial_alter (fun _ => v) (c, p) (tracked (abs m))) (abs m).
Proof.
  intros Hu Hr. apply abs_ext; [|done]. intros c' p'. rewrite Hu. case_decide as Hd.
  - rewrite Hd, lookup_partial_alter_eq. done.
  - rewrite lookup_partial_alter_ne, tracked_lookup by done. done.
Qed.

Lemma abs_eta m : set_tracked (tracked (abs m)) (abs m) = abs m.
Proof. done. Qed.

Lemma peers_of_size c m : size (peers_of c (tracked (abs m))) = size (default ∅ (interested_peers m !! c)).
Proof.
  assert (peers_of c (tracked (abs m)) = kmap (pair c) (default ∅ (interested_peers m !! c))) as ->.
  { unfold peers_of. apply map_eq. intros [c' p]. apply option_eq. intros i.
    rewrite map_lookup_filter_Some, lookup_kmap_Some by apply _. rewrite tracked_lookup. unfold get_peer_interest. cbn. split.
    - intros [Hi ->]. exists p. split; [done|]. by destruct (interested_peers m !! c).
    - intros (p' & [= -> ->] & Hi). split; [|done]. destruct (interested_peers m !! c); [done|]. cbn in Hi. by rewrite lookup_empty in Hi. }
  rewrite <- !length_map_to_list, map_to_list_kmap, length_fmap by apply _. done.
Qed.

Lemma register_refines n now c p s up m :
  wf n m ->
  wf n (register_peer_interest now c p s up m).1 /\
  bool_answer (spec_put c p (interest_new s up now) (abs m)) =
    (abs (register_peer_interest now c p s up m).1, ABool (register_peer_interest now c p s up m).2).
Proof.
  intros Hw. unfold register_peer_interest, spec_put, room. rewrite tracked_lookup, peers_of_size.
  assert (He : default ∅ (interested_peers m !! c) !! p = get_peer_interest c p m).
  { unfold get_peer_interest. destruct (interested_peers m !! c); [done|]. apply lookup_empty. }
  rewrite He. pose proof (track_spec n c p (interest_new s up now) m Hw) as Ht.
  destruct (get_peer_interest c p m) as [i|] eqn:Eg;
    [change (bool_decide (is_Some (Some i))) with true|change (bool_decide (is_Some (@None PeerInterest))) with false; case_match eqn:Es];
    cbn [negb andb fst snd] in *.
  - destruct Ht as (Hw' & Hu & Hr); [left; by eexists|]. split; [done|]. rewrite (abs_update _ _ _ _ _ Hu Hr). done.
  - to_props. rewrite (proj2 (Z.ltb_ge _ _)) by lia. cbn.
    destruct (interested_peers m !! c) as [entry|] eqn:Ec; cbn in *; [|rewrite map_size_empty in Es; unfold MAX_INTERESTED_PEERS_PER_CONTRACT in *; lia].
    rewrite insert_id by done. by destruct m.
  - to_props. rewrite (proj2 (Z.ltb_lt _ _)) by lia. destruct Ht as (Hw' & Hu & Hr); [by right|]. split; [done|].
    rewrite (abs_update _ _ _ _ _ Hu Hr). done.
Qed.

Lemma upsert_refines n now c p s m :
  wf n m ->
  wf n (upsert_peer_summary now c p s m).1 /\
  spec_step (abs m) (now, UpsertPeerSummary c p s) =
    (abs (upsert_peer_summary now c p s m).1, ABool (upsert_peer_summary now c p s m).2).
Proof.
  intros Hw. destruct (register_refines n now c p (Some s) false m Hw) as [Hw' Hr].
  pose proof (modify_spec n (set_summary s now) c p m Hw) as (Hm & Hu & Hs). revert Hw' Hr Hm Hu Hs.
  unfold upsert_peer_summary, register_peer_interest, modify_interest, get_peer_interest. cbn [spec_step fst snd].
  rewrite tracked_lookup. unfold get_peer_interest.
  destruct (interested_peers m !! c) as [entry|] eqn:Ec; cbn [default mbind option_bind id].
  - destruct (entry !! p) as [i|] eqn:Ep; cbn.
    + intros _ _ Hm Hu Hs. split; [done|]. rewrite (abs_update _ _ _ _ _ Hu Hs). unfold spec_alter. do 2 f_equal.
      apply partial_alter_ext. intros x Hx. rewrite tracked_lookup in Hx. unfold get_peer_interest in Hx.
      rewrite Ec in Hx. cbn in Hx. rewrite Ep in Hx. by subst.
    + intros Hw' Hr _ _ _. case_match; done.
  - rewrite lookup_empty. cbn. intros Hw' Hr _ _ _. done.
Qed.

Lemma modify_refines n f c p m :
  wf n m -> wf n (modify_interest f c p m) /\ spec_alter f c p (abs m) = abs (modify_interest f c p m).
Proof.
  intros Hw. destruct (modify_spec n f c p m Hw) as (Hw' & Hu & Hr). split; [done|].
  rewrite (abs_update _ _ _ _ _ Hu Hr). unfold spec_alter. f_equal. apply partial_alter_ext.
  intros x. by rewrite tracked_lookup => <-.
Qed.

Lemma remove_refines n c p m :
  wf n m ->
  wf n (remove_peer_interest c p m).1 /\
  spec_step (abs m) (0, RemovePeerInterest c p) = (abs (remove_peer_interest c p m).1, ABool (remove_peer_interest c p m).2).
Proof.
  intros Hw. destruct (remove_pair_spec n c p m Hw) as (Hw' & Hu & Hr & Ha). split; [done|].
  cbn [spec_step fst snd]. rewrite (abs_update _ _ _ _ _ Hu Hr), Ha, tracked_lookup. done.
Qed.

(** *** Many pairs at once *)

Definition remove_pairs (l : list (K * P)) (m : InterestManager) : InterestManager :=
  foldl (fun m e => (remove_peer_interest e.1 e.2 m).1) m l.

Lemma remove_pairs_spec n l m :
  wf n m ->
  wf n (remove_pairs l m) /\ rest_same m (remove_pairs l m) /\
  forall c p, get_peer_interest c p (remove_pairs l m) = if decide ((c, p) ∈ l) then None else get_peer_interest c p m.
Proof.
  revert m. induction l as [|[c p] l IH]; intros m Hw.
  - split_and!; [done..|]. intros c p. by rewrite decide_False by apply not_elem_of_nil.
  - change (remove_pairs ((c, p) :: l) m) with (remove_pairs l (remove_peer_interest c p m).1).
    destruct (remove_pair_spec n c p m Hw) as (Hw' & Hu & [Hl Hp] & _).
    destruct (IH _ Hw') as (Hw'' & [Hl' Hp'] & Hg). split_and!; [done|split; congruence|].
    intros c' p'. rewrite Hg, Hu. repeat case_decide; set_solver.
Qed.

(** The orders enumerate the maps. *)
Hypothesis contracts_order_perm : forall s, contracts_order s ≡ₚ elements s.
Hypothesis pending_order_perm : forall s, pending_order s ≡ₚ map_to_list s.
Hypothesis interested_order_perm : forall s, interested_order s ≡ₚ map_to_list s.
Hypothesis peers_order_perm : forall s, peers_order s ≡ₚ map_to_list s.
Hypothesis index_order_perm : forall s, index_order s ≡ₚ map_to_list s.

Lemma remove_contracts_spec n cs p m :
  wf n m -> NoDup cs -> (forall c, c ∈ cs -> is_Some (get_peer_interest c p m)) ->
  remove_contracts cs p m = (remove_pairs (map (fun c => (c, p)) cs) m, Z.of_nat (length cs)).
Proof.
  revert m. induction cs as [|c cs IH]; intros m Hw Hn Hg; [done|]. apply NoDup_cons in Hn as [Hc Hn]. cbn [remove_contracts].
  destruct (remove_pair_spec n c p m Hw) as (Hw' & Hu & _ & Ha).
  rewrite bool_decide_eq_true_2 in Ha by (apply Hg; left).
  destruct (remove_peer_interest c p m) as [m' b] eqn:E. cbn [fst snd] in *. subst b.
  rewrite IH; [|done|done|].
  - rewrite length_cons. unfold remove_pairs. cbn. rewrite E. cbn. f_equal. lia.
  - intros c' Hc'. rewrite Hu, decide_False by (intros [= ->]; done). apply Hg. by right.
Qed.

Lemma remove_all_spec n p m :
  wf n m ->
  wf n (remove_all_peer_interests p m).1 /\ rest_same m (remove_all_peer_interests p m).1 /\
  (forall c p', get_peer_interest c p' (remove_all_peer_interests p m).1 =
     if decide (p' = p) then None else get_peer_interest c p' m) /\
  (remove_all_peer_interests p m).2 = Z.of_nat (size (get_contracts_for_peer p m)).
Proof.
  intros Hw. unfold remove_all_peer_interests.
  set (cs := match peer_contracts m !! p with Some cs => contracts_order cs | None => [] end).
  assert (Hp : cs ≡ₚ elements (get_contracts_for_peer p m)).
  { unfold cs, get_contracts_for_peer. destruct (peer_contracts m !! p); cbn; [apply contracts_order_perm|by rewrite elements_empty]. }
  assert (Hin : forall c, c ∈ cs <-> is_Some (get_peer_interest c p m)).
  { intros c. rewrite Hp, elem_of_elements. apply (wf_reverse _ _ Hw). }
  rewrite (remove_contracts_spec n); [|done|rewrite Hp; apply NoDup_elements|by intros c ?%Hin].
  destruct (remove_pairs_spec n (map (fun c => (c, p)) cs) m Hw) as (Hw' & Hr & Hg). cbn [fst snd].
  split_and!; [done..| |by rewrite Hp]. intros c p'. rewrite Hg.
  assert (Hm : (c, p') ∈ map (fun c => (c, p)) cs <-> p' = p /\ is_Some (get_peer_interest c p m)).
  { rewrite list_elem_of_fmap. setoid_rewrite Hin. naive_solver. }
  case_decide as Hd; [apply Hm in Hd as [-> ?]; by rewrite decide_True|]. case_decide as Hq; [|done]. subst p'.
  destruct (get_peer_interest c p m) eqn:E; [|done]. destruct Hd. apply Hm. split; [done|]. by eexists.
Qed.

Lemma remove_all_refines n p m :
  wf n m ->
  wf n (remove_all_peer_interests p m).1 /\
  spec_step (abs m) (0, RemoveAllPeerInterests p) =
    (abs (remove_all_peer_interests p m).1, ACount (remove_all_peer_interests p m).2).
Proof.
  intros Hw. destruct (remove_all_spec n p m Hw) as (Hw' & Hr & Hg & Ha). split; [done|]. cbn [spec_step fst snd].
  rewrite Ha. f_equal; [|do 2 f_equal].
  - symmetry. apply abs_ext; [|done]. intros c p'. rewrite Hg. symmetry. case_decide as Hd.
    + apply map_lookup_filter_None. right. intros i _ Hn. by apply Hn.
    + rewrite <- tracked_lookup. destruct (tracked (abs m) !! (c, p')) eqn:E.
      * by apply map_lookup_filter_Some.
      * apply map_lookup_filter_None. by left.
  - rewrite <- (size_dom (D := gset (K * P))).
    assert (dom (filter (fun e : K * P * PeerInterest => e.1.2 = p) (tracked (abs m))) =
            list_to_set (map (fun c => (c, p)) (elements (get_contracts_for_peer p m))) :> gset (K * P)) as ->.
    { apply set_eq. intros [c p']. rewrite elem_of_dom, elem_of_list_to_set, list_elem_of_fmap. setoid_rewrite elem_of_elements.
      setoid_rewrite (wf_reverse _ _ Hw). setoid_rewrite <- tracked_lookup. split.
      - intros [i [Hi Hq]%map_lookup_filter_Some]. cbn in Hq. subst. exists c. split; [done|by eexists].
      - intros (c' & [= -> ->] & [i Hi]). exists i. by apply map_lookup_filter_Some. }
    rewrite size_list_to_set, length_fmap; [done|]. apply NoDup_fmap_2; [by intros ?? [=]|apply NoDup_elements].
Qed.

Lemma wf_with_pending n x m : wf n m -> wf n (with_pending x m).
Proof. intros []. by split. Qed.

Lemma execute_loop_spec n ps m :
  wf n m -> NoDup ps -> (forall p, p ∈ ps -> is_Some (pending_removals m !! p)) ->
  wf n (execute_loop ps m).1 /\ local_interests (execute_loop ps m).1 = local_interests m /\
  (forall p, pending_removals (execute_loop ps m).1 !! p = if decide (p ∈ ps) then None else pending_removals m !! p) /\
  (forall c p, get_peer_interest c p (execute_loop ps m).1 = if decide (p ∈ ps) then None else get_peer_interest c p m) /\
  (execute_loop ps m).2 = Z.of_nat (length ps).
Proof.
  revert m. induction ps as [|p ps IH]; intros m Hw Hn Hp.
  - cbn. split_and!; [done..|intros p; by rewrite decide_False by apply not_elem_of_nil|intros c p; by rewrite decide_False by apply not_elem_of_nil|done].
  - apply NoDup_cons in Hn as [Hnp Hn]. cbn [execute_loop]. destruct (Hp p ltac:(left)) as [d Hd]. rewrite Hd.
    set (m1 := with_pending (delete p (pending_removals m)) m).
    destruct (remove_all_spec n p m1 (wf_with_pending _ _ _ Hw)) as (Hw1 & [Hl1 Hp1] & Hg1 & _).
    destruct (remove_all_peer_interests p m1) as [m2 k] eqn:E. cbn [fst snd] in *.
    destruct (IH m2 Hw1 Hn) as (Hw2 & Hl2 & Hp2 & Hg2 & Hc2).
    { intros p' Hp'. rewrite Hp1. cbn. rewrite lookup_delete_ne by (intros ->; done). apply Hp. by right. }
    destruct (execute_loop ps m2) as [m3 k']. cbn [fst snd] in *. split_and!; [done|by rewrite Hl2, Hl1|..].
    + intros p'. pose proof (elem_of_cons ps p' p). rewrite Hp2, Hp1. cbn. destruct (decide (p' = p)) as [-> |];
        [rewrite lookup_delete_eq|rewrite lookup_delete_ne by done]; repeat case_decide; naive_solver.
    + intros c p'. pose proof (elem_of_cons ps p' p). rewrite Hg2, Hg1. change (get_peer_interest c p' m1) with (get_peer_interest c p' m).
      repeat case_decide; naive_solver.
    + rewrite length_cons. lia.
Qed.

Lemma execute_refines n now m :
  wf n m ->
  wf n (execute_pending_removals now m).1 /\
  spec_step (abs m) (now, ExecutePendingRemovals) =
    (abs (execute_pending_removals now m).1, ACount (execute_pending_removals now m).2).
Proof.
  intros Hw. unfold execute_pending_removals.
  set (l := List.filter (fun e => e.2 <=? now) (pending_order (pending_removals m))).
  set (due := filter (fun e => e.2 <= now) (pending_removals m)).
  assert (Hl : l ≡ₚ map_to_list due).
  { apply NoDup_Permutation; [|apply NoDup_map_to_list|].
    - apply NoDup_ListNoDup, List.NoDup_filter, NoDup_ListNoDup. rewrite pending_order_perm. apply NoDup_map_to_list.
    - intros [p d]. unfold l. rewrite list_elem_of_In, filter_In, <- list_elem_of_In, pending_order_perm, !elem_of_map_to_list.
      unfold due. rewrite map_lookup_filter_Some. cbn. by rewrite Z.leb_le. }
  assert (Hd : forall p, p ∈ map fst l <-> is_Some (due !! p)).
  { intros p. rewrite Hl, list_elem_of_fmap. split.
    - intros ([p' d] & -> & Hp%elem_of_map_to_list). by exists d.
    - intros [d Hp%elem_of_map_to_list]. by exists (p, d). }
  assert (Hn : NoDup (map fst l)) by (rewrite Hl; apply NoDup_fst_map_to_list).
  destruct (execute_loop_spec n (map fst l) m Hw Hn) as (Hw' & Hlo & Hp & Hg & Hc).
  { intros p [d [Hd' _]%map_lookup_filter_Some]%Hd. by exists d. }
  split; [done|]. rewrite Hc. cbn [spec_step fst snd]. f_equal.
  2: { rewrite length_map, Hl. do 2 f_equal. rewrite length_map_to_list. done. }
  set (m' := (execute_loop (map fst l) m).1) in *. change (abs m') with (mkSpec (tracked (abs m')) (local_interests m') (pending_removals m')).
  rewrite Hlo. change (reasons (abs m)) with (local_interests m). change (deadlines (abs m)) with (pending_removals m). fold due. f_equal.
  - apply map_eq. intros [c p]. rewrite (tracked_lookup m'), Hg.
    case_decide as Hq; [apply Hd in Hq as [d Hq]|].
    + apply map_lookup_filter_None. right. intros i _ Hn'. cbn in Hn'. by rewrite Hq in Hn'.
    + rewrite <- tracked_lookup. destruct (tracked (abs m) !! (c, p)) as [i|] eqn:E; [|apply map_lookup_filter_None; by left].
      apply map_lookup_filter_Some. split; [done|]. cbn. apply eq_None_not_Some. by rewrite <- Hd.
  - apply map_eq. intros p. rewrite Hp. case_decide as Hq; [apply Hd in Hq as [d [Hq Hle]%map_lookup_filter_Some]|].
    + apply map_lookup_filter_None. right. intros d' Hd' Hlt. cbn in *. rewrite Hq in Hd'. simplify_eq. lia.
    + destruct (pending_removals m !! p) as [d|] eqn:E; [|apply map_lookup_filter_None; by left].
      apply map_lookup_filter_Some. split; [done|]. cbn. destruct (Z.lt_ge_cases now d); [done|]. destruct Hq. apply Hd.
      exists d. by apply map_lookup_filter_Some.
Qed.

Lemma expired_interests_spec now m c p :
  (c, p) ∈ expired_interests now m <-> exists i, get_peer_interest c p m = Some i /\ is_expired_at now i = true.
Proof.
  unfold expired_interests. rewrite list_elem_of_In, in_concat. setoid_rewrite in_map_iff. unfold get_peer_interest.
  assert (Hc : forall e, In e (sort_by (fun a b : K * gmap P PeerInterest => by_id_bytes a.1 b.1) (interested_order (interested_peers m))) <->
            interested_peers m !! e.1 = Some e.2).
  { intros [c' ps]. rewrite <- list_elem_of_In, sort_by_perm, interested_order_perm. apply elem_of_map_to_list. }
  assert (Hp : forall c' ps, In (c, p) (expired_in now (c', ps)) <-> c' = c /\ exists i, ps !! p = Some i /\ is_expired_at now i = true).
  { intros c' ps. unfold expired_in. rewrite in_map_iff. setoid_rewrite <- list_elem_of_In. setoid_rewrite sort_by_perm.
    setoid_rewrite list_elem_of_In. setoid_rewrite in_map_iff. setoid_rewrite filter_In. setoid_rewrite <- list_elem_of_In.
    setoid_rewrite peers_order_perm. split.
    - intros (p' & [= -> ->] & [p'' i] & [= ->] & Hi%elem_of_map_to_list & He). split; [done|]. by exists i.
    - intros (-> & i & Hi & He). exists p. split; [done|]. exists (p, i). split_and!; [done|by apply elem_of_map_to_list|done]. }
  split.
  - intros (l & ([c' ps] & <- & Hm%Hc) & [-> (i & Hi & He)]%Hp). exists i. cbn in Hm. by rewrite Hm.
  - intros (i & Hi & He). destruct (interested_peers m !! c) as [ps|] eqn:E; [|done]. cbn in Hi.
    exists (expired_in now (c, ps)). split; [exists (c, ps); split; [done|by apply Hc]|]. apply Hp. split; [done|]. by exists i.
Qed.

Lemma sweep_refines n now m :
  wf n m ->
  wf n (sweep_expired_interests now m).1 /\
  spec_step (abs m) (now, SweepExpiredInterests) =
    (abs (sweep_expired_interests now m).1, APairs (list_to_set (sweep_expired_interests now m).2)).
Proof.
  intros Hw. unfold sweep_expired_interests. cbn [fst snd].
  destruct (remove_pairs_spec n (expired_interests now m) m Hw) as (Hw' & Hr & Hg). fold (remove_pairs (expired_interests now m) m).
  split; [done|]. cbn [spec_step fst snd]. f_equal; [|f_equal].
  - symmetry. apply abs_ext; [|done]. intros c p. rewrite Hg. symmetry. case_decide as Hd.
    + apply expired_interests_spec in Hd as (i & Hi & He). rewrite <- tracked_lookup in Hi.
      apply map_lookup_filter_None. right. intros i' Hi'. rewrite Hi in Hi'. simplify_eq. cbn. by rewrite He.
    + rewrite <- tracked_lookup. destruct (tracked (abs m) !! (c, p)) as [i|] eqn:E; [|apply map_lookup_filter_None; by left].
      apply map_lookup_filter_Some. split; [done|]. cbn. destruct (is_expired_at now i) eqn:Ee; [|done].
      destruct Hd. apply expired_interests_spec. exists i. by rewrite <- tracked_lookup.
  - apply set_eq. intros [c p]. rewrite elem_of_dom, elem_of_list_to_set, expired_interests_spec. setoid_rewrite <- tracked_lookup.
    split; [intros [i [Hi He]%map_lookup_filter_Some]|intros (i & Hi & He)]; exists i; [done|by apply map_lookup_filter_Some].
Qed.

(** *** Local interest *)

Lemma abs_reasons m m' r : peers_same m m' -> local_interests m' = r -> abs m' = mkSpec (tracked (abs m)) r (deadlines (abs m)).
Proof. intros (Hi & _ & Hp) Hl. unfold abs. cbn. by rewrite Hi, Hp, Hl. Qed.

Definition counts_ok (n : Z) (l : LocalInterest) : Prop :=
  0 <= local_client_count l <= n /\ 0 <= downstream_subscriber_count l <= n.

Lemma default_counts n c m : 0 <= n -> wf n m -> counts_ok n (default local_default (local_interests m !! c)).
Proof.
  intros Hn Hw. destruct (local_interests m !! c) as [l|] eqn:E; [|cbn; split; cbn; lia].
  by destruct (wf_local _ _ Hw c l E) as (_ & ? & ?).
Qed.

Lemma interested_default n c m :
  wf n m -> is_interested (default local_default (local_interests m !! c)) = interested c (abs m).
Proof.
  intros Hw. unfold interested. cbn. destruct (local_interests m !! c) as [l|] eqn:E; [|done]. by destruct (wf_local _ _ Hw c l E).
Qed.

Lemma add_local_refines n f g c m :
  0 <= n -> wf n m ->
  (forall l, counts_ok n l -> f l = (g l, negb (is_interested l)) /\ local_ok (n + 1) (g l)) ->
  wf (n + 1) (add_local f c m).1 /\ spec_add g c (abs m) = (abs (add_local f c m).1, ABool (add_local f c m).2).
Proof.
  intros Hn Hw Hf. destruct (Hf _ (default_counts n c m Hn Hw)) as [He Hok].
  destruct (add_local_spec n (n + 1) f c m Hw ltac:(lia)) as (Hw' & Hs & Hl & Ha); [by rewrite He|].
  split; [done|]. rewrite He in Hl, Ha. cbn [fst snd] in *.
  rewrite (abs_reasons _ _ _ Hs Hl), Ha, (interested_default n) by done. unfold spec_add, spec_reason.
  change (reasons (abs m)) with (local_interests m). by rewrite (proj1 Hok).
Qed.

Lemma remove_local_refines n f g c m :
  0 <= n -> wf n m ->
  (forall l, f l = (g l, negb (is_interested (g l)))) -> (forall l, counts_ok n l -> counts_ok n (g l)) ->
  is_interested (g local_default) = false ->
  wf n (remove_local f c m).1 /\ spec_remove g c (abs m) = (abs (remove_local f c m).1, ABool (remove_local f c m).2).
Proof.
  intros Hn Hw Hf Hg Hd.
  destruct (remove_local_spec n f c m Hw) as (Hw' & Hs & Hl & Ha).
  { intros l. by rewrite Hf. }
  { intros l Hl. rewrite Hf. apply Hg. by destruct (wf_local _ _ Hw c l Hl) as (_ & ? & ?). }
  split; [done|]. rewrite (abs_reasons _ _ _ Hs eq_refl), Ha.
  assert (Hr : local_interests (remove_local f c m).1 =
    let l := g (default local_default (local_interests m !! c)) in
    if is_interested l then <[c := l]> (local_interests m) else delete c (local_interests m)).
  { apply map_eq. intros c'. rewrite Hl. unfold removed_reason. destruct (local_interests m !! c) as [l|] eqn:E.
    - change (Some l ≫= ?h) with (h l). cbn beta. rewrite Hf. cbn [fst snd default id].
      destruct (is_interested (g l)); cbn; (case_decide as Hc; [rewrite Hc|]);
        [by rewrite lookup_insert_eq|by rewrite lookup_insert_ne|by rewrite lookup_delete_eq|by rewrite lookup_delete_ne].
    - cbn. rewrite Hd. case_decide as Hc; [by rewrite Hc, lookup_delete_eq|by rewrite lookup_delete_ne]. }
  unfold spec_remove. f_equal; [unfold spec_reason; by rewrite Hr|]. f_equal.
  unfold interested, spec_reason. cbn [reasons abs]. clear -Hf. unfold removed_reason.
  destruct (local_interests m !! c) as [l|] eqn:E.
  - change (Some l ≫= ?h) with (h l). cbn beta. rewrite Hf. cbn [fst snd default id].
    destruct (is_interested (g l)); cbn [negb]; [rewrite lookup_insert_eq|rewrite lookup_delete_eq];
      repeat case_bool_decide; naive_solver.
  - repeat case_bool_decide; naive_solver.
Qed.

Lemma nothing_yet n l : counts_ok n l ->
  (local_client_count l =? 0) && negb (hosting l) && (downstream_subscriber_count l =? 0) = negb (is_interested l).
Proof.
  intros [Hc Hd]. unfold is_interested. destruct (hosting l); cbn; [by rewrite andb_false_r|]. rewrite andb_true_r, negb_orb.
  f_equal; [destruct (Z.eqb_spec (local_client_count l) 0), (Z.ltb_spec 0 (local_client_count l))
           |destruct (Z.eqb_spec (downstream_subscriber_count l) 0), (Z.ltb_spec 0 (downstream_subscriber_count l))]; done || lia.
Qed.

Lemma client_added n l : n < u64_max -> counts_ok n l ->
  add_client l = (plus_clients 1 l, negb (is_interested l)) /\ local_ok (n + 1) (plus_clients 1 l).
Proof.
  intros Hn [Hc Hd]. unfold add_client, plus_clients, local_ok, is_interested. cbn.
  rewrite wrap64_id, Z.max_r by int_lia. split.
  - f_equal. exact (nothing_yet n l (conj Hc Hd)).
  - rewrite (proj2 (Z.ltb_lt 0 (local_client_count l + 1))) by lia. rewrite orb_true_r. split_and!; [done|lia..].
Qed.

Lemma downstream_added n l : n < u64_max -> counts_ok n l ->
  add_downstream l = (plus_downstream 1 l, negb (is_interested l)) /\ local_ok (n + 1) (plus_downstream 1 l).
Proof.
  intros Hn [Hc Hd]. unfold add_downstream, plus_downstream, local_ok, is_interested. cbn.
  rewrite wrap64_id, Z.max_r by int_lia. split.
  - f_equal. transitivity (negb (is_interested l)); [|done]. rewrite <- (nothing_yet n l (conj Hc Hd)). by destruct (hosting l), (_ =? 0), (_ =? 0).
  - rewrite (proj2 (Z.ltb_lt 0 (downstream_subscriber_count l + 1))) by lia. rewrite orb_true_r. split_and!; [done|lia..].
Qed.

Lemma client_removed l : remove_client l = (plus_clients (-1) l, negb (is_interested (plus_clients (-1) l))).
Proof. done. Qed.
Lemma downstream_removed l : remove_downstream l = (plus_downstream (-1) l, negb (is_interested (plus_downstream (-1) l))).
Proof. done. Qed.

Lemma counts_plus_clients n k l : k <= 0 -> counts_ok n l -> counts_ok n (plus_clients k l).
Proof. unfold counts_ok, plus_clients. cbn. lia. Qed.
Lemma counts_plus_downstream n k l : k <= 0 -> counts_ok n l -> counts_ok n (plus_downstream k l).
Proof. unfold counts_ok, plus_downstream. cbn. lia. Qed.

(** A record without a reason is the default one. *)
Lemma not_interested_default n l : counts_ok n l -> is_interested l = false -> l = local_default.
Proof.
  destruct l as [h a b]. unfold counts_ok, is_interested, local_default. cbn. intros [Ha Hb] [[-> Hc]%orb_false_iff Hd]%orb_false_iff.
  to_props. f_equal; lia.
Qed.

Lemma spec_reason_comp n f g c s :
  counts_ok n (g (default local_default (reasons s !! c))) ->
  spec_reason f c (spec_reason g c s) = spec_reason (fun l => f (g l)) c s.
Proof.
  intros Hg. unfold spec_reason. cbn [reasons tracked deadlines].
  set (l := g (default local_default (reasons s !! c))) in *. destruct (is_interested l) eqn:E.
  - rewrite lookup_insert_eq. cbn. case_match; [by rewrite insert_insert_eq|by rewrite delete_insert_eq].
  - rewrite lookup_delete_eq. cbn. rewrite <- (not_interested_default n l Hg E).
    case_match; [by rewrite insert_delete_eq|by rewrite delete_delete_eq].
Qed.

Lemma spec_reason_id n f c m :
  wf n m -> (forall l, counts_ok n l -> f l = l) -> 0 <= n -> spec_reason f c (abs m) = abs m.
Proof.
  intros Hw Hf Hn. unfold spec_reason. cbn [reasons tracked deadlines abs]. rewrite Hf by by apply default_counts.
  destruct (local_interests m !! c) as [l|] eqn:E; cbn.
  - destruct (wf_local _ _ Hw c l E) as [-> _]. by rewrite insert_id.
  - by rewrite delete_id.
Qed.

Lemma spec_reason_ext f g c s : (forall l, f l = g l) -> spec_reason f c s = spec_reason g c s.
Proof. intros H. unfold spec_reason. by rewrite H. Qed.

Lemma evict_peers_refines n c ps m :
  0 <= n -> wf n m ->
  let m' := foldl (fun m p => (remove_downstream_subscriber c (remove_peer_interest c p m).1).1) m ps in
  wf n m' /\
  abs m' = set_tracked (filter (fun e => e.1.1 = c -> e.1.2 ∉ ps) (tracked (abs m)))
             (spec_reason (plus_downstream (- Z.of_nat (length ps))) c (abs m)).
Proof.
  intros Hn. revert m. induction ps as [|p ps IH]; intros m Hw; cbn [foldl].
  - split; [done|]. rewrite (spec_reason_id n) by (done || (intros [] [_ ?]; unfold plus_downstream; cbn in *; f_equal; lia)).
    unfold set_tracked. rewrite map_filter_id; [done|]. intros e i _ _. apply not_elem_of_nil.
  - destruct (remove_pair_spec n c p m Hw) as (Hw1 & Hu1 & Hr1 & _). set (m1 := (remove_peer_interest c p m).1) in *.
    destruct (remove_local_refines n remove_downstream (plus_downstream (-1)) c m1 Hn Hw1 downstream_removed
                (fun l => counts_plus_downstream n (-1) l ltac:(lia)) eq_refl) as [Hw2 Hs2].
    destruct (IH _ Hw2) as [Hw3 Ha3]. split; [done|]. refine (eq_trans Ha3 _). clear Ha3 IH.
    apply (f_equal fst) in Hs2. cbn [fst spec_remove] in Hs2. rewrite <- Hs2, (abs_update _ _ _ _ _ Hu1 Hr1).
    set (s := set_tracked _ (abs m)). rewrite (spec_reason_comp n).
    2: { apply counts_plus_downstream; [lia|]. apply default_counts; done. }
    unfold set_tracked, spec_reason. cbn [tracked reasons deadlines]. f_equal.
    + apply map_eq. intros [c' p']. apply option_eq. intros i. change (tracked s) with (delete (c, p) (tracked (abs m))).
      rewrite !map_lookup_filter_Some, lookup_delete_Some. cbn [fst snd]. rewrite not_elem_of_cons. split.
      * intros [[Hne Hi] Hp]. split; [done|]. intros ->. split; [by intros ->|by apply Hp].
      * intros [Hi Hp]. split_and!; [|done|by intros Hc; apply Hp]. intros [= -> ->]. by destruct (Hp eq_refl).
    + change (reasons s) with (reasons (abs m)). rewrite length_cons. set (l := default _ _).
      assert (plus_downstream (- Z.of_nat (length ps)) (plus_downstream (-1) l) = plus_downstream (- Z.of_nat (S (length ps))) l) as ->.
      { unfold plus_downstream. cbn [hosting local_client_count downstream_subscriber_count]. f_equal. lia. }
      done.
Qed.

Lemma evict_clients_refines n c k m :
  0 <= n -> wf n m ->
  wf n (Nat.iter k (fun m => (remove_local_client c m).1) m) /\
  abs (Nat.iter k (fun m => (remove_local_client c m).1) m) = spec_reason (plus_clients (- Z.of_nat k)) c (abs m).
Proof.
  intros Hn Hw. induction k as [|k [Hw1 IH]].
  - split; [done|]. rewrite (spec_reason_id n); [done|done| |done]. intros [] [? _]. unfold plus_clients. cbn in *. f_equal. lia.
  - rewrite Nat.iter_succ. set (m1 := Nat.iter k _ m) in *.
    destruct (remove_local_refines n remove_client (plus_clients (-1)) c m1 Hn Hw1 client_removed
                (fun l => counts_plus_clients n (-1) l ltac:(lia)) eq_refl) as [Hw2 Hs2].
    split; [done|]. apply (f_equal fst) in Hs2. cbn [fst spec_remove] in Hs2.
    unfold remove_local_client. rewrite <- Hs2, IH, (spec_reason_comp n).
    2: { apply counts_plus_clients; [lia|]. apply default_counts; done. }
    apply spec_reason_ext. intros l. unfold plus_clients. cbn [hosting local_client_count downstream_subscriber_count]. f_equal. lia.
Qed.

Lemma evicted_refines n c ps k m :
  0 <= n -> wf n m ->
  wf n (remove_evicted_in_use c ps k m) /\
  spec_step (abs m) (0, RemoveEvictedInUse c ps k) = (abs (remove_evicted_in_use c ps k m), AUnit).
Proof.
  intros Hn Hw. unfold remove_evicted_in_use. destruct (evict_peers_refines n c ps m Hn Hw) as [Hw1 Ha1].
  set (m1 := foldl _ m ps) in *. destruct (evict_clients_refines n c k m1 Hn Hw1) as [Hw2 Ha2]. split; [done|].
  rewrite Ha2, Ha1. cbn [spec_step fst snd]. f_equal.
  set (t := filter _ _). rewrite <- (spec_reason_comp n (plus_clients (- Z.of_nat k)) (plus_downstream (- Z.of_nat (length ps)))); [done|].
  apply counts_plus_downstream; [lia|]. by apply default_counts.
Qed.

Lemma notify_refines n now c m :
  wf n m -> wf n (should_send_summary_notification now c m).1 /\ abs (should_send_summary_notification now c m).1 = abs m.
Proof. intros Hw. unfold should_send_summary_notification. case_match; (split; [destruct Hw; by split|done]). Qed.

(** A second notification within 100 ms of a granted one is refused. *)
Lemma summary_notifications_spaced now now' c m :
  (should_send_summary_notification now c m).2 = true -> now <= now' < now + SUMMARY_NOTIFY_INTERVAL ->
  (should_send_summary_notification now' c (should_send_summary_notification now c m).1).2 = false.
Proof.
  unfold should_send_summary_notification. case_match; [|done]. cbn. intros _ Hn. rewrite lookup_insert_eq. cbn.
  rewrite (proj2 (Z.leb_gt _ _)); [done|]. unfold sat_sub, SUMMARY_NOTIFY_INTERVAL, from_millis in *. lia.
Qed.

Lemma local_step_refines n e m :
  0 <= n < u64_max -> wf n m ->
  match e.2 with
  | RegisterLocalHosting _ | UnregisterLocalHosting _ | AddLocalClient _ | RemoveLocalClient _
  | AddDownstreamSubscriber _ | RemoveDownstreamSubscriber _ =>
      wf (n + 1) (step m e).1 /\ spec_step (abs m) e = (abs (step m e).1, (step m e).2)
  | _ => True
  end.
Proof.
  intros Hn Hw. destruct e as [now op], op; try done; cbn [fst snd step spec_step bool_answer].
  - apply (add_local_refines n); [lia|done|]. intros l Hl. split; [done|]. destruct Hl. split_and!; [done|cbn; lia..].
  - destruct (remove_local_refines n stop_hosting (with_hosting false) c m ltac:(lia) Hw (fun l => eq_refl)) as [Hw' Hs];
      [by intros l []|done|]. split; [by apply (wf_mono n); [lia|]|done].
  - apply (add_local_refines n); [lia|done|]. intros l Hl. apply client_added; [lia|done].
  - destruct (remove_local_refines n remove_client (plus_clients (-1)) c m ltac:(lia) Hw client_removed) as [Hw' Hs];
      [intros l; apply counts_plus_clients; lia|done|]. split; [by apply (wf_mono n); [lia|]|done].
  - apply (add_local_refines n); [lia|done|]. intros l Hl. apply downstream_added; [lia|done].
  - destruct (remove_local_refines n remove_downstream (plus_downstream (-1)) c m ltac:(lia) Hw downstream_removed) as [Hw' Hs];
      [intros l; apply counts_plus_downstream; lia|done|]. split; [by apply (wf_mono n); [lia|]|done].
Qed.

Lemma step_refines n e m :
  0 <= n < u64_max -> wf n m -> wf (n + 1) (step m e).1 /\ spec_step (abs m) e = (abs (step m e).1, (step m e).2).
Proof.
  intros Hn Hw. pose proof (local_step_refines n e m Hn Hw) as Hl.
  assert (Hm : forall m', wf n m' -> wf (n + 1) m') by (intros m'; apply wf_mono; lia).
  destruct e as [now op], op; try exact Hl; clear Hl; cbn [fst snd step bool_answer count_answer].
  - destruct (register_refines n now c p s upstream m Hw). split; [by apply Hm|done].
  - destruct (remove_refines n c p m Hw). split; [by apply Hm|done].
  - destruct (modify_refines n (set_summary s now) c p m Hw) as [? Hs]. split; [by apply Hm|]. cbn [spec_step fst snd]. by rewrite Hs.
  - destruct (modify_refines n (clear_summary r now) c p m Hw) as [? Hs]. split; [by apply Hm|]. cbn [spec_step fst snd]. by rewrite Hs.
  - destruct (upsert_refines n now c p s m Hw). split; [by apply Hm|done].
  - destruct (modify_refines n (refresh now) c p m Hw) as [? Hs]. split; [by apply Hm|]. cbn [spec_step fst snd]. by rewrite Hs.
  - destruct (notify_refines n now c m Hw) as [? Hs]. split; [by apply Hm|]. by rewrite Hs.
  - destruct (remove_all_refines n p m Hw). split; [by apply Hm|done].
  - split; [by apply Hm, wf_with_pending|done].
  - split; [by apply Hm, wf_with_pending|done].
  - destruct (execute_refines n now m Hw). split; [by apply Hm|done].
  - destruct (sweep_refines n now m Hw) as [? Hs]. rewrite Hs. destruct (sweep_expired_interests now m). split; [by apply Hm|done].
  - destruct (evicted_refines n c downstream_peers clients m ltac:(lia) Hw). split; [by apply Hm|done].
Qed.

Lemma run_refines es :
  Z.of_nat (length es) <= u64_max ->
  wf (Z.of_nat (length es)) (run new es).1 /\ spec_run spec_new es = (abs (run new es).1, (run new es).2).
Proof.
  induction es as [|e es IH] using rev_ind; intros Hn; [split; [apply interest_wf_new|done]|].
  rewrite length_app in *. cbn [length] in *. unfold run, spec_run, run_with in *. rewrite !foldl_snoc.
  destruct IH as [Hw IH]; [lia|]. rewrite IH. cbn [fst snd].
  set (x := foldl _ (new, []) es) in *.
  destruct (step_refines (Z.of_nat (length es)) e x.1 ltac:(lia) Hw) as [Hw' Hs]. rewrite Hs.
  destruct (step x.1 e) as [m' a]. cbn [fst snd] in *. split; [|done].
  replace (Z.of_nat (length es + 1)) with (Z.of_nat (length es) + 1) by lia. done.
Qed.

(** C22: The nested maps, the reverse index and the hash index behave as one flat table of
    (contract, peer) pairs.  For any sequence of calls, at any times, the manager holds
    exactly the pairs of the specification and gives exactly its answers: a new peer is
    admitted while the contract has fewer than 512, a sweep removes and reports exactly the
    pairs not refreshed for 20 minutes, the interests of a disconnected peer go when its
    grace period of 90 seconds is over and it has not come back and not before, and an
    addition or a removal of a local reason answers [true] exactly when the node's interest
    in the contract began or ended with it. *)
Theorem interest_refines es :
  Z.of_nat (length es) <= u64_max -> (abs (run new es).1, (run new es).2) = spec_run spec_new es.
Proof. intros Hn. by destruct (run_refines es Hn) as [_ ->]. Qed.

Lemma interested_peers_in c p m :
  p ∈ map fst (get_interested_peers c m) <-> is_Some (get_peer_interest c p m).
Proof.
  unfold get_interested_peers, get_peer_interest. rewrite sort_by_perm.
  destruct (interested_peers m !! c) as [ps|]; cbn; [|split; [by intros ?%not_elem_of_nil|by intros []]].
  rewrite peers_order_perm, list_elem_of_fmap. split.
  - intros ([p' i] & -> & Hi%elem_of_map_to_list). by exists i.
  - intros [i Hi%elem_of_map_to_list]. by exists (p, i).
Qed.

Lemma interested_peers_length n c m :
  wf n m -> Z.of_nat (length (get_interested_peers c m)) <= MAX_INTERESTED_PEERS_PER_CONTRACT /\
            (get_interested_peers c m <> [] <-> is_Some (interested_peers m !! c)).
Proof.
  intros Hw. unfold get_interested_peers.
  set (l := match interested_peers m !! c with Some entry => peers_order entry | None => [] end).
  assert (Hs : length (sort_by (fun a b : P * PeerInterest => by_peer_bytes a.1 b.1) l) = length l) by (by rewrite sort_by_perm).
  assert (He : sort_by (fun a b : P * PeerInterest => by_peer_bytes a.1 b.1) l = [] <-> l = []).
  { rewrite <- !length_zero_iff_nil. by rewrite Hs. }
  rewrite Hs, He. unfold l. destruct (interested_peers m !! c) as [ps|] eqn:E.
  2: { cbn. split; [unfold MAX_INTERESTED_PEERS_PER_CONTRACT; lia|]. split; [done|by intros []]. }
  assert (Hz : length (peers_order ps) = size ps) by (by rewrite peers_order_perm, length_map_to_list).
  rewrite Hz. destruct (wf_peers _ _ Hw c ps E) as [Hne Hle]. split; [done|].
  split; [by eexists|]. intros _ Hq. apply Hne. apply map_size_empty_inv. by rewrite <- Hz, Hq.
Qed.

Lemma buckets_nodup (f : Z -> bool) (l : list (Z * list K)) :
  NoDup l.*1 -> (forall h cs, (h, cs) ∈ l -> NoDup cs /\ forall c, c ∈ cs -> contract_hash c = h) ->
  NoDup (concat (map snd (List.filter (fun e => f e.1) l))) /\
  forall c, c ∈ concat (map snd (List.filter (fun e => f e.1) l)) <-> f (contract_hash c) = true /\ exists cs, (contract_hash c, cs) ∈ l /\ c ∈ cs.
Proof.
  intros Hn Hl.
  assert (Hin : forall l', (forall h cs, (h, cs) ∈ l' -> NoDup cs /\ forall c, c ∈ cs -> contract_hash c = h) -> forall c,
    c ∈ concat (map snd (List.filter (fun e => f e.1) l')) <-> f (contract_hash c) = true /\ exists cs, (contract_hash c, cs) ∈ l' /\ c ∈ cs).
  { clear. intros l Hl c. rewrite list_elem_of_In, in_concat. setoid_rewrite in_map_iff. setoid_rewrite filter_In.
    setoid_rewrite <- list_elem_of_In. split.
    - intros (cs & ([h cs'] & <- & Hm & Hf) & Hc). destruct (Hl h cs' Hm) as [_ Hh]. cbn in *. rewrite (Hh c Hc). split; [done|]. by exists cs'.
    - intros (Hf & cs & Hm & Hc). exists cs. split; [|done]. by exists (contract_hash c, cs). }
  split; [|by apply Hin]. induction l as [|[h cs] l IH]; cbn; [constructor|].
  apply NoDup_cons in Hn as [Hh Hn]. destruct (Hl h cs ltac:(left)) as [Hc Hq].
  assert (Hl' : forall h cs, (h, cs) ∈ l -> NoDup cs /\ forall c, c ∈ cs -> contract_hash c = h) by (intros; apply Hl; by right).
  destruct (f h); [|by apply IH]. cbn. apply NoDup_app. split_and!; [done| |by apply IH].
  intros c Hc1 [_ (cs' & Hm & _)]%Hin; [|done]. apply Hh. apply list_elem_of_fmap. exists (contract_hash c, cs'). split; [|done]. by rewrite <- (Hq c Hc1).
Qed.

(** C24: The three views of the interests never disagree.  After any sequence of calls a peer is
    listed for a contract exactly when the reverse index lists the contract for the peer, and
    no contract has more than 512 peers; a contract is found by its hash exactly when some
    peer or the node itself is interested in it; what the discovery exchange announces are
    exactly the hashes of these contracts; and matching a list of announced hashes gives
    exactly the contracts of interest that hash into it, each once and in the order of their
    instance, whatever collides. *)
Theorem interest_indexes_exact es :
  let m := (run new es).1 in Z.of_nat (length es) <= u64_max ->
  (forall c p, p ∈ map fst (get_interested_peers c m) <-> c ∈ get_contracts_for_peer p m) /\
  (forall c, Z.of_nat (length (get_interested_peers c m)) <= MAX_INTERESTED_PEERS_PER_CONTRACT) /\
  (forall h c, c ∈ lookup_by_hash h m <->
     contract_hash c = h /\ (get_interested_peers c m <> [] \/ has_local_interest c m = true)) /\
  (forall h, h ∈ get_all_interest_hashes m <->
     exists c, contract_hash c = h /\ (get_interested_peers c m <> [] \/ has_local_interest c m = true)) /\
  (forall hashes,
     NoDup (get_matching_contracts hashes m) /\
     StronglySorted (le_by by_id_bytes) (get_matching_contracts hashes m) /\
     forall c, c ∈ get_matching_contracts hashes m <->
       contract_hash c ∈ hashes /\ (get_interested_peers c m <> [] \/ has_local_interest c m = true)).
Proof.
  intros m Hn. destruct (run_refines es Hn) as [Hw _]. fold m in Hw. clearbody m. clear Hn.
  set (n := Z.of_nat (length es)) in *.
  assert (Hi : forall c, get_interested_peers c m <> [] \/ has_local_interest c m = true <-> indexed m c).
  { intros c. rewrite (wf_indexed _ _ Hw), (has_local_interest_spec n) by done.
    by rewrite (proj2 (interested_peers_length n c m Hw)). }
  assert (Hh : forall h c, c ∈ lookup_by_hash h m <-> contract_hash c = h /\ indexed m c).
  { intros h c. unfold indexed. split; [|by intros [<- ?]]. intros Hc.
    assert (contract_hash c = h) as <-; [|done]. unfold lookup_by_hash in Hc.
    destruct (contract_hash_index m !! h) as [cs|] eqn:E; [by apply (wf_buckets _ _ Hw h cs E)|by apply not_elem_of_nil in Hc]. }
  split_and!.
  - intros c p. rewrite interested_peers_in, (wf_reverse _ _ Hw). done.
  - intros c. apply (interested_peers_length n c m Hw).
  - intros h c. rewrite Hi. apply Hh.
  - intros h. setoid_rewrite Hi. setoid_rewrite <- Hh. unfold get_all_interest_hashes, lookup_by_hash.
    rewrite sort_by_perm, index_order_perm, list_elem_of_fmap. split.
    + intros ([h' cs] & -> & Hm%elem_of_map_to_list). destruct (wf_buckets _ _ Hw h' cs Hm) as (Hne & _).
      destruct cs as [|c cs]; [done|]. exists c. cbn [fst]. rewrite Hm. left.
    + intros [c Hc]. destruct (contract_hash_index m !! h) as [cs|] eqn:E; [|by apply not_elem_of_nil in Hc].
      exists (h, cs). split; [done|by apply elem_of_map_to_list].
  - intros hashes. unfold get_matching_contracts.
    destruct (buckets_nodup (fun h => bool_decide (h ∈ hashes)) (index_order (contract_hash_index m))) as [Hnd Hin].
    { rewrite index_order_perm. apply NoDup_fst_map_to_list. }
    { intros h cs. rewrite index_order_perm. intros Hm%elem_of_map_to_list. apply (wf_buckets _ _ Hw h cs Hm). }
    split_and!; [by rewrite sort_by_perm|apply sort_by_sorted, (comparator_on id_bytes bytes_cmp), _|].
    intros c. rewrite sort_by_perm, Hin, Hi. unfold indexed, lookup_by_hash. rewrite bool_decide_eq_true.
    setoid_rewrite index_order_perm. setoid_rewrite elem_of_map_to_list.
    destruct (contract_hash_index m !! contract_hash c) as [cs|]; cbn; [naive_solver|].
    rewrite elem_of_nil. naive_solver.
Qed.

End manager.

(** ** Examples *)

Section examples.

Definition byte_id (n : nat) : list Byte.byte := [default Byte.x00 (Byte.of_N (N.of_nat n))].

Abbreviation run_ex := (run byte_id byte_id elements map_to_list map_to_list map_to_list (K := nat) (P := nat)) (only parsing).
Abbreviation matching_ex := (get_matching_contracts byte_id map_to_list (K := nat) (P := nat)) (only parsing).

(** Two peers and a client; peer 1 disconnects and its grace period runs out, peer 2 is
    swept after 20 minutes without a refresh. *)
Definition trace : list (Z * Op (K := nat) (P := nat)) :=
  [(from_secs 0, RegisterPeerInterest 7%nat 1%nat None true);
   (from_secs 1, UpsertPeerSummary 7%nat 2%nat [Byte.x05]);
   (from_secs 2, AddLocalClient 8%nat);
   (from_secs 10, ScheduleDeferredRemoval 1%nat);
   (from_secs 99, ExecutePendingRemovals);
   (from_secs 100, ExecutePendingRemovals);
   (from_secs 1201, SweepExpiredInterests);
   (from_secs 1202, SweepExpiredInterests);
   (from_secs 1203, RemoveLocalClient 8%nat)].

Example trace_answers :
  (run_ex new trace).2 =
    [ABool true; ABool true; ABool true; AUnit; ACount 0; ACount 1; APairs ∅; APairs {[(7%nat, 2%nat)]}; ABool true].
Proof. vm_compute. done. Qed.

Lemma interest_refines_witness :
  Z.of_nat (length trace) <= u64_max /\
  (abs (run_ex new trace).1, (run_ex new trace).2) = spec_run spec_new trace.
Proof.
  assert (H : Z.of_nat (length trace) <= u64_max) by (vm_compute; discriminate). split; [exact H|].
  exact (interest_refines byte_id byte_id elements map_to_list map_to_list map_to_list
           (fun s => Permutation_refl _) (fun s => Permutation_refl _) (fun s => Permutation_refl _)
           (fun s => Permutation_refl _) trace H).
Defined.

Lemma interest_indexes_witness :
  Z.of_nat (length (take 4 trace)) <= u64_max /\
  let m := (run_ex new (take 4 trace)).1 in
  (contract_hash byte_id 7%nat ∈ [contract_hash byte_id 7%nat] /\ has_local_interest 8%nat m = true) /\
  NoDup (matching_ex [contract_hash byte_id 7%nat] m).
Proof.
  assert (H : Z.of_nat (length (take 4 trace)) <= u64_max) by (vm_compute; discriminate).
  split; [exact H|]. intros m. split; [split; [left|vm_compute; reflexivity]|].
  exact (proj1 (proj2 (proj2 (proj2 (proj2 (interest_indexes_exact byte_id byte_id elements map_to_list map_to_list map_to_list map_to_list
           (fun s => Permutation_refl _) (fun s => Permutation_refl _) (fun s => Permutation_refl _)
           (fun s => Permutation_refl _) (fun s => Permutation_refl _) (take 4 trace) H)))) [contract_hash byte_id 7%nat])).
Defined.

(** [register_local_interest] and [cleanup_local_interest], which nothing in the workspace
    calls: the second forgets the entry and leaves the contract in the hash index. *)
Example cleanup_leaves_index_entry :
  let m := cleanup_local_interest 7%nat (register_local_interest byte_id 7%nat (new (P := nat))) in
  lookup_by_hash (contract_hash byte_id 7%nat) m = [7%nat] /\ local_interests m = ∅.
Proof. vm_compute. done. Qed.

End examples.
End Interest.
