(* ===== verification/InterestRaces.v ===== *)
(** * Concurrent use of the interest manager

    The tasks of the node share one [InterestManager]
    ([src/crates/core/src/ring/interest.rs]).  Its maps are [DashMap]s: a guard on an entry
    keeps the other tasks from that key of that map, and each call is a sequence of such
    accesses.  Here the calls of [Interest.v] run step by step, one access at a time,
    interleaved by an arbitrary schedule.

    [register_peer_interest] and [upsert_peer_summary] hold the guard of the contract's peers
    while they write the reverse index and the hash index, [remove_peer_interest] while it
    writes the reverse index, and the additions of a local reason hold the guard of the
    contract's reasons while they write the hash index.  The cleanup after a removal holds
    none.  A program is a list of calls; a sweep is the removals it decides on.

    [race_call_alone] relates the steps to the calls of [Interest.v]; [interest_indexes_race_free]
    is what the guards are for.  The examples at the end are schedules in which a
    contract loses its index entry, or a client its count. *)

From S2P Require Import Prelude Ordering Interest.

Module InterestRaces.

Module IM := Interest.

#[local] Open Scope Z_scope.

(** A reason the node itself has for a contract. *)
Inductive Reason := Hosting | Client | Downstream.

Definition add_reason (r : Reason) : IM.LocalInterest -> IM.LocalInterest * bool :=
  match r with Hosting => IM.start_hosting | Client => IM.add_client | Downstream => IM.add_downstream end.
Definition remove_reason (r : Reason) : IM.LocalInterest -> IM.LocalInterest * bool :=
  match r with Hosting => IM.stop_hosting | Client => IM.remove_client | Downstream => IM.remove_downstream end.

Section races.
Context {K P : Type} `{eqK : EqDecision K, cntK : !Countable K, eqP : EqDecision P, cntP : !Countable P}.
Variable id_bytes : K -> list Byte.byte.
Variable contracts_order : gset K -> list K.

Abbreviation Manager := (IM.InterestManager (K := K) (P := P)) (only parsing).
Abbreviation hash := (IM.contract_hash id_bytes).

Inductive Call :=
| Register (now : Z) (c : K) (p : P) (s : option (list Byte.byte)) (upstream : bool)
| UpsertSummary (now : Z) (c : K) (p : P) (s : list Byte.byte)
| Remove (c : K) (p : P)
| RemoveAll (p : P)
| AddReason (r : Reason) (c : K)
| RemoveReason (r : Reason) (c : K).

(** Where a task stands: [RegContracts] and [RegIndex] hold the guard of the contract's
    peers, as do [RemContracts] and [RemEmpty]; [LocIndex] holds that of its reasons. *)
Inductive pc :=
| Idle
| RegContracts (c : K) (p : P)
| RegIndex (c : K)
| RemContracts (c : K) (p : P)
| RemEmpty (c : K) (p : P)
| RemErase (c : K)
| LocIndex (c : K)
| LocErase (c : K)
| CleanPeers (c : K)
| CleanLocal (c : K)
| CleanIndex (c : K)
| CleanBucket (c : K)
| CleanNotify (c : K).

Record Task := mkTask { at_pc : pc; todo : list Call }.

Record World := mkWorld {
  shared : Manager;
  peer_guards : gset K;
  local_guards : gset K;
  tasks : list Task;
}.

(** An entry that is there and empty. *)
Definition empty_entry (e : option (gmap P IM.PeerInterest)) : bool :=
  match e with Some e => bool_decide (e = ∅) | None => false end.

(** The shared state a step can change. *)
Abbreviation View := (Manager * gset K * gset K)%type.

(** The writes of [register_peer_interest] and [upsert_peer_summary] under the guard. *)
Definition insert_peer (c : K) (p : P) (i : IM.PeerInterest) (rest : list Call) (v : View) : View * Task :=
  let '(m, pg, lg) := v in
  let entry := default ∅ (IM.interested_peers m !! c) in
  ((IM.with_peers (<[c := <[p := i]> entry]> (IM.interested_peers m)) m, {[c]} ∪ pg, lg), mkTask (RegContracts c p) rest).

(** The first access of a call; a task that needs a guarded entry does not move. *)
Definition start (call : Call) (rest : list Call) (v : View) : View * Task :=
  let '(m, pg, lg) := v in
  let wait := (v, mkTask Idle (call :: rest)) in
  match call with
  | Register now c p s up =>
      if decide (c ∈ pg) then wait else
      let entry := default ∅ (IM.interested_peers m !! c) in
      if negb (bool_decide (is_Some (entry !! p))) && (IM.MAX_INTERESTED_PEERS_PER_CONTRACT <=? Z.of_nat (size entry))
      then ((IM.with_peers (<[c := entry]> (IM.interested_peers m)) m, pg, lg), mkTask Idle rest)
      else insert_peer c p (IM.interest_new s up now) rest v
  | UpsertSummary now c p s =>
      if decide (c ∈ pg) then wait else
      let entry := default ∅ (IM.interested_peers m !! c) in
      match entry !! p with
      | Some i =>
          ((IM.with_peers (<[c := <[p := IM.set_summary s now i]> entry]> (IM.interested_peers m)) m, pg, lg), mkTask Idle rest)
      | None =>
          if IM.MAX_INTERESTED_PEERS_PER_CONTRACT <=? Z.of_nat (size entry)
          then ((IM.with_peers (<[c := entry]> (IM.interested_peers m)) m, pg, lg), mkTask Idle rest)
          else insert_peer c p (IM.interest_new (Some s) false now) rest v
      end
  | Remove c p =>
      if decide (c ∈ pg) then wait else
      match IM.interested_peers m !! c with
      | Some entry =>
          let m := IM.with_peers (<[c := delete p entry]> (IM.interested_peers m)) m in
          if bool_decide (is_Some (entry !! p)) then ((m, {[c]} ∪ pg, lg), mkTask (RemContracts c p) rest)
          else ((m, pg, lg), mkTask (if bool_decide (delete p entry = ∅) then RemErase c else Idle) rest)
      | None => (v, mkTask Idle rest)
      end
  | RemoveAll p =>
      let cs := match IM.peer_contracts m !! p with Some cs => contracts_order cs | None => [] end in
      (v, mkTask Idle (map (fun c => Remove c p) cs ++ rest))
  | AddReason r c =>
      if decide (c ∈ lg) then wait else
      let l := (add_reason r (default IM.local_default (IM.local_interests m !! c))).1 in
      ((IM.with_local (<[c := l]> (IM.local_interests m)) m, pg, {[c]} ∪ lg), mkTask (LocIndex c) rest)
  | RemoveReason r c =>
      if decide (c ∈ lg) then wait else
      match IM.local_interests m !! c with
      | Some l =>
          let '(l, lost) := remove_reason r l in
          ((IM.with_local (<[c := l]> (IM.local_interests m)) m, pg, lg), mkTask (if lost then LocErase c else Idle) rest)
      | None => (v, mkTask Idle rest)
      end
  end.

(** The end of the guarded part of [remove_peer_interest]. *)
Definition release_removed (c : K) (rest : list Call) (v : View) : View * Task :=
  let '(m, pg, lg) := v in
  ((m, pg ∖ {[c]}, lg),
   mkTask (if empty_entry (IM.interested_peers m !! c) then RemErase c else Idle) rest).

Definition task_step (t : Task) (v : View) : View * Task :=
  let '(m, pg, lg) := v in
  let rest := todo t in
  match at_pc t with
  | Idle => match rest with call :: rest => start call rest v | [] => (v, t) end
  | RegContracts c p =>
      ((IM.with_contracts (<[p := {[c]} ∪ default ∅ (IM.peer_contracts m !! p)]> (IM.peer_contracts m)) m, pg, lg),
       mkTask (RegIndex c) rest)
  | RegIndex c => ((IM.index_contract_hash id_bytes c m, pg ∖ {[c]}, lg), mkTask Idle rest)
  | RemContracts c p =>
      match IM.peer_contracts m !! p with
      | Some cs =>
          let m := IM.with_contracts (<[p := cs ∖ {[c]}]> (IM.peer_contracts m)) m in
          if bool_decide (cs ∖ {[c]} = ∅) then ((m, pg, lg), mkTask (RemEmpty c p) rest)
          else release_removed c rest (m, pg, lg)
      | None => release_removed c rest v
      end
  | RemEmpty c p =>
      release_removed c rest
        (if bool_decide (IM.peer_contracts m !! p = Some ∅)
         then (IM.with_contracts (delete p (IM.peer_contracts m)) m, pg, lg) else v)
  | RemErase c =>
      if decide (c ∈ pg) then (v, t) else
      (((if empty_entry (IM.interested_peers m !! c)
         then IM.with_peers (delete c (IM.interested_peers m)) m else m), pg, lg), mkTask (CleanPeers c) rest)
  | LocIndex c => ((IM.index_contract_hash id_bytes c m, pg, lg ∖ {[c]}), mkTask Idle rest)
  | LocErase c =>
      if decide (c ∈ lg) then (v, t) else
      ((IM.with_local (delete c (IM.local_interests m)) m, pg, lg), mkTask (CleanPeers c) rest)
  | CleanPeers c =>
      if decide (c ∈ pg) then (v, t) else
      (v, mkTask (if bool_decide (is_Some (IM.interested_peers m !! c)) then Idle else CleanLocal c) rest)
  | CleanLocal c =>
      if decide (c ∈ lg) then (v, t) else
      (v, mkTask (if IM.has_local_interest c m then Idle else CleanIndex c) rest)
  | CleanIndex c =>
      match IM.contract_hash_index m !! hash c with
      | Some entry =>
          let entry := List.filter (fun c' => negb (bool_decide (c' = c))) entry in
          ((IM.with_index (<[hash c := entry]> (IM.contract_hash_index m)) m, pg, lg),
           mkTask (match entry with [] => CleanBucket c | _ => CleanNotify c end) rest)
      | None => (v, mkTask (CleanNotify c) rest)
      end
  | CleanBucket c =>
      ((IM.with_index (delete (hash c) (IM.contract_hash_index m)) m, pg, lg), mkTask (CleanNotify c) rest)
  | CleanNotify c =>
      ((IM.with_notify (delete c (IM.summary_notify_timestamps m)) m, pg, lg), mkTask Idle rest)
  end.

Definition step (w : World) (i : nat) : World :=
  match tasks w !! i with
  | Some t =>
      let '((m, pg, lg), t') := task_step t (shared w, peer_guards w, local_guards w) in
      mkWorld m pg lg (<[i := t']> (tasks w))
  | None => w
  end.

Definition run (w : World) (schedule : list nat) : World := foldl step w schedule.

Definition spawn (m : Manager) (programs : list (list Call)) : World := mkWorld m ∅ ∅ (map (mkTask Idle) programs).

Definition finished (w : World) : bool :=
  forallb (fun t => match at_pc t, todo t with Idle, [] => true | _, _ => false end) (tasks w).

(** ** What each task holds, and the tasks beside one *)

Definition holds_peers (x : pc) : option K :=
  match x with RegContracts c _ | RegIndex c | RemContracts c _ | RemEmpty c _ => Some c | _ => None end.
Definition holds_local (x : pc) : option K := match x with LocIndex c => Some c | _ => None end.

(** A task other than [i] stands at [x]. *)
Definition other (w : World) (i : nat) (x : pc) : Prop :=
  exists j t, j <> i /\ tasks w !! j = Some t /\ at_pc t = x.

Definition anyone (w : World) (x : pc) : Prop := exists j t, tasks w !! j = Some t /\ at_pc t = x.

Lemma anyone_other w i t x : tasks w !! i = Some t -> anyone w x <-> x = at_pc t \/ other w i x.
Proof.
  intros Hi. split.
  - intros (j & t' & Hj & <-). destruct (decide (j = i)) as [-> |Hne]; [left; congruence|right]. by exists j, t'.
  - intros [-> |(j & t' & _ & Hj & Hx)]; [by exists i, t|by exists j, t'].
Qed.

Lemma step_at w i t :
  tasks w !! i = Some t ->
  let '((m, pg, lg), t') := task_step t (shared w, peer_guards w, local_guards w) in
  step w i = mkWorld m pg lg (<[i := t']> (tasks w)).
Proof. intros Hi. unfold step. rewrite Hi. by destruct (task_step _ _) as [[[m pg] lg] t']. Qed.

Lemma other_step w i t m pg lg t' x :
  tasks w !! i = Some t ->
  (other (mkWorld m pg lg (<[i := t']> (tasks w))) i x <-> other w i x) /\
  tasks (mkWorld m pg lg (<[i := t']> (tasks w))) !! i = Some t'.
Proof.
  intros Hi. cbn. split; [|apply list_lookup_insert_eq; by apply lookup_lt_Some in Hi]. unfold other. cbn.
  split; intros (j & u & Hne & Hj & Hx); exists j, u; (split_and!; [done| |done]);
    [rewrite list_lookup_insert_ne in Hj by done|rewrite list_lookup_insert_ne by done]; done.
Qed.

(** *** The guards *)

(** Of the tasks that hold a key of a map each is alone, and the key is marked. *)
Definition guarded (holds : pc -> option K) (g : gset K) (w : World) : Prop :=
  forall i t c, tasks w !! i = Some t -> holds (at_pc t) = Some c ->
    c ∈ g /\ (forall x, other w i x -> holds x <> Some c).

Definition guard_move (g g' : gset K) (h h' : option K) : Prop :=
  (g' = g /\ (h' = None \/ h' = h)) \/
  (exists c, (c ∉ g) /\ g' = {[c]} ∪ g /\ h' = Some c) \/
  (exists c, h = Some c /\ h' = None /\ g' = g ∖ {[c]}).

Lemma guarded_step holds g g' w i t m pg lg t' :
  tasks w !! i = Some t -> guarded holds g w -> guard_move g g' (holds (at_pc t)) (holds (at_pc t')) ->
  guarded holds g' (mkWorld m pg lg (<[i := t']> (tasks w))).
Proof.
  intros Hi Hg Hm j u c Hj Hc.
  assert (Hself : forall j u c, j <> i -> tasks w !! j = Some u -> holds (at_pc u) = Some c -> holds (at_pc t) <> Some c).
  { intros j' u' c' Hne Hj' Hc'. apply (proj2 (Hg j' u' c' Hj' Hc')). exists i, t. split_and!; [congruence|done..]. }
  destruct (other_step w i t m pg lg t' Idle Hi) as [_ Hi']. destruct (decide (j = i)) as [-> |Hne].
  - rewrite Hi' in Hj. injection Hj as <-.
    assert (Hx : forall x, other (mkWorld m pg lg (<[i := t']> (tasks w))) i x -> other w i x) by (intros x; by apply other_step with t).
    destruct Hm as [[-> [Hh|Hh]]|[(c' & Hn & -> & Hh)|(c' & _ & Hh & _)]]; rewrite Hh in Hc; simplify_eq.
    + destruct (Hg i t c Hi Hc) as [? Ho]. split; [done|]. intros x ?%Hx. by apply Ho.
    + split; [set_solver|]. intros x (k & v & Hk & Hv & <-)%Hx Hv'. by destruct (Hg k v c Hv Hv') as [? _].
  - cbn in Hj. rewrite list_lookup_insert_ne in Hj by done. destruct (Hg j u c Hj Hc) as [Hin Ho]. split.
    + destruct Hm as [[-> _]|[(c' & _ & -> & _)|(c' & Hh & _ & ->)]]; [done|set_solver|].
      apply elem_of_difference. split; [done|]. intros ->%elem_of_singleton. by apply (Hself j u c' Hne Hj Hc).
    + intros x (k & v & Hk & Hv & <-). cbn in Hv. destruct (decide (k = i)) as [-> |Hki].
      * rewrite list_lookup_insert_eq in Hv by (by apply lookup_lt_Some in Hi). injection Hv as <-.
        destruct Hm as [[_ [Hh|Hh]]|[(c' & Hn & _ & Hh)|(c' & _ & Hh & _)]]; rewrite Hh; [done|by apply (Hself j u)| |done]. congruence.
      * rewrite list_lookup_insert_ne in Hv by done. apply Ho. by exists k, v.
Qed.

Lemma race_step_guards t m pg lg :
  let '((_, pg', lg'), t') := task_step t (m, pg, lg) in
  guard_move pg pg' (holds_peers (at_pc t)) (holds_peers (at_pc t')) /\
  guard_move lg lg' (holds_local (at_pc t)) (holds_local (at_pc t')).
Proof.
  assert (Hs : forall g h, guard_move g g h None) by (intros; left; split; [done|by left]).
  assert (Hk : forall g h, guard_move g g h h) by (intros; left; split; [done|by right]).
  assert (Ha : forall g c h, c ∉ g -> guard_move g ({[c]} ∪ g) h (Some c)) by (intros g c h ?; right; left; by exists c).
  assert (Hr : forall g c, guard_move g (g ∖ {[c]}) (Some c) None) by (intros g c; right; right; by exists c).
  destruct t as [x rest]. unfold task_step. cbn [at_pc todo].
  destruct x; cbn [holds_peers holds_local]; try (split; [first [apply Hs|apply Hk|apply Hr]..]; fail).
  1: { destruct rest as [|call rest]; [split; apply Hs|]. unfold start, insert_peer.
       destruct call; repeat (case_match; simplify_eq/=); split; first [apply Hs|by apply Ha]. }
  all: unfold release_removed; repeat (case_match; simplify_eq/=); split; first [apply Hs|apply Hr|apply Hk].
Qed.

(** What the guards say to a task that moves. *)
Definition guards_ok (w : World) : Prop :=
  guarded holds_peers (peer_guards w) w /\ guarded holds_local (local_guards w) w.

Lemma guards_step w i t m pg lg t' :
  tasks w !! i = Some t -> task_step t (shared w, peer_guards w, local_guards w) = ((m, pg, lg), t') -> guards_ok w ->
  guards_ok (mkWorld m pg lg (<[i := t']> (tasks w))).
Proof.
  intros Hi Ht [Hp Hl]. pose proof (race_step_guards t (shared w) (peer_guards w) (local_guards w)) as Hm. rewrite Ht in Hm.
  destruct Hm as [Hmp Hml]. split; cbn; by eapply guarded_step.
Qed.

Lemma guards_others holds g w i t :
  tasks w !! i = Some t -> guarded holds g w ->
  forall x c, other w i x -> holds x = Some c -> c ∈ g /\ holds (at_pc t) <> Some c.
Proof.
  intros Hi Hg x c (j & u & Hne & Hj & <-) Hc. destruct (Hg j u c Hj Hc) as [Hin Ho]. split; [done|].
  apply Ho. exists i, t. split_and!; [congruence|done..].
Qed.

(** *** The reverse index *)

Abbreviation interest := IM.get_peer_interest.
Abbreviation contracts := IM.get_contracts_for_peer.

(** [T x]: some task stands at [x].  A pair whose reverse entry is being written is present, one
    whose reverse entry is being removed is absent, and for every other pair the two maps
    agree. *)
Definition rev_ok (m : Manager) (T : pc -> Prop) : Prop :=
  forall c p,
    (T (RegContracts c p) -> is_Some (interest c p m)) /\
    (T (RemContracts c p) -> interest c p m = None) /\
    (~ T (RegContracts c p) -> ~ T (RemContracts c p) -> is_Some (interest c p m) <-> c ∈ contracts p m).

Definition with_task (x : pc) (O : pc -> Prop) (y : pc) : Prop := y = x \/ O y.

Definition quiet (x : pc) : Prop := match x with RegContracts _ _ | RemContracts _ _ => False | _ => True end.

Lemma rev_same m m' x x' O :
  quiet x -> quiet x' ->
  (forall c p, is_Some (interest c p m') <-> is_Some (interest c p m)) ->
  (forall c p, c ∈ contracts p m' <-> c ∈ contracts p m) ->
  rev_ok m (with_task x O) -> rev_ok m' (with_task x' O).
Proof.
  intros Hx Hx' Hi Hc H c p. destruct (H c p) as (H1 & H2 & H3).
  assert (Ht : forall y, ~ quiet y -> with_task x' O y <-> with_task x O y).
  { intros y Hy. unfold with_task. split; (intros [-> |]; [done|by right]). }
  rewrite !(Ht (RegContracts c p)), !(Ht (RemContracts c p)) by (by intros []). split_and!.
  - intros ?%H1. by apply Hi.
  - intros Hn%H2. apply eq_None_not_Some. rewrite Hi, Hn. by intros [].
  - intros ? ?. rewrite Hi, Hc. by apply H3.
Qed.

Section rev_step.
Variables (m : Manager) (pg : gset K) (x : pc) (O : pc -> Prop).
Hypothesis others : forall y c, O y -> holds_peers y = Some c -> c ∈ pg /\ holds_peers x <> Some c.
Hypothesis rev : rev_ok m (with_task x O).

(** The contract's guard is taken, so the pair is nobody else's. *)
Lemma rev_acquire x' c0 p0 v m' :
  quiet x -> c0 ∉ pg -> x' = (match v with Some _ => RegContracts c0 p0 | None => RemContracts c0 p0 end) ->
  IM.pair_update c0 p0 v m m' -> (forall p, contracts p m' = contracts p m) ->
  rev_ok m' (with_task x' O).
Proof.
  intros Hq Hfree -> Hu Hc c p. destruct (rev c p) as (H1 & H2 & H3). unfold with_task in *.
  assert (Hno : forall y, O y -> holds_peers y <> Some c0) by (intros y Hy Hh; by destruct (others y c0 Hy Hh)).
  destruct (decide ((c, p) = (c0, p0))) as [[= -> ->]|Hne].
  - specialize (Hu c0 p0). rewrite decide_True in Hu by done. rewrite Hu, Hc.
    pose proof (Hno (RegContracts c0 p0)). pose proof (Hno (RemContracts c0 p0)). destruct v; naive_solver.
  - specialize (Hu c p). rewrite decide_False in Hu by done. rewrite Hu, Hc.
    assert (Hr : RegContracts c p <> x) by (by intros <-). assert (Hr' : RemContracts c p <> x) by (by intros <-).
    split_and!; [intros [?|?]|intros [?|?]|intros Ha Hb]; [destruct v; naive_solver|by apply H1; right|destruct v; naive_solver|by apply H2; right|].
    apply H3; intros [?|?]; try done; [apply Ha|apply Hb]; by right.
Qed.

(** The reverse entry of the guarded pair is written. *)
Lemma rev_write x' c0 p0 m' (present : bool) :
  quiet x' -> x = (if present then RegContracts c0 p0 else RemContracts c0 p0) ->
  (forall c p, interest c p m' = interest c p m) ->
  (forall c p, c ∈ contracts p m' <-> if decide ((c, p) = (c0, p0)) then present = true else c ∈ contracts p m) ->
  rev_ok m' (with_task x' O).
Proof.
  intros Hq Hx Hi Hc c p. destruct (rev c p) as (H1 & H2 & H3). unfold with_task in *. rewrite Hi, Hc.
  assert (Hno : forall y, O y -> holds_peers y <> Some c0).
  { intros y Hy Hh. destruct (others y c0 Hy Hh) as [_ Ho]. apply Ho. rewrite Hx. by destruct present. }
  assert (Hr : RegContracts c p <> x') by (by intros <-). assert (Hr' : RemContracts c p <> x') by (by intros <-).
  case_decide as Hd.
  - injection Hd as -> ->. pose proof (Hno (RegContracts c0 p0)). pose proof (Hno (RemContracts c0 p0)).
    split_and!; [naive_solver|naive_solver|]. intros _ _. destruct present.
    + split; [done|]. intros _. apply H1. by left.
    + rewrite H2 by (by left). split; [by intros []|done].
  - split_and!; [naive_solver|naive_solver|]. intros Ha Hb. apply H3; intros [Hy|Hy]; [|naive_solver| |naive_solver];
      rewrite Hx in Hy; destruct present; naive_solver.
Qed.

End rev_step.

Lemma interest_refill (c : K) (m : Manager) (c' : K) (p : P) :
  interest c' p (IM.with_peers (<[c := default ∅ (IM.interested_peers m !! c)]> (IM.interested_peers m)) m) = interest c' p m.
Proof.
  unfold IM.get_peer_interest. cbn. destruct (decide (c' = c)) as [-> |]; [|by rewrite lookup_insert_ne].
  rewrite lookup_insert_eq. destruct (IM.interested_peers m !! c); [done|]. cbn. apply lookup_empty.
Qed.

Lemma interest_delete (c : K) (p : P) entry (m : Manager) :
  IM.interested_peers m !! c = Some entry ->
  IM.pair_update c p None m (IM.with_peers (<[c := delete p entry]> (IM.interested_peers m)) m).
Proof.
  intros Hc c' p'. unfold IM.get_peer_interest. cbn. destruct (decide (c' = c)) as [-> |Hne].
  - rewrite lookup_insert_eq, Hc. cbn. case_decide; simplify_eq; [by rewrite lookup_delete_eq|].
    by rewrite lookup_delete_ne by (intros ->; done).
  - rewrite lookup_insert_ne, decide_False by congruence. done.
Qed.

Lemma interest_erase (c : K) (m : Manager) (c' : K) (p : P) :
  empty_entry (IM.interested_peers m !! c) = true ->
  interest c' p (IM.with_peers (delete c (IM.interested_peers m)) m) = interest c' p m.
Proof.
  unfold empty_entry, IM.get_peer_interest. cbn. destruct (IM.interested_peers m !! c) as [e|] eqn:E; [|done].
  rewrite bool_decide_eq_true. intros ->. destruct (decide (c' = c)) as [-> |]; [|by rewrite lookup_delete_ne].
  rewrite lookup_delete_eq, E. cbn. by rewrite lookup_empty.
Qed.

Lemma start_rev call rest m pg lg O m' pg' lg' t' :
  (forall y c, O y -> holds_peers y = Some c -> c ∈ pg /\ holds_peers Idle <> Some c) ->
  start call rest (m, pg, lg) = ((m', pg', lg'), t') ->
  rev_ok m (with_task Idle O) -> rev_ok m' (with_task (at_pc t') O).
Proof.
  intros Ho Hs Hr.
  assert (Hsame : forall m', (forall c p, interest c p m' = interest c p m) -> (forall p, contracts p m' = contracts p m) ->
                             forall x, quiet x -> rev_ok m' (with_task x O)).
  { intros m2 Hi Hc x Hx. eapply rev_same; [..|exact Hr]; [done|done|intros; by rewrite Hi|intros; by rewrite Hc]. }
  destruct call; unfold start, insert_peer in Hs.
  - case_decide; [by simplify_eq|]. case_match; simplify_eq.
    + apply Hsame; [apply interest_refill|done|done].
    + by eapply (rev_acquire m pg Idle O Ho Hr _ c p (Some _)); [..|apply IM.get_insert_entry|].
  - case_decide; [by simplify_eq|]. repeat case_match; simplify_eq.
    + pose proof (IM.get_insert_entry c p (IM.set_summary s now p0) m) as Hu.
      eapply rev_same; [..|exact Hr]; [done|done| |done]. intros c' p'. rewrite Hu. case_decide as Hd; [|done]. simplify_eq.
      assert (is_Some (interest c p m)) by (unfold IM.get_peer_interest; destruct (IM.interested_peers m !! c); [by eexists|done]).
      split; [done|by eexists].
    + apply Hsame; [apply interest_refill|done|done].
    + by eapply (rev_acquire m pg Idle O Ho Hr _ c p (Some _)); [..|apply IM.get_insert_entry|].
  - case_decide; [by simplify_eq|]. destruct (IM.interested_peers m !! c) as [entry|] eqn:E; [|by simplify_eq].
    case_bool_decide as Hp; simplify_eq.
    + by eapply (rev_acquire m pg Idle O Ho Hr _ c p None); [..|by apply interest_delete|].
    + rewrite (delete_id entry) by (by apply eq_None_not_Some). rewrite insert_id by done.
      apply Hsame; [by destruct m|by destruct m|]. by case_match.
  - by simplify_eq.
  - case_decide; [by simplify_eq|]. simplify_eq. by apply Hsame.
  - case_decide; [by simplify_eq|]. repeat case_match; simplify_eq; by apply Hsame.
Qed.

Lemma rem_contracts_effect c p rest m pg lg m' pg' lg' t' :
  task_step (mkTask (RemContracts c p) rest) (m, pg, lg) = ((m', pg', lg'), t') ->
  (forall c p, interest c p m' = interest c p m) /\
  (forall c' p', c' ∈ contracts p' m' <-> if decide ((c', p') = (c, p)) then false = true else c' ∈ contracts p' m) /\
  quiet (at_pc t').
Proof.
  unfold task_step, release_removed. cbn [at_pc todo]. intros Ht. destruct (IM.peer_contracts m !! p) as [cs|] eqn:E.
  - assert (m' = IM.with_contracts (<[p := cs ∖ {[c]}]> (IM.peer_contracts m)) m /\ quiet (at_pc t')) as [-> Hq]
      by (repeat (case_match; simplify_eq/=); done).
    split_and!; [done| |done]. clear Ht. intros c' p'. unfold IM.get_contracts_for_peer. cbn.
    destruct (decide (p' = p)) as [-> |]; [rewrite lookup_insert_eq, E|by rewrite lookup_insert_ne, decide_False by congruence]. cbn.
    case_decide as Hd; [simplify_eq|assert (c' <> c) by congruence]; set_solver.
  - simplify_eq/=. split_and!; [done| |by case_match]. intros c' p'. case_decide; [|done]. simplify_eq.
    unfold IM.get_contracts_for_peer. rewrite E. cbn. set_solver.
Qed.

Lemma task_step_rev t m pg lg O m' pg' lg' t' :
  (forall y c, O y -> holds_peers y = Some c -> c ∈ pg /\ holds_peers (at_pc t) <> Some c) ->
  task_step t (m, pg, lg) = ((m', pg', lg'), t') ->
  rev_ok m (with_task (at_pc t) O) -> rev_ok m' (with_task (at_pc t') O).
Proof.
  intros Ho Ht Hr.
  assert (Hsame : quiet (at_pc t) -> forall m', (forall c p, interest c p m' = interest c p m) ->
    (forall c p, c ∈ contracts p m' <-> c ∈ contracts p m) -> forall x, quiet x -> rev_ok m' (with_task x O)).
  { intros Hq m2 Hi Hc x Hx. eapply rev_same; [..|exact Hr]; [done|done|intros; by rewrite Hi|done]. }
  destruct t as [x rest]. unfold task_step, release_removed in Ht. cbn [at_pc todo] in *. destruct x; cbn [quiet] in Hsame.
  - destruct rest; [by simplify_eq|]. by eapply start_rev.
  - simplify_eq. eapply (rev_write m _ _ O Ho Hr _ c p _ true); [done|done|done|]. intros c' p'. unfold IM.get_contracts_for_peer. cbn.
    destruct (decide (p' = p)) as [-> |]; [rewrite lookup_insert_eq|rewrite lookup_insert_ne by done]; cbn;
      case_decide as Hd; simplify_eq; set_solver.
  - simplify_eq. by apply Hsame.
  - destruct (rem_contracts_effect c p rest m pg lg m' pg' lg' t' Ht) as (Hi & Hc & Hq).
    by eapply (rev_write m _ _ O Ho Hr _ c p _ false).
  - apply Hsame; [done|..].
    + intros c' p'. by repeat (case_match; simplify_eq/=).
    + intros c' p'. unfold IM.get_contracts_for_peer. case_bool_decide as Hb; simplify_eq/=; [|done].
      destruct (decide (p' = p)) as [-> |]; [by rewrite lookup_delete_eq, Hb|by rewrite lookup_delete_ne].
    + by repeat (case_match; simplify_eq/=).
  - case_decide; [by simplify_eq|]. case_match eqn:E; simplify_eq; apply Hsame; try done. intros c' p'. by apply interest_erase.
  - simplify_eq. by apply Hsame.
  - case_decide; simplify_eq; [done|by apply Hsame].
  - case_decide; simplify_eq; [done|]. apply Hsame; try done. by case_match.
  - case_decide; simplify_eq; [done|]. apply Hsame; try done. by case_match.
  - repeat case_match; simplify_eq; by apply Hsame.
  - simplify_eq. by apply Hsame.
  - simplify_eq. by apply Hsame.
Qed.

(** *** The hash index *)

Abbreviation indexed := (IM.indexed id_bytes).

(** Some peer is interested in the contract, or the node itself. *)
Definition live (c : K) (m : Manager) : Prop :=
  (exists ps, IM.interested_peers m !! c = Some ps /\ ps <> ∅) \/ IM.has_local_interest c m = true.

(** A removal that has still to look whether the row of [c] is empty. *)
Definition erasing (c : K) (x : pc) : Prop :=
  match x with RemContracts c' _ | RemEmpty c' _ | RemErase c' => c' = c | _ => False end.

(** A removal that has still to decide on the index entry of [c], or to drop it. *)
Definition cleaning (c : K) (x : pc) : Prop :=
  match x with
  | RemContracts c' _ | RemEmpty c' _ | RemErase c' | LocErase c' | CleanPeers c' | CleanLocal c' | CleanIndex c' => c' = c
  | _ => False
  end.

Definition registering (c : K) (x : pc) : Prop := match x with RegContracts c' _ | RegIndex c' => c' = c | _ => False end.

Record contract_ok (n : Z) (m : Manager) (T : pc -> Prop) (c : K) : Prop := {
  ok_empty : IM.interested_peers m !! c = Some ∅ -> exists x, T x /\ erasing c x;
  ok_guard x : T x -> holds_peers x = Some c -> is_Some (IM.interested_peers m !! c);
  ok_registering x : T x -> registering c x -> exists ps, IM.interested_peers m !! c = Some ps /\ ps <> ∅;
  ok_local l : IM.local_interests m !! c = Some l -> IM.counts_ok n l /\ (IM.is_interested l = true \/ T (LocErase c));
  ok_indexing : T (LocIndex c) -> IM.has_local_interest c m = true;
  ok_index : indexed m c -> live c m \/ exists x, T x /\ cleaning c x;
}.

(** A task that goes on has the obligations it had, or hands them on. *)
Definition hands_on (c : K) (x x' : pc) : Prop :=
  (erasing c x -> erasing c x') /\ (cleaning c x -> cleaning c x') /\ (x = LocErase c -> x' = LocErase c) /\
  (holds_peers x' = Some c -> holds_peers x = Some c) /\ (registering c x' -> registering c x) /\ (x' = LocIndex c -> x = LocIndex c).

Definition same_at (c : K) (m m' : Manager) : Prop :=
  IM.interested_peers m' !! c = IM.interested_peers m !! c /\ IM.local_interests m' !! c = IM.local_interests m !! c /\
  (indexed m' c -> indexed m c).

Lemma counts_mono n l : IM.counts_ok n l -> IM.counts_ok (n + 1) l.
Proof. unfold IM.counts_ok. lia. Qed.

Lemma same_live c m m' : same_at c m m' -> live c m' <-> live c m.
Proof. intros (H1 & H2 & _). unfold live, IM.has_local_interest. by rewrite H1, H2. Qed.

Lemma ok_hands_on n m m' x x' O c :
  same_at c m m' -> hands_on c x x' -> contract_ok n m (with_task x O) c -> contract_ok (n + 1) m' (with_task x' O) c.
Proof.
  intros Hs (E1 & E2 & E3 & E4 & E5 & E6) []. pose proof (same_live c m m' Hs) as Hv. destruct Hs as (S1 & S2 & S3).
  unfold with_task in *. split.
  - rewrite S1. intros (y & [-> |Hy] & He)%ok_empty0; [exists x'; split; [by left|by apply E1]|exists y; split; [by right|done]].
  - rewrite S1. intros y [-> |Hy] Hh; [apply (ok_guard0 x); [by left|by apply E4]|apply (ok_guard0 y); [by right|done]].
  - rewrite S1. intros y [-> |Hy] Hh; [apply (ok_registering0 x); [by left|by apply E5]|apply (ok_registering0 y); [by right|done]].
  - rewrite S2. intros l [Hc Hl]%ok_local0. split; [by apply counts_mono|]. destruct Hl as [|[Hl|]]; [by left| |by right; right].
    right. left. symmetry. apply E3. by symmetry.
  - unfold IM.has_local_interest in *. rewrite S2. intros [Hl|Hl]; apply ok_indexing0; [left; symmetry; by apply E6|by right].
  - rewrite Hv. intros [Hl|(y & [-> |Hy] & Hc)]%S3%ok_index0; [by left|right; exists x'; split; [by left|by apply E2]|].
    right. exists y. split; [by right|done].
Qed.

(** *** Steps that change what a contract's indexes hold *)

Lemma indexed_insert c (m : Manager) c' : indexed (IM.index_contract_hash id_bytes c m) c' <-> c' = c \/ indexed m c'.
Proof.
  unfold IM.indexed, IM.lookup_by_hash, IM.index_contract_hash. cbn. set (e := default [] (IM.contract_hash_index m !! hash c)).
  destruct (decide (hash c = hash c')) as [Hq|Hq].
  - rewrite <- Hq, lookup_insert_eq. cbn. fold e. case_bool_decide; set_solver.
  - rewrite lookup_insert_ne by done. split; [by right|]. by intros [-> |].
Qed.

Lemma indexed_retain c (m : Manager) e c' :
  IM.contract_hash_index m !! hash c = Some e ->
  indexed (IM.with_index (<[hash c := List.filter (fun c' => negb (bool_decide (c' = c))) e]> (IM.contract_hash_index m)) m) c' <->
  c' <> c /\ indexed m c'.
Proof.
  intros He. unfold IM.indexed, IM.lookup_by_hash. cbn. destruct (decide (hash c = hash c')) as [Hq|Hq].
  - rewrite <- Hq, lookup_insert_eq, He. cbn. rewrite !list_elem_of_In, filter_In, negb_true_iff, bool_decide_eq_false. tauto.
  - rewrite lookup_insert_ne by done. split; [|by intros []]. intros ?. split; [by intros ->|done].
Qed.

Lemma indexed_drop c (m : Manager) c' :
  indexed (IM.with_index (delete (hash c) (IM.contract_hash_index m)) m) c' -> c' <> c /\ indexed m c'.
Proof.
  unfold IM.indexed, IM.lookup_by_hash. cbn. destruct (decide (hash c = hash c')) as [Hq|Hq].
  - rewrite <- Hq, lookup_delete_eq. cbn. by intros ?%not_elem_of_nil.
  - rewrite lookup_delete_ne by done. intros ?. split; [by intros ->|done].
Qed.

Lemma registering_holds c y : registering c y -> holds_peers y = Some c.
Proof. destruct y; cbn; naive_solver. Qed.

Section index_step.
Variables (n : Z) (m m' : Manager) (pg lg : gset K) (x x' : pc) (O : pc -> Prop) (c : K).
Hypothesis peer_others : forall y c, O y -> holds_peers y = Some c -> c ∈ pg /\ holds_peers x <> Some c.
Hypothesis local_others : forall y c, O y -> holds_local y = Some c -> c ∈ lg /\ holds_local x <> Some c.
Hypothesis before : contract_ok n m (with_task x O) c.

Lemma no_registering : c ∉ pg \/ holds_peers x = Some c -> forall y, O y -> ~ holds_peers y = Some c.
Proof. intros Hf y Hy Hr. destruct (peer_others y c Hy Hr) as [H1 H2]. by destruct Hf. Qed.

Lemma no_indexing : c ∉ lg \/ holds_local x = Some c -> ~ O (LocIndex c).
Proof. intros Hf Hy. destruct (local_others _ c Hy eq_refl) as [H1 H2]. by destruct Hf. Qed.

(** The row of the contract becomes [ps], by a call that starts without its guard taken. *)
Lemma ok_row ps :
  x = Idle -> c ∉ pg -> IM.interested_peers m' !! c = Some ps -> IM.local_interests m' = IM.local_interests m ->
  (ps <> ∅ /\ ~ erasing c x' /\ ~ cleaning c x' \/ erasing c x' /\ cleaning c x' /\ ~ registering c x') -> x' <> LocIndex c ->
  contract_ok (n + 1) m' (with_task x' O) c.
Proof.
  pose proof no_registering as Hno. pose proof before as Hb. clear before peer_others local_others.
  intros -> Hfree Hp Hl Hc Hx. destruct Hb. unfold with_task in *. specialize (Hno (or_introl Hfree)). split.
  - intros He. exists x'. split; [by left|]. destruct Hc as [(Hne & _)|(? & _)]; [congruence|done].
  - intros y _ _. by exists ps.
  - intros y [-> |Hy] Hr; [|by destruct (Hno y Hy), (registering_holds c y Hr)]. exists ps. split; [done|].
    destruct Hc as [(? & _)|(_ & _ & ?)]; done.
  - rewrite Hl. intros l [Hk Hi]%ok_local0. split; [by apply counts_mono|]. destruct Hi as [|[|]]; [by left|done|by right; right].
  - unfold IM.has_local_interest in *. rewrite Hl. intros [|Hy]; [congruence|]. apply ok_indexing0. by right.
  - intros _. destruct Hc as [(Hne & _)|(_ & ? & _)]; [left; left; by exists ps|right; exists x'; split; [by left|done]].
Qed.

(** The reasons for the contract become [l]. *)
Lemma ok_reasons l :
  x = Idle -> c ∉ lg -> IM.local_interests m' !! c = Some l -> IM.interested_peers m' = IM.interested_peers m ->
  (forall c, indexed m' c -> indexed m c) -> IM.counts_ok (n + 1) l ->
  (IM.is_interested l = true /\ (x' = LocIndex c \/ x' = Idle) \/ x' = LocErase c) ->
  contract_ok (n + 1) m' (with_task x' O) c.
Proof.
  pose proof no_indexing as Hno. pose proof before as Hb. clear before peer_others local_others.
  intros -> Hfree Hl Hp Hx Hk Hc. destruct Hb. unfold with_task in *. specialize (Hno (or_introl Hfree)).
  assert (Hq : holds_peers x' = None) by (destruct Hc as [[_ [-> | ->]]| ->]; done).
  split.
  - rewrite Hp. intros (y & [-> |Hy] & He)%ok_empty0; [done|]. exists y. split; [by right|done].
  - rewrite Hp. intros y [-> |Hy] Hh; [congruence|]. apply (ok_guard0 y); [by right|done].
  - rewrite Hp. intros y [-> |Hy] Hh; [apply registering_holds in Hh; congruence|]. apply (ok_registering0 y); [by right|done].
  - intros l'. rewrite Hl. intros [= <-]. split; [done|]. destruct Hc as [[? _]| ->]; [by left|by right; left].
  - unfold IM.has_local_interest. rewrite Hl. intros [<-|Hy]; [|done]. by destruct Hc as [[? _]|?].
  - intros _. destruct Hc as [[Hi _]| ->]; [left; right; unfold IM.has_local_interest; by rewrite Hl|].
    right. exists (LocErase c). split; [by left|done].
Qed.

(** A cleanup takes over from a task that dropped an empty row or an entry without reason. *)
Lemma ok_takes_over :
  x' = CleanPeers c ->
  (x = RemErase c /\ (c ∉ pg) /\ (IM.interested_peers m' !! c = None \/
     IM.interested_peers m' !! c = IM.interested_peers m !! c /\ IM.interested_peers m !! c <> Some ∅) /\ IM.local_interests m' = IM.local_interests m \/
   x = LocErase c /\ (c ∉ lg) /\ IM.interested_peers m' = IM.interested_peers m /\ IM.local_interests m' !! c = None) ->
  contract_ok (n + 1) m' (with_task x' O) c.
Proof.
  pose proof no_registering as Hnr. pose proof no_indexing as Hni. pose proof before as Hb. clear before peer_others local_others.
  intros -> Hc. destruct Hb. unfold with_task in *.
  assert (Hi : indexed m' c -> live c m' \/ exists y, (y = CleanPeers c \/ O y) /\ cleaning c y)
    by (intros _; right; exists (CleanPeers c); split; [by left|done]).
  destruct Hc as [(-> & Hfree & Hp & Hl)|(-> & Hfree & Hp & Hl)]; split; try exact Hi.
  - intros He. destruct Hp as [Hp|[Hp Hne]]; congruence.
  - intros y [-> |Hy] Hh; [done|]. by destruct (Hnr (or_introl Hfree) y).
  - intros y [-> |Hy] Hh; [done|]. by destruct (Hnr (or_introl Hfree) y Hy), (registering_holds c y Hh).
  - rewrite Hl. intros l [Hk Hj]%ok_local0. split; [by apply counts_mono|]. destruct Hj as [|[|]]; [by left|done|by right; right].
  - unfold IM.has_local_interest in *. rewrite Hl. intros [|Hy]; [done|]. apply ok_indexing0. by right.
  - rewrite Hp. intros (y & [-> |Hy] & Hy')%ok_empty0; [done|]. exists y. split; [by right|done].
  - rewrite Hp. intros y [-> |Hy] Hh; [done|]. apply (ok_guard0 y); [by right|done].
  - rewrite Hp. intros y [-> |Hy] Hh; [done|]. apply (ok_registering0 y); [by right|done].
  - intros l. by rewrite Hl.
  - intros [|Hy]; [done|]. by destruct (Hni (or_introl Hfree)).
Qed.

(** A task is done with the contract: it is live, in the care of others, or not indexed. *)
Lemma ok_settled :
  IM.interested_peers m' !! c = IM.interested_peers m !! c -> IM.local_interests m' !! c = IM.local_interests m !! c ->
  ~ erasing c x \/ IM.interested_peers m !! c <> Some ∅ -> x <> LocErase c -> holds_peers x' = None -> x' <> LocIndex c ->
  (indexed m' c -> live c m \/ exists y, O y /\ cleaning c y) -> contract_ok (n + 1) m' (with_task x' O) c.
Proof.
  intros Hp Hl He Hx Hh Hx' Hi. destruct before. unfold with_task in *. split.
  - rewrite Hp. intros Hn. destruct (ok_empty0 Hn) as (y & [-> |Hy] & Hy'); [by destruct He|]. exists y. split; [by right|done].
  - rewrite Hp. intros y [-> |Hy] Hy'; [congruence|]. apply (ok_guard0 y); [by right|done].
  - rewrite Hp. intros y [-> |Hy] Hy'; [apply registering_holds in Hy'; congruence|]. apply (ok_registering0 y); [by right|done].
  - rewrite Hl. intros l [Hk Hj]%ok_local0. split; [by apply counts_mono|]. destruct Hj as [|[|]]; [by left|congruence|by right; right].
  - unfold IM.has_local_interest in *. rewrite Hl. intros [|Hy]; [congruence|]. apply ok_indexing0. by right.
  - unfold live, IM.has_local_interest in *. rewrite Hp, Hl. intros [Hv|(y & Hy & Hc)]%Hi; [by left|]. right. exists y. split; [by right|done].
Qed.

End index_step.

Lemma added_ok n r l : n < u64_max -> IM.counts_ok n l -> IM.local_ok (n + 1) (add_reason r l).1.
Proof.
  intros Hn Hl. destruct r; cbn [add_reason].
  - destruct Hl. split_and!; [done|cbn; lia..].
  - destruct (IM.client_added n l Hn Hl) as [-> H]. exact H.
  - destruct (IM.downstream_added n l Hn Hl) as [-> H]. exact H.
Qed.

Lemma removed_ok n r l :
  IM.counts_ok n l ->
  IM.counts_ok (n + 1) (remove_reason r l).1 /\ (remove_reason r l).2 = negb (IM.is_interested (remove_reason r l).1).
Proof.
  intros [H1 H2]. split; [|by destruct r]. destruct r; split; cbn; unfold sat_sub; lia.
Qed.

(** A step on one contract leaves the others what they were. *)
Definition about (c : K) (x : pc) : Prop :=
  match x with
  | Idle => False
  | RegContracts c' _ | RegIndex c' | RemContracts c' _ | RemEmpty c' _ | RemErase c' | LocIndex c' | LocErase c'
  | CleanPeers c' | CleanLocal c' | CleanIndex c' | CleanBucket c' | CleanNotify c' => c' = c
  end.

Lemma about_hands_on c x x' : ~ about c x -> ~ about c x' -> hands_on c x x'.
Proof. unfold hands_on. destruct x, x'; cbn; naive_solver. Qed.

Lemma ok_frame n m m' x x' O c :
  same_at c m m' -> ~ about c x -> ~ about c x' -> contract_ok n m (with_task x O) c -> contract_ok (n + 1) m' (with_task x' O) c.
Proof. intros Hs Hx Hx'. apply ok_hands_on; [done|by apply about_hands_on]. Qed.

Lemma row_index n m (pg : gset K) O c p i x' c0 :
  (forall y c, O y -> holds_peers y = Some c -> c ∈ pg /\ holds_peers Idle <> Some c) ->
  (forall c, contract_ok n m (with_task Idle O) c) -> c ∉ pg -> x' = RegContracts c p \/ x' = Idle ->
  contract_ok (n + 1) (IM.with_peers (<[c := <[p := i]> (default ∅ (IM.interested_peers m !! c))]> (IM.interested_peers m)) m) (with_task x' O) c0.
Proof.
  intros Hp Hok Hc Hx. destruct (decide (c0 = c)) as [-> |Hne].
  - eapply (ok_row n m _ pg Idle x' O c Hp (Hok c)); [done|done|apply lookup_insert_eq|done| |by destruct Hx as [-> | ->]].
    left. split; [apply insert_non_empty|]. destruct Hx as [-> | ->]; split; by intros [].
  - eapply (ok_frame n m _ Idle); [|by intros []| |apply Hok]; [by split_and!; [apply lookup_insert_ne|..]|].
    destruct Hx as [-> | ->]; cbn; congruence.
Qed.

(** A row at its cap is not the default one: taking it out and putting it back changes nothing. *)
Lemma full_row c (m : Manager) :
  (IM.MAX_INTERESTED_PEERS_PER_CONTRACT <=? Z.of_nat (size (default ∅ (IM.interested_peers m !! c)))) = true ->
  IM.with_peers (<[c := default ∅ (IM.interested_peers m !! c)]> (IM.interested_peers m)) m = m.
Proof.
  destruct (IM.interested_peers m !! c) eqn:E; [|cbn; by rewrite map_size_empty]. cbn. intros _. rewrite insert_id by done. by destruct m.
Qed.

Lemma start_index n call rest m pg lg O m' pg' lg' t' :
  0 <= n < u64_max ->
  (forall y c, O y -> holds_peers y = Some c -> c ∈ pg /\ holds_peers Idle <> Some c) ->
  (forall y c, O y -> holds_local y = Some c -> c ∈ lg /\ holds_local Idle <> Some c) ->
  start call rest (m, pg, lg) = ((m', pg', lg'), t') ->
  (forall c, contract_ok n m (with_task Idle O) c) -> forall c, contract_ok (n + 1) m' (with_task (at_pc t') O) c.
Proof.
  intros Hn Hp Hl Hs Hok c0.
  assert (Hid : forall x', (forall c, hands_on c Idle x') -> contract_ok (n + 1) m (with_task x' O) c0)
    by (intros x' Hx; eapply ok_hands_on; [|apply Hx|apply Hok]; done).
  assert (Hidle : contract_ok (n + 1) m (with_task Idle O) c0) by (apply Hid; intros; by split_and!).
  pose proof (fun c p i x' => row_index n m pg O c p i x' c0 Hp Hok) as Hrow.
  destruct call; unfold start, insert_peer in Hs.
  - case_decide; [by simplify_eq|]. case_match eqn:E; simplify_eq; [|by apply (Hrow c p); [|left]].
    apply andb_true_iff in E as [_ E]. by rewrite full_row.
  - case_decide; [by simplify_eq|]. repeat case_match; simplify_eq; [by apply (Hrow c p); [|right]|by rewrite full_row|by apply (Hrow c p); [|left]].
  - case_decide; [by simplify_eq|]. destruct (IM.interested_peers m !! c) as [e|] eqn:E; [|by simplify_eq].
    case_bool_decide as Hb; simplify_eq; [|rewrite delete_id, insert_id by (done || by apply eq_None_not_Some)].
    + destruct (decide (c0 = c)) as [-> |Hne].
      * by eapply (ok_row n m _ pg Idle _ O c Hp (Hok c)); [done|done|apply lookup_insert_eq|done|right; split_and!; [done|done|by intros []]|].
      * eapply (ok_frame n m _ Idle); [|by intros []| |apply Hok]; [by split_and!; [apply lookup_insert_ne|..]|cbn; congruence].
    + replace (IM.with_peers (IM.interested_peers m) m) with m by (by destruct m). apply Hid.
      intros c1. unfold hands_on. case_match; cbn; naive_solver.
  - by simplify_eq.
  - case_decide as Hd; [by simplify_eq|]. simplify_eq. destruct (decide (c0 = c)) as [-> |Hne].
    + assert (Hc : IM.counts_ok n (default IM.local_default (IM.local_interests m !! c))).
      { destruct (IM.local_interests m !! c) as [l|] eqn:E; [by apply (ok_local _ _ _ _ (Hok c))|cbn; split; cbn; lia]. }
      destruct (added_ok n r _ (proj2 Hn) Hc) as (Hi & H1 & H2).
      eapply (ok_reasons n m _ lg Idle _ O c Hl (Hok c)); [done|done|apply lookup_insert_eq|done|done|done|]. left. split; [done|by left].
    + eapply (ok_frame n m _ Idle); [|by intros []| |apply Hok]; [by split_and!; [|apply lookup_insert_ne|]|cbn; congruence].
  - case_decide as Hd; [by simplify_eq|]. destruct (IM.local_interests m !! c) as [l|] eqn:E; [|by simplify_eq].
    destruct (removed_ok n r l (proj1 (ok_local _ _ _ _ (Hok c) l E))) as [Hc Hlost].
    destruct (remove_reason r l) as [l' lost]. cbn [fst snd] in *. simplify_eq. destruct (decide (c0 = c)) as [-> |Hne].
    + eapply (ok_reasons n m _ _ Idle _ O c Hl (Hok c)); [done|done|apply lookup_insert_eq|done|done|done|].
      destruct (IM.is_interested l'); cbn; [left; split; [done|by right]|by right].
    + eapply (ok_frame n m _ Idle); [|by intros []| |apply Hok]; [by split_and!; [|apply lookup_insert_ne|]|]. destruct (IM.is_interested l'); cbn; congruence.
Qed.

(** The end of the guarded part of a removal: the row is there, since nobody else could touch
    it. *)
Lemma release_index n c rest m m' pg lg O m'' pg' lg' t' x :
  release_removed c rest (m', pg, lg) = ((m'', pg', lg'), t') ->
  IM.interested_peers m' = IM.interested_peers m -> IM.local_interests m' = IM.local_interests m ->
  IM.contract_hash_index m' = IM.contract_hash_index m ->
  holds_peers x = Some c -> erasing c x -> cleaning c x -> about c x ->
  (forall c, contract_ok n m (with_task x O) c) -> forall c, contract_ok (n + 1) m'' (with_task (at_pc t') O) c.
Proof.
  unfold release_removed. intros Hs Hp Hl Hx Hh He Hc Ha Hok c0. simplify_eq/=.
  assert (Hsame : forall c, same_at c m m'') by (intros; unfold same_at, IM.indexed, IM.lookup_by_hash; by rewrite Hp, Hl, Hx).
  assert (Hne : x <> LocErase c) by (by intros ->).
  destruct (decide (c0 = c)) as [-> |Hd].
  2: { eapply (ok_frame n m _ x); [apply Hsame| | |apply Hok]; [destruct x; cbn in *; congruence|]. by case_match; cbn; congruence || intros []. }
  destruct (ok_guard _ _ _ _ (Hok c) x (or_introl eq_refl) Hh) as [ps Hps]. rewrite Hp, Hps. cbn [empty_entry].
  case_bool_decide as Hb.
  - eapply ok_hands_on; [apply Hsame| |apply Hok]. unfold hands_on. cbn. naive_solver.
  - destruct (Hsame c) as (S1 & S2 & S3). eapply (ok_settled n m _ x); [apply Hok|done|done|right; congruence|done|done|done|].
    intros _. left. left. by exists ps.
Qed.

Lemma clean_index_effect c rest m pg lg m' pg' lg' t' :
  task_step (mkTask (CleanIndex c) rest) (m, pg, lg) = ((m', pg', lg'), t') ->
  IM.interested_peers m' = IM.interested_peers m /\ IM.local_interests m' = IM.local_interests m /\
  (forall c', indexed m' c' -> c' <> c /\ indexed m c') /\ (at_pc t' = CleanBucket c \/ at_pc t' = CleanNotify c).
Proof.
  unfold task_step. cbn [at_pc todo]. intros Hs.
  destruct (IM.contract_hash_index m !! hash c) as [e|] eqn:E; simplify_eq; (split_and!; [done|done|..]).
  - intros c'. by rewrite indexed_retain.
  - cbn. case_match; [by left|by right].
  - intros c' Hi. split; [|done]. intros ->. unfold IM.indexed, IM.lookup_by_hash in Hi. rewrite E in Hi. by apply not_elem_of_nil in Hi.
  - by right.
Qed.

Lemma task_step_index n t m pg lg O m' pg' lg' t' :
  0 <= n < u64_max ->
  (forall y c, O y -> holds_peers y = Some c -> c ∈ pg /\ holds_peers (at_pc t) <> Some c) ->
  (forall y c, O y -> holds_local y = Some c -> c ∈ lg /\ holds_local (at_pc t) <> Some c) ->
  task_step t (m, pg, lg) = ((m', pg', lg'), t') ->
  (forall c, contract_ok n m (with_task (at_pc t) O) c) -> forall c, contract_ok (n + 1) m' (with_task (at_pc t') O) c.
Proof.
  intros Hn Hp Hl Hs Hok c0. destruct t as [x rest]. unfold task_step in Hs. cbn [at_pc todo] in *.
  assert (Hstay : contract_ok (n + 1) m (with_task x O) c0) by (eapply ok_hands_on; [..|apply Hok]; [done|by split_and!]).
  assert (Hgo : forall m' x' c, about c x -> ~ about c0 x -> (about c x' \/ x' = Idle) -> same_at c0 m m' ->
    contract_ok (n + 1) m' (with_task x' O) c0).
  { intros m2 x2 c Ha Hna Hx Hsm. eapply ok_frame; [exact Hsm|exact Hna| |apply Hok].
    destruct x; cbn in Ha, Hna; try done; destruct Hx as [Hx| ->]; try (by intros []); destruct x2; cbn in *; congruence. }
  destruct x; cbn [at_pc] in *.
  - destruct rest; [by simplify_eq|]. by eapply start_index.
  - simplify_eq. eapply ok_hands_on; [..|apply Hok]; [done|]. unfold hands_on. cbn. naive_solver.
  - simplify_eq. destruct (decide (c0 = c)) as [-> |Hne].
    + eapply (ok_settled n m _ (RegIndex c)); [apply Hok|done|done|left; by intros []|done|done|done|].
      intros _. left. left. apply (ok_registering _ _ _ _ (Hok c) (RegIndex c)); [by left|done].
    + apply (Hgo _ Idle c); [done|cbn; congruence|by right|]. split_and!; [done..|]. rewrite indexed_insert. naive_solver.
  - destruct (IM.peer_contracts m !! p) as [cs|]; [|by eapply (release_index n c _ m); [exact Hs|..|exact Hok]]. case_bool_decide; [|by eapply (release_index n c _ m); [exact Hs|..|exact Hok]].
    simplify_eq. eapply ok_hands_on; [..|apply Hok]; [done|]. unfold hands_on. cbn. naive_solver.
  - case_bool_decide; by eapply (release_index n c _ m); [exact Hs|..|exact Hok].
  - case_decide; simplify_eq; [done|]. destruct (decide (c0 = c)) as [-> |Hne].
    + eapply ok_takes_over; [done|done|apply Hok|done|]. left. split_and!; [done|done| |by case_match].
      unfold empty_entry. destruct (IM.interested_peers m !! c) as [e|] eqn:E; [|right; by rewrite E].
      case_bool_decide; [left; apply lookup_delete_eq|right; rewrite E; split; [done|congruence]].
    + apply (Hgo _ _ c); [done|cbn; congruence|by left|]. case_match; [|done]. split_and!; [by apply lookup_delete_ne|done..].
  - simplify_eq. destruct (decide (c0 = c)) as [-> |Hne].
    + eapply (ok_settled n m _ (LocIndex c)); [apply Hok|done|done|left; by intros []|done|done|done|].
      intros _. left. right. apply (ok_indexing _ _ _ _ (Hok c)). by left.
    + apply (Hgo _ Idle c); [done|cbn; congruence|by right|]. split_and!; [done..|]. rewrite indexed_insert. naive_solver.
  - case_decide; simplify_eq; [done|]. destruct (decide (c0 = c)) as [-> |Hne].
    + eapply ok_takes_over; [done|done|apply Hok|done|]. right. split_and!; [done|done|done|apply lookup_delete_eq].
    + apply (Hgo _ _ c); [done|cbn; congruence|by left|]. split_and!; [done|by apply lookup_delete_ne|done].
  - case_decide; simplify_eq; [done|]. destruct (decide (c0 = c)) as [-> |Hne];
      [|apply (Hgo _ _ c); [done|cbn; congruence|case_match; [by right|by left]|done]].
    case_bool_decide as Hb; [|eapply ok_hands_on; [..|apply Hok]; [done|unfold hands_on; cbn; naive_solver]].
    eapply (ok_settled n m' _ (CleanPeers c)); [apply Hok|done|done|left; by intros []|done|done|done|]. intros _. destruct Hb as [ps Hps].
    destruct (decide (ps = ∅)) as [-> |Hps']; [|left; left; by exists ps]. right.
    destruct (ok_empty _ _ _ _ (Hok c) Hps) as (y & [-> |Hy] & He); [done|]. exists y. split; [done|]. by destruct y.
  - case_decide; simplify_eq; [done|]. destruct (decide (c0 = c)) as [-> |Hne];
      [|apply (Hgo _ _ c); [done|cbn; congruence|case_match; [by right|by left]|done]].
    case_match eqn:E; [|eapply ok_hands_on; [..|apply Hok]; [done|unfold hands_on; cbn; naive_solver]].
    eapply (ok_settled n m' _ (CleanLocal c)); [apply Hok|done|done|left; by intros []|done|done|done|]. intros _. left. by right.
  - destruct (clean_index_effect c rest m pg lg m' pg' lg' t' Hs) as (X1 & X2 & X3 & X4).
    destruct (decide (c0 = c)) as [-> |Hne].
    + eapply (ok_settled n m _ (CleanIndex c)); [apply Hok|by rewrite X1|by rewrite X2|left; by intros []|done|by destruct X4 as [-> | ->]..|].
      by intros [? _]%X3.
    + apply (Hgo _ _ c); [done|cbn; congruence|left; by destruct X4 as [-> | ->]|]. split_and!; [by rewrite X1|by rewrite X2|by intros [_ ?]%X3].
  - simplify_eq. destruct (decide (c0 = c)) as [-> |Hne].
    + eapply ok_hands_on; [..|apply Hok]; [|unfold hands_on; cbn; naive_solver]. split_and!; [done..|]. by intros [? _]%indexed_drop.
    + apply (Hgo _ _ c); [done|cbn; congruence|by left|]. split_and!; [done..|]. by intros [_ ?]%indexed_drop.
  - simplify_eq. eapply ok_hands_on; [..|apply Hok]; [done|]. unfold hands_on. cbn. naive_solver.
Qed.

(** ** Any schedule *)

Record inv (n : Z) (w : World) : Prop := {
  inv_guards : guards_ok w;
  inv_rev : rev_ok (shared w) (anyone w);
  inv_contracts c : contract_ok n (shared w) (anyone w) c;
}.

Lemma rev_ok_ext m T T' : (forall x, T x <-> T' x) -> rev_ok m T -> rev_ok m T'.
Proof. intros HT H c p. destruct (H c p) as (H1 & H2 & H3). rewrite <- !HT. done. Qed.

Lemma contract_ok_ext n m T T' c : (forall x, T x <-> T' x) -> contract_ok n m T c -> contract_ok n m T' c.
Proof.
  intros HT []. split; setoid_rewrite <- HT; done.
Qed.

Lemma inv_spawn programs : inv 0 (spawn IM.new programs).
Proof.
  assert (Hi : forall x, anyone (spawn IM.new programs) x -> x = Idle).
  { intros x (j & t & Hj & <-). cbn in Hj. apply list_lookup_fmap_Some in Hj as (l & -> & _). done. }
  assert (Hg : forall holds g, holds Idle = None -> guarded holds g (spawn IM.new programs)).
  { intros holds g Hn j t c Hj Hh. rewrite (Hi (at_pc t)) in Hh by (by exists j, t). congruence. }
  split; [split; by apply Hg| |].
  - intros c p. split_and!; [by intros ?%Hi|by intros ?%Hi|]. intros _ _. unfold IM.get_peer_interest, IM.get_contracts_for_peer.
    cbn. rewrite !lookup_empty. cbn. split; [by intros []|set_solver].
  - intros c. split; unfold IM.indexed, IM.lookup_by_hash; cbn; rewrite ?lookup_empty; try done.
    + by intros x ->%Hi.
    + by intros x ->%Hi.
    + by intros ?%Hi.
    + by intros ?%not_elem_of_nil.
Qed.

Lemma inv_step n w i : 0 <= n < u64_max -> inv n w -> inv (n + 1) (step w i).
Proof.
  intros Hn [Hg Hr Hc]. destruct (tasks w !! i) as [t|] eqn:Hi.
  2: { unfold step. rewrite Hi. split; [done..|]. intros c. destruct (Hc c). split; try done.
       intros l [Hk Hl]%ok_local0. split; [by apply counts_mono|done]. }
  pose proof (step_at w i t Hi) as Hs.
  destruct (task_step t (shared w, peer_guards w, local_guards w)) as [[[m pg] lg] t'] eqn:E. rewrite Hs.
  set (w' := mkWorld m pg lg (<[i := t']> (tasks w))).
  assert (Ho : forall x, anyone w x <-> with_task (at_pc t) (other w i) x) by (intros x; by apply anyone_other).
  assert (Ho' : forall x, with_task (at_pc t') (other w i) x <-> anyone w' x).
  { intros x. destruct (other_step w i t m pg lg t' x Hi) as [Hx Ht']. rewrite (anyone_other w' i t' x Ht'). unfold with_task, w'. by rewrite Hx. }
  pose proof (guards_others _ _ w i t Hi (proj1 Hg)) as Hp. pose proof (guards_others _ _ w i t Hi (proj2 Hg)) as Hl.
  split; [by eapply guards_step| |].
  - eapply rev_ok_ext; [exact Ho'|]. eapply task_step_rev; [exact Hp|exact E|]. by eapply rev_ok_ext.
  - intros c. eapply contract_ok_ext; [exact Ho'|]. eapply task_step_index; [done|exact Hp|exact Hl|exact E|].
    intros c'. by eapply contract_ok_ext.
Qed.

Lemma inv_run programs schedule :
  Z.of_nat (length schedule) <= u64_max -> inv (Z.of_nat (length schedule)) (run (spawn IM.new programs) schedule).
Proof.
  induction schedule as [|i s IH] using rev_ind; intros Hn; [apply inv_spawn|].
  rewrite length_app in *. cbn [length] in *. unfold run in *. rewrite foldl_snoc.
  replace (Z.of_nat (length s + 1)) with (Z.of_nat (length s) + 1) by lia. apply inv_step; [lia|]. apply IH. lia.
Qed.

Lemma all_idle w x : finished w = true -> anyone w x -> x = Idle.
Proof.
  unfold finished. rewrite forallb_forall. intros Hf (j & t & Hj & <-).
  specialize (Hf t ltac:(apply list_elem_of_In; by eapply list_elem_of_lookup_2)). by destruct (at_pc t).
Qed.

(** ** How a contract with an interest can be missing from the index *)

(** A task on its way to index [c]. *)
Definition will_index (c : K) (x : pc) : Prop :=
  match x with RegContracts c' _ | RegIndex c' | LocIndex c' => c' = c | _ => False end.

(** A task about to take [c] out of the index: a cleanup of [c] that has found it without
    interest, or of a contract with the same hash that has found their bucket empty. *)
Definition unindexing (c : K) (x : pc) : Prop :=
  match x with CleanIndex c' => c' = c | CleanBucket c' => hash c' = hash c | _ => False end.

(** [m'] gives [c] no interest that [m] does not give it. *)
Lemma live_shrinks c (m m' : Manager) :
  (forall ps, IM.interested_peers m' !! c = Some ps -> ps <> ∅ -> exists ps', IM.interested_peers m !! c = Some ps' /\ ps' <> ∅) ->
  (IM.has_local_interest c m' = true -> IM.has_local_interest c m = true) -> live c m' -> live c m.
Proof. intros H1 H2 [(ps & Hp & Hne)|Hl]; [left; by apply (H1 ps)|right; by apply H2]. Qed.

Lemma removed_interested r l : IM.is_interested (remove_reason r l).1 = true -> IM.is_interested l = true.
Proof.
  destruct l as [h a b], r; unfold IM.is_interested; cbn; rewrite !orb_true_iff, ?Z.ltb_lt; unfold sat_sub; destruct h; intuition lia.
Qed.

Lemma row_shrinks c c' (m : Manager) ps :
  (ps <> ∅ -> exists ps', IM.interested_peers m !! c = Some ps' /\ ps' <> ∅) ->
  live c' (IM.with_peers (<[c := ps]> (IM.interested_peers m)) m) -> live c' m.
Proof.
  intros H. apply live_shrinks; [|done]. cbn. intros ps' [[<- <-]|[_ ?]]%lookup_insert_Some Hne; [by apply H|by exists ps'].
Qed.

Lemma row_grows c c' (m : Manager) ps :
  live c' (IM.with_peers (<[c := ps]> (IM.interested_peers m)) m) -> c' = c \/ live c' m.
Proof.
  destruct (decide (c' = c)) as [-> |Hne]; [by left|]. intros H. right. revert H. apply live_shrinks; [|done]. cbn.
  intros ps'. rewrite lookup_insert_ne by done. intros ? ?. by exists ps'.
Qed.

Lemma refill_nonempty c (m : Manager) :
  default ∅ (IM.interested_peers m !! c) <> ∅ -> exists ps, IM.interested_peers m !! c = Some ps /\ ps <> ∅.
Proof. destruct (IM.interested_peers m !! c) as [ps|]; [|done]. intros ?. by exists ps. Qed.

Lemma start_live call rest m pg lg m' pg' lg' t' c :
  start call rest (m, pg, lg) = ((m', pg', lg'), t') -> live c m' -> live c m \/ will_index c (at_pc t').
Proof.
  unfold start, insert_peer. intros Hs Hv. destruct call as [now c0 p s up|now c0 p s|c0 p|p|r c0|r c0].
  - case_decide; [simplify_eq; by left|]. case_match; simplify_eq; cbn [at_pc will_index].
    + left. eapply row_shrinks; [|exact Hv]. apply refill_nonempty.
    + apply row_grows in Hv as [-> |]; [by right|by left].
  - case_decide; [simplify_eq; by left|]. case_match eqn:E; [|case_match]; simplify_eq; cbn [at_pc will_index].
    + left. eapply row_shrinks; [|exact Hv]. intros _. apply refill_nonempty. intros He. by rewrite He, lookup_empty in E.
    + left. eapply row_shrinks; [|exact Hv]. apply refill_nonempty.
    + apply row_grows in Hv as [-> |]; [by right|by left].
  - left. case_decide; [by simplify_eq|]. destruct (IM.interested_peers m !! c0) as [e|] eqn:E; [|by simplify_eq].
    assert (Hd : delete p e <> ∅ -> exists ps', IM.interested_peers m !! c0 = Some ps' /\ ps' <> ∅).
    { intros Hne. exists e. split; [done|]. intros ->. by rewrite delete_empty in Hne. }
    case_match; simplify_eq; (eapply row_shrinks; [exact Hd|exact Hv]).
  - left. by simplify_eq.
  - case_decide; [simplify_eq; by left|]. simplify_eq. cbn [at_pc will_index]. destruct (decide (c = c0)) as [-> |Hne]; [by right|left].
    revert Hv. apply live_shrinks; [by intros ps; exists ps|]. unfold IM.has_local_interest. cbn. by rewrite lookup_insert_ne.
  - left. case_decide; [by simplify_eq|]. destruct (IM.local_interests m !! c0) as [l|] eqn:E; [|by simplify_eq].
    pose proof (removed_interested r l) as Hr. destruct (remove_reason r l) as [l' lost]. simplify_eq. revert Hv.
    apply live_shrinks; [by intros ps; exists ps|]. unfold IM.has_local_interest. cbn.
    destruct (decide (c = c0)) as [-> |Hne]; [rewrite lookup_insert_eq, E; apply Hr|by rewrite lookup_insert_ne].
Qed.

Lemma release_live c0 rest m pg lg m' pg' lg' t' c :
  release_removed c0 rest (m, pg, lg) = ((m', pg', lg'), t') -> live c m' -> live c m.
Proof. intros Hs. unfold release_removed in Hs. by simplify_eq. Qed.

(** A contract gets an interest only by a task that is then on its way to index it. *)
Lemma task_step_live t m pg lg m' pg' lg' t' c :
  task_step t (m, pg, lg) = ((m', pg', lg'), t') -> live c m' -> live c m \/ will_index c (at_pc t').
Proof.
  intros Hs Hv. destruct t as [x rest]. unfold task_step in Hs. cbn [at_pc todo] in Hs.
  assert (Hsame : forall m1 : Manager, IM.interested_peers m1 = IM.interested_peers m -> IM.local_interests m1 = IM.local_interests m ->
    live c m1 -> live c m \/ will_index c (at_pc t')).
  { intros m1 E1 E2 H. left. unfold live, IM.has_local_interest in *. by rewrite E1, E2 in H. }
  destruct x.
  - destruct rest; [simplify_eq; by left|]. by eapply start_live.
  - simplify_eq. by eapply Hsame; [..|exact Hv].
  - simplify_eq. by eapply Hsame; [..|exact Hv].
  - repeat case_match; simplify_eq; try (by eapply Hsame; [..|exact Hv]); by eapply Hsame; [..|eapply release_live; [exact Hs|exact Hv]].
  - case_bool_decide; by eapply Hsame; [..|eapply release_live; [exact Hs|exact Hv]].
  - case_decide; simplify_eq; [by left|]. case_match; [|by left]. left. revert Hv. apply live_shrinks; [|done].
    cbn. intros ps [_ ?]%lookup_delete_Some ?. by exists ps.
  - simplify_eq. by eapply Hsame; [..|exact Hv].
  - case_decide; simplify_eq; [by left|]. left. revert Hv. apply live_shrinks; [by intros ps; exists ps|].
    unfold IM.has_local_interest. cbn. destruct (decide (c = c0)) as [-> |Hne]; [by rewrite lookup_delete_eq|by rewrite lookup_delete_ne].
  - case_decide; simplify_eq; by left.
  - case_decide; simplify_eq; by left.
  - repeat case_match; simplify_eq; by eapply Hsame; [..|exact Hv].
  - simplify_eq. by eapply Hsame; [..|exact Hv].
  - simplify_eq. by eapply Hsame; [..|exact Hv].
Qed.

(** A step keeps [c] in the index, or is one that takes it out; a task on its way to index [c]
    goes on, or has done so. *)
Lemma task_step_indexed t m pg lg m' pg' lg' t' c :
  task_step t (m, pg, lg) = ((m', pg', lg'), t') ->
  (indexed m c -> indexed m' c \/ unindexing c (at_pc t)) /\
  (will_index c (at_pc t) -> will_index c (at_pc t') \/ indexed m' c).
Proof.
  intros Hs. destruct t as [x rest]. unfold task_step in Hs. cbn [at_pc todo] in Hs.
  assert (Hsame : forall m1 : Manager, IM.contract_hash_index m1 = IM.contract_hash_index m -> indexed m c -> indexed m1 c).
  { intros m1 E. unfold IM.indexed, IM.lookup_by_hash. by rewrite E. }
  destruct x; cbn [at_pc will_index unindexing].
  - split; [|done]. intros Hi. left. destruct rest as [|call rest]; [by simplify_eq|].
    unfold start, insert_peer in Hs. destruct call; repeat (case_match; simplify_eq); by apply Hsame.
  - simplify_eq. split; [intros Hi; left; by apply Hsame|by left].
  - simplify_eq. split; rewrite indexed_insert; [by left; right|by right; left].
  - split; [|done]. intros Hi. left. unfold release_removed in Hs. repeat (case_match; simplify_eq); by apply Hsame.
  - split; [|done]. intros Hi. left. unfold release_removed in Hs. repeat (case_match; simplify_eq); by apply Hsame.
  - split; [|done]. intros Hi. left. repeat (case_match; simplify_eq); by apply Hsame.
  - simplify_eq. split; rewrite indexed_insert; [by left; right|by right; left].
  - split; [|done]. intros Hi. left. repeat (case_match; simplify_eq); by apply Hsame.
  - split; [|done]. intros Hi. left. repeat (case_match; simplify_eq); by apply Hsame.
  - split; [|done]. intros Hi. left. repeat (case_match; simplify_eq); by apply Hsame.
  - split; [|done]. intros Hi. destruct (decide (c0 = c)) as [-> |Hne]; [by right|left].
    destruct (IM.contract_hash_index m !! hash c0) as [e|] eqn:E; simplify_eq; [|done]. apply indexed_retain; [done|]. split; [congruence|done].
  - split; [|done]. intros Hi. destruct (decide (hash c0 = hash c)) as [|Hne]; [by right|left]. simplify_eq.
    unfold IM.indexed, IM.lookup_by_hash in *. cbn. by rewrite lookup_delete_ne.
  - simplify_eq. split; [intros Hi; left; by apply Hsame|done].
Qed.

(** [c] was taken out of the index by a cleanup that was overtaken: it had an interest when the
    cleanup took its step, and has had one ever since. *)
Definition overtaken (programs : list (list Call)) (schedule : list nat) (c : K) : Prop :=
  exists before i t after, schedule = before ++ i :: after /\
    tasks (run (spawn IM.new programs) before) !! i = Some t /\ unindexing c (at_pc t) /\
    forall s, s `prefix_of` i :: after -> live c (shared (run (spawn IM.new programs) (before ++ s))).

Lemma overtaken_snoc programs schedule i c :
  live c (shared (run (spawn IM.new programs) (schedule ++ [i]))) ->
  overtaken programs schedule c -> overtaken programs (schedule ++ [i]) c.
Proof.
  intros Hv (s1 & k & t & s2 & -> & Ht & Hu & Hs). exists s1, k, t, (s2 ++ [i]). split_and!; [by rewrite <- app_assoc|done|done|].
  intros s [s' Hp]. destruct s' as [|x s' _] using rev_ind.
  - rewrite app_nil_r in Hp. subst s. by rewrite <- app_assoc in Hv.
  - apply Hs. exists s'. rewrite app_assoc, app_comm_cons in Hp. by apply app_inj_tail in Hp as [? _].
Qed.

Lemma live_indexed programs schedule c :
  let w := run (spawn IM.new programs) schedule in
  live c (shared w) ->
  indexed (shared w) c \/ (exists t, t ∈ tasks w /\ will_index c (at_pc t)) \/ overtaken programs schedule c.
Proof.
  cbv zeta. induction schedule as [|i schedule IH] using rev_ind.
  { intros [(ps & Hp & _)|Hl]; [cbn in Hp; by rewrite lookup_empty in Hp|done]. }
  intros Hv. pose proof (overtaken_snoc programs schedule i c Hv) as Hlater. pose proof Hv as Hv'.
  unfold run in Hv, IH |- *. rewrite foldl_snoc in Hv |- *. set (w := foldl step (spawn IM.new programs) schedule) in *.
  destruct (tasks w !! i) as [t|] eqn:Hi.
  2: { unfold step in Hv |- *. rewrite Hi in Hv |- *. destruct (IH Hv) as [|[|]]; auto. }
  pose proof (step_at w i t Hi) as Hs. destruct (task_step t (shared w, peer_guards w, local_guards w)) as [[[m pg] lg] t'] eqn:E.
  rewrite Hs in Hv |- *. cbn [shared tasks] in *. pose proof (lookup_lt_Some _ _ _ Hi) as Hlt.
  assert (Hself : t' ∈ <[i := t']> (tasks w)) by (apply list_elem_of_lookup; exists i; by apply list_lookup_insert_eq).
  destruct (task_step_indexed t _ _ _ _ _ _ t' c E) as [Hx1 Hx2].
  destruct (task_step_live t _ _ _ _ _ _ t' c E Hv) as [Hw|Hw]; [|right; left; by exists t'].
  destruct (IH Hw) as [Hin|[(u & Hu & Hwi)|Ho]]; [|..|right; right; by apply Hlater].
  - destruct (Hx1 Hin) as [|Hun]; [by left|]. right. right. exists schedule, i, t, []. split_and!; [done|done|done|].
    intros s [s' Hp]. destruct s as [|k [|? ?]]; [by rewrite app_nil_r|injection Hp as <- _; done|done].
  - apply list_elem_of_lookup in Hu as [k Hk]. destruct (decide (k = i)) as [-> |Hne].
    + assert (u = t) as -> by congruence. destruct (Hx2 Hwi) as [?|?]; [right; left; by exists t'|by left].
    + right. left. exists u. split; [|done]. apply list_elem_of_lookup. exists k. by rewrite list_lookup_insert_ne.
Qed.

(** C23: What concurrent tasks can and cannot do to the indexes of the interest manager.
    However the calls interleave, at every moment: for every contract whose row no task is
    writing, a peer is in the row exactly when the contract is in the peer's reverse entry; a
    contract in the hash index has an interested peer, or the node's own interest, or a task is
    at work that will decide whether to drop it; and a contract with an interest is in the hash
    index, or a task is on its way to put it there, or it was taken out by a cleanup of a
    contract of that hash which was overtaken: the interest was there when the cleanup took its
    step, and has been ever since.  When all tasks are done, no row is empty, no contract is
    left in the index without an interest, and one that has an interest and is not in the index
    fell victim to such a cleanup. *)
Theorem interest_indexes_race_free programs schedule :
  Z.of_nat (length schedule) <= u64_max ->
  let w := run (spawn IM.new programs) schedule in
  (forall c p, c ∉ peer_guards w -> is_Some (interest c p (shared w)) <-> c ∈ contracts p (shared w)) /\
  (forall c, indexed (shared w) c -> live c (shared w) \/ exists t, t ∈ tasks w /\ cleaning c (at_pc t)) /\
  (forall c, live c (shared w) ->
     indexed (shared w) c \/ (exists t, t ∈ tasks w /\ will_index c (at_pc t)) \/ overtaken programs schedule c) /\
  (finished w = true ->
     (forall c, indexed (shared w) c -> live c (shared w)) /\
     (forall c, live c (shared w) -> indexed (shared w) c \/ overtaken programs schedule c) /\
     (forall c, IM.interested_peers (shared w) !! c <> Some ∅)).
Proof.
  intros Hn w. destruct (inv_run programs schedule Hn) as [[Hg _] Hr Hc]. fold w in Hg, Hr, Hc. split_and!.
  - intros c p Hfree. apply (Hr c p); intros (j & t & Hj & Hx);
      (destruct (Hg j t c Hj) as [? _]; [by rewrite Hx|done]).
  - intros c [Hv|(x & (j & t & Hj & <-) & Hx)]%(ok_index _ _ _ _ (Hc c)); [by left|]. right. exists t.
    split; [by eapply list_elem_of_lookup_2|done].
  - intros c. apply live_indexed.
  - intros Hf. split_and!.
    + intros c [Hv|(x & ->%(all_idle w) & Hx)]%(ok_index _ _ _ _ (Hc c)); done.
    + intros c [?|[(t & [j Hj]%list_elem_of_lookup & Ht)|?]]%live_indexed; [by left| |by right].
      rewrite (all_idle w (at_pc t) Hf) in Ht; [done|by exists j, t].
    + intros c (x & ->%(all_idle w) & Hx)%(ok_empty _ _ _ _ (Hc c)); done.
Qed.

(** ** One call alone *)

(** What a call does in [Interest.v]. *)
Definition call_result (call : Call) (m : Manager) : Manager :=
  match call with
  | Register now c p s up => (IM.register_peer_interest id_bytes now c p s up m).1
  | UpsertSummary now c p s => (IM.upsert_peer_summary id_bytes now c p s m).1
  | Remove c p => (IM.remove_peer_interest id_bytes c p m).1
  | RemoveAll p => (IM.remove_all_peer_interests id_bytes contracts_order p m).1
  | AddReason r c => (IM.add_local id_bytes (add_reason r) c m).1
  | RemoveReason r c => (IM.remove_local id_bytes (remove_reason r) c m).1
  end.

(** One task by itself, from [m] at [t] with the guards it holds. *)
Definition reaches (m : Manager) (pg lg : gset K) (t : Task) (m' : Manager) (rest : list Call) : Prop :=
  exists k, run (mkWorld m pg lg [t]) (repeat 0%nat k) = mkWorld m' ∅ ∅ [mkTask Idle rest].

Lemma reaches_step m pg lg t m1 pg1 lg1 t1 m' rest :
  task_step t (m, pg, lg) = ((m1, pg1, lg1), t1) -> reaches m1 pg1 lg1 t1 m' rest -> reaches m pg lg t m' rest.
Proof.
  intros Ht [k Hk]. exists (S k). unfold run in *. cbn [repeat foldl].
  pose proof (step_at (mkWorld m pg lg [t]) 0 t eq_refl) as Hs. cbn [shared peer_guards local_guards] in Hs. rewrite Ht in Hs.
  rewrite Hs. exact Hk.
Qed.

Lemma reaches_idle m rest : reaches m ∅ ∅ (mkTask Idle rest) m rest.
Proof. by exists 0%nat. Qed.

Lemma guard_release (c : K) : ({[c]} ∪ ∅) ∖ {[c]} = (∅ : gset K).
Proof. set_solver. Qed.

(** The cleanup, from its first look. *)
Lemma reaches_cleanup c m rest :
  reaches m ∅ ∅ (mkTask (CleanPeers c) rest) (IM.cleanup_contract_if_no_interest id_bytes c m) rest.
Proof.
  unfold IM.cleanup_contract_if_no_interest. eapply reaches_step; [cbn; by rewrite decide_False by set_solver|].
  case_bool_decide; cbn [negb andb]; [apply reaches_idle|].
  eapply reaches_step; [cbn; by rewrite decide_False by set_solver|]. destruct (IM.has_local_interest c m); cbn [negb]; [apply reaches_idle|].
  unfold IM.unindex_contract_hash. destruct (IM.contract_hash_index m !! hash c) as [e|] eqn:E.
  - eapply reaches_step; [unfold task_step; cbn; by rewrite E|].
    destruct (List.filter _ e) as [|c' e'].
    + eapply reaches_step; [done|]. eapply reaches_step; [done|]. cbn. rewrite delete_insert_eq. apply reaches_idle.
    + eapply reaches_step; [done|]. apply reaches_idle.
  - eapply reaches_step; [unfold task_step; cbn; by rewrite E|]. eapply reaches_step; [done|]. apply reaches_idle.
Qed.

(** The writes of a registration. *)
Lemma reaches_track c p i m rest :
  reaches (IM.with_peers (<[c := <[p := i]> (default ∅ (IM.interested_peers m !! c))]> (IM.interested_peers m)) m)
    ({[c]} ∪ ∅) ∅ (mkTask (RegContracts c p) rest) (IM.track_peer id_bytes c p i m) rest.
Proof.
  eapply reaches_step; [done|]. eapply reaches_step; [done|]. rewrite guard_release. apply reaches_idle.
Qed.

(** The rest of a removal, once the pair is out of the row. *)
Lemma reaches_removed c p m entry rest :
  IM.interested_peers m !! c = Some entry ->
  reaches m ({[c]} ∪ ∅) ∅ (mkTask (RemContracts c p) rest)
    (let m := IM.drop_contract c p m in
     if bool_decide (entry = ∅) then IM.cleanup_contract_if_no_interest id_bytes c (IM.with_peers (delete c (IM.interested_peers m)) m) else m) rest.
Proof.
  intros Hc.
  assert (Hrel : forall m1 t, IM.interested_peers m1 = IM.interested_peers m ->
    task_step t (m1, {[c]} ∪ ∅, ∅) = release_removed c rest (IM.drop_contract c p m, {[c]} ∪ ∅, ∅) ->
    reaches m1 ({[c]} ∪ ∅) ∅ t
      (if bool_decide (entry = ∅) then IM.cleanup_contract_if_no_interest id_bytes c
         (IM.with_peers (delete c (IM.interested_peers (IM.drop_contract c p m))) (IM.drop_contract c p m)) else IM.drop_contract c p m) rest).
  { intros m1 t Hm1 Ht. eapply reaches_step; [rewrite Ht; unfold release_removed; by rewrite guard_release|].
    assert (He : IM.interested_peers (IM.drop_contract c p m) !! c = Some entry) by (unfold IM.drop_contract; by case_match).
    rewrite He. cbn [empty_entry]. case_bool_decide as Hb; [|apply reaches_idle].
    eapply reaches_step; [unfold task_step; cbn; rewrite decide_False by set_solver; rewrite He; cbn; by rewrite bool_decide_eq_true_2|].
    apply reaches_cleanup. }
  destruct (IM.peer_contracts m !! p) as [cs|] eqn:E.
  - destruct (decide (cs ∖ {[c]} = ∅)) as [Hd|Hd].
    + eapply reaches_step; [unfold task_step; cbn; rewrite E; by rewrite bool_decide_eq_true_2|]. apply Hrel; [done|].
      unfold task_step. cbn. rewrite lookup_insert_eq, bool_decide_eq_true_2 by congruence. f_equal.
      unfold IM.drop_contract. rewrite E, bool_decide_eq_true_2 by done. cbn. by rewrite delete_insert_eq.
    + apply Hrel; [done|]. unfold task_step, IM.drop_contract. cbn. by rewrite E, bool_decide_eq_false_2.
  - apply Hrel; [done|]. unfold task_step, IM.drop_contract. cbn. by rewrite E.
Qed.

Lemma race_remove_alone c p m rest :
  reaches m ∅ ∅ (mkTask Idle (Remove c p :: rest)) (call_result (Remove c p) m) rest.
Proof.
  cbn [call_result]. unfold IM.remove_peer_interest. destruct (IM.interested_peers m !! c) as [entry|] eqn:E.
  2: { eapply reaches_step; [cbn; rewrite decide_False by set_solver; by rewrite E|]. apply reaches_idle. }
  set (m1 := IM.with_peers (<[c := delete p entry]> (IM.interested_peers m)) m).
  assert (H1 : IM.interested_peers m1 !! c = Some (delete p entry)) by apply lookup_insert_eq.
  destruct (decide (is_Some (entry !! p))) as [Hp|Hp].
  - eapply reaches_step; [cbn; rewrite decide_False by set_solver; rewrite E; by rewrite bool_decide_eq_true_2|].
    rewrite (bool_decide_eq_true_2 (is_Some (entry !! p))) by done. cbn [fst]. by apply reaches_removed.
  - eapply reaches_step; [cbn; rewrite decide_False by set_solver; rewrite E; by rewrite (bool_decide_eq_false_2 (is_Some _))|].
    rewrite (bool_decide_eq_false_2 (is_Some _)) by done. cbn [fst]. fold m1. case_bool_decide as Hb; [|apply reaches_idle].
    eapply reaches_step; [unfold task_step; cbn -[m1]; rewrite decide_False by set_solver; rewrite H1; cbn -[m1]; by rewrite bool_decide_eq_true_2|].
    apply reaches_cleanup.
Qed.

Lemma reaches_trans m pg lg t m1 rest1 m2 rest2 :
  reaches m pg lg t m1 rest1 -> reaches m1 ∅ ∅ (mkTask Idle rest1) m2 rest2 -> reaches m pg lg t m2 rest2.
Proof.
  intros [k Hk] [k' Hk']. exists (k + k')%nat. unfold run in *. by rewrite repeat_app, foldl_app, Hk.
Qed.

Lemma reaches_removals cs p m rest :
  reaches m ∅ ∅ (mkTask Idle (map (fun c => Remove c p) cs ++ rest)) (IM.remove_contracts id_bytes cs p m).1 rest.
Proof.
  revert m. induction cs as [|c cs IH]; intros m; [apply reaches_idle|]. cbn [map app IM.remove_contracts].
  eapply reaches_trans; [apply race_remove_alone|]. cbn [call_result].
  destruct (IM.remove_peer_interest id_bytes c p m) as [m1 b]. cbn [fst]. specialize (IH m1).
  by destruct (IM.remove_contracts id_bytes cs p m1).
Qed.

(** A call that runs by itself does what it does in [Interest.v]. *)
Lemma race_call_alone call m rest : reaches m ∅ ∅ (mkTask Idle (call :: rest)) (call_result call m) rest.
Proof.
  destruct call; [| |apply race_remove_alone|..]; cbn [call_result].
  - unfold IM.register_peer_interest.
    destruct (negb _ && _) eqn:E; (eapply reaches_step; [cbn; rewrite decide_False by set_solver; by rewrite E|]);
      [apply reaches_idle|apply reaches_track].
  - unfold IM.upsert_peer_summary. destruct (default ∅ (IM.interested_peers m !! c) !! p) as [i|] eqn:E.
    + eapply reaches_step; [cbn; rewrite decide_False by set_solver; by rewrite E|]. apply reaches_idle.
    + destruct (_ <=? _) eqn:Es; (eapply reaches_step; [cbn; rewrite decide_False by set_solver; by rewrite E, Es|]);
        [apply reaches_idle|apply reaches_track].
  - eapply reaches_step; [done|]. apply reaches_removals.
  - unfold IM.add_local. destruct (add_reason r _) as [l b] eqn:E.
    eapply reaches_step; [cbn; rewrite decide_False by set_solver; by rewrite E|]. eapply reaches_step; [done|].
    rewrite guard_release. apply reaches_idle.
  - unfold IM.remove_local. destruct (IM.local_interests m !! c) as [l|] eqn:E.
    2: { eapply reaches_step; [cbn; rewrite decide_False by set_solver; by rewrite E|]. apply reaches_idle. }
    destruct (remove_reason r l) as [l' lost] eqn:Er.
    eapply reaches_step; [cbn; rewrite decide_False by set_solver; by rewrite E, Er|]. destruct lost; [|apply reaches_idle].
    eapply reaches_step; [cbn; by rewrite decide_False by set_solver|]. cbn. rewrite delete_insert_eq. apply reaches_cleanup.
Qed.

End races.

(** ** Examples *)

Section examples.

Abbreviation run_ex := (run IM.byte_id elements (K := nat) (P := nat)) (only parsing).
Abbreviation hash_ex := (IM.contract_hash IM.byte_id) (only parsing).

(** The last peer of a contract goes while another one registers. *)
Definition peers_swap : list (list (Call (K := nat) (P := nat))) :=
  [[Register 0 7%nat 1%nat None false; Remove 7%nat 1%nat]; [Register 0 7%nat 2%nat None false]].

(** The remover has found no interest and stands before the index when the other registers: the
    registration finds the contract indexed, and the remover then takes it out.  Peer 2 is
    interested, and the discovery exchange does not know of the contract. *)
Definition late_unindex : list nat := [0; 0; 0; 0; 0; 0; 0; 0; 0; 1; 1; 1; 0; 0; 0]%nat.

Example live_contract_unindexed :
  let w := run_ex (spawn IM.new peers_swap) late_unindex in
  finished w = true /\ is_Some (IM.get_peer_interest 7%nat 2%nat (shared w)) /\
  IM.lookup_by_hash (hash_ex 7%nat) (shared w) = [].
Proof. vm_compute. split_and!; [done|by eexists|done]. Qed.

(** The last client leaves while another one comes: the removal has seen no reason left and
    erases the entry the addition has renewed. *)
Example client_lost :
  let w := run_ex (spawn IM.new [[AddReason Client 7%nat; RemoveReason Client 7%nat]; [AddReason Client 7%nat]])
             [0; 0; 0; 1; 1; 0; 0; 0; 0; 0; 0]%nat in
  finished w = true /\ IM.has_local_interest 7%nat (shared w) = false /\ IM.lookup_by_hash (hash_ex 7%nat) (shared w) = [].
Proof. vm_compute. done. Qed.

Lemma interest_indexes_race_free_witness :
  Z.of_nat (length (take 9 late_unindex)) <= u64_max /\
  let w := run_ex (spawn IM.new peers_swap) (take 9 late_unindex) in
  IM.lookup_by_hash (hash_ex 7%nat) (shared w) = [7%nat] /\
  (live 7%nat (shared w) \/ exists t, t ∈ tasks w /\ cleaning 7%nat (at_pc t)).
Proof.
  assert (H : Z.of_nat (length (take 9 late_unindex)) <= u64_max) by (vm_compute; discriminate).
  split; [exact H|]. intros w. assert (Hi : IM.lookup_by_hash (hash_ex 7%nat) (shared w) = [7%nat]) by (vm_compute; reflexivity). split; [exact Hi|].
  refine (proj1 (proj2 (interest_indexes_race_free IM.byte_id elements peers_swap (take 9 late_unindex) H)) 7%nat _).
  change (7%nat ∈ IM.lookup_by_hash (hash_ex 7%nat) (shared w)). rewrite Hi. left.
Defined.

End examples.
End InterestRaces.
