(* ===== verification/DeltaSync.v ===== *)
(** * Deltas, staleness and resynchronisation requests

    Models the other half of [InterestManager] of [src/crates/core/src/ring/interest.rs]:
    the cache of deltas shared by [compute_delta] and the staleness probe, the gate on their
    size, the throttle of resynchronisation requests and the slots of their retry tasks.

    The contract handler is asked over a channel; its reply is an argument.  Summaries,
    deltas and states are byte strings.  [hash_bytes] is the standard library's default
    hasher, whose algorithm is unspecified.  Both caches are [lru::LruCache]s
    ([ByteBoundedLru.v] states its laws); the throttle also removes by key. *)

From S2P Require Import Prelude ByteBoundedLru.

Module DeltaSync.

Module BL := ByteBoundedLru.

#[local] Open Scope Z_scope.

Definition DELTA_CACHE_SIZE : nat := 1024.
Definition RESYNC_REQUEST_MIN_INTERVAL : Z := from_secs 30.
Definition RESYNC_THROTTLE_CACHE_SIZE : nat := 4096.
Definition MAX_OUTSTANDING_QUEUE_FULL_RESYNC_RETRIES : Z := 256.
Definition MIN_FULL_STATE_SAVING_BYTES : Z := 1024.

Abbreviation Bytes := (list Byte.byte) (only parsing).

#[export] Instance byte_eq_dec : EqDecision Byte.byte := Byte.byte_eq_dec.

Definition blen (b : Bytes) : Z := Z.of_nat (length b).
Definition is_empty (b : Bytes) : bool := match b with [] => true | _ => false end.

(** The summary-size proxy that used to gate deltas; only tests call it now. *)
Definition is_delta_efficient (summary_size state_size : Z) : bool :=
  if state_size =? 0 then false else (wrap64 (summary_size * 2)) <? state_size.

Definition summary_indicates_stale_peer (ours theirs : Bytes) (delta_indicates_change : option bool) : bool :=
  if bool_decide (ours = theirs) then false else default true delta_indicates_change.

(** ** Counters of what was sent *)

Record Counters := mkCounters {
  delta_sends : Z;
  full_state_sends : Z;
  delta_bytes_saved : Z;
  resync_requests_received : Z;
}.

Definition record_delta_send (state_size delta_size : Z) (k : Counters) : Counters :=
  mkCounters (delta_sends k +w64 1) (full_state_sends k) (delta_bytes_saved k +w64 sat_sub state_size delta_size)
    (resync_requests_received k).
Definition record_full_state_send (k : Counters) : Counters :=
  mkCounters (delta_sends k) (full_state_sends k +w64 1) (delta_bytes_saved k) (resync_requests_received k).
Definition record_resync_request_received (k : Counters) : Counters :=
  mkCounters (delta_sends k) (full_state_sends k) (delta_bytes_saved k) (resync_requests_received k +w64 1).

(** ** Replies of the contract handler *)

Section replies.
Context {E : Type}.

Inductive Reply :=
| GetSummaryResponse (summary : Bytes + E)
| GetResponse (state : option Bytes + E)
| GetDeltaResponse (delta : Bytes + E)
| OtherEvent
| ChannelError (e : E).

(** Where the message of a [ComputeFailed] comes from. *)
Inductive Failure := DeltaFailed (e : E) | UnexpectedResponse | HandlerError (e : E).

Inductive DeltaUnavailable :=
| NotEfficient (summary_size state_size : Z)
| ComputeFailed (f : Failure).

Definition get_contract_summary (r : Reply) : option Bytes :=
  match r with GetSummaryResponse (inl s) => Some s | _ => None end.

Definition get_contract_state_size (r : Reply) : option Z :=
  match r with GetResponse (inl state) => blen <$> state | _ => None end.

(** What a reply to a [GetDeltaQuery] gives. *)
Definition delta_reply (r : Reply) : Bytes + Failure :=
  match r with
  | GetDeltaResponse (inl d) => inl d
  | GetDeltaResponse (inr e) => inr (DeltaFailed e)
  | ChannelError e => inr (HandlerError e)
  | _ => inr UnexpectedResponse
  end.

Definition gate_delta_size (delta : Bytes) (summary_size our_state_size : Z) : option Bytes + DeltaUnavailable :=
  if sat_add64 our_state_size MIN_FULL_STATE_SAVING_BYTES <=? blen delta
  then inr (NotEfficient summary_size our_state_size) else inl (Some delta).

(** ** The delta cache *)

Section cache.
Context {K L : Type} `{eqK : EqDecision K}.
Context `{lru : !BL.LruCache (K * Z * Z) Bytes L}.
Variable hash_bytes : Bytes -> Z.

(** [DeltaCacheKey]: contract, peer's summary, own summary. *)
Definition delta_key (c : K) (theirs ours : Bytes) : K * Z * Z := (c, hash_bytes theirs, hash_bytes ours).

Definition cache_delta (c : K) (theirs ours delta : Bytes) (l : L) : L :=
  (BL.lru_push (delta_key c theirs ours) delta l).1.

Definition get_cached_delta (c : K) (theirs ours : Bytes) (l : L) : L * option Bytes :=
  BL.lru_get (delta_key c theirs ours) l.

(** [reply] is what the handler answers if it is asked. *)
Definition compute_delta (reply : Reply) (c : K) (theirs ours : Bytes) (our_state_size : Z) (l : L) :
    L * (option Bytes + DeltaUnavailable) :=
  let '(l, cached) := get_cached_delta c theirs ours l in
  match cached with
  | Some d => (l, if is_empty d then inl None else gate_delta_size d (blen theirs) our_state_size)
  | None =>
      match delta_reply reply with
      | inl d =>
          (cache_delta c theirs ours d l,
           if is_empty d then inl None else gate_delta_size d (blen theirs) our_state_size)
      | inr f => (l, inr (ComputeFailed f))
      end
  end.

Definition cached_staleness_verdict (c : K) (theirs ours : Bytes) (l : L) : L * option bool :=
  let '(l, d) := get_cached_delta c theirs ours l in (l, (fun d => negb (is_empty d)) <$> d).

Definition peer_summary_has_pending_state (reply : Reply) (c : K) (theirs ours : Bytes) (l : L) : L * option bool :=
  let '(l, verdict) := cached_staleness_verdict c theirs ours l in
  match verdict with
  | Some v => (l, Some v)
  | None =>
      match delta_reply reply with
      | inl d => (cache_delta c theirs ours d l, Some (negb (is_empty d)))
      | inr _ => (l, None)
      end
  end.

(** ** Traces of the two users of the cache *)

Inductive Op :=
| ComputeDelta (reply : Reply) (c : K) (theirs ours : Bytes) (our_state_size : Z)
| ProbeStaleness (reply : Reply) (c : K) (theirs ours : Bytes).

Inductive Answer := ADelta (r : option Bytes + DeltaUnavailable) | AVerdict (v : option bool).

Definition step (l : L) (o : Op) : L * Answer :=
  match o with
  | ComputeDelta r c t u n => let '(l, a) := compute_delta r c t u n l in (l, ADelta a)
  | ProbeStaleness r c t u => let '(l, a) := peer_summary_has_pending_state r c t u l in (l, AVerdict a)
  end.

Definition run (l : L) (os : list Op) : L * list Answer :=
  foldl (fun acc o => let '(l, a) := step acc.1 o in (l, acc.2 ++ [a])) (l, []) os.

(** Without a cache: every call asks the handler. *)
Definition direct (o : Op) (reply : Bytes + Failure) : Answer :=
  match o with
  | ComputeDelta _ _ t _ n =>
      ADelta (match reply with
              | inl d => if is_empty d then inl None else gate_delta_size d (blen t) n
              | inr f => inr (ComputeFailed f)
              end)
  | ProbeStaleness _ _ _ _ => AVerdict (match reply with inl d => Some (negb (is_empty d)) | inr _ => None end)
  end.

Definition reply_of (o : Op) : Bytes + Failure :=
  match o with ComputeDelta r _ _ _ _ | ProbeStaleness r _ _ _ => delta_reply r end.

Definition query_of (o : Op) : K * Bytes * Bytes :=
  match o with ComputeDelta _ c t u _ | ProbeStaleness _ c t u => (c, t, u) end.

(** *** The cache answers what the contract would *)

Context `{laws : !BL.LruLaws (K * Z * Z) Bytes L}.

(** What holds of every entry. *)
Definition all_entries (Q : K * Z * Z -> Bytes -> Prop) (l : L) : Prop :=
  BL.lru_ok l /\ Forall (fun e => Q e.1 e.2) (BL.lru_entries l).

Lemma value_of_in {A B} `{EqDecision A} (k : A) (v : B) l : BL.value_of k l = Some v -> (k, v) ∈ l.
Proof.
  unfold BL.value_of. intros ([k' v'] & Hf & [= ->])%fmap_Some.
  apply find_some in Hf as [Hin Hk]. to_props. cbn in Hk. subst k'. by apply list_elem_of_In.
Qed.

Lemma remove_key_forall {A B} `{EqDecision A} (Q : A * B -> Prop) k l : Forall Q l -> Forall Q (BL.remove_key k l).
Proof.
  intros H. apply Forall_forall. intros x Hx. rewrite Forall_forall in H. apply H.
  apply list_elem_of_In, filter_In in Hx as [Hx _]. by apply list_elem_of_In.
Qed.

Lemma lru_get_all Q k l :
  all_entries Q l -> all_entries Q (BL.lru_get k l).1 /\ (forall d, (BL.lru_get k l).2 = Some d -> Q k d).
Proof.
  intros [Hok Hq]. destruct (BL.ok_get k l Hok) as (Hok' & _ & Hv & He). rewrite Hv.
  assert (Hin : forall d, BL.value_of k (BL.lru_entries l) = Some d -> Q k d).
  { intros d Hd%value_of_in. rewrite Forall_forall in Hq. apply (Hq _ Hd). }
  split; [|done]. split; [done|]. rewrite He. destruct (BL.value_of k (BL.lru_entries l)) as [d|]; [|done].
  apply Forall_app. split; [by apply remove_key_forall|]. apply Forall_singleton. by apply Hin.
Qed.

Lemma lru_push_all Q k d l : all_entries Q l -> Q k d -> all_entries Q (BL.lru_push k d l).1.
Proof.
  intros [Hok Hq] Hk. destruct (BL.ok_push k d l Hok) as (Hok' & _ & He). split; [done|].
  assert (Hs : Forall (fun e => Q e.1 e.2) [(k, d)]) by by apply Forall_singleton.
  destruct (BL.value_of k (BL.lru_entries l)); [|case_match]; destruct He as [_ ->]; apply Forall_app; (split; [|done]).
  - by apply remove_key_forall.
  - done.
  - destruct (BL.lru_entries l); [done|]. by apply Forall_cons in Hq as [_ ?].
Qed.

Variable delta_of : K * Bytes * Bytes -> Bytes.

Definition key_of (q : K * Bytes * Bytes) : K * Z * Z := delta_key q.1.1 q.1.2 q.2.

(** [os] is a trace of a deterministic contract, in which no two queries share a key. *)
Definition deterministic (os : list Op) : Prop :=
  forall o d, o ∈ os -> reply_of o = inl d -> d = delta_of (query_of o).
Definition collision_free (os : list Op) : Prop :=
  forall o o', o ∈ os -> o' ∈ os -> key_of (query_of o) = key_of (query_of o') -> query_of o = query_of o'.

(** An entry is the delta of the queries that find it. *)
Definition entry_exact (os : list Op) (k : K * Z * Z) (d : Bytes) : Prop :=
  forall o, o ∈ os -> key_of (query_of o) = k -> d = delta_of (query_of o).

Lemma step_exact os l o :
  o ∈ os -> deterministic os -> collision_free os -> all_entries (entry_exact os) l ->
  all_entries (entry_exact os) (step l o).1 /\
  ((step l o).2 = direct o (inl (delta_of (query_of o))) \/ (step l o).2 = direct o (reply_of o)).
Proof.
  intros Ho Hd Hc Hl. destruct (lru_get_all _ (key_of (query_of o)) l Hl) as [Hl' Hg].
  assert (Hput : forall d l', reply_of o = inl d -> all_entries (entry_exact os) l' ->
                              all_entries (entry_exact os) (BL.lru_push (key_of (query_of o)) d l').1).
  { intros d l' Hr Hl2. apply lru_push_all; [done|]. intros o' Ho' Hk. rewrite (Hd o d Ho Hr). f_equal. by apply Hc. }
  destruct o as [r c t u n|r c t u]; cbn [step query_of reply_of direct] in *;
    unfold compute_delta, peer_summary_has_pending_state, cached_staleness_verdict, get_cached_delta, cache_delta, key_of in *; cbn [fst snd] in *;
    destruct (BL.lru_get (delta_key c t u) l) as [l' [d|]]; cbn [fst snd fmap option_fmap option_map] in *.
  1, 3: split; [done|]; left; pose proof (Hg d eq_refl _ Ho eq_refl) as E'; cbn [query_of] in E'; by rewrite <- E'.
  all: destruct (delta_reply r) as [d|f]; cbn [fst snd]; (split; [|by right]); [by apply Hput|done].
Qed.

Lemma run_exact os done :
  deterministic (done ++ os) -> collision_free (done ++ os) ->
  all_entries (entry_exact (done ++ os)) (run (BL.lru_new DELTA_CACHE_SIZE) done).1 /\
  Forall2 (fun o a => a = direct o (inl (delta_of (query_of o))) \/ a = direct o (reply_of o))
    done (run (BL.lru_new DELTA_CACHE_SIZE) done).2.
Proof.
  revert os. induction done as [|o done IH] using rev_ind; intros os Hd Hc.
  - cbn. destruct (BL.ok_new DELTA_CACHE_SIZE ltac:(unfold DELTA_CACHE_SIZE; lia)) as (Hok & He & _).
    split; [split; [done|by rewrite He]|constructor].
  - rewrite <- app_assoc in *. destruct (IH ([o] ++ os) Hd Hc) as [Hl Ha]. unfold run in *. rewrite foldl_snoc.
    set (acc := foldl _ (_, []) done) in *.
    destruct (step_exact (done ++ [o] ++ os) acc.1 o) as [Hl' Hs]; [set_solver|done|done|done|].
    destruct (step acc.1 o) as [l' a]. cbn [fst snd] in *. split; [done|]. apply Forall2_app; [done|]. by constructor.
Qed.

(** C25: The delta cache is transparent.  Let the contract be deterministic - the delta it computes
    for a query is a function of the contract and the two summaries - and let no two queries of
    the trace collide in the hash of the cache key.  Then over any sequence of delta
    computations and staleness probes, each with whatever the handler replies, every answer is
    the one the handler's delta gives without a cache: none for an empty delta, a refusal when
    the delta exceeds the full state by a kibibyte or more, otherwise that delta; and stale
    exactly when it is not empty.  Only a call whose own query failed may answer the failure
    instead. *)
Theorem delta_cache_transparent os :
  deterministic os -> collision_free os ->
  Forall2 (fun o a => a = direct o (inl (delta_of (query_of o))) \/ a = direct o (reply_of o))
    os (run (BL.lru_new DELTA_CACHE_SIZE) os).2.
Proof. intros Hd Hc. apply (run_exact [] os); by rewrite app_nil_r. Qed.

End cache.
End replies.

(** ** The throttle of resynchronisation requests *)

(** [LruCache::pop]. *)
Class LruRemove (Q V L : Type) := lru_remove : Q -> L -> L * option V.
Class LruRemoveLaws (Q V L : Type) `{EqDecision Q} `{!BL.LruCache Q V L, !BL.LruLaws Q V L, !LruRemove Q V L} : Prop :=
  ok_remove : forall (k : Q) (l : L), BL.lru_ok l ->
    BL.lru_ok (lru_remove k l).1 /\ BL.lru_cap (lru_remove k l).1 = BL.lru_cap l /\
    (lru_remove k l).2 = BL.value_of k (BL.lru_entries l) /\
    BL.lru_entries (lru_remove k l).1 = BL.remove_key k (BL.lru_entries l).

Section throttle.
Context {Q L : Type} `{eqQ : EqDecision Q} `{lru : !BL.LruCache Q Z L} `{rem : !LruRemove Q Z L}.

(** [k] is the contract and the target's address; the answer is the end of the window. *)
Definition begin_resync_request (now : Z) (k : Q) (l : L) : L * option Z :=
  let '(l, last) := BL.lru_get k l in
  let throttled := match last with Some t => sat_sub now t <? RESYNC_REQUEST_MIN_INTERVAL | None => false end in
  if throttled then (l, None)
  else ((BL.lru_push k now l).1, Some (now + RESYNC_REQUEST_MIN_INTERVAL)).

Definition cancel_resync_request (k : Q) (l : L) : L := (lru_remove k l).1.

Inductive Event := Begin (now : Z) (k : Q) | Cancel (k : Q).

Definition throttle_step (l : L) (e : Event) : L :=
  match e with Begin now k => (begin_resync_request now k l).1 | Cancel k => cancel_resync_request k l end.

Definition throttle_run (l : L) (es : list Event) : L := foldl throttle_step l es.

Context `{laws : !BL.LruLaws Q Z L} `{rlaws : !LruRemoveLaws Q Z L}.

(** The reservation of [k] at [t] is among the [b + 1] most recently used entries. *)
Definition reserved (k : Q) (t : Z) (b : nat) (l : L) : Prop :=
  BL.lru_ok l /\ BL.lru_cap l = RESYNC_THROTTLE_CACHE_SIZE /\
  exists l1 l2, BL.lru_entries l = l1 ++ (k, t) :: l2 /\ (length l2 <= b)%nat.

Lemma remove_key_length k (l : list (Q * Z)) : (length (BL.remove_key k l) <= length l)%nat.
Proof. apply filter_length_le. Qed.

Lemma remove_key_other k k' t (l1 l2 : list (Q * Z)) :
  k <> k' -> BL.remove_key k' (l1 ++ (k, t) :: l2) = BL.remove_key k' l1 ++ (k, t) :: BL.remove_key k' l2.
Proof. intros Hne. unfold BL.remove_key. rewrite List.filter_app. cbn. by rewrite bool_decide_eq_false_2. Qed.

Lemma value_of_mid k t (l1 l2 : list (Q * Z)) : k ∉ map fst l1 -> BL.value_of k (l1 ++ (k, t) :: l2) = Some t.
Proof.
  unfold BL.value_of. induction l1 as [|[k' t'] l1 IH]; cbn.
  - by rewrite bool_decide_eq_true_2.
  - intros [Hne Hk]%not_elem_of_cons. rewrite bool_decide_eq_false_2 by done. by apply IH.
Qed.

Lemma reserved_value k t b l : reserved k t b l -> BL.value_of k (BL.lru_entries l) = Some t.
Proof.
  intros (Hok & _ & l1 & l2 & He & _). destruct (BL.ok_keys l Hok) as [Hn _]. rewrite He in *.
  apply value_of_mid. rewrite map_app in Hn. apply NoDup_app in Hn as (_ & Hd & _). intros Hk. apply (Hd k Hk). left.
Qed.

Lemma remove_key_idem k v (l : list (Q * Z)) : BL.remove_key k (BL.remove_key k l ++ [(k, v)]) = BL.remove_key k l.
Proof.
  unfold BL.remove_key. rewrite List.filter_app. cbn. rewrite bool_decide_eq_true_2 by done. cbn. rewrite app_nil_r.
  induction l as [|x l IH]; [done|]. cbn. destruct (negb (bool_decide (x.1 = k))) eqn:E; [|done]. cbn. by rewrite E, IH.
Qed.

(** A request leaves its key at the recent end; only when the key is new and the cache full
    does the oldest entry go. *)
Lemma begin_entries now k l :
  BL.lru_ok l ->
  let l' := (begin_resync_request now k l).1 in
  BL.lru_ok l' /\ BL.lru_cap l' = BL.lru_cap l /\
  exists v, BL.lru_entries l' = BL.remove_key k (BL.lru_entries l) ++ [(k, v)] \/
            (BL.lru_cap l <= length (BL.lru_entries l))%nat /\ BL.lru_entries l' = tail (BL.lru_entries l) ++ [(k, v)].
Proof.
  intros Hok. unfold begin_resync_request. destruct (BL.ok_get k l Hok) as (Hok1 & Hc1 & Hv & He).
  destruct (BL.lru_get k l) as [l1 last]. cbn [fst snd] in *. subst last. destruct (BL.value_of k (BL.lru_entries l)) as [t|] eqn:E.
  - destruct (sat_sub now t <? _); cbn [fst]; [split_and!; [done|done|exists t; by left]|].
    destruct (BL.ok_push k now l1 Hok1) as (Hok2 & Hc2 & Hp).
    assert (Hx : BL.lru_entries (BL.lru_push k now l1).1 = BL.remove_key k (BL.lru_entries l1) ++ [(k, now)]).
    { destruct (BL.value_of k (BL.lru_entries l1)) eqn:E1; [by destruct Hp|]. exfalso.
      apply BL.value_of_none in E1. apply E1. rewrite He, map_app. apply elem_of_app. right. left. }
    split_and!; [done|congruence|]. exists now. left. by rewrite Hx, He, remove_key_idem.
  - destruct (BL.ok_push k now l1 Hok1) as (Hok2 & Hc2 & Hp). cbn [fst]. rewrite He, E in Hp.
    split_and!; [done|congruence|]. exists now. rewrite (BL.remove_absent k _ E).
    case_match eqn:Hlen; destruct Hp as [_ ->]; [by left|right]. split; [|done]. apply Nat.ltb_ge in Hlen. by rewrite <- Hc1.
Qed.

Lemma reserved_step k t b l e :
  reserved k t b l -> (S b < RESYNC_THROTTLE_CACHE_SIZE)%nat ->
  (forall k', e = Cancel k' -> k' <> k) -> (forall now, e = Begin now k -> now < t + RESYNC_REQUEST_MIN_INTERVAL) ->
  reserved k t (S b) (throttle_step l e).
Proof.
  intros Hr Hb Hcancel Hnow. pose proof (reserved_value _ _ _ _ Hr) as Hv. destruct Hr as (Hok & Hc & l1 & l2 & He & Hl).
  destruct e as [now k'|k']; cbn [throttle_step].
  - destruct (begin_entries now k' l Hok) as (Hok' & Hc' & v & Hent). split_and!; [done|congruence|].
    destruct (decide (k' = k)) as [-> |Hne].
    + specialize (Hnow now eq_refl). unfold begin_resync_request. destruct (BL.ok_get k l Hok) as (_ & _ & Hg & Hge).
      destruct (BL.lru_get k l) as [l' last]. cbn [fst snd] in *. subst last. rewrite Hv in *.
      rewrite (proj2 (Z.ltb_lt _ _)) by (unfold sat_sub, RESYNC_REQUEST_MIN_INTERVAL, from_secs, nanos_per_sec in *; lia). cbn [fst].
      rewrite Hge. exists (BL.remove_key k (BL.lru_entries l)), []. split; [done|cbn; lia].
    + destruct Hent as [Hent|[Hfull Hent]]; rewrite Hent, He.
      * rewrite remove_key_other by congruence. eexists _, _. rewrite <- app_assoc, <- app_comm_cons. split; [done|].
        rewrite length_app. cbn. pose proof (remove_key_length k' l2). lia.
      * destruct l1 as [|x l1]; [rewrite He, Hc in Hfull; cbn in Hfull; lia|]. cbn [tail app].
        exists l1, (l2 ++ [(k', v)]). rewrite <- app_assoc. split; [done|]. rewrite length_app. cbn. lia.
  - specialize (Hcancel k' eq_refl). destruct (ok_remove k' l Hok) as (Hok' & Hc' & _ & Hent). split_and!; [done|unfold cancel_resync_request; congruence|].
    unfold cancel_resync_request. rewrite Hent, He, remove_key_other by congruence. eexists _, _. split; [done|].
    pose proof (remove_key_length k' l2). lia.
Qed.

Lemma reserved_run k t es l b :
  reserved k t b l -> (b + length es < RESYNC_THROTTLE_CACHE_SIZE)%nat ->
  (forall e, e ∈ es -> match e with Cancel k' => k' <> k | Begin now k' => k' = k -> now < t + RESYNC_REQUEST_MIN_INTERVAL end) ->
  reserved k t (b + length es) (throttle_run l es).
Proof.
  revert l b. induction es as [|e es IH]; intros l b Hr Hb Hes; [by rewrite Nat.add_0_r|]. cbn [length] in *. rewrite Nat.add_succ_r.
  apply (IH _ (S b)); [|cbn; lia|intros e' He'; apply Hes; by right].
  apply reserved_step; [done|lia|..].
  - intros k' ->. exact (Hes (Cancel k') ltac:(left)).
  - intros now ->. exact (Hes (Begin now k) ltac:(left) eq_refl).
Qed.

(** C39: Resynchronisation requests for one contract and peer are spaced.  Once a request is
    granted at [t], another one for the same key before [t] plus 30 seconds is refused,
    whatever requests for whatever keys came in between, unless the reservation was cancelled
    or 4096 or more calls came in between, which can push it out of the cache. *)
Theorem resync_requests_spaced t t' k l es :
  BL.lru_ok l -> BL.lru_cap l = RESYNC_THROTTLE_CACHE_SIZE ->
  is_Some (begin_resync_request t k l).2 ->
  (length es < RESYNC_THROTTLE_CACHE_SIZE)%nat ->
  (forall e, e ∈ es -> match e with Cancel k' => k' <> k | Begin now _ => now <= t' end) ->
  t' < t + RESYNC_REQUEST_MIN_INTERVAL ->
  (begin_resync_request t' k (throttle_run (begin_resync_request t k l).1 es)).2 = None.
Proof.
  intros Hok Hc Hg Hlen Hes Ht'.
  assert (Hr : reserved k t 0 (begin_resync_request t k l).1).
  { destruct (begin_entries t k l Hok) as (Hok' & Hc' & v & Hent). split_and!; [done|congruence|].
    assert (v = t) as ->.
    { revert Hg Hent. unfold begin_resync_request. destruct (BL.ok_get k l Hok) as (Hok1 & _ & _ & _).
      destruct (BL.lru_get k l) as [l1 last]. cbn [fst snd] in *. case_match; [by intros []|]. cbn [fst snd]. intros _.
      destruct (BL.ok_push k t l1 Hok1) as (_ & _ & Hp).
      destruct (BL.value_of k (BL.lru_entries l1)); [|case_match]; destruct Hp as [_ ->];
        intros [Hx|[_ Hx]]; apply app_inj_tail in Hx as [_ [=]]; done. }
    destruct Hent as [Hent|[_ Hent]]; rewrite Hent; eexists _, []; (split; [done|cbn; lia]). }
  apply (reserved_run k t es _ 0) in Hr; [|lia|].
  - unfold begin_resync_request. pose proof (reserved_value _ _ _ _ Hr) as Hv. destruct Hr as (Hok2 & _).
    destruct (BL.ok_get k _ Hok2) as (_ & _ & Hx & _). destruct (BL.lru_get k _) as [l2 last]. cbn [fst snd] in *. subst last. rewrite Hv.
    rewrite (proj2 (Z.ltb_lt _ _)); [done|]. unfold sat_sub, RESYNC_REQUEST_MIN_INTERVAL, from_secs, nanos_per_sec in *; lia.
  - intros e He. specialize (Hes e He). destruct e; [intros _; lia|done].
Qed.

End throttle.

(** ** The slots of the retry tasks

    [resync_retry_slots] is an atomic counter; a slot is taken by a compare-and-exchange
    loop and given back when its guard is dropped. *)

Inductive SlotTask := SlotStart | SlotLoaded (cur : Z) | SlotHeld | SlotRefused | SlotDropped.

(** One atomic action; [spurious]: the weak exchange fails for no reason. *)
Definition slot_step (spurious : bool) (t : SlotTask) (count : Z) : SlotTask * Z :=
  match t with
  | SlotStart => (SlotLoaded count, count)
  | SlotLoaded cur =>
      if MAX_OUTSTANDING_QUEUE_FULL_RESYNC_RETRIES <=? cur then (SlotRefused, count)
      else if negb spurious && (count =? cur) then (SlotHeld, count +w64 1) else (SlotLoaded count, count)
  | SlotHeld => (SlotDropped, count -w64 1)
  | SlotRefused | SlotDropped => (t, count)
  end.

Definition slots_step (w : Z * list SlotTask) (e : nat * bool) : Z * list SlotTask :=
  match w.2 !! e.1 with
  | Some t => let '(t', count) := slot_step e.2 t w.1 in (count, <[e.1 := t']> w.2)
  | None => w
  end.

Definition slots_run (n : nat) (schedule : list (nat * bool)) : Z * list SlotTask :=
  foldl slots_step (0, replicate n SlotStart) schedule.

Definition held_slot (t : SlotTask) : Z := match t with SlotHeld => 1 | _ => 0 end.

(** However the tasks interleave, the counter is the number of slots held and never passes
    256. *)
Lemma retry_slots_capped n schedule :
  let w := slots_run n schedule in
  w.1 = sumZ held_slot w.2 /\ w.1 <= MAX_OUTSTANDING_QUEUE_FULL_RESYNC_RETRIES.
Proof.
  unfold slots_run. induction schedule as [|[i sp] s [Hc Hm]] using rev_ind.
  - cbn [foldl fst snd]. rewrite sumZ_zero; [unfold MAX_OUTSTANDING_QUEUE_FULL_RESYNC_RETRIES; lia|].
    intros t ->%elem_of_replicate_inv. done.
  - rewrite foldl_snoc. set (w := foldl _ _ s) in *. unfold slots_step. cbn [fst snd].
    destruct (w.2 !! i) as [t|] eqn:Hi; [|done].
    assert (Hnn : 0 <= sumZ held_slot w.2) by (apply sumZ_nonneg; intros []; cbn; lia).
    assert (Hi1 : held_slot t <= sumZ held_slot w.2) by (apply (sumZ_lookup_le _ _ i); [intros []; cbn; lia|done]).
    pose proof (fun t' => sumZ_insert held_slot w.2 i t t' Hi) as Hs.
    destruct t; cbn [slot_step]; unfold MAX_OUTSTANDING_QUEUE_FULL_RESYNC_RETRIES in *;
      repeat case_match; simplify_eq; to_props; cbn [fst snd] in *; rewrite ?Hs; cbn [held_slot] in *; try lia.
    + rewrite wrap64_id by int_lia. lia.
    + rewrite wrap64_id by int_lia. lia.
Qed.

(** ** Examples *)

#[local] Existing Instances BL.list_lru BL.list_lru_laws.

#[export] Instance list_lru_remove {Q V} `{EqDecision Q} : LruRemove Q V (list (Q * V) * nat) :=
  fun k l => ((BL.remove_key k l.1, l.2), BL.value_of k l.1).

#[export] Instance list_lru_remove_laws {Q V} `{EqDecision Q} : LruRemoveLaws Q V (list (Q * V) * nat).
Proof.
  intros k [l n] (Hn & Hl & Hc). cbn in *. split_and!; try done. destruct (BL.remove_key_spec k l Hn) as (H1 & _).
  split_and!; cbn; [done| |done]. pose proof (filter_length_le (fun x => negb (bool_decide (x.1 = k))) l).
  unfold BL.remove_key. lia.
Qed.

Section examples.

Abbreviation Cache := (list (nat * Z * Z * list Byte.byte) * nat)%type.

Definition theirs : list Byte.byte := [Byte.x01].
Definition ours : list Byte.byte := [Byte.x01; Byte.x02].
Definition the_delta : list Byte.byte := [Byte.x02].

(** A contract asked four times: the channel fails, the delta is computed, then served from the
    cache although the handler fails, also to the staleness probe. *)
Definition delta_trace : list (Op (E := nat) (K := nat)) :=
  [ComputeDelta (ChannelError 5%nat) 7%nat theirs ours 100;
   ComputeDelta (GetDeltaResponse (inl the_delta)) 7%nat theirs ours 100;
   ComputeDelta OtherEvent 7%nat theirs ours 100;
   ProbeStaleness OtherEvent 7%nat theirs ours].

Example delta_trace_answers :
  (run blen (BL.lru_new DELTA_CACHE_SIZE : Cache) delta_trace).2 =
    [ADelta (inr (ComputeFailed (HandlerError 5%nat))); ADelta (inl (Some the_delta)); ADelta (inl (Some the_delta)); AVerdict (Some true)].
Proof. vm_compute. done. Qed.

Lemma delta_cache_transparent_witness :
  Forall2 (fun o a => a = direct o (inl the_delta) \/ a = direct o (reply_of o))
    delta_trace (run blen (BL.lru_new DELTA_CACHE_SIZE : Cache) delta_trace).2.
Proof.
  refine (delta_cache_transparent blen (fun _ => the_delta) delta_trace _ _).
  - intros o d Ho Hr. unfold delta_trace in Ho. rewrite !elem_of_cons, elem_of_nil in Ho.
    destruct Ho as [-> | [-> | [-> | [-> | []]]]]; cbn in Hr; congruence.
  - intros o o' Ho Ho' _. unfold delta_trace in Ho, Ho'. rewrite !elem_of_cons, elem_of_nil in Ho, Ho'.
    destruct Ho as [-> | [-> | [-> | [-> | []]]]], Ho' as [-> | [-> | [-> | [-> | []]]]]; reflexivity.
Defined.

(** A delta larger than the state by less than a kibibyte is sent all the same. *)
Example oversized_delta_sent :
  gate_delta_size (E := nat) (replicate 101 Byte.x00) 1 100 = inl (Some (replicate 101 Byte.x00)).
Proof. vm_compute. done. Qed.

Lemma resync_requests_spaced_witness :
  (begin_resync_request (from_secs 25) 1%nat
     (throttle_run (begin_resync_request 0 1%nat (BL.lru_new RESYNC_THROTTLE_CACHE_SIZE : list (nat * Z) * nat)).1
        [Begin (from_secs 5) 2%nat; Cancel 2%nat; Begin (from_secs 10) 1%nat])).2 = None.
Proof.
  refine (resync_requests_spaced 0 (from_secs 25) 1%nat _ [Begin (from_secs 5) 2%nat; Cancel 2%nat; Begin (from_secs 10) 1%nat] _ _ _ _ _ _).
  - refine (proj1 (BL.ok_new _ _)). unfold RESYNC_THROTTLE_CACHE_SIZE. lia.
  - reflexivity.
  - vm_compute. eexists. reflexivity.
  - unfold RESYNC_THROTTLE_CACHE_SIZE. cbn [length]. lia.
  - intros e He. rewrite !elem_of_cons, elem_of_nil in He. destruct He as [-> | [-> | [-> | []]]]; vm_compute; congruence.
  - reflexivity.
Defined.

End examples.
End DeltaSync.
