(* ===== verification/ResyncLimiter.v ===== *)
(** * The token buckets of resynchronisation

    Models [TokenBucketLimiter] of [src/crates/core/src/ring/resync_rate_limit.rs] and its
    three instances: how many [ResyncRequest]s a node emits for a contract, and how many
    [ResyncResponse]s it sends to a peer and in total.  Buckets are keyed by types of other
    crates, any countable [K]; the map with its cap is [BoundedMap], and tokens are binary64
    floats.  Each call is one step with the clock as an argument.

    [limiter_cleanup_transparent] proves what the comment of [cleanup] says: forgetting an
    idle key never changes an answer. *)

From S2P Require Import Prelude BoundedMap F64 F64Round.

Module ResyncLimiter.

Module BM := BoundedMap.
Import F64Round.

#[local] Open Scope Z_scope.

Definition EMIT_REFILL_INTERVAL : Z := from_secs 60.
Definition EMIT_BURST : f64 := f64_of_Z 2.
Definition RESPOND_REFILL_INTERVAL : Z := from_secs 30.
Definition RESPOND_BURST : f64 := f64_of_Z 1.
Definition RESPOND_GLOBAL_REFILL_INTERVAL : Z := from_secs 5.
Definition RESPOND_GLOBAL_BURST : f64 := f64_of_Z 2.
Definition MAX_TRACKED_KEYS : Z := 16384.
Definition CLEANUP_AGE : Z := from_secs (5 * 60).

(** [f64::min] *)
Definition f64_min (x y : f64) : f64 :=
  if f64_is_nan x then y else if f64_is_nan y then x else if f64_lt y x then y else x.

Record Bucket := mkBucket { tokens : f64; last_refill : Z }.

Definition tokens_at (now : Z) (capacity : f64) (interval : Z) (b : Bucket) : f64 :=
  let elapsed := sat_sub now (last_refill b) in
  let gained := f64_div (as_secs_f64 elapsed) (as_secs_f64 interval) in
  f64_min (f64_add (tokens b) gained) capacity.

Definition refill (now : Z) (capacity : f64) (interval : Z) (b : Bucket) : Bucket :=
  mkBucket (tokens_at now capacity interval b) now.

(** ** Tokens *)

Lemma as_secs_f64_ge d B B' :
  0 <= B -> B * nanos_per_sec <= d <= B' * nanos_per_sec -> B' < 2 ^ 52 + 1 -> B * U <= fz (as_secs_f64 d).
Proof.
  intros HB Hd HB'. unfold as_secs_f64, nanos_per_sec in *.
  pose proof (Z.div_mod d 1000000000 ltac:(lia)) as Hdm. pose proof (Z.mod_pos_bound d 1000000000 ltac:(lia)) as Hm.
  set (s := d / 1000000000) in *. set (n := d mod 1000000000) in *. pose proof U_pos as HU.
  destruct (f64_of_Z_exact s) as [Hs1 Hs2]; [lia|]. destruct (f64_of_Z_exact n) as [Hn1 Hn2]; [lia|].
  destruct (f64_of_Z_exact 1000000000) as [Hg1 Hg2]; [lia|].
  assert (Hdiv := f64_div_rounds _ _ Hn1 Hg1 ltac:(rewrite Hg2; lia)). rewrite Hn2, Hg2 in Hdiv.
  destruct (rounds_le _ _ _ 1 1074 Hdiv) as [Hq1 Hq2]; [lia|lia| |].
  { change (2 ^ 1074) with U. assert (n * (U * U) <= 1000000000 * (U * U)) by (apply Z.mul_le_mono_nonneg_r; lia). lia. }
  change (2 ^ 1074) with U in Hq2. pose proof (f64_add_rounds _ _ Hs1 Hq1) as Hadd. rewrite Hs2 in Hadd.
  pose proof (fz_nonneg (f64_div (f64_of_Z n) (f64_of_Z 1000000000))) as Hnn.
  apply (rounds_ge _ _ _ B 1074 (s + 1) 1074 Hadd); change (2 ^ 1074) with U; try lia.
  - assert (B * U <= s * U) by (apply Z.mul_le_mono_nonneg_r; lia). lia.
Qed.

(** The clock readings the floats are exact enough for: 142 million years of seconds. *)
Definition HORIZON : Z := 2 ^ 52 * nanos_per_sec.

(** Capacity of one or two tokens, an interval of one to sixty seconds. *)
Definition config_ok (cap : f64) (interval : Z) : Prop :=
  ok cap /\ U <= fz cap <= 2 * U /\ exists n, 1 <= n <= 60 /\ interval = from_secs n.

Definition tokens_ok (b : Bucket) : Prop := ok (tokens b) /\ fz (tokens b) <= 2 * U.

(** What a bucket has gained is a float, at least 5 after more than the cleanup age. *)
Lemma gained_ok cap interval elapsed :
  config_ok cap interval -> 0 <= elapsed <= HORIZON ->
  let g := f64_div (as_secs_f64 elapsed) (as_secs_f64 interval) in
  ok g /\ fz g <= 2 ^ 52 * U /\ (CLEANUP_AGE < elapsed -> 5 * U <= fz g).
Proof.
  intros (_ & _ & n & Hn & ->) He. pose proof U_pos as HU. unfold HORIZON, CLEANUP_AGE, from_secs in *.
  destruct (as_secs_f64_le elapsed (2 ^ 52)) as [E1 E2]; [lia|lia|].
  destruct (as_secs_f64_le (n * nanos_per_sec) n) as [I1 I2]; [unfold nanos_per_sec; lia|lia|].
  pose proof (as_secs_f64_ge (n * nanos_per_sec) n n ltac:(lia) ltac:(lia) ltac:(lia)) as I3.
  set (x := as_secs_f64 elapsed) in *. set (y := as_secs_f64 (n * nanos_per_sec)) in *.
  assert (Hy : fz y = n * U) by lia. pose proof (f64_div_rounds x y E1 I1 ltac:(rewrite Hy; nia)) as Hd. rewrite Hy in Hd.
  assert (Hup : fz x * U <= 2 ^ 52 * 2 ^ 1074 * (n * U)).
  { change (2 ^ 1074) with U. assert (fz x * U <= 2 ^ 52 * U * U) by (apply Z.mul_le_mono_nonneg_r; lia). nia. }
  cbn zeta. destruct (rounds_le _ _ _ (2 ^ 52) 1074 Hd) as [G1 G2]; [lia|lia|done|]. split_and!; [done|done|]. intros Hage.
  apply (rounds_ge _ _ _ 5 1074 (2 ^ 52) 1074 Hd); try lia. change (2 ^ 1074) with U.
  pose proof (as_secs_f64_ge elapsed 300 (2 ^ 52) ltac:(lia) ltac:(lia) ltac:(lia)) as E3. fold x in E3.
  assert (5 * U * (n * U) <= 300 * U * U) by nia. assert (300 * U * U <= fz x * U) by (apply Z.mul_le_mono_nonneg_r; lia). lia.
Qed.

Lemma tokens_at_ok now cap interval b :
  config_ok cap interval -> tokens_ok b -> 0 <= sat_sub now (last_refill b) <= HORIZON ->
  let t := tokens_at now cap interval b in
  ok t /\ fz t <= 2 * U /\ (CLEANUP_AGE < sat_sub now (last_refill b) -> t = cap).
Proof.
  intros Hc [Ht1 Ht2] He. destruct (gained_ok cap interval _ Hc He) as (G1 & G2 & G3). destruct Hc as (C1 & C2 & _).
  unfold tokens_at. set (g := f64_div _ _) in *. pose proof U_pos as HU.
  pose proof (f64_add_rounds _ _ Ht1 G1) as Hadd.
  assert (Hup : fz (tokens b) + fz g <= (2 ^ 52 + 2) * 2 ^ 1074 * 1) by (change (2 ^ 1074) with U; lia).
  destruct (rounds_le _ _ _ (2 ^ 52 + 2) 1074 Hadd) as [A1 A2]; [lia|lia|done|].
  unfold f64_min. rewrite (ok_not_nan _ A1), (ok_not_nan _ C1), f64_lt_fz by done. cbn zeta. split_and!.
  - by case_match.
  - case_match eqn:E; to_props; lia.
  - intros Hage. rewrite (proj2 (Z.ltb_lt _ _)); [done|]. specialize (G3 Hage).
    pose proof (rounds_ge _ _ _ 5 1074 (2 ^ 52 + 2) 1074 Hadd ltac:(lia) ltac:(lia) Hup ltac:(lia) ltac:(lia)) as Hge.
    change (2 ^ 1074) with U in Hge. pose proof (fz_nonneg (tokens b)). specialize (Hge ltac:(lia)). lia.
Qed.

Lemma spent_ok t : ok t -> U <= fz t <= 2 * U -> ok (f64_sub t f64_one) /\ fz (f64_sub t f64_one) <= 2 * U.
Proof.
  intros Ht Hb. pose proof U_pos as HU. destruct (f64_of_Z_exact 1) as [O1 O2]; [lia|]. fold f64_one in *.
  pose proof (f64_sub_rounds t f64_one Ht O1 ltac:(lia)) as Hs. apply (rounds_le _ _ _ 2 1074 Hs); change (2 ^ 1074) with U; lia.
Qed.

Lemma one_le t : ok t -> f64_le f64_one t = (U <=? fz t).
Proof.
  intros Ht. destruct (f64_of_Z_exact 1) as [O1 O2]; [lia|]. fold f64_one in *. rewrite f64_le_fz, O2 by done. by rewrite Z.mul_1_l.
Qed.

Section limiter.
Context {K : Type} `{eqK : EqDecision K, cntK : !Countable K}.

Record TokenBucketLimiter := mkLimiter {
  buckets : BM.t (K := K) (V := Bucket);
  max_tracked : Z;
  capacity : f64;
  refill_interval : Z;
  allowed_total : Z;
  suppressed_total : Z;
}.

Definition new (cap : f64) (interval max : Z) : TokenBucketLimiter := mkLimiter BM.empty max cap interval 0 0.

Definition new_emit_limiter := new EMIT_BURST EMIT_REFILL_INTERVAL MAX_TRACKED_KEYS.
Definition new_response_limiter := new RESPOND_BURST RESPOND_REFILL_INTERVAL MAX_TRACKED_KEYS.
Definition new_response_global_limiter := new RESPOND_GLOBAL_BURST RESPOND_GLOBAL_REFILL_INTERVAL MAX_TRACKED_KEYS.

(** The map after a call, with the counter its answer goes to. *)
Definition answered (m : BM.t (K := K) (V := Bucket)) (ok : bool) (l : TokenBucketLimiter) : TokenBucketLimiter * bool :=
  (mkLimiter m (max_tracked l) (capacity l) (refill_interval l)
     (if ok then allowed_total l +w64 1 else allowed_total l)
     (if ok then suppressed_total l else suppressed_total l +w64 1), ok).

(** The [Occupied] arm on the bucket. *)
Definition take_token (now : Z) (cap : f64) (interval : Z) (b : Bucket) : Bucket * bool :=
  let b := refill now cap interval b in
  if f64_le f64_one (tokens b) then (mkBucket (f64_sub (tokens b) f64_one) (last_refill b), true) else (b, false).

Definition fresh_bucket (now : Z) (cap : f64) : Bucket := mkBucket (f64_sub cap f64_one) now.

Definition check_and_record (now : Z) (key : K) (l : TokenBucketLimiter) : TokenBucketLimiter * bool :=
  match BM.entries (buckets l) !! key with
  | Some b =>
      let '(b, ok) := take_token now (capacity l) (refill_interval l) b in
      answered (BM.set_entry key b (buckets l)) ok l
  | None =>
      let '(m, inserted) := BM.reserve_insert (max_tracked l) key (fresh_bucket now (capacity l)) (buckets l) in
      answered m inserted l
  end.

Definition droppable (now : Z) (cap : f64) (interval : Z) (b : Bucket) : bool :=
  f64_le cap (tokens_at now cap interval b) && (CLEANUP_AGE <? sat_sub now (last_refill b)).

Definition cleanup (now : Z) (l : TokenBucketLimiter) : TokenBucketLimiter :=
  mkLimiter (BM.retain (fun _ b => if droppable now (capacity l) (refill_interval l) b then None else Some b) (buckets l))
    (max_tracked l) (capacity l) (refill_interval l) (allowed_total l) (suppressed_total l).

(** ** Traces *)

Inductive op := DoCheck (key : K) | DoCleanup.

Definition step (l : TokenBucketLimiter) (e : Z * op) : TokenBucketLimiter * list bool :=
  match e.2 with
  | DoCheck k => let '(l, ok) := check_and_record e.1 k l in (l, [ok])
  | DoCleanup => (cleanup e.1 l, [])
  end.

Fixpoint run (l : TokenBucketLimiter) (es : list (Z * op)) : list bool :=
  match es with
  | [] => []
  | e :: es => (step l e).2 ++ run (step l e).1 es
  end.

(** ** Without a cap and without cleanup *)

Definition spec_check (cap : f64) (interval now : Z) (k : K) (s : gmap K Bucket) : gmap K Bucket * bool :=
  match s !! k with
  | Some b => let '(b, ok) := take_token now cap interval b in (<[k := b]> s, ok)
  | None => (<[k := fresh_bucket now cap]> s, true)
  end.

Fixpoint spec_run (cap : f64) (interval : Z) (s : gmap K Bucket) (es : list (Z * op)) : list bool :=
  match es with
  | [] => []
  | (now, DoCheck k) :: es => let '(s, ok) := spec_check cap interval now k s in ok :: spec_run cap interval s es
  | (_, DoCleanup) :: es => spec_run cap interval s es
  end.

(** ** Cleanup is transparent *)

Section transparent.
Context (cap : f64) (interval max : Z).
Hypothesis config : config_ok cap interval.

(** The limiter [l] and the unbounded table [s] at [now], [n] calls after the start: a bucket
    is the same in both, or the limiter has forgotten it and it has been idle since. *)
Record simulates (now : Z) (n : nat) (s : gmap K Bucket) (l : TokenBucketLimiter) : Prop := {
  sim_config : capacity l = cap /\ refill_interval l = interval /\ max_tracked l = max;
  sim_wf : BM.wf max (buckets l);
  sim_size : (size (BM.entries (buckets l)) <= n)%nat;
  sim_tokens k b : s !! k = Some b -> tokens_ok b /\ 0 <= last_refill b <= now;
  sim_entry k : BM.entries (buckets l) !! k = s !! k \/
    BM.entries (buckets l) !! k = None /\ exists b, s !! k = Some b /\ CLEANUP_AGE < now - last_refill b;
}.

Lemma take_token_ok now b :
  tokens_ok b -> 0 <= last_refill b <= now -> now <= HORIZON ->
  tokens_ok (take_token now cap interval b).1 /\ last_refill (take_token now cap interval b).1 = now /\
  (CLEANUP_AGE < now - last_refill b -> take_token now cap interval b = (fresh_bucket now cap, true)).
Proof.
  intros Ht Hl Hh. destruct (tokens_at_ok now cap interval b config Ht) as (T1 & T2 & T3); [unfold sat_sub; lia|].
  unfold take_token, refill. cbn [tokens last_refill]. rewrite one_le by done. destruct config as (C1 & C2 & _). split_and!.
  - case_match eqn:E; to_props; cbn; [|done]. apply spent_ok; [done|lia].
  - by case_match.
  - intros Hage. rewrite T3 by (unfold sat_sub; lia). rewrite (proj2 (Z.leb_le _ _)) by lia. done.
Qed.

Lemma fresh_ok now : tokens_ok (fresh_bucket now cap).
Proof. destruct config as (C1 & C2 & _). apply spent_ok; [done|lia]. Qed.

Lemma check_simulates now now' n s l k :
  simulates now n s l -> 0 <= now <= now' -> now' <= HORIZON -> Z.of_nat n < max ->
  (check_and_record now' k l).2 = (spec_check cap interval now' k s).2 /\
  simulates now' (S n) (spec_check cap interval now' k s).1 (check_and_record now' k l).1.
Proof.
  intros [(Hc & Hi & Hm) Hwf Hs Ht He] Hn Hh Hmax.
  assert (Hold : forall k b, s !! k = Some b -> tokens_ok b /\ 0 <= last_refill b <= now') by (intros k' b [? ?]%Ht; split; [done|lia]).
  assert (Hkeep : forall k' m b, k' <> k -> BM.entries m !! k' = BM.entries (buckets l) !! k' ->
    BM.entries m !! k' = <[k := b]> s !! k' \/ BM.entries m !! k' = None /\ exists b', <[k := b]> s !! k' = Some b' /\ CLEANUP_AGE < now' - last_refill b').
  { intros k' m b Hne ->. rewrite lookup_insert_ne by done. destruct (He k') as [|(? & b' & ? & ?)]; [by left|right].
    split; [done|]. exists b'. split; [done|lia]. }
  assert (Hins : forall m b, BM.wf max m -> (size (BM.entries m) <= S n)%nat -> tokens_ok b -> last_refill b = now' -> 0 <= now' ->
    BM.entries m = <[k := b]> (BM.entries (buckets l)) -> forall a z, simulates now' (S n) (<[k := b]> s) (mkLimiter m max cap interval a z)).
  { intros m b Hw Hz Hb Hr H0 Hen a z. split; [done|done|done|..].
    - intros k' b'. intros [[<- <-]|[_ Hq]]%lookup_insert_Some; [split; [done|lia]|by apply (Hold k')].
    - intros k'. destruct (decide (k' = k)) as [-> |Hne]; [left; cbn; by rewrite Hen, !lookup_insert_eq|].
      cbn [buckets]. apply Hkeep; [done|]. by rewrite Hen, lookup_insert_ne. }
  unfold check_and_record, spec_check, answered. rewrite Hc, Hi, Hm.
  destruct (BM.entries (buckets l) !! k) as [b|] eqn:E.
  - destruct (He k) as [Hk|[? _]]; [|congruence]. rewrite <- Hk, E. symmetry in Hk. rewrite E in Hk. destruct (Ht k b Hk) as [Hb Hl].
    destruct (take_token_ok now' b Hb) as (T1 & T2 & _); [lia|lia|]. destruct (take_token now' cap interval b) as [b' okb]. cbn [fst snd] in *.
    split; [done|]. apply Hins; [by apply BM.set_entry_wf; [by exists b|]| |done|done|lia|done].
    cbn. rewrite map_size_insert_Some by (by exists b). lia.
  - destruct (BM.reserve_insert_spec max k (fresh_bucket now' cap) (buckets l) Hwf E) as [Hw Hr].
    rewrite (proj2 (Z.leb_gt _ _)) in Hr by lia. rewrite Hr in *. cbn [fst snd] in *.
    assert (Hspec : spec_check cap interval now' k s = (<[k := fresh_bucket now' cap]> s, true)).
    { unfold spec_check. destruct (He k) as [Hk|(_ & b & Hk & Hage)]; [rewrite E in Hk; by rewrite <- Hk|]. rewrite Hk.
      destruct (Ht k b Hk) as [Hb Hl]. destruct (take_token_ok now' b Hb) as (_ & _ & Htk); [lia|lia|]. by rewrite Htk by lia. }
    unfold spec_check in Hspec. rewrite Hspec. cbn [fst snd]. split; [done|].
    apply Hins; [done| |apply fresh_ok|done| |done].
    + cbn. rewrite map_size_insert_None by done. lia.
    + lia.
Qed.

Lemma cleanup_simulates now now' n s l :
  simulates now n s l -> now <= now' -> simulates now' n s (cleanup now' l).
Proof.
  intros [(Hc & Hi & Hm) Hwf Hs Ht He] Hn. unfold cleanup. rewrite Hc, Hi, Hm.
  set (f := fun (_ : K) b => if droppable now' cap interval b then None else Some b).
  destruct (BM.retain_spec max f (buckets l) Hwf) as [Hw Hr]. split; cbn [buckets capacity refill_interval max_tracked]; [done|done|..].
  - rewrite Hr. etransitivity; [apply BM.imap_size|done].
  - intros k b [? ?]%Ht. split; [done|lia].
  - intros k. rewrite Hr, map_lookup_imap. destruct (He k) as [Hk|(Hk & b & Hb & Hage)]; rewrite Hk; cbn.
    2: { right. split; [done|]. exists b. split; [done|lia]. }
    destruct (s !! k) as [b|] eqn:E; [|by left]. cbn. unfold f. destruct (droppable now' cap interval b) eqn:Ed; [right|by left].
    split; [done|]. exists b. split; [done|]. unfold droppable in Ed. to_props. destruct (Ht k b E) as [_ ?]. unfold sat_sub in *. lia.
Qed.

Lemma run_simulates now n s l es :
  simulates now n s l -> 0 <= now -> clock_monotone now es = true -> clock_end now es <= HORIZON -> Z.of_nat (n + length es) <= max ->
  run l es = spec_run cap interval s es.
Proof.
  revert now n s l. induction es as [|[t o] es IH]; intros now n s l Hs H0 Hm He Hn; [done|]. cbn [clock_monotone clock_end length fst] in *.
  apply andb_true_iff in Hm as [Ht Hm]. to_props. pose proof (clock_end_le _ _ Hm) as Hle. destruct o as [k|]; cbn [run step snd fst spec_run].
  - destruct (check_simulates now t n s l k Hs) as [Ha Hs']; [lia|lia|lia|].
    destruct (check_and_record t k l) as [l' a], (spec_check cap interval t k s) as [s' a']. cbn [fst snd] in *. subst a'. cbn. f_equal.
    apply (IH t (S n)); [done|lia|done|done|lia].
  - apply (IH t n); [by apply (cleanup_simulates now)|lia|done|done|lia].
Qed.

End transparent.

(** Forgetting idle keys never changes an answer: while there is room for the keys, the limiter
    with its cleanups answers as one that keeps every bucket for ever. *)
Lemma limiter_cleanup_transparent cap interval max es :
  config_ok cap interval -> 0 <= max <= usize_max -> Z.of_nat (length es) <= max ->
  clock_monotone 0 es = true -> clock_end 0 es <= HORIZON ->
  run (new cap interval max) es = spec_run cap interval ∅ es.
Proof.
  intros Hc Hm Hn Ht He. apply (run_simulates cap interval max Hc 0 0); [|lia|done|done|done]. split; [done|by apply BM.wf_empty|..].
  - cbn. rewrite map_size_empty. lia.
  - intros k b. by rewrite lookup_empty.
  - intros k. left. done.
Qed.

(** The three limiters of the node are of this kind. *)
Lemma limiters_configured :
  config_ok EMIT_BURST EMIT_REFILL_INTERVAL /\ config_ok RESPOND_BURST RESPOND_REFILL_INTERVAL /\
  config_ok RESPOND_GLOBAL_BURST RESPOND_GLOBAL_REFILL_INTERVAL.
Proof.
  pose proof U_pos. destruct (f64_of_Z_exact 1) as [A1 A2]; [lia|]. destruct (f64_of_Z_exact 2) as [B1 B2]; [lia|].
  split_and!; unfold config_ok, EMIT_BURST, RESPOND_BURST, RESPOND_GLOBAL_BURST; rewrite ?A2, ?B2; (split_and!; [done|lia|lia|]);
    [by exists 60|by exists 30|by exists 5].
Qed.

End limiter.
End ResyncLimiter.
